(* ===== verification/_CoqProject ===== *)
-Q . S2P
Prelude.v
Float64.v
Backoff.v
Envelope.v
Stats.v
Ctx.v
Redis.v
Broker.v
Tree.v
PyJson.v
Pyrt.v
AsyncLane.v
SyncPool.v
Cpu.v
CpuProc.v
CpuPool.v
Exec.v
Dispatch.v
Delivery.v
Loops.v
Server.v
Recovery.v
Reaping.v
System.v
Liveness.v
Progress.v
Redelivery.v
Timing.v
Plan.v
Startup.v
Worker.v
Logsink.v
Main.v
