(* ===== verification/Prelude.v ===== *)
(** * Cauli worker: a verification development

    Cauli is a task queue worker: a Rust process ([src/worker/src/]) that reads
    task envelopes from Redis streams, runs them in an embedded Python interpreter
    or in forked Python children, and records what became of each. This library
    models that process, file by file, as executable definitions, and proves what
    its users rely on: no task is lost, none runs past a closed gate, nothing is
    acknowledged before its outcome is written.

    ** How the program fits together

    [lib.rs] checks the flags, derives a plan ([cli.rs]) and either supervises one
    process per slot of the plan ([supervisor.rs]) or becomes a worker: it loads
    the app into the interpreter ([pyrt.rs]), refuses a Redis cluster, creates the
    consumer groups, anchors its clock on Redis ([clock.rs]) and builds the shared
    context ([ctx.rs]). The fetch loop ([loops.rs]) reads entries while io slots
    are free and hands each to [dispatch.rs], which gates it, runs it in a lane
    ([exec.rs]: sync threads, event loops, cpu children of [cpu.rs]) and submits
    exactly one completion. Completions are batched, written and only then
    acknowledged by the flusher of [broker.rs]. Beside them the mover returns due
    retries to the stream, the trimmer drops acknowledged entries, recovery claims
    what a dead worker left, and a watchdog restarts a wedged process.

    ** Files

    - [Prelude]: machine integers, bytes, [Result], decimal text, reachability
      ([steps]), the tactics [mlia] and [cases], the [rust] scope.
    - [Float64]: IEEE 754 binary64 over the rationals, rounding to nearest even,
      as far as the code's arithmetic goes: [fmul], [fdiv], [powi], casts, [round].
    - [Backoff] ([backoff.rs]): the retry delay.
    - [Envelope] ([envelope.rs]): reading and writing task envelopes, results,
      truncation. JSON text is the class [Serde] with its laws [SerdeLaws].
    - [Stats] ([stats.rs]): counters, the latency histogram, the stats line.
    - [Ctx] ([ctx.rs]): entries held in flight, queue TTLs, executor responses.
    - [Redis]: the class [Redis] (commands, replies, torn round trips, other
      clients between them), the documented laws of the commands used, and a toy
      server that satisfies them.
    - [Broker] ([broker.rs]): keys, the mover and claim scripts, completion
      buffers and their flush, terminal writes, the trim boundary.
    - [Tree] ([dispatch.rs]): the byte scan that stands for a parse of [args] and
      [kwargs]. [PyJson] ([pyjson.rs]): the gate on Python values.
    - [Pyrt] ([pyrt.rs]): outcomes, pending completions, submitted batches.
      [AsyncLane] ([pyrt.rs]): the async lane from submission to callback, and
      the start of the runtime. [SyncPool] ([pyrt.rs]): the sync threads' queue as
      a step relation.
    - [Cpu], [CpuProc], [CpuPool] ([cpu.rs]): the pool's shape and the loop serving
      one child, the processes behind it, and all its slots together.
    - [Exec] ([exec.rs]): the three lanes. [Dispatch] ([dispatch.rs]): one entry
      from delivery to completion, in a state monad over what the clock, the
      broker and the executors answer, panics included.
    - [Delivery]: dispatch, flusher and mover composed over one Redis, and the
      abstract custody of entries they refine.
    - [Loops] ([loops.rs]): fetch gate, mover and trim ticks, recovery, watchdog.
    - [Server]: what recovery relies on of a Redis consumer group ([PelLaws]), and
      [MiniRedis], a server with streams, groups and delayed sets that satisfies
      every law at once. [Recovery]: what one recovery tick achieves. [Reaping]: what
      the consumer reaper deletes is empty ([ConsumerLaws]), short of a race.
    - [System] ([lib.rs], [loops.rs], [broker.rs]): the whole process, every loop
      that writes to Redis and every dispatch and flusher, as one step relation
      ([System.pstep]) over one Redis, crashes and what other processes do included;
      the in-flight map a recovery page finds is of its own dispatches ([p_live]).
      [Liveness]: its infinite runs; [Progress]: from the stream to the
      acknowledgement, with how a group read hands out entries ([ReadLaws]);
      [Redelivery]: from a dead worker's pending list to it ([OrphanLaws]).
    - [Timing] ([exec.rs], [dispatch.rs]): the wait for an io slot and the io lanes
      on the clock, against recovery's threshold; tokio's [timeout] is the class
      [Timer].
    - [Plan] ([cli.rs], [supervisor.rs]): the plan, the supervisor, and what a
      child reads of its arguments; clap is the class [Clap].
    - [Startup] ([lib.rs], [clock.rs]): flags, topology, redaction, signals,
      drain, clock. [Worker] ([lib.rs], [ctx.rs], [pyrt.rs]): how a process is
      wired and what stops it before it reads.
    - [Logsink] ([logsink.rs]): the threads that log, the bounded channel, the
      writer thread and its failing writes, the exit path's flush. [Main] ([main.rs], [wheel_main.rs],
      [lib.rs], [supervisor.rs]): the process from its arguments to its exit code.

    Definitions keep the names of the functions and types they translate. A
    function's effects are its result: a log of [op]s in [Dispatch] and [Exec],
    the server's state and a trace of commands with their replies in [Broker] and
    [Loops], a step relation where threads or events interleave ([SyncPool.pstep],
    [Cpu.handle], [CpuPool.cstep],
    [AsyncLane.lane_step], [Logsink.sink_step], [Delivery.wstep], [System.pstep]).
    A step of [System] is one turn of one loop; what other loops and processes do
    between its round trips is part of what a trip finds ([env_before]).

    ** What is proved

    - Delivery: [System.process_loses_no_task] for any run of the whole process,
      with redeliveries, refused commands, torn trips and crashes, and
      [Delivery.worker_refines_custody] against the custody of one queue;
      [Broker.ack_after_writes], [Broker.waiters_answered_once],
      [Broker.mover_never_loses] and [Broker.trim_never_below_pending] for their
      parts; [Loops.recovery_spares_live_work] for what recovery may claim.
    - Progress: on a connection that holds and with a gate that opens, a recovery
      tick ends and reaches every stuck entry that others leave alone
      ([Recovery.recovery_reaches_every_stuck_entry]); in fair runs what was
      handed over is settled, a due retry reaches its stream ([Liveness]), every
      entry of a stream is settled ([Progress.waiting_entry_is_settled]), and so is
      every entry a dead worker left pending ([Redelivery.stuck_entry_is_settled]).
    - Time: an execution that begins within the margin of its delivery ends before
      recovery may claim its entry; one that waited longer for an io slot, or a
      sync task for a thread, may be claimed while it runs ([Timing]).
    - Dispatch: one completion per entry and every resource given back
      ([Dispatch.dispatch_settles_entry]), bodies run only past every gate, the
      completion each outcome submits, and the end of every retry chain.
    - Exclusion and expiry: the idempotency claim, its lease, the deadline.
    - Data: envelopes are well typed whatever text arrives, round trip with their
      unknown fields, and are scanned exactly as a parser would; numbers are read
      exactly; Python values are accepted exactly when they encode.
    - Executors: no sync job is stranded, the pool is a bounded queue, no async
      task is stranded, the thread ceiling, every cpu job is answered once, by one slot, the serving loop's bounds, no process outlives its loop.
    - Process: the plan stays within [-c], children run their parent's plan, the
      supervisor paces and drains, a start is gated, every lane has its executor,
      the watchdog exits only on evidence, no secret of a well-formed URL reaches
      the log, the exit code says why the process ended
      ([Main.exit_code_says_why]), after a bounded flush by which what the log had
      accepted was given to stdout ([Logsink]).

    Examples that go the other way (a thread ceiling exceeded by a race, a
    password with a [?] logged, an exponent that wraps, a waiting task reclaimed
    while it runs, a queue name no child accepts, a line counted as written to a
    closed stdout, a socket directory left behind, a cpu job staged past an idle
    slot, a counted log line overtaken at exit) are stated as theorems beside the
    properties they bound.

    ** Fuel and bounds

    Recursion that is not structural takes fuel: the scan of [Tree] and the
    flusher take the length of their input, which shrinks at each turn
    ([Tree.scan_fuel] shows more changes nothing, [Broker.flusher_keeps_order]
    that nothing is left over); a decimal [u64] takes 20 digits ([parse_dec]),
    sixteen for hexadecimal. A recovery tick waits at the gate before each page;
    [Recovery.recovery_reaches_every_stuck_entry] gives the number of admissions
    ([Recovery.pages]) with which it comes to its end. Liveness is over runs in
    which tasks run, buffers are flushed, the mover ticks again and again, a read
    comes while an entry waits and recovery scans again and follows its cursors:
    tokio's scheduler is fair to its tasks. Integers are [Z] with their saturating,
    checked or wrapping operation written out.

    ** What is assumed, and not modelled

    Library code is a parameter with its documented behaviour as named laws:
    [serde_json] ([SerdeLaws]), Redis and [redis-rs] ([ErrNoop], [SetLaws],
    [KeyLaws], [StrLaws], [GroupLaws], [StreamLaws], [PelLaws], [ScoreLaws],
    [ReadLaws], [OrphanLaws], [ConsumerLaws]), tokio's [timeout] ([TimerLaws]),
    clap ([ClapLaws], on long options whose values begin with no hyphen), [rand], SHA-256, PyO3 and CPython. Each
    law is discharged by a concrete instance in the witnesses. Other clients of
    Redis are whatever the laws a theorem names allow between two round trips;
    where an entry's fate is at stake, they leave that entry alone, and no
    consumer the reaper read to be empty is given an entry before its turn ends
    ([Reaping.unraced]): the code cannot rule that race out and logs it. CPython's
    GIL has one holder at a time.

    Not modelled: sockets, process and thread creation, signal handlers (their
    outcomes are inputs), log texts, the Python shim run inside the interpreter
    ([shim.py]), the client library and scheduler ([src/py/]), benchmarks and
    integration tests. *)
From Stdlib Require Export ZArith Lia Ascii String.
From stdpp Require Export base tactics list gmap strings numbers sorting.

(** ** Machine integers *)

Declare Scope rust_scope.
Delimit Scope rust_scope with rust.

Open Scope Z_scope.

(** [u64::MAX], [usize::MAX] (64 bit targets only), [u32::MAX], [i64] bounds. *)
Definition u64_max : Z := 18446744073709551615.
Definition usize_max : Z := u64_max.
Definition u32_max : Z := 4294967295.
Definition i64_min : Z := -9223372036854775808.
Definition i64_max : Z := 9223372036854775807.

(** Range predicates. *)
Definition is_u64 (z : Z) : Prop := 0 <= z <= u64_max.
Definition is_u32 (z : Z) : Prop := 0 <= z <= u32_max.
Definition is_i64 (z : Z) : Prop := i64_min <= z <= i64_max.

(** [u64::saturating_add], [saturating_mul], [saturating_sub]. *)
Definition sat_add (a b : Z) : Z := Z.min u64_max (a + b).
Definition sat_mul (a b : Z) : Z := Z.min u64_max (a * b).
Definition sat_sub (a b : Z) : Z := Z.max 0 (a - b).

(** [i64] saturation, and the two's complement wrap of an [as i64] cast. *)
Definition i64_sat (z : Z) : Z := Z.max i64_min (Z.min i64_max z).
Definition as_i64 (z : Z) : Z := (z - i64_min) mod 18446744073709551616 + i64_min.
Definition as_i32 (z : Z) : Z := (z + 2147483648) mod 4294967296 - 2147483648.

(** Wrapping [u64] arithmetic of a release build. *)
Definition wrap64 (z : Z) : Z := z mod 18446744073709551616.

(** [u64::div_ceil]. *)
Definition div_ceil (a b : Z) : Z := (a + b - 1) / b.

Notation "a +| b" := (sat_add a b) (at level 50, left associativity) : rust_scope.
Notation "a *| b" := (sat_mul a b) (at level 40, left associativity) : rust_scope.
Notation "a -| b" := (sat_sub a b) (at level 50, left associativity) : rust_scope.

(** Unfold the machine integer vocabulary and call [lia]. *)
Ltac mach := unfold sat_add, sat_mul, sat_sub, i64_sat, is_u64, is_u32, is_i64,
  u64_max, usize_max, u32_max, i64_min, i64_max in *.
Ltac mlia := mach; lia.

Lemma sat_add_u64 a b : 0 <= a -> 0 <= b -> is_u64 (sat_add a b).
Proof. intros. mlia. Qed.

Lemma sat_add_le_l a b : is_u64 a -> 0 <= b -> a <= sat_add a b.
Proof. mlia. Qed.

Lemma sat_add_exact a b : a + b <= u64_max -> sat_add a b = a + b.
Proof. mlia. Qed.

Lemma sat_mul_u64 a b : 0 <= a -> 0 <= b -> is_u64 (sat_mul a b).
Proof. intros. mach. nia. Qed.

Lemma sat_mul_ge_l a b : is_u64 a -> 1 <= b -> a <= sat_mul a b.
Proof. intros. mach. nia. Qed.

Lemma sat_sub_u64 a b : is_u64 a -> 0 <= b -> is_u64 (sat_sub a b).
Proof. mlia. Qed.

Lemma as_i32_small z : -2147483648 <= z < 2147483648 -> as_i32 z = z.
Proof. intros. unfold as_i32. rewrite Z.mod_small; lia. Qed.

Lemma div_ceil_spec a b : 0 <= a -> 0 < b -> (div_ceil a b - 1) * b < a <= div_ceil a b * b \/ (a = 0 /\ div_ceil a b = 0).
Proof.
  intros Ha Hb. unfold div_ceil.
  pose proof (Z.div_mod (a + b - 1) b ltac:(lia)).
  pose proof (Z.mod_pos_bound (a + b - 1) b Hb).
  destruct (decide (a = 0)) as [->|]; [right | left; nia].
  split; [done|]. rewrite Z.div_small; lia.
Qed.

Lemma div_ceil_le_mul a b : 0 <= a -> 0 < b -> a <= div_ceil a b * b.
Proof. intros Ha Hb. destruct (div_ceil_spec a b Ha Hb) as [[_ ?]|[-> ->]]; lia. Qed.

Create HintDb mach.
#[export] Hint Resolve sat_add_u64 sat_mul_u64 sat_sub_u64 sat_add_le_l : mach.

(** ** Text as bytes *)

(** A [&str] scanned byte by byte is a list of [ascii]; an opaque name or key
    is a [string]. *)
Abbreviation bytes := (list ascii).
Definition bytes_of (s : string) : bytes := list_ascii_of_string s.
Definition str_of (b : bytes) : string := string_of_list_ascii b.

Lemma bytes_of_str_of b : bytes_of (str_of b) = b.
Proof. apply list_ascii_of_string_of_list_ascii. Qed.

Lemma str_of_bytes_of s : str_of (bytes_of s) = s.
Proof. apply string_of_list_ascii_of_string. Qed.

Lemma bytes_of_app s t : bytes_of (s +:+ t) = bytes_of s ++ bytes_of t.
Proof.
  induction s as [|c s IH]; [done|].
  change (c :: bytes_of (s +:+ t) = c :: (bytes_of s ++ bytes_of t)). by rewrite IH.
Qed.

Lemma bytes_of_inj s t : bytes_of s = bytes_of t -> s = t.
Proof. intros H. rewrite <- (str_of_bytes_of s), <- (str_of_bytes_of t). by rewrite H. Qed.

(** Byte value of a character. *)
Definition code (c : ascii) : Z := Z.of_N (N_of_ascii c).

Lemma code_range c : 0 <= code c < 256.
Proof. unfold code. pose proof (N_ascii_bounded c). lia. Qed.

(** ** [Result] *)

Inductive result (E A : Type) : Type :=
| Ok (a : A)
| Err (e : E).
Arguments Ok {E A} a.
Arguments Err {E A} e.

#[export] Instance result_bind E : MBind (result E) :=
  fun _ _ f m => match m with Ok a => f a | Err e => Err e end.
#[export] Instance result_fmap E : FMap (result E) :=
  fun _ _ f m => match m with Ok a => Ok (f a) | Err e => Err e end.

Definition is_ok {E A} (r : result E A) : bool := match r with Ok _ => true | Err _ => false end.
Definition ok {E A} (r : result E A) : option A := match r with Ok a => Some a | Err _ => None end.
Definition ok_or {E A} (e : E) (o : option A) : result E A :=
  match o with Some a => Ok a | None => Err e end.

Lemma bind_Ok {E A B} (m : result E A) (f : A -> result E B) b :
  m ≫= f = Ok b <-> exists a, m = Ok a /\ f a = Ok b.
Proof. destruct m; cbn; split; naive_solver. Qed.

(** ** Small list and option tools *)

(** Lookup in an association list, first binding wins. *)
Fixpoint assoc {A} (k : string) (l : list (string * A)) : option A :=
  match l with
  | [] => None
  | (k', a) :: l' => if String.eqb k k' then Some a else assoc k l'
  end.

Lemma assoc_None {A} k (l : list (string * A)) : assoc k l = None <-> k ∉ l.*1.
Proof.
  induction l as [|[k' a] l IH]; cbn; [set_solver|].
  destruct (String.eqb_spec k k') as [->|]; set_solver.
Qed.

Lemma assoc_app {A} k (l1 l2 : list (string * A)) :
  assoc k (l1 ++ l2) = match assoc k l1 with Some a => Some a | None => assoc k l2 end.
Proof. induction l1 as [|[k' a] l IH]; cbn; [done|]. by destruct (String.eqb k k'). Qed.

(** [Iterator::position] of the first element satisfying [f]. *)
Fixpoint find_index {A} (f : A -> bool) (l : list A) : option nat :=
  match l with
  | [] => None
  | x :: l' => if f x then Some 0%nat else S <$> find_index f l'
  end.

(** Split at the first element satisfying [f], which starts the second half. *)
Fixpoint break {A} (f : A -> bool) (l : list A) : list A * list A :=
  match l with
  | [] => ([], [])
  | x :: l' => if f x then ([], l) else let '(a, b) := break f l' in (x :: a, b)
  end.

Lemma break_app {A} (f : A -> bool) l : (break f l).1 ++ (break f l).2 = l.
Proof.
  induction l as [|x l IH]; [done|]. cbn. destruct (f x); [done|].
  destruct (break f l) as [a b]. cbn in *. by f_equal.
Qed.

Lemma break_fst_none {A} (f : A -> bool) l x : x ∈ (break f l).1 -> f x = false.
Proof.
  induction l as [|y l IH]; cbn; [set_solver|].
  destruct (f y) eqn:E; [set_solver|].
  destruct (break f l) as [a b]. cbn in *. set_solver.
Qed.

Lemma break_snd_head {A} (f : A -> bool) l x l' : (break f l).2 = x :: l' -> f x = true.
Proof.
  induction l as [|y l IH]; cbn; [done|].
  destruct (f y) eqn:E; [intros [= -> ->]; done|].
  destruct (break f l) as [a b]. cbn in *. done.
Qed.

Lemma break_prefix {A} (f : A -> bool) p s :
  (forall x, x ∈ p -> f x = false) -> (forall x s', s = x :: s' -> f x = true) ->
  break f (p ++ s) = (p, s).
Proof.
  intros Hp Hs. induction p as [|y p IH]; cbn.
  - destruct s as [|x s]; [done|]. cbn. by rewrite (Hs x s eq_refl).
  - rewrite (Hp y) by set_solver. rewrite IH by set_solver. done.
Qed.

(** ** Reachability, for the event loops modelled as step relations *)

Section reach.
Context {S E : Type} (step : S -> E -> S -> Prop).

(** States reached from [s] by a finite sequence of labelled steps. *)
Inductive steps : S -> list E -> S -> Prop :=
| steps_refl s : steps s [] s
| steps_cons s1 e s2 es s3 : step s1 e s2 -> steps s2 es s3 -> steps s1 (e :: es) s3.

Lemma steps_snoc s1 es s2 e s3 : steps s1 es s2 -> step s2 e s3 -> steps s1 (es ++ [e]) s3.
Proof. induction 1; intros; cbn; econstructor; eauto. constructor. Qed.

Lemma steps_app s1 es s2 es' s3 : steps s1 es s2 -> steps s2 es' s3 -> steps s1 (es ++ es') s3.
Proof. induction 1; intros; cbn; [done|]. econstructor; eauto. Qed.

(** Rule induction in its usual form: an invariant of every step holds in
    every reachable state. *)
Lemma steps_invariant (I : S -> Prop) :
  (forall s e s', I s -> step s e s' -> I s') ->
  forall s es s', steps s es s' -> I s -> I s'.
Proof. intros HI s es s' H. induction H; eauto. Qed.
End reach.

(** ** Infinite runs: what happens eventually *)

Section runs.
Context {S E : Type} (step : S -> E -> S -> Prop) (st : nat -> S) (ev : nat -> E).

Definition forever : Prop := forall n, step (st n) (ev n) (st (Datatypes.S n)).

Lemma run_steps n : forever -> steps step (st 0%nat) (ev <$> seq 0 n) (st n).
Proof.
  intros Hr. induction n as [|n IH]; [constructor|]. rewrite seq_S, fmap_app. eapply steps_snoc; [exact IH|apply Hr].
Qed.
End runs.

Lemma tail_app_ne {A} (l : list A) x : l <> [] -> tail (l ++ [x]) = tail l ++ [x].
Proof. by destruct l. Qed.

(** Case analysis on the [if]s and [match]es of a model function. *)
Ltac cases := repeat (case_match || case_decide); simplify_eq/=.

(** ** Decimal text: [u64]'s [Display] and [FromStr] *)

Definition is_digit (c : ascii) : bool := (48 <=? code c) && (code c <=? 57).
Definition digit (d : Z) : ascii := ascii_of_N (Z.to_N (48 + d)).

(** At most [fuel] digits, most significant first; 20 are enough for a [u64]. *)
Fixpoint dec_digits (fuel : nat) (n : Z) : bytes :=
  match fuel with
  | O => []
  | S f => if n <? 10 then [digit n] else dec_digits f (n / 10) ++ [digit (n mod 10)]
  end.

Definition dec_bytes (n : Z) : bytes := dec_digits 20 n.
Definition dec (n : Z) : string := str_of (dec_bytes n).

Fixpoint parse_digits (acc : Z) (l : bytes) : option Z :=
  match l with
  | [] => Some acc
  | c :: l' =>
      if is_digit c then
        let a := 10 * acc + (code c - 48) in
        if u64_max <? a then None else parse_digits a l'
      else None
  end.

(** [str::parse::<u64>]: one leading [+] is accepted, an empty string is not. *)
Definition parse_u64 (l : bytes) : option Z :=
  let l := match l with c :: l' => if Ascii.eqb c "+" then l' else l | [] => l end in
  match l with [] => None | _ => parse_digits 0 l end.

Lemma code_digit d : 0 <= d <= 9 -> code (digit d) = 48 + d.
Proof.
  intros H. unfold code, digit. rewrite N_ascii_embedding; [apply Z2N.id; lia|].
  apply N2Z.inj_lt. rewrite Z2N.id by lia. change (48 + d < 256). lia.
Qed.

Lemma is_digit_digit d : 0 <= d <= 9 -> is_digit (digit d) = true.
Proof. intros H. unfold is_digit. rewrite code_digit by done. lia. Qed.

Lemma parse_digits_app l1 : forall l2 a,
  parse_digits a (l1 ++ l2) = parse_digits a l1 ≫= fun b => parse_digits b l2.
Proof.
  induction l1 as [|c l1 IH]; intros l2 a; [done|]. cbn.
  destruct (is_digit c); [|done]. destruct (u64_max <? _); [done|]. apply IH.
Qed.

Lemma parse_dec_digits f : forall n, 0 <= n <= u64_max -> n < 10 ^ Z.of_nat f ->
  parse_digits 0 (dec_digits f n) = Some n.
Proof.
  induction f as [|f IH]; intros n Hn Hf; [change (n < 1) in Hf; cbn; f_equal; lia|].
  assert (H1 : forall a d, 0 <= d <= 9 -> 10 * a + d <= u64_max -> parse_digits a [digit d] = Some (10 * a + d)).
  { intros a d Hd Ha. cbn [parse_digits]. rewrite is_digit_digit, code_digit by done.
    destruct (u64_max <? _) eqn:E; [lia|]. f_equal. lia. }
  cbn [dec_digits]. destruct (n <? 10) eqn:E; [rewrite H1; f_equal; lia|].
  rewrite Nat2Z.inj_succ, Z.pow_succ_r in Hf by lia.
  pose proof (Z.div_mod n 10 ltac:(lia)). pose proof (Z.mod_pos_bound n 10 ltac:(lia)).
  rewrite parse_digits_app, IH; [|nia|nia]. cbn [mbind option_bind]. rewrite H1; [f_equal|..]; lia.
Qed.

Lemma dec_digits_all f n : 0 <= n -> forall c, c ∈ dec_digits f n -> is_digit c = true.
Proof.
  revert n. induction f as [|f IH]; intros n Hn c; cbn; [set_solver|].
  destruct (n <? 10) eqn:E.
  - intros ->%list_elem_of_singleton. apply is_digit_digit. lia.
  - intros [H| ->%list_elem_of_singleton]%elem_of_app.
    + eapply IH, H. apply Z.div_pos; lia.
    + apply is_digit_digit. pose proof (Z.mod_pos_bound n 10). lia.
Qed.

Lemma dec_digits_cons f n : 0 <= n -> exists c l, dec_digits (S f) n = c :: l.
Proof.
  intros. cbn. destruct (n <? 10); [eauto|]. destruct (dec_digits f (n / 10)); cbn; eauto.
Qed.

Lemma dec_bytes_cons n : 0 <= n -> exists c l, dec_bytes n = c :: l /\ is_digit c = true.
Proof.
  intros H. destruct (dec_digits_cons 19 n H) as (c & l & E). exists c, l. split; [exact E|].
  apply (dec_digits_all 20 n H). unfold dec_bytes in E. rewrite E. apply list_elem_of_here.
Qed.

Lemma parse_dec n : is_u64 n -> parse_u64 (dec_bytes n) = Some n.
Proof.
  intros H. assert (P : parse_digits 0 (dec_bytes n) = Some n) by (apply parse_dec_digits; mlia).
  destruct (dec_bytes_cons n ltac:(apply H)) as (c & l & E & Hc).
  unfold parse_u64. rewrite E in *. destruct (Ascii.eqb_spec c "+") as [->|]; [discriminate Hc|done].
Qed.

Lemma bytes_of_dec n : bytes_of (dec n) = dec_bytes n.
Proof. apply bytes_of_str_of. Qed.

Lemma dec_inj m n : is_u64 m -> is_u64 n -> dec m = dec n -> m = n.
Proof.
  intros Hm Hn H. pose proof (parse_dec m Hm) as A. pose proof (parse_dec n Hn) as B.
  rewrite <- !bytes_of_dec, H in *. congruence.
Qed.

Lemma parse_digits_range l : forall a n, 0 <= a -> parse_digits a l = Some n -> 0 <= n /\ (l <> [] -> n <= u64_max).
Proof.
  induction l as [|c l IH]; intros a n Ha; cbn; [intros [= ->]; done|].
  destruct (is_digit c) eqn:Ec; [|done]. destruct (u64_max <? _) eqn:E; [done|]. intros H.
  assert (Hd : 48 <= code c) by (unfold is_digit in Ec; lia). 
  apply IH in H as HI; [|lia]. destruct HI as [H1 H2]. split; [done|]. intros _.
  destruct l; [injection H as <-; lia|]. by apply H2.
Qed.

Lemma parse_u64_range l n : parse_u64 l = Some n -> is_u64 n.
Proof.
  unfold parse_u64. destruct l as [|c l]; [done|].
  destruct (Ascii.eqb c "+"); [destruct l as [|c' l]; [done|]|];
    intros H; apply parse_digits_range in H as [H1 H2]; try lia; (split; [done|by apply H2]).
Qed.

(** A string literal of JSON or Redis text: [s] between double quotes. *)
Definition dq : string := String "034" EmptyString.
Definition quoted (s : string) : string := dq +:+ s +:+ dq.
