(* ===== verification/Float64.v ===== *)
(** IEEE 754 binary64, as the worker's [f64] arithmetic uses it.

    A finite value is an exact rational; every operation rounds the exact
    result to the nearest 53 bit dyadic, ties to even, with gradual underflow
    and overflow to infinity.  The sign of zero is not kept: no operation of
    the worker observes it.  [powi] is the compiler runtime's square and
    multiply loop, the code [f64::powi] with a run time exponent reaches. *)
From S2P Require Import Prelude.
From Stdlib Require Import QArith Qround Qabs Qpower Qreduction Lqa.

Open Scope Q_scope.

Inductive f64 :=
| FNaN
| FInf (neg : bool)
| Fin (q : Q).

(** Powers of two, negative exponents included. *)
Definition p2 (e : Z) : Q := Qpower 2 e.

(** [floor (log2 q)] for a positive [q]. *)
Definition qlog2 (q : Q) : Z :=
  let k := (Z.log2 (Qnum q) - Z.log2 (Zpos (Qden q)))%Z in
  if Qle_bool (p2 k) q then k else (k - 1)%Z.

(** Nearest integer, ties to even. *)
Definition rne (x : Q) : Z :=
  let f := Qfloor x in
  match Qcompare (x - inject_Z f) (1 # 2) with
  | Lt => f
  | Gt => (f + 1)%Z
  | Eq => if Z.even f then f else (f + 1)%Z
  end.

(** Exponent of the last place of the binade of [q]. *)
Definition ulp_exp (q : Q) : Z := Z.max (qlog2 q - 52) (-1074).

(** Rounding of a positive exact result. *)
Definition rnd_pos (q : Q) : Q := inject_Z (rne (q * p2 (- ulp_exp q))) * p2 (ulp_exp q).

(** Round to nearest even; [2^1024] and above overflow. *)
Definition rnd (q : Q) : f64 :=
  match Qcompare q 0 with
  | Eq => Fin 0
  | Gt => let r := rnd_pos q in if Qle_bool (p2 1024) r then FInf false else Fin (Qred r)
  | Lt => let r := rnd_pos (- q) in if Qle_bool (p2 1024) r then FInf true else Fin (Qred (- r))
  end.

Definition fneg_sign (x : f64) : bool :=
  match x with FInf b => b | Fin q => negb (Qle_bool 0 q) | FNaN => false end.

Definition fmul (x y : f64) : f64 :=
  match x, y with
  | FNaN, _ | _, FNaN => FNaN
  | Fin a, Fin b => rnd (a * b)
  | FInf s, Fin b => if Qeq_bool b 0 then FNaN else FInf (xorb s (fneg_sign y))
  | Fin a, FInf s => if Qeq_bool a 0 then FNaN else FInf (xorb (fneg_sign x) s)
  | FInf s, FInf t => FInf (xorb s t)
  end.

Definition fdiv (x y : f64) : f64 :=
  match x, y with
  | FNaN, _ | _, FNaN => FNaN
  | Fin a, Fin b => if Qeq_bool b 0 then if Qeq_bool a 0 then FNaN else FInf (fneg_sign x) else rnd (a / b)
  | Fin _, FInf _ => Fin 0
  | FInf s, Fin _ => FInf (xorb s (fneg_sign y))
  | FInf _, FInf _ => FNaN
  end.

(** [PartialOrd]: [None] when one side is NaN. *)
Definition fcmp (x y : f64) : option comparison :=
  match x, y with
  | FNaN, _ | _, FNaN => None
  | Fin a, Fin b => Some (Qcompare a b)
  | FInf s, FInf t => Some (if Bool.eqb s t then Eq else if s then Lt else Gt)
  | FInf s, Fin _ => Some (if s then Lt else Gt)
  | Fin _, FInf s => Some (if s then Gt else Lt)
  end.

Definition fgt (x y : f64) : bool := match fcmp x y with Some Gt => true | _ => false end.
Definition flt (x y : f64) : bool := match fcmp x y with Some Lt => true | _ => false end.
Definition fge (x y : f64) : bool := match fcmp x y with Some Gt | Some Eq => true | _ => false end.
Definition fle (x y : f64) : Prop := fcmp x y = Some Lt \/ fcmp x y = Some Eq.

Definition is_finite (x : f64) : bool := match x with Fin _ => true | _ => false end.

(** [f64::max]: a NaN operand is ignored. *)
Definition fmax (x y : f64) : f64 :=
  match fcmp x y with
  | None => match x with FNaN => y | _ => x end
  | Some Lt => y
  | Some _ => x
  end.

(** [f64::round]: half away from zero. *)
Definition qround (q : Q) : Z :=
  if Qle_bool 0 q then Qfloor (q + (1 # 2)) else (- Qfloor (- q + (1 # 2)))%Z.
Definition fround (x : f64) : f64 := match x with Fin q => Fin (inject_Z (qround q)) | _ => x end.

(** [x.fract() == 0.0], for a finite [x]. *)
Definition fract_zero (x : f64) : bool :=
  match x with Fin q => Qeq_bool (inject_Z (Qfloor q)) q | _ => false end.

(** [x as u64]: truncates toward zero and saturates; NaN is 0. *)
Definition as_u64 (x : f64) : Z :=
  match x with
  | FNaN => 0%Z
  | FInf s => if s then 0%Z else u64_max
  | Fin q => Z.min u64_max (Z.max 0 (Qfloor q))
  end.

(** [z as f64] for an integer. *)
Definition of_int (z : Z) : f64 := rnd (inject_Z z).

(** [powi]: square and multiply on the magnitude, one division at the end for
    a negative exponent. *)
Fixpoint powi_loop (r a : f64) (b : positive) : f64 :=
  match b with
  | xH => fmul r a
  | xO b' => powi_loop r (fmul a a) b'
  | xI b' => powi_loop (fmul r a) (fmul a a) b'
  end.
Definition powi (a : f64) (n : Z) : f64 :=
  match n with
  | Z0 => Fin 1
  | Zpos b => powi_loop (Fin 1) a b
  | Zneg b => fdiv (Fin 1) (powi_loop (Fin 1) a b)
  end.

(** ** Powers of two *)

Lemma p2_pos e : 0 < p2 e.
Proof. apply Qpower_0_lt. reflexivity. Qed.

Lemma p2_plus a b : p2 (a + b) == p2 a * p2 b.
Proof. apply Qpower_plus. discriminate. Qed.

Lemma p2_Z e : (0 <= e)%Z -> p2 e == inject_Z (2 ^ e).
Proof. intros. unfold p2. by rewrite Zpower_Qpower by lia. Qed.

Lemma p2_opp e : p2 e * p2 (- e) == 1.
Proof. rewrite <- p2_plus. by rewrite Z.add_opp_diag_r. Qed.

Lemma p2_le a b : (a <= b)%Z -> p2 a <= p2 b.
Proof. intros. apply Qpower_le_compat_l; [lia|discriminate]. Qed.

Lemma p2_lt a b : (a < b)%Z -> p2 a < p2 b.
Proof.
  intros. replace b with (a + (b - a))%Z by lia. rewrite p2_plus, (p2_Z (b - a)) by lia.
  assert (1 < inject_Z (2 ^ (b - a))) by (apply (inject_Z_injective 1 1) || (rewrite <- (Zlt_Qlt 1); apply Z.pow_gt_1; lia)).
  pose proof (p2_pos a). nra.
Qed.

Lemma p2_lt_inv a b : p2 a < p2 b -> (a < b)%Z.
Proof. intros H. destruct (Z.lt_ge_cases a b) as [|Hge]; [done|]. apply p2_le in Hge. lra. Qed.

Lemma qlog2_spec q : 0 < q -> p2 (qlog2 q) <= q /\ q < p2 (qlog2 q + 1).
Proof.
  intros Hq. destruct q as [n d].
  assert (Hn : (0 < n)%Z) by (unfold Qlt in Hq; cbn in Hq; lia).
  set (N := Z.log2 n). set (D := Z.log2 (Zpos d)).
  pose proof (Z.log2_spec n Hn) as [HN1 HN2]. pose proof (Z.log2_spec (Zpos d) ltac:(lia)) as [HD1 HD2].
  fold N in HN1, HN2. fold D in HD1, HD2.
  assert (HN0 : (0 <= N)%Z) by apply Z.log2_nonneg. assert (HD0 : (0 <= D)%Z) by apply Z.log2_nonneg.
  assert (E : n # d == inject_Z n / inject_Z (Zpos d)) by (by rewrite Qmake_Qdiv).
  rewrite Zle_Qle in HN1, HD1. rewrite Zlt_Qlt in HN2, HD2.
  rewrite <- !p2_Z in * by lia.
  assert (Hd : 0 < inject_Z (Zpos d)) by reflexivity.
  assert (Hup : n # d < p2 (N - D + 1)).
  { rewrite E. apply Qlt_shift_div_r; [done|].
    eapply Qlt_le_trans; [apply HN2|]. replace (Z.succ N) with ((N - D + 1) + D)%Z by lia.
    rewrite p2_plus. pose proof (p2_pos (N - D + 1)). nra. }
  assert (Hlo : p2 (N - D - 1) <= n # d).
  { rewrite E. apply Qle_shift_div_l; [done|].
    eapply Qle_trans; [|apply HN1].
    assert (E2 : p2 N == p2 (N - D - 1) * p2 (Z.succ D)) by (rewrite <- p2_plus; f_equiv; lia).
    rewrite E2. pose proof (p2_pos (N - D - 1)). nra. }
  unfold qlog2. cbn [Qnum Qden]. fold N D.
  destruct (Qle_bool (p2 (N - D)) (n # d)) eqn:B.
  - apply Qle_bool_iff in B. done.
  - replace (N - D - 1 + 1)%Z with (N - D)%Z by lia. split; [done|].
    apply Qnot_le_lt. intros H. apply Qle_bool_iff in H. congruence.
Qed.

(** ** Rounding *)

Lemma rne_ge k x : inject_Z k <= x -> (k <= rne x)%Z.
Proof.
  intros H. assert (k <= Qfloor x)%Z by (rewrite <- (Qfloor_Z k); by apply Qfloor_resp_le).
  unfold rne. destruct (Qcompare _ _); [destruct (Z.even _)| |]; lia.
Qed.

Lemma rne_le k x : x <= inject_Z k -> (rne x <= k)%Z.
Proof.
  intros H. pose proof (Qfloor_le x) as Hf. pose proof (Qlt_floor x).
  destruct (Z.eq_dec (Qfloor x) k) as [E|N].
  - assert (x == inject_Z k) by (apply Qle_antisym; [done|by rewrite <- E]).
    unfold rne. rewrite E.
    assert (C : Qcompare (x - inject_Z k) (1 # 2) = Lt) by (rewrite <- Qlt_alt; lra). rewrite C. lia.
  - assert (Qfloor x <= k)%Z by (rewrite <- (Qfloor_Z k); by apply Qfloor_resp_le).
    unfold rne. destruct (Qcompare _ _); [destruct (Z.even _)| |]; lia.
Qed.

Lemma rne_exact k x : x == inject_Z k -> rne x = k.
Proof. intros H. apply Z.le_antisymm; [apply rne_le|apply rne_ge]; lra. Qed.

(** A nonnegative value with a 53 bit significand. *)
Definition repr (q : Q) : Prop :=
  exists m e : Z, (0 <= m < 2 ^ 53)%Z /\ (-1074 <= e)%Z /\ q == inject_Z m * p2 e.

Lemma repr_compat q q' : q == q' -> repr q -> repr q'.
Proof. intros E (m & e & ? & ? & H). exists m, e. rewrite <- E. done. Qed.

Lemma repr_int z : (0 <= z <= 2 ^ 53)%Z -> repr (inject_Z z).
Proof.
  intros H. destruct (Z.eq_dec z (2 ^ 53)) as [->|].
  - exists 1%Z, 53%Z. repeat split; lia || reflexivity.
  - exists z, 0%Z. repeat split; try lia. change (p2 0) with 1. lra.
Qed.

(** A representable value and the quantum of [q]: either the value is a
    multiple of the quantum or it lies below the binade of [q]. *)
Lemma repr_split r q :
  repr r -> 0 < q ->
  (exists k, r == inject_Z k * p2 (ulp_exp q)) \/
  (r < p2 (qlog2 q) /\ ulp_exp q = (qlog2 q - 52)%Z).
Proof.
  intros (m & e & Hm & He & Hr) Hq. destruct (Z_le_gt_dec (ulp_exp q) e) as [Hle|Hgt].
  - left. exists (m * 2 ^ (e - ulp_exp q))%Z. rewrite Hr, inject_Z_mult, <- p2_Z by lia.
    rewrite <- Qmult_assoc, <- p2_plus. replace (e - ulp_exp q + ulp_exp q)%Z with e by lia. reflexivity.
  - right. assert (Hu : ulp_exp q = (qlog2 q - 52)%Z) by (unfold ulp_exp in *; lia). split; [|done].
    rewrite Hr. assert (E : p2 (qlog2 q) == p2 (qlog2 q - e) * p2 e) by (rewrite <- p2_plus; f_equiv; lia).
    rewrite E. assert (inject_Z m < p2 (qlog2 q - e)).
    { eapply Qlt_le_trans; [|apply (p2_le 53); lia]. rewrite (p2_Z 53) by lia. rewrite <- Zlt_Qlt. lia. }
    pose proof (p2_pos e). nra.
Qed.

Lemma p2_quot q e : q * p2 (- e) * p2 e == q.
Proof. rewrite <- Qmult_assoc, (Qmult_comm (p2 (- e))), p2_opp. lra. Qed.

Lemma rnd_pos_ge r q : repr r -> 0 < q -> r <= q -> r <= rnd_pos q.
Proof.
  intros Hr Hq Hle. unfold rnd_pos. pose proof (p2_pos (ulp_exp q)) as Hp.
  pose proof (p2_quot q (ulp_exp q)) as Hquot. pose proof (qlog2_spec q Hq) as [HL _].
  destruct (repr_split r q Hr Hq) as [[k Hk]|[Hlt Hu]].
  - assert (inject_Z k <= q * p2 (- ulp_exp q)) as Hint by nra.
    apply rne_ge in Hint. rewrite Zle_Qle in Hint. rewrite Hk. nra.
  - assert (E : p2 (qlog2 q) == inject_Z (2 ^ 52) * p2 (ulp_exp q)).
    { rewrite <- (p2_Z 52), <- p2_plus by lia. f_equiv. lia. }
    assert (inject_Z (2 ^ 52) <= q * p2 (- ulp_exp q)) as Hint by nra.
    apply rne_ge in Hint. rewrite Zle_Qle in Hint. nra.
Qed.

Lemma rnd_pos_le r q : repr r -> 0 < q -> q <= r -> rnd_pos q <= r.
Proof.
  intros Hr Hq Hle. unfold rnd_pos. pose proof (p2_pos (ulp_exp q)) as Hp.
  pose proof (p2_quot q (ulp_exp q)) as Hquot. pose proof (qlog2_spec q Hq) as [HL _].
  destruct (repr_split r q Hr Hq) as [[k Hk]|[Hlt Hu]]; [|lra].
  assert (q * p2 (- ulp_exp q) <= inject_Z k) as Hint by nra.
  apply rne_le in Hint. rewrite Zle_Qle in Hint. rewrite Hk. nra.
Qed.

Lemma rnd_pos_exact q : repr q -> 0 < q -> rnd_pos q == q.
Proof. intros. apply Qle_antisym; [apply rnd_pos_le|apply rnd_pos_ge]; done || lra. Qed.

Lemma repr_0 : repr 0.
Proof. apply (repr_int 0). lia. Qed.

Lemma rnd_pos_nonneg q : 0 < q -> 0 <= rnd_pos q.
Proof. intros. apply rnd_pos_ge; [apply repr_0|done|lra]. Qed.

(** The result of rounding is representable, unless it overflows. *)
Lemma rnd_pos_repr q : 0 < q -> repr (rnd_pos q).
Proof.
  intros Hq. pose proof (qlog2_spec q Hq) as [HL HU]. unfold rnd_pos.
  set (m := rne (q * p2 (- ulp_exp q))).
  assert (Hm : (0 <= m <= 2 ^ 53)%Z).
  { pose proof (p2_pos (- ulp_exp q)). split.
    - apply rne_ge. change (inject_Z 0) with 0. nra.
    - apply rne_le. rewrite <- p2_Z by lia.
      assert (E : p2 53 == p2 (ulp_exp q + 53) * p2 (- ulp_exp q)) by (rewrite <- p2_plus; f_equiv; lia).
      rewrite E. assert (p2 (qlog2 q + 1) <= p2 (ulp_exp q + 53)) by (apply p2_le; unfold ulp_exp; lia). nra. }
  destruct (Z.eq_dec m (2 ^ 53)) as [->|].
  - exists 1%Z, (ulp_exp q + 53)%Z. repeat split; try (unfold ulp_exp; lia).
    rewrite p2_plus. change (p2 53) with (inject_Z (2 ^ 53)). change (inject_Z 1) with 1. ring.
  - exists m, (ulp_exp q). repeat split; (unfold ulp_exp; lia) || lia || reflexivity.
Qed.

(** ** What the arithmetic of the delays needs *)

(** A nonnegative representable finite value, or positive infinity. *)
Definition nonneg (x : f64) : Prop :=
  match x with FNaN => False | FInf s => s = false | Fin q => repr q end.

Lemma repr_nonneg q : repr q -> 0 <= q.
Proof.
  intros (m & e & ? & ? & H). rewrite H. pose proof (p2_pos e).
  assert (0 <= inject_Z m) by (rewrite <- (Zle_Qle 0); lia). nra.
Qed.

Lemma rnd_cases q : 0 <= q ->
  (q == 0 /\ rnd q = Fin 0) \/
  (0 < q /\ rnd q = if Qle_bool (p2 1024) (rnd_pos q) then FInf false else Fin (Qred (rnd_pos q))).
Proof.
  intros Hq. unfold rnd. destruct (Qcompare q 0) eqn:C.
  - left. rewrite <- Qeq_alt in C. done.
  - rewrite <- Qlt_alt in C. lra.
  - right. rewrite <- Qgt_alt in C. done.
Qed.

Lemma rnd_nonneg q : 0 <= q -> nonneg (rnd q).
Proof.
  intros Hq. destruct (rnd_cases q Hq) as [[_ ->]|[Hp ->]]; [apply repr_0|].
  destruct (Qle_bool _ _); cbn; [done|].
  eapply repr_compat; [symmetry; apply Qred_correct|]. by apply rnd_pos_repr.
Qed.

Lemma fle_Fin a b : a <= b -> fle (Fin a) (Fin b).
Proof. unfold fle. cbn. destruct (Qcompare a b) eqn:C; auto. rewrite <- Qgt_alt in C. lra. Qed.

Lemma fle_Fin_inv a b : fle (Fin a) (Fin b) -> a <= b.
Proof. unfold fle. cbn. intros [[= H]|[= H]]; [rewrite <- Qlt_alt in H|rewrite <- Qeq_alt in H]; lra. Qed.

Lemma rnd_ge r q : repr r -> r <= q -> fle (Fin r) (rnd q).
Proof.
  intros Hr Hle. pose proof (repr_nonneg r Hr).
  destruct (rnd_cases q) as [[E ->]|[Hp ->]]; [lra|apply fle_Fin; lra|].
  destruct (Qle_bool _ _); [by left|]. apply fle_Fin. rewrite Qred_correct. by apply rnd_pos_ge.
Qed.

Lemma rnd_le r q : repr r -> r < p2 1024 -> 0 <= q -> q <= r -> fle (rnd q) (Fin r).
Proof.
  intros Hr Hb H0 Hle.
  destruct (rnd_cases q H0) as [[E ->]|[Hp ->]]; [apply fle_Fin; lra|].
  pose proof (rnd_pos_le r q Hr Hp Hle).
  destruct (Qle_bool _ _) eqn:B; [apply Qle_bool_iff in B; lra|]. apply fle_Fin. by rewrite Qred_correct.
Qed.

Lemma rnd_exact q : repr q -> q < p2 1024 -> rnd q = Fin (Qred q).
Proof.
  intros Hr Hb. destruct (rnd_cases q (repr_nonneg q Hr)) as [[E ->]|[Hp ->]].
  - f_equal. transitivity (Qred 0); [done|]. by apply Qred_complete.
  - pose proof (rnd_pos_exact q Hr Hp) as E.
    destruct (Qle_bool _ _) eqn:B; [apply Qle_bool_iff in B; lra|]. f_equal. by apply Qred_complete.
Qed.

Lemma int_lt_p2_1024 z : (z <= 2 ^ 64)%Z -> inject_Z z < p2 1024.
Proof.
  intros. rewrite Zle_Qle in H. eapply Qle_lt_trans; [apply H|]. rewrite <- (p2_Z 64) by lia. apply p2_lt. lia.
Qed.

Lemma of_int_exact z : (0 <= z <= 2 ^ 53)%Z -> of_int z = Fin (inject_Z z).
Proof.
  intros. unfold of_int. rewrite rnd_exact.
  - f_equal. unfold inject_Z, Qred. cbn. destruct z; [done|cbn|lia].
    pose proof (Z.ggcd_gcd (Zpos p) 1) as G. pose proof (Z.ggcd_correct_divisors (Zpos p) 1) as D.
    rewrite Z.gcd_1_r in G. cbn in G, D. destruct (Pos.ggcd p 1) as [g [a b]]. cbn in *. 
    destruct D as [D1 D2]. injection G as ->. f_equal; lia.
  - by apply repr_int.
  - apply int_lt_p2_1024. lia.
Qed.

(** [u64 as f64]: a finite value, at most [2^64], within rounding of [z]. *)
Lemma of_int_fin z : is_u64 z -> exists q, of_int z = Fin q /\ repr q /\ q <= inject_Z (2 ^ 64).
Proof.
  intros H. unfold of_int. assert (Hz : 0 <= inject_Z z) by (rewrite <- (Zle_Qle 0); mlia).
  assert (Hr : repr (inject_Z (2 ^ 64))) by (exists 1%Z, 64%Z; repeat split; try lia; reflexivity).
  assert (Hle : fle (rnd (inject_Z z)) (Fin (inject_Z (2 ^ 64)))).
  { apply rnd_le; [done|apply int_lt_p2_1024; lia|done|]. rewrite <- Zle_Qle. mlia. }
  pose proof (rnd_nonneg _ Hz) as Hn.
  destruct (rnd (inject_Z z)) as [|s|q]; cbn in Hn; [done|subst; by destruct Hle|].
  apply fle_Fin_inv in Hle. eauto.
Qed.

Lemma as_u64_range x : (0 <= as_u64 x < 2 ^ 64)%Z.
Proof. destruct x as [|[]|q]; cbn; unfold u64_max; lia. Qed.

Lemma as_u64_mono x y : fle x y -> (as_u64 x <= as_u64 y)%Z.
Proof.
  unfold fle. destruct x as [|s|a], y as [|t|b]; cbn; try (intros [?|?]; discriminate).
  - destruct s, t; cbn; intros [?|?]; try discriminate; mlia.
  - destruct s; intros [?|?]; try discriminate. mlia.
  - destruct t; intros [?|?]; try discriminate. mlia.
  - intros H. assert (a <= b) as Hle by (by apply fle_Fin_inv).
    apply Qfloor_resp_le in Hle. mlia.
Qed.

Lemma qround_mono a b : 0 <= a -> a <= b -> (qround a <= qround b)%Z.
Proof.
  intros Ha Hab. unfold qround. rewrite !(proj2 (Qle_bool_iff _ _)) by lra.
  apply Qfloor_resp_le. lra.
Qed.

Lemma qround_Z z : (0 <= z)%Z -> qround (inject_Z z) = z.
Proof.
  intros H. unfold qround. rewrite (proj2 (Qle_bool_iff _ _)) by (rewrite <- (Zle_Qle 0); done).
  apply Z.le_antisymm.
  - apply Z.lt_succ_r. rewrite Zlt_Qlt. eapply Qle_lt_trans; [apply Qfloor_le|].
    rewrite inject_Z_succ || (unfold Z.succ; rewrite inject_Z_plus). change (inject_Z 1) with 1. lra.
  - rewrite <- (Qfloor_Z z) at 1. apply Qfloor_resp_le. lra.
Qed.

(** Equality of floats up to the representation of the rational. *)
Definition feq (x y : f64) : Prop :=
  match x, y with
  | FNaN, FNaN => True
  | FInf s, FInf t => s = t
  | Fin a, Fin b => a == b
  | _, _ => False
  end.

#[export] Instance feq_equiv : Equivalence feq.
Proof.
  split.
  - intros [| |]; cbn; reflexivity || done.
  - intros [| |] [| |]; cbn; done.
  - intros [| |] [| |] [| |]; cbn; try done; [congruence|]. intros -> ->. reflexivity.
Qed.

#[export] Instance fcmp_proper : Proper (feq ==> feq ==> eq) fcmp.
Proof.
  intros [|s|a] [|s'|a'] H [|t|b] [|t'|b'] H'; cbn in *; subst; try done. by rewrite H, H'.
Qed.

#[export] Instance as_u64_proper : Proper (feq ==> eq) as_u64.
Proof.
  intros [|s|a] [|s'|a'] H; cbn in *; subst; try done. by rewrite (Qfloor_comp _ _ H).
Qed.
