(* ===== verification/Backoff.v ===== *)
(** Retry delays ([worker/src/backoff.rs], PROTOCOL 4.2): the deterministic
    exponential part, the jitter drawn from it, and its bounds. *)
From S2P Require Import Prelude Float64.
From Stdlib Require Import QArith Qround Qreduction Lqa.
Open Scope Z_scope.

(** [attempt: u32], [base_ms: u64], [max_ms: u64] as [Z]; the exponent is
    [(a - 1) as i32]. *)
Definition base_backoff_ms (attempt base_ms : Z) (factor : f64) (max_ms : Z) : f64 :=
  let a := Z.max attempt 1 in
  let factor := fmax factor (Fin 1) in
  let d := fmul (of_int base_ms) (powi factor (as_i32 (a - 1))) in
  let maxf := of_int max_ms in
  if negb (is_finite d) || fgt d maxf then maxf else fmax d (Fin 0).

(** What [rand]'s [random_range(lo..=hi)] promises: a value of the range. *)
Definition uniform_ok (uniform : f64 -> f64 -> f64) : Prop :=
  forall lo hi, fle lo hi -> fle lo (uniform lo hi) /\ fle (uniform lo hi) hi.

Section compute.
Context (uniform : f64 -> f64 -> f64).

Definition compute_backoff_ms (attempt base_ms : Z) (factor : f64) (max_ms : Z) (jitter : bool) : Z :=
  let d := base_backoff_ms attempt base_ms factor max_ms in
  let d := if jitter && fgt d (Fin 0) then uniform (fmul (Fin (1 # 2)) d) d else d in
  as_u64 (fround d).
End compute.

(** The source's own test vectors. *)
Example exact_no_jitter_sequence :
  map (fun a => compute_backoff_ms (fun _ hi => hi) a 500 (Fin 2) 60000 false) [0; 1; 2; 3; 4; 8]
  = [500; 500; 1000; 2000; 4000; 60000].
Proof. vm_compute. reflexivity. Qed.
Example non_integer_factor : compute_backoff_ms (fun _ hi => hi) 3 100 (Fin (3 # 2)) 60000 false = 225.
Proof. vm_compute. reflexivity. Qed.
Example negative_factor_is_floored : compute_backoff_ms (fun _ hi => hi) 5 500 (Fin (-3)) 60000 false = 500.
Proof. vm_compute. reflexivity. Qed.

(** ** Powers of a factor of at least one *)

Lemma fmul_ge1 x y : fle (Fin 1) x -> fle (Fin 1) y -> fle (Fin 1) (fmul x y).
Proof.
  destruct x as [|s|a], y as [|t|b]; cbn; try (intros [?|?]; discriminate); try (intros ? [?|?]; discriminate).
  - destruct s, t; intros [?|?] [?|?]; try discriminate; by left.
  - intros Hs Hb. apply fle_Fin_inv in Hb. destruct s; [by destruct Hs|].
    destruct (Qeq_bool b 0) eqn:E; [apply Qeq_bool_iff in E; lra|].
    unfold xorb, fneg_sign. rewrite (proj2 (Qle_bool_iff 0 b)) by lra. by left.
  - intros Ha Ht. apply fle_Fin_inv in Ha. destruct t; [by destruct Ht|].
    destruct (Qeq_bool a 0) eqn:E; [apply Qeq_bool_iff in E; lra|].
    unfold fneg_sign. rewrite (proj2 (Qle_bool_iff 0 a)) by lra. by left.
  - intros Ha Hb. apply fle_Fin_inv in Ha, Hb. apply rnd_ge; [apply (repr_int 1); lia|]. nra.
Qed.

Lemma powi_loop_ge1 b : forall r a, fle (Fin 1) r -> fle (Fin 1) a -> fle (Fin 1) (powi_loop r a b).
Proof. induction b; intros; cbn; eauto using fmul_ge1. Qed.

Lemma powi_ge1 a n : fle (Fin 1) a -> 0 <= n -> fle (Fin 1) (powi a n).
Proof.
  intros Ha Hn. destruct n; cbn; [by right| |lia]. apply powi_loop_ge1; [by right|done].
Qed.

Lemma fmax1_ge1 x : fle (Fin 1) (fmax x (Fin 1)).
Proof.
  unfold fmax. destruct x as [|s|q]; cbn; [by right|destruct s; by (left + right)|].
  destruct (Qcompare q 1) eqn:C; [|by right|].
  - apply fle_Fin. rewrite <- Qeq_alt in C. lra.
  - apply fle_Fin. rewrite <- Qgt_alt in C. lra.
Qed.

(** ** The deterministic delay lies between the base and the cap *)

Definition exact (z : Z) : Prop := 0 <= z <= 2 ^ 53.

Lemma base_backoff_range attempt base factor cap :
  0 <= attempt <= 2147483648 -> exact base -> exact cap ->
  exists q, base_backoff_ms attempt base factor cap = Fin q /\ repr q /\
    (inject_Z (Z.min base cap) <= q)%Q /\ (q <= inject_Z cap)%Q.
Proof.
  intros Ha Hb Hc. unfold base_backoff_ms. rewrite as_i32_small by lia.
  set (p := powi _ _). assert (Hp : fle (Fin 1) p) by (apply powi_ge1; [apply fmax1_ge1|lia]).
  rewrite (of_int_exact base), (of_int_exact cap) by done.
  assert (Hmin : (inject_Z (Z.min base cap) <= inject_Z base)%Q) by (rewrite <- Zle_Qle; lia).
  assert (Hminc : (inject_Z (Z.min base cap) <= inject_Z cap)%Q) by (rewrite <- Zle_Qle; lia).
  assert (Hcap : exists q, Fin (inject_Z cap) = Fin q /\ repr q /\
    (inject_Z (Z.min base cap) <= q)%Q /\ (q <= inject_Z cap)%Q)
    by (exists (inject_Z cap); repeat split; [by apply repr_int|done|lra]).
  destruct p as [|s|r]; [by destruct Hp| |].
  - cbn. destruct (Qeq_bool _ _); exact Hcap.
  - apply fle_Fin_inv in Hp. cbn [fmul].
    assert (H0 : (0 <= inject_Z base)%Q) by (rewrite <- (Zle_Qle 0); unfold exact in *; lia).
    assert (Hge : fle (Fin (inject_Z base)) (rnd (inject_Z base * r)))
      by (apply rnd_ge; [by apply repr_int|nra]).
    pose proof (rnd_nonneg (inject_Z base * r) ltac:(nra)) as Hn.
    destruct (rnd _) as [|s|d]; cbn [is_finite negb orb]; [exact Hcap|exact Hcap|].
    apply fle_Fin_inv in Hge. cbn in Hn. pose proof (repr_nonneg d Hn).
    unfold fgt. cbn. destruct (Qcompare d (inject_Z cap)) eqn:C; [| |exact Hcap].
    + rewrite <- Qeq_alt in C. exists d. unfold fmax. cbn.
      destruct (Qcompare d 0) eqn:C0; [|rewrite <- Qlt_alt in C0; lra|]; repeat split; auto; lra.
    + rewrite <- Qlt_alt in C. exists d. unfold fmax. cbn.
      destruct (Qcompare d 0) eqn:C0; [|rewrite <- Qlt_alt in C0; lra|]; repeat split; auto; lra.
Qed.

Lemma as_u64_round q : (0 <= q)%Q -> (q <= inject_Z (2 ^ 53))%Q -> as_u64 (fround (Fin q)) = qround q.
Proof.
  intros H0 H. unfold fround, as_u64. rewrite Qfloor_Z.
  pose proof (qround_mono 0 q ltac:(lra) H0) as H1. pose proof (qround_mono q _ H0 H) as H2.
  change 0%Q with (inject_Z 0) in H1. rewrite !qround_Z in * by lia. mlia.
Qed.

Lemma fle_between p x q : fle (Fin p) x -> fle x (Fin q) -> exists u, x = Fin u /\ (p <= u)%Q /\ (u <= q)%Q.
Proof.
  destruct x as [|[]|u]; intros H1 H2; [by destruct H1|by destruct H1|by destruct H2|].
  apply fle_Fin_inv in H1, H2. eauto.
Qed.

Lemma half_repr q : repr q -> fle (fmul (Fin (1 # 2)) (Fin q)) (Fin q) \/ (inject_Z (2 ^ 53) < q)%Q.
Proof.
  intros Hr. pose proof (repr_nonneg q Hr).
  destruct (Qlt_le_dec (inject_Z (2 ^ 53)) q) as [|Hle]; [by right|left].
  cbn. apply rnd_le; [done| |nra|nra].
  eapply Qle_lt_trans; [apply Hle|]. apply int_lt_p2_1024. lia.
Qed.

Lemma half_ge n q : exact n -> (inject_Z n <= q)%Q -> fle (Fin (inject_Z n * (1 # 2))) (fmul (Fin (1 # 2)) (Fin q)).
Proof.
  intros Hn Hle. cbn. apply rnd_ge; [|nra].
  destruct (Z.eq_dec n (2 ^ 53)) as [->|]; [exists 1, 52|exists n, (-1)];
    unfold exact in *; (repeat split); (lia || reflexivity || done).
Qed.

Lemma qround_half n : 0 <= n -> n <= 2 * qround (inject_Z n * (1 # 2)).
Proof.
  intros H. unfold qround.
  rewrite (proj2 (Qle_bool_iff _ _)) by (assert (0 <= inject_Z n)%Q by (by rewrite <- (Zle_Qle 0)); lra).
  pose proof (Qlt_floor (inject_Z n * (1 # 2) + (1 # 2))) as Hf.
  set (k := Qfloor _) in *. rewrite inject_Z_plus in Hf. change (inject_Z 1) with 1%Q in Hf.
  assert (inject_Z n < inject_Z (2 * k + 1))%Q as Hlt.
  { rewrite inject_Z_plus, inject_Z_mult. change (inject_Z 2) with 2%Q. change (inject_Z 1) with 1%Q. lra. }
  rewrite <- Zlt_Qlt in Hlt. lia.
Qed.

(** C39. PROTOCOL 4.2 for attempts up to [2^31], which is as far as the exponent
    cast goes (at the next one the delay is zero, [backoff_exponent_cast_wraps]),
    and a base and a cap up to [2^53], which a double holds exactly: the delay
    never exceeds [backoff_max_ms], and never drops below
    [min(backoff_base_ms, backoff_max_ms)], or half of that under jitter,
    whatever the factor (below one, negative and NaN included). *)
Theorem compute_backoff_bounds uniform attempt base factor cap jitter :
  uniform_ok uniform -> 0 <= attempt <= 2147483648 -> exact base -> exact cap ->
  let r := compute_backoff_ms uniform attempt base factor cap jitter in
  r <= cap /\ Z.min base cap <= (if jitter then 2 else 1) * r.
Proof.
  intros Hu Ha Hb Hc. unfold compute_backoff_ms.
  destruct (base_backoff_range attempt base factor cap Ha Hb Hc) as (q & -> & Hr & Hlo & Hhi).
  set (m := Z.min base cap) in *. assert (Hm : exact m) by (unfold exact in *; lia).
  assert (Hm0 : (0 <= inject_Z m)%Q) by (rewrite <- (Zle_Qle 0); apply Hm).
  assert (Hcap : (inject_Z cap <= inject_Z (2 ^ 53))%Q) by (rewrite <- Zle_Qle; apply Hc).
  destruct (jitter && fgt (Fin q) (Fin 0)) eqn:J.
  - apply andb_true_iff in J as [-> _].
    destruct (half_repr q Hr) as [Hh|]; [|lra].
    destruct (Hu _ _ Hh) as [H1 H2]. pose proof (half_ge m q Hm Hlo) as H3.
    destruct (fle_between _ _ _ H3 Hh) as (h & Eh & H3' & _). rewrite Eh in H1, H2 |- *.
    destruct (fle_between _ _ _ H1 H2) as (u & -> & H1' & H2'). rewrite as_u64_round by lra. split.
    + rewrite <- (qround_Z cap) by apply Hc. apply qround_mono; lra.
    + pose proof (qround_half m ltac:(apply Hm)).
      pose proof (qround_mono (inject_Z m * (1 # 2)) u ltac:(lra) ltac:(lra)). lia.
  - rewrite as_u64_round by lra. split.
    + rewrite <- (qround_Z cap) by apply Hc. apply qround_mono; lra.
    + pose proof (qround_mono (inject_Z m) q ltac:(lra) ltac:(lra)) as H.
      rewrite qround_Z in H by apply Hm. pose proof (qround_mono 0 q ltac:(lra) ltac:(lra)) as H'.
      change (qround 0) with 0 in H'. destruct jitter; lia.
Qed.

Lemma compute_backoff_bounds_witness :
  uniform_ok (fun lo _ => lo) /\
  (let r := compute_backoff_ms (fun lo _ => lo) 20 500 (Fin 2) 10000 true in
   r <= 10000 /\ Z.min 500 10000 <= 2 * r).
Proof.
  assert (H : uniform_ok (fun lo _ => lo)).
  { intros lo hi Hle. split; [|done]. right. destruct lo as [|s|q]; cbn.
    - by destruct Hle.
    - by destruct s.
    - f_equal. by rewrite <- Qeq_alt. }
  split; [exact H|].
  apply (compute_backoff_bounds (fun lo _ => lo) 20 500 (Fin 2) 10000 true H); unfold exact; lia.
Defined.

(** ** Exactness at the default factor 2.0 *)

Definition isp2 (x : f64) (n : Z) : Prop :=
  if n <=? 1023 then exists q, x = Fin q /\ (q == p2 n)%Q else x = FInf false.

Lemma repr_p2 z n : 0 <= z < 2 ^ 53 -> 0 <= n -> repr (inject_Z z * p2 n).
Proof. intros. exists z, n. repeat split; lia || reflexivity. Qed.

Lemma rnd_scaled z n : 0 < z < 2 ^ 53 -> 0 <= n ->
  rnd (inject_Z z * p2 n) =
    if Qle_bool (p2 1024) (inject_Z z * p2 n) then FInf false else Fin (Qred (inject_Z z * p2 n)).
Proof.
  intros Hz Hn. pose proof (repr_p2 z n ltac:(lia) Hn) as Hr.
  assert (0 < inject_Z z)%Q by (rewrite <- (Zlt_Qlt 0); lia). pose proof (p2_pos n).
  destruct (rnd_cases (inject_Z z * p2 n) ltac:(nra)) as [[E _]|[Hp ->]]; [nra|].
  pose proof (rnd_pos_exact _ Hr Hp) as E.
  replace (Qle_bool (p2 1024) (rnd_pos (inject_Z z * p2 n))) with (Qle_bool (p2 1024) (inject_Z z * p2 n)).
  - destruct (Qle_bool _ _); [done|]. f_equal. by apply Qred_complete.
  - apply eq_true_iff_eq. rewrite !Qle_bool_iff, E. done.
Qed.

Lemma fmul_isp2 x y a b : 0 <= a -> 0 <= b -> isp2 x a -> isp2 y b -> isp2 (fmul x y) (a + b).
Proof.
  unfold isp2. intros Ha Hb. destruct (Z.leb_spec a 1023) as [La|La], (Z.leb_spec b 1023) as [Lb|Lb].
  - intros (q & -> & Eq) (r & -> & Er). cbn.
    assert (E : (q * r == inject_Z 1 * p2 (a + b))%Q).
    { rewrite p2_plus, Eq, Er. change (inject_Z 1) with 1%Q. ring. }
    assert (R : rnd (q * r) = rnd (inject_Z 1 * p2 (a + b)) \/ feq (rnd (q * r)) (rnd (inject_Z 1 * p2 (a + b)))).
    { right. pose proof (p2_pos (a + b)). pose proof (repr_p2 1 (a + b) ltac:(lia) ltac:(lia)) as Hr.
      destruct (rnd_cases (q * r)) as [[Z0 _]|[P1 ->]]; [rewrite E; change (inject_Z 1) with 1%Q; lra|rewrite E in Z0; change (inject_Z 1) with 1%Q in Z0; lra|].
      rewrite rnd_scaled by lia.
      pose proof (rnd_pos_exact _ (repr_compat _ _ (Qeq_sym _ _ E) Hr) P1) as E1.
      replace (Qle_bool (p2 1024) (rnd_pos (q * r))) with (Qle_bool (p2 1024) (inject_Z 1 * p2 (a + b))).
      - destruct (Qle_bool _ _); cbn; [done|]. by rewrite !Qred_correct, E1.
      - apply eq_true_iff_eq. rewrite !Qle_bool_iff, E1, E. done. }
    rewrite rnd_scaled in R by lia.
    destruct (Z.leb_spec (a + b) 1023).
    + assert (B : Qle_bool (p2 1024) (inject_Z 1 * p2 (a + b)) = false).
      { destruct (Qle_bool _ _) eqn:B; [|done]. apply Qle_bool_iff in B.
        change (inject_Z 1) with 1%Q in B. pose proof (p2_lt (a + b) 1024 ltac:(lia)). lra. }
      rewrite B in R. destruct R as [->|R].
      * eexists. split; [done|]. rewrite Qred_correct. change (inject_Z 1) with 1%Q. ring.
      * destruct (rnd (q * r)) as [| |v]; cbn in R; [done|done|]. exists v. split; [done|].
        rewrite R, Qred_correct. change (inject_Z 1) with 1%Q. ring.
    + assert (B : Qle_bool (p2 1024) (inject_Z 1 * p2 (a + b)) = true).
      { apply Qle_bool_iff. change (inject_Z 1) with 1%Q. pose proof (p2_le 1024 (a + b) ltac:(lia)). lra. }
      rewrite B in R. destruct R as [->|R]; [done|].
      destruct (rnd (q * r)) as [|[]|v]; cbn in R; done.
  - intros (q & -> & Eq) ->. rewrite (proj2 (Z.leb_gt (a + b) 1023)) by lia. cbn.
    pose proof (p2_pos a). destruct (Qeq_bool q 0) eqn:Z0; [apply Qeq_bool_iff in Z0; lra|].
    by rewrite (proj2 (Qle_bool_iff 0 q)) by lra.
  - intros -> (q & -> & Eq). rewrite (proj2 (Z.leb_gt (a + b) 1023)) by lia. cbn [fmul].
    pose proof (p2_pos b). destruct (Qeq_bool q 0) eqn:Z0; [apply Qeq_bool_iff in Z0; lra|].
    cbn. by rewrite (proj2 (Qle_bool_iff 0 q)) by lra.
  - intros -> ->. by rewrite (proj2 (Z.leb_gt (a + b) 1023)) by lia.
Qed.

Lemma powi_loop_isp2 b : forall r a i j, 0 <= i -> 0 < j -> isp2 r i -> isp2 a j ->
  isp2 (powi_loop r a b) (i + j * Zpos b).
Proof.
  induction b as [b IH|b IH|]; intros r a i j Hi Hj Hr Ha; cbn [powi_loop].
  - replace (i + j * Z.pos b~1) with ((i + j) + (j + j) * Zpos b) by lia.
    apply IH; try lia; apply fmul_isp2; done || lia.
  - replace (i + j * Z.pos b~0) with (i + (j + j) * Zpos b) by lia.
    apply IH; try lia; [done|apply fmul_isp2; done || lia].
  - replace (i + j * 1) with (i + j) by lia. apply fmul_isp2; done || lia.
Qed.

Lemma powi_2 n : 0 <= n -> isp2 (powi (Fin 2) n) n.
Proof.
  intros Hn. destruct n as [|b|]; [|cbn [powi]|lia].
  - exists 1%Q. done.
  - replace (Zpos b) with (0 + 1 * Zpos b) by lia.
    apply powi_loop_isp2; try lia; [by exists 1%Q|by exists 2%Q].
Qed.

(** Rounding sees the value of a product with a power of two, not its
    representation. *)
Lemma rnd_times_p2 base n q : 0 < base < 2 ^ 53 -> 0 <= n -> (q == p2 n)%Q ->
  feq (rnd (inject_Z base * q)) (rnd (inject_Z base * p2 n)).
Proof.
  intros Hb Hn Eq. assert (Eb : (inject_Z base * q == inject_Z base * p2 n)%Q) by (by rewrite Eq).
  pose proof (p2_pos n). assert (0 < inject_Z base)%Q by (rewrite <- (Zlt_Qlt 0); lia).
  pose proof (repr_p2 base n ltac:(lia) Hn) as Hr.
  destruct (rnd_cases (inject_Z base * q)) as [[Z0 _]|[P1 ->]]; [nra|nra|].
  rewrite rnd_scaled by lia. pose proof (rnd_pos_exact _ (repr_compat _ _ (Qeq_sym _ _ Eb) Hr) P1) as E1.
  replace (Qle_bool (p2 1024) (rnd_pos (inject_Z base * q))) with (Qle_bool (p2 1024) (inject_Z base * p2 n)).
  - destruct (Qle_bool _ _); cbn; [done|]. by rewrite !Qred_correct, E1.
  - apply eq_true_iff_eq. rewrite !Qle_bool_iff, E1, Eb. done.
Qed.

(** The closed form of PROTOCOL 4.2 at the default factor: without jitter
    the delay is exactly [min(max_ms, base_ms * 2^(attempt - 1))]; the float
    arithmetic, its overflow to infinity included, loses nothing. *)
Theorem compute_backoff_doubles uniform attempt base cap :
  1 <= attempt <= 2147483648 -> 0 < base < 2 ^ 53 -> exact cap ->
  compute_backoff_ms uniform attempt base (Fin 2) cap false = Z.min cap (base * 2 ^ (attempt - 1)).
Proof.
  intros Ha Hb Hc. unfold compute_backoff_ms. cbn [andb].
  enough (exists q, base_backoff_ms attempt base (Fin 2) cap = Fin q /\
    (q == inject_Z (Z.min cap (base * 2 ^ (attempt - 1))))%Q) as (q & -> & E).
  { assert (0 <= base * 2 ^ (attempt - 1)) by (apply Z.mul_nonneg_nonneg; [lia|apply Z.pow_nonneg; lia]).
    rewrite as_u64_round by (rewrite E; rewrite <- ?Zle_Qle, <- ?(Zle_Qle 0); unfold exact in *; lia).
    apply Z.le_antisymm.
    - erewrite <- (qround_Z (Z.min _ _)) by (unfold exact in *; lia). apply qround_mono; rewrite E; [|lra].
      rewrite <- (Zle_Qle 0). unfold exact in *; lia.
    - erewrite <- (qround_Z (Z.min _ _)) at 1 by (unfold exact in *; lia). apply qround_mono; [|lra].
      rewrite <- (Zle_Qle 0). unfold exact in *; lia. }
  unfold base_backoff_ms. rewrite as_i32_small, (of_int_exact base), (of_int_exact cap) by (done || unfold exact; lia).
  change (fmax (Fin 2) (Fin 1)) with (Fin 2). replace (Z.max attempt 1 - 1) with (attempt - 1) by lia.
  pose proof (powi_2 (attempt - 1) ltac:(lia)) as Hp. unfold isp2 in Hp.
  set (n := attempt - 1) in *. assert (Hn : 0 <= n) by lia.
  assert (Hprod : (inject_Z base * p2 n == inject_Z (base * 2 ^ n))%Q) by (by rewrite inject_Z_mult, p2_Z).
  assert (Hbig : (p2 1024 <= inject_Z base * p2 n)%Q -> Z.min cap (base * 2 ^ n) = cap).
  { intros H. rewrite Hprod in H. apply Z.min_l. rewrite Zle_Qle.
    pose proof (int_lt_p2_1024 cap ltac:(unfold exact in *; lia)). lra. }
  destruct (Z.leb_spec n 1023).
  - destruct Hp as (q & -> & Eq). cbn [fmul].
    pose proof (rnd_times_p2 base n q ltac:(lia) Hn Eq) as R.
    rewrite rnd_scaled in R by lia.
    destruct (Qle_bool _ _) eqn:B; destruct (rnd (inject_Z base * q)) as [|s|v]; cbn in R; try done.
    + apply Qle_bool_iff in B. cbn. eexists. split; [done|]. by rewrite Hbig.
    + rewrite Qred_correct, Hprod in R. unfold fgt. cbn.
      destruct (Qcompare v (inject_Z cap)) eqn:C; rewrite <- ?Qeq_alt, <- ?Qlt_alt, <- ?Qgt_alt in C; rewrite R in C.
      1,2: exists v; split; [|rewrite R, Z.min_r; [done|]; rewrite Zle_Qle; lra].
      3: { eexists. split; [done|]. rewrite <- Zlt_Qlt in C. by rewrite Z.min_l by lia. }
      all: unfold fmax; cbn; destruct (Qcompare v 0) eqn:C0; [done| |done];
        rewrite <- Qlt_alt, R, <- (Zlt_Qlt _ 0) in C0;
        assert (0 <= base * 2 ^ n) by (apply Z.mul_nonneg_nonneg; [lia|apply Z.pow_nonneg; lia]); lia.
  - rewrite Hp. cbn [fmul]. destruct (Qeq_bool _ _) eqn:Z0; [cbn|cbn];
      (eexists; split; [done|]; rewrite Hbig; [done|]);
      (assert (1 <= inject_Z base)%Q by (rewrite <- (Zle_Qle 1); lia)); pose proof (p2_le 1024 n ltac:(lia));
      pose proof (p2_pos 1024); nra.
Qed.

Lemma compute_backoff_doubles_witness :
  compute_backoff_ms (fun lo _ => lo) 5 500 (Fin 2) 60000 false = 8000.
Proof.
  rewrite (compute_backoff_doubles (fun lo _ => lo) 5 500 60000); [reflexivity|lia|lia|unfold exact; lia].
Defined.

(** The exponent is [(attempt - 1) as i32]: one attempt past [2^31] the
    cast is negative, the power underflows to zero and the delay is zero, so
    the "never drops below base_ms" of the comment fails there. *)
Theorem backoff_exponent_cast_wraps uniform base cap :
  exact base -> exact cap -> compute_backoff_ms uniform 2147483649 base (Fin 2) cap false = 0.
Proof.
  intros Hb Hc. unfold compute_backoff_ms, base_backoff_ms. cbn [andb].
  change (powi (fmax (Fin 2) (Fin 1)) (as_i32 (Z.max 2147483649 1 - 1))) with
    (powi (Fin 2) (-2147483648)).
  assert (E : powi (Fin 2) (-2147483648) = Fin 0) by (vm_compute; reflexivity). rewrite E.
  rewrite !of_int_exact by done. cbn [fmul].
  assert (R : rnd (inject_Z base * 0) = Fin 0).
  { unfold rnd. assert (C : Qcompare (inject_Z base * 0) 0 = Eq) by (rewrite <- Qeq_alt; ring). by rewrite C. }
  rewrite R. unfold fgt. cbn.
  destruct (Qcompare 0 (inject_Z cap)) eqn:C; [done|done|].
  rewrite <- Qgt_alt, <- (Zlt_Qlt _ 0) in C. unfold exact in Hc. lia.
Qed.

Lemma backoff_exponent_cast_wraps_witness :
  compute_backoff_ms (fun lo _ => lo) 2147483649 500 (Fin 2) 60000 false = 0.
Proof. apply backoff_exponent_cast_wraps; unfold exact; lia. Defined.
