(* ===== verification/Envelope.v ===== *)
(** The task envelope and the result values ([worker/src/envelope.rs],
    PROTOCOL 2, 8 and 9): what the worker reads from a stream entry, what it
    writes back when it re-enqueues it, and the pure rules on its fields. *)
From S2P Require Import Prelude Float64.
From Stdlib Require Import QArith Qround Lqa.
Open Scope Z_scope.

(** ** JSON as [serde_json] hands it over

    The crate is built with [arbitrary_precision] (a number is its token),
    [preserve_order] (an object is a list) and [raw_value]. *)

Inductive value :=
| Null
| Bool (b : bool)
| Num (token : string)
| Str (s : string)
| Arr (l : list value)
| Obj (l : list (string * value)).

(** [serde_json] itself: texts to trees and back, one level of an object as its
    members' texts, and its own reading and printing of an [f64]. *)
Class Serde := {
  value_of : string -> option value;
  text_of : value -> string;
  members_of : string -> option (list (string * string));
  text_of_members : list (string * string) -> string;
  tok_f64 : string -> option f64;
  f64_tok : f64 -> string;
}.

(** What [serde_json] documents of them. *)
Class SerdeLaws (S : Serde) := {
  value_null : value_of "null" = Some Null;
  value_bool (b : bool) : value_of (if b then "true" else "false") = Some (Bool b);
  value_str (s : string) : value_of (text_of (Str s)) = Some (Str s);
  value_dec (n : Z) : is_u64 n -> value_of (dec n) = Some (Num (dec n));
  members_text (l : list (string * string)) : Forall (fun kt : string * string => is_Some (value_of kt.2)) l -> members_of (text_of_members l) = Some l;
}.

(** ** Numbers *)

Definition is_e (c : ascii) : bool := Ascii.eqb c "e" || Ascii.eqb c "E".

Definition digits_val (l : bytes) : Z := fold_left (fun a c => 10 * a + (code c - 48)) l 0.

Definition exponent (l : bytes) : option Z :=
  let '(s, ds) := match l with
    | c :: l' => if Ascii.eqb c "-" then (-1, l') else if Ascii.eqb c "+" then (1, l') else (1, l)
    | [] => (1, [])
    end in
  if negb (bool_decide (ds = [])) && forallb is_digit ds then Some (s * digits_val ds) else None.

Definition pow10 (e : Z) : Q := if 0 <=? e then inject_Z (10 ^ e) else (1 # Z.to_pos (10 ^ (- e))).

(** The exact value of a JSON number token. *)
Definition number_q (l : bytes) : option Q :=
  let '(s, l) := match l with c :: l' => if Ascii.eqb c "-" then (-1, l') else (1, l) | [] => (1, []) end in
  let '(i, l) := break (fun c => negb (is_digit c)) l in
  let '(f, l) := match l with
    | c :: l' => if Ascii.eqb c "." then break (fun c => negb (is_digit c)) l' else ([], l)
    | [] => ([], []) end in
  if bool_decide (i = []) then None else
  e ← match l with [] => Some 0 | c :: l' => if is_e c then exponent l' else None end;
  Some (inject_Z (s * digits_val (i ++ f)) * pow10 (e - Z.of_nat (length f)))%Q.

(** [Number::as_u64] and [Number::as_f64] on a token: [str::parse], an
    infinite [f64] dropped. *)
Definition as_u64_number (t : string) : option Z := parse_u64 (bytes_of t).
Definition as_f64_number (t : string) : option f64 :=
  q ← number_q (bytes_of t); let f := rnd q in if is_finite f then Some f else None.

#[global] Arguments as_u64_number : simpl never.
#[global] Arguments as_f64_number : simpl never.
#[global] Arguments dec : simpl never.

Inductive de_err :=
| InvalidType (v : value)
| NotWhole (token : string)
| OutOfRangeU32 (n : Z)
| BadToken (field : string)
| DuplicateField (field : string)
| MissingField (field : string)
| NotAnObject.

Definition value_to_u64 (v : value) : result de_err Z :=
  match v with
  | Num n =>
      match as_u64_number n with
      | Some u => Ok u
      | None =>
          match as_f64_number n with
          | Some f =>
              if is_finite f && fract_zero f && fge f (Fin 0) && flt f (of_int u64_max)
              then Ok (as_u64 f) else Err (NotWhole n)
          | None => Err (NotWhole n)
          end
      end
  | other => Err (InvalidType other)
  end.

Definition MAX_TIMEOUT_MS : Z := 86400000.
Definition PROTOCOL_VERSION : Z := 1.

(** ** The envelope *)

Record Envelope := {
  v : Z;
  id : string;
  task : string;
  args : option string;
  kwargs : option string;
  queue : string;
  kind : string;
  retries : Z;
  max_retries : Z;
  backoff_base_ms : Z;
  backoff_factor : f64;
  backoff_max_ms : Z;
  jitter : bool;
  timeout_ms : Z;
  soft_timeout_ms : option Z;
  idempotency_key : option string;
  store_result : bool;
  enqueued_at : Z;
  not_before : option f64;
  expires_at : option Z;
  extra : gmap string value;
}.

Definition d_v : Z := 1.
Definition d_queue : string := "default".
Definition d_kind : string := "io".
Definition d_max_retries : Z := 3.
Definition d_backoff_base : Z := 500.
Definition d_backoff_factor : f64 := Fin 2.
Definition d_backoff_max : Z := 60000.
Definition d_true : bool := true.
Definition d_timeout : Z := 300000.

(** The [deserialize_with] of each declared field, in declaration order. *)
Inductive field_kind := KU32 | KU64 | KTimeout | KOptU64 | KStr | KOptStr | KRaw | KF64 | KOptF64 | KBool.

Definition fields : list (string * field_kind) :=
  [("v", KU32); ("id", KStr); ("task", KStr); ("args", KRaw); ("kwargs", KRaw); ("queue", KStr);
   ("kind", KStr); ("retries", KU32); ("max_retries", KU32); ("backoff_base_ms", KU64);
   ("backoff_factor", KF64); ("backoff_max_ms", KU64); ("jitter", KBool); ("timeout_ms", KTimeout);
   ("soft_timeout_ms", KOptU64); ("idempotency_key", KOptStr); ("store_result", KBool);
   ("enqueued_at", KU64); ("not_before", KOptF64); ("expires_at", KOptU64)]%string.

Inductive field_val :=
| FNum (n : Z) | FOptNum (n : option Z) | FStr (s : string) | FOptStr (s : option string)
| FRaw (t : option string) | FFloat (x : f64) | FOptFloat (x : option f64) | FBool (b : bool).

Definition key_le (p q : string * value) : Prop := String.le p.1 q.1.
#[export] Instance key_le_dec p q : Decision (key_le p q) := ltac:(unfold key_le; apply _).

Section serde.
Context `{Serde}.

(** [Value::deserialize] of a member's text. *)
Definition de_value (k t : string) : result de_err value := ok_or (BadToken k) (value_of t).

Definition deserialize_flexible_u64 (k t : string) : result de_err Z :=
  de_value k t ≫= value_to_u64.

Definition deserialize_flexible_u32 (k t : string) : result de_err Z :=
  n ← deserialize_flexible_u64 k t;
  if n <=? u32_max then Ok n else Err (OutOfRangeU32 n).

Definition deserialize_flexible_opt_u64 (k t : string) : result de_err (option Z) :=
  x ← de_value k t;
  match x with Null => Ok None | v => Some <$> value_to_u64 v end.

Definition deserialize_timeout_ms (k t : string) : result de_err Z :=
  n ← deserialize_flexible_u64 k t; Ok (Z.min n MAX_TIMEOUT_MS).

Definition de_str (k t : string) : result de_err string :=
  x ← de_value k t; match x with Str s => Ok s | v => Err (InvalidType v) end.

Definition de_opt_str (k t : string) : result de_err (option string) :=
  x ← de_value k t; match x with Null => Ok None | Str s => Ok (Some s) | v => Err (InvalidType v) end.

Definition de_bool (k t : string) : result de_err bool :=
  x ← de_value k t; match x with Bool b => Ok b | v => Err (InvalidType v) end.

Definition de_f64 (k t : string) : result de_err f64 := ok_or (BadToken k) (tok_f64 t).

Definition de_opt_f64 (k t : string) : result de_err (option f64) :=
  if String.eqb t "null" then Ok None else Some <$> de_f64 k t.

(** [Option<Box<RawValue>>]: the text itself, [null] read as absent. *)
Definition de_raw (t : string) : option string := if String.eqb t "null" then None else Some t.

Definition de_field (kd : field_kind) (k t : string) : result de_err field_val :=
  match kd with
  | KU32 => FNum <$> deserialize_flexible_u32 k t
  | KU64 => FNum <$> deserialize_flexible_u64 k t
  | KTimeout => FNum <$> deserialize_timeout_ms k t
  | KOptU64 => FOptNum <$> deserialize_flexible_opt_u64 k t
  | KStr => FStr <$> de_str k t
  | KOptStr => FOptStr <$> de_opt_str k t
  | KRaw => Ok (FRaw (de_raw t))
  | KF64 => FFloat <$> de_f64 k t
  | KOptF64 => FOptFloat <$> de_opt_f64 k t
  | KBool => FBool <$> de_bool k t
  end.

(** The derived [visit_map]: known fields once each, the rest into [extra]. *)
Fixpoint visit (known : list (string * field_val)) (ext : gmap string value) (l : list (string * string))
    : result de_err (list (string * field_val) * gmap string value) :=
  match l with
  | [] => Ok (known, ext)
  | (k, t) :: l' =>
      match assoc k fields with
      | Some kd =>
          match assoc k known with
          | Some _ => Err (DuplicateField k)
          | None => x ← de_field kd k t; visit (known ++ [(k, x)]) ext l'
          end
      | None => x ← de_value k t; visit known (<[k := x]> ext) l'
      end
  end.

Definition get_num kn k (d : Z) : Z := match assoc k kn with Some (FNum n) => n | _ => d end.
Definition get_str kn k (d : string) : string := match assoc k kn with Some (FStr s) => s | _ => d end.
Definition get_bool kn k (d : bool) : bool := match assoc k kn with Some (FBool b) => b | _ => d end.
Definition get_opt_num kn k : option Z := match assoc k kn with Some (FOptNum o) => o | _ => None end.
Definition get_raw kn k : option string := match assoc k kn with Some (FRaw o) => o | _ => None end.
Definition require_str kn k : result de_err string :=
  match assoc k kn with Some (FStr s) => Ok s | _ => Err (MissingField k) end.

(** Absent fields take their [serde(default)]; [id] and [task] have none. *)
Definition build (kn : list (string * field_val)) (ext : gmap string value) : result de_err Envelope :=
  i ← require_str kn "id";
  t ← require_str kn "task";
  Ok {| v := get_num kn "v" d_v; id := i; task := t;
        args := get_raw kn "args"; kwargs := get_raw kn "kwargs";
        queue := get_str kn "queue" d_queue; kind := get_str kn "kind" d_kind;
        retries := get_num kn "retries" 0; max_retries := get_num kn "max_retries" d_max_retries;
        backoff_base_ms := get_num kn "backoff_base_ms" d_backoff_base;
        backoff_factor := match assoc "backoff_factor" kn with Some (FFloat x) => x | _ => d_backoff_factor end;
        backoff_max_ms := get_num kn "backoff_max_ms" d_backoff_max;
        jitter := get_bool kn "jitter" d_true; timeout_ms := get_num kn "timeout_ms" d_timeout;
        soft_timeout_ms := get_opt_num kn "soft_timeout_ms";
        idempotency_key := match assoc "idempotency_key" kn with Some (FOptStr o) => o | _ => None end;
        store_result := get_bool kn "store_result" d_true;
        enqueued_at := get_num kn "enqueued_at" 0;
        not_before := match assoc "not_before" kn with Some (FOptFloat o) => o | _ => None end;
        expires_at := get_opt_num kn "expires_at"; extra := ext |}.

Definition of_members (l : list (string * string)) : result de_err Envelope :=
  '(kn, ext) ← visit [] ∅ l; build kn ext.

(** [serde_json::from_str::<Envelope>]. *)
Definition envelope_of_text (s : string) : result de_err Envelope :=
  match members_of s with Some l => of_members l | None => Err NotAnObject end.

Definition opt_text {A} (f : A -> string) (o : option A) : string :=
  match o with Some a => f a | None => "null" end.
Definition bool_text (b : bool) : string := if b then "true" else "false".
Definition str_text (s : string) : string := text_of (Str s).

(** The derived [Serialize]: every declared field, then [extra] in key order. *)
Definition known_members (e : Envelope) : list (string * string) :=
  [("v", dec (v e)); ("id", str_text (id e)); ("task", str_text (task e));
   ("args", opt_text (fun t => t) (args e)); ("kwargs", opt_text (fun t => t) (kwargs e));
   ("queue", str_text (queue e)); ("kind", str_text (kind e));
   ("retries", dec (retries e)); ("max_retries", dec (max_retries e));
   ("backoff_base_ms", dec (backoff_base_ms e)); ("backoff_factor", f64_tok (backoff_factor e));
   ("backoff_max_ms", dec (backoff_max_ms e)); ("jitter", bool_text (jitter e));
   ("timeout_ms", dec (timeout_ms e)); ("soft_timeout_ms", opt_text dec (soft_timeout_ms e));
   ("idempotency_key", opt_text str_text (idempotency_key e)); ("store_result", bool_text (store_result e));
   ("enqueued_at", dec (enqueued_at e)); ("not_before", opt_text f64_tok (not_before e));
   ("expires_at", opt_text dec (expires_at e))]%string.

Definition extra_members (e : Envelope) : list (string * string) :=
  (fun kv => (kv.1, text_of kv.2)) <$> merge_sort key_le (map_to_list (extra e)).

Definition to_members (e : Envelope) : list (string * string) := known_members e ++ extra_members e.

(** [serde_json::to_string(&env)]. *)
Definition envelope_text (e : Envelope) : string := text_of_members (to_members e).

End serde.

Definition args_raw (e : Envelope) : string := default "[]" (args e).
Definition kwargs_raw (e : Envelope) : string := default "{}" (kwargs e).

(** [(soft_s, hard_s)] of PROTOCOL 4.6. *)
Definition async_timeouts_s (e : Envelope) : option f64 * f64 :=
  let hard_s := fdiv (of_int (timeout_ms e)) (Fin 1000) in
  let soft_s := match soft_timeout_ms e with
    | Some soft => if (0 <? soft) && (soft <? timeout_ms e) then Some (fdiv (of_int soft) (Fin 1000)) else None
    | None => None
    end in
  (soft_s, hard_s).

Definition expiry_deadline_ms (e : Envelope) (queue_ttl_ms : option Z) : option Z :=
  let by_ttl := match queue_ttl_ms with
    | Some ttl => if 0 <? enqueued_at e then Some (sat_add (enqueued_at e) ttl) else None
    | None => None
    end in
  match expires_at e, by_ttl with
  | Some a, Some b => Some (Z.min a b)
  | Some a, None => Some a
  | None, b => b
  end.

(** ** Errors and results *)

Definition ORIGIN_WORKER : string := "worker".

Record ErrorJson := ErrorObj { type_ : string; message : string; traceback : string; origin : string }.

Definition error_new (ty msg : string) : ErrorJson :=
  {| type_ := ty; message := msg; traceback := ""; origin := ORIGIN_WORKER |}.

Definition error_value (e : ErrorJson) : value :=
  Obj ([("type", Str (type_ e)); ("message", Str (message e)); ("traceback", Str (traceback e))]%string ++
       (if String.eqb (origin e) "" then [] else [("origin", Str (origin e))]%string)).

Section results.
Context `{Serde}.

Definition result_success (result_json : string) (finished_at : Z) : string :=
  "{" +:+ quoted "status" +:+ ":" +:+ quoted "success" +:+ "," +:+ quoted "result" +:+ ":" +:+ result_json +:+
  "," +:+ quoted "error" +:+ ":null," +:+ quoted "finished_at" +:+ ":" +:+ dec finished_at +:+ "}".

Definition result_failure (error : ErrorJson) (finished_at : Z) : string :=
  text_of (Obj [("status", Str "failure"); ("result", Null); ("error", error_value error);
    ("finished_at", Num (dec finished_at))])%string.

Definition result_duplicate (finished_at : Z) (claimant_id : string) : string :=
  text_of (Obj [("status", Str "duplicate"); ("result", Null); ("error", Null);
    ("claimant_id", if String.eqb claimant_id "" then Null else Str claimant_id);
    ("finished_at", Num (dec finished_at))])%string.

Definition result_expired (deadline_ms finished_at : Z) : string :=
  text_of (Obj [("status", Str "expired"); ("result", Null);
    ("error", Obj [("type", Str "Expired");
      ("message", Str ("task expired at " +:+ dec deadline_ms +:+ " (picked up at " +:+ dec finished_at +:+ ", " +:+
         dec (sat_sub finished_at deadline_ms) +:+ "ms late) and was discarded without running"));
      ("traceback", Str ""); ("origin", Str ORIGIN_WORKER)]);
    ("finished_at", Num (dec finished_at))])%string.
End results.

(** ** Truncation at a char boundary *)

(** [str::is_char_boundary]: the ends, and every byte that is not a UTF-8
    continuation byte. *)
Definition is_char_boundary (s : bytes) (i : nat) : bool :=
  if (i =? 0)%nat then true
  else match s !! i with
       | Some c => negb (Z.land (code c) 192 =? 128)
       | None => (i =? length s)%nat
       end.

Fixpoint back_off (s : bytes) (e : nat) : nat :=
  match e with
  | O => O
  | S e' => if is_char_boundary s e then e else back_off s e'
  end.

Definition safe_truncate (s : bytes) (max_bytes : nat) : bytes :=
  if (length s <=? max_bytes)%nat then s else take (back_off s max_bytes) s.

Definition redelivery_limit (env : option Envelope) : Z :=
  match env with Some e => Z.max 3 (max_retries e + 1) | None => 3 end.

(** ** Round trip *)

Definition f64_stable `{Serde} (x : f64) : Prop :=
  tok_f64 (f64_tok x) = Some x /\ exists t, value_of (f64_tok x) = Some (Num t).

(** What every envelope the worker holds satisfies: the Rust types' ranges, the
    clamp, and texts [serde_json] reads back. *)
Record envelope_wf `{Serde} (e : Envelope) : Prop := {
  wf_v : is_u32 (v e);
  wf_retries : is_u32 (retries e);
  wf_max_retries : is_u32 (max_retries e);
  wf_base : is_u64 (backoff_base_ms e);
  wf_max : is_u64 (backoff_max_ms e);
  wf_timeout : 0 <= timeout_ms e <= MAX_TIMEOUT_MS;
  wf_enq : is_u64 (enqueued_at e);
  wf_soft : forall n, soft_timeout_ms e = Some n -> is_u64 n;
  wf_exp : forall n, expires_at e = Some n -> is_u64 n;
  wf_factor : f64_stable (backoff_factor e);
  wf_nb : forall x, not_before e = Some x -> f64_stable x;
  wf_args : forall t, args e = Some t -> t <> "null"%string /\ is_Some (value_of t);
  wf_kwargs : forall t, kwargs e = Some t -> t <> "null"%string /\ is_Some (value_of t);
  wf_extra : forall k x, extra e !! k = Some x -> assoc k fields = None /\ value_of (text_of x) = Some x;
}.

(** ** Ranges *)

Section ranges.
Context `{Serde}.

(** What each declared field's reader can return. *)
Definition typed (kd : field_kind) (x : field_val) : Prop :=
  match kd, x with
  | KU32, FNum n => is_u32 n
  | KU64, FNum n => is_u64 n
  | KTimeout, FNum n => 0 <= n <= MAX_TIMEOUT_MS
  | KOptU64, FOptNum o => forall n, o = Some n -> is_u64 n
  | KRaw, FRaw o => o <> Some "null"%string
  | KStr, FStr _ | KOptStr, FOptStr _ | KF64, FFloat _ | KOptF64, FOptFloat _ | KBool, FBool _ => True
  | _, _ => False
  end.

Lemma value_to_u64_range x n : value_to_u64 x = Ok n -> is_u64 n.
Proof.
  destruct x as [| |tk| | |]; cbn; try done. destruct (as_u64_number tk) as [u|] eqn:E.
  - intros [= ->]. by eapply parse_u64_range.
  - destruct (as_f64_number tk) as [f|]; [|done]. destruct (_ && _); [|done]. intros [= <-]. pose proof (as_u64_range f); mlia.
Qed.

Lemma flexible_u64_range k t n : deserialize_flexible_u64 k t = Ok n -> is_u64 n.
Proof. unfold deserialize_flexible_u64. destruct (de_value k t); [|done]. apply value_to_u64_range. Qed.

Lemma de_field_typed kd k t x : de_field kd k t = Ok x -> typed kd x.
Proof.
  assert (HM : forall {A} (r : result de_err A) (f : A -> field_val), f <$> r = Ok x -> exists a, r = Ok a /\ x = f a).
  { intros A [a|] f; [|done]. intros [= <-]. eauto. }
  destruct kd; cbn [de_field]; intros Hx; try (apply HM in Hx as (a & Ha & ->); cbn; try done).
  - unfold deserialize_flexible_u32 in Ha. destruct (deserialize_flexible_u64 k t) as [n|] eqn:E; [|done]. cbn in Ha.
    destruct (Z.leb_spec n u32_max); [|done]. injection Ha as <-. apply flexible_u64_range in E. split; [apply E|done].
  - by eapply flexible_u64_range.
  - unfold deserialize_timeout_ms in Ha. destruct (deserialize_flexible_u64 k t) as [n|] eqn:E; [|done].
    injection Ha as <-. apply flexible_u64_range in E as [? _]. unfold MAX_TIMEOUT_MS. lia.
  - intros n ->. unfold deserialize_flexible_opt_u64 in Ha. destruct (de_value k t) as [y|]; [|done]. cbn in Ha.
    destruct (value_to_u64 y) eqn:E; destruct y; try done; injection Ha as <-; by eapply value_to_u64_range.
  - injection Hx as <-. cbn. unfold de_raw. destruct (String.eqb_spec t "null"); congruence.
Qed.

Definition known_typed (kn : list (string * field_val)) : Prop :=
  forall k kd x, assoc k fields = Some kd -> assoc k kn = Some x -> typed kd x.

Lemma visit_typed l : forall kn ext kn' ext', visit kn ext l = Ok (kn', ext') ->
  known_typed kn -> (forall k, is_Some (ext !! k) -> assoc k fields = None) ->
  known_typed kn' /\ forall k, is_Some (ext' !! k) -> assoc k fields = None.
Proof.
  induction l as [|[k t] l IH]; intros kn ext kn' ext' E HK HE; cbn [visit] in E; [by injection E as <- <-|].
  destruct (assoc k fields) as [kd|] eqn:Ef.
  - destruct (assoc k kn) eqn:Ek; [done|]. destruct (de_field kd k t) as [x|] eqn:Ex; [|done].
    apply de_field_typed in Ex. eapply IH; [exact E| |done]. intros k' kd' x' Hf. rewrite assoc_app.
    destruct (assoc k' kn) eqn:Ek'; [intros [= <-]; eauto|]. cbn. destruct (String.eqb_spec k' k) as [->|]; [|done].
    intros [= <-]. congruence.
  - destruct (de_value k t) as [x|]; [|done]. eapply IH; [exact E|done|]. intros k' [y Hy].
    destruct (decide (k' = k)) as [->|Hne]; [done|]. rewrite lookup_insert_ne in Hy by done. eauto.
Qed.

(** Every integer within the width of its Rust field, the timeout within its
    clamp, no [null] among the raw members, no declared name among the rest. *)
Record in_range (e : Envelope) : Prop := {
  ir_v : is_u32 (v e);
  ir_retries : is_u32 (retries e);
  ir_max_retries : is_u32 (max_retries e);
  ir_base : is_u64 (backoff_base_ms e);
  ir_max : is_u64 (backoff_max_ms e);
  ir_timeout : 0 <= timeout_ms e <= MAX_TIMEOUT_MS;
  ir_enq : is_u64 (enqueued_at e);
  ir_soft : forall n, soft_timeout_ms e = Some n -> is_u64 n;
  ir_exp : forall n, expires_at e = Some n -> is_u64 n;
  ir_raw : args e <> Some "null"%string /\ kwargs e <> Some "null"%string;
  ir_extra : forall k, is_Some (extra e !! k) -> assoc k fields = None;
}.

Lemma build_in_range kn ext e : known_typed kn -> (forall k, is_Some (ext !! k) -> assoc k fields = None) ->
  build kn ext = Ok e -> in_range e.
Proof.
  intros HK HE. unfold build. destruct (require_str kn "id"); [|done]. destruct (require_str kn "task"); [|done].
  intros [= <-].
  assert (HN : forall k kd d (P : Z -> Prop), assoc k fields = Some kd -> P d ->
    (forall n, typed kd (FNum n) -> P n) -> P (get_num kn k d)).
  { intros k kd d P Hf Hd Ht. unfold get_num. destruct (assoc k kn) as [[]|] eqn:E; try done. apply Ht. by eapply HK. }
  assert (HO : forall k n, assoc k fields = Some KOptU64 -> get_opt_num kn k = Some n -> is_u64 n).
  { intros k n Hf. unfold get_opt_num. destruct (assoc k kn) as [[]|] eqn:E; try done. by apply (HK _ _ _ Hf E). }
  assert (HR : forall k, assoc k fields = Some KRaw -> get_raw kn k <> Some "null"%string).
  { intros k Hf. unfold get_raw. destruct (assoc k kn) as [[]|] eqn:E; try done. by apply (HK _ _ _ Hf E). }
  split; cbn [v retries max_retries backoff_base_ms backoff_max_ms timeout_ms enqueued_at soft_timeout_ms expires_at args kwargs extra];
    try (apply (HN _ KU32 _ is_u32); [reflexivity|by vm_compute|done]);
    try (apply (HN _ KU64 _ is_u64); [reflexivity|by vm_compute|done]); try (intros n; by apply HO).
  - apply (HN _ KTimeout _ (fun n => 0 <= n <= MAX_TIMEOUT_MS)); [reflexivity|by vm_compute|done].
  - split; by apply HR.
  - exact HE.
Qed.

Lemma parsed_range t e : envelope_of_text t = Ok e -> in_range e.
Proof.
  unfold envelope_of_text, of_members. destruct (members_of t) as [l|]; [|done].
  destruct (visit [] ∅ l) as [[kn ext]|] eqn:E; [|done]. cbn. apply visit_typed in E as [HK HE]; [by apply build_in_range|done|].
  intros k [x Hx]. by rewrite lookup_empty in Hx.
Qed.
End ranges.

(** C38. Whatever text arrives, an envelope read from it is well typed: each
    integer fits the width of its field, the timeout is within its clamp of a
    day, a raw member is never a literal [null], and no declared field hides
    among the unknown ones. *)
Theorem parsed_in_range (S0 : Serde) t e : envelope_of_text t = Ok e -> in_range e.
Proof. apply parsed_range. Qed.

Lemma u32_u64 n : is_u32 n -> is_u64 n.
Proof. mlia. Qed.

Lemma as_u64_number_dec n : is_u64 n -> as_u64_number (dec n) = Some n.
Proof. intros. unfold as_u64_number. rewrite bytes_of_dec. by apply parse_dec. Qed.

Section laws.
Context (S0 : Serde) {L : SerdeLaws S0}.

Lemma de_u64_dec k n : is_u64 n -> deserialize_flexible_u64 k (dec n) = Ok n.
Proof.
  intros H. unfold deserialize_flexible_u64, de_value. rewrite value_dec by done. cbn.
  by rewrite as_u64_number_dec.
Qed.

Lemma de_u32_dec k n : is_u32 n -> deserialize_flexible_u32 k (dec n) = Ok n.
Proof.
  intros H. unfold deserialize_flexible_u32. rewrite de_u64_dec by (by apply u32_u64). cbn.
  by rewrite (proj2 (Z.leb_le n u32_max)) by mlia.
Qed.

Lemma de_timeout_dec k n : 0 <= n <= MAX_TIMEOUT_MS -> deserialize_timeout_ms k (dec n) = Ok n.
Proof.
  intros H. unfold deserialize_timeout_ms. rewrite de_u64_dec by (unfold MAX_TIMEOUT_MS in *; mlia). cbn.
  f_equal. lia.
Qed.

Lemma de_opt_u64_text k o : (forall n, o = Some n -> is_u64 n) ->
  deserialize_flexible_opt_u64 k (opt_text dec o) = Ok o.
Proof.
  intros H. unfold deserialize_flexible_opt_u64, de_value. destruct o as [n|]; cbn.
  - rewrite value_dec by eauto. cbn. by rewrite as_u64_number_dec by eauto.
  - by rewrite value_null.
Qed.

Lemma de_str_text k s : de_str k (str_text s) = Ok s.
Proof. unfold de_str, de_value, str_text. by rewrite value_str. Qed.

Lemma de_opt_str_text k o : de_opt_str k (opt_text str_text o) = Ok o.
Proof. unfold de_opt_str, de_value. destruct o; cbn; [unfold str_text; by rewrite value_str|by rewrite value_null]. Qed.

Lemma de_bool_text k b : de_bool k (bool_text b) = Ok b.
Proof. unfold de_bool, de_value, bool_text. by rewrite value_bool. Qed.

Lemma de_f64_text k x : f64_stable x -> de_f64 k (f64_tok x) = Ok x.
Proof. intros [H _]. unfold de_f64. by rewrite H. Qed.

Lemma de_opt_f64_text k o : (forall x, o = Some x -> f64_stable x) -> de_opt_f64 k (opt_text f64_tok o) = Ok o.
Proof.
  intros Hs. unfold de_opt_f64. destruct o as [x|]; [|done]. cbn.
  destruct (String.eqb_spec (f64_tok x) "null") as [E|].
  - destruct (Hs x eq_refl) as [_ [t Ht]]. rewrite E, value_null in Ht. done.
  - by rewrite de_f64_text by eauto.
Qed.

Lemma de_raw_text o : (forall t, o = Some t -> t <> "null"%string /\ is_Some (value_of t)) ->
  de_raw (opt_text (fun t => t) o) = o.
Proof.
  intros H. unfold de_raw. destruct o as [t|]; [|done]. cbn.
  destruct (String.eqb_spec t "null") as [->|]; [|done]. by destruct (H _ eq_refl).
Qed.

(** Known members only go to the known fields, in order. *)
Lemma visit_known l : forall kn ext l' vs,
  Forall2 (fun kt kx => kt.1 = kx.1 /\ exists kd, assoc kt.1 fields = Some kd /\ de_field kd kt.1 kt.2 = Ok kx.2) l vs ->
  NoDup (kn.*1 ++ l.*1) ->
  visit kn ext (l ++ l') = visit (kn ++ vs) ext l'.
Proof.
  induction l as [|[k t] l IH]; intros kn ext l' vs HF HN; inversion HF as [|? [k' x] ? vs' [E (kd & H1 & H2)] HF']; subst.
  - by rewrite app_nil_r.
  - cbn in *. subst. rewrite H1.
    assert (A : assoc k' kn = None).
    { apply assoc_None. intros Hin. apply NoDup_app in HN as (_ & Hd & _). apply (Hd k' Hin). set_solver. }
    rewrite A, H2. cbn. rewrite (IH _ _ _ vs'); [by rewrite <- app_assoc|done|].
    rewrite fmap_app. cbn. by rewrite <- app_assoc.
Qed.

Lemma visit_extra l : forall kn ext,
  Forall (fun kx => assoc kx.1 fields = None /\ value_of (text_of kx.2) = Some kx.2) l ->
  NoDup (l.*1) -> (forall k, k ∈ l.*1 -> ext !! k = None) ->
  visit kn ext ((fun kv => (kv.1, text_of kv.2)) <$> l) = Ok (kn, list_to_map l ∪ ext).
Proof.
  induction l as [|[k x] l IH]; intros kn ext HF HN He; cbn.
  - by rewrite map_empty_union.
  - inversion HF as [|?? [H1 H2] HF']; subst. inversion HN as [|?? Hk HN']; subst. cbn in *.
    unfold de_value. rewrite H1, H2. cbn. rewrite IH; [|done|done|].
    + do 2 f_equal. rewrite <- insert_union_l, <- insert_union_r; [done|].
      by apply not_elem_of_list_to_map_1.
    + intros k' Hk'. rewrite lookup_insert_ne by set_solver. apply He. set_solver.
Qed.

Lemma extra_sorted (m : gmap string value) :
  let l := merge_sort key_le (map_to_list m) in
  list_to_map l = m /\ NoDup l.*1 /\ Forall (fun kx => m !! kx.1 = Some kx.2) l.
Proof.
  cbn. pose proof (merge_sort_Permutation key_le (map_to_list m)) as P.
  assert (N : NoDup (merge_sort key_le (map_to_list m)).*1).
  { rewrite P. apply NoDup_fst_map_to_list. }
  split_and!; [|done|].
  - rewrite (list_to_map_proper _ _ N P). apply list_to_map_to_list.
  - apply Forall_forall. intros [k x]. rewrite P. by rewrite elem_of_map_to_list.
Qed.

Definition known_vals (e : Envelope) : list (string * field_val) :=
  [("v", FNum (v e)); ("id", FStr (id e)); ("task", FStr (task e)); ("args", FRaw (args e)); ("kwargs", FRaw (kwargs e));
   ("queue", FStr (queue e)); ("kind", FStr (kind e)); ("retries", FNum (retries e));
   ("max_retries", FNum (max_retries e)); ("backoff_base_ms", FNum (backoff_base_ms e));
   ("backoff_factor", FFloat (backoff_factor e)); ("backoff_max_ms", FNum (backoff_max_ms e));
   ("jitter", FBool (jitter e)); ("timeout_ms", FNum (timeout_ms e));
   ("soft_timeout_ms", FOptNum (soft_timeout_ms e)); ("idempotency_key", FOptStr (idempotency_key e));
   ("store_result", FBool (store_result e)); ("enqueued_at", FNum (enqueued_at e));
   ("not_before", FOptFloat (not_before e)); ("expires_at", FOptNum (expires_at e))]%string.

Lemma known_members_de e : envelope_wf e ->
  Forall2 (fun kt kx => kt.1 = kx.1 /\ exists kd, assoc kt.1 fields = Some kd /\ de_field kd kt.1 kt.2 = Ok kx.2)
    (known_members e) (known_vals e).
Proof.
  intros []. repeat constructor; cbn [fst snd]; (eexists; split; [vm_compute; reflexivity|]); cbn [de_field].
  all: rewrite ?de_u32_dec, ?de_u64_dec, ?de_timeout_dec, ?de_opt_u64_text, ?de_str_text, ?de_opt_str_text,
    ?de_bool_text, ?de_f64_text, ?de_opt_f64_text, ?de_raw_text by eauto; done.
Qed.

Lemma of_to_members e : envelope_wf e -> of_members (to_members e) = Ok e.
Proof.
  intros Hwf. unfold of_members, to_members, extra_members.
  rewrite (visit_known _ [] ∅ _ (known_vals e)); [|by apply known_members_de|].
  2: { cbn. apply (bool_decide_unpack _). vm_compute. done. }
  destruct (extra_sorted (extra e)) as (Hm & HN & HF). rewrite visit_extra; [|..].
  - cbn [app]. rewrite Hm. rewrite map_union_empty. destruct e. reflexivity.
  - eapply Forall_impl; [exact HF|]. intros [k x] Hk. eapply wf_extra; done.
  - done.
  - intros. apply lookup_empty.
Qed.

Lemma to_members_texts e : envelope_wf e -> Forall (fun kt => is_Some (value_of kt.2)) (to_members e).
Proof.
  intros []. apply Forall_app. split.
  - assert (HO : forall o, (forall n, o = Some n -> is_u64 n) -> is_Some (value_of (opt_text dec o))).
    { intros [n|] Hn; cbn; [rewrite value_dec by eauto|rewrite value_null]; eauto. }
    assert (HF : forall x, f64_stable x -> is_Some (value_of (f64_tok x))) by (intros x (_ & t & ->); eauto).
    repeat constructor; cbn [snd]; unfold str_text, bool_text;
      rewrite ?value_dec, ?value_str, ?value_bool by eauto using u32_u64; eauto.
    + destruct (args e); cbn; [by apply wf_args0|rewrite value_null; eauto].
    + destruct (kwargs e); cbn; [by apply wf_kwargs0|rewrite value_null; eauto].
    + rewrite value_dec by (unfold MAX_TIMEOUT_MS in *; mlia). eauto.
    + destruct (idempotency_key e); cbn; [unfold str_text; rewrite value_str|rewrite value_null]; eauto.
    + destruct (not_before e); cbn; [eauto|rewrite value_null; eauto].
  - unfold extra_members. destruct (extra_sorted (extra e)) as (_ & _ & HF). apply Forall_fmap.
    eapply Forall_impl; [exact HF|]. intros [k x] Hk. cbn. destruct (wf_extra0 k x Hk) as [_ ->]. eauto.
Qed.
End laws.

(** A small instance of the interface, for the witnesses: scalars only, objects
    as an injective encoding of their members. *)
Module Toy.
Fixpoint bits (p : positive) : string :=
  match p with xH => EmptyString | xO p => String "0" (bits p) | xI p => String "1" (bits p) end.
Fixpoint unbits (s : string) : positive :=
  match s with EmptyString => xH | String c s => if Ascii.eqb c "0" then xO (unbits s) else xI (unbits s) end.

Lemma unbits_bits p : unbits (bits p) = p.
Proof. induction p; cbn; congruence. Qed.

Definition toy_value_of (s : string) : option value :=
  if String.eqb s "null" then Some Null
  else if String.eqb s "true" then Some (Bool true)
  else if String.eqb s "false" then Some (Bool false)
  else match s with
       | String c s' => if Ascii.eqb c "034" then Some (Str s') else if is_digit c then Some (Num s) else None
       | EmptyString => None
       end.

Definition toy_text_of (x : value) : string :=
  match x with
  | Bool b => if b then "true" else "false"
  | Num t => t
  | Str s => String "034" s
  | _ => "null"
  end.

#[export] Instance serde : Serde := {
  value_of := toy_value_of;
  text_of := toy_text_of;
  members_of s := decode (unbits s);
  text_of_members l := bits (encode l);
  tok_f64 s := of_int <$> parse_u64 (bytes_of s);
  f64_tok x := dec (as_u64 x);
}.

#[export] Instance serde_laws : SerdeLaws serde.
Proof.
  split.
  - reflexivity.
  - intros []; reflexivity.
  - intros s. cbn. reflexivity.
  - intros n Hn. destruct (dec_bytes_cons n) as (c & l & E & Hc); [apply Hn|].
    assert (Ed : dec n = String c (str_of l)) by (unfold dec; by rewrite E).
    rewrite Ed. cbn -[is_digit]. unfold toy_value_of.
    assert (N : forall a, is_digit a = false -> Ascii.eqb c a = false).
    { intros a Ha. destruct (Ascii.eqb_spec c a); [congruence|done]. }
    cbn -[is_digit]. rewrite !N by reflexivity. by rewrite Hc.
  - intros l _. cbn. by rewrite unbits_bits, decode_encode.
Qed.
End Toy.

Lemma text_roundtrip `{S0 : Serde} {L : SerdeLaws S0} e : envelope_wf e -> envelope_of_text (envelope_text e) = Ok e.
Proof.
  intros H. unfold envelope_of_text, envelope_text.
  rewrite members_text by (by apply to_members_texts). by apply of_to_members.
Qed.

(** C25. Serialising an envelope and reading the text back gives the envelope:
    every field, the unknown ones included, survives a re-enqueue. *)
Theorem envelope_roundtrip (S0 : Serde) (L : SerdeLaws S0) e :
  envelope_wf e -> envelope_of_text (envelope_text e) = Ok e.
Proof. apply text_roundtrip. Qed.

Definition sample : Envelope :=
  {| v := 1; id := "a1"; task := "t"; args := None; kwargs := Some "7"%string; queue := "default"; kind := "io";
     retries := 2; max_retries := 3; backoff_base_ms := 500; backoff_factor := Fin 2; backoff_max_ms := 60000;
     jitter := true; timeout_ms := 300000; soft_timeout_ms := None; idempotency_key := Some "k"%string;
     store_result := true; enqueued_at := 1700000000000; not_before := None; expires_at := Some 9;
     extra := {["trace" := Str "x"]} |}.

Lemma sample_wf : @envelope_wf Toy.serde sample.
Proof.
  split; cbn; try (unfold MAX_TIMEOUT_MS; mlia); try (intros; simplify_eq; mlia).
  - split; [vm_compute; reflexivity|]. exists "2"%string. vm_compute. reflexivity.
  - intros; simplify_eq. split; [done|]. by eexists.
  - intros k x [<- <-]%lookup_singleton_Some. split; reflexivity.
Qed.

Lemma parsed_in_range_witness : @in_range sample.
Proof.
  apply (parsed_in_range Toy.serde (@envelope_text Toy.serde sample)).
  apply (@text_roundtrip Toy.serde Toy.serde_laws). exact sample_wf.
Defined.

Lemma envelope_roundtrip_witness :
  @envelope_of_text Toy.serde (@envelope_text Toy.serde sample) = Ok sample.
Proof. apply (envelope_roundtrip Toy.serde Toy.serde_laws sample). exact sample_wf. Defined.

Lemma flt_u64 q : flt (Fin q) (of_int u64_max) = true <-> (q < inject_Z (2 ^ 64))%Q.
Proof.
  assert (E : of_int u64_max = Fin (inject_Z (2 ^ 64))) by (vm_compute; reflexivity).
  rewrite E. unfold flt. cbn. rewrite Qlt_alt.
  destruct (Qcompare q _); split; done.
Qed.

Lemma fge_0 q : fge (Fin q) (Fin 0) = true <-> (0 <= q)%Q.
Proof.
  unfold fge. cbn. destruct (Qcompare q 0) eqn:C.
  - apply Qeq_alt in C. split; [intros; lra|done].
  - rewrite <- Qlt_alt in C. split; [done|intros; lra].
  - rewrite <- Qgt_alt in C. split; [intros; lra|done].
Qed.

(** An integer field is read exactly or refused: a number token gives [u]
    iff it is the integer [u] itself, or its [f64] value is the whole number
    [u] below [2^64]. A fraction is never truncated, nothing wraps. *)
Theorem value_to_u64_exact x u :
  value_to_u64 x = Ok u <->
  exists t, x = Num t /\
    (as_u64_number t = Some u \/
     as_u64_number t = None /\ exists q, as_f64_number t = Some (Fin q) /\ (q == inject_Z u)%Q /\ 0 <= u < 2 ^ 64).
Proof.
  split.
  - destruct x; cbn; try discriminate. intros H. exists token. split; [done|].
    destruct (as_u64_number token) as [w|]; [left; congruence|right; split; [done|]].
    destruct (as_f64_number token) as [[|s|q]|]; try discriminate.
    destruct (fract_zero (Fin q)) eqn:F; [|discriminate]. cbn [is_finite andb] in H.
    destruct (fge (Fin q) (Fin 0)) eqn:G; [|discriminate].
    destruct (flt (Fin q) (of_int u64_max)) eqn:Lt; [|discriminate]. cbn [andb] in H.
    apply fge_0 in G. apply flt_u64 in Lt. cbn in F. apply Qeq_bool_iff in F. injection H as <-.
    exists q. rewrite <- F in G, Lt. rewrite <- (Zle_Qle 0) in G. rewrite <- Zlt_Qlt in Lt.
    cbn in Lt. split; [done|]. unfold as_u64.
    rewrite (Z.max_r 0), (Z.min_r u64_max) by mlia. split; [by symmetry|]. cbn. lia.
  - intros (t & -> & [H|(H & q & Hq & E & Hu)]); cbn; rewrite H; [done|]. rewrite Hq.
    assert (Ef : Qfloor q = u) by (rewrite (Qfloor_comp _ _ E); apply Qfloor_Z).
    assert (F : fract_zero (Fin q) = true) by (cbn; apply Qeq_bool_iff; rewrite Ef; by symmetry).
    assert (G : fge (Fin q) (Fin 0) = true) by (apply fge_0; rewrite E; rewrite <- (Zle_Qle 0); lia).
    assert (Lt : flt (Fin q) (of_int u64_max) = true) by (apply flt_u64; rewrite E; rewrite <- Zlt_Qlt; lia).
    rewrite F, G, Lt. cbn. f_equal. rewrite Ef. mlia.
Qed.

(** ** Unknown fields *)

Section keep.
Context {S0 : Serde}.

Lemma visit_ok l : forall kn ext kn' ext', visit kn ext l = Ok (kn', ext') ->
  (forall k, assoc k fields = None ->
     ext' !! k = match assoc k (reverse l) with Some t => value_of t | None => ext !! k end) /\
  (forall k kd, assoc k fields = Some kd ->
     assoc k kn' = match assoc k kn with Some x => Some x | None => assoc k l ≫= fun t => ok (de_field kd k t) end).
Proof.
  induction l as [|[k0 t0] l IH]; intros kn ext kn' ext'; [|rewrite reverse_cons]; cbn [visit].
  - intros [= <- <-]. cbn. split; [done|]. intros k kd _. by destruct (assoc k kn).
  - destruct (assoc k0 fields) as [kd0|] eqn:E0.
    + destruct (assoc k0 kn) eqn:E1; [done|]. destruct (de_field kd0 k0 t0) as [x|] eqn:E2; [|done]. cbn [mbind result_bind].
      intros H. apply IH in H as [H1 H2]. split.
      * intros k Hk. rewrite (H1 k Hk), assoc_app.
        destruct (assoc k (reverse l)); [done|]. cbn [assoc]. destruct (String.eqb_spec k k0) as [->|]; [congruence|done].
      * intros k kd Hk. rewrite (H2 k kd Hk), assoc_app. cbn [assoc]. destruct (assoc k kn) eqn:E3; [done|].
        destruct (String.eqb_spec k k0) as [->|]; [|done]. assert (kd = kd0) as -> by congruence. cbn [mbind option_bind]. by rewrite E2.
    + destruct (de_value k0 t0) as [x|] eqn:E2; [|done]. cbn [mbind result_bind]. intros H. apply IH in H as [H1 H2]. split.
      * intros k Hk. rewrite (H1 k Hk), assoc_app.
        destruct (assoc k (reverse l)); [done|]. cbn [assoc]. destruct (String.eqb_spec k k0) as [->|].
        -- rewrite lookup_insert_eq. unfold de_value in E2. destruct (value_of t0); cbn in E2; congruence.
        -- by rewrite lookup_insert_ne by done.
      * intros k kd Hk. rewrite (H2 k kd Hk). destruct (assoc k kn); [done|]. cbn [assoc].
        destruct (String.eqb_spec k k0) as [->|]; [congruence|done].
Qed.

Lemma of_members_ok l e : of_members l = Ok e ->
  exists kn, visit [] ∅ l = Ok (kn, extra e) /\ args e = get_raw kn "args" /\ kwargs e = get_raw kn "kwargs" /\
    id e = get_str kn "id" "".
Proof.
  unfold of_members. destruct (visit [] ∅ l) as [[kn ext]|]; [|done]. cbn. unfold build.
  intros (i & Hi & H)%bind_Ok. apply bind_Ok in H as (t & Ht & H). injection H as <-.
  exists kn. cbn. split_and!; try done. unfold require_str, get_str in *.
  destruct (assoc "id" kn) as [[]|]; congruence.
Qed.
End keep.

(** A field the worker does not know leaves with the value it arrived with
    (the last one, when repeated), and [args]/[kwargs] leave as the very text
    they arrived as, whatever the retry changed of the declared fields. *)
Theorem unknown_fields_survive (S0 : Serde) l e e' :
  of_members l = Ok e -> extra e' = extra e -> args e' = args e -> kwargs e' = kwargs e ->
  (forall k t, assoc k (reverse l) = Some t -> assoc k fields = None ->
     exists x, value_of t = Some x /\ (k, text_of x) ∈ to_members e') /\
  (forall t, assoc "args" l = Some t -> t <> "null"%string -> ("args"%string, t) ∈ to_members e') /\
  (forall t, assoc "kwargs" l = Some t -> t <> "null"%string -> ("kwargs"%string, t) ∈ to_members e').
Proof.
  intros H Ex Ea Ek. destruct (of_members_ok _ _ H) as (kn & Hv & Ha & Hk & _).
  pose proof (visit_ok _ _ _ _ _ Hv) as [H1 H2]. unfold to_members.
  assert (R : forall k t, assoc k fields = Some KRaw -> assoc k l = Some t -> t <> "null"%string ->
    get_raw kn k = Some t).
  { intros k t F A N. unfold get_raw. rewrite (H2 k KRaw F). cbn. rewrite A. cbn. unfold de_raw.
    by destruct (String.eqb_spec t "null"). }
  split_and!.
  - intros k t A F. pose proof (H1 k F) as E. rewrite A in E.
    destruct (value_of t) as [x|] eqn:Ev.
    + exists x. split; [done|]. apply elem_of_app. right. unfold extra_members. rewrite Ex.
      apply (list_elem_of_fmap_2' _ _ (k, x)); [|done]. rewrite (merge_sort_Permutation key_le).
      by apply elem_of_map_to_list.
    + exfalso. clear - Hv A F Ev. revert Hv A. generalize (@nil (string * field_val)), (∅ : gmap string value).
      induction l as [|[k0 t0] l IH]; intros kn0 ext0; [done|]. rewrite reverse_cons, assoc_app.
      cbn [visit]. intros Hv.
      destruct (assoc k (reverse l)) eqn:E.
      * intros [= ->]. destruct (assoc k0 fields).
        -- destruct (assoc k0 kn0); [done|]. destruct (de_field _ _ _); [|done]. by eapply IH.
        -- destruct (de_value _ _); [|done]. by eapply IH.
      * cbn. destruct (String.eqb_spec k k0) as [->|]; [|done]. intros [= ->]. rewrite F in Hv.
        unfold de_value in Hv. by rewrite Ev in Hv.
  - intros t A N. rewrite (R "args"%string t eq_refl A N) in Ha. rewrite Ha in Ea.
    apply elem_of_app. left. unfold known_members. rewrite Ea. cbn. set_solver.
  - intros t A N. rewrite (R "kwargs"%string t eq_refl A N) in Hk. rewrite Hk in Ek.
    apply elem_of_app. left. unfold known_members. rewrite Ek. cbn. set_solver.
Qed.

Lemma unknown_fields_survive_witness :
  let l := [("id", String "034" "a"); ("task", String "034" "t"); ("meta", "5"); ("args", "7")]%string in
  exists e, @of_members Toy.serde l = Ok e /\
    (exists x, @value_of Toy.serde "5" = Some x /\ ("meta"%string, @text_of Toy.serde x) ∈ @to_members Toy.serde e).
Proof.
  eexists. split; [vm_compute; reflexivity|].
  apply (unknown_fields_survive Toy.serde
    [("id", String "034" "a"); ("task", String "034" "t"); ("meta", "5"); ("args", "7")]%string _ _
    eq_refl eq_refl eq_refl eq_refl); reflexivity.
Defined.

(** ** Deadlines *)

(** The expiry deadline of PROTOCOL 9 is the earlier of [expires_at] and
    the queue TTL counted from a set [enqueued_at]; it exists iff one of them
    does, and the TTL bound never lands before [enqueued_at] (no wrap). *)
Theorem expiry_deadline_earliest e ttl d :
  is_u64 (enqueued_at e) -> (forall t, ttl = Some t -> is_u64 t) ->
  expiry_deadline_ms e ttl = Some d <->
  (let bound x := expires_at e = Some x \/
     (exists t, ttl = Some t /\ enqueued_at e <> 0 /\ x = Z.min u64_max (enqueued_at e + t) /\ enqueued_at e <= x) in
   bound d /\ forall x, bound x -> d <= x).
Proof.
  intros He Ht. unfold expiry_deadline_ms.
  set (by_ttl := match ttl with Some t => _ | None => None end).
  assert (HB : forall x, by_ttl = Some x <->
    exists t, ttl = Some t /\ enqueued_at e <> 0 /\ x = Z.min u64_max (enqueued_at e + t) /\ enqueued_at e <= x).
  { intros x. unfold by_ttl. destruct ttl as [t|]; [|naive_solver]. specialize (Ht t eq_refl).
    destruct (Z.ltb_spec 0 (enqueued_at e)); split.
    - intros [= <-]. exists t. unfold sat_add. repeat split; mlia.
    - intros (? & [= <-] & _ & -> & _). done.
    - done.
    - intros (? & _ & ? & _). mlia. }
  cbn. setoid_rewrite <- HB. destruct (expires_at e) as [a|], by_ttl as [b|]; split.
  - intros [= <-]. split; [|intros x [[= <-]|[= <-]]; lia].
    destruct (Z.min_spec a b) as [[_ ->]|[_ ->]]; auto.
  - intros [[[= ->]|[= ->]] HM]; pose proof (HM _ (or_introl eq_refl)); pose proof (HM _ (or_intror eq_refl));
      f_equal; lia.
  - intros [= <-]. split; [by left|]. by intros x [[= <-]|?].
  - by intros [[[= ->]|?] _].
  - intros [= <-]. split; [by right|]. by intros x [?|[= <-]].
  - by intros [[?|[= ->]] _].
  - done.
  - by intros [[?|?] _].
Qed.

Lemma expiry_deadline_earliest_witness :
  expiry_deadline_ms sample (Some 60000) = Some 9.
Proof.
  apply (expiry_deadline_earliest sample (Some 60000) 9); [cbn; mlia|intros; simplify_eq; mlia|].
  cbn. split; [by left|]. intros x [[= <-]|(t & [= <-] & _ & -> & _)]; mlia.
Defined.

(** ** Truncation *)

Lemma back_off_spec s n : (n <= length s)%nat ->
  is_char_boundary s (back_off s n) = true /\ (back_off s n <= n)%nat /\
  forall m, (m <= n)%nat -> is_char_boundary s m = true -> (m <= back_off s n)%nat.
Proof.
  induction n as [|n IH]; intros Hn; cbn [back_off].
  - split_and!; [done|done|lia].
  - destruct (is_char_boundary s (S n)) eqn:E; [split_and!; [done|done|lia]|].
    destruct IH as (H1 & H2 & H3); [lia|]. split_and!; [done|lia|].
    intros m Hm B. destruct (decide (m = S n)) as [->|]; [congruence|]. apply H3; [lia|done].
Qed.

(** [safe_truncate] returns the longest prefix of at most [max_bytes] bytes
    that ends on a char boundary; the slice it takes is always in range. *)
Theorem safe_truncate_longest s n :
  exists m, safe_truncate s n = take m s /\ (m <= length s)%nat /\ (length (safe_truncate s n) <= n)%nat /\
    is_char_boundary s m = true /\
    forall k, (k <= n)%nat -> (k <= length s)%nat -> is_char_boundary s k = true -> (k <= m)%nat.
Proof.
  unfold safe_truncate. destruct (Nat.leb_spec (length s) n).
  - exists (length s). split_and!; [by rewrite firstn_all|done|done| |lia].
    unfold is_char_boundary. destruct (length s =? 0)%nat eqn:E; [done|].
    rewrite lookup_ge_None_2 by lia. apply Nat.eqb_refl.
  - destruct (back_off_spec s n ltac:(lia)) as (H1 & H2 & H3).
    exists (back_off s n). split_and!; [done|lia| |done|auto]. rewrite length_take. lia.
Qed.
