(* ===== verification/Stats.v ===== *)
(** Counters, the latency histogram and the cpu backlog log edge
    ([worker/src/stats.rs]). *)
From S2P Require Import Prelude.
Open Scope Z_scope.

(** ** The latency histogram *)

Definition LAT_BUCKETS : nat := 24.

(** [LatencyHist]: one count per log2 bucket. *)
Definition LatencyHist : Type := list Z.
Definition lat_default : LatencyHist := replicate LAT_BUCKETS 0.

(** [63 - leading_zeros] is [Z.log2] on a positive [u64]. *)
Definition lat_bucket (ms : Z) : nat :=
  Nat.min (Z.to_nat (Z.log2 (Z.max ms 1))) (LAT_BUCKETS - 1).

Definition lat_bucket_edges (i : nat) : Z * Z :=
  (if (i =? 0)%nat then 0 else Z.shiftl 1 (Z.of_nat i), Z.shiftl 1 (Z.of_nat i + 1)).

(** [record]: [as_millis] truncated to [u64], one relaxed [fetch_add]. *)
Definition lat_record (h : LatencyHist) (millis : Z) : LatencyHist :=
  alter (fun n => wrap64 (n + 1)) (lat_bucket (wrap64 millis)) h.

Definition counts_total (counts : list Z) : Z := fold_right (fun c t => wrap64 (c + t)) 0 counts.

(** The scan of [percentile]: [None] is the line the source calls unreachable. *)
Fixpoint percentile_scan (counts : list Z) (i : nat) (cum target : Z) : option Z :=
  match counts with
  | [] => None
  | c :: rest =>
      if c =? 0 then percentile_scan rest (S i) cum target
      else if target <=? wrap64 (cum + c) then
        let '(lo, hi) := lat_bucket_edges i in
        Some (wrap64 (lo + wrap64 ((hi - lo) * wrap64 (target - cum)) / c))
      else percentile_scan rest (S i) (wrap64 (cum + c)) target
  end.

Definition percentile_target (total pct : Z) : Z := Z.max (sat_add (sat_mul total pct) 99 / 100) 1.

Definition percentile (counts : list Z) (pct : Z) : Z :=
  let total := counts_total counts in
  if total =? 0 then 0 else
  match percentile_scan counts 0 0 (percentile_target total pct) with
  | Some r => r
  | None => (lat_bucket_edges (LAT_BUCKETS - 1)).2
  end.

(** Drains the histogram: every bucket is swapped with 0. *)
Definition take_p50_p99 (h : LatencyHist) : (Z * Z) * LatencyHist :=
  ((percentile h 50, percentile h 99), (fun _ => 0) <$> h).

(** ** Counters and the stats line *)

Record Counters := {
  fetched : Z; ok_ : Z; failed : Z; retried : Z; dlq : Z; duplicate : Z; expired : Z; cpu_lost : Z;
  inflight_io : Z; inflight_cpu : Z; inflight_total : Z;
  cpu_backlog_warned : bool; cpu_backlog_since_ms : Z;
  lat_sync : LatencyHist; lat_async : LatencyHist; lat_cpu : LatencyHist;
}.

Definition counters_default : Counters :=
  {| fetched := 0; ok_ := 0; failed := 0; retried := 0; dlq := 0; duplicate := 0; expired := 0; cpu_lost := 0;
     inflight_io := 0; inflight_cpu := 0; inflight_total := 0; cpu_backlog_warned := false;
     cpu_backlog_since_ms := 0; lat_sync := lat_default; lat_async := lat_default; lat_cpu := lat_default |}.

Definition alnum (c : ascii) : bool :=
  is_digit c || ((65 <=? code c) && (code c <=? 90)) || ((97 <=? code c) && (code c <=? 122)).

(** [host], on the raw host name. *)
Definition host (raw : bytes) : bytes :=
  let safe := map (fun c => if alnum c || Ascii.eqb c "." || Ascii.eqb c "-" || Ascii.eqb c "_" then c else "_"%char) raw in
  match safe with [] => bytes_of "unknown" | _ => safe end.

Definition dec_i64 (z : Z) : string := if z <? 0 then "-" +:+ dec (- z) else dec z.

(** [Counters::stats_line]: it drains the three histograms. *)
Definition stats_line (pid rss_mb : Z) (raw_host : bytes) (c : Counters) : string * Counters :=
  let '((s50, s99), s') := take_p50_p99 (lat_sync c) in
  let '((a50, a99), a') := take_p50_p99 (lat_async c) in
  let '((c50, c99), c') := take_p50_p99 (lat_cpu c) in
  ("stats: pid=" +:+ dec pid +:+ " host=" +:+ str_of (host raw_host) +:+ " fetched=" +:+ dec (fetched c) +:+
   " ok=" +:+ dec (ok_ c) +:+ " failed=" +:+ dec (failed c) +:+ " retried=" +:+ dec (retried c) +:+
   " dlq=" +:+ dec (dlq c) +:+ " expired=" +:+ dec (expired c) +:+ " duplicate=" +:+ dec (duplicate c) +:+
   " cpu_lost=" +:+ dec (cpu_lost c) +:+ " inflight_io=" +:+ dec_i64 (inflight_io c) +:+
   " inflight_cpu=" +:+ dec_i64 (inflight_cpu c) +:+ " rss_mb=" +:+ dec rss_mb +:+
   " sync_p50=" +:+ dec s50 +:+ " sync_p99=" +:+ dec s99 +:+ " async_p50=" +:+ dec a50 +:+
   " async_p99=" +:+ dec a99 +:+ " cpu_p50=" +:+ dec c50 +:+ " cpu_p99=" +:+ dec c99,
   {| fetched := fetched c; ok_ := ok_ c; failed := failed c; retried := retried c; dlq := dlq c;
      duplicate := duplicate c; expired := expired c; cpu_lost := cpu_lost c; inflight_io := inflight_io c;
      inflight_cpu := inflight_cpu c; inflight_total := inflight_total c;
      cpu_backlog_warned := cpu_backlog_warned c; cpu_backlog_since_ms := cpu_backlog_since_ms c;
      lat_sync := s'; lat_async := a'; lat_cpu := c' |}).

(** ** The backlog edge *)

Inductive backlog_log := BacklogFull (depth : Z) | BacklogCleared (duration_ms : Z).

(** [note_cpu_backlog] on the two atomics it owns. *)
Definition note_cpu_backlog (s : bool * Z) (depth now_ms : Z) : (bool * Z) * option backlog_log :=
  let '(warned, since) := s in
  if 0 <? depth then
    if warned then ((true, since), None) else ((true, now_ms), Some (BacklogFull depth))
  else if warned then ((false, since), Some (BacklogCleared (sat_sub now_ms since)))
  else ((false, since), None).

Fixpoint note_all (s : bool * Z) (polls : list (Z * Z)) : list backlog_log :=
  match polls with
  | [] => []
  | (depth, now) :: rest =>
      let '(s', l) := note_cpu_backlog s depth now in option_list l ++ note_all s' rest
  end.

(** ** Resident set size *)

Definition is_space (c : ascii) : bool := ((9 <=? code c) && (code c <=? 13)) || (code c =? 32).

Fixpoint trim_start (l : bytes) : bytes :=
  match l with c :: l' => if is_space c then trim_start l' else l | [] => [] end.
Definition trim (l : bytes) : bytes := reverse (trim_start (reverse (trim_start l))).

Fixpoint strip_prefix (p l : bytes) : option bytes :=
  match p, l with
  | [], _ => Some l
  | a :: p', b :: l' => if Ascii.eqb a b then strip_prefix p' l' else None
  | _ :: _, [] => None
  end.

(** [trim_end_matches("kB")] repeatedly. *)
Fixpoint trim_end_kB (fuel : nat) (r : bytes) : bytes :=
  match fuel with
  | O => r
  | S f => match strip_prefix (bytes_of "Bk") r with Some r' => trim_end_kB f r' | None => r end
  end.

Fixpoint split_on (sep : ascii) (l : bytes) : list bytes :=
  match l with
  | [] => [[]]
  | c :: l' =>
      if Ascii.eqb c sep then [] :: split_on sep l'
      else match split_on sep l' with h :: t => (c :: h) :: t | [] => [[c]] end
  end.

(** [rss_mb_at] on the file's text, [None] when unreadable. *)
Definition rss_mb_at (text : option bytes) : Z :=
  match text with
  | None => 0
  | Some s =>
      match list_find (fun l => strip_prefix (bytes_of "VmRSS:") l <> None) (split_on "010" s) with
      | Some (_, line) =>
          let rest := default [] (strip_prefix (bytes_of "VmRSS:") line) in
          let t := trim rest in
          default 0 (parse_u64 (trim (reverse (trim_end_kB (length t) (reverse t))))) / 1024
      | None => 0
      end
  end.

Definition cpu_rss_mb (texts : list (option bytes)) : Z := fold_right (fun t a => wrap64 (rss_mb_at t + a)) 0 texts.

Example rss_example : rss_mb_at (Some (bytes_of ("Name: x" +:+ String "010" "VmRSS:	   20480 kB"))) = 20.
Proof. vm_compute. reflexivity. Qed.
Example bucket_examples : map lat_bucket [0; 1; 2; 3; 4; 1023; 1024; u64_max] = [0; 0; 1; 1; 2; 9; 10; 23]%nat.
Proof. vm_compute. reflexivity. Qed.

(** ** The bucket of a latency *)

Lemma wrap64_small z : 0 <= z <= u64_max -> wrap64 z = z.
Proof. intros. unfold wrap64. apply Z.mod_small. mlia. Qed.

(** A latency lands in the bucket whose edges enclose it, the top bucket
    taking everything past [2^24] ms. *)
Theorem lat_bucket_encloses ms : 0 <= ms ->
  let i := lat_bucket ms in
  (i < LAT_BUCKETS)%nat /\ (lat_bucket_edges i).1 <= ms /\ (ms < (lat_bucket_edges i).2 \/ 2 ^ 24 <= ms).
Proof.
  intros H. cbn [fst snd lat_bucket_edges]. unfold lat_bucket, LAT_BUCKETS.
  destruct (Z.log2_spec (Z.max ms 1) ltac:(lia)) as [H1 H2].
  pose proof (Z.log2_nonneg (Z.max ms 1)). set (k := Z.log2 (Z.max ms 1)) in *.
  rewrite !Z.shiftl_mul_pow2, !Z.mul_1_l by lia. change (24 - 1)%nat with 23%nat.
  destruct (Nat.eqb_spec (Nat.min (Z.to_nat k) 23) 0) as [E|E].
  - rewrite E. assert (k = 0) as E0 by lia. rewrite E0 in *. cbn in *. lia.
  - assert (1 <= k) by lia. assert (2 ^ 1 <= 2 ^ k) by (apply Z.pow_le_mono_r; lia).
    destruct (Z_le_gt_dec k 23) as [Hk|Hk].
    + replace (Z.of_nat (Nat.min (Z.to_nat k) 23)) with k by lia. unfold Z.succ in H2. lia.
    + replace (Z.of_nat (Nat.min (Z.to_nat k) 23)) with 23 by lia.
      assert (2 ^ 24 <= 2 ^ k) by (apply Z.pow_le_mono_r; lia). cbn in *. lia.
Qed.

Lemma lat_bucket_encloses_witness : (lat_bucket_edges (lat_bucket 1500)).1 <= 1500.
Proof. apply (lat_bucket_encloses 1500). lia. Defined.

(** ** Percentiles *)

(** Counts of an interval: nonnegative, and few enough for exact arithmetic. *)
Definition counts_ok (counts : list Z) : Prop :=
  Forall (fun c => 0 <= c) counts /\ foldr Z.add 0 counts <= 2 ^ 39 /\ (length counts <= LAT_BUCKETS)%nat.

Lemma sum_nonneg counts : Forall (fun c => 0 <= c) counts -> 0 <= foldr Z.add 0 counts.
Proof. induction 1; cbn; lia. Qed.

Lemma counts_total_sum counts : Forall (fun c => 0 <= c) counts -> foldr Z.add 0 counts <= 2 ^ 39 ->
  counts_total counts = foldr Z.add 0 counts.
Proof.
  induction 1 as [|c l Hc Hl IH]; [done|]. cbn [foldr]. pose proof (sum_nonneg l Hl). intros.
  change (counts_total (c :: l)) with (wrap64 (c + counts_total l)). rewrite IH by lia. apply wrap64_small. mlia.
Qed.

Lemma edges_val i : lat_bucket_edges i = (if (i =? 0)%nat then 0 else 2 ^ Z.of_nat i, 2 ^ (Z.of_nat i + 1)).
Proof. unfold lat_bucket_edges. rewrite !Z.shiftl_mul_pow2, !Z.mul_1_l by lia. done. Qed.

Lemma edges_order i j : (i < j)%nat -> (lat_bucket_edges i).2 <= (lat_bucket_edges j).1.
Proof.
  intros. rewrite !edges_val. cbn [fst snd]. destruct (Nat.eqb_spec j 0); [lia|]. apply Z.pow_le_mono_r; lia.
Qed.

(** What one bucket contributes, without the wraps. *)
Definition interpolate (i : nat) (c cum target : Z) : Z :=
  (lat_bucket_edges i).1 + ((lat_bucket_edges i).2 - (lat_bucket_edges i).1) * (target - cum) / c.

Lemma interpolate_bounds i c cum target : 0 < c -> cum < target <= cum + c ->
  (lat_bucket_edges i).1 <= interpolate i c cum target <= (lat_bucket_edges i).2.
Proof.
  intros Hc Ht. unfold interpolate. rewrite edges_val. cbn [fst snd].
  set (lo := if (i =? 0)%nat then 0 else 2 ^ Z.of_nat i). set (hi := 2 ^ (Z.of_nat i + 1)).
  assert (0 <= hi - lo).
  { unfold lo, hi. destruct (i =? 0)%nat; [pose proof (Z.pow_nonneg 2 (Z.of_nat i + 1)); lia|].
    assert (2 ^ Z.of_nat i <= 2 ^ (Z.of_nat i + 1)) by (apply Z.pow_le_mono_r; lia). lia. }
  split.
  - assert (0 <= (hi - lo) * (target - cum) / c) by (apply Z.div_pos; nia). lia.
  - assert ((hi - lo) * (target - cum) / c <= hi - lo) by (apply Z.div_le_upper_bound; nia). lia.
Qed.

(** The scan finds the bucket that carries the rank and interpolates in it. *)
Lemma percentile_scan_spec counts : forall i cum target,
  Forall (fun c => 0 <= c) counts -> 0 <= cum -> cum + foldr Z.add 0 counts <= 2 ^ 39 ->
  (i + length counts <= LAT_BUCKETS)%nat -> cum < target <= cum + foldr Z.add 0 counts ->
  exists j c, counts !! j = Some c /\ 0 < c /\
    cum + foldr Z.add 0 (take j counts) < target <= cum + foldr Z.add 0 (take j counts) + c /\
    percentile_scan counts i cum target = Some (interpolate (i + j) c (cum + foldr Z.add 0 (take j counts)) target).
Proof.
  induction counts as [|c l IH]; intros i cum target HF Hcum Hs Hi Ht; cbn in Ht, Hi; [lia|].
  inversion HF as [|?? Hc HF']; subst. cbn in Hs. pose proof (sum_nonneg l HF'). cbn [percentile_scan].
  rewrite (wrap64_small (cum + c)) by mlia.
  assert (Hrec : cum + c < target -> exists j c0, (c :: l) !! j = Some c0 /\ 0 < c0 /\
    cum + foldr Z.add 0 (take j (c :: l)) < target <= cum + foldr Z.add 0 (take j (c :: l)) + c0 /\
    percentile_scan l (S i) (cum + c) target =
      Some (interpolate (i + j) c0 (cum + foldr Z.add 0 (take j (c :: l))) target)).
  { intros Hlt. destruct (IH (S i) (cum + c) target) as (j & c0 & H1 & H2 & H3 & H4); try lia; [done|].
    exists (S j), c0. cbn. rewrite H4. replace (i + S j)%nat with (S i + j)%nat by lia.
    replace (cum + (c + foldr Z.add 0 (take j l))) with (cum + c + foldr Z.add 0 (take j l)) by lia.
    repeat split; try done; lia. }
  destruct (Z.eqb_spec c 0) as [->|Hc0].
  - rewrite Z.add_0_r in *. apply Hrec. lia.
  - destruct (Z.leb_spec target (cum + c)); [|by apply Hrec].
    exists 0%nat, c. cbn. rewrite Z.add_0_r, Nat.add_0_r. repeat split; try lia.
    pose proof (interpolate_bounds i c cum target ltac:(lia) ltac:(lia)) as B.
    unfold interpolate in *. rewrite edges_val in *. cbn [fst snd] in *. cbv beta iota zeta.
    rewrite ?Z.shiftl_mul_pow2, ?Z.mul_1_l by lia.
    set (lo := if (i =? 0)%nat then 0 else 2 ^ Z.of_nat i) in *. set (hi := 2 ^ (Z.of_nat i + 1)) in *.
    assert (0 <= lo <= hi /\ hi <= 2 ^ 24).
    { unfold LAT_BUCKETS in Hi. unfold lo, hi. split; [|apply Z.pow_le_mono_r; lia].
      destruct (i =? 0)%nat; [pose proof (Z.pow_nonneg 2 (Z.of_nat i + 1)); lia|].
      split; [apply Z.pow_nonneg; lia|apply Z.pow_le_mono_r; lia]. }
    rewrite (wrap64_small (target - cum)) by mlia.
    assert (0 <= (hi - lo) * (target - cum) <= 2 ^ 24 * 2 ^ 39).
    { split; [apply Z.mul_nonneg_nonneg; lia|apply Z.mul_le_mono_nonneg; lia]. }
    rewrite (wrap64_small ((hi - lo) * (target - cum))) by (change (2 ^ 24 * 2 ^ 39) with 9223372036854775808 in *; mlia).
    rewrite wrap64_small; [done|]. mlia.
Qed.

Lemma target_bounds total pct : 0 < total <= 2 ^ 39 -> 0 <= pct <= 100 ->
  percentile_target total pct = Z.max ((total * pct + 99) / 100) 1 /\ 1 <= percentile_target total pct <= total.
Proof.
  intros Ht Hp. assert (E : percentile_target total pct = Z.max ((total * pct + 99) / 100) 1).
  { unfold percentile_target, sat_mul, sat_add. rewrite (Z.min_r u64_max (total * pct)) by (mach; nia).
    rewrite Z.min_r by (mach; nia). done. }
  split; [done|]. rewrite E. assert ((total * pct + 99) / 100 <= total); [|lia].
  apply Z.lt_succ_r. apply Z.div_lt_upper_bound; nia.
Qed.

(** A percentile of a nonempty interval is read from the bucket that
    carries its rank [ceil(total * pct / 100)], between that bucket's edges:
    the fall-through the source marks unreachable is never taken. *)
Theorem percentile_in_rank_bucket counts pct :
  counts_ok counts -> 0 < foldr Z.add 0 counts -> 0 <= pct <= 100 ->
  let rank := Z.max ((foldr Z.add 0 counts * pct + 99) / 100) 1 in
  exists j c, counts !! j = Some c /\
    foldr Z.add 0 (take j counts) < rank <= foldr Z.add 0 (take j counts) + c /\
    (lat_bucket_edges j).1 <= percentile counts pct <= (lat_bucket_edges j).2.
Proof.
  intros (HF & Hs & Hl) Ht Hp. destruct (target_bounds _ pct (conj Ht Hs) Hp) as [E B].
  unfold percentile. rewrite counts_total_sum by done. rewrite (proj2 (Z.eqb_neq _ _)) by lia.
  destruct (percentile_scan_spec counts 0 0 (percentile_target (foldr Z.add 0 counts) pct)) as (j & c & H1 & H2 & H3 & H4);
    try done; try lia.
  rewrite H4. rewrite E in *. cbn [Nat.add] in *. exists j, c. split_and!; [done|lia|lia| |];
    apply (interpolate_bounds j c (0 + foldr Z.add 0 (take j counts)) _ H2 H3).
Qed.

Lemma percentile_in_rank_bucket_witness :
  exists j c, [0; 3; 0; 97; 1] !! j = Some c /\ (lat_bucket_edges j).1 <= percentile [0; 3; 0; 97; 1] 99 <= (lat_bucket_edges j).2.
Proof.
  destruct (percentile_in_rank_bucket [0; 3; 0; 97; 1] 99) as (j & c & H1 & _ & H2).
  - split_and!; [repeat constructor; lia|cbn; lia|cbn; unfold LAT_BUCKETS; lia].
  - cbn. lia.
  - lia.
  - eauto.
Defined.

Lemma interpolate_mono i c cum t t' : 0 < c -> cum < t <= t' -> interpolate i c cum t <= interpolate i c cum t'.
Proof.
  intros Hc Ht. unfold interpolate. apply Z.add_le_mono_l. apply Z.div_le_mono; [lia|].
  apply Z.mul_le_mono_nonneg_l; [|lia]. rewrite edges_val. cbn.
  destruct (i =? 0)%nat; [pose proof (Z.pow_nonneg 2 (Z.of_nat i + 1)); lia|].
  assert (2 ^ Z.of_nat i <= 2 ^ (Z.of_nat i + 1)) by (apply Z.pow_le_mono_r; lia). lia.
Qed.

Lemma sum_take_mono counts i j : Forall (fun c => 0 <= c) counts -> (i <= j)%nat ->
  foldr Z.add 0 (take i counts) <= foldr Z.add 0 (take j counts).
Proof.
  intros HF. revert i j. induction HF as [|c l Hc HF IH]; intros [|i] [|j] Hij; cbn; try lia.
  - pose proof (sum_nonneg (take j l) (Forall_take _ _ _ HF)). lia.
  - specialize (IH i j). lia.
Qed.

Lemma sum_take_S counts j c : counts !! j = Some c ->
  foldr Z.add 0 (take (S j) counts) = foldr Z.add 0 (take j counts) + c.
Proof.
  intros H. rewrite (take_S_r _ _ _ H). generalize (take j counts). clear.
  intros l. induction l; cbn; lia.
Qed.

(** Draining an interval reports [p50 <= p99], and leaves it empty. *)
Theorem p50_le_p99 h : counts_ok h ->
  let '((p50, p99), h') := take_p50_p99 h in 0 <= p50 <= p99 /\ h' = replicate (length h) 0.
Proof.
  intros (HF & Hs & Hl). unfold take_p50_p99. split; [|clear; induction h; cbn; congruence].
  destruct (decide (foldr Z.add 0 h = 0)) as [E|E].
  { unfold percentile. rewrite counts_total_sum, E by (done || lia). cbn. lia. }
  pose proof (sum_nonneg h HF) as H0.
  destruct (target_bounds (foldr Z.add 0 h) 50 ltac:(lia) ltac:(lia)) as [E50 B50].
  destruct (target_bounds (foldr Z.add 0 h) 99 ltac:(lia) ltac:(lia)) as [E99 B99].
  assert (Hle : percentile_target (foldr Z.add 0 h) 50 <= percentile_target (foldr Z.add 0 h) 99).
  { rewrite E50, E99. apply Z.max_le_compat_r. apply Z.div_le_mono; lia. }
  unfold percentile. rewrite counts_total_sum by done. rewrite (proj2 (Z.eqb_neq _ _)) by lia.
  set (t := percentile_target _ 50) in *. set (t' := percentile_target _ 99) in *.
  destruct (percentile_scan_spec h 0 0 t) as (i & c & C1 & C2 & C3 & ->); try done; try lia.
  destruct (percentile_scan_spec h 0 0 t') as (j & d & D1 & D2 & D3 & ->); try done; try lia.
  cbn [Nat.add]. rewrite !Z.add_0_l in *.
  pose proof (interpolate_bounds i c _ _ C2 C3) as Bi. pose proof (interpolate_bounds j d _ _ D2 D3) as Bj.
  split.
  { assert (0 <= (lat_bucket_edges i).1); [|lia]. rewrite edges_val. cbn.
    destruct (i =? 0)%nat; [lia|apply Z.pow_nonneg; lia]. }
  destruct (Nat.lt_trichotomy i j) as [L|[->|L]].
  - pose proof (edges_order i j L). lia.
  - assert (c = d) as -> by congruence. apply interpolate_mono; lia.
  - pose proof (sum_take_mono h (S j) i HF ltac:(lia)). rewrite (sum_take_S h j d D1) in *. lia.
Qed.

Lemma p50_le_p99_witness : percentile [0; 3; 0; 97; 1] 50 <= percentile [0; 3; 0; 97; 1] 99.
Proof.
  apply (p50_le_p99 [0; 3; 0; 97; 1]). split_and!; [repeat constructor; lia|cbn; lia|cbn; unfold LAT_BUCKETS; lia].
Defined.

(** ** One log line per backlog edge *)

(** The lines a poll sequence may produce: full and cleared alternate, starting
    with full, and a cleared line's duration is measured from the poll that
    logged full. *)
Inductive alternating : bool * Z -> list (Z * Z) -> list backlog_log -> Prop :=
| alt_done s : alternating s [] []
| alt_same w since depth now rest l :
    w = (0 <? depth) -> alternating (w, since) rest l -> alternating (w, since) ((depth, now) :: rest) l
| alt_full since depth now rest l :
    0 < depth -> alternating (true, now) rest l ->
    alternating (false, since) ((depth, now) :: rest) (BacklogFull depth :: l)
| alt_cleared since depth now rest l :
    depth <= 0 -> alternating (false, since) rest l ->
    alternating (true, since) ((depth, now) :: rest) (BacklogCleared (sat_sub now since) :: l).

(** However often the backlog is polled, it logs exactly once per edge:
    one full line when it becomes nonzero, one cleared line, with the length of
    the spell, when it returns to zero. *)
Theorem backlog_logs_edges polls s : alternating s polls (note_all s polls).
Proof.
  revert s. induction polls as [|[depth now] rest IH]; intros [w since]; [constructor|].
  cbn. destruct (Z.ltb_spec 0 depth) as [L|L], w; cbn.
  all: constructor; [|apply IH]; (lia || by rewrite ?(proj2 (Z.ltb_lt _ _)), ?(proj2 (Z.ltb_ge _ _))).
Qed.
