(* ===== verification/Ctx.v ===== *)
(** The shared worker context ([worker/src/ctx.rs]): which stream entries this
    process holds, the per-queue TTL, the wall clock reading, and the outcome an
    executor's response stands for. *)
From S2P Require Import Prelude Float64 Envelope Stats.
Open Scope Z_scope.

(** ** Stream ids *)

(** [str::split_once('-')]. *)
Definition split_once (sep : ascii) (l : bytes) : option (bytes * bytes) :=
  match break (Ascii.eqb sep) l with
  | (a, _ :: b) => Some (a, b)
  | (_, []) => None
  end.

Definition parse_stream_id (id : string) : option (Z * Z) :=
  '(ms, seq) ← split_once "-" (bytes_of id);
  m ← parse_u64 ms;
  s ← parse_u64 seq;
  Some (m, s).

(** How Redis prints an id. *)
Definition stream_id (ms seq : Z) : string := dec ms +:+ "-" +:+ dec seq.

Lemma parse_stream_id_dec ms seq : is_u64 ms -> is_u64 seq -> parse_stream_id (stream_id ms seq) = Some (ms, seq).
Proof.
  intros Hm Hs. unfold parse_stream_id, stream_id, split_once.
  rewrite !bytes_of_app, !bytes_of_dec. change (bytes_of "-") with ["-"%char]. cbn [app].
  rewrite break_prefix; cbn [mbind option_bind].
  - rewrite parse_dec by done. cbn [mbind option_bind]. by rewrite parse_dec.
  - intros c Hc. destruct (Ascii.eqb_spec "-" c) as [<-|]; [|done].
    pose proof (dec_digits_all 20 ms (proj1 Hm) _ Hc). discriminate.
  - intros c l [= <- _]. done.
Qed.

(** ** Held entries *)

Abbreviation Inflight := (gmap string (gset (Z * Z))).

(** [InflightEntry]: the queue whose set it names, [None] for an inert guard. *)
Record InflightEntry := { set_of : option string; entry_id : Z * Z }.

(** [InflightEntry::track]: only the queues of the map have a set. *)
Definition track (m : Inflight) (queue stream_id : string) : Inflight * InflightEntry :=
  match m !! queue, parse_stream_id stream_id with
  | Some s, Some id => (<[queue := {[id]} ∪ s]> m, {| set_of := Some queue; entry_id := id |})
  | _, _ => (m, {| set_of := None; entry_id := (0, 0) |})
  end.

(** [Drop for InflightEntry], on every exit path, a panic included. *)
Definition drop_entry (m : Inflight) (g : InflightEntry) : Inflight :=
  match set_of g with
  | Some q => alter (fun s => s ∖ {[entry_id g]}) q m
  | None => m
  end.

Definition holds_entry (m : Inflight) (queue stream_id : string) : bool :=
  match m !! queue, parse_stream_id stream_id with
  | Some s, Some id => bool_decide (id ∈ s)
  | _, _ => false
  end.

(** ** Counters, TTL, clock *)

(** [DecrGuard]: one [fetch_sub] when dropped. *)
Definition decr_guard (counter : Z) : Z := as_i64 (counter - 1).

Definition QUEUE_TTL_WILDCARD : string := "*".

Definition queue_ttl_ms (ttls : gmap string Z) (queue : string) : option Z :=
  match ttls !! queue with Some t => Some t | None => ttls !! QUEUE_TTL_WILDCARD end.

(** [cpu_overflow]: 0 before the pool starts. *)
Definition cpu_overflow (pool_overflow : option Z) : Z := default 0 pool_overflow.

(** [cpu_backlog]: the depth, and the log edge it notes. *)
Definition cpu_backlog (pool_overflow : option Z) (s : bool * Z) (now_ms : Z) : Z * ((bool * Z) * option backlog_log) :=
  let n := cpu_overflow pool_overflow in (n, note_cpu_backlog s n now_ms).

(** [now_ms_from]: [None] is a clock before 1970; the millisecond count is cast
    to [u64]. *)
Definition now_ms_from (since_epoch_millis : option Z) : Z :=
  match since_epoch_millis with Some d => wrap64 d | None => 0 end.

(** ** Executor responses *)

Inductive Outcome :=
| Success (json : string)
| ForceRetry (countdown : option f64) (err : ErrorJson)
| Failure (err : ErrorJson) (retryable : bool).

Record PyResp := {
  pr_ok : bool; pr_result : option string; pr_error : option ErrorJson; pr_retry : bool;
  pr_countdown : option f64; pr_retryable : option bool;
}.

Section pyresp.
(** The derived [Deserialize] of [PyResp], its error already displayed. *)
Context (de_pyresp : string -> result string PyResp).

Definition parse_pyresp (s : string) (from_cpu : bool) : Outcome :=
  match de_pyresp s with
  | Err e =>
      Failure (error_new "WorkerShimError"
        ("unparseable executor response (" +:+ e +:+ "): " +:+ str_of (safe_truncate (bytes_of s) 512))) true
  | Ok resp =>
      if pr_ok resp then Success (default "null"%string (pr_result resp)) else
      let err := default (error_new "UnknownError" "executor reported failure without error") (pr_error resp) in
      if pr_retry resp || (from_cpu && String.eqb (type_ err) "Retry") then ForceRetry (pr_countdown resp) err
      else Failure err (default (negb (String.eqb (type_ err) "SerializationError")) (pr_retryable resp))
  end.
End pyresp.

(** The comment says a [SerializationError] is never retryable; an explicit
    [retryable] field overrides that. *)
Example serialization_error_retryable :
  parse_pyresp (fun _ => Ok {| pr_ok := false; pr_result := None;
      pr_error := Some (error_new "SerializationError" ""); pr_retry := false; pr_countdown := None;
      pr_retryable := Some true |}) "" true = Failure (error_new "SerializationError" "") true.
Proof. reflexivity. Qed.

(** ** The held set is the set of live guards *)

Inductive track_event := Track (queue id : string) | DropNth (n : nat).

(** Tracked entries and the guards alive. *)
Definition track_step (st : Inflight * list InflightEntry) (e : track_event) : Inflight * list InflightEntry :=
  let '(m, gs) := st in
  match e with
  | Track q id => let '(m', g) := track m q id in (m', g :: gs)
  | DropNth n => match gs !! n with
      | Some g => (drop_entry m g, delete n gs)
      | None => (m, gs)
      end
  end.

(** A delivery of an entry already held never reaches [track]: recovery skips
    held entries, and [XREADGROUP >] delivers an entry once. *)
Fixpoint tracked_once (st : Inflight * list InflightEntry) (es : list track_event) : Prop :=
  match es with
  | [] => True
  | e :: rest =>
      match e with Track q id => holds_entry st.1 q id = false | _ => True end /\ tracked_once (track_step st e) rest
  end.

Definition live (gs : list InflightEntry) (q : string) (id : Z * Z) : Prop :=
  {| set_of := Some q; entry_id := id |} ∈ gs.

(** Exactly the live guards' ids are held, one guard each. *)
Definition held_inv (st : Inflight * list InflightEntry) : Prop :=
  (forall q s, st.1 !! q = Some s -> forall id, id ∈ s <-> live st.2 q id) /\
  (forall q id, live st.2 q id -> is_Some (st.1 !! q)) /\
  NoDup (filter (fun g => set_of g <> None) st.2).

Lemma held_track st q id : held_inv st -> holds_entry st.1 q id = false -> held_inv (track_step st (Track q id)).
Proof.
  destruct st as [m gs]. intros (H1 & H2 & H3) Hn. unfold holds_entry in Hn. cbn in *. unfold track.
  destruct (m !! q) as [s|] eqn:Em; [destruct (parse_stream_id id) as [p|]|]; cbn [fst snd].
  - apply bool_decide_eq_false_1 in Hn. split_and!; cbn [fst snd].
    + intros q' s'. destruct (decide (q' = q)) as [->|Hq].
      * rewrite lookup_insert_eq. intros [= <-] i. unfold live. rewrite elem_of_union, elem_of_singleton, elem_of_cons.
        rewrite (H1 q s Em i). split; intros [?|?]; simplify_eq; auto.
      * rewrite lookup_insert_ne by done. intros E i. unfold live. rewrite elem_of_cons, (H1 q' s' E i).
        split; [auto|intros [?|?]; [simplify_eq|done]].
    + intros q' i [E|E]%elem_of_cons; simplify_eq; [rewrite lookup_insert_eq; eauto|].
      apply lookup_insert_is_Some'. right. by eapply H2.
    + rewrite filter_cons_True by done. constructor; [|done].
      intros [_ E]%list_elem_of_filter. apply Hn, (H1 q s Em). exact E.
  - split_and!; cbn [fst snd]; [..|done].
    + intros q' s' E i. rewrite (H1 q' s' E i). unfold live. rewrite elem_of_cons. naive_solver.
    + intros q' i [E|E]%elem_of_cons; [done|by eapply H2].
  - assert (track_out : forall q' i, live ({| set_of := None; entry_id := (0, 0) |} :: gs) q' i <-> live gs q' i).
    { intros. unfold live. rewrite elem_of_cons. naive_solver. }
    split_and!; cbn [fst snd]; [..|done].
    + intros q' s' E i. by rewrite track_out, (H1 q' s' E i).
    + intros q' i E. apply track_out in E. by eapply H2.
Qed.

Lemma held_drop st n : held_inv st -> held_inv (track_step st (DropNth n)).
Proof.
  destruct st as [m gs]. intros (H1 & H2 & H3). cbn in *. destruct (gs !! n) as [g|] eqn:En; [|done].
  pose proof (delete_Permutation gs n g En) as P. revert P. generalize (delete n gs) as gs'. intros gs' P.
  assert (HL : forall q i, live gs q i <-> g = {| set_of := Some q; entry_id := i |} \/ live (gs') q i).
  { intros. unfold live. rewrite P, elem_of_cons. naive_solver. }
  assert (HN : NoDup (filter (fun g => set_of g <> None) (g :: gs'))) by (by rewrite <- P).
  unfold drop_entry. destruct g as [[q|] i]; cbn.
  - rewrite filter_cons_True in HN by done. inversion HN as [|?? Hni HN']; subst. split_and!; cbn [fst snd]; [..|done].
    + intros q' s'. destruct (decide (q' = q)) as [->|Hq].
      * rewrite lookup_alter_eq. destruct (m !! q) as [s|] eqn:Em; [|done]. intros [= <-] j.
        rewrite elem_of_difference, elem_of_singleton, (H1 q s Em j), HL.
        split; [intros [[?|?] ?]; simplify_eq; done|]. intros Hj. split; [by right|]. intros ->.
        apply Hni. apply list_elem_of_filter. done.
      * rewrite lookup_alter_ne by done. intros E j. rewrite (H1 q' s' E j), HL.
        split; [intros [?|?]; simplify_eq; done|by right].
    + intros q' j E. destruct (H2 q' j) as [s E']; [apply HL; by right|].
      destruct (decide (q' = q)) as [->|]; [rewrite lookup_alter_eq, E'|rewrite lookup_alter_ne by done]; eauto.
  - rewrite filter_cons_False in HN by (cbn; tauto). split_and!; cbn [fst snd]; [..|done].
    + intros q s E j. rewrite (H1 q s E j), HL. split; [by intros [?|?]|by right].
    + intros q j E. apply (H2 q j), HL. by right.
Qed.

Lemma held_run es : forall st, held_inv st -> tracked_once st es -> held_inv (fold_left track_step es st).
Proof.
  induction es as [|e es IH]; intros st HI HO; [done|]. cbn in *. destruct HO as [H1 H2]. apply IH; [|done].
  destruct e; [by apply held_track|by apply held_drop].
Qed.

(** Whatever the interleaving of deliveries and completions, an entry is
    held exactly while a guard for it is alive, so recovery skips it exactly
    that long: no entry leaks as permanently held, none is reclaimed while held. *)
Theorem held_iff_guard_alive queues es q id p :
  let st0 := (gset_to_gmap ∅ queues, []) in
  tracked_once st0 es -> q ∈ queues -> parse_stream_id id = Some p ->
  let st := fold_left track_step es st0 in
  holds_entry st.1 q id = true <-> live st.2 q p.
Proof.
  intros st0 HO Hq Hp st.
  assert (HI : held_inv st).
  { apply held_run; [|done]. split_and!; cbn [fst snd]; [|set_solver|constructor].
    intros q' s [_ <-]%lookup_gset_to_gmap_Some i. unfold live. set_solver. }
  assert (Hd : q ∈ dom st.1).
  { unfold st. clear - Hq. assert (H0 : q ∈ dom st0.1) by (cbn; by rewrite dom_gset_to_gmap). clear Hq. revert H0.
    generalize st0. induction es as [|e es IH]; intros [m gs] H; [done|]. cbn. apply IH.
    destruct e as [q' i|n]; cbn in *.
    - unfold track. destruct (m !! q'), (parse_stream_id i); cbn; set_solver.
    - destruct (gs !! n); [|done]. unfold drop_entry. destruct (set_of _); [|done]. cbn. by rewrite dom_alter. }
  apply elem_of_dom in Hd as [s Hs]. destruct HI as (H1 & _ & _). unfold holds_entry. rewrite Hs, Hp.
  rewrite bool_decide_eq_true. apply (H1 q s Hs).
Qed.

Lemma held_iff_guard_alive_witness :
  let st := fold_left track_step [Track "q" "5-1"; Track "q" "5-2"; DropNth 1] (gset_to_gmap ∅ {["q"]}, []) in
  holds_entry st.1 "q" "5-2" = true.
Proof.
  apply (held_iff_guard_alive {["q"]} [Track "q" "5-1"; Track "q" "5-2"; DropNth 1] "q" "5-2" (5, 2)).
  - cbn. repeat split; vm_compute; reflexivity.
  - set_solver.
  - vm_compute. reflexivity.
  - vm_compute. apply list_elem_of_here.
Defined.
