(* ===== verification/Redis.v ===== *)
(** Redis as the worker sees it: an interface, not an implementation. A command
    is its argument list, the server is whatever [exec] says, a round trip may
    be torn by the connection, and other clients run between round trips. The
    classes at the end state the documented behaviour the worker relies on, and
    [ToyRedis] is a concrete server that satisfies them. *)
From S2P Require Import Prelude Ctx.
Open Scope Z_scope.

(** ** Commands, replies, errors *)

Abbreviation cmd := (list string).

(** [redis::RedisError]: its server error code, and its [to_string]. *)
Record rerr := { code_ : option string; text_ : string }.

Inductive reply :=
| RNil
| ROk
| RInt (n : Z)
| RBulk (s : string)
| RArr (l : list reply)
| RErr (e : rerr).

(** [Value::extract_error]. *)
Definition extract_error (r : reply) : option rerr := match r with RErr e => Some e | _ => None end.
Definition accepted (r : reply) : Prop := extract_error r = None.
#[export] Instance accepted_dec r : Decision (accepted r).
Proof. unfold accepted. destruct (extract_error r) eqn:E; [right|left]; congruence. Defined.

Class Redis := {
  rstate : Type;
  exec : cmd -> rstate -> reply * rstate;
  (** [redis-rs] decoding of the replies the worker reads back. *)
  decode_groups : reply -> option (list (string * string));
  decode_pending : reply -> option (list (string * string * Z * Z));
  decode_entries : reply -> option (list (string * gmap string string));
}.

(** ** Round trips *)

(** One round trip's fate: what other clients did before it, and whether the
    connection failed once the server had run the first [k] commands. *)
Record trip {R : Redis} := { env_before : rstate -> rstate; torn : option nat }.

Record world {R : Redis} := {
  server : rstate;
  trace : list (cmd * reply);
  trips : list trip;
}.

Definition conn_error : rerr := {| code_ := None; text_ := "connection error" |}.

Section trips.
Context {R : Redis}.

Fixpoint exec_all (cs : list cmd) (s : rstate) : list reply * rstate :=
  match cs with
  | [] => ([], s)
  | c :: cs' => let '(r, s1) := exec c s in let '(rs, s2) := exec_all cs' s1 in (r :: rs, s2)
  end.

(** A pipeline: every command runs, an error reply stops nothing. *)
Definition round_trip (cs : list cmd) (w : world) : result rerr (list reply) * world :=
  let t := match trips w with t :: _ => t | [] => {| env_before s := s; torn := None |} end in
  let run := match torn t with None => cs | Some k => take k cs end in
  let '(rs, s) := exec_all run (env_before t (server w)) in
  (match torn t with None => Ok rs | Some _ => Err conn_error end,
   {| server := s; trace := trace w ++ zip run rs; trips := tail (trips w) |}).

(** The broker's functions: [Result], the world threaded through. *)
Definition M (A : Type) : Type := world -> result rerr A * world.
#[export] Instance M_ret : MRet M := fun _ a w => (Ok a, w).
#[export] Instance M_bind : MBind M :=
  fun _ _ f m w => match m w with (Ok a, w') => f a w' | (Err e, w') => (Err e, w') end.

(** [query_async] of one command: a server error is an [Err] too. *)
Definition query (c : cmd) : M reply := fun w =>
  match round_trip [c] w with
  | (Ok [r], w') => (match extract_error r with Some e => Err e | None => Ok r end, w')
  | (Ok _, w') => (Err conn_error, w')
  | (Err e, w') => (Err e, w')
  end.

Fixpoint first_error (rs : list reply) : result rerr unit :=
  match rs with
  | [] => Ok tt
  | r :: rs' => match extract_error r with Some e => Err e | None => first_error rs' end
  end.

(** [Pipeline::query_async]: the first error reply is the result. *)
Definition query_pipe (cs : list cmd) : M (list reply) := fun w =>
  match round_trip cs w with
  | (Ok rs, w') => (match first_error rs with Ok _ => Ok rs | Err e => Err e end, w')
  | (Err e, w') => (Err e, w')
  end.

Definition decode_err : rerr := {| code_ := None; text_ := "response was of incompatible type" |}.
Definition decode {A} (f : reply -> option A) (r : reply) : M A := fun w => (ok_or decode_err (f r), w).

Lemma exec_all_length cs s : length (exec_all cs s).1 = length cs.
Proof.
  revert s. induction cs as [|c cs IH]; intros s; [done|]. cbn. destruct (exec c s) as [r s1].
  specialize (IH s1). destruct (exec_all cs s1). cbn in *. by f_equal.
Qed.

(** What a round trip leaves in the trace: the commands it sent, up to the
    tear, each with its reply; replies come back only untorn. *)
Lemma round_trip_trace cs w r w' : round_trip cs w = (r, w') ->
  exists rs k, trace w' = trace w ++ zip (take k cs) rs /\ length rs = length (take k cs) /\
    match r with Ok l => l = rs /\ take k cs = cs | Err _ => True end.
Proof.
  unfold round_trip. destruct (match trips w with t :: _ => t | [] => _ end) as [env tn].
  cbn. destruct tn as [k|].
  - pose proof (exec_all_length (take k cs) (env (server w))) as Hl.
    destruct (exec_all _ _) as [rs s]. intros [= <- <-]. exists rs, k. cbn. auto.
  - pose proof (exec_all_length cs (env (server w))) as Hl.
    destruct (exec_all _ _) as [rs s]. intros [= <- <-]. exists rs, (length cs). cbn. by rewrite firstn_all.
Qed.

Lemma round_trip_grows cs w : exists t, trace (round_trip cs w).2 = trace w ++ t.
Proof.
  destruct (round_trip cs w) as [r w'] eqn:E. destruct (round_trip_trace _ _ _ _ E) as (rs & k & H & _). by eexists.
Qed.

(** A single command is a round trip, whatever comes back. *)
Lemma query_world c w r w' : query c w = (r, w') -> w' = (round_trip [c] w).2.
Proof. unfold query. destruct (round_trip [c] w) as [o w1]. intros H. destruct o as [[|? []]|]; cbn; congruence. Qed.

Lemma query_pipe_world cs w r w' : query_pipe cs w = (r, w') -> w' = (round_trip cs w).2.
Proof. unfold query_pipe. destruct (round_trip cs w) as [[rs|] w1]; [destruct (first_error rs)|]; cbn; congruence. Qed.

Lemma first_error_ok rs : first_error rs = Ok tt <-> Forall accepted rs.
Proof.
  induction rs as [|r rs IH]; cbn; [split; [constructor|done]|].
  rewrite Forall_cons, <- IH. unfold accepted. destruct (extract_error r); split; naive_solver.
Qed.
End trips.

(** ** Order on stream ids *)

Definition id_lt (a b : Z * Z) : Prop := a.1 < b.1 \/ (a.1 = b.1 /\ a.2 < b.2).
Definition id_le (a b : Z * Z) : Prop := a.1 < b.1 \/ (a.1 = b.1 /\ a.2 <= b.2).

Lemma id_lt_le_trans a b c : id_lt a b -> id_le b c -> id_lt a c.
Proof. unfold id_lt, id_le. lia. Qed.
Lemma id_le_trans a b c : id_le a b -> id_le b c -> id_le a c.
Proof. unfold id_le. lia. Qed.
Lemma id_le_refl a : id_le a a.
Proof. unfold id_le. lia. Qed.
Lemma id_lt_le a b : id_lt a b -> id_le a b.
Proof. unfold id_lt, id_le. lia. Qed.
#[export] Instance id_le_dec a b : Decision (id_le a b).
Proof. unfold id_le. apply _. Defined.
#[export] Hint Resolve id_le_refl id_lt_le id_le_trans id_lt_le_trans : redis.

(** ** What the worker relies on *)

(** A script or a transaction, whose writes before an error stay. *)
Definition is_script (c : cmd) : bool :=
  match c with
  | op :: _ => existsb (String.eqb op) ["EVAL"; "EVALSHA"; "EVAL_RO"; "EVALSHA_RO"; "FCALL"; "FCALL_RO"; "EXEC"]%string
  | [] => false
  end.

(** An error reply to anything else means the command did nothing. *)
Class ErrNoop (R : Redis) : Prop := err_noop c s e s' : is_script c = false -> exec c s = (RErr e, s') -> s' = s.

(** Delayed sets, and every text appended to a stream so far, acknowledged and
    deleted ones included. *)
Class SetViews (R : Redis) := {
  zset : rstate -> string -> gset string;
  entries : rstate -> string -> list string;
}.
Class SetLaws (R : Redis) (V : SetViews R) : Prop := {
  zrange_law k now lim s r s' :
    exec ["ZRANGEBYSCORE"; k; "-inf"; now; "LIMIT"; "0"; lim]%string s = (r, s') -> accepted r ->
    s' = s /\ exists l, r = RArr (RBulk <$> l) /\ NoDup l /\ forall e, e ∈ l -> e ∈ zset s k;
  xadd_law k e s r s' :
    exec ["XADD"; k; "*"; "e"; e]%string s = (r, s') -> accepted r ->
    entries s' k = entries s k ++ [e] /\ forall k', zset s' k' = zset s k';
  zrem_law k e s r s' :
    exec ["ZREM"; k; e]%string s = (r, s') -> accepted r ->
    zset s' k = zset s k ∖ {[e]} /\ forall k', entries s' k' = entries s k';
}.

(** What completions and acknowledgements do to those views: each command touches
    the one key it names, an added member is there, and acknowledging or deleting
    an entry does not unsay that it was appended. *)
Definition one_key_ops : list string := ["SET"; "ZADD"; "ZREM"; "XADD"; "EXPIRE"; "XACK"; "XDEL"]%string.
Class KeyLaws (R : Redis) (V : SetViews R) : Prop := {
  one_key_law op k args s r s' : op ∈ one_key_ops -> exec (op :: k :: args) s = (r, s') ->
    forall k', k' <> k -> zset s' k' = zset s k' /\ entries s' k' = entries s k';
  zadd_law k score e s r s' : exec ["ZADD"; k; score; e]%string s = (r, s') -> accepted r -> zset s' k = zset s k ∪ {[e]};
  ack_law op k args s r s' : op ∈ ["XACK"; "XDEL"]%string -> exec (op :: k :: args) s = (r, s') -> entries s' k = entries s k;
}.

(** Plain string keys. *)
Class StrViews (R : Redis) := str_at : rstate -> string -> option string.
Class StrLaws (R : Redis) (V : StrViews R) : Prop := {
  set_nx_law k v ttl s r s' :
    exec ["SET"; k; v; "NX"; "EX"; ttl]%string s = (r, s') -> accepted r ->
    (str_at s k = None /\ r = ROk /\ str_at s' k = Some v) \/ (is_Some (str_at s k) /\ r = RNil /\ s' = s);
  get_law k s r s' :
    exec ["GET"; k]%string s = (r, s') -> accepted r ->
    s' = s /\ r = match str_at s k with Some v => RBulk v | None => RNil end;
  (** An expiry in the past would delete the key. *)
  pexpire_law k ms s r s' : 0 < ms ->
    exec ["PEXPIRE"; k; dec ms]%string s = (r, s') -> accepted r -> str_at s' k = str_at s k;
}.

(** A stream's consumer group: the last delivered id and the pending ids. *)
Class GroupViews (R : Redis) := {
  last_delivered : rstate -> string -> Z * Z;
  pel : rstate -> string -> gset (Z * Z);
}.
Class GroupLaws (R : Redis) (V : GroupViews R) : Prop := {
  xinfo_law k s r s' gs i lid :
    exec ["XINFO"; "GROUPS"; k]%string s = (r, s') -> decode_groups r = Some gs ->
    list_find (fun g => g.1 = "cauli"%string) gs = Some (i, ("cauli"%string, lid)) ->
    s' = s /\ lid = stream_id (last_delivered s k).1 (last_delivered s k).2 /\
    is_u64 (last_delivered s k).1 /\ is_u64 (last_delivered s k).2;
  xpending_law k s r s' l :
    exec ["XPENDING"; k; "cauli"; "-"; "+"; "1"]%string s = (r, s') -> decode_pending r = Some l ->
    s' = s /\ match l with
    | [] => pel s k = ∅
    | (id, _, _, _) :: _ => exists p, id = stream_id p.1 p.2 /\ is_u64 p.1 /\ is_u64 p.2 /\
        p ∈ pel s k /\ forall x, x ∈ pel s k -> id_le p x
    end;
  pel_delivered s k x : x ∈ pel s k -> id_le x (last_delivered s k);
}.

(** What deliveries, acks and claims of any client do to a group: delivery is
    in ascending id order past the last delivered id. *)
Definition group_step {R : Redis} {V : GroupViews R} (k : string) (s s' : rstate) : Prop :=
  id_le (last_delivered s k) (last_delivered s' k) /\
  forall x, x ∈ pel s' k -> x ∈ pel s k \/ id_lt (last_delivered s k) x.

(** Pending, or not delivered yet. *)
Definition unsettled {R : Redis} {V : GroupViews R} (s : rstate) (k : string) (x : Z * Z) : Prop :=
  x ∈ pel s k \/ id_lt (last_delivered s k) x.

Lemma group_step_refl {R : Redis} {V : GroupViews R} k s : group_step k s s.
Proof. split; auto with redis. Qed.

Lemma group_step_trans {R : Redis} {V : GroupViews R} k s1 s2 s3 : group_step k s1 s2 -> group_step k s2 s3 -> group_step k s1 s3.
Proof.
  intros [H1 H2] [H3 H4]. split; [eauto with redis|]. intros x Hx.
  destruct (H4 x Hx) as [?|?]; [by apply H2|right]. unfold id_lt, id_le in *. lia.
Qed.

(** ** What stays in a stream *)

(** Ids present in a stream, deleted and trimmed ones excluded. *)
Class StreamViews (R : Redis) := in_stream : rstate -> string -> Z * Z -> Prop.

(** Still owed to a worker: in the stream, and pending or not delivered. *)
Definition owed {R : Redis} {G : GroupViews R} {T : StreamViews R} (s : rstate) (k : string) (x : Z * Z) : Prop :=
  in_stream s k x /\ unsettled s k x.

(** Commands that read or move deliveries around, on any stream. *)
Definition group_read (c : cmd) : Prop := head c = Some "XREADGROUP"%string /\ "NOACK"%string ∉ c.
Definition look_ops : list string := ["XPENDING"; "XRANGE"; "XINFO"]%string.
Definition xclaim_one (k consumer idle id : string) : cmd := ["XCLAIM"; k; "cauli"; consumer; idle; id]%string.

(** Commands after which [p] of stream [k] is owed as before. *)
Inductive spares (k : string) (p : Z * Z) : cmd -> reply -> Prop :=
| sp_elsewhere op k' args r : op ∈ ["SET"; "ZADD"; "XADD"; "EXPIRE"; "XACK"; "XDEL"; "XTRIM"; "ZREM"; "ZRANGEBYSCORE"]%string ->
    k' <> k -> spares k p (op :: k' :: args) r
| sp_append e r : spares k p ["XADD"; k; "*"; "e"; e]%string r
| sp_read c r : group_read c -> spares k p c r
| sp_look op args r : op ∈ look_ops -> spares k p (op :: args) r
| sp_claim k' c idle id r : spares k p (xclaim_one k' c idle id) r
| sp_create k' r : spares k p ["XGROUP"; "CREATE"; k'; "cauli"; "0"; "MKSTREAM"]%string r
| sp_reap k' c r : r = RInt 0 -> spares k p ["XGROUP"; "DELCONSUMER"; k'; "cauli"; c]%string r
| sp_ack ids r : stream_id p.1 p.2 ∉ ids -> spares k p ("XACK"%string :: k :: "cauli"%string :: ids) r
| sp_del ids r : stream_id p.1 p.2 ∉ ids -> spares k p ("XDEL"%string :: k :: ids) r
| sp_trim b pb r : parse_stream_id b = Some pb -> id_le pb p -> spares k p ["XTRIM"; k; "MINID"; b]%string r.

(** Commands no delayed set and no append depends on. *)
Inductive quiet_cmd : cmd -> Prop :=
| qc_read c : group_read c -> quiet_cmd c
| qc_look op args : op ∈ look_ops -> quiet_cmd (op :: args)
| qc_claim k c idle id : quiet_cmd (xclaim_one k c idle id)
| qc_group args : quiet_cmd ("XGROUP"%string :: args)
| qc_trim k b : quiet_cmd ["XTRIM"; k; "MINID"; b]%string.

Class StreamLaws (R : Redis) (V : SetViews R) (G : GroupViews R) (T : StreamViews R) : Prop := {
  spares_law k p c s r s' : exec c s = (r, s') -> spares k p c r -> owed s k p -> owed s' k p;
  quiet_law c s r s' : exec c s = (r, s') -> quiet_cmd c -> forall k, zset s' k = zset s k /\ entries s' k = entries s k;
}.

(** ** Traffic *)

(** Round trips, one after another, of commands that satisfy [P]. *)
Inductive traffic {R : Redis} (P : cmd -> Prop) : world -> world -> Prop :=
| tr_none w : traffic P w w
| tr_trip cs w w' : Forall P cs -> traffic P (round_trip cs w).2 w' -> traffic P w w'.

Section traffic.
Context {R : Redis} (P : cmd -> Prop).

Lemma traffic_trans w1 w2 w3 : traffic P w1 w2 -> traffic P w2 w3 -> traffic P w1 w3.
Proof. induction 1; eauto using tr_trip. Qed.

Lemma traffic_trip cs w r w' : Forall P cs -> round_trip cs w = (r, w') -> traffic P w w'.
Proof. intros HF E. apply (tr_trip P cs); [done|]. rewrite E. constructor. Qed.

Lemma traffic_query c w r w' : P c -> query c w = (r, w') -> traffic P w w'.
Proof.
  intros Hc ->%query_world. apply (tr_trip P [c]); [by constructor|constructor].
Qed.

Lemma traffic_pipe cs w r w' : Forall P cs -> query_pipe cs w = (r, w') -> traffic P w w'.
Proof.
  intros Hc ->%query_pipe_world. apply (tr_trip P cs); [done|constructor].
Qed.

Lemma traffic_trace w w' : traffic P w w' -> exists t, trace w' = trace w ++ t /\ Forall P t.*1.
Proof.
  induction 1 as [w|cs w w' Hcs _ (t & Ht & HP)]; [exists []; rewrite app_nil_r; split; [done|constructor]|].
  destruct (round_trip cs w) as [o w1] eqn:E. destruct (round_trip_trace _ _ _ _ E) as (rs & k & E1 & Hl & _).
  exists (zip (take k cs) rs ++ t). cbn in Ht. rewrite Ht, E1, app_assoc. split; [done|].
  rewrite fmap_app, fst_zip by lia. apply Forall_app. split; [by apply Forall_take|done].
Qed.
Lemma traffic_grows w w' : traffic P w w' -> exists t, trace w' = trace w ++ t.
Proof. intros (t & E & _)%traffic_trace. by exists t. Qed.
End traffic.

Lemma traffic_mono {R : Redis} (P Q : cmd -> Prop) w w' : (forall c, P c -> Q c) -> traffic P w w' -> traffic Q w w'.
Proof. intros H. induction 1; [constructor|]. econstructor; [by eapply Forall_impl|done]. Qed.

(** The same of a broker function. *)
Definition talks {R : Redis} (P : cmd -> Prop) {A} (m : M A) : Prop := forall w, traffic P w (m w).2.

Section talks.
Context {R : Redis} (P : cmd -> Prop).

Lemma talks_ret {A} (a : A) : talks P (mret a).
Proof. intros w. constructor. Qed.

Lemma talks_bind {A B} (m : M A) (f : A -> M B) : talks P m -> (forall a, talks P (f a)) -> talks P (m ≫= f).
Proof.
  intros H1 H2 w. unfold mbind, M_bind. specialize (H1 w). destruct (m w) as [[a|e] w1]; [|done].
  eapply traffic_trans; [exact H1|apply H2].
Qed.

Lemma talks_query c : P c -> talks P (query c).
Proof. intros Hc w. destruct (query c w) as [r w'] eqn:E. by eapply traffic_query. Qed.

Lemma talks_pipe cs : Forall P cs -> talks P (query_pipe cs).
Proof. intros Hc w. destruct (query_pipe cs w) as [r w'] eqn:E. by eapply traffic_pipe. Qed.

Lemma talks_decode {A} (f : reply -> option A) r : talks P (decode f r).
Proof. intros w. constructor. Qed.
End talks.
#[export] Hint Resolve talks_ret talks_bind talks_query talks_pipe talks_decode : redis.

(** ** A concrete server *)

Module ToyRedis.
Record st := {
  zs : gmap string (gset string);
  xs : gmap string (list string);
  strs : gmap string string;
  last : Z * Z;
  pend : list (Z * Z);
}.

Definition wrongtype : rerr := {| code_ := Some "WRONGTYPE"%string; text_ := "WRONGTYPE" |}.

Definition set_zs (s : st) z := {| zs := z; xs := xs s; strs := strs s; last := last s; pend := pend s |}.
Definition set_xs (s : st) x := {| zs := zs s; xs := x; strs := strs s; last := last s; pend := pend s |}.
Definition set_strs (s : st) x := {| zs := zs s; xs := xs s; strs := x; last := last s; pend := pend s |}.

Definition zget (s : st) k : gset string := default ∅ (zs s !! k).
Definition xget (s : st) k : list string := default [] (xs s !! k).

(** Ids are [u64] on the wire. *)
Definition norm (p : Z * Z) : Z * Z := (Z.max 0 (Z.min u64_max p.1), Z.max 0 (Z.min u64_max p.2)).

Definition shown (s : st) : list (Z * Z) := filter (fun y => id_le y (norm (last s))) (norm <$> pend s).

(** Ids below the head of the list are not shown, so the head is the oldest. *)
Definition visible (l : list (Z * Z)) : list (Z * Z) :=
  match l with [] => [] | x :: _ => filter (fun y => id_le x y) l end.

Definition exec (c : cmd) (s : st) : reply * st :=
  match c with
  | [op; k; a; b; x] =>
      if String.eqb op "XADD" then
        match strs s !! k with
        | Some _ => (RErr wrongtype, s)
        | None => (RBulk "0-1", set_xs s (<[k := xget s k ++ [x]]> (xs s)))
        end
      else (RErr wrongtype, s)
  | [op; k; a; b] =>
      if String.eqb op "ZADD" then (RInt 1, set_zs s (<[k := zget s k ∪ {[b]}]> (zs s)))
      else if String.eqb op "XACK" then (RInt 1, s)
      else (RErr wrongtype, s)
  | [op; k; e] =>
      if String.eqb op "ZREM" then (RInt 1, set_zs s (<[k := zget s k ∖ {[e]}]> (zs s)))
      else if String.eqb op "PEXPIRE" then (RInt 1, s)
      else if String.eqb op "EXPIRE" then (RInt 1, s)
      else if String.eqb op "XDEL" then (RInt 1, s)
      else if String.eqb op "XINFO" then (let p := norm (last s) in RBulk (stream_id p.1 p.2), s)
      else (RErr wrongtype, s)
  | [op; k; v; _; _; _] =>
      if String.eqb op "SET" then
        match strs s !! k with Some _ => (RNil, s) | None => (ROk, set_strs s (<[k := v]> (strs s))) end
      else if String.eqb op "XPENDING" then
        (RArr ((fun p => RBulk (stream_id p.1 p.2)) <$> take 1 (shown s)), s)
      else if String.eqb op "XGROUP" then (ROk, s)
      else (RErr wrongtype, s)
  | [op; k] =>
      if String.eqb op "GET" then (match strs s !! k with Some v => RBulk v | None => RNil end, s)
      else (RErr wrongtype, s)
  | [op; k; _; _; _; _; _] =>
      if String.eqb op "ZRANGEBYSCORE" then (RArr (RBulk <$> elements (zget s k)), s) else (RErr wrongtype, s)
  (* a capped dead letter stream, which no view reads *)
  | op :: _ => if String.eqb op "XADD" then (RBulk "0-1", s) else (RErr wrongtype, s)
  | [] => (RErr wrongtype, s)
  end.

#[export] Instance toy : Redis := {
  rstate := st;
  Redis.exec := exec;
  decode_groups r := match r with RBulk lid => Some [("cauli"%string, lid)] | _ => None end;
  decode_pending r := match r with
    | RArr (RBulk id :: _) => Some [(id, "c"%string, 0, 1)] | RArr [] => Some [] | _ => None end;
  decode_entries r := None;
}.

#[export] Instance toy_noop : ErrNoop toy.
Proof. intros c s e s' _. cbn. unfold exec. intros. repeat case_match; simplify_eq; done. Qed.

#[export] Instance toy_sets : SetViews toy := { zset := zget; entries := xget }.
#[export] Instance toy_set_laws : SetLaws toy toy_sets.
Proof.
  split; cbn; intros.
  - simplify_eq. split; [done|]. eexists. split; [done|]. split; [apply NoDup_elements|]. set_solver.
  - destruct (strs s !! k); simplify_eq; [done|]. split; [|done].
    unfold xget. cbn. by rewrite lookup_insert_eq.
  - simplify_eq. split; [|done]. unfold zget. cbn. by rewrite lookup_insert_eq.
Qed.

#[export] Instance toy_key_laws : KeyLaws toy toy_sets.
Proof.
  split; cbn.
  - intros op k args s r s' Hop E k' Hk. unfold exec in E.
    repeat case_match; simplify_eq; try done; unfold zget, xget; cbn; by rewrite lookup_insert_ne.
  - intros k score e s r s' E _. simplify_eq. unfold zget. cbn. by rewrite lookup_insert_eq.
  - intros op k args s r s' Hop E. unfold exec in E. repeat case_match; simplify_eq; try done.
    exfalso. set_solver.
Qed.

#[export] Instance toy_strs : StrViews toy := fun s k => strs s !! k.
#[export] Instance toy_str_laws : StrLaws toy toy_strs.
Proof.
  split; unfold str_at, toy_strs; cbn; intros.
  - destruct (strs s !! k) eqn:E; simplify_eq; [right|left]; eauto. cbn. by rewrite lookup_insert_eq.
  - simplify_eq. done.
  - simplify_eq. done.
Qed.

#[export] Instance toy_groups : GroupViews toy := {
  last_delivered s _ := norm (last s);
  pel s _ := list_to_set (visible (shown s));
}.

Lemma norm_u64 p : is_u64 (norm p).1 /\ is_u64 (norm p).2.
Proof. cbn. mlia. Qed.

#[export] Instance toy_group_laws : GroupLaws toy toy_groups.
Proof.
  split; cbn -[norm]; intros.
  - simplify_eq. apply list_find_Some in H1 as (Hl & _ & _).
    destruct i; cbn -[norm] in Hl; simplify_eq. pose proof (norm_u64 (last s')). tauto.
  - assert (HU : forall p, p ∈ shown s -> is_u64 p.1 /\ is_u64 p.2).
    { intros p [_ (q & -> & _)%list_elem_of_fmap]%list_elem_of_filter. apply norm_u64. }
    destruct (shown s) as [|p ps] eqn:E; cbn in *; simplify_eq; cbn in *; simplify_eq.
    + done.
    + split; [done|]. exists p. destruct (HU p) as [H1 H2]; [set_solver|].
      rewrite decide_True by auto with redis. split_and!; [done|done|done|set_solver|]. intros x.
      rewrite elem_of_list_to_set, elem_of_cons, list_elem_of_filter. intros [->|[? _]]; auto with redis.
  - unfold visible in H. destruct (shown s) as [|p ps] eqn:E; [set_solver|].
    rewrite <- E, elem_of_list_to_set, list_elem_of_filter in H. destruct H as [_ Hx].
    by apply list_elem_of_filter in Hx as [Hx _].
Qed.
End ToyRedis.
