(* ===== verification/Broker.v ===== *)
(** The broker primitives ([worker/src/broker.rs], PROTOCOL 1, 4.1 to 4.5): the
    key names, the delayed mover and the idempotency claim (Lua scripts run as
    their [redis.call]s), the completion buffers and their two round trips, the
    terminal writes, and the trim boundary. *)
From S2P Require Import Prelude Float64 Envelope Stats Ctx Redis.
Open Scope Z_scope.

(** ** Keys *)

Definition q_key (queue : string) : string := "cauli:q:" +:+ queue.
Definition delayed_key (queue : string) : string := "cauli:delayed:" +:+ queue.
Definition dlq_key (queue : string) : string := "cauli:dlq:" +:+ queue.
Definition result_key (id : string) : string := "cauli:result:" +:+ id.

Lemma q_key_inj q q' : q_key q = q_key q' -> q = q'.
Proof. unfold q_key. by intros [= E]. Qed.

Definition hex_digit (n : Z) : ascii := if n <? 10 then digit n else ascii_of_N (Z.to_N (87 + n)).

Section digest.
(** [ring]'s SHA-256. *)
Context (sha256 : bytes -> list Z).

Definition idemp_digest_hex (s : string) : string :=
  str_of (concat (map (fun b => [hex_digit (Z.shiftr b 4); hex_digit (Z.land b 15)]) (take 16 (sha256 (bytes_of s))))).

Definition idemp_key (key : string) : string := "cauli:idemp:" +:+ idemp_digest_hex key.
End digest.

(** [exec::BACKSTOP_GRACE_MS]. *)
Definition BACKSTOP_GRACE_MS : Z := 2000.
Definition DLQ_MAXLEN : Z := 1000.
Definition DLQ_TTL_S : Z := 7 * 24 * 60 * 60.

(** Substring test, for [e.to_string().contains(..)]. *)
Fixpoint contains (needle hay : bytes) : bool :=
  bool_decide (is_Some (strip_prefix needle hay)) ||
  match hay with [] => false | _ :: hay' => contains needle hay' end.

Definition is_crossslot (e : rerr) : bool := bool_decide (code_ e = Some "CROSSSLOT"%string).
Definition is_nogroup (e : rerr) : bool := bool_decide (code_ e = Some "NOGROUP"%string).

(** One flush answers every waiter of its batch. *)
Abbreviation FlushOutcome := (result rerr unit).

Section broker.
Context {R : Redis}.

Fixpoint ensure_groups (queues : list string) : M unit := fun w =>
  match queues with
  | [] => (Ok tt, w)
  | q :: rest =>
      match query ["XGROUP"; "CREATE"; q_key q; "cauli"; "0"; "MKSTREAM"]%string w with
      | (Ok _, w') => ensure_groups rest w'
      | (Err e, w') =>
          if contains (bytes_of "BUSYGROUP") (bytes_of (text_ e)) then ensure_groups rest w' else (Err e, w')
      end
  end.

(** ** Lua: [redis.call] raises on an error reply and ends the script; what it
    already wrote stays. *)

Definition L (A : Type) : Type := rstate -> result rerr A * rstate.
#[export] Instance L_ret : MRet L := fun _ a s => (Ok a, s).
#[export] Instance L_bind : MBind L := fun _ _ f m s => match m s with (Ok a, s') => f a s' | (Err e, s') => (Err e, s') end.

Definition call (c : cmd) : L reply := fun s =>
  let '(r, s') := exec c s in (match extract_error r with Some e => Err e | None => Ok r end, s').

(** A Lua array of bulk strings. *)
Definition bulks (r : reply) : list string :=
  match r with RArr l => omap (fun x => match x with RBulk b => Some b | _ => None end) l | _ => [] end.

Fixpoint move_all (k1 k2 : string) (due : list string) : L unit :=
  match due with
  | [] => mret tt
  | e :: due' =>
      _ ← call ["XADD"; k2; "*"; "e"; e]%string;
      _ ← call ["ZREM"; k1; e]%string;
      move_all k1 k2 due'
  end.

Definition MOVER_LUA (k1 k2 now limit : string) : L Z :=
  due ← call ["ZRANGEBYSCORE"; k1; "-inf"; now; "LIMIT"; "0"; limit]%string;
  _ ← move_all k1 k2 (bulks due);
  mret (Z.of_nat (length (bulks due))).

(** [Script::invoke_async]: the script runs whole on the server, or the trip is
    torn before or after it. *)
Definition invoke {A} (script : L A) (w : world) : result rerr A * world :=
  let t := match trips w with t :: _ => t | [] => {| env_before s := s; torn := None |} end in
  let s0 := env_before t (server w) in
  let '(r, s1) := script s0 in
  match torn t with
  | None => (r, {| server := s1; trace := trace w; trips := tail (trips w) |})
  | Some O => (Err conn_error, {| server := s0; trace := trace w; trips := tail (trips w) |})
  | Some _ => (Err conn_error, {| server := s1; trace := trace w; trips := tail (trips w) |})
  end.

Definition run_mover (queue : string) (now_ms limit : Z) : M Z :=
  invoke (MOVER_LUA (delayed_key queue) (q_key queue) (dec now_ms) (dec limit)).

(** ** Idempotency *)

Inductive IdempClaim := Fresh | MineAgain | Duplicate (claimant : string).

Definition claim_ttl_s (idemp_ttl_s timeout_ms : Z) : Z :=
  let execution_s := div_ceil (sat_add timeout_ms BACKSTOP_GRACE_MS) 1000 in
  Z.max idemp_ttl_s execution_s.

Definition IDEMP_CLAIM_LUA (k id ttl_s ttl_ms : string) : L (Z * string) :=
  ok ← call ["SET"; k; id; "NX"; "EX"; ttl_s]%string;
  match ok with
  | RNil =>
      cur ← call ["GET"; k]%string;
      match cur with
      | RBulk c =>
          if String.eqb c id then _ ← call ["PEXPIRE"; k; ttl_ms]%string; mret (2, ""%string)
          else mret (0, c)
      | _ => mret (0, ""%string)
      end
  | _ => mret (1, ""%string)
  end.

Definition claim_of (p : Z * string) : IdempClaim :=
  match p with (1, _) => Fresh | (2, _) => MineAgain | (_, holder) => Duplicate holder end.

Definition idemp_claim (sha256 : bytes -> list Z) (key task_id : string) (idemp_ttl_s timeout_ms : Z) : M IdempClaim :=
  let ttl_s := claim_ttl_s idemp_ttl_s timeout_ms in
  p ← (invoke (IDEMP_CLAIM_LUA (idemp_key sha256 key) task_id (dec ttl_s) (dec (sat_mul ttl_s 1000))) : M (Z * string));
  mret (claim_of p).

(** ** Completion buffers *)

(** One buffered completion; [done] names its waiter. *)
Record AckReq := { sid : string; extra_cmds : list cmd; done_ : nat }.

Definition channel_capacity (batch : Z) : Z := Z.max (sat_mul (Z.max batch 1) 4) 256.

Inductive SubmitErr := NoBuffer | FlusherGone | FlushFailed (e : rerr) | FlushDropped.

(** [AckBufs::submit], given what became of the request: [None] when the
    flusher is gone, [Some None] when the reply channel was dropped. *)
Definition submit_result (has_buffer : bool) (fate : option (option FlushOutcome)) : result SubmitErr unit :=
  if negb has_buffer then Err NoBuffer else
  match fate with
  | None => Err FlusherGone
  | Some None => Err FlushDropped
  | Some (Some (Ok _)) => Ok tt
  | Some (Some (Err e)) => Err (FlushFailed e)
  end.

(** Requests as they arrive, with their arrival times. *)
Fixpoint collect_batch (room : nat) (deadline : Z) (q : list (Z * AckReq)) : list (Z * AckReq) * list (Z * AckReq) :=
  match room, q with
  | S room', (at_, r) :: q' =>
      if at_ <=? deadline then let '(b, rest) := collect_batch room' deadline q' in ((at_, r) :: b, rest)
      else ([], q)
  | _, _ => ([], q)
  end.

(** [flusher], as the batches it flushes and when each was opened; [busy b] is
    how long flushing [b] takes. The queue shrinks each turn, so its length is
    enough fuel. *)
Fixpoint flusher (fuel : nat) (busy : list AckReq -> Z) (now : Z) (max_batch : nat) (flush_ms : Z)
    (q : list (Z * AckReq)) : list (Z * list (Z * AckReq)) :=
  match fuel, q with
  | S f, (at_, r) :: q' =>
      let opened := Z.max now at_ in
      let deadline := opened + flush_ms in
      let '(b, rest) := collect_batch (max_batch - 1) deadline q' in
      let batch := (at_, r) :: b in
      let flushed_at := if (length batch <? max_batch)%nat then deadline
                        else foldr Z.max opened (map fst batch) in
      (opened, batch) :: flusher f busy (flushed_at + busy (map snd batch)) max_batch flush_ms rest
  | _, _ => []
  end.

Definition ack_pipeline (queue : string) (ids : list string) : list cmd :=
  [ ["XACK"; q_key queue; "cauli"]%string ++ ids; ["XDEL"; q_key queue]%string ++ ids ].

(** The first error among one owner's replies sticks. *)
Definition mark (reqs : list (AckReq * FlushOutcome)) (p : nat * reply) : list (AckReq * FlushOutcome) :=
  alter (fun ro => (ro.1, match extract_error p.2, ro.2 with Some e, Ok _ => Err e | _, o => o end)) p.1 reqs.

Definition owners (batch : list AckReq) : list nat :=
  concat (imap (fun i r => replicate (length (extra_cmds r)) i) batch).

(** Returns what each waiter is sent, in sending order. *)
Definition flush_batch (queue : string) (batch : list AckReq) (w : world) : list (nat * FlushOutcome) * world :=
  let writes := concat (extra_cmds <$> batch) in
  let owner := owners batch in
  let reqs := (fun r => (r, Ok tt : FlushOutcome)) <$> batch in
  let '(reqs, w) :=
    if bool_decide (owner = []) then (reqs, w) else
    match round_trip writes w with
    | (Ok replies, w') => (fold_left mark (zip owner replies) reqs, w')
    | (Err e, w') => ((fun ro => (ro.1, Err e)) <$> reqs, w')
    end in
  let written := filter (fun ro => is_ok ro.2) reqs in
  let refused := filter (fun ro => negb (is_ok ro.2)) reqs in
  let answered := (fun ro => (done_ ro.1, ro.2)) <$> refused in
  if bool_decide (written = []) then (answered, w) else
  let '(o, w) := query_pipe (ack_pipeline queue ((fun ro => sid ro.1) <$> written)) w in
  let outcome : FlushOutcome := match o with Ok _ => Ok tt | Err e => Err e end in
  (answered ++ ((fun ro => (done_ ro.1, outcome)) <$> written), w).

(** ** Terminal writes: the request each [finish_*] submits *)

Definition set_result (task_id rj : string) (ttl_s : Z) : cmd :=
  ["SET"; result_key task_id; rj; "EX"; dec ttl_s]%string.

Definition finish_success (stream_id task_id : string) (result_json : option string) (result_ttl_s : Z) (waiter : nat) : AckReq :=
  {| sid := stream_id;
     extra_cmds := match result_json with Some rj => [set_result task_id rj result_ttl_s] | None => [] end;
     done_ := waiter |}.

Definition finish_duplicate := finish_success.

Definition zadd (queue : string) (fire_at_ms : Z) (envelope_json : string) : cmd :=
  ["ZADD"; delayed_key queue; dec fire_at_ms; envelope_json]%string.

Definition finish_retry (queue stream_id envelope_json : string) (fire_at_ms : Z) (waiter : nat) : AckReq :=
  {| sid := stream_id; extra_cmds := [zadd queue fire_at_ms envelope_json]; done_ := waiter |}.

Definition xadd_dlq (queue envelope_json reason error_field : string) : cmd :=
  ["XADD"; dlq_key queue; "MAXLEN"; "~"; dec DLQ_MAXLEN; "*"; "e"; envelope_json; "reason"; reason; "error"; error_field]%string.

Definition finish_dlq `{Serde} (queue stream_id envelope_json reason : string) (error : option ErrorJson)
    (result : option (string * string * Z)) (waiter : nat) : AckReq :=
  let error_field := match error with Some e => text_of (error_value e) | None => "" end in
  {| sid := stream_id;
     extra_cmds :=
       [xadd_dlq queue envelope_json reason error_field; ["EXPIRE"; dlq_key queue; dec DLQ_TTL_S]%string] ++
       match result with Some (task_id, rj, ttl) => [set_result task_id rj ttl] | None => [] end;
     done_ := waiter |}.

(** ** Trim boundary and reads *)

Definition cauli_group (gs : list (string * string)) : option string :=
  snd <$> (snd <$> list_find (fun g => g.1 = "cauli"%string) gs).

Definition oldest_pending_id (queue : string) : M (option string) :=
  r ← query ["XPENDING"; q_key queue; "cauli"; "-"; "+"; "1"]%string;
  l ← decode decode_pending r;
  mret (match l with (id, _, _, _) :: _ => Some id | [] => None end).

(** [checked_add] on the sequence number. *)
Definition stream_id_after (id : string) : option string :=
  '(ms, seq) ← parse_stream_id id;
  Some (if seq + 1 <=? u64_max then stream_id ms (seq + 1) else id).

Definition acked_below (queue : string) : M (option string) :=
  r ← query ["XINFO"; "GROUPS"; q_key queue]%string;
  gs ← decode decode_groups r;
  match cauli_group gs with
  | None => mret None
  | Some last_delivered_id =>
      o ← oldest_pending_id queue;
      match o with
      | Some oldest => mret (Some oldest)
      | None =>
          if String.eqb last_delivered_id "0-0" then mret None
          else mret (stream_id_after last_delivered_id)
      end
  end.

Definition trim_acked (queue boundary : string) : M Z :=
  r ← query ["XTRIM"; q_key queue; "MINID"; boundary]%string;
  decode (fun r => match r with RInt n => Some n | _ => None end) r.

Definition oldest_undelivered_id (queue : string) : M (option string) :=
  r ← query ["XINFO"; "GROUPS"; q_key queue]%string;
  gs ← decode decode_groups r;
  match cauli_group gs with
  | None => mret None
  | Some last =>
      r ← query ["XRANGE"; q_key queue; "(" +:+ last; "+"; "COUNT"; "1"]%string;
      es ← decode decode_entries r;
      mret (fst <$> head es)
  end.

Definition xpending_idle (queue : string) (min_idle_ms : Z) (start : string) (count : Z) : M (list (string * string * Z * Z)) :=
  r ← query ["XPENDING"; q_key queue; "cauli"; "IDLE"; dec min_idle_ms; start; "+"; dec count]%string;
  decode decode_pending r.

Definition raw_e_field (m : gmap string string) : option string := m !! "e"%string.

(** One reply per id: [None] when the entry is not in it, [Some None] without an [e] field. *)
Definition entry_of (id : string) (es : list (string * gmap string string)) : option (option string) :=
  raw_e_field <$> (snd <$> (snd <$> list_find (fun e => e.1 = id) es)).

Fixpoint decode_all {A} (f : reply -> option A) (rs : list reply) : option (list A) :=
  match rs with
  | [] => Some []
  | r :: rs' => a ← f r; l ← decode_all f rs'; Some (a :: l)
  end.

Definition decode_replies (rs : list reply) : M (list (list (string * gmap string string))) :=
  fun w => (ok_or decode_err (decode_all decode_entries rs), w).

Definition peek_entries (queue : string) (ids : list string) : M (list (option (option string))) :=
  match ids with
  | [] => mret []
  | _ =>
      rs ← query_pipe ((fun id => ["XRANGE"; q_key queue; id; id]%string) <$> ids);
      replies ← decode_replies rs;
      mret (zip_with entry_of ids replies)
  end.

Definition xclaim_entries (queue consumer : string) (min_idle_ms : Z) (ids : list string) : M (list (option (option string))) :=
  rs ← query_pipe ((fun id => ["XCLAIM"; q_key queue; "cauli"; consumer; dec min_idle_ms; id]%string) <$> ids);
  replies ← decode_replies rs;
  mret (zip_with entry_of ids replies).
End broker.

(** ** What a flush leaves behind *)

Section flush.
Context {R : Redis}.

(** The marks, request by request: the first error among its own replies. *)
Fixpoint outcomes (batch : list AckReq) (rs : list reply) : list (AckReq * FlushOutcome) :=
  match batch with
  | [] => []
  | r :: b => let n := length (extra_cmds r) in (r, first_error (take n rs)) :: outcomes b (drop n rs)
  end.

Lemma mark_segment rs : forall pre r o post,
  fold_left mark (zip (replicate (length rs) (length pre)) rs) (pre ++ (r, o) :: post) =
  pre ++ (r, match o with Ok _ => first_error rs | Err e => Err e end) :: post.
Proof.
  induction rs as [|x rs IH]; intros pre r o post; cbn; [by destruct o as [[]|]|].
  rewrite <- (Nat.add_0_r (length pre)) at 2. rewrite alter_app_r. cbn. rewrite IH.
  do 2 f_equal. destruct (extract_error x), o as [[]|]; done.
Qed.

Lemma imap_shift (batch : list AckReq) n :
  imap ((fun i r => replicate (length (extra_cmds r)) (n + i)%nat) ∘ S) batch =
  imap (fun i r => replicate (length (extra_cmds r)) (S n + i)%nat) batch.
Proof. apply imap_ext. intros i x _. cbn. f_equal. lia. Qed.

Lemma marks_outcomes batch : forall rs pre,
  length rs = length (concat (extra_cmds <$> batch)) ->
  fold_left mark
    (zip (concat (imap (fun i r => replicate (length (extra_cmds r)) (length pre + i)%nat) batch)) rs)
    (pre ++ ((fun r => (r, Ok tt)) <$> batch)) = pre ++ outcomes batch rs.
Proof.
  induction batch as [|r b IH]; intros rs pre Hl; [done|].
  cbn in Hl. rewrite length_app in Hl. rewrite imap_cons, imap_shift. cbn [concat outcomes fmap list_fmap].
  set (n := length (extra_cmds r)) in *. rewrite <- (take_drop n rs) at 1.
  assert (Ht : length (take n rs) = n) by (rewrite length_take; lia).
  rewrite zip_with_app by (by rewrite length_replicate). rewrite fold_left_app, Nat.add_0_r.
  pose proof (mark_segment (take n rs) pre r (Ok tt) ((fun r => (r, Ok tt)) <$> b)) as HM.
  rewrite Ht in HM. rewrite HM. clear HM.
  change (pre ++ (r, first_error (take n rs)) :: ((fun r => (r, Ok tt)) <$> b)) with
    (pre ++ [(r, first_error (take n rs))] ++ ((fun r => (r, Ok tt)) <$> b)). rewrite app_assoc.
  replace (S (length pre)) with (length (pre ++ [(r, first_error (take n rs))])) by (rewrite length_app; cbn; lia).
  rewrite IH by (rewrite length_drop; lia). by rewrite <- app_assoc.
Qed.

Lemma outcomes_fst batch : forall rs, (outcomes batch rs).*1 = batch.
Proof. induction batch; intros; cbn; by f_equal. Qed.

(** A request whose outcome is [Ok] has its own commands in the trace, in
    order, each accepted. *)
Definition landed (t : list (cmd * reply)) (r : AckReq) : Prop :=
  exists a b c, t = a ++ b ++ c /\ b.*1 = extra_cmds r /\ Forall accepted b.*2.

Lemma landed_app t0 t r : landed t r -> landed (t0 ++ t) r.
Proof. intros (a & b & c & -> & ? & ?). exists (t0 ++ a), b, c. by rewrite <- app_assoc. Qed.

Lemma landed_nil r : extra_cmds r = [] -> landed [] r.
Proof. intros E. exists [], [], []. rewrite E. repeat split; constructor. Qed.

Lemma outcomes_landed batch : forall rs r,
  length rs = length (concat (extra_cmds <$> batch)) -> (r, Ok tt) ∈ outcomes batch rs ->
  landed (zip (concat (extra_cmds <$> batch)) rs) r.
Proof.
  induction batch as [|x b IH]; intros rs r Hl Hin; [set_solver|].
  cbn in Hl, Hin. rewrite length_app in Hl. cbn [fmap list_fmap concat].
  set (n := length (extra_cmds x)) in *.
  assert (Ht : length (take n rs) = n) by (rewrite length_take; lia).
  rewrite <- (take_drop n rs), zip_with_app by done. apply elem_of_cons in Hin as [[= -> E]|Hin].
  - exists [], (zip (extra_cmds x) (take n rs)), (zip (concat (extra_cmds <$> b)) (drop n rs)).
    split_and!; [done|rewrite fst_zip; [done|lia]|]. rewrite snd_zip by lia. by apply first_error_ok.
  - apply landed_app. apply IH; [rewrite length_drop; lia|done].
Qed.

Lemma owners_nil batch : forall f : nat -> nat,
  concat (imap (fun i r => replicate (length (extra_cmds r)) (f i)) batch) = [] ->
  forall r, r ∈ batch -> extra_cmds r = [].
Proof.
  induction batch as [|x b IH]; intros f E r Hr; [set_solver|]. rewrite imap_cons in E. cbn in E.
  apply app_eq_nil in E as [E1 E2]. apply elem_of_cons in Hr as [->|Hr].
  - destruct (extra_cmds x); [done|discriminate].
  - by apply (IH (f ∘ S) E2).
Qed.

(** The whole of [flush_batch]: who was written, who was refused, what the
    server saw, and what each waiter was told. *)
Record flush_result (queue : string) (batch : list AckReq) (w : world) (ans : list (nat * FlushOutcome)) (w' : world)
    (written refused : list AckReq) (t1 t2 : list (cmd * reply)) (o : FlushOutcome) : Prop := {
  fr_split : written ++ refused ≡ₚ batch;
  fr_trace : trace w' = trace w ++ t1 ++ t2;
  fr_t1 : t1.*1 `prefix_of` concat (extra_cmds <$> batch);
  fr_t2 : t2.*1 `prefix_of` ack_pipeline queue (sid <$> written);
  fr_none : written = [] -> t2 = [];
  fr_landed : forall r, r ∈ written -> landed t1 r;
  fr_ok : o = Ok tt -> t2.*1 = ack_pipeline queue (sid <$> written) /\ Forall accepted t2.*2;
  fr_ans : exists es, es.*1 = done_ <$> refused /\ Forall (fun p => is_ok p.2 = false) es /\
    ans = es ++ ((fun r => (done_ r, o)) <$> written);
}.

Lemma prefix_of_take {A} n (l : list A) : take n l `prefix_of` l.
Proof. exists (drop n l). by rewrite take_drop. Qed.

Lemma query_pipe_trace cs w o w' : query_pipe cs w = (o, w') ->
  exists t, trace w' = trace w ++ t /\ t.*1 `prefix_of` cs /\
    (is_ok o = true -> t.*1 = cs /\ Forall accepted t.*2).
Proof.
  unfold query_pipe. destruct (round_trip cs w) as [r w1] eqn:E. intros H.
  destruct (round_trip_trace _ _ _ _ E) as (rs & k & Ht & Hl & Hr).
  exists (zip (take k cs) rs).
  assert (H1 : (zip (take k cs) rs).*1 = take k cs) by (apply fst_zip; lia).
  destruct r as [l|e]; simplify_eq; (split; [done|]); (split; [rewrite H1; apply prefix_of_take|]).
  - destruct Hr as [-> Hk]. destruct (first_error rs) as [[]|] eqn:F; [|done]. intros _.
    split; [by rewrite H1|]. rewrite snd_zip by lia. by apply first_error_ok.
  - done.
Qed.

Lemma partition_perm (l : list (AckReq * FlushOutcome)) :
  (filter (fun ro => is_ok ro.2) l).*1 ++ (filter (fun ro => negb (is_ok ro.2)) l).*1 ≡ₚ l.*1.
Proof.
  rewrite <- fmap_app. apply fmap_Permutation.
  rewrite <- (filter_app_complement (fun ro => is_ok ro.2) l) at 3.
  apply Permutation_app_head. apply Permutation_refl'. apply list_filter_iff. intros [r o]. cbn.
  destruct (is_ok o); cbn; split; intros; try done. by intros ?.
Qed.

Lemma flush_finish queue batch reqs w0 w t1 ans w' :
  reqs.*1 = batch ->
  trace w = trace w0 ++ t1 -> t1.*1 `prefix_of` concat (extra_cmds <$> batch) ->
  (forall r, (r, Ok tt) ∈ reqs -> landed t1 r) ->
  (let written := filter (fun ro => is_ok ro.2) reqs in
   let refused := filter (fun ro => negb (is_ok ro.2)) reqs in
   let answered := (fun ro => (done_ ro.1, ro.2)) <$> refused in
   if bool_decide (written = []) then (answered, w) else
   let '(o, w) := query_pipe (ack_pipeline queue ((fun ro => sid ro.1) <$> written)) w in
   let outcome : FlushOutcome := match o with Ok _ => Ok tt | Err e => Err e end in
   (answered ++ ((fun ro => (done_ ro.1, outcome)) <$> written), w)) = (ans, w') ->
  exists written refused t2 o, flush_result queue batch w0 ans w' written refused t1 t2 o.
Proof.
  intros Hfst Ht Hp Hl. cbn zeta. set (wr := filter (fun ro => is_ok ro.2) reqs).
  set (rf := filter (fun ro => negb (is_ok ro.2)) reqs).
  pose proof (partition_perm reqs) as P. rewrite Hfst in P. fold wr rf in P.
  assert (Hw : forall r, r ∈ wr.*1 -> landed t1 r).
  { intros r ([r' o] & -> & [Ho Hin]%list_elem_of_filter)%list_elem_of_fmap. cbn in *. destruct o as [[]|]; [|done].
    by apply Hl. }
  assert (He : exists es, es.*1 = done_ <$> rf.*1 /\ Forall (fun p => is_ok p.2 = false) es /\
    es = ((fun ro => (done_ ro.1, ro.2)) <$> rf)).
  { eexists. split; [|split; [|reflexivity]].
    - by rewrite <- !list_fmap_compose.
    - apply Forall_fmap, Forall_forall. intros [r o] [Ho _]%list_elem_of_filter. cbn in *. by destruct (is_ok o). }
  destruct He as (es & He1 & He2 & Hes). rewrite <- Hes. case_bool_decide as E.
  - intros [= <- <-]. exists wr.*1, rf.*1, [], (Err conn_error). split; try done.
    + by rewrite app_nil_r.
    + apply prefix_nil.
    + exists es. rewrite E. by rewrite app_nil_r.
  - destruct (query_pipe _ w) as [o w1] eqn:Q. intros [= <- <-].
    destruct (query_pipe_trace _ _ _ _ Q) as (t2 & Ht2 & Hp2 & Ho).
    replace ((fun ro => sid ro.1) <$> wr) with (sid <$> wr.*1) in * by (by rewrite <- list_fmap_compose).
    exists wr.*1, rf.*1, t2, (match o with Ok _ => Ok tt | Err e => Err e end). split; try done.
    + rewrite Ht2, Ht. by rewrite <- app_assoc.
    + intros Hn. apply fmap_nil_inv in Hn. done.
    + destruct o; [|done]. intros _. by apply Ho.
    + exists es. split; [done|]. split; [done|]. by rewrite <- list_fmap_compose.
Qed.

Lemma flush_spec queue batch w ans w' : flush_batch queue batch w = (ans, w') ->
  exists written refused t1 t2 o, flush_result queue batch w ans w' written refused t1 t2 o.
Proof.
  unfold flush_batch.
  set (reqs := (fun r => (r, Ok tt : FlushOutcome)) <$> batch).
  assert (Hfst : reqs.*1 = batch).
  { unfold reqs. rewrite <- list_fmap_compose. by apply list_fmap_id. }
  case_bool_decide as E; intros H.
  - eapply (flush_finish queue batch reqs w w []) in H as (wr & rf & t2 & o & HF); [by exists wr, rf, [], t2, o|done|by rewrite app_nil_r|apply prefix_nil|].
    intros r Hr. apply landed_nil. apply (owners_nil batch (fun i => i) E).
    rewrite <- Hfst. apply (list_elem_of_fmap_2' _ _ (r, Ok tt)); done.
  - destruct (round_trip _ w) as [res w1] eqn:T.
    destruct (round_trip_trace _ _ _ _ T) as (rs & k & Ht & Hlen & Hr).
    assert (Hp : (zip (take k (concat (extra_cmds <$> batch))) rs).*1 `prefix_of` concat (extra_cmds <$> batch)).
    { rewrite fst_zip by lia. apply prefix_of_take. }
    destruct res as [replies|e].
    + destruct Hr as [-> Hk]. rewrite Hk in *.
      pose proof (marks_outcomes batch rs [] Hlen) as HM. cbn [app length Nat.add] in HM.
      change (concat (imap _ batch)) with (owners batch) in HM. fold reqs in HM. rewrite HM in H.
      eapply flush_finish in H as (wr & rf & t2 & o & HF); [by eexists _, _, _, _, _|apply outcomes_fst|exact Ht|exact Hp|].
      intros r Hin. by apply outcomes_landed.
    + eapply flush_finish in H as (wr & rf & t2 & o & HF); [by eexists _, _, _, _, _| |exact Ht|exact Hp|].
      * transitivity (reqs.*1); [by rewrite <- list_fmap_compose|done].
      * intros r (ro & [=] & _)%list_elem_of_fmap.
Qed.
End flush.

(** C10. An entry is acked only after its own writes were accepted: whatever the
    server replies and wherever a round trip tears, a flush sends the batch's
    writes, then one XACK before one XDEL, and every id in them belongs to a
    request whose commands are all earlier in the trace with non-error
    replies. *)
Theorem ack_after_writes {R : Redis} queue batch (w : world) :
  let w' := (flush_batch queue batch w).2 in
  exists t1 t2 ids, trace w' = trace w ++ t1 ++ t2 /\
    t1.*1 `prefix_of` concat (extra_cmds <$> batch) /\ t2.*1 `prefix_of` ack_pipeline queue ids /\
    (t2 <> [] -> forall id, id ∈ ids -> exists r, r ∈ batch /\ sid r = id /\ landed t1 r).
Proof.
  destruct (flush_batch queue batch w) as [ans w'] eqn:E.
  destruct (flush_spec _ _ _ _ _ E) as (wr & rf & t1 & t2 & o & []). cbn.
  exists t1, t2, (sid <$> wr). split_and!; [done..|].
  intros _ id (r & -> & Hr)%list_elem_of_fmap. exists r. split; [|split; [done|by apply fr_landed0]].
  rewrite <- fr_split0. apply elem_of_app. by left.
Qed.

(** C23. A flush answers every waiter of its batch exactly once, and [Ok] only
    when that request's writes landed and the XACK and XDEL naming its entry
    were both accepted after them. *)
Theorem waiters_answered_once {R : Redis} queue batch (w : world) :
  let '(ans, w') := flush_batch queue batch w in
  ans.*1 ≡ₚ done_ <$> batch /\
  forall d, (d, Ok tt) ∈ ans ->
    exists r t1 t2 ids, r ∈ batch /\ done_ r = d /\ sid r ∈ ids /\ trace w' = trace w ++ t1 ++ t2 /\
      landed t1 r /\ t2.*1 = ack_pipeline queue ids /\ Forall accepted t2.*2.
Proof.
  destruct (flush_batch queue batch w) as [ans w'] eqn:E.
  destruct (flush_spec _ _ _ _ _ E) as (wr & rf & t1 & t2 & o & []).
  destruct fr_ans0 as (es & He & Hf & ->). split.
  - rewrite fmap_app, He, <- list_fmap_compose.
    change (fst ∘ (fun r => (done_ r, o))) with done_. rewrite Permutation_app_comm, <- fmap_app.
    by rewrite fr_split0.
  - intros d [Hd|Hd]%elem_of_app.
    + rewrite Forall_forall in Hf. by specialize (Hf _ Hd).
    + apply list_elem_of_fmap in Hd as (r & [= -> <-] & Hr). destruct (fr_ok0 eq_refl) as [H1 H2].
      exists r, t1, t2, (sid <$> wr). split_and!; auto.
      * rewrite <- fr_split0. apply elem_of_app. by left.
      * by apply list_elem_of_fmap_2.
Qed.

(** ** The flusher's batches *)

Lemma collect_batch_spec room dl q : let '(b, rest) := collect_batch room dl q in
  b ++ rest = q /\ (length b <= room)%nat /\ Forall (fun p => p.1 <= dl) b.
Proof.
  revert q. induction room as [|room IH]; intros [|[a r] q]; cbn; try (split_and!; [done|cbn; lia|constructor]).
  destruct (Z.leb_spec a dl); [|cbn; split_and!; [done|lia|constructor]].
  specialize (IH q). destruct (collect_batch room dl q) as [b rest]. destruct IH as (<- & ? & ?).
  cbn. split_and!; [done|lia|by constructor].
Qed.

(** The flusher loses and reorders nothing: its batches, concatenated, are
    the submitted requests in order; each is nonempty, at most [--ack-batch]
    long, and holds nothing that arrived later than [--ack-flush-ms] after the
    batch was opened. *)
Theorem flusher_keeps_order busy now max_batch flush_ms q :
  (0 < max_batch)%nat -> 0 <= flush_ms ->
  let bs := flusher (length q) busy now max_batch flush_ms q in
  concat (snd <$> bs) = q /\
  Forall (fun b => b.2 <> [] /\ (length b.2 <= max_batch)%nat /\ Forall (fun p => p.1 <= b.1 + flush_ms) b.2) bs.
Proof.
  intros Hm Hf. cbn zeta. assert (HG : forall fuel now, (length q <= fuel)%nat ->
    let bs := flusher fuel busy now max_batch flush_ms q in concat (snd <$> bs) = q /\
    Forall (fun b => b.2 <> [] /\ (length b.2 <= max_batch)%nat /\ Forall (fun p => p.1 <= b.1 + flush_ms) b.2) bs);
    [|by apply HG].
  clear now. intros fuel. revert q. induction fuel as [|f IH]; intros [|[a r] q] now Hl; cbn in Hl; try lia; cbn;
    try (split; [done|constructor]).
  pose proof (collect_batch_spec (max_batch - 1) (Z.max now a + flush_ms) q) as HC.
  destruct (collect_batch _ _ q) as [b rest]. destruct HC as (<- & Hb & HF). rewrite length_app in Hl.
  cbn. match goal with |- context [flusher f busy ?n _ _ _] => destruct (IH rest n ltac:(lia)) as [IH1 IH2] end.
  split; [by rewrite IH1|]. constructor; [|exact IH2]. cbn. split_and!; [done|lia|].
  constructor; [cbn; lia|done].
Qed.

Lemma flusher_keeps_order_witness :
  let q := [(0, {| sid := "1-0"; extra_cmds := []; done_ := 0%nat |}); (50, {| sid := "1-1"; extra_cmds := []; done_ := 1%nat |})] in
  concat (snd <$> flusher 2 (fun _ => 1) 0 64 5 q) = q.
Proof. intros q. apply (flusher_keeps_order (fun _ => 1) 0 64 5 q); lia. Defined.

(** ** The mover *)

Section mover.
Context {R : Redis} {V : SetViews R} {N : ErrNoop R} {SL : SetLaws R V}.

Lemma call_ok c s r s' : call c s = (Ok r, s') -> exec c s = (r, s') /\ accepted r.
Proof.
  unfold call, accepted. destruct (exec c s) as [x s1]. destruct (extract_error x) eqn:E; [done|].
  intros [= <- <-]. done.
Qed.

Lemma call_err c s e s' : is_script c = false -> call c s = (Err e, s') -> s' = s.
Proof.
  intros Hc. unfold call. destruct (exec c s) as [x s1] eqn:E. destruct x; cbn; try done.
  intros [= -> <-]. by eapply err_noop.
Qed.

(** Nothing below touches any other key's set or stream order. *)
Definition moved_spec (k1 k2 : string) (s s' : rstate) (moved due : list string) (done : bool) : Prop :=
  moved `prefix_of` due /\ entries s' k2 = entries s k2 ++ moved /\
  (forall e, e ∈ zset s k1 -> e ∈ zset s' k1 \/ e ∈ moved) /\
  zset s' k1 ⊆ zset s k1 /\
  (done = true -> moved = due /\ zset s' k1 = zset s k1 ∖ list_to_set due).

Lemma move_all_spec k1 k2 due : forall s r s', move_all k1 k2 due s = (r, s') ->
  exists moved, moved_spec k1 k2 s s' moved due (is_ok r).
Proof.
  induction due as [|e due IH]; intros s r s' H; cbn in H.
  - injection H as <- <-. exists []. split_and!; [done|by rewrite app_nil_r|auto|done|].
    intros _. split; [done|]. cbn. set_solver.
  - unfold mbind, L_bind in H. destruct (call ["XADD"; k2; "*"; "e"; e]%string s) as [[x|er] s1] eqn:C1.
    2:{ apply call_err in C1 as ->; [|done]. injection H as <- <-. exists [].
        split_and!; [apply prefix_nil|by rewrite app_nil_r|auto|done|done]. }
    apply call_ok in C1 as [C1 A1]. destruct (xadd_law _ _ _ _ _ C1 A1) as [E1 Z1].
    destruct (call ["ZREM"; k1; e]%string s1) as [[y|er] s2] eqn:C2.
    2:{ apply call_err in C2 as ->; [|done]. injection H as <- <-. exists [e].
        split_and!; [by apply prefix_cons, prefix_nil|done|rewrite Z1; auto|by rewrite Z1|done]. }
    apply call_ok in C2 as [C2 A2]. destruct (zrem_law _ _ _ _ _ C2 A2) as [Z2 E2].
    apply IH in H as (moved & P & E & Hz & Hs & Hd). rewrite E2, E1 in E. rewrite Z2, Z1 in Hz, Hs, Hd.
    exists (e :: moved). split_and!.
    + by apply prefix_cons.
    + rewrite E. by rewrite <- app_assoc.
    + intros z Hin. destruct (decide (z = e)) as [->|]; [right; set_solver|]. destruct (Hz z); set_solver.
    + set_solver.
    + intros Hr. destruct (Hd Hr) as [-> ->]. split; [done|]. cbn. set_solver.
Qed.

Lemma bulks_map l : bulks (RArr (RBulk <$> l)) = l.
Proof. cbn. induction l; cbn; by f_equal. Qed.

Lemma mover_spec k1 k2 now lim s r s' : MOVER_LUA k1 k2 now lim s = (r, s') ->
  exists due moved, NoDup due /\ (forall e, e ∈ due -> e ∈ zset s k1) /\ moved_spec k1 k2 s s' moved due (is_ok r) /\
    forall n, r = Ok n -> n = Z.of_nat (length due).
Proof.
  unfold MOVER_LUA, mbind, L_bind. destruct (call _ s) as [[x|er] s1] eqn:C1.
  - apply call_ok in C1 as [C1 A1]. destruct (zrange_law _ _ _ _ _ _ C1 A1) as (-> & l & -> & ND & Hl).
    rewrite bulks_map. destruct (move_all k1 k2 l s) as [[[]|er] s2] eqn:M1; intros [= <- <-];
      destruct (move_all_spec _ _ _ _ _ _ M1) as (moved & HM); exists l, moved; split_and!; auto; by intros n [= <-].
  - apply call_err in C1 as ->; [|done]. intros [= <- <-]. exists [], []. split_and!; [constructor|set_solver| |done].
    split_and!; [done|by rewrite app_nil_r|auto|done|done].
Qed.
End mover.

(** The state a script runs on: what the other clients left before the trip. *)
Definition before_trip {R : Redis} (w : world) : rstate :=
  match trips w with t :: _ => env_before t (server w) | [] => server w end.

(** C16. The delayed mover never loses a task. Whatever fails (a command inside
    the script, which stops it with no rollback, or the connection around it),
    every member of the delayed set is still in it or was appended to the
    stream; and a reply of [n] means exactly [n] distinct members were moved,
    removed from the set and appended once each, in order. *)
Theorem mover_never_loses {R : Redis} (N : ErrNoop R) (V : SetViews R) (SL : SetLaws R V) queue now limit (w : world) :
  let '(r, w') := run_mover queue now limit w in
  let dk := delayed_key queue in
  exists moved, entries (server w') (q_key queue) = entries (before_trip w) (q_key queue) ++ moved /\
    NoDup moved /\
    (forall e, e ∈ zset (before_trip w) dk -> e ∈ zset (server w') dk \/ e ∈ moved) /\
    zset (server w') dk ⊆ zset (before_trip w) dk /\
    (forall n, r = Ok n -> n = Z.of_nat (length moved) /\
      zset (server w') dk = zset (before_trip w) dk ∖ list_to_set moved).
Proof.
  unfold run_mover, invoke, before_trip.
  set (t := match trips w with t :: _ => t | [] => _ end).
  replace (match trips w with t0 :: _ => env_before t0 (server w) | [] => server w end)
    with (env_before t (server w)) by (unfold t; destruct (trips w); done).
  set (s0 := env_before t (server w)).
  destruct (MOVER_LUA _ _ _ _ s0) as [r s1] eqn:ML.
  destruct (mover_spec _ _ _ _ _ _ _ ML) as (due & moved & ND & Hd & (P & E & Hz & Hs & Ho) & Hn).
  assert (NDm : NoDup moved).
  { destruct P as [x Px]. rewrite Px in ND. by apply NoDup_app in ND as (? & _). }
  destruct (torn t) as [[|k]|]; cbn.
  - exists []. split_and!; [by rewrite app_nil_r|constructor|auto|done|done].
  - exists moved. split_and!; auto. done.
  - exists moved. split_and!; auto. intros n ->. destruct (Ho eq_refl) as [-> HZ].
    split; [by apply Hn|done].
Qed.

Definition toy_world : @world ToyRedis.toy :=
  @Build_world ToyRedis.toy
    {| ToyRedis.zs := <["cauli:delayed:q"%string := ({["x"; "y"]}%string : gset string)]> ∅;
       ToyRedis.xs := ∅; ToyRedis.strs := ∅; ToyRedis.last := (5, 0); ToyRedis.pend := [(4, 1)] |}
    [] [].

Lemma mover_never_loses_witness :
  exists moved, @entries _ ToyRedis.toy_sets (server (run_mover "q" 5 100 toy_world).2) "cauli:q:q" =
    @entries _ ToyRedis.toy_sets (server toy_world) "cauli:q:q" ++ moved.
Proof.
  pose proof (mover_never_loses ToyRedis.toy_noop ToyRedis.toy_sets ToyRedis.toy_set_laws "q" 5 100 toy_world) as H.
  destruct (run_mover "q" 5 100 toy_world) as [r w']. destruct H as (moved & E & _). exists moved. exact E.
Defined.

(** ** The idempotency claim *)

(** The claim outlives the execution it guards: at least the configured
    TTL and at least [timeout_ms] plus the backstop grace, rounded up. *)
Theorem claim_ttl_covers_execution idemp_ttl_s timeout_ms :
  is_u64 idemp_ttl_s -> 0 <= timeout_ms <= MAX_TIMEOUT_MS ->
  let ttl := claim_ttl_s idemp_ttl_s timeout_ms in
  idemp_ttl_s <= ttl /\ timeout_ms + BACKSTOP_GRACE_MS <= ttl * 1000 /\ is_u64 ttl.
Proof.
  intros Hi Ht. cbn zeta. unfold claim_ttl_s, BACKSTOP_GRACE_MS, MAX_TIMEOUT_MS in *.
  rewrite sat_add_exact by mlia. pose proof (div_ceil_le_mul (timeout_ms + 2000) 1000 ltac:(lia) ltac:(lia)).
  assert (div_ceil (timeout_ms + 2000) 1000 <= 86402).
  { unfold div_ceil. apply Z.lt_succ_r, Z.div_lt_upper_bound; lia. }
  mlia.
Qed.

Lemma claim_ttl_covers_execution_witness : 300000 + BACKSTOP_GRACE_MS <= claim_ttl_s 60 300000 * 1000.
Proof. apply (claim_ttl_covers_execution 60 300000); [mlia|unfold MAX_TIMEOUT_MS; lia]. Defined.

Lemma claim_ttl_positive idemp_ttl_s timeout_ms : 0 <= timeout_ms -> 0 < sat_mul (claim_ttl_s idemp_ttl_s timeout_ms) 1000.
Proof.
  intros Ht. assert (H1 : 1 <= claim_ttl_s idemp_ttl_s timeout_ms); [|unfold sat_mul, u64_max; lia].
  unfold claim_ttl_s. etransitivity; [|apply Z.le_max_r]. unfold div_ceil.
  apply Z.div_le_lower_bound; [lia|]. unfold sat_add, BACKSTOP_GRACE_MS, u64_max. lia.
Qed.

Section claim.
Context {R : Redis} {V : StrViews R} {N : ErrNoop R} {SL : StrLaws R V}.

(** Who a claim lets execute. *)
Definition executes (c : IdempClaim) : bool := match c with Fresh | MineAgain => true | Duplicate _ => false end.

Lemma claim_script_spec k id ttl ms s r s' : 0 < ms -> IDEMP_CLAIM_LUA k id ttl (dec ms) s = (r, s') ->
  (forall h, str_at s k = Some h -> str_at s' k = Some h) /\
  (forall p, r = Ok p ->
     match claim_of p with
     | Fresh => str_at s k = None /\ str_at s' k = Some id
     | MineAgain => str_at s k = Some id /\ str_at s' k = Some id
     | Duplicate h => (str_at s k = Some h /\ h <> id) /\ str_at s' k = Some h
     end).
Proof.
  intros Hms. unfold IDEMP_CLAIM_LUA, mbind, L_bind. destruct (call _ s) as [[x|e] s1] eqn:C1.
  2: { apply call_err in C1 as ->; [|done]. intros [= <- <-]. done. }
  apply call_ok in C1 as [C1 A1].
  destruct (set_nx_law _ _ _ _ _ _ C1 A1) as [(H0 & -> & H1)|([h Hh] & -> & ->)].
  { intros [= <- <-]. split; [congruence|]. intros p [= <-]. done. }
  destruct (call _ s) as [[y|e] s2] eqn:C2.
  2: { apply call_err in C2 as ->; [|done]. intros [= <- <-]. done. }
  apply call_ok in C2 as [C2 A2]. destruct (get_law _ _ _ _ C2 A2) as [-> ->]. rewrite Hh.
  destruct (String.eqb_spec h id) as [->|].
  2: { intros [= <- <-]. split; [congruence|]. intros p [= <-]. done. }
  destruct (call ["PEXPIRE"; k; dec ms]%string s) as [[z|e] s3] eqn:C3.
  2: { apply call_err in C3 as ->; [|done]. intros [= <- <-]. split; [congruence|done]. }
  apply call_ok in C3 as [C3 A3]. pose proof (pexpire_law _ _ _ _ _ Hms C3 A3) as E3.
  intros [= <- <-]. rewrite E3, Hh. split; [done|]. by intros p [= <-].
Qed.

(** No other client, and no expiry, touches the key between the trips. *)
Definition lease_kept (k : string) (w : world) : Prop :=
  Forall (fun t => forall s, str_at (env_before t s) k = str_at s k) (trips w).

Context (sha256 : bytes -> list Z).

Lemma idemp_claim_spec key id ttl tmo (w : world) r w' :
  0 <= tmo -> lease_kept (idemp_key sha256 key) w -> idemp_claim sha256 key id ttl tmo w = (r, w') ->
  lease_kept (idemp_key sha256 key) w' /\
  (forall h, str_at (server w) (idemp_key sha256 key) = Some h -> str_at (server w') (idemp_key sha256 key) = Some h) /\ (forall c, r = Ok c -> exists h, str_at (server w') (idemp_key sha256 key) = Some h /\
     (executes c = true <-> h = id) /\ forall h', c = Duplicate h' -> h' = h).
Proof.
  set (k := idemp_key sha256 key). intros Htmo HL. unfold idemp_claim, mbind, M_bind, invoke.
  set (t := match trips w with t :: _ => t | [] => _ end).
  assert (Hk : str_at (env_before t (server w)) k = str_at (server w) k).
  { unfold t, lease_kept in *. destruct (trips w) as [|t0 ts]; [done|]. by inversion HL. }
  assert (HL' : Forall (fun t => forall s, str_at (env_before t s) k = str_at s k) (tail (trips w))).
  { unfold lease_kept in HL. destruct (trips w); [done|]. by inversion HL. }
  fold k. destruct (IDEMP_CLAIM_LUA _ _ _ _ (env_before t (server w))) as [p s1] eqn:C.
  destruct (claim_script_spec _ _ _ _ _ _ _ (claim_ttl_positive ttl tmo Htmo) C) as [H1 H2]. rewrite Hk in H1, H2.
  destruct (torn t) as [[|n]|].
  - intros [= <- <-]. cbn. rewrite Hk. done.
  - intros [= <- <-]. cbn. done.
  - destruct p as [p|e]; intros [= <- <-]; cbn; (split; [done|]); (split; [done|]); [|done].
    intros c [= <-]. specialize (H2 p eq_refl). destruct (claim_of p) as [| |h'].
    + exists id. split_and!; [tauto|tauto|done].
    + exists id. split_and!; [tauto|tauto|done].
    + exists h'. split_and!; [tauto|cbn; split; [done|intros ->; tauto]|by intros ? [= ->]].
Qed.

(** Claims of one key by several tasks, one after another. *)
Fixpoint claims (key : string) (ttl tmo : Z) (ids : list string) (w : world) : list (string * result rerr IdempClaim) :=
  match ids with
  | [] => []
  | id :: rest => let '(r, w') := idemp_claim sha256 key id ttl tmo w in (id, r) :: claims key ttl tmo rest w'
  end.

Lemma claims_held key ttl tmo ids : 0 <= tmo -> forall w h, lease_kept (idemp_key sha256 key) w ->
  str_at (server w) (idemp_key sha256 key) = Some h ->
  forall id c, (id, Ok c) ∈ claims key ttl tmo ids w -> (executes c = true <-> h = id) /\ forall h', c = Duplicate h' -> h' = h.
Proof.
  intros Htmo. induction ids as [|i ids IH]; intros w h HL Hh id c; cbn; [set_solver|].
  destruct (idemp_claim _ _ _ _ _ w) as [r w'] eqn:C.
  destruct (idemp_claim_spec _ _ _ _ _ _ _ Htmo HL C) as (HL' & Hkeep & Hr).
  intros [E|Hin]%elem_of_cons.
  - assert (i = id) as -> by congruence. assert (r = Ok c) as -> by congruence.
    destruct (Hr c eq_refl) as (h' & E1 & E2 & E3). rewrite (Hkeep h Hh) in E1. injection E1 as <-. done.
  - eapply IH; eauto.
Qed.

(** Whatever executes first holds the key for the rest. *)
Lemma claims_agree key ttl tmo ids : 0 <= tmo -> forall w i j a b ca cb, lease_kept (idemp_key sha256 key) w ->
  (i <= j)%nat -> claims key ttl tmo ids w !! i = Some (a, Ok ca) -> claims key ttl tmo ids w !! j = Some (b, Ok cb) ->
  executes ca = true -> (executes cb = true <-> b = a) /\ forall h, cb = Duplicate h -> h = a.
Proof.
  intros Htmo. induction ids as [|x ids IH]; intros w i j a b ca cb HL Hij Hi Hj Ha; [done|]. cbn in Hi, Hj.
  destruct (idemp_claim _ _ _ _ _ w) as [r w'] eqn:C.
  destruct (idemp_claim_spec _ _ _ _ _ _ _ Htmo HL C) as (HL' & Hkeep & Hr).
  destruct i as [|i]; cbn in Hi.
  - injection Hi as -> ->. destruct (Hr ca eq_refl) as (h & E1 & E2 & _). apply E2 in Ha as ->.
    destruct j as [|j]; cbn in Hj.
    + injection Hj as -> ->. destruct (Hr cb eq_refl) as (h & E3 & E4 & E5). rewrite E1 in E3. injection E3 as <-.
      split; [split; [done|intros _; by apply E4]|done].
    + apply list_elem_of_lookup_2 in Hj. destruct (claims_held _ _ _ _ Htmo _ _ HL' E1 _ _ Hj) as [E3 E4].
      split; [rewrite E3; split; congruence|done].
  - destruct j as [|j]; [lia|]. cbn in Hj. eapply (IH w' i j); eauto. lia.
Qed.
End claim.

(** C15. While the lease stands (timeouts are unsigned, so that no claim's expiry
    is in the past), one idempotency key lets one task id execute:
    any two claims of it that were answered and granted carry the same id, and a
    later claim by another id is told that id as the duplicate's claimant. *)
Theorem idemp_mutual_exclusion {R : Redis} (N : ErrNoop R) (V : StrViews R) (SL : StrLaws R V)
    sha256 key ttl tmo ids (w : world) i j a b ca cb :
  0 <= tmo -> lease_kept (idemp_key sha256 key) w -> (i <= j)%nat ->
  claims sha256 key ttl tmo ids w !! i = Some (a, Ok ca) ->
  claims sha256 key ttl tmo ids w !! j = Some (b, Ok cb) ->
  executes ca = true ->
  (executes cb = true <-> b = a) /\ (executes cb = false -> cb = Duplicate a).
Proof.
  intros Htmo HL Hij Hi Hj Ha. destruct (claims_agree _ _ _ _ _ Htmo _ _ _ _ _ _ _ HL Hij Hi Hj Ha) as [H1 H2].
  split; [done|]. destruct cb as [| |h]; [done|done|]. intros _. by rewrite (H2 h eq_refl).
Qed.

Lemma idemp_mutual_exclusion_witness :
  claims (fun _ => []) "k" 60 1000 ["t1"; "t2"; "t1"]%string toy_world !! 2%nat = Some ("t1"%string, Ok MineAgain) /\
  executes MineAgain = true.
Proof.
  split; [vm_compute; reflexivity|].
  apply (idemp_mutual_exclusion ToyRedis.toy_noop ToyRedis.toy_strs ToyRedis.toy_str_laws (fun _ => []) "k" 60 1000
    ["t1"; "t2"; "t1"]%string toy_world 0 2 "t1" "t1" Fresh MineAgain).
  - lia.
  - constructor.
  - lia.
  - vm_compute. reflexivity.
  - vm_compute. reflexivity.
  - reflexivity.
  - reflexivity.
Defined.

(** ** The trim boundary *)

Section trim.
Context {R : Redis} {V : GroupViews R} {GL : GroupLaws R V}.

Definition group_kept (k : string) (w : world) : Prop := Forall (fun t => forall s, group_step k s (env_before t s)) (trips w).

Lemma query_ok c k (w w' : world) r : group_kept k w -> query c w = (Ok r, w') ->
  group_kept k w' /\ exists s1, group_step k (server w) s1 /\ exec c s1 = (r, server w') /\ accepted r.
Proof.
  unfold query, round_trip, group_kept. intros HF. set (t := match trips w with t :: _ => t | [] => _ end).
  assert (Ht : group_step k (server w) (env_before t (server w)) /\
    Forall (fun t => forall s, group_step k s (env_before t s)) (tail (trips w))).
  { unfold t. destruct (trips w) as [|t0 ts]; cbn; [split; [apply group_step_refl|done]|].
    inversion HF; subst. auto. }
  destruct Ht as [H1 H2]. destruct (torn t) as [[|n]|]; cbn.
  - intros [=].
  - destruct (exec c _). cbn. rewrite take_nil. intros [=].
  - destruct (exec c (env_before t (server w))) as [x s1] eqn:E. cbn.
    destruct (extract_error x) eqn:Ex; [done|]. intros [= <- <-]. cbn. split; [done|].
    exists (env_before t (server w)). split_and!; [done|done|]. unfold accepted. done.
Qed.

Lemma cauli_group_find gs lid : cauli_group gs = Some lid ->
  exists i, list_find (fun g : string * string => g.1 = "cauli"%string) gs = Some (i, ("cauli"%string, lid)).
Proof.
  unfold cauli_group. destruct (list_find _ gs) as [[i [n l]]|] eqn:E; [|done]. cbn. intros [= ->].
  apply list_find_Some in E as (H1 & H2 & H3). cbn in H2. subst. by exists i.
Qed.

Lemma oldest_pending_spec queue (w w' : world) o : group_kept (q_key queue) w ->
  oldest_pending_id queue w = (Ok o, w') ->
  group_kept (q_key queue) w' /\ group_step (q_key queue) (server w) (server w') /\
  match o with
  | None => pel (server w') (q_key queue) = ∅
  | Some id => exists p, parse_stream_id id = Some p /\ p ∈ pel (server w') (q_key queue) /\
      forall x, x ∈ pel (server w') (q_key queue) -> id_le p x
  end.
Proof.
  intros HK. unfold oldest_pending_id, mbind, M_bind. destruct (query _ w) as [[r|e] w1] eqn:Q; [|done].
  destruct (query_ok _ _ _ _ _ HK Q) as (HK1 & s1 & G & E & A). unfold decode.
  destruct (decode_pending r) as [l|] eqn:D; [|done]. cbn. intros [= <- <-].
  destruct (xpending_law _ _ _ _ _ E D) as [Es Hl]. rewrite Es in *. split; [done|]. split; [done|].
  destruct l as [|[[[id c] n] m] l]; [done|]. destruct Hl as (p & -> & U1 & U2 & Hin & Hmin).
  exists p. split; [rewrite parse_stream_id_dec by done; by destruct p|done].
Qed.

Lemma stream_id_after_spec p b : is_u64 p.1 -> is_u64 p.2 -> stream_id_after (stream_id p.1 p.2) = Some b ->
  exists pb, parse_stream_id b = Some pb /\ forall x, id_lt p x -> id_le pb x.
Proof.
  intros U1 U2. unfold stream_id_after. rewrite parse_stream_id_dec by done. cbn [mbind option_bind].
  destruct (Z.leb_spec (p.2 + 1) u64_max); intros [= <-].
  - exists (p.1, p.2 + 1). rewrite parse_stream_id_dec by (done || mlia). split; [done|].
    unfold id_lt, id_le. cbn. lia.
  - exists p. rewrite parse_stream_id_dec by done. split; [by destruct p|]. apply id_lt_le.
Qed.

Lemma acked_below_spec queue (w w' : world) b :
  group_kept (q_key queue) w -> acked_below queue w = (Ok (Some b), w') ->
  exists pb, parse_stream_id b = Some pb /\ forall s, group_step (q_key queue) (server w') s ->
    forall x, unsettled s (q_key queue) x -> id_le pb x.
Proof.
  intros HK. unfold acked_below, mbind, M_bind. destruct (query _ w) as [[r|e] w1] eqn:Q; [|done].
  destruct (query_ok _ _ _ _ _ HK Q) as (HK1 & s1 & G & E & A). unfold decode.
  destruct (decode_groups r) as [gs|] eqn:D; [|done]. cbn.
  destruct (cauli_group gs) as [lid|] eqn:CG; [|done].
  destruct (cauli_group_find _ _ CG) as [i Hi].
  destruct (xinfo_law _ _ _ _ _ _ _ E D Hi) as (Es & -> & U1 & U2). rewrite <- Es in *. clear Es s1.
  set (k := q_key queue) in *. set (L := last_delivered (server w1) k) in *.
  destruct (oldest_pending_id queue w1) as [[o|e] w2] eqn:O; [|done].
  destruct (oldest_pending_spec _ _ _ _ HK1 O) as (HK2 & G2 & Hp). fold k in G2, Hp.
  destruct o as [id|].
  - intros [= <- <-]. destruct Hp as (p & Hparse & Hin & Hmin). exists p. split; [done|].
    pose proof (pel_delivered (server w2) k p Hin).
    intros s [Hs1 Hs2] x [Hx|Hx]; [destruct (Hs2 x Hx) as [?|Hlt]; [by apply Hmin|]|]; unfold id_lt, id_le in *; lia.
  - destruct (String.eqb _ "0-0"); [done|]. intros [= H <-].
    destruct (stream_id_after_spec _ _ U1 U2 H) as (pb & Hparse & Hpb). exists pb. split; [done|].
    destruct G2 as [G2 _]. fold L in G2.
    intros s [Hs1 Hs2] x Hx. apply Hpb.
    destruct Hx as [Hx|Hx]; [destruct (Hs2 x Hx) as [Hx'|Hlt]; [rewrite Hp in Hx'; set_solver|]|];
      unfold id_lt, id_le in *; lia.
Qed.
End trim.

(** C17. The trim boundary never reaches an entry still owed to a worker, even
    when deliveries and acks of any client run between XINFO and XPENDING, or
    between the answer and the XTRIM: whatever is pending or not delivered yet
    when the trim runs is at or above it. *)
Theorem trim_never_below_pending {R : Redis} (V : GroupViews R) (GL : GroupLaws R V) queue (w w' : world) b :
  group_kept (q_key queue) w -> acked_below queue w = (Ok (Some b), w') ->
  exists pb, parse_stream_id b = Some pb /\ forall s, group_step (q_key queue) (server w') s ->
    forall x, unsettled s (q_key queue) x -> id_le pb x.
Proof. apply acked_below_spec. Qed.

Lemma trim_never_below_pending_witness :
  acked_below "q" toy_world = (Ok (Some "4-1"%string), (acked_below "q" toy_world).2) /\
  exists pb, parse_stream_id "4-1" = Some pb.
Proof.
  assert (E1 : (acked_below "q" toy_world).1 = Ok (Some "4-1"%string)) by (vm_compute; reflexivity).
  assert (E : acked_below "q" toy_world = (Ok (Some "4-1"%string), (acked_below "q" toy_world).2))
    by (rewrite <- E1; apply surjective_pairing).
  split; [exact E|].
  destruct (trim_never_below_pending ToyRedis.toy_groups ToyRedis.toy_group_laws "q" toy_world
    (acked_below "q" toy_world).2 "4-1") as (pb & H & _); [constructor|exact E|by exists pb].
Defined.
