(* ===== verification/Tree.v ===== *)
(** The gate on [args] and [kwargs] ([worker/src/dispatch.rs]): a byte scan that
    must refuse exactly what a full [serde_json] parse would, nesting past the
    recursion limit and half a surrogate pair, without building the tree. *)
From S2P Require Import Prelude Float64 Envelope.
Open Scope Z_scope.

Definition is_hex_lower (c : ascii) : bool := is_digit c || ((97 <=? code c) && (code c <=? 102)).

Definition valid_task_id (id : string) : bool :=
  (length (bytes_of id) =? 32)%nat && forallb is_hex_lower (bytes_of id).

Definition MAX_ARG_NESTING : Z := 126.

(** What a call does: its answer, or a panic. [NoFuel] is the model's own. *)
Inductive verdict := Accept | Reject | Panic | NoFuel.

Definition hex_val (c : ascii) : option Z :=
  let x := code c in
  if (48 <=? x) && (x <=? 57) then Some (x - 48)
  else if (97 <=? x) && (x <=? 102) then Some (x - 87)
  else if (65 <=? x) && (x <=? 70) then Some (x - 55)
  else None.

Fixpoint hex_digits (acc : Z) (l : bytes) : option Z :=
  match l with
  | [] => Some acc
  | c :: l' => d ← hex_val c; if 65535 <? 16 * acc + d then None else hex_digits (16 * acc + d) l'
  end.

(** [u16::from_str_radix(_, 16)]: like every Rust integer parse, it takes a [+]. *)
Definition u16_from_hex (l : bytes) : option Z :=
  let l := match l with c :: l' => if Ascii.eqb c "+" then l' else l | [] => l end in
  match l with [] => None | _ => hex_digits 0 l end.

(** [b.get(at..at + 4)] and its value, on the bytes from [at] on. *)
Definition unit4 (l : bytes) : option Z :=
  if (length (take 4 l) =? 4)%nat then u16_from_hex (take 4 l) else None.

Definition trail (u : Z) : bool := (56320 <=? u) && (u <? 57344).
Definition lead (u : Z) : bool := (55296 <=? u) && (u <? 56320).

Definition bs : ascii := "\"%char.
Definition qt : ascii := "034"%char.
Definition is_open (c : ascii) : bool := Ascii.eqb c "[" || Ascii.eqb c "{".
Definition is_close (c : ascii) : bool := Ascii.eqb c "]" || Ascii.eqb c "}".

(** The loop, on the bytes from [i] on. *)
Fixpoint scan (fuel : nat) (depth : Z) (in_str : bool) (rest : bytes) : verdict :=
  match fuel with
  | O => NoFuel
  | S f =>
      match rest with
      | [] => Accept
      | c :: tl =>
          if in_str then
            if Ascii.eqb c bs then
              match tl with
              | [] => Panic
              | d :: tl2 =>
                  if Ascii.eqb d "u" then
                    match unit4 tl2 with
                    | None => Panic
                    | Some u =>
                        let r6 := drop 6 rest in
                        if trail u then Reject
                        else if lead u then
                          if bool_decide (take 2 r6 = [bs; "u"%char]) && bool_decide (trail <$> unit4 (drop 2 r6) = Some true)
                          then scan f depth true (drop 6 r6) else Reject
                        else scan f depth true r6
                    end
                  else scan f depth true tl2
              end
            else if Ascii.eqb c qt then scan f depth false tl
            else scan f depth true tl
          else
            if Ascii.eqb c qt then scan f depth true tl
            else if is_open c then
              if MAX_ARG_NESTING <? depth + 1 then Reject else scan f (depth + 1) false tl
            else if is_close c then scan f (wrap64 (depth - 1)) false tl
            else scan f depth false tl
      end
  end.

Definition run (depth : Z) (in_str : bool) (rest : bytes) : verdict := scan (S (length rest)) depth in_str rest.

(** [b.chunks(255)]; its length is fuel enough. *)
Fixpoint chunks (fuel n : nat) (b : bytes) : list bytes :=
  match fuel, b with
  | S f, _ :: _ => take n b :: chunks f n (drop n b)
  | _, _ => []
  end.

(** The [u8] count of one chunk, wrapping as a release build does. *)
Definition count_u8 (c : bytes) : Z := fold_left (fun n x => (n + (if is_open x then 1 else 0)) mod 256) c 0.

Definition opens (b : bytes) : Z := foldr Z.add 0 (map count_u8 (chunks (length b) 255 b)).

Definition parses_as_tree (b : bytes) : verdict :=
  if (opens b <=? MAX_ARG_NESTING) && negb (existsb (Ascii.eqb bs) b) then Accept
  else run 0 false b.

(** [None] stands for the panic of an index or an [expect]. *)
Definition fits (raw : option string) (open : ascii) : option bool :=
  match raw with
  | None => Some true
  | Some r =>
      match bytes_of r with
      | [] => None
      | c :: _ =>
          if Ascii.eqb c open then
            match parses_as_tree (bytes_of r) with Accept => Some true | Reject => Some false | _ => None end
          else Some false
      end
  end.

Definition args_kwargs_shape_ok (env : Envelope) : option bool :=
  match fits (args env) "[" with
  | Some true => fits (kwargs env) "{"
  | o => o
  end.

(** ** JSON text as bracket structure

    Every JSON text is of this form: strings, brackets, and other bytes that are
    neither. *)

Inductive item :=
| IChar (c : ascii)
| IEsc (c : ascii)
| IHex (u : Z) (h1 h2 h3 h4 : ascii).

Definition item_wf (i : item) : Prop :=
  match i with
  | IChar c => c <> qt /\ c <> bs
  | IEsc c => c <> "u"%char
  | IHex u h1 h2 h3 h4 => u16_from_hex [h1; h2; h3; h4] = Some u
  end.

Definition pr_item (i : item) : bytes :=
  match i with
  | IChar c => [c]
  | IEsc c => [bs; c]
  | IHex _ h1 h2 h3 h4 => [bs; "u"%char; h1; h2; h3; h4]
  end.

Definition pr_items (l : list item) : bytes := concat (map pr_item l).

Inductive forest :=
| FNil
| FPlain (c : ascii) (k : forest)
| FStr (s : list item) (k : forest)
| FNest (obj : bool) (inner k : forest).

Fixpoint forest_wf (F : forest) : Prop :=
  match F with
  | FNil => True
  | FPlain c k => c <> qt /\ is_open c = false /\ is_close c = false /\ forest_wf k
  | FStr s k => Forall item_wf s /\ forest_wf k
  | FNest _ i k => forest_wf i /\ forest_wf k
  end.

Fixpoint pr (F : forest) : bytes :=
  match F with
  | FNil => []
  | FPlain c k => c :: pr k
  | FStr s k => qt :: pr_items s ++ qt :: pr k
  | FNest o i k => (if o then "{" else "[")%char :: pr i ++ (if o then "}" else "]")%char :: pr k
  end.

(** Surrogate units come in pairs, lead then trail. *)
Fixpoint surr_ok (l : list item) : bool :=
  match l with
  | [] => true
  | IHex u _ _ _ _ :: l' =>
      if trail u then false
      else if lead u then match l' with IHex v _ _ _ _ :: l'' => trail v && surr_ok l'' | _ => false end
      else surr_ok l'
  | _ :: l' => surr_ok l'
  end.

(** What a full parse of the envelope accepts of a value with [d] brackets open:
    with the envelope's own, at most the levels [serde_json] recurses into, and
    paired surrogates in every string. The map keys [serde_json] reserves for its
    number and raw value types ([$serde_json::private::]) are left aside: a tree
    parse takes them for its own, the gate for text. *)
Definition SERDE_JSON_LEVELS : Z := 127.

Fixpoint tree_ok (d : Z) (F : forest) : bool :=
  match F with
  | FNil => true
  | FPlain _ k => tree_ok d k
  | FStr s k => surr_ok s && tree_ok d k
  | FNest _ i k => (1 + (d + 1) <=? SERDE_JSON_LEVELS) && tree_ok (d + 1) i && tree_ok d k
  end.

(** The gate's limit is that, less the envelope. *)
Lemma nesting_leb d : (1 + (d + 1) <=? SERDE_JSON_LEVELS) = (d + 1 <=? MAX_ARG_NESTING).
Proof. unfold SERDE_JSON_LEVELS, MAX_ARG_NESTING. apply Bool.eq_iff_eq_true. rewrite !Z.leb_le. lia. Qed.

(** ** The scan *)

Lemma scan_fuel f : forall f' depth s r, (length r < f)%nat -> (length r < f')%nat -> scan f depth s r = scan f' depth s r.
Proof.
  induction f as [|f IH]; intros [|f'] depth s r H1 H2; try lia. cbn [scan].
  destruct r as [|c tl]; [done|]. cbn [length] in *.
  destruct s, (Ascii.eqb c bs) eqn:?; cbn [drop].
  all: repeat case_match; try done; subst; apply IH; cbn [length] in *; rewrite ?length_drop; cbn [length]; lia.
Qed.

Lemma run_cons depth s c tl : run depth s (c :: tl) =
  if s then
    if Ascii.eqb c bs then
      match tl with
      | [] => Panic
      | d :: tl2 =>
          if Ascii.eqb d "u" then
            match unit4 tl2 with
            | None => Panic
            | Some u =>
                if trail u then Reject
                else if lead u then
                  if bool_decide (take 2 (drop 4 tl2) = [bs; "u"%char]) && bool_decide (trail <$> unit4 (drop 2 (drop 4 tl2)) = Some true)
                  then run depth true (drop 6 (drop 4 tl2)) else Reject
                else run depth true (drop 4 tl2)
            end
          else run depth true tl2
      end
    else if Ascii.eqb c qt then run depth false tl
    else run depth true tl
  else
    if Ascii.eqb c qt then run depth true tl
    else if is_open c then
      if MAX_ARG_NESTING <? depth + 1 then Reject else run (depth + 1) false tl
    else if is_close c then run (wrap64 (depth - 1)) false tl
    else run depth false tl.
Proof.
  unfold run at 1. remember (length (c :: tl)) as n eqn:En. cbn [scan]. cbn [length] in En. destruct s.
  - destruct (Ascii.eqb c bs).
    + destruct tl as [|e tl2]; [done|]. cbn [drop]. cbn [length] in En. destruct (Ascii.eqb e "u").
      * destruct (unit4 tl2) as [u|]; [|done]. destruct (trail u); [done|]. destruct (lead u).
        -- destruct (_ && _); [|done]. apply scan_fuel; rewrite ?length_drop; lia.
        -- apply scan_fuel; rewrite ?length_drop; lia.
      * apply scan_fuel; lia.
    + destruct (Ascii.eqb c qt); apply scan_fuel; lia.
  - destruct (Ascii.eqb c qt); [apply scan_fuel; lia|]. destruct (is_open c).
    + destruct (_ <? _); [done|]. apply scan_fuel; lia.
    + destruct (is_close c); apply scan_fuel; lia.
Qed.

Lemma eqb_ne (a b : ascii) : a <> b -> Ascii.eqb a b = false.
Proof. intros H. by destruct (Ascii.eqb_spec a b). Qed.

Lemma unit4_hex u h1 h2 h3 h4 tl : u16_from_hex [h1; h2; h3; h4] = Some u ->
  unit4 (h1 :: h2 :: h3 :: h4 :: tl) = Some u.
Proof. intros H. exact H. Qed.

(** The scan of a string's inside, up to and past its closing quote. *)
Lemma run_items n : forall s depth tl, (length s <= n)%nat -> Forall item_wf s ->
  run depth true (pr_items s ++ qt :: tl) = if surr_ok s then run depth false tl else Reject.
Proof.
  induction n as [|n IH]; intros [|i s] depth tl Hn HF; cbn [length] in Hn; try lia.
  1,2: change (pr_items [] ++ qt :: tl) with (qt :: tl); by rewrite run_cons.
  inversion HF as [|?? Hi HF']; subst. change (pr_items (i :: s)) with (pr_item i ++ pr_items s).
  destruct i as [c|c|u h1 h2 h3 h4]; cbn [pr_item app surr_ok item_wf] in *; rewrite run_cons.
  - destruct Hi. rewrite !eqb_ne by done. apply IH; [lia|done].
  - change (Ascii.eqb bs bs) with true. cbv beta iota. rewrite eqb_ne by done. apply IH; [lia|done].
  - change (Ascii.eqb bs bs) with true. change (Ascii.eqb "u" "u") with true. cbv beta iota.
    rewrite (unit4_hex u) by done. cbn [drop].
    destruct (trail u); [done|]. destruct (lead u); [|apply IH; [lia|done]].
    destruct s as [|j s].
    + cbn [pr_items map concat app take]. rewrite bool_decide_eq_false_2; [done|]. destruct tl; discriminate.
    + inversion HF' as [|?? Hj HF'']; subst. change (pr_items (j :: s)) with (pr_item j ++ pr_items s).
      destruct j as [c|c|v g1 g2 g3 g4]; cbn [pr_item app item_wf] in *.
      * destruct Hj. rewrite bool_decide_eq_false_2; [done|]. cbn. destruct (pr_items s ++ qt :: tl); cbn; congruence.
      * rewrite bool_decide_eq_false_2; [done|]. cbn. congruence.
      * cbn [take drop]. rewrite bool_decide_eq_true_2 by done. rewrite (unit4_hex v) by done. cbn [fmap option_fmap option_map].
        cbn [andb length] in *. destruct (trail v); cbn [andb]; [|done].
        rewrite bool_decide_eq_true_2 by done. cbn [drop]. apply IH; [lia|done].
Qed.

Lemma run_forest F : forall d tl, forest_wf F -> 0 <= d <= MAX_ARG_NESTING ->
  run d false (pr F ++ tl) = if tree_ok d F then run d false tl else Reject.
Proof.
  induction F as [|c k IH|s k IH|o i IHi k IHk]; intros d tl HF Hd; cbn [pr app forest_wf tree_ok] in *.
  - done.
  - destruct HF as (H1 & H2 & H3 & H4). rewrite run_cons, (eqb_ne _ _ H1), H2, H3. by apply IH.
  - destruct HF as [H1 H2]. rewrite run_cons. change (Ascii.eqb qt qt) with true. cbv beta iota.
    rewrite <- app_assoc. cbn [app]. rewrite (run_items (length s)) by done.
    destruct (surr_ok s); [|done]. by apply IH.
  - destruct HF as [H1 H2]. rewrite run_cons.
    replace (Ascii.eqb (if o then "{" else "[") qt)%char with false by (by destruct o).
    replace (is_open (if o then "{" else "[")%char) with true by (by destruct o).
    rewrite nesting_leb. destruct (Z.ltb_spec MAX_ARG_NESTING (d + 1)).
    + by rewrite (proj2 (Z.leb_gt (d + 1) MAX_ARG_NESTING)).
    + rewrite (proj2 (Z.leb_le (d + 1) MAX_ARG_NESTING)) by done. rewrite <- app_assoc. cbn [app andb].
      rewrite IHi by (done || lia). destruct (tree_ok (d + 1) i); [|done]. rewrite run_cons.
      replace (Ascii.eqb (if o then "}" else "]") qt)%char with false by (by destruct o).
      replace (is_open (if o then "}" else "]")%char) with false by (by destruct o).
      replace (is_close (if o then "}" else "]")%char) with true by (by destruct o).
      replace (wrap64 (d + 1 - 1)) with d by (unfold wrap64, MAX_ARG_NESTING in *; rewrite Z.mod_small; lia).
      by apply IHk.
Qed.

(** ** The fast path *)

Lemma count_u8_exact c : (length c <= 255)%nat -> count_u8 c = Z.of_nat (length (filter (fun x => is_open x) c)).
Proof.
  unfold count_u8. intros H.
  assert (HG : forall l n, 0 <= n -> n + Z.of_nat (length l) <= 255 ->
    fold_left (fun n x => (n + (if is_open x then 1 else 0)) mod 256) l n =
    n + Z.of_nat (length (filter (fun x => is_open x) l))).
  { clear. induction l as [|x l IH]; intros n Hn Hl; cbn [fold_left]; [cbn; lia|]. cbn [length] in Hl.
    rewrite Z.mod_small by (destruct (is_open x); lia). rewrite IH by (destruct (is_open x); lia).
    rewrite filter_cons. destruct (is_open x) eqn:E; cbn [decide]; case_decide; rewrite ?E in *; try done; cbn [length]; lia. }
  rewrite HG; lia.
Qed.

Lemma chunks_sum fuel b : (length b <= fuel)%nat ->
  foldr Z.add 0 (map count_u8 (chunks fuel 255 b)) = Z.of_nat (length (filter (fun x => is_open x) b)).
Proof.
  revert b. induction fuel as [|f IH]; intros [|x b] H; try done; cbn [length] in H; [lia|].
  cbn [chunks map foldr]. rewrite IH by (rewrite length_drop; cbn [length]; lia).
  rewrite count_u8_exact by (rewrite length_take; lia).
  rewrite <- (take_drop 255 (x :: b)) at 3. rewrite filter_app, length_app. lia.
Qed.

(** The vectorised count is exact: no chunk overflows its [u8]. *)
Lemma opens_exact b : opens b = Z.of_nat (length (filter (fun x => is_open x) b)).
Proof. by apply chunks_sum. Qed.

Lemma fast_path_ok F : forall d, 0 <= d -> forest_wf F ->
  d + Z.of_nat (length (filter (fun x => is_open x) (pr F))) <= MAX_ARG_NESTING ->
  existsb (Ascii.eqb bs) (pr F) = false -> tree_ok d F = true.
Proof.
  assert (HI : forall s, existsb (Ascii.eqb bs) (pr_items s) = false -> surr_ok s = true).
  { induction s as [|i s IH]; [done|]. change (pr_items (i :: s)) with (pr_item i ++ pr_items s).
    rewrite existsb_app. intros [H1 H2]%orb_false_iff. destruct i; [by apply IH|discriminate|discriminate]. }
  induction F as [|c k IH|s k IH|o i IHi k IHk]; intros d Hd HF Hn He; cbn [pr forest_wf tree_ok] in *; [done|..].
  - cbn [existsb] in He. apply orb_false_iff in He as [_ He]. destruct HF as (_ & H & _ & HF).
    rewrite filter_cons_False in Hn by (cbn beta; rewrite H; by intros []). apply IH; done || lia.
  - cbn [existsb] in He. rewrite existsb_app in He. cbn [existsb] in He.
    apply orb_false_iff in He as [_ He]. apply orb_false_iff in He as [He1 He2]. apply orb_false_iff in He2 as [_ He2].
    rewrite HI by done. destruct HF as [_ HF]. apply IH; try done.
    rewrite filter_cons_False in Hn by (intros H; exact H).
    rewrite filter_app, length_app, filter_cons_False in Hn by (intros H; exact H). lia.
  - cbn [existsb] in He. rewrite existsb_app in He. cbn [existsb] in He.
    apply orb_false_iff in He as [_ He]. apply orb_false_iff in He as [He1 He2]. apply orb_false_iff in He2 as [_ He2].
    rewrite filter_cons_True in Hn by (destruct o; exact I). cbn [length] in Hn.
    rewrite filter_app, length_app, filter_cons_False in Hn by (destruct o; intros H; exact H). destruct HF as [H1 H2].
    rewrite nesting_leb, (proj2 (Z.leb_le _ _)) by lia. rewrite IHi by (done || lia). apply IHk; try done; lia.
Qed.

Lemma parses_exact F : forest_wf F -> parses_as_tree (pr F) = if tree_ok 0 F then Accept else Reject.
Proof.
  intros HF. unfold parses_as_tree.
  assert (HR : run 0 false (pr F) = if tree_ok 0 F then Accept else Reject).
  { pose proof (run_forest F 0 [] HF ltac:(unfold MAX_ARG_NESTING; lia)) as H. rewrite app_nil_r in H. exact H. }
  destruct ((opens (pr F) <=? MAX_ARG_NESTING) && negb (existsb (Ascii.eqb bs) (pr F))) eqn:E; [|done].
  apply andb_true_iff in E as [E1 E2]. apply negb_true_iff in E2. rewrite opens_exact in E1.
  rewrite (fast_path_ok F 0); [done|lia|done|lia|done].
Qed.

(** Text of a JSON value, as a raw capture leaves it. *)
Definition json_text (t : string) : Prop := exists F, forest_wf F /\ bytes_of t = pr F /\ bytes_of t <> [].

(** The shape check answers on captured JSON. *)
Lemma shape_total env :
  (forall t, args env = Some t -> json_text t) -> (forall t, kwargs env = Some t -> json_text t) ->
  args_kwargs_shape_ok env <> None.
Proof.
  assert (HF : forall raw c, (forall t, raw = Some t -> json_text t) -> fits raw c <> None).
  { intros [t|] c H; [|done]. destruct (H t eq_refl) as (F & HF & E & N). unfold fits. rewrite E in *.
    destruct (pr F) as [|b l] eqn:Ep; [done|]. destruct (Ascii.eqb b c); [|done].
    rewrite <- Ep, parses_exact by done. by destruct (tree_ok 0 F). }
  intros Ha Hk. unfold args_kwargs_shape_ok. pose proof (HF (args env) "["%char Ha).
  destruct (fits (args env) "[") as [[]|]; [by apply HF|done|done].
Qed.

(** C26. The gate refuses exactly what the full parse it replaces refuses, on
    every JSON text: nesting past the limit, or an unpaired surrogate escape,
    anywhere in it, keys included ([serde_json]'s private map keys aside). It
    never panics, whichever path it takes. *)
Theorem tree_scan_exact F : forest_wf F ->
  parses_as_tree (pr F) = if tree_ok 0 F then Accept else Reject.
Proof. apply parses_exact. Qed.

(** [[1,"\ud83d\ude00"]] and [["\ud83d"]]. *)
Definition paired : forest :=
  FNest false (FPlain "1" (FPlain "," (FStr [IHex 55357 "d" "8" "3" "d"; IHex 56832 "d" "e" "0" "0"] FNil))) FNil.
Definition unpaired : forest := FNest false (FStr [IHex 55357 "d" "8" "3" "d"] FNil) FNil.

Lemma tree_scan_exact_witness : parses_as_tree (pr paired) = Accept /\ parses_as_tree (pr unpaired) = Reject.
Proof.
  split.
  - rewrite (tree_scan_exact paired); [reflexivity|]. cbn. repeat (split || constructor); reflexivity || discriminate.
  - rewrite (tree_scan_exact unpaired); [reflexivity|]. cbn. repeat (split || constructor); reflexivity || discriminate.
Defined.
