(* ===== verification/PyJson.v ===== *)
(** The JSON type gate on task results ([worker/src/pyjson.rs]): a walk of the
    Python object graph, a heap in which objects may be shared or cyclic. *)
From S2P Require Import Prelude Float64.
From Stdlib Require Import QArith.
Open Scope Z_scope.

Definition MAX_DEPTH : nat := 128.

Abbreviation ref := positive.

(** Objects by the downcast they answer to, in the order the walk asks. *)
Inductive pyobj :=
| PyNone
| PyBool (b : bool)
| PyInt (n : Z)
| PyStr (s : string)
| PyFloat (x : f64)
| PyDict (items : list (ref * ref))
| PyList (l : list ref)
| PyTuple (l : list ref)
| PyOther (type_name : string).

Inductive ConvError :=
| TooDeep
| NotFinite
| KeyNotStr (key : ref)
| NotSerializable (type_name : string).

Abbreviation heap := (ref -> pyobj).

Definition is_str (o : pyobj) : bool := match o with PyStr _ => true | _ => false end.

Section gate.
Context (h : heap).

(** [try_for_each], and the dict loop: the first error ends the walk. *)
Fixpoint each {A} (f : A -> result ConvError unit) (l : list A) : result ConvError unit :=
  match l with
  | [] => Ok tt
  | x :: l' => match f x with Ok _ => each f l' | Err e => Err e end
  end.

(** [left] is [MAX_DEPTH + 1 - depth], so [O] is [depth > MAX_DEPTH]. *)
Fixpoint check (left : nat) (r : ref) : result ConvError unit :=
  match left with
  | O => Err TooDeep
  | S left' =>
      match h r with
      | PyNone | PyBool _ | PyInt _ | PyStr _ => Ok tt
      | PyFloat x => if is_finite x then Ok tt else Err NotFinite
      | PyDict items =>
          each (fun kv => if is_str (h kv.1) then check left' kv.2 else Err (KeyNotStr kv.1)) items
      | PyList l => each (check left') l
      | PyTuple l => each (check left') l
      | PyOther t => Err (NotSerializable t)
      end
  end.

Definition check_json (r : ref) (depth : nat) : result ConvError unit := check (MAX_DEPTH + 1 - depth) r.

(** ** What the protocol allows *)

Definition children (o : pyobj) : list ref :=
  match o with PyDict items => snd <$> items | PyList l | PyTuple l => l | _ => [] end.

Definition shape_ok (o : pyobj) : Prop :=
  match o with
  | PyFloat x => is_finite x = true
  | PyDict items => Forall (fun kv => is_str (h kv.1) = true) items
  | PyOther _ => False
  | _ => True
  end.

(** A JSON value of at most [n] levels. *)
Inductive jsonable : nat -> ref -> Prop :=
| jsonable_node n r : shape_ok (h r) -> (forall c, c ∈ children (h r) -> jsonable n c) -> jsonable (S n) r.

Lemma each_ok {A} (f : A -> result ConvError unit) l : each f l = Ok tt <-> forall x, x ∈ l -> f x = Ok tt.
Proof.
  induction l as [|x l IH]; cbn; [split; [intros _ x Hx; by apply not_elem_of_nil in Hx|done]|].
  destruct (f x) as [[]|e] eqn:E; [rewrite IH|].
  - split; [intros H y [->|Hy]%elem_of_cons; auto|intros H y Hy; apply H; by apply list_elem_of_further].
  - split; [done|]. intros H. rewrite <- E. apply H. by apply list_elem_of_here.
Qed.

Lemma check_spec n : forall r, check n r = Ok tt <-> jsonable n r.
Proof.
  induction n as [|n IH]; intros r; cbn [check]; [split; [done|inversion 1]|].
  assert (HI : jsonable (S n) r <-> shape_ok (h r) /\ forall c, c ∈ children (h r) -> check n c = Ok tt).
  { split.
    - intros H. inversion H as [m r' H1 H2]; subst. split; [exact H1|]. intros c Hc. apply IH. by apply H2.
    - intros [H1 H2]. constructor; [exact H1|]. intros c Hc. apply IH. by apply H2. }
  rewrite HI. destruct (h r) as [| | | |x|items|l|l|t]; cbn [children shape_ok].
  1-4: split; [split; [done|intros c Hc; by apply not_elem_of_nil in Hc]|done].
  - destruct (is_finite x); split; try done; [split; [done|intros c Hc; by apply not_elem_of_nil in Hc]|by intros []].
  - rewrite each_ok. split.
    + intros H. split.
      * apply Forall_forall. intros kv Hin. specialize (H kv Hin). by destruct (is_str _).
      * intros c (kv & -> & Hin)%list_elem_of_fmap. specialize (H kv Hin). by destruct (is_str _).
    + intros [H1 H2] kv Hin. rewrite Forall_forall in H1. rewrite (H1 kv Hin). apply H2. by apply list_elem_of_fmap_2.
  - rewrite each_ok. tauto.
  - rewrite each_ok. tauto.
  - split; [done|tauto].
Qed.

(** [c] is reached from [r] by at least one step. *)
Inductive reaches : ref -> ref -> Prop :=
| reaches_child r c : c ∈ children (h r) -> reaches r c
| reaches_trans r c d : c ∈ children (h r) -> reaches c d -> reaches r d.

Lemma jsonable_reach r c : reaches r c -> forall n, jsonable n r -> exists m, (m < n)%nat /\ jsonable m c.
Proof.
  induction 1 as [r c Hc|r c d Hc _ IH]; intros n Hn; inversion Hn as [m r' _ Hk]; subst.
  - exists m. split; [lia|]. by apply Hk.
  - destruct (IH m (Hk _ Hc)) as (k & ? & ?). exists k. split; [lia|done].
Qed.

Lemma jsonable_acyclic n : forall r, jsonable n r -> ~ reaches r r.
Proof.
  induction n as [n IH] using lt_wf_ind. intros r Hr Hc. destruct (jsonable_reach r r Hc n Hr) as (m & Hm & H).
  by apply (IH m Hm r H).
Qed.

(** C40. The gate accepts exactly the values the protocol allows: only JSON
    types, string keys and finite floats, at most 129 levels; in particular it
    terminates on, and refuses, every value that contains itself. *)
Theorem check_json_exact r :
  (check_json r 0 = Ok tt <-> jsonable (MAX_DEPTH + 1) r) /\
  (forall c, (r = c \/ reaches r c) -> reaches c c -> check_json r 0 <> Ok tt).
Proof.
  unfold check_json. rewrite Nat.sub_0_r. split; [apply check_spec|].
  intros c Hrc Hc H. apply check_spec in H. destruct Hrc as [->|Hrc].
  - by apply (jsonable_acyclic _ _ H).
  - destruct (jsonable_reach _ _ Hrc _ H) as (m & _ & Hm). by apply (jsonable_acyclic _ _ Hm).
Qed.
End gate.

Example shared_is_fine :
  check_json (fun r => match r with 1%positive => PyList [2; 2]%positive | _ => PyFloat (Fin (1 # 2)) end) 1 0 = Ok tt.
Proof. reflexivity. Qed.
Example cyclic_refused : check_json (fun r => PyList [r]) 1 0 = Err TooDeep.
Proof. reflexivity. Qed.
