(* ===== verification/Pyrt.v ===== *)
(** The embedded Python runtime ([worker/src/pyrt.rs]): outcomes from Python
    objects, the pending completions of the async lane, and the sync lane's
    thread pool with its one-standby job queue. *)
From S2P Require Import Prelude Float64 Envelope Stats Ctx PyJson.
Open Scope Z_scope.

(** ** Registry and configuration *)

Record TaskSpec := { ts_kind : string; ts_is_async : bool; ts_timeout_ms : Z }.

Record AppConfig := {
  redis_url : string; default_queue : string; cfg_result_ttl : Z; cfg_idemp_ttl : Z;
  cfg_queue_ttl : gmap string f64; cfg_tasks : gmap string TaskSpec;
}.

Record TaskMeta := { tm_id : string; tm_retries : Z; tm_max_retries : Z; tm_queue : string }.

(** ** Python objects *)

(** What [pyo3] and [msgspec] answer about an object: item access, extraction,
    the codec. *)
Class Py := {
  obj : Type;
  get_item : obj -> string -> option obj;
  as_bool : obj -> option bool;
  as_f64 : obj -> option f64;
  as_str : obj -> option string;
  is_none : obj -> bool;
  gate : obj -> result string unit;
  encode : obj -> result string string;
  decode : string -> result string obj;
  empty_list : obj;
  empty_dict : obj;
}.

Definition MAX_PYERR_CHARS : nat := 8192.

(** [pyerr_string]: the text, and the traceback when there is one, bounded. *)
Definition pyerr_string (text : string) (traceback : option string) : string :=
  let s := match traceback with Some t => text +:+ String "010" t | None => text end in
  str_of (safe_truncate (bytes_of s) MAX_PYERR_CHARS).

Section outcomes.
Context `{Py}.

Definition decode_text (text : string) : result string obj :=
  if String.eqb text "[]" then Ok empty_list
  else if String.eqb text "{}" then Ok empty_dict
  else decode text.

Definition serialization_failure (what : string) : Outcome := Failure (error_new "SerializationError" what) false.

Definition encode_result (r : obj) : Outcome :=
  if is_none r then Success "null" else
  match gate r ≫= fun _ => encode r with
  | Ok json => Success json
  | Err msg => serialization_failure ("task result is not JSON serializable: " +:+ msg)
  end.

Definition flag (o : obj) (k : string) : bool := default false (get_item o k ≫= as_bool).

Definition error_from_py (e : obj) : option ErrorJson :=
  let f k := default ""%string (get_item e k ≫= as_str) in
  let ty := f "type"%string in
  if String.eqb ty "" then None
  else Some {| type_ := ty; message := f "message"%string; traceback := f "traceback"%string; origin := f "origin"%string |}.

Definition outcome_from_py (o : obj) : Outcome :=
  if flag o "ok" then
    match get_item o "result" with Some r => encode_result r | None => Success "null" end
  else
    let err := default (error_new "UnknownError" "executor reported failure without error")
                 (get_item o "error" ≫= error_from_py) in
    if flag o "retry" then ForceRetry (get_item o "countdown" ≫= as_f64) err
    else Failure err (default (negb (String.eqb (type_ err) "SerializationError")) (get_item o "retryable" ≫= as_bool)).

Definition args_failure_outcome (e : string) : Outcome :=
  serialization_failure ("task arguments are not JSON serializable: " +:+ e).

(** [run_sync_blocking]: [run_sync] is the shim's function. *)
Definition run_sync_blocking (run_sync : string -> obj -> obj -> option Z -> option TaskMeta -> result string obj)
    (name args kwargs : string) (soft_timeout_ms : option Z) (meta : option TaskMeta) : Outcome :=
  match decode_text args with
  | Err e => args_failure_outcome e
  | Ok a =>
      match decode_text kwargs with
      | Err e => args_failure_outcome e
      | Ok k =>
          match run_sync name a k soft_timeout_ms meta with
          | Ok out => outcome_from_py out
          | Err e => Failure (error_new "WorkerShimError" ("run_sync failed: " +:+ e)) true
          end
      end
  end.
End outcomes.

(** A shim response both as the dict of the io lanes and as the JSON line of the
    cpu lane. *)
Record same_response `{Py} (o : obj) (r : PyResp) : Prop := {
  sr_ok : (get_item o "ok" ≫= as_bool) = Some (pr_ok r);
  sr_retry : default false (get_item o "retry" ≫= as_bool) = pr_retry r;
  sr_countdown : (get_item o "countdown" ≫= as_f64) = pr_countdown r;
  sr_retryable : (get_item o "retryable" ≫= as_bool) = pr_retryable r;
  sr_result : match get_item o "result" with
    | Some v => pr_result r = Some (match encode_result v with Success j => j | _ => ""%string end) /\
        exists j, encode_result v = Success j
    | None => pr_result r = None end;
  sr_error : (get_item o "error" ≫= error_from_py) = pr_error r;
}.

(** The two readings of a shim response agree, as the source asks ("keep
    the two in step"): on a dict and a response line with the same fields,
    [outcome_from_py] and [parse_pyresp] give the same outcome. *)
Theorem outcome_readings_agree `{P : Py} o r de line :
  same_response o r -> de line = Ok r -> outcome_from_py o = parse_pyresp de line false.
Proof.
  intros [] Hl. unfold parse_pyresp, outcome_from_py, flag. rewrite Hl, sr_ok0, sr_retry0, sr_countdown0, sr_error0.
  cbn [default from_option id andb]. rewrite orb_false_r. destruct (pr_ok r) eqn:Eo; cbn.
  - destruct (get_item o "result") as [v|].
    + destruct sr_result0 as [-> [j ->]]. done.
    + by rewrite sr_result0.
  - destruct (pr_retry r); [done|]. by rewrite sr_retryable0.
Qed.

(** A dict of strings, for the witness. *)
Definition toy_py : Py := {|
  obj := list (string * string) + string;
  get_item o k := match o with inl l => inr <$> assoc k l | inr _ => None end;
  as_bool o := match o with inr s => if String.eqb s "true" then Some true else if String.eqb s "false" then Some false else None | _ => None end;
  as_f64 _ := None; as_str o := match o with inr s => Some s | _ => None end;
  is_none _ := false; gate _ := Ok tt;
  encode o := match o with inr s => Ok s | _ => Err ""%string end;
  decode s := Ok (inr s); empty_list := inl []; empty_dict := inl [];
|}.

Lemma outcome_readings_agree_witness :
  let r := {| pr_ok := true; pr_result := Some "7"%string; pr_error := None; pr_retry := false; pr_countdown := None; pr_retryable := None |} in
  @outcome_from_py toy_py (inl [("ok", "true"); ("result", "7")]%string) = parse_pyresp (fun _ => Ok r) "x" false.
Proof.
  intros r. apply (outcome_readings_agree (P := toy_py) _ r (fun _ => Ok r) "x"); [|reflexivity].
  split; try reflexivity. cbn. split; [reflexivity|by eexists].
Defined.

(** ** Pending completions *)

(** The map of senders by token, the next token, and what was delivered. *)
Record pending := {
  slots : gset Z;
  next_token : Z;
  delivered : list (Z * Outcome);
}.

Definition pending_init : pending := {| slots := ∅; next_token := 1; delivered := [] |}.

(** [queue_submit]: the slot is inserted before the job is sent. *)
Definition queue_submit (p : pending) : Z * pending :=
  (next_token p, {| slots := {[next_token p]} ∪ slots p; next_token := next_token p + 1; delivered := delivered p |}).

(** [complete_pending], and the completion callback. *)
Definition complete_pending (p : pending) (token : Z) (o : Outcome) : pending :=
  if bool_decide (token ∈ slots p)
  then {| slots := slots p ∖ {[token]}; next_token := next_token p; delivered := delivered p ++ [(token, o)] |}
  else p.

Definition fail_pending (p : pending) (token : Z) (msg : string) : pending :=
  complete_pending p token (Failure (error_new "WorkerShimError" msg) true).

Definition cancel (p : pending) (token : Z) : pending :=
  {| slots := slots p ∖ {[token]}; next_token := next_token p; delivered := delivered p |}.

Record SubmitJob := {
  job_token : Z; job_name : string; job_args : string; job_kwargs : string;
  job_timeout_s : f64; job_soft_timeout_s : option f64; job_meta : option TaskMeta;
}.

(** How the shim took one job: scheduled, its queue full, or another error. *)
Inductive shim_reply := Scheduled | AsyncQueueFull (e : string) | ShimError (e : string).

(** [submit_batch_under_gil]: the failures and argument failures it collects,
    and the new count of [async_rejected]; [None] when the shim has no
    [submit_async]. *)
Definition submit_batch `{Py} (submit_async : option (SubmitJob -> obj -> obj -> shim_reply)) (broken : string)
    (batch : list SubmitJob) (rejected : Z) : (list (Z * string) * list (Z * Outcome)) * Z :=
  match submit_async with
  | None => ((fun j => (job_token j, broken)) <$> batch, [], rejected)
  | Some submit =>
      fold_left (fun '(failed, args_failed, n) j =>
        match decode_text (job_args j) with
        | Err e => (failed, args_failed ++ [(job_token j, args_failure_outcome e)], n)
        | Ok a =>
            match decode_text (job_kwargs j) with
            | Err e => (failed, args_failed ++ [(job_token j, args_failure_outcome e)], n)
            | Ok k =>
                match submit j a k with
                | Scheduled => (failed, args_failed, n)
                | AsyncQueueFull e => (failed ++ [(job_token j, e)], args_failed, n + 1)
                | ShimError e => (failed ++ [(job_token j, e)], args_failed, n)
                end
            end
        end) batch ([], [], rejected)
  end.

Definition finish_batch (p : pending) (r : list (Z * string) * list (Z * Outcome)) : pending :=
  let p := fold_left (fun p f => fail_pending p f.1 ("submit_async failed: " +:+ f.2)) r.1 p in
  fold_left (fun p f => complete_pending p f.1 f.2) r.2 p.

Definition DRAIN_MAX : nat := 128.

(** One turn of the submitter thread: the first job, then what is queued. *)
Definition drain (queued : list SubmitJob) : list SubmitJob * list SubmitJob := (take DRAIN_MAX queued, drop DRAIN_MAX queued).

Inductive pending_event :=
| PSubmit
| PComplete (token : Z) (o : Outcome)
| PCancel (token : Z).

Definition pending_step (p : pending) (e : pending_event) : pending :=
  match e with
  | PSubmit => (queue_submit p).2
  | PComplete t o => complete_pending p t o
  | PCancel t => cancel p t
  end.

(** Slots and delivered tokens are disjoint, below the next token, and no token
    is delivered twice. *)
Definition pending_inv (p : pending) : Prop :=
  NoDup (delivered p).*1 /\
  (forall t, t ∈ slots p -> t < next_token p /\ t ∉ (delivered p).*1) /\
  (forall t, t ∈ (delivered p).*1 -> t < next_token p).

Lemma pending_inv_step p e : pending_inv p -> pending_inv (pending_step p e).
Proof.
  intros (H1 & H2 & H3). destruct e as [|t o|t]; cbn.
  - split_and!; cbn; [done| |].
    + intros t Ht. apply elem_of_union in Ht as [->%elem_of_singleton|Ht]; [split; [lia|]|destruct (H2 t Ht); split; [lia|done]].
      intros Hd. specialize (H3 _ Hd). lia.
    + intros t Ht. specialize (H3 t Ht). lia.
  - unfold complete_pending. case_bool_decide as Ht; [|done]. destruct (H2 t Ht) as [Hl Hn].
    split_and!; cbn; rewrite ?fmap_app.
    + apply NoDup_app. split_and!; [done| |repeat constructor; set_solver]. set_solver.
    + intros x Hx. destruct (H2 x) as [? ?]; [set_solver|]. split; [done|]. set_solver.
    + intros x [Hx|Hx]%elem_of_app; [by apply H3|]. cbn in Hx. apply list_elem_of_singleton in Hx. lia.
  - split_and!; cbn; [done| |done]. intros x Hx. apply H2. set_solver.
Qed.

Lemma pending_inv_run es : forall p, pending_inv p -> pending_inv (fold_left pending_step es p).
Proof. induction es; intros; cbn; auto using pending_inv_step. Qed.

(** However submissions, callbacks, submitter failures and backstop
    cancellations interleave, a token is completed at most once, and a
    cancelled one is never completed after. *)
Theorem pending_completed_once es es' t :
  let p := fold_left pending_step es pending_init in
  NoDup (delivered p).*1 /\
  (t ∈ (delivered (fold_left pending_step es' (cancel p t))).*1 -> t < next_token p -> t ∈ (delivered p).*1).
Proof.
  intros p. assert (HI : pending_inv p).
  { apply pending_inv_run. split_and!; cbn; [constructor|set_solver|set_solver]. }
  split; [apply HI|]. intros Hd Hlt.
  assert (HG : forall es q, t ∉ slots q -> t < next_token q -> t ∈ (delivered (fold_left pending_step es q)).*1 -> t ∈ (delivered q).*1).
  { clear. induction es as [|e es IH]; intros q Hs Hlt; [done|]. cbn. intros H.
    apply IH in H.
    - destruct e as [|x o|x]; cbn in H; [done| |done]. unfold complete_pending in H. case_bool_decide; [|done].
      cbn in H. rewrite fmap_app in H. apply elem_of_app in H as [H|H]; [done|]. cbn in H.
      apply list_elem_of_singleton in H as ->. done.
    - destruct e as [|x o|x]; cbn; [set_unfold; intros [->|?]; [lia|done]| |set_solver].
      unfold complete_pending. case_bool_decide; cbn; set_solver.
    - destruct e as [|x o|x]; cbn; [lia| |done]. unfold complete_pending. case_bool_decide; cbn; lia. }
  apply (HG es' (cancel p t)); [set_solver|done|done].
Qed.

Lemma pending_completed_once_witness :
  let p := fold_left pending_step [PSubmit; PSubmit; PComplete 1 (Success "1")] pending_init in
  NoDup (delivered p).*1.
Proof. intros p. apply (pending_completed_once [PSubmit; PSubmit; PComplete 1 (Success "1")] [] 1). Defined.

(** A submitted batch accounts for every job: each either reached the shim's
    loop or is completed by the submitter, argument failures terminally and
    submission failures retryably, and nothing else is completed. *)
Theorem batch_accounts_for_every_job `{P : Py} submit broken batch rejected :
  let '((failed, args_failed), n) := submit_batch submit broken batch rejected in
  (forall j, j ∈ batch -> job_token j ∈ failed.*1 \/ job_token j ∈ args_failed.*1 \/
     exists a k f, submit = Some f /\ decode_text (job_args j) = Ok a /\ decode_text (job_kwargs j) = Ok k /\ f j a k = Scheduled) /\
  (forall t, t ∈ failed.*1 \/ t ∈ args_failed.*1 -> exists j, j ∈ batch /\ job_token j = t) /\
  (forall t o, (t, o) ∈ args_failed -> exists e, o = Failure e false) /\
  (length failed + length args_failed <= length batch)%nat /\ rejected <= n <= rejected + Z.of_nat (length failed).
Proof.
  unfold submit_batch. destruct submit as [submit|].
  2: { split_and!; cbn; rewrite ?length_fmap; try lia.
       - intros j Hj. left. rewrite <- list_fmap_compose. by apply (list_elem_of_fmap_2 (fst ∘ (fun j => (job_token j, broken)))).
       - rewrite <- list_fmap_compose. intros t [(j & -> & Hj)%list_elem_of_fmap|Ht]; [eauto|by apply not_elem_of_nil in Ht].
       - intros t o Ht. by apply not_elem_of_nil in Ht. }
  set (step := fun '(failed, args_failed, n) j => _).
  induction batch as [|j batch IH] using rev_ind.
  { cbn. split_and!; try lia; intros; set_solver. }
  rewrite fold_left_app. cbn [fold_left]. destruct (fold_left step batch ([], [], rejected)) as [[failed af] n].
  destruct IH as (I1 & I2 & I3 & I4 & I5). unfold step. rewrite length_app. cbn [length].
  destruct (decode_text (job_args j)) as [a|e] eqn:Ea; [destruct (decode_text (job_kwargs j)) as [k|e] eqn:Ek; [destruct (submit j a k) eqn:Es|]|].
  all: split_and!; rewrite ?fmap_app, ?length_app; cbn [length]; try lia.
  all: try (intros x Hx; apply elem_of_app in Hx as [Hx|Hx]; [destruct (I1 x Hx) as [?|[?|?]]; set_solver|apply list_elem_of_singleton in Hx; subst x]).
  all: try (by right; right; eauto 10).
  all: try (by cbn; set_solver).
  all: try (intros t Ht; assert (Hx : t ∈ failed.*1 \/ t ∈ af.*1 \/ t = job_token j) by (cbn in Ht; set_solver);
    destruct Hx as [Hx|[Hx| ->]]; [destruct (I2 t (or_introl Hx)) as (y & ? & ?); exists y; set_solver
      |destruct (I2 t (or_intror Hx)) as (y & ? & ?); exists y; set_solver|exists j; set_solver]).
  all: try done.
  all: intros t o Ht; apply elem_of_app in Ht as [Ht|Ht]; [by eapply I3|apply list_elem_of_singleton in Ht; simplify_eq; by eexists].
Qed.
