(* ===== verification/AsyncLane.v ===== *)
(** The async lane of the embedded runtime ([worker/src/pyrt.rs]) end to end:
    [queue_submit] puts a job on the channel, the submitter thread schedules it
    in batches, the event loops call back, a backstop cancels; and [init], which
    builds the runtime once. *)
From S2P Require Import Prelude Float64 Envelope Stats Ctx PyJson Pyrt.
Open Scope Z_scope.

(** ** The lane *)

(** The pending slots, the jobs on the channel, what the submitter still has to
    fail of its last batch, and [async_rejected]; [al_loops] are the tokens the
    shim took and did not call back yet. *)
Record lane := {
  al_pending : pending;
  al_channel : list SubmitJob;
  al_todo : list (Z * Outcome);
  al_rejected : Z;
  al_loops : gset Z;
}.

Definition lane_init : lane := {| al_pending := pending_init; al_channel := []; al_todo := []; al_rejected := 0; al_loops := ∅ |}.

Definition shim_fn `{Py} : Type := option (SubmitJob -> obj -> obj -> shim_reply).

(** The jobs of a batch the shim scheduled. *)
Definition scheduled `{Py} (submit : shim_fn) (batch : list SubmitJob) : list Z :=
  omap (fun j => match submit, decode_text (job_args j), decode_text (job_kwargs j) with
    | Some f, Ok a, Ok k => match f j a k with Scheduled => Some (job_token j) | _ => None end
    | _, _, _ => None
    end) batch.

(** The failures of a batch in the order the submitter completes them. *)
Definition batch_failures (r : list (Z * string) * list (Z * Outcome)) : list (Z * Outcome) :=
  ((fun f => (f.1, Failure (error_new "WorkerShimError" ("submit_async failed: " +:+ f.2)) true)) <$> r.1) ++ r.2.

Lemma finish_batch_failures p r : finish_batch p r = fold_left (fun p f => complete_pending p f.1 f.2) (batch_failures r) p.
Proof.
  destruct r as [failed af]. unfold finish_batch, batch_failures. cbn [fst snd]. rewrite fold_left_app. f_equal.
  revert p. induction failed as [|f failed IH]; intros p; cbn; [done|]. by rewrite IH.
Qed.

Section lane.
Context `{Py}.

(** [queue_submit]: the slot first, then the channel; [open] is whether the
    submitter thread still receives. *)
Definition lane_submit (s : lane) (open : bool) (job : Z -> SubmitJob) : lane :=
  let '(token, p) := queue_submit (al_pending s) in
  if open then
    {| al_pending := p; al_channel := al_channel s ++ [job token]; al_todo := al_todo s; al_rejected := al_rejected s; al_loops := al_loops s |}
  else
    {| al_pending := fail_pending p token "queue_submit failed: submitter thread has exited"; al_channel := al_channel s;
       al_todo := al_todo s; al_rejected := al_rejected s; al_loops := al_loops s |}.

(** The submitter thread blocks for a job, takes what else is there up to
    [DRAIN_MAX] and hands the batch to the shim. *)
Definition lane_batch (submit : shim_fn) (broken : string) (s : lane) : lane :=
  let '(batch, rest) := drain (al_channel s) in
  let '(r, rejected) := submit_batch submit broken batch (al_rejected s) in
  {| al_pending := al_pending s; al_channel := rest; al_todo := batch_failures r; al_rejected := rejected;
     al_loops := al_loops s ∪ list_to_set (scheduled submit batch) |}.

(** One of [fail_pending] and [complete_pending] after a batch. *)
Definition lane_fail (s : lane) : lane :=
  match al_todo s with
  | [] => s
  | (t, o) :: todo =>
      {| al_pending := complete_pending (al_pending s) t o; al_channel := al_channel s; al_todo := todo; al_rejected := al_rejected s;
         al_loops := al_loops s |}
  end.

Inductive lane_event :=
| LSubmit (open : bool) (job : Z -> SubmitJob)
| LBatch (submit : shim_fn) (broken : string)
| LFail
| LCallback (token : Z) (o : Outcome)
| LCancel (token : Z).

(** The submitter starts a batch when it is done with the one before. *)
Definition lane_step (s : lane) (e : lane_event) : lane :=
  match e with
  | LSubmit open job => lane_submit s open job
  | LBatch submit broken => match al_channel s, al_todo s with _ :: _, [] => lane_batch submit broken s | _, _ => s end
  | LFail => lane_fail s
  | LCallback t o =>
      {| al_pending := complete_pending (al_pending s) t o; al_channel := al_channel s; al_todo := al_todo s; al_rejected := al_rejected s;
         al_loops := al_loops s ∖ {[t]} |}
  | LCancel t =>
      {| al_pending := cancel (al_pending s) t; al_channel := al_channel s; al_todo := al_todo s; al_rejected := al_rejected s;
         al_loops := al_loops s |}
  end.

(** A job carries the token it was given. *)
Definition carries_token (e : lane_event) : Prop := match e with LSubmit _ job => forall t, job_token (job t) = t | _ => True end.
End lane.

(** ** Nobody waits for nothing *)

Section proofs.
Context `{Py}.

(** Whoever waits has somebody to answer: the submitter, or an event loop. *)
Definition attended (s : lane) (t : Z) : Prop := t ∈ job_token <$> al_channel s \/ t ∈ (al_todo s).*1 \/ t ∈ al_loops s.

Record lane_inv (s : lane) : Prop := {
  li_pending : pending_inv (al_pending s);
  li_attended : forall t, t ∈ slots (al_pending s) -> attended s t;
  li_failures : Forall (fun f => exists e retryable, f.2 = Failure e retryable /\
    type_ e = if retryable then "WorkerShimError"%string else "SerializationError"%string) (al_todo s);
}.

Lemma complete_slots p t o x : x ∈ slots (complete_pending p t o) <-> x ∈ slots p /\ x <> t.
Proof. unfold complete_pending. case_bool_decide; cbn; set_solver. Qed.

Lemma batch_attends submit broken batch rejected t : t ∈ job_token <$> batch ->
  t ∈ (batch_failures (submit_batch submit broken batch rejected).1).*1 \/ t ∈ scheduled submit batch.
Proof.
  intros (j & -> & Hj)%list_elem_of_fmap. pose proof (batch_accounts_for_every_job submit broken batch rejected) as HB.
  destruct (submit_batch submit broken batch rejected) as [[failed af] n]. destruct HB as (H1 & _). unfold batch_failures. cbn [fst snd].
  rewrite fmap_app, <- list_fmap_compose.
  destruct (H1 j Hj) as [Hf|[Hf|(a & k & f & -> & Ha & Hk & Hs)]].
  - left. apply elem_of_app. left. apply list_elem_of_fmap in Hf as (x & Hx & Hin). apply list_elem_of_fmap. by exists x.
  - left. apply elem_of_app. by right.
  - right. apply list_elem_of_omap. exists j. split; [done|]. by rewrite Ha, Hk, Hs.
Qed.

Lemma batch_failures_kind submit broken batch rejected :
  Forall (fun f => exists e retryable, f.2 = Failure e retryable /\
    type_ e = if retryable then "WorkerShimError"%string else "SerializationError"%string)
    (batch_failures (submit_batch submit broken batch rejected).1).
Proof.
  assert (HA : Forall (fun f => exists e, f.2 = args_failure_outcome e) (submit_batch submit broken batch rejected).1.2).
  { unfold submit_batch. destruct submit as [submit|]; [|constructor]. set (step := fun '(failed, args_failed, n) j => _).
    induction batch as [|j batch IH] using rev_ind; [constructor|]. rewrite fold_left_app. cbn [fold_left].
    destruct (fold_left step batch ([], [], rejected)) as [[failed af] n]. unfold step. cbn [fst snd] in *.
    destruct (decode_text (job_args j)); [destruct (decode_text (job_kwargs j)); [destruct (submit j _ _); done|]|];
      (apply Forall_app; split; [done|]; constructor; [by eexists|constructor]). }
  destruct (submit_batch _ _ _ _) as [[failed af] n]. apply Forall_app. split.
  - apply Forall_fmap, Forall_forall. intros x _. by exists (error_new "WorkerShimError" ("submit_async failed: " +:+ x.2)), true.
  - eapply Forall_impl; [exact HA|]. intros x [e ->]. by eexists _, false.
Qed.

Lemma drain_app l batch rest : drain l = (batch, rest) -> l = batch ++ rest.
Proof. intros [= <- <-]. by rewrite take_drop. Qed.

Lemma lane_inv_step s e : carries_token e -> lane_inv s -> lane_inv (lane_step s e).
Proof.
  intros Hc [HP HA HF]. destruct e as [open job|submit broken| |t o|t]; cbn [lane_step].
  - cbn in Hc. unfold lane_submit. destruct (queue_submit (al_pending s)) as [token p] eqn:Eq. injection Eq as <- <-. destruct open.
    2: { split; cbn; [apply (pending_inv_step _ (PComplete _ _)), (pending_inv_step _ PSubmit HP)| |done].
         intros t [Ht Hn]%complete_slots. apply elem_of_union in Ht as [->%elem_of_singleton|Ht]; [done|]. by apply HA. }
    split; [apply (pending_inv_step _ PSubmit HP)| |done]. cbn. intros t Ht. unfold attended. cbn.
    rewrite fmap_app. apply elem_of_union in Ht as [->%elem_of_singleton|Ht].
    { left. apply elem_of_app. right. cbn. rewrite Hc. left. }
    destruct (HA t Ht) as [?|[?|?]]; [left; apply elem_of_app; by left|by right; left|by right; right].
  - destruct (al_channel s) as [|j l] eqn:Ec; [by split|]. destruct (al_todo s) as [|f fs] eqn:Et; [|split; [done|done|by rewrite Et]].
    unfold lane_batch. rewrite Ec. destruct (drain (j :: l)) as [batch rest] eqn:Ed. assert (Hd : j :: l = batch ++ rest) by apply (drain_app _ _ _ Ed).
    destruct (submit_batch submit broken _ _) as [r n] eqn:Eb. split; cbn; [done| |].
    + intros t Ht. unfold attended. cbn. destruct (HA t Ht) as [Hin|[Hin|Hin]].
      * rewrite Ec, Hd, fmap_app in Hin. apply elem_of_app in Hin as [Hin|Hin]; [|by left].
        apply (batch_attends submit broken batch (al_rejected s)) in Hin. rewrite Eb in Hin. destruct Hin as [Hin|Hin]; [by right; left|set_solver].
      * rewrite Et in Hin. by apply not_elem_of_nil in Hin.
      * set_solver.
    + pose proof (batch_failures_kind submit broken batch (al_rejected s)) as HK. by rewrite Eb in HK.
  - unfold lane_fail. destruct (al_todo s) as [|[t o] todo] eqn:Et; [split; [done|done|by rewrite Et]|]. apply Forall_cons in HF as [_ HF].
    split; cbn; [by apply (pending_inv_step _ (PComplete t o))| |done]. intros x [Hx Hn]%complete_slots. unfold attended. cbn.
    destruct (HA x Hx) as [?|[Hin|?]]; [by left| |by right; right]. rewrite Et in Hin. set_solver.
  - split; cbn; [by apply (pending_inv_step _ (PComplete t o))| |done]. intros x [Hx Hn]%complete_slots. unfold attended. cbn.
    destruct (HA x Hx) as [?|[?|?]]; set_solver.
  - split; cbn; [by apply (pending_inv_step _ (PCancel t))| |done]. intros x Hx. unfold attended. cbn. apply HA. set_solver.
Qed.

Lemma lane_inv_run es : forall s, Forall carries_token es -> lane_inv s -> lane_inv (fold_left lane_step es s).
Proof. induction es as [|e es IH]; intros s HF HI; cbn; [done|]. apply Forall_cons in HF as [? ?]. by apply IH, lane_inv_step. Qed.

Lemma lane_inv_init : lane_inv lane_init.
Proof. split; cbn; [split_and!; cbn; [constructor|set_solver|set_solver]|set_solver|constructor]. Qed.

(** The submitter thread's own steps. *)
Definition is_submitter (submit : shim_fn) (broken : string) (e : lane_event) : Prop := e = LFail \/ e = LBatch submit broken.

(** Waiting still, or told of a failure. *)
Definition waits_or_told (s : lane) (t : Z) : Prop :=
  t ∈ slots (al_pending s) \/ exists e r, (t, Failure e r) ∈ delivered (al_pending s).

Lemma submitter_tells submit broken s e : is_submitter submit broken e -> lane_inv s -> forall t, waits_or_told s t -> waits_or_told (lane_step s e) t.
Proof.
  intros [->| ->] HI t HW; cbn [lane_step].
  - unfold lane_fail. destruct (al_todo s) as [|[x o] todo] eqn:Et; [done|]. pose proof (li_failures s HI) as HF.
    rewrite Et in HF. apply Forall_cons in HF as [(e & r & Ho & _) _]. cbn in Ho. subst o. unfold waits_or_told, complete_pending in *. cbn.
    case_bool_decide; [|done]. cbn. destruct HW as [HW|(e' & r' & HW)].
    + destruct (decide (t = x)) as [->|Hn]; [right; exists e, r; set_solver|left; set_solver].
    + right. exists e', r'. set_solver.
  - destruct (al_channel s), (al_todo s); try done. unfold lane_batch. destruct (drain _), (submit_batch _ _ _ _). done.
Qed.

Lemma submitter_tells_run submit broken es : forall s, Forall (is_submitter submit broken) es -> lane_inv s ->
  lane_inv (fold_left lane_step es s) /\ forall t, waits_or_told s t -> waits_or_told (fold_left lane_step es s) t.
Proof.
  induction es as [|e es IH]; intros s HF HI; cbn; [done|]. apply Forall_cons in HF as [He HF].
  assert (HI' : lane_inv (lane_step s e)) by (apply lane_inv_step; [destruct He as [->| ->]; exact I|done]).
  destruct (IH _ HF HI') as [H1 H2]. split; [done|]. intros t Ht. by apply H2, (submitter_tells submit broken).
Qed.

Lemma fail_all s : let s' := fold_left lane_step (repeat LFail (length (al_todo s))) s in al_todo s' = [] /\ al_channel s' = al_channel s.
Proof.
  cbv zeta. remember (length (al_todo s)) as n eqn:En. revert s En. induction n as [|n IH]; intros s En; cbn; [by destruct (al_todo s)|].
  destruct (al_todo s) as [|[t o] todo] eqn:Et; [done|]. injection En as En.
  destruct (IH (lane_fail s)) as [-> ->]; unfold lane_fail; rewrite Et; done.
Qed.

(** Left to itself the submitter empties the channel and fails what it must, in
    two steps a job at most. *)
Lemma submitter_catches_up submit broken n : forall s, (length (al_channel s) <= n)%nat ->
  exists es, Forall (is_submitter submit broken) es /\ (length es <= length (al_todo s) + 2 * length (al_channel s))%nat /\
    al_channel (fold_left lane_step es s) = [] /\ al_todo (fold_left lane_step es s) = [].
Proof.
  assert (HR : forall k, Forall (is_submitter submit broken) (repeat LFail k)) by (induction k; cbn; constructor; [by left|done]).
  induction n as [|n IH]; intros s Hn; destruct (fail_all s) as [Ht Hc]; set (s1 := fold_left _ _ _) in *.
  { exists (repeat LFail (length (al_todo s))). rewrite repeat_length. split_and!; [done|lia| |done].
    fold s1. rewrite Hc. by destruct (al_channel s); [|cbn in Hn; lia]. }
  destruct (al_channel s) as [|j l] eqn:Ec.
  { exists (repeat LFail (length (al_todo s))). rewrite repeat_length. by split_and!; [|lia|..]. }
  set (s2 := lane_step s1 (LBatch submit broken)).
  assert (H2 : (length (al_todo s2) + length (al_channel s2) <= length (j :: l))%nat /\ (length (al_channel s2) < length (j :: l))%nat).
  { subst s2. cbn [lane_step]. rewrite Hc, Ht. unfold lane_batch. rewrite Hc.
    destruct (drain (j :: l)) as [batch rest] eqn:Ed. pose proof (drain_app _ _ _ Ed) as Hd.
    assert (Hb : (1 <= length batch)%nat) by (injection Ed as <- _; cbn; lia).
    pose proof (batch_accounts_for_every_job submit broken batch (al_rejected s1)) as HB.
    destruct (submit_batch submit broken batch _) as [[failed af] k]. destruct HB as (_ & _ & _ & HL & _).
    cbn [al_todo al_channel]. unfold batch_failures. rewrite Hd, !length_app, length_fmap. cbn [fst snd]. lia. }
  destruct (IH s2 ltac:(lia)) as (es & HF & Hlen & Hch & Hto).
  exists (repeat LFail (length (al_todo s)) ++ LBatch submit broken :: es). rewrite fold_left_app. cbn [fold_left]. fold s1 s2.
  split_and!; [|rewrite length_app, repeat_length; cbn [length] in *; lia|done|done].
  apply Forall_app. split; [done|]. constructor; [by right|done].
Qed.
End proofs.

(** C22. No async task is stranded. However submissions, batches, the failures
    the submitter reports, the event loops' callbacks and the backstop's
    cancellations interleave, each waiting task is still on the channel, among
    the failures to report, or on an event loop, and is completed at most once.
    Whatever the shim answers, the submitter by itself comes to an empty channel
    within two steps a job; then a task that waited was told of a failure or is
    on a loop. *)
Theorem async_lane_strands_nothing `{P : Py} es submit broken : Forall carries_token es ->
  let s := fold_left lane_step es lane_init in
  NoDup (delivered (al_pending s)).*1 /\ (forall t, t ∈ slots (al_pending s) -> attended s t) /\
  exists es', Forall (is_submitter submit broken) es' /\ (length es' <= length (al_todo s) + 2 * length (al_channel s))%nat /\
    let s' := fold_left lane_step es' s in
    al_channel s' = [] /\ al_todo s' = [] /\
    forall t, t ∈ slots (al_pending s) ->
      (t ∈ slots (al_pending s') /\ t ∈ al_loops s') \/ exists e r, (t, Failure e r) ∈ delivered (al_pending s').
Proof.
  intros Hc s. assert (HI : lane_inv s) by (apply lane_inv_run; [done|apply lane_inv_init]).
  split_and!; [apply (li_pending s HI)|apply (li_attended s HI)|].
  destruct (submitter_catches_up submit broken _ s (le_n _)) as (es' & HF & Hl & Hch & Hto). exists es'. split_and!; [done..|].
  destruct (submitter_tells_run submit broken es' s HF HI) as [HI' HT]. cbv zeta. split_and!; [done..|]. intros t Ht. destruct (HT t (or_introl Ht)) as [Hw|Hw]; [left|by right].
  split; [done|]. destruct (li_attended _ HI' t Hw) as [Ha|[Ha|Ha]]; [| |done].
  - rewrite Hch in Ha. by apply not_elem_of_nil in Ha.
  - rewrite Hto in Ha. by apply not_elem_of_nil in Ha.
Qed.

Definition sample_job (args : string) (t : Z) : SubmitJob :=
  {| job_token := t; job_name := "f"; job_args := args; job_kwargs := "{}"; job_timeout_s := FNaN; job_soft_timeout_s := None; job_meta := None |}.

Lemma async_lane_strands_nothing_witness :
  let es := [LSubmit true (sample_job "[]"); LSubmit true (sample_job "[]"); LBatch (Some (fun j _ _ => if job_token j =? 1 then Scheduled else ShimError "x"%string)) ""] in
  let s := fold_left (@lane_step toy_py) es lane_init in
  attended s 1 /\ attended s 2 /\ al_todo s = [(2, Failure (error_new "WorkerShimError" "submit_async failed: x") true)].
Proof.
  intros es s. assert (Hc : Forall carries_token es) by (repeat constructor).
  destruct (async_lane_strands_nothing (P := toy_py) es None ""%string Hc) as (_ & HA & _). fold s in HA.
  split_and!; [apply HA; vm_compute; reflexivity|apply HA; vm_compute; reflexivity|vm_compute; reflexivity].
Defined.

(** ** Building the runtime *)

(** What [PyRuntime::init] asks of the interpreter, and at last of itself. *)
Inductive init_call :=
| ILoadModule
| ILoadApp (app_spec : string)
| IBindCodec
| IMakeCallback
| ISetCallback
| IStartLoops (io_loops io_concurrency : Z)
| IParseConfig
| IStartSubmitter.

Definition init_calls (app_spec : string) (io_loops io_concurrency : Z) : list init_call :=
  [ILoadModule; ILoadApp app_spec; IBindCodec; IMakeCallback; ISetCallback; IStartLoops io_loops io_concurrency; IParseConfig; IStartSubmitter].

(** Which call fails, if one does, and the configuration [load_app] printed. *)
Record interp := { ip_works : init_call -> bool; ip_config : AppConfig }.

(** The calls made, up to the first that fails. *)
Fixpoint walk (works : init_call -> bool) (calls : list init_call) : bool * list init_call :=
  match calls with
  | [] => (true, [])
  | c :: calls => if works c then let '(ok, made) := walk works calls in (ok, c :: made) else (false, [c])
  end.

(** [PyRuntime::init]: once per process; the flag is never given back, even on
    failure. *)
Definition init (built : bool) (app_spec : string) (io_loops io_concurrency : Z) (x : interp) : option AppConfig * bool * list init_call :=
  if built then (None, true, [])
  else
    let '(ok, made) := walk (ip_works x) (init_calls app_spec io_loops io_concurrency) in
    (if ok then Some (ip_config x) else None, true, made).

Lemma walk_prefix works calls : let '(ok, made) := walk works calls in
  made `prefix_of` calls /\ (ok = true <-> made = calls /\ Forall (fun c => works c = true) calls).
Proof.
  induction calls as [|c calls IH]; cbn [walk]; [by split; [exists []|]|]. destruct (works c) eqn:Ew.
  - destruct (walk works calls) as [ok made]. destruct IH as [H1 H2]. split; [by apply prefix_cons|]. rewrite H2, Forall_cons. naive_solver.
  - split; [by exists calls|]. split; [done|]. rewrite Forall_cons. intros [_ [? _]]. congruence.
Qed.

(** The second runtime of a process is refused before it touches the shared
    module; a runtime exists only when every call was made and worked, the
    completion callback in place before any event loop runs. *)
Theorem init_once built app_spec io_loops io_concurrency x :
  let '(cfg, built', made) := init built app_spec io_loops io_concurrency x in
  built' = true /\ (built = true -> cfg = None /\ made = []) /\
  (is_Some cfg -> made = init_calls app_spec io_loops io_concurrency /\ Forall (fun c => ip_works x c = true) made) /\
  (forall n m, IStartLoops n m ∈ made -> ISetCallback ∈ made /\ ip_works x ISetCallback = true).
Proof.
  unfold init. destruct built; [split_and!; [done|done|by intros [? [=]]|by intros ?? ?%not_elem_of_nil]|].
  unfold init_calls. cbn [walk].
  repeat (match goal with |- context [ip_works x ?c] => destruct (ip_works x c) eqn:? end; cbn [walk];
    try (split_and!; [done|done|by intros [? [=]]|intros n m Hin; set_unfold; naive_solver])).
  split_and!; [done|done| |].
  - intros _. split; [done|]. by repeat constructor.
  - intros n m _. split; [set_solver|done].
Qed.
