(* ===== verification/SyncPool.v ===== *)
(** The sync lane's thread pool ([SyncPool] and [JobQueue] of
    [worker/src/pyrt.rs]): a condition variable protocol in which jobs are taken
    only by a thread holding the GIL and at most one standby is woken, as a step
    relation over the threads' program points. That one thread at a time holds the
    GIL is CPython's doing, and a premise of the steps that take it. *)
From S2P Require Import Prelude.
Open Scope Z_scope.

(** ** The job queue *)

(** Where a pool thread is. *)
Inductive tstate :=
| TStart          (* about to lock the queue in [wait_for_job] *)
| TParked         (* blocked in [ready.wait] *)
| TNotified       (* woken, the mutex not yet reacquired *)
| TReady          (* saw a job; waiting for the GIL *)
| TTake (arrived : bool)   (* holds the GIL, about to [take] *)
| TRun (job : nat) (gil : bool)   (* running a job, GIL held or released *)
| TGone.         (* unwound: nothing replaces the thread *)

#[export] Instance tstate_eq_dec : EqDecision tstate.
Proof. solve_decision. Defined.

Record QueueState := { jobs : list nat; parked : Z; standby : bool }.

Record pool := { queue : QueueState; capacity : nat; threads : list tstate; taken : list nat }.

(** [notify_one]: some waiting thread wakes, none if nothing waits. *)
Inductive notify : list tstate -> list tstate -> Prop :=
| notify_some ts i : ts !! i = Some TParked -> notify ts (<[i := TNotified]> ts)
| notify_none ts : TParked ∉ ts -> notify ts ts.

(** [wake_standby]: at most one standby at a time. *)
Inductive wake_standby : QueueState * list tstate -> QueueState * list tstate -> Prop :=
| wake_yes q ts ts' : standby q = false -> 0 < parked q -> notify ts ts' ->
    wake_standby (q, ts) ({| jobs := jobs q; parked := parked q; standby := true |}, ts')
| wake_no q ts : standby q = true \/ parked q <= 0 -> wake_standby (q, ts) (q, ts).

Definition holds_gil (t : tstate) : bool := match t with TTake _ | TRun _ true => true | _ => false end.
Definition gil_free (ts : list tstate) : Prop := Forall (fun t => holds_gil t = false) ts.

(** [submit]: refused when the queue is at capacity. *)
Definition submit_ok (p : pool) : bool := (length (jobs (queue p)) <? capacity p)%nat.

Inductive pstep : pool -> string -> pool -> Prop :=
| p_submit q cap ts tk j q' ts' :
    (length (jobs q) < cap)%nat ->
    wake_standby ({| jobs := jobs q ++ [j]; parked := parked q; standby := standby q |}, ts) (q', ts') ->
    pstep {| queue := q; capacity := cap; threads := ts; taken := tk |} "submit"
          {| queue := q'; capacity := cap; threads := ts'; taken := tk |}
| p_wait_empty q cap ts tk i :
    ts !! i = Some TStart -> jobs q = [] ->
    pstep {| queue := q; capacity := cap; threads := ts; taken := tk |} "wait"
          {| queue := {| jobs := jobs q; parked := parked q + 1; standby := standby q |}; capacity := cap;
             threads := <[i := TParked]> ts; taken := tk |}
| p_wait_job q cap ts tk i :
    ts !! i = Some TStart -> jobs q <> [] ->
    pstep {| queue := q; capacity := cap; threads := ts; taken := tk |} "ready"
          {| queue := q; capacity := cap; threads := <[i := TReady]> ts; taken := tk |}
| p_spurious q cap ts tk i :
    ts !! i = Some TParked ->
    pstep {| queue := q; capacity := cap; threads := ts; taken := tk |} "spurious"
          {| queue := q; capacity := cap; threads := <[i := TNotified]> ts; taken := tk |}
| p_woken_empty q cap ts tk i :
    (* reacquires, stands down, and parks again in the same critical section *)
    ts !! i = Some TNotified -> jobs q = [] ->
    pstep {| queue := q; capacity := cap; threads := ts; taken := tk |} "stand down"
          {| queue := {| jobs := jobs q; parked := parked q - 1 + 1; standby := false |}; capacity := cap;
             threads := <[i := TParked]> ts; taken := tk |}
| p_woken_job q cap ts tk i :
    ts !! i = Some TNotified -> jobs q <> [] ->
    pstep {| queue := q; capacity := cap; threads := ts; taken := tk |} "woken"
          {| queue := {| jobs := jobs q; parked := parked q - 1; standby := standby q |}; capacity := cap;
             threads := <[i := TReady]> ts; taken := tk |}
| p_gil q cap ts tk i :
    ts !! i = Some TReady -> gil_free ts ->
    pstep {| queue := q; capacity := cap; threads := ts; taken := tk |} "gil"
          {| queue := q; capacity := cap; threads := <[i := TTake true]> ts; taken := tk |}
| p_take q cap ts tk i arrived j rest q' ts' :
    ts !! i = Some (TTake arrived) -> jobs q = j :: rest ->
    let q1 := {| jobs := rest; parked := parked q; standby := if arrived then false else standby q |} in
    (if bool_decide (rest = []) then (q', ts') = (q1, <[i := TRun j true]> ts)
     else wake_standby (q1, <[i := TRun j true]> ts) (q', ts')) ->
    pstep {| queue := q; capacity := cap; threads := ts; taken := tk |} "take"
          {| queue := q'; capacity := cap; threads := ts'; taken := tk ++ [j] |}
| p_take_none q cap ts tk i arrived :
    ts !! i = Some (TTake arrived) -> jobs q = [] ->
    pstep {| queue := q; capacity := cap; threads := ts; taken := tk |} "drained"
          {| queue := {| jobs := []; parked := parked q; standby := if arrived then false else standby q |};
             capacity := cap; threads := <[i := TStart]> ts; taken := tk |}
| p_block q cap ts tk i j :
    ts !! i = Some (TRun j true) ->
    pstep {| queue := q; capacity := cap; threads := ts; taken := tk |} "block"
          {| queue := q; capacity := cap; threads := <[i := TRun j false]> ts; taken := tk |}
| p_unblock q cap ts tk i j :
    ts !! i = Some (TRun j false) -> gil_free ts ->
    pstep {| queue := q; capacity := cap; threads := ts; taken := tk |} "unblock"
          {| queue := q; capacity := cap; threads := <[i := TRun j true]> ts; taken := tk |}
| p_done q cap ts tk i j :
    ts !! i = Some (TRun j true) ->
    pstep {| queue := q; capacity := cap; threads := ts; taken := tk |} "done"
          {| queue := q; capacity := cap; threads := <[i := TTake false]> ts; taken := tk |}
| p_panic q cap ts tk i j :
    (* the unwind releases the GIL and the job's reply sender, and ends the thread *)
    ts !! i = Some (TRun j true) ->
    pstep {| queue := q; capacity := cap; threads := ts; taken := tk |} "panic"
          {| queue := q; capacity := cap; threads := <[i := TGone]> ts; taken := tk |}
| p_spawn q cap ts tk :
    pstep {| queue := q; capacity := cap; threads := ts; taken := tk |} "spawn"
          {| queue := q; capacity := cap; threads := ts ++ [TStart]; taken := tk |}.

Definition pool_init (n cap : nat) : pool :=
  {| queue := {| jobs := []; parked := 0; standby := false |}; capacity := Nat.max cap 1;
     threads := replicate (Nat.max n 1) TStart; taken := [] |}.

(** ** The job queue never strands work *)



Fixpoint count (f : tstate -> bool) (ts : list tstate) : Z :=
  match ts with [] => 0 | t :: ts' => (if f t then 1 else 0) + count f ts' end.

Lemma count_insert f ts i t t' : ts !! i = Some t ->
  count f (<[i := t']> ts) = count f ts - (if f t then 1 else 0) + (if f t' then 1 else 0).
Proof.
  revert i. induction ts as [|x ts IH]; intros [|i] H; cbn in H; simplify_eq; [cbn; lia|].
  change (<[S i:=t']> (x :: ts)) with (x :: <[i:=t']> ts). cbn [count]. rewrite (IH _ H). lia.
Qed.



Lemma count_app f ts us : count f (ts ++ us) = count f ts + count f us.
Proof. induction ts as [|x ts IH]; cbn; lia. Qed.










(** ** The pool is a bounded queue *)

(** What the pool promises, threads and wakeups apart: jobs wait in order, up to
    the capacity, and leave from the front. *)
Record fifo := { f_waiting : list nat; f_left : list nat }.

Inductive fstep (cap : nat) : fifo -> fifo -> Prop :=
| f_enqueue s j : (length (f_waiting s) < cap)%nat -> fstep cap s {| f_waiting := f_waiting s ++ [j]; f_left := f_left s |}
| f_dequeue s j rest : f_waiting s = j :: rest -> fstep cap s {| f_waiting := rest; f_left := f_left s ++ [j] |}.

Definition fifo_of (p : pool) : fifo := {| f_waiting := jobs (queue p); f_left := taken p |}.

Lemma gil_free_count ts : gil_free ts -> count holds_gil ts = 0.
Proof. unfold gil_free. induction 1 as [|t ts Ht _ IH]; [done|]. cbn. by rewrite Ht, IH. Qed.

Lemma notify_gil ts ts' : notify ts ts' -> count holds_gil ts' = count holds_gil ts.
Proof. destruct 1 as [ts i Hi|]; [|done]. rewrite (count_insert _ _ _ _ _ Hi). cbn. lia. Qed.

Lemma wake_keeps q ts q' ts' : wake_standby (q, ts) (q', ts') -> jobs q' = jobs q /\ count holds_gil ts' = count holds_gil ts.
Proof. inversion 1; subst; [|done]. split; [done|by apply notify_gil]. Qed.

(** A step is one of the queue's, or none, and the GIL has one holder. *)
Lemma pstep_fifo p l p' : pstep p l p' -> count holds_gil (threads p) <= 1 ->
  capacity p' = capacity p /\ count holds_gil (threads p') <= 1 /\ rtc (fstep (capacity p)) (fifo_of p) (fifo_of p').
Proof.
  intros Hstep HG.
  destruct Hstep as [q cap ts tk j q' ts' Hl W|q cap ts tk i Hi Hj|q cap ts tk i Hi Hj|q cap ts tk i Hi|q cap ts tk i Hi Hj
    |q cap ts tk i Hi Hj|q cap ts tk i Hi Hg|q cap ts tk i a j rest q' ts' Hi Hj q1 W|q cap ts tk i a Hi Hj
    |q cap ts tk i j Hi|q cap ts tk i j Hi Hg|q cap ts tk i j Hi|q cap ts tk i j Hi|q cap ts tk]; cbn [queue threads capacity] in *;
    (split; [done|]); unfold fifo_of; cbn [queue taken jobs].
  - apply wake_keeps in W as [Hq Hc]. cbn in Hq. split; [lia|]. rewrite Hq. apply rtc_once.
    by apply (f_enqueue cap {| f_waiting := jobs q; f_left := tk |}).
  - rewrite (count_insert _ _ _ _ _ Hi). cbn. split; [lia|done].
  - rewrite (count_insert _ _ _ _ _ Hi). cbn. split; [lia|done].
  - rewrite (count_insert _ _ _ _ _ Hi). cbn. split; [lia|done].
  - rewrite (count_insert _ _ _ _ _ Hi). cbn. split; [lia|done].
  - rewrite (count_insert _ _ _ _ _ Hi). cbn. split; [lia|done].
  - rewrite (count_insert _ _ _ _ _ Hi), (gil_free_count _ Hg). cbn. split; [lia|done].
  - assert (HT : jobs q' = rest /\ count holds_gil ts' = count holds_gil (<[i := TRun j true]> ts)).
    { case_bool_decide; [by injection W as -> ->|]. by apply wake_keeps in W. }
    destruct HT as [-> ->]. rewrite (count_insert _ _ _ _ _ Hi). cbn. split; [lia|]. apply rtc_once.
    by apply (f_dequeue cap {| f_waiting := jobs q; f_left := tk |}).
  - rewrite (count_insert _ _ _ _ _ Hi). cbn. split; [lia|]. by rewrite Hj.
  - rewrite (count_insert _ _ _ _ _ Hi). cbn. split; [lia|done].
  - rewrite (count_insert _ _ _ _ _ Hi), (gil_free_count _ Hg). cbn. split; [lia|done].
  - rewrite (count_insert _ _ _ _ _ Hi). cbn. split; [lia|done].
  - rewrite (count_insert _ _ _ _ _ Hi). cbn. split; [lia|done].
  - rewrite count_app. cbn. split; [lia|done].
Qed.

Lemma fifo_keeps cap s s' : rtc (fstep cap) s s' -> (exists k, f_left s' = f_left s ++ k) /\
  ((length (f_waiting s) <= cap)%nat -> (length (f_waiting s') <= cap)%nat).
Proof.
  induction 1 as [s|s1 s2 s3 H1 _ [[k IH] IHl]]; [split; [exists []; by rewrite app_nil_r|done]|].
  destruct H1 as [s j Hl|s j rest Hj]; cbn in *.
  - split; [by exists k|]. intros _. apply IHl. rewrite length_app. cbn. lia.
  - split; [exists (j :: k); by rewrite IH, <- app_assoc|]. rewrite Hj. cbn. intros ?. apply IHl. lia.
Qed.

(** C20. The sync pool is a bounded queue. Whatever its threads do, woken in
    whatever order, parked, blocked, replaced or unwound by a panic, every run of the pool is a run of
    a queue that takes a job only below its capacity and lets go of the oldest:
    no job is taken twice, none overtakes another, none vanishes, the backlog
    stays within [--io-concurrency], and one thread at most holds the GIL. *)
Theorem pool_refines_fifo n cap ls p :
  steps pstep (pool_init n cap) ls p ->
  rtc (fstep (Nat.max cap 1)) {| f_waiting := []; f_left := [] |} (fifo_of p) /\
  (length (jobs (queue p)) <= Nat.max cap 1)%nat /\ count holds_gil (threads p) <= 1.
Proof.
  intros Hs. assert (HI : capacity p = Nat.max cap 1 /\ count holds_gil (threads p) <= 1 /\
    rtc (fstep (Nat.max cap 1)) {| f_waiting := []; f_left := [] |} (fifo_of p)).
  { eapply (steps_invariant pstep (fun p => capacity p = Nat.max cap 1 /\ count holds_gil (threads p) <= 1 /\
      rtc (fstep (Nat.max cap 1)) {| f_waiting := []; f_left := [] |} (fifo_of p))); [|exact Hs|].
    - intros p1 l p2 (Hc & HG & HR) Hstep. destruct (pstep_fifo p1 l p2 Hstep HG) as (Hc' & HG' & HR').
      split_and!; [congruence|done|]. etransitivity; [exact HR|]. by rewrite <- Hc.
    - cbn. split_and!; [done| |apply rtc_refl]. induction (Nat.max n 1); cbn; lia. }
  destruct HI as (_ & HG & HR). split_and!; [done| |done]. apply (fifo_keeps _ _ _ HR). cbn. lia.
Qed.

Lemma pool_refines_fifo_witness :
  rtc (fstep 8) {| f_waiting := []; f_left := [] |} {| f_waiting := []; f_left := [7%nat] |} /\ count holds_gil [TRun 7 true] <= 1.
Proof.
  set (q b := {| jobs := b; parked := 0; standby := false |}).
  destruct (pool_refines_fifo 1 8 ["submit"; "ready"; "gil"; "take"]%string
    {| queue := q []; capacity := 8; threads := [TRun 7 true]; taken := [7%nat] |}) as (H1 & _ & H3); [|split; [exact H1|exact H3]].
  apply steps_cons with {| queue := q [7%nat]; capacity := 8; threads := [TStart]; taken := [] |}.
  { apply (p_submit (q []) 8 [TStart] [] 7 (q [7%nat])); [cbn; lia|]. apply (wake_no (q [7%nat])). right. cbn. lia. }
  apply steps_cons with {| queue := q [7%nat]; capacity := 8; threads := [TReady]; taken := [] |};
    [by apply (p_wait_job (q [7%nat]) 8 [TStart] [] 0)|].
  apply steps_cons with {| queue := q [7%nat]; capacity := 8; threads := [TTake true]; taken := [] |};
    [apply (p_gil (q [7%nat]) 8 [TReady] [] 0); [done|by repeat constructor]|].
  eapply steps_cons; [|apply steps_refl]. by apply (p_take (q [7%nat]) 8 [TTake true] [] 0 true 7 [] (q []) [TRun 7 true]).
Defined.

(** ** Threads *)

Definition SYNC_POOL_THREAD_CEILING_MULTIPLE : Z := 4.

Record SyncPool := { live_threads : Z; max_threads : Z; next_idx : Z; abandoned : Z }.

(** [spawn_worker], run by one thread at a time. *)
Definition spawn_worker (p : SyncPool) : SyncPool :=
  if max_threads p <=? live_threads p then p
  else {| live_threads := live_threads p + 1; max_threads := max_threads p; next_idx := next_idx p + 1; abandoned := abandoned p |}.

Definition sync_pool_start (threads : Z) : SyncPool :=
  let threads := Z.max threads 1 in
  Nat.iter (Z.to_nat threads) spawn_worker
    {| live_threads := 0; max_threads := threads * SYNC_POOL_THREAD_CEILING_MULTIPLE; next_idx := 0; abandoned := 0 |}.

Definition report_hard_timeout (p : SyncPool) : SyncPool :=
  spawn_worker {| live_threads := live_threads p; max_threads := max_threads p; next_idx := next_idx p; abandoned := abandoned p + 1 |}.

(** A pool thread that ends: its [DecrGuard]. *)
Definition thread_exit (p : SyncPool) : SyncPool :=
  {| live_threads := live_threads p - 1; max_threads := max_threads p; next_idx := next_idx p; abandoned := abandoned p |}.

(** [spawn_worker] in its two atomic halves, as concurrent reporters run it:
    the load that passes the ceiling test, then the [fetch_add]. *)
Inductive spawn_event := SpawnCheck | SpawnAdd | ThreadExit.

(** State: live threads, and reporters between their check and their add. *)
Definition spawn_race (max : Z) (s : Z * Z) (e : spawn_event) : Z * Z :=
  let '(live, passed) := s in
  match e with
  | SpawnCheck => if max <=? live then (live, passed) else (live, passed + 1)
  | SpawnAdd => if 0 <? passed then (live + 1, passed - 1) else (live, passed)
  | ThreadExit => (live - 1, passed)
  end.

(** At most [n] reporters are ever between check and add. *)
Fixpoint concurrent (max n : Z) (s : Z * Z) (es : list spawn_event) : Prop :=
  match es with
  | [] => True
  | e :: es' => (spawn_race max s e).2 <= n /\ concurrent max n (spawn_race max s e) es'
  end.

Lemma spawn_race_inv max n es : forall s, 1 <= n -> 0 <= s.2 -> s.1 + s.2 <= max + n - 1 -> concurrent max n s es ->
  (fold_left (spawn_race max) es s).1 <= max + n - 1.
Proof.
  induction es as [|e es IH]; intros [live passed] Hn H0 H Hc; cbn [fold_left] in *; [cbn in *; lia|].
  destruct Hc as [H1 H2]. apply IH; [done| | |done].
  - destruct e; cbn in *; [destruct (max <=? live)|destruct (0 <? passed) eqn:?|]; cbn in *; lia.
  - destruct e; cbn in *; [destruct (Z.leb_spec max live)|destruct (0 <? passed) eqn:?|]; cbn in *; lia.
Qed.

(** The thread ceiling, as far as it holds: with at most [n] hard timeouts
    reported at the same instant the pool never exceeds the ceiling by more
    than [n - 1] threads; in particular one reporter at a time never exceeds
    it. *)
Theorem thread_ceiling max n es :
  1 <= n -> 0 <= max -> concurrent max n (0, 0) es ->
  (fold_left (spawn_race max) es (0, 0)).1 <= max + n - 1.
Proof. intros. apply spawn_race_inv; cbn; auto; lia. Qed.

Lemma thread_ceiling_witness :
  (fold_left (spawn_race 1) [SpawnCheck; SpawnAdd; SpawnCheck; SpawnAdd] (0, 0)).1 <= 1.
Proof. apply (thread_ceiling 1 1); [lia|lia|vm_compute; repeat split; discriminate]. Defined.

(** Two reporters that both pass the check do exceed it: the ceiling is a load
    and a [fetch_add], not one atomic step. *)
Example ceiling_exceeded_by_race :
  (fold_left (spawn_race 1) [SpawnCheck; SpawnCheck; SpawnAdd; SpawnAdd] (0, 0)).1 = 2.
Proof. reflexivity. Qed.

(** ** A job's run *)

(** What [run_sync_job] does with a dequeued job: skipped when its dispatcher
    is gone, before or at the [started] signal; otherwise run and answered. *)
Inductive job_run (O : Type) := Skipped | Ran (out : O).
Arguments Skipped {O}.
Arguments Ran {O} out.

Definition run_sync_job {O} (resp_closed started_refused : bool) (run : unit -> O) : job_run O :=
  if resp_closed then Skipped else if started_refused then Skipped else Ran (run tt).
