(* ===== verification/Cpu.v ===== *)
(** The cpu pool ([worker/src/cpu.rs], PROTOCOL 5.1): pool sizing, the
    fork-server control loop, the child handshake, and [serve_child], the event
    loop that feeds one forked child and answers every request it was given. *)
From S2P Require Import Prelude Float64 Envelope Stats Ctx.
Open Scope Z_scope.

Definition READY_TIMEOUT_MS : Z := 30000.
Definition FORK_WAIT_MS : Z := 60000.

Inductive CpuOutcome := Resp (line : string) | Timeout_ | Lost.

Record CpuJob := { cj_id : string; cj_req_line : string; cj_timeout_ms : Z }.

(** ** Pool shape *)

Record StartCfg := {
  workers : Z; child_threads : Z; prefetch : Z; recycle : Z; python : string; app_spec : string; no_fork_server : bool;
}.

(** The argv, without the test hook a release build does not have. *)
Definition child_argv (python app_spec : string) : string * list string :=
  (python, ["-m"; "cauli._exec"; "--app"; app_spec]%string).

Definition job_cap (c : StartCfg) : Z := Z.max (wrap64 (wrap64 (2 * workers c) * Z.max (child_threads c) 1)) 1.

Definition admission_permits (c : StartCfg) : Z :=
  Z.max (sat_mul (workers c) (sat_add (Z.max (child_threads c) 1) (prefetch c))) 1.

Inductive pool_mode := ForkServer | Stdio | Disabled.

Record CpuPool := { tx_open : bool; tx_cap : Z; admission : Z; overflow : Z; child_pids : list Z; mode : pool_mode }.

(** [disabled]: a channel with no receiver. *)
Definition disabled : CpuPool :=
  {| tx_open := false; tx_cap := 1; admission := 1; overflow := 0; child_pids := []; mode := Disabled |}.

(** [start], given whether the fork server came up, and with which parent pid. *)
Definition start (c : StartCfg) (fork_server : option Z) : CpuPool :=
  let m pids md := {| tx_open := true; tx_cap := job_cap c; admission := admission_permits c; overflow := 0; child_pids := pids; mode := md |} in
  match no_fork_server c, fork_server with
  | false, Some parent => m [parent] ForkServer
  | _, _ => m [] Stdio
  end.

(** ** Pids *)

(** [kill_pid], as the pids it signals. *)
Definition kill_pid (pid : Z) : list Z := if pid <=? 1 then [] else [pid].

Definition track_pid (pids : list Z) (pid : Z) (add : bool) : list Z :=
  if add then pids ++ [pid] else filter (fun p => p <> pid) pids.

Definition kill_children (p : CpuPool) : list Z := concat (kill_pid <$> child_pids p).

(** ** The fork-server control channel *)

Definition index (v : value) (k : string) : value :=
  match v with Obj l => default Null (assoc k (reverse l)) | _ => Null end.

Definition value_as_u64 (v : value) : option Z := match v with Num t => as_u64_number t | _ => None end.

Definition is_true (v : value) : bool := match v with Bool true => true | _ => false end.

(** [wait_server_ready], on the line, when there was one. *)
Definition server_ready (v : option value) : bool := match v with Some v => is_true (index v "server") | None => false end.

Inductive ForkResult := Forked (pid : Z) | Refused | Broken.

(** [request_fork]: the reply's meaning; [None] is a timeout, an EOF or an
    unparseable line. *)
Definition request_fork (reply : option value) : ForkResult :=
  match reply with
  | None => Broken
  | Some v =>
      match value_as_u64 (index v "forked") with
      | Some p => if 1 <? p then Forked (p mod 4294967296) else
          match v with Obj l => if bool_decide (is_Some (assoc "error" l)) then Refused else Broken | _ => Broken end
      | None => match v with Obj l => if bool_decide (is_Some (assoc "error" l)) then Refused else Broken | _ => Broken end
      end
  end.

Inductive control_event := ForkedChild (pid : Z) | Slept (ms : Z) | RespawnedParent.

(** [parent_control_loop] on one fork request: the replies it consumes until the
    fork succeeds, and what it did; [None] when the replies run out first. *)
Fixpoint fork_until_done (backoff_ms : Z) (replies : list (option value)) : option (list control_event * list (option value)) :=
  match replies with
  | [] => None
  | r :: rest =>
      match request_fork r with
      | Forked pid => Some ([ForkedChild pid], rest)
      | Refused => '(es, rest') ← fork_until_done (Z.min (backoff_ms * 2) 2000) rest; Some (Slept backoff_ms :: es, rest')
      | Broken => '(es, rest') ← fork_until_done backoff_ms rest; Some (RespawnedParent :: es, rest')
      end
  end.

(** [read_child_ready]: the peer's uid, the kernel's pid, and the ready line. *)
Definition read_child_ready (our_uid peer_uid : Z) (peer_pid : option Z) (line : option value) (child_threads : Z) : option (Z * Z) :=
  if negb (peer_uid =? our_uid) then None else
  v ← line;
  if negb (is_true (index v "ready")) then None else
  let claimed := p ← value_as_u64 (index v "pid"); if 1 <? p then Some (p mod 4294967296) else None in
  let kernel := p ← peer_pid; if (0 <=? p) && (p <=? u32_max) && (1 <? p) then Some p else None in
  pid ← match kernel with Some p => Some p | None => claimed end;
  let concurrency := Z.max (default 1 (value_as_u64 (index v "concurrency"))) 1 in
  Some (pid, Z.min concurrency child_threads).

(** ** Slots *)

Inductive ServeExit := SShutdown | SRecycled | SDied.

(** What one turn of [slot_loop] meets: no one to take its fork request, or what
    follows the request. *)
Inductive slot_turn := ForkClosed | NoChild | ConnClosed | Served (e : ServeExit).
Inductive slot_event := AskFork | Wait (ms : Z).

(** [slot_loop] from its first fork request: what it does, turn by turn. *)
Fixpoint slot_loop (backoff_ms : Z) (turns : list slot_turn) : list slot_event :=
  match turns with
  | [] => [AskFork]
  | ForkClosed :: _ => []
  | NoChild :: rest => AskFork :: slot_loop backoff_ms rest
  | ConnClosed :: _ => [AskFork]
  | Served SShutdown :: _ => [AskFork]
  | Served SRecycled :: rest => AskFork :: slot_loop 100 rest
  | Served SDied :: rest => AskFork :: Wait backoff_ms :: slot_loop (Z.min (backoff_ms * 2) 2000) rest
  end.

(** ** [serve_child] *)

Record ServeCfg := { concurrency : nat; sc_prefetch : nat; sc_recycle : nat }.

Definition queue_depth (c : ServeCfg) : nat := (concurrency c + sc_prefetch c)%nat.

Record Pending := { p_timeout_ms : Z; deadline : option Z }.

Record PendingWrite := { w_id : string; w_len : Z; w_sent : Z; w_timeout_ms : Z; w_budget : Z }.

Inductive ChildGone := Exited | HardTimeout | Wedged | Recycled | Shutdown.

(** [idle_count] and [inflight_cpu] are this connection's share of the shared
    counters; [accepted] the jobs it took from the channel. *)
Record serve := {
  pending : gmap string Pending;
  order : list string;
  completed : nat;
  pending_write : option PendingWrite;
  write_stall_since : option Z;
  idle : bool;
  idle_count : Z;
  inflight_cpu : Z;
  answers : list (string * CpuOutcome);
  accepted : list string;
}.

Definition serve_init : serve :=
  {| pending := ∅; order := []; completed := 0; pending_write := None; write_stall_since := None; idle := true;
     idle_count := 1; inflight_cpu := 0; answers := []; accepted := [] |}.

(** [deadline_for]: an [Instant] (a signed 64 bit count of seconds) holds any
    [u64] of milliseconds from now, so its [checked_add] succeeds. *)
Definition deadline_for (now timeout_ms : Z) : Z := now + timeout_ms.

Definition is_armed (p : Pending) : bool := match deadline p with Some _ => true | None => false end.

Fixpoint arm (now : Z) (conc armed : nat) (order : list string) (m : gmap string Pending) : gmap string Pending :=
  match order with
  | [] => m
  | id :: rest =>
      if (conc <=? armed)%nat then m else
      match m !! id with
      | Some p =>
          if is_armed p then arm now conc armed rest m
          else arm now conc (S armed) rest
                 (<[id := {| p_timeout_ms := p_timeout_ms p; deadline := Some (deadline_for now (p_timeout_ms p)) |}]> m)
      | None => arm now conc armed rest m
      end
  end.

Definition armed_count (m : gmap string Pending) : nat := size (filter (fun kp => is_armed kp.2) m).

Definition arm_started (now : Z) (conc : nat) (order : list string) (m : gmap string Pending) : gmap string Pending :=
  arm now conc (armed_count m) order m.

Definition min_deadline (m : gmap string Pending) : option Z :=
  map_fold (fun _ p acc => match deadline p, acc with
    | Some d, Some a => Some (Z.min d a) | Some d, None => Some d | None, a => a end) None m.

Definition writing (s : serve) : nat := match pending_write s with Some _ => 1 | None => 0 end.

(** The top of the loop: the idle share, and the stall clock. *)
Definition loop_top (c : ServeCfg) (now : Z) (s : serve) : serve :=
  let now_idle := (size (pending s) + writing s <? concurrency c)%nat in
  let stalled := match pending_write s, min_deadline (pending s) with Some _, None => true | _, _ => false end in
  {| pending := pending s; order := order s; completed := completed s; pending_write := pending_write s;
     write_stall_since := if stalled then Some (default now (write_stall_since s)) else None;
     idle := now_idle;
     idle_count := if Bool.eqb now_idle (idle s) then idle_count s else if now_idle then idle_count s + 1 else idle_count s - 1;
     inflight_cpu := inflight_cpu s; answers := answers s; accepted := accepted s |}.

Inductive serve_event :=
| ELine (rid : option string) (line : string)
| EClosed
| EJob (job : CpuJob)
| EJobsClosed
| EWrote (n : Z)
| EWriteErr
| EDeadline
| EFallback
| EDropped.

(** The branches of the [select!] that may fire; [others] is the rest of
    [idle_slots.count]. *)
Definition enabled (c : ServeCfg) (now others : Z) (s : serve) (e : serve_event) : bool :=
  let may_admit := idle s || (idle_count s + others =? 0) in
  match e with
  | ELine _ _ | EClosed => true
  | EJob _ | EJobsClosed =>
      (writing s =? 0)%nat && (size (pending s) <? queue_depth c)%nat && may_admit &&
      ((sc_recycle c =? 0)%nat || (completed s + size (pending s) <? sc_recycle c)%nat)
  | EWrote _ | EWriteErr => (writing s =? 1)%nat
  | EDeadline => match min_deadline (pending s) with Some d => d <=? now | None => false end
  | EFallback =>
      match write_stall_since s, pending_write s with
      | Some since, Some w => since + w_budget w <=? now
      | _, _ => false
      end
  | EDropped => negb may_admit
  end.

Definition set_pw (s : serve) (w : option PendingWrite) (acc : list string) (ans : list (string * CpuOutcome)) : serve :=
  {| pending := pending s; order := order s; completed := completed s; pending_write := w;
     write_stall_since := write_stall_since s; idle := idle s; idle_count := idle_count s;
     inflight_cpu := inflight_cpu s; answers := ans; accepted := acc |}.

Definition handle (c : ServeCfg) (now : Z) (s : serve) (e : serve_event) : serve * option ChildGone :=
  match e with
  | ELine rid line =>
      match rid ≫= fun id => (id,.) <$> pending s !! id with
      | Some (id, _) =>
          let order' := filter (fun x => x <> id) (order s) in
          let pending' := arm_started now (concurrency c) order' (delete id (pending s)) in
          let completed' := S (completed s) in
          ({| pending := pending'; order := order'; completed := completed'; pending_write := pending_write s;
              write_stall_since := write_stall_since s; idle := idle s; idle_count := idle_count s;
              inflight_cpu := inflight_cpu s - 1; answers := answers s ++ [(id, Resp line)]; accepted := accepted s |},
           if (0 <? sc_recycle c)%nat && (sc_recycle c <=? completed')%nat && (size pending' =? 0)%nat
           then Some Recycled else None)
      | None => (s, None)
      end
  | EClosed => (s, Some Exited)
  | EJob job =>
      (set_pw s (Some {| w_id := cj_id job; w_len := Z.of_nat (length (bytes_of (cj_req_line job))) + 1; w_sent := 0;
                         w_timeout_ms := cj_timeout_ms job; w_budget := Z.min (cj_timeout_ms job) 5000 |})
         (accepted s ++ [cj_id job]) (answers s), None)
  | EJobsClosed => (s, Some Shutdown)
  | EWrote n =>
      match pending_write s with
      | Some w =>
          if n <=? 0 then (set_pw s None (accepted s) (answers s ++ [(w_id w, Lost)]), Some Exited)
          else if w_len w <=? w_sent w + n then
            let order' := order s ++ [w_id w] in
            let pending' := arm_started now (concurrency c) order'
              (<[w_id w := {| p_timeout_ms := w_timeout_ms w; deadline := None |}]> (pending s)) in
            ({| pending := pending'; order := order'; completed := completed s; pending_write := None;
                write_stall_since := write_stall_since s; idle := idle s; idle_count := idle_count s;
                inflight_cpu := inflight_cpu s + 1; answers := answers s; accepted := accepted s |}, None)
          else
            (set_pw s (Some {| w_id := w_id w; w_len := w_len w; w_sent := w_sent w + n;
                               w_timeout_ms := w_timeout_ms w; w_budget := w_budget w |}) (accepted s) (answers s), None)
      | None => (s, None)
      end
  | EWriteErr =>
      match pending_write s with
      | Some w => (set_pw s None (accepted s) (answers s ++ [(w_id w, Lost)]), Some Exited)
      | None => (s, None)
      end
  | EDeadline => (s, Some HardTimeout)
  | EFallback => (s, Some Wedged)
  | EDropped => (s, None)
  end.

(** What one turn of the loop meets: the time at its top, the other slots' idle
    count there, then the event and its time. *)
Record turn := { t_top : Z; t_others : Z; t_now : Z; t_event : serve_event }.

(** The loop over its turns; [None] when an event was not enabled. *)
Fixpoint serve_run (c : ServeCfg) (evs : list turn) (s : serve) : option (serve * option ChildGone) :=
  match evs with
  | [] => Some (s, None)
  | {| t_top := top; t_others := others; t_now := now; t_event := e |} :: rest =>
      let s := loop_top c top s in
      if enabled c now others s e then
        match handle c now s e with
        | (s', None) => serve_run c rest s'
        | (s', Some g) => Some (s', Some g)
        end
      else None
  end.

Definition is_exited (g : ChildGone) : bool := match g with Exited => true | _ => false end.

(** After the loop: the kill decision, the drain, the restored shares. *)
Definition drain_outcome (g : ChildGone) (now : Z) (p : Pending) : CpuOutcome :=
  match g, deadline p with
  | HardTimeout, Some d => if d <=? now then Timeout_ else Lost
  | _, _ => Lost
  end.

Definition serve_finish (pid : Z) (g : ChildGone) (now : Z) (s : serve) : list Z * serve * ServeExit :=
  (if is_exited g then [] else kill_pid pid,
   {| pending := ∅; order := order s; completed := completed s; pending_write := None;
      write_stall_since := write_stall_since s; idle := idle s;
      idle_count := if idle s then idle_count s else idle_count s + 1;
      inflight_cpu := inflight_cpu s - Z.of_nat (size (pending s));
      answers := answers s ++ match pending_write s with Some w => [(w_id w, Lost)] | None => [] end ++
                 ((fun kp => (kp.1, drain_outcome g now kp.2)) <$> map_to_list (pending s));
      accepted := accepted s |},
   match g with Shutdown => SShutdown | Recycled => SRecycled | _ => SDied end).

(** ** Stdio mode: one request in flight per child *)

Inductive stdio_reply := StdioWriteErr | StdioResp (line : string) | StdioDied | StdioTimeout.

(** [stdio_child_loop]'s inner loop: each job with what became of it; returns
    the answers, the inflight share left, and whether the end was planned. *)
Fixpoint stdio_serve (recycle completed : nat) (inflight : Z) (jobs : list (CpuJob * stdio_reply))
    : list (string * CpuOutcome) * Z * option bool :=
  match jobs with
  | [] => ([], inflight, None)
  | (j, r) :: rest =>
      let inflight := inflight + 1 in
      match r with
      | StdioWriteErr => ([(cj_id j, Lost)], inflight - 1, Some true)
      | StdioResp line =>
          if (0 <? recycle)%nat && (recycle <=? S completed)%nat then ([(cj_id j, Resp line)], inflight - 1, Some false)
          else let '(a, n, d) := stdio_serve recycle (S completed) (inflight - 1) rest in ((cj_id j, Resp line) :: a, n, d)
      | StdioDied => ([(cj_id j, Lost)], inflight - 1, Some true)
      | StdioTimeout => ([(cj_id j, Timeout_)], inflight - 1, Some true)
      end
  end.

(** The respawn backoff after one child, planned or not. *)
Definition stdio_backoff (backoff_ms : Z) (died_unplanned : bool) : Z * Z :=
  if died_unplanned then (backoff_ms, Z.min (backoff_ms * 2) 2000) else (0, 100).

(** ** Clocks *)

Definition armed_in (m : gmap string Pending) (id : string) : bool :=
  match m !! id with Some p => is_armed p | None => false end.

Definition cnt (m : gmap string Pending) (l : list string) : nat := length (filter (fun id => armed_in m id = true) l).

Lemma cnt_le m l : (cnt m l <= length l)%nat.
Proof. apply length_filter. Qed.

Lemma cnt_cons m id l : cnt m (id :: l) = ((if armed_in m id then 1 else 0) + cnt m l)%nat.
Proof. unfold cnt. rewrite filter_cons. destruct (armed_in m id); by case_decide. Qed.

Lemma cnt_app m l1 l2 : cnt m (l1 ++ l2) = (cnt m l1 + cnt m l2)%nat.
Proof. unfold cnt. by rewrite filter_app, length_app. Qed.

Lemma cnt_ext m m' l : (forall id, id ∈ l -> armed_in m id = armed_in m' id) -> cnt m l = cnt m' l.
Proof.
  induction l as [|id l IH]; intros H; [done|]. rewrite !cnt_cons, (H id), IH; [done| |apply list_elem_of_here].
  intros x Hx. apply H. by apply list_elem_of_further.
Qed.

(** [order] lists the pending ids, each once. *)
Definition listed (m : gmap string Pending) (l : list string) : Prop := NoDup l /\ forall id, id ∈ l <-> is_Some (m !! id).

Lemma listed_dom m l : listed m l -> dom m = list_to_set l.
Proof. intros [_ H]. apply set_eq. intros id. by rewrite elem_of_dom, elem_of_list_to_set, H. Qed.

Lemma listed_size m l : listed m l -> size m = length l.
Proof. intros H. rewrite <- size_dom, (listed_dom m l H). apply size_list_to_set, H. Qed.

Lemma listed_armed m l : listed m l -> armed_count m = cnt m l.
Proof.
  intros H. unfold armed_count, cnt. rewrite <- size_dom.
  assert (E : dom (filter (fun kp : string * Pending => is_armed kp.2) m) =
    list_to_set (filter (fun id => armed_in m id = true) l)).
  { apply set_eq. intros id. rewrite elem_of_dom, elem_of_list_to_set, list_elem_of_filter.
    unfold armed_in. split.
    - intros [p [Hp Ha]%map_lookup_filter_Some]. rewrite Hp. cbn in Ha. destruct (is_armed p) eqn:E; [|done].
      split; [done|]. apply H. eauto.
    - intros [Ha Hin]. destruct (m !! id) as [p|] eqn:Hp; [|done]. exists p. apply map_lookup_filter_Some.
      split; [done|]. cbn. by rewrite Ha. }
  rewrite E. apply size_list_to_set. apply NoDup_filter, H.
Qed.

Lemma arm_lookup now conc l : forall armed m id,
  match m !! id, arm now conc armed l m !! id with
  | Some p, Some p' => p_timeout_ms p' = p_timeout_ms p /\ (deadline p' = deadline p \/ deadline p' = Some (now + p_timeout_ms p))
  | None, None => True
  | _, _ => False
  end.
Proof.
  induction l as [|x l IH]; intros armed m id; cbn [arm].
  - destruct (m !! id); auto.
  - destruct (conc <=? armed)%nat; [destruct (m !! id); auto|].
    destruct (m !! x) as [p|] eqn:Ex; [destruct (is_armed p) eqn:Ea|]; [apply IH| |apply IH].
    match goal with |- context [arm _ _ ?a _ ?m'] => specialize (IH a m' id) end.
    destruct (decide (id = x)) as [->|Hne].
    + rewrite lookup_insert_eq in IH. rewrite Ex. destruct (_ !! x) as [p'|]; [|done]. cbn in IH.
      destruct IH as [-> [->| ->]]; auto.
    + by rewrite lookup_insert_ne in IH by done.
Qed.

Lemma arm_listed now conc armed l m l0 : listed m l0 -> listed (arm now conc armed l m) l0.
Proof.
  intros [H1 H2]. split; [done|]. intros id. rewrite H2. pose proof (arm_lookup now conc l armed m id).
  destruct (m !! id), (arm now conc armed l m !! id); try done; split; intros [? ?]; eauto; done.
Qed.

Lemma arm_out now conc l : forall armed m id, id ∉ l -> arm now conc armed l m !! id = m !! id.
Proof.
  induction l as [|x l IH]; intros armed m id Hn; cbn [arm]; [done|].
  apply not_elem_of_cons in Hn as [H1 H2]. destruct (conc <=? armed)%nat; [done|].
  destruct (m !! x) as [p|]; [destruct (is_armed p)|]; rewrite IH by done; [done| |done].
  by rewrite lookup_insert_ne.
Qed.

(** Arming starts exactly as many clocks as there is room for. *)
Lemma arm_count now conc l : forall armed m, NoDup l -> (forall id, id ∈ l -> is_Some (m !! id)) -> (armed <= conc)%nat ->
  cnt (arm now conc armed l m) l = (cnt m l + Nat.min (conc - armed) (length l - cnt m l))%nat.
Proof.
  induction l as [|x l IH]; intros armed m HN HD Ha; [cbn; lia|].
  inversion HN as [|?? Hx HN']; subst. pose proof (cnt_le m l). cbn [arm].
  destruct (Nat.leb_spec conc armed); [replace (conc - armed)%nat with 0%nat by lia; lia|].
  assert (HD' : forall id, id ∈ l -> is_Some (m !! id)) by (intros; apply HD; by apply list_elem_of_further).
  destruct (HD x (list_elem_of_here _ _)) as [p Hp]. rewrite Hp. rewrite !cnt_cons. cbn [length].
  assert (Ax : armed_in m x = is_armed p) by (unfold armed_in; by rewrite Hp). rewrite Ax.
  destruct (is_armed p) eqn:Ep.
  - rewrite IH by done. assert (E : armed_in (arm now conc armed l m) x = true).
    { unfold armed_in. rewrite arm_out by done. by rewrite Hp. } rewrite E. lia.
  - set (m' := <[x := _]> m).
    assert (E : armed_in (arm now conc (S armed) l m') x = true).
    { unfold armed_in. rewrite arm_out by done. unfold m'. by rewrite lookup_insert_eq. }
    assert (Ec : cnt m' l = cnt m l).
    { apply cnt_ext. intros id Hid. unfold armed_in, m'. rewrite lookup_insert_ne; [done|]. intros ->. done. }
    rewrite E, IH, Ec; [lia|done| |lia]. intros id Hid. unfold m'. rewrite lookup_insert_ne; [by apply HD'|].
    intros ->. done.
Qed.

Lemma arm_started_spec now conc l m : listed m l -> (cnt m l <= conc)%nat ->
  listed (arm_started now conc l m) l /\ cnt (arm_started now conc l m) l = Nat.min conc (length l).
Proof.
  intros HL Hc. unfold arm_started. rewrite (listed_armed m l HL). split; [by apply arm_listed|].
  pose proof (cnt_le m l). rewrite arm_count; [lia|apply HL|intros; by apply HL|done].
Qed.

(** ** The loop's invariant *)

Record serve_inv (c : ServeCfg) (s : serve) : Prop := {
  si_listed : listed (pending s) (order s);
  si_depth : (length (order s) + writing s <= queue_depth c)%nat;
  si_recycle : (0 < sc_recycle c)%nat -> (completed s + length (order s) + writing s <= sc_recycle c)%nat;
  si_armed : cnt (pending s) (order s) = Nat.min (concurrency c) (length (order s));
  si_inflight : inflight_cpu s = Z.of_nat (length (order s));
  si_idle : idle_count s = if idle s then 1 else 0;
  si_jobs : accepted s ≡ₚ (answers s).*1 ++ order s ++ match pending_write s with Some w => [w_id w] | None => [] end;
  si_resp : Forall (fun a => match a.2 with Resp _ => True | _ => False end) (answers s);
}.

Lemma serve_inv_init c : serve_inv c serve_init.
Proof.
  split; cbn; try done; try lia.
  split; [constructor|]. intros id. rewrite lookup_empty.
  split; [intros H; by apply not_elem_of_nil in H|intros [? ?]; done].
Qed.

Lemma loop_top_inv c now s : serve_inv c s -> serve_inv c (loop_top c now s).
Proof.
  intros []. unfold loop_top. generalize (size (pending s) + writing s <? concurrency c)%nat. intros now_idle.
  split; cbn; try done. rewrite si_idle0. by destruct now_idle, (idle s).
Qed.

Lemma listed_delete m l id : listed m l -> listed (delete id m) (filter (fun x => x <> id) l).
Proof.
  intros [H1 H2]. split; [by apply NoDup_filter|]. intros x. rewrite list_elem_of_filter, H2.
  destruct (decide (x = id)) as [->|]; [rewrite lookup_delete_eq; split; [naive_solver|intros [? ?]; done]|].
  rewrite lookup_delete_ne by done. tauto.
Qed.

Lemma listed_insert m l id p : listed m l -> id ∉ l -> listed (<[id := p]> m) (l ++ [id]).
Proof.
  intros [H1 H2] Hn. split; [apply NoDup_app; split_and!; [done|set_solver|repeat constructor; set_solver]|].
  intros x. rewrite elem_of_app, list_elem_of_singleton, H2.
  destruct (decide (x = id)) as [->|]; [rewrite lookup_insert_eq; naive_solver|rewrite lookup_insert_ne by done; tauto].
Qed.

Lemma filter_ne_id (l : list string) id : id ∉ l -> filter (fun x => x <> id) l = l.
Proof.
  induction l as [|x l IH]; intros Hn; [done|]. apply not_elem_of_cons in Hn as [H1 H2].
  rewrite filter_cons_True by done. by rewrite IH.
Qed.

Lemma filter_remove (l : list string) id : NoDup l -> id ∈ l -> l ≡ₚ id :: filter (fun x => x <> id) l.
Proof.
  induction 1 as [|x l Hx HN IH]; intros Hin; [by apply not_elem_of_nil in Hin|].
  rewrite filter_cons. destruct (decide (x = id)) as [->|Hne].
  - rewrite decide_False by tauto. constructor.
    by rewrite filter_ne_id.
  - rewrite decide_True by done. apply elem_of_cons in Hin as [->|Hin]; [done|].
    rewrite IH at 1 by done. apply Permutation_swap.
Qed.

Lemma cnt_delete m l id : NoDup l -> id ∈ l ->
  (cnt (delete id m) (filter (fun x => x <> id) l) = cnt m (filter (fun x => x <> id) l))%nat.
Proof.
  intros _ _. apply cnt_ext. intros x [Hx _]%list_elem_of_filter. unfold armed_in. by rewrite lookup_delete_ne.
Qed.

Lemma cnt_perm m l1 l2 : l1 ≡ₚ l2 -> cnt m l1 = cnt m l2.
Proof. intros P. unfold cnt. by rewrite P. Qed.

(** What is left when the loop stops, for whatever reason. *)
Definition exit_ok (s : serve) (g : ChildGone) : Prop :=
  listed (pending s) (order s) /\ inflight_cpu s = Z.of_nat (length (order s)) /\
  idle_count s = (if idle s then 1 else 0) /\
  accepted s ≡ₚ (answers s).*1 ++ order s ++ match pending_write s with Some w => [w_id w] | None => [] end /\
  (g = Recycled -> order s = [] /\ pending_write s = None /\ Forall (fun a => match a.2 with Resp _ => True | _ => False end) (answers s)) /\
  (forall id, (id, Timeout_) ∉ answers s).

Definition after (c : ServeCfg) (r : serve * option ChildGone) : Prop :=
  match r with (s, None) => serve_inv c s | (s, Some g) => exit_ok s g end.

Lemma no_timeouts c s : serve_inv c s -> forall id, (id, Timeout_) ∉ answers s.
Proof. intros HI id Hin. pose proof (si_resp _ _ HI) as Re. rewrite Forall_forall in Re. by specialize (Re _ Hin). Qed.

Lemma stop_now c s g : serve_inv c s -> g <> Recycled -> exit_ok s g.
Proof. intros HI Hg. destruct (HI). split_and!; try done. by apply (no_timeouts c). Qed.

(** The connection died under a half written request: that job is lost. *)
Lemma lost_write_stops c s w : serve_inv c s -> pending_write s = Some w ->
  exit_ok (set_pw s None (accepted s) (answers s ++ [(w_id w, Lost)])) Exited.
Proof.
  intros HI Ew. destruct (HI) as [L D Rc A I Id J Re]. rewrite Ew in J. split_and!; try done; cbn.
  - rewrite J, fmap_app. cbn. rewrite app_nil_r, <- app_assoc. apply Permutation_app_head. by rewrite Permutation_app_comm.
  - intros id [Hin|Hin]%elem_of_app; [by apply (no_timeouts c s HI id)|]. by apply list_elem_of_singleton in Hin.
Qed.

(** A response: its job leaves, and the next in order starts its clock. *)
Lemma line_inv c now s id p line : serve_inv c s -> pending s !! id = Some p ->
  serve_inv c (handle c now s (ELine (Some id) line)).1.
Proof.
  intros [L D Rc A I Id J Re] Hp. cbn [handle mbind option_bind]. rewrite Hp. cbn [fmap option_fmap option_map fst].
  assert (Hin : id ∈ order s) by (apply L; eauto).
  pose proof (filter_remove _ _ (proj1 L) Hin) as P. set (order' := filter (fun x => x <> id) (order s)) in *.
  assert (Hlen : length (order s) = S (length order')) by (by rewrite P).
  destruct (arm_started_spec now (concurrency c) order' (delete id (pending s))) as [L' A'].
  { by apply listed_delete. }
  { unfold order'. rewrite cnt_delete; [|apply L|done]. rewrite (cnt_perm _ _ _ P), cnt_cons in A. fold order'. lia. }
  split; cbn; try done; try lia.
  - unfold writing in *. cbn. lia.
  - intros Hr. specialize (Rc Hr). unfold writing in *. cbn. lia.
  - rewrite J, P, fmap_app. cbn. by rewrite <- !app_assoc.
  - apply Forall_app. split; [done|]. by repeat constructor.
Qed.

(** The last response before a recycle leaves nothing pending or half written. *)
Lemma line_after c now s id p line : serve_inv c s -> pending s !! id = Some p ->
  after c (handle c now s (ELine (Some id) line)).
Proof.
  intros HI Hp. pose proof (line_inv c now s id p line HI Hp) as HI'. revert HI'.
  cbn [handle mbind option_bind]. rewrite Hp. cbn [fmap option_fmap option_map fst after]. intros HI'.
  destruct (0 <? sc_recycle c)%nat eqn:E1; [|exact HI']. destruct (sc_recycle c <=? S (completed s))%nat eqn:E2; [|exact HI'].
  destruct (size _ =? 0)%nat eqn:E3; [|exact HI']. apply Nat.ltb_lt in E1. apply Nat.leb_le in E2. apply Nat.eqb_eq in E3.
  pose proof (no_timeouts c _ HI') as NT. destruct HI' as [L2 D2 R2 A2 I2 Id2 J2 Re2]. split_and!; try done.
  intros _. specialize (R2 E1). cbn [pending order completed] in *. rewrite (listed_size _ _ L2) in E3.
  split_and!; [by apply length_zero_iff_nil in E3| |done]. unfold writing in R2. cbn in *. destruct (pending_write s); [lia|done].
Qed.

(** A job taken from the channel becomes the pending write. *)
Lemma job_inv c now others s job : serve_inv c s -> enabled c now others s (EJob job) = true ->
  serve_inv c (handle c now s (EJob job)).1.
Proof.
  intros [L D Rc A I Id J Re] He. cbn in He.
  apply andb_true_iff in He as [He Hr]. apply andb_true_iff in He as [He _]. apply andb_true_iff in He as [Hw Hd].
  unfold writing in *. destruct (pending_write s) eqn:Ew; [done|]. rewrite (listed_size _ _ L) in Hd, Hr.
  apply Nat.ltb_lt in Hd. split; cbn; try done; unfold writing; cbn; try lia.
  - intros H0. destruct (sc_recycle c =? 0)%nat eqn:E0; [apply Nat.eqb_eq in E0; lia|]. cbn in Hr. apply Nat.ltb_lt in Hr. lia.
  - rewrite J, !app_nil_r. by rewrite app_assoc.
Qed.

(** A write that moved: lost, still going, or in full and now in flight. *)
Lemma wrote_after c now s n w : serve_inv c s -> pending_write s = Some w -> NoDup (accepted s) ->
  after c (handle c now s (EWrote n)).
Proof.
  intros HI Ew HN. cbn [handle]. rewrite Ew. destruct (n <=? 0); [by apply (lost_write_stops c)|].
  destruct (HI) as [L D Rc A I Id J Re]. unfold writing in D, Rc. rewrite Ew in D, Rc, J.
  destruct (w_len w <=? w_sent w + n).
  2: { split; cbn; unfold writing; cbn; done. }
  assert (Hn : w_id w ∉ order s).
  { intros Hin. rewrite J in HN. rewrite app_assoc in HN. apply NoDup_app in HN as (_ & HN & _).
    apply (HN (w_id w)); [apply elem_of_app; by right|apply list_elem_of_here]. }
  destruct (arm_started_spec now (concurrency c) (order s ++ [w_id w])
    (<[w_id w := {| p_timeout_ms := w_timeout_ms w; deadline := None |}]> (pending s))) as [L' A'].
  { by apply listed_insert. }
  { rewrite cnt_app, cnt_cons. unfold armed_in at 1. rewrite lookup_insert_eq. cbn.
    rewrite (cnt_ext _ (pending s)); [lia|]. intros x Hx. unfold armed_in. rewrite lookup_insert_ne; [done|]. by intros <-. }
  split; cbn; unfold writing; cbn; rewrite ?length_app; cbn; try done; try lia.
  { unfold cnt in A'. by rewrite A', length_app. }
  rewrite J. by rewrite app_nil_r.
Qed.

Lemma handle_inv c now others s e : serve_inv c s -> enabled c now others s e = true -> NoDup (accepted s) ->
  after c (handle c now s e).
Proof.
  intros HI He HN. destruct e as [[id|] line| |job| |n| | | |]; try exact HI; try by apply (stop_now c).
  - destruct (pending s !! id) as [p|] eqn:Hp; [by eapply line_after|]. cbn. by rewrite Hp.
  - by apply (job_inv c now others).
  - cbn in He. unfold writing in He. destruct (pending_write s) as [w|] eqn:Ew; [by eapply wrote_after|done].
  - cbn in He. unfold writing in He. destruct (pending_write s) as [w|] eqn:Ew; [|done]. cbn. rewrite Ew. by apply (lost_write_stops c).
Qed.

(** The jobs of a run, and the wire ids' promise: one per job. *)
Definition job_ids (evs : list turn) : list string :=
  omap (fun x => match t_event x with EJob j => Some (cj_id j) | _ => None end) evs.

Lemma handle_accepted c now s e : accepted (handle c now s e).1 =
  accepted s ++ match e with EJob j => [cj_id j] | _ => [] end.
Proof. destruct e; cbn; repeat case_match; cbn; by rewrite ?app_nil_r. Qed.

Lemma serve_run_inv c evs : forall s s' g,
  serve_inv c s -> NoDup (accepted s ++ job_ids evs) -> serve_run c evs s = Some (s', g) ->
  match g with None => serve_inv c s' | Some g => exit_ok s' g end.
Proof.
  induction evs as [|[top others now e] evs IH]; intros s s' g HI HN; cbn [serve_run].
  - by intros [= <- <-].
  - set (s1 := loop_top c top s). assert (H1 : serve_inv c s1) by (by apply loop_top_inv).
    destruct (enabled c now others s1 e) eqn:He; [|done].
    destruct (handle c now s1 e) as [s2 g2] eqn:Hh.
    assert (HJ : job_ids ({| t_top := top; t_others := others; t_now := now; t_event := e |} :: evs) = match e with EJob j => [cj_id j] | _ => [] end ++ job_ids evs) by (by destruct e).
    rewrite HJ, app_assoc in HN. change (accepted s) with (accepted s1) in HN.
    apply NoDup_app in HN as HN'. destruct HN' as (HN1 & _).
    pose proof (handle_inv c now others s1 e H1 He (proj1 (proj1 (NoDup_app _ _) HN1))) as HS. rewrite Hh in HS.
    destruct g2 as [g2|].
    + intros [= <- <-]. exact HS.
    + intros HR. eapply IH; [exact HS| |exact HR].
      pose proof (handle_accepted c now s1 e) as HA. rewrite Hh in HA. cbn in HA. by rewrite HA.
Qed.

(** While a child is served, exactly [min(concurrency, in flight)] of its
    requests have their hard timeout clock running, so a staged request cannot
    time out unstarted nor a started one run unclocked; no more than
    [concurrency + prefetch] are in flight or being written, completed plus in
    flight never passes the recycle budget, and the shared counters carry
    exactly this child's share. *)
Theorem serve_bounds c evs s :
  NoDup (job_ids evs) -> serve_run c evs serve_init = Some (s, None) ->
  armed_count (pending s) = Nat.min (concurrency c) (size (pending s)) /\
  (size (pending s) + writing s <= queue_depth c)%nat /\
  ((0 < sc_recycle c)%nat -> (completed s + size (pending s) + writing s <= sc_recycle c)%nat) /\
  inflight_cpu s = Z.of_nat (size (pending s)) /\ idle_count s = (if idle s then 1 else 0).
Proof.
  intros HN HR. destruct (serve_run_inv c evs serve_init s None (serve_inv_init c) HN HR) as [L D Rc A I Id _ _].
  rewrite (listed_armed _ _ L), (listed_size _ _ L). auto.
Qed.

Definition toy_cfg : ServeCfg := {| concurrency := 1; sc_prefetch := 1; sc_recycle := 5 |}.
Definition toy_job (id : string) : CpuJob := {| cj_id := id; cj_req_line := "x"; cj_timeout_ms := 100 |}.
Definition toy_turn (top now : Z) (e : serve_event) : turn := {| t_top := top; t_others := 0; t_now := now; t_event := e |}.
Definition toy_evs : list turn :=
  [toy_turn 0 0 (EJob (toy_job "a")); toy_turn 0 1 (EWrote 2); toy_turn 1 2 (EJob (toy_job "b")); toy_turn 2 3 (EWrote 1); toy_turn 3 4 (EWrote 1)].

Lemma serve_bounds_witness :
  exists s, serve_run toy_cfg toy_evs serve_init = Some (s, None) /\
    armed_count (pending s) = Nat.min 1 (size (pending s)).
Proof.
  eexists. split; [vm_compute; reflexivity|].
  match goal with |- armed_count (pending ?s) = _ => apply (serve_bounds toy_cfg toy_evs s) end.
  - apply (bool_decide_unpack _). vm_compute. done.
  - vm_compute. reflexivity.
Defined.

(** The drain: what was taken is answered, the shares are given back. *)
Lemma drained_spec s g now pid : exit_ok s g ->
  let '(kills, f, _) := serve_finish pid g now s in
  (answers f).*1 ≡ₚ accepted s /\ inflight_cpu f = 0 /\ idle_count f = 1 /\
  (forall id, (id, Timeout_) ∈ answers f -> g = HardTimeout /\
     exists p d, pending s !! id = Some p /\ deadline p = Some d /\ d <= now) /\
  (g = Recycled -> Forall (fun a => match a.2 with Resp _ => True | _ => False end) (answers f)).
Proof.
  intros (L & I & Id & J & Rc & NT). cbn. split_and!.
  - rewrite !fmap_app. rewrite <- list_fmap_compose. change (fst ∘ _) with (fst : string * Pending -> string).
    assert (P : (map_to_list (pending s)).*1 ≡ₚ order s).
    { apply NoDup_Permutation; [apply NoDup_fst_map_to_list|apply L|]. intros id. rewrite (proj2 L id). split.
      - intros ([k p] & -> & Hin)%list_elem_of_fmap. apply elem_of_map_to_list in Hin. eauto.
      - intros [p Hp]. apply list_elem_of_fmap. exists (id, p). split; [done|]. by apply elem_of_map_to_list. }
    rewrite P, J. apply Permutation_app_head. rewrite Permutation_app_comm. by destruct (pending_write s).
  - rewrite (listed_size _ _ L). lia.
  - destruct (idle s); lia.
  - intros id Hin. apply elem_of_app in Hin as [Hin|Hin]; [by apply NT in Hin|].
    apply elem_of_app in Hin as [Hin|Hin].
    { destruct (pending_write s); [apply list_elem_of_singleton in Hin; done|by apply not_elem_of_nil in Hin]. }
    apply list_elem_of_fmap in Hin as ([k p] & [= -> E] & Hin). apply elem_of_map_to_list in Hin.
    unfold drain_outcome in E. destruct g; try done. destruct (deadline p) as [d|] eqn:Ed; [|done].
    destruct (Z.leb_spec d now); [|done]. split; [done|]. by exists p, d.
  - intros Hg. destruct (Rc Hg) as (E1 & -> & F). apply Forall_app. split; [done|]. cbn.
    apply Forall_fmap, Forall_forall. intros [k p] Hin. apply elem_of_map_to_list in Hin.
    assert (k ∈ order s) by (apply L; eauto). rewrite E1 in *. set_solver.
Qed.

(** C18. However a child ends, every job the slot took is answered exactly once,
    the in flight and idle counters return to what they were before it, and the
    pid is signalled unless the child already exited. A [Timeout] is only ever
    a hard timeout's, and a planned recycle loses nothing. *)
Theorem serve_answers_every_job c evs s g now pid :
  NoDup (job_ids evs) -> serve_run c evs serve_init = Some (s, Some g) ->
  let '(kills, f, _) := serve_finish pid g now s in
  (answers f).*1 ≡ₚ accepted f /\ inflight_cpu f = 0 /\ idle_count f = 1 /\
  (kills = if is_exited g then [] else kill_pid pid) /\
  (forall id, (id, Timeout_) ∈ answers f -> g = HardTimeout /\
     exists p d, pending s !! id = Some p /\ deadline p = Some d /\ d <= now) /\
  (g = Recycled -> Forall (fun a => match a.2 with Resp _ => True | _ => False end) (answers f)).
Proof.
  intros HN HR. pose proof (serve_run_inv c evs serve_init s (Some g) (serve_inv_init c) HN HR) as HE.
  pose proof (drained_spec s g now pid HE) as HF. destruct (serve_finish pid g now s) as [[kills f] e] eqn:E.
  unfold serve_finish in E. injection E as <- <- _. destruct HF as (H1 & H2 & H3 & H4 & H5). by split_and!.
Qed.

Lemma serve_answers_every_job_witness :
  exists s, serve_run toy_cfg (toy_evs ++ [toy_turn 4 200 EDeadline]) serve_init = Some (s, Some HardTimeout) /\
    let '(_, f, _) := serve_finish 42 HardTimeout 200 s in (answers f).*1 ≡ₚ accepted f.
Proof.
  eexists. split; [vm_compute; reflexivity|].
  match goal with |- context [serve_finish _ _ _ ?s] =>
    pose proof (serve_answers_every_job toy_cfg (toy_evs ++ [toy_turn 4 200 EDeadline]) s HardTimeout 200 42) as H end.
  apply H; [apply (bool_decide_unpack _); vm_compute; done|vm_compute; reflexivity].
Defined.
