(* ===== verification/CpuProc.v ===== *)
(** The processes behind the cpu pool ([worker/src/cpu.rs]): the stdio slot that
    spawns, feeds and replaces its child, and the loop that owns the fork-server
    parent. Each loop is a function of what it meets, returning what it does in
    order; no child outlives its turn. *)
From S2P Require Import Prelude Envelope Cpu.
Open Scope Z_scope.

(** What a loop does to processes, and the waits and answers between. *)
Inductive event :=
| ESpawned (pid : Z)
| ETracked (pid : Z)
| EReaped (pid : Z)
| EUntracked (pid : Z)
| ESlept (ms : Z)
| EAnswered (id : string) (o : CpuOutcome)
| EForked (pid : Z)
| EDirMade
| ESockBound
| ESockRemoved.

(** [start_kill], [wait], [track_pid(.., false)]. *)
Definition put_down (pid : Z) : list event := [EReaped pid; EUntracked pid].

(** ** The stdio slot *)

(** One turn of [stdio_child_loop]: no child, a child without its ready line, or
    a child and the jobs it is given, each with what becomes of it. *)
Inductive stdio_turn := SpawnFailed | NotReady (pid : Z) | Fed (pid : Z) (jobs : list (CpuJob * stdio_reply)).

(** The jobs running out is the channel's end, which ends the loop. *)
Fixpoint stdio_child_loop (recycle : nat) (backoff_ms : Z) (turns : list stdio_turn) : list event :=
  match turns with
  | [] => []
  | SpawnFailed :: rest => ESlept 1000 :: stdio_child_loop recycle backoff_ms rest
  | NotReady pid :: rest => [ESpawned pid; ETracked pid] ++ put_down pid ++ ESlept 1000 :: stdio_child_loop recycle backoff_ms rest
  | Fed pid jobs :: rest =>
      let '(answers, _, died_unplanned) := stdio_serve recycle 0 0 jobs in
      [ESpawned pid; ETracked pid] ++ ((fun a => EAnswered a.1 a.2) <$> answers) ++ put_down pid ++
      match died_unplanned with
      | None => []
      | Some died =>
          let '(wait, backoff_ms) := stdio_backoff backoff_ms died in
          (if died then [ESlept wait] else []) ++ stdio_child_loop recycle backoff_ms rest
      end
  end.

(** ** The fork-server parent *)

(** One try of [respawn_parent]: no process, or one and whether its ready line
    came. *)
Abbreviation attempt := (option (Z * bool)).

(** Once a second until a parent is ready; [None] when the tries run out first. *)
Fixpoint respawn_parent (tries : list attempt) : list event * option Z :=
  match tries with
  | [] => ([], None)
  | None :: rest => let '(es, p) := respawn_parent rest in (ESlept 1000 :: es, p)
  | Some (pid, false) :: rest => let '(es, p) := respawn_parent rest in ([ESlept 1000; ESpawned pid; EReaped pid] ++ es, p)
  | Some (pid, true) :: _ => ([ESlept 1000; ESpawned pid; ETracked pid], Some pid)
  end.

(** What [parent_control_loop] meets: a reply to its fork command, with the tries
    of a respawn should it need one, or no slot left to ask. *)
Inductive control_input := CReply (reply : option value) (tries : list attempt) | CClosed.

Fixpoint parent_control_loop (parent backoff_ms : Z) (ins : list control_input) : list event :=
  match ins with
  | [] => []
  | CClosed :: _ => put_down parent
  | CReply reply tries :: rest =>
      match request_fork reply with
      | Forked pid => EForked pid :: parent_control_loop parent 100 rest
      | Refused => ESlept backoff_ms :: parent_control_loop parent (Z.min (backoff_ms * 2) 2000) rest
      | Broken =>
          let '(es, p) := respawn_parent tries in
          put_down parent ++ es ++ match p with Some parent => parent_control_loop parent backoff_ms rest | None => [] end
      end
  end.

(** [spawn_parent]'s command line: the children's own, then the server's
    flags. *)
Definition parent_argv (argv : list string) (sock_path : string) (child_threads : Z) : list string :=
  argv ++ ["--fork-server"; "--connect"; sock_path; "--child-threads"; dec child_threads]%string.

(** How far [start_fork_server] comes: the private directory, its mode, the
    listener, the socket's mode, then the parent. *)
Inductive server_start := NoDir | NoDirMode | NoBind | NoSockMode | Parent (spawned : attempt).

(** [start_fork_server] up to its loops, with [fork_sock_path] and
    [cleanup_sock_path]: what it does, and the parent when it came up. *)
Definition start_fork_server (s : server_start) : list event * option Z :=
  match s with
  | NoDir => ([], None)
  | NoDirMode | NoBind => ([EDirMade], None)
  | NoSockMode | Parent None => ([EDirMade; ESockBound], None)
  | Parent (Some (pid, false)) => ([EDirMade; ESockBound; ESpawned pid; EReaped pid; ESockRemoved], None)
  | Parent (Some (pid, true)) => ([EDirMade; ESockBound; ESpawned pid; ETracked pid], Some pid)
  end.

Definition fork_server (spawned : server_start) (ins : list control_input) : list event :=
  let '(es, p) := start_fork_server spawned in
  es ++ match p with Some parent => parent_control_loop parent 100 ins | None => [] end.

(** [acceptor_loop]: each accepted connection's handshake, in the order the
    handshakes end; only a good one reaches the slots. *)
Definition acceptor_loop (our_uid child_threads : Z) (conns : list (Z * option Z * option value)) : list (Z * Z) :=
  omap (fun c => let '(uid, pid, line) := c in read_child_ready our_uid uid pid line child_threads) conns.

(** ** Who is alive, who is tracked *)

Definition live_step (l : list Z) (e : event) : list Z :=
  match e with ESpawned p => l ++ [p] | EReaped p => filter (fun x => x <> p) l | _ => l end.
Definition tracked_step (l : list Z) (e : event) : list Z :=
  match e with ETracked p => track_pid l p true | EUntracked p => track_pid l p false | _ => l end.

Definition live (l : list Z) (es : list event) : list Z := fold_left live_step es l.
Definition tracked (l : list Z) (es : list event) : list Z := fold_left tracked_step es l.

Lemma live_app l es es' : live l (es ++ es') = live (live l es) es'.
Proof. apply fold_left_app. Qed.
Lemma tracked_app l es es' : tracked l (es ++ es') = tracked (tracked l es) es'.
Proof. apply fold_left_app. Qed.

(** At most one process at a time along [es], from [l]. *)
Definition one_at_a_time (l : list Z) (es : list event) : Prop := forall pre, pre `prefix_of` es -> (length (live l pre) <= 1)%nat.

Lemma one_cons l e es : (length l <= 1)%nat -> one_at_a_time (live_step l e) es -> one_at_a_time l (e :: es).
Proof.
  intros Hl H pre Hp. destruct pre as [|e' pre]; [done|]. pose proof (prefix_cons_inv_1 _ _ _ _ Hp) as ->.
  apply (H pre). by eapply prefix_cons_inv_2.
Qed.

Lemma one_nil l : (length l <= 1)%nat -> one_at_a_time l [].
Proof. intros H pre ->%prefix_nil_inv. done. Qed.

Lemma one_app l es es' : one_at_a_time l es -> one_at_a_time (live l es) es' -> one_at_a_time l (es ++ es').
Proof.
  intros H1 H2 pre Hp. destruct (prefix_weak_total pre es (es ++ es')) as [Hpe|[k ->]]; [done|by apply prefix_app_r|by apply H1|].
  rewrite live_app. apply H2. by apply prefix_app_inv in Hp.
Qed.

(** ** The stdio slot *)

(** What each reply of a child is told its waiter. *)
Definition told (r : stdio_reply) : CpuOutcome :=
  match r with StdioResp line => Resp line | StdioTimeout => Timeout_ | _ => Lost end.

Lemma stdio_serve_spec recycle jobs : forall completed n,
  let '(ans, n', ended) := stdio_serve recycle completed n jobs in
  n' = n /\ ans `prefix_of` ((fun jr => (cj_id jr.1, told jr.2)) <$> jobs) /\ (ended = None -> length ans = length jobs) /\
  ((0 < recycle)%nat -> (completed < recycle)%nat -> (completed + length ans <= recycle)%nat).
Proof.
  induction jobs as [|[j r] jobs IH]; intros completed n; cbn [stdio_serve]; [split_and!; cbn; [done|done|done|lia]|].
  assert (H1 : forall o, o = told r -> [(cj_id j, o)] `prefix_of` ((fun jr => (cj_id jr.1, told jr.2)) <$> (j, r) :: jobs)).
  { intros o ->. eexists. reflexivity. }
  destruct r as [|line| |]; [split_and!; [lia|by apply H1|done|cbn; lia]| |split_and!; [lia|by apply H1|done|cbn; lia]..].
  destruct ((0 <? recycle)%nat && (recycle <=? S completed)%nat) eqn:E; [split_and!; [lia|by apply H1|done|cbn; lia]|].
  specialize (IH (S completed) (n + 1 - 1)). destruct (stdio_serve _ _ _ _) as [[ans n'] ended]. destruct IH as (-> & Hp & Hn & Hr).
  split_and!; [lia|by apply prefix_cons|intros He; cbn; by rewrite Hn|]. intros H2 H3. cbn [length].
  apply andb_false_iff in E as [E|E]; [apply Nat.ltb_ge in E; lia|apply Nat.leb_gt in E]. specialize (Hr H2 E). lia.
Qed.

Definition quiet_event (e : event) : bool := match e with ESlept _ | EAnswered _ _ | EForked _ | EDirMade | ESockBound | ESockRemoved => true | _ => false end.

Lemma quiet_effect es : forallb quiet_event es = true -> forall l, live l es = l /\ tracked l es = l.
Proof.
  induction es as [|e es IH]; intros H l; [done|]. cbn in H. apply andb_true_iff in H as [He H].
  destruct (IH H l) as [H1 H2]. by destruct e.
Qed.

Lemma quiet_one es l : forallb quiet_event es = true -> (length l <= 1)%nat -> one_at_a_time l es.
Proof.
  intros H Hl pre [k ->]. rewrite forallb_app in H. apply andb_true_iff in H as [H _]. by rewrite (proj1 (quiet_effect _ H l)).
Qed.

(** A run of events that starts from the processes [l], ends with [l'] both
    alive and tracked, and never has two alive. *)
Definition tidy (l : list Z) (es : list event) (l' : list Z) : Prop := live l es = l' /\ tracked l es = l' /\ one_at_a_time l es.

Lemma tidy_app l es l1 es' l2 : tidy l es l1 -> tidy l1 es' l2 -> tidy l (es ++ es') l2.
Proof.
  intros (H1 & H2 & H3) (H4 & H5 & H6). split_and!; [by rewrite live_app, H1|by rewrite tracked_app, H2|].
  apply one_app; [done|by rewrite H1].
Qed.

Lemma tidy_quiet l es : forallb quiet_event es = true -> (length l <= 1)%nat -> tidy l es l.
Proof. intros H Hl. destruct (quiet_effect es H l). split_and!; [done..|by apply quiet_one]. Qed.

Lemma tidy_up pid : tidy [] [ESpawned pid; ETracked pid] [pid].
Proof. split_and!; [done..|]. repeat (apply one_cons; [cbn; lia|]). apply one_nil. cbn. lia. Qed.

Lemma filter_self pid : filter (fun x => x <> pid) [pid] = ([] : list Z).
Proof. rewrite filter_cons_False; [done|]. by intros H; apply H. Qed.

Lemma tidy_down pid : tidy [pid] (put_down pid) [].
Proof.
  unfold put_down. split_and!; [cbn -[filter]; apply filter_self|cbn -[filter]; apply filter_self|].
  apply one_cons; [done|]. cbn -[filter]. rewrite filter_self. apply one_cons; [cbn; lia|]. apply one_nil. cbn. lia.
Qed.

Lemma tidy_nil l : (length l <= 1)%nat -> tidy l [] l.
Proof. intros H. split_and!; [done..|by apply one_nil]. Qed.

Lemma tidy_cons_quiet e es l l' : quiet_event e = true -> (length l <= 1)%nat -> tidy l es l' -> tidy l (e :: es) l'.
Proof. intros He Hl. apply (tidy_app l [e] l es l'). apply tidy_quiet; [by cbn; rewrite He|done]. Qed.

Lemma stdio_tidy recycle turns : forall b, tidy [] (stdio_child_loop recycle b turns) [].
Proof.
  induction turns as [|[|pid|pid jobs] turns IH]; intros b; cbn [stdio_child_loop]; [by apply tidy_nil; cbn; lia|..].
  - apply tidy_cons_quiet; [done|cbn; lia|apply IH].
  - eapply tidy_app; [apply tidy_up|]. eapply tidy_app; [apply tidy_down|]. apply tidy_cons_quiet; [done|cbn; lia|apply IH].
  - destruct (stdio_serve recycle 0 0 jobs) as [[ans n] ended]. eapply tidy_app; [apply tidy_up|].
    eapply tidy_app; [apply tidy_quiet; [|cbn; lia]; by induction ans|]. eapply tidy_app; [apply tidy_down|].
    destruct ended as [died|]; [|by apply tidy_nil; cbn; lia]. destruct (stdio_backoff b died) as [wt b'].
    destruct died; [apply tidy_cons_quiet; [done|cbn; lia|]|]; apply IH.
Qed.

(** No wait in a literal list without one. *)
Ltac no_wait H := repeat (apply elem_of_cons in H as [[=]|H]); by apply not_elem_of_nil in H.

Lemma stdio_waits recycle turns : forall b, 100 <= b <= 2000 ->
  forall ms, ESlept ms ∈ stdio_child_loop recycle b turns -> 100 <= ms <= 2000.
Proof.
  induction turns as [|[|pid|pid jobs] turns IH]; intros b Hb ms; cbn [stdio_child_loop]; [by intros ?%not_elem_of_nil|..].
  - intros [[= ->]|H]%elem_of_cons; [lia|by eapply IH].
  - rewrite !elem_of_app. intros [H|[H|[[= ->]|H]%elem_of_cons]]; [by no_wait H|by no_wait H|lia|by eapply IH].
  - destruct (stdio_serve recycle 0 0 jobs) as [[ans n] ended]. rewrite !elem_of_app. intros [H|[H|[H|H]]].
    + by no_wait H.
    + by apply list_elem_of_fmap in H as (a & [=] & _).
    + by no_wait H.
    + destruct ended as [died|]; [|by apply not_elem_of_nil in H]. unfold stdio_backoff in H.
      destruct died; cbn [app] in H; [apply elem_of_cons in H as [[= ->]|H]; [lia|]|]; eapply IH, H; lia.
Qed.

(** ** The fork-server parent *)

Lemma respawn_tidy tries : let '(es, p) := respawn_parent tries in tidy [] es match p with Some pid => [pid] | None => [] end.
Proof.
  induction tries as [|[[pid []]|] tries IH]; cbn [respawn_parent]; [by apply tidy_nil; cbn; lia|..].
  - apply tidy_cons_quiet; [done|cbn; lia|apply tidy_up].
  - destruct (respawn_parent tries) as [es p]. apply tidy_cons_quiet; [done|cbn; lia|].
    apply (tidy_app [] [ESpawned pid; EReaped pid] []); [|done]. split_and!; [cbn -[filter]; apply filter_self|done|].
    repeat (apply one_cons; [cbn; lia|]). cbn -[filter]. rewrite filter_self. apply one_nil. cbn. lia.
  - destruct (respawn_parent tries) as [es p]. apply tidy_cons_quiet; [done|cbn; lia|done].
Qed.

Lemma control_tidy ins : forall parent b, exists l, tidy [parent] (parent_control_loop parent b ins) l /\
  (CClosed ∈ ins -> l = []).
Proof.
  induction ins as [|[reply tries|] ins IH]; intros parent b; cbn [parent_control_loop].
  - exists [parent]. split; [by apply tidy_nil; cbn; lia|]. by intros ?%not_elem_of_nil.
  - assert (HC : CClosed ∈ CReply reply tries :: ins -> CClosed ∈ ins) by (by intros [[=]|H]%elem_of_cons).
    destruct (request_fork reply) as [pid| |].
    + destruct (IH parent 100) as (l & Hl & Hc). exists l. split; [apply tidy_cons_quiet; [done|cbn; lia|done]|auto].
    + destruct (IH parent (Z.min (b * 2) 2000)) as (l & Hl & Hc). exists l. split; [apply tidy_cons_quiet; [done|cbn; lia|done]|auto].
    + pose proof (respawn_tidy tries) as HR. destruct (respawn_parent tries) as [es [p|]].
      * destruct (IH p b) as (l & Hl & Hc). exists l. split; [|auto]. eapply tidy_app; [apply tidy_down|]. by eapply tidy_app.
      * exists []. split; [|done]. eapply tidy_app; [apply tidy_down|]. eapply tidy_app; [exact HR|]. by apply tidy_nil; cbn; lia.
  - exists []. split; [apply tidy_down|done].
Qed.

(** C37. No executor outlives the loop that owns it: a stdio slot and the
    fork-server loop each have at most one process alive at any instant,
    whatever fails, and at every turn's end the processes alive are exactly
    those tracked for the kill at exit: none after a stdio turn, the parent
    alone between fork requests, none once the slots are gone. A slot waits
    between 100 ms and 2 s before it replaces a child that failed. *)
Theorem no_process_outlives_its_loop recycle turns spawned ins :
  (let es := stdio_child_loop recycle 100 turns in
   live [] es = [] /\ tracked [] es = [] /\ one_at_a_time [] es /\ forall ms, ESlept ms ∈ es -> 100 <= ms <= 2000) /\
  (let es := fork_server spawned ins in
   live [] es = tracked [] es /\ one_at_a_time [] es /\ (CClosed ∈ ins -> live [] es = [])).
Proof.
  split; cbn zeta.
  - destruct (stdio_tidy recycle turns 100) as (H1 & H2 & H3). split_and!; [done..|]. apply stdio_waits. lia.
  - assert (HN : tidy [] [] []) by (apply tidy_nil; cbn; lia).
    assert (HQ : forall es l', tidy [] es l' -> tidy [] (EDirMade :: es) l' /\ tidy [] (EDirMade :: ESockBound :: es) l').
    { intros es l' HT. assert (H0 : (length ([] : list Z) <= 1)%nat) by (cbn; lia). split; repeat (apply tidy_cons_quiet; [done|done|]); done. }
    assert (HE : forall es, tidy [] es [] -> live [] es = tracked [] es /\ one_at_a_time [] es /\ (CClosed ∈ ins -> live [] es = [])).
    { intros es (H1 & H2 & H3). split_and!; [congruence|done|done]. }
    unfold fork_server. destruct spawned as [| | | |[[pid []]|]]; cbn [start_fork_server]; rewrite ?app_nil_r.
    + by apply HE.
    + by apply HE, HQ.
    + by apply HE, HQ.
    + by apply HE, HQ.
    + destruct (control_tidy ins pid 100) as (l & Hl & Hc).
      pose proof (tidy_app _ _ _ _ _ (tidy_up pid) Hl) as HT. apply HQ in HT as [_ (H1 & H2 & H3)].
      split_and!; [exact (eq_trans H1 (eq_sym H2))|done|]. intros Hi. etransitivity; [exact H1|auto].
    + apply HE, HQ. split_and!; [cbn -[filter]; apply filter_self|done|].
      repeat (apply one_cons; [cbn; lia|]). cbn -[filter]. rewrite filter_self. repeat (apply one_cons; [cbn; lia|]). apply one_nil. cbn. lia.
    + by apply HE, HQ.
Qed.

(** A stdio child answers the jobs it is given in order, each once, with
    its reply, a loss or a timeout; gives back its share of the in-flight count;
    and takes no more jobs than it may before it is recycled. *)
Theorem stdio_answers_in_order recycle n jobs :
  let '(ans, n', ended) := stdio_serve recycle 0 n jobs in
  n' = n /\ ans `prefix_of` ((fun jr => (cj_id jr.1, told jr.2)) <$> jobs) /\ (ended = None -> length ans = length jobs) /\
  ((0 < recycle)%nat -> (length ans <= recycle)%nat).
Proof.
  pose proof (stdio_serve_spec recycle jobs 0 n) as H. destruct (stdio_serve recycle 0 n jobs) as [[ans n'] ended].
  destruct H as (H1 & H2 & H3 & H4). split_and!; [done..|]. intros Hr. by apply H4.
Qed.

(** The socket file and its directory, along a log. *)
Definition sock_step (left : bool) (e : event) : bool :=
  match e with EDirMade | ESockBound => true | ESockRemoved => false | _ => left end.

(** A start that fails for want of a ready line leaves nothing in the temp
    directory; one that fails to bind or to spawn leaves its private directory,
    which no path is kept to. *)
Example failed_spawn_leaves_its_directory :
  fold_left sock_step (start_fork_server (Parent (Some (7, false)))).1 false = false /\
  fold_left sock_step (start_fork_server (Parent None)).1 false = true /\
  fold_left sock_step (start_fork_server NoBind).1 false = true.
Proof. split_and!; reflexivity. Qed.
