(* ===== verification/CpuPool.v ===== *)
(** The fork-server slots of the cpu pool together ([worker/src/cpu.rs]): the job
    channel they share, the idle count they stage by, and the connection each
    serves ([Cpu]), as one step relation over any interleaving of their loops. *)
From S2P Require Import Prelude Envelope Cpu.
Open Scope Z_scope.

(** Where a serving slot is in its loop: before the idle update, before the load
    of the idle count, or in the [select!] with what it loaded (the other slots'
    share). *)
Inductive phase := AtTop | Updated | Selecting (others : Z).

Record conn := { cn_cfg : ServeCfg; cn_pid : Z; cn_serve : serve; cn_phase : phase }.

(** A slot waits for a child, serves one, or left its loop. *)
Inductive slot := Forking | Serving (c : conn) | Gone.

(** [sent] are the ids submitted, [told] the answers of connections that ended,
    [idle_total] is [IdleSlots::count]. *)
Record cpool := {
  slots : list slot;
  channel : list CpuJob;
  chan_open : bool;
  idle_total : Z;
  sent : list string;
  told : list (string * CpuOutcome);
}.

Definition with_slots (p : cpool) (l : list slot) (total : Z) : cpool :=
  {| slots := l; channel := channel p; chan_open := chan_open p; idle_total := total; sent := sent p; told := told p |}.

Definition at_phase (c : conn) (s : serve) (ph : phase) : conn :=
  {| cn_cfg := cn_cfg c; cn_pid := cn_pid c; cn_serve := s; cn_phase := ph |}.

(** What a turn leaves of a slot: its connection, or [slot_loop]'s next round. *)
Definition settle (c : conn) (now : Z) (r : serve * option ChildGone) : slot * list (string * CpuOutcome) * Z :=
  match r with
  | (s, None) => (Serving (at_phase c s AtTop), [], idle_count s)
  | (s, Some g) =>
      let '(_, f, e) := serve_finish (cn_pid c) g now s in
      match e with SShutdown => (Gone, answers f, idle_count f - 1) | _ => (Forking, answers f, idle_count f) end
  end.

(** The branches that take nothing from the channel. *)
Definition own_event (e : serve_event) : bool := match e with EJob _ | EJobsClosed => false | _ => true end.

(** [cap] is the channel's capacity. *)
Inductive cstep (cap : nat) : cpool -> cpool -> Prop :=
| c_send p job :
    chan_open p = true -> (length (channel p) < cap)%nat -> cj_id job ∉ sent p ->
    cstep cap p {| slots := slots p; channel := channel p ++ [job]; chan_open := true; idle_total := idle_total p;
                   sent := sent p ++ [cj_id job]; told := told p |}
| c_close p :
    cstep cap p {| slots := slots p; channel := channel p; chan_open := false; idle_total := idle_total p; sent := sent p; told := told p |}
| c_connect p l1 l2 cfg pid :
    slots p = l1 ++ Forking :: l2 ->
    cstep cap p (with_slots p (l1 ++ Serving {| cn_cfg := cfg; cn_pid := pid; cn_serve := serve_init; cn_phase := AtTop |} :: l2) (idle_total p))
| c_leave p l1 l2 :
    slots p = l1 ++ Forking :: l2 -> cstep cap p (with_slots p (l1 ++ Gone :: l2) (idle_total p - 1))
| c_update p l1 c l2 now :
    slots p = l1 ++ Serving c :: l2 -> cn_phase c = AtTop ->
    let s := loop_top (cn_cfg c) now (cn_serve c) in
    cstep cap p (with_slots p (l1 ++ Serving (at_phase c s Updated) :: l2) (idle_total p + idle_count s - idle_count (cn_serve c)))
| c_load p l1 c l2 :
    slots p = l1 ++ Serving c :: l2 -> cn_phase c = Updated ->
    cstep cap p (with_slots p (l1 ++ Serving (at_phase c (cn_serve c) (Selecting (idle_total p - idle_count (cn_serve c)))) :: l2) (idle_total p))
| c_event p l1 c l2 others now e x ans total :
    slots p = l1 ++ Serving c :: l2 -> cn_phase c = Selecting others -> own_event e = true ->
    enabled (cn_cfg c) now others (cn_serve c) e = true ->
    settle c now (handle (cn_cfg c) now (cn_serve c) e) = (x, ans, total) ->
    cstep cap p {| slots := l1 ++ x :: l2; channel := channel p; chan_open := chan_open p;
                   idle_total := idle_total p + total - idle_count (cn_serve c); sent := sent p; told := told p ++ ans |}
| c_take p l1 c l2 others now job rest x ans total :
    slots p = l1 ++ Serving c :: l2 -> cn_phase c = Selecting others -> channel p = job :: rest ->
    enabled (cn_cfg c) now others (cn_serve c) (EJob job) = true ->
    settle c now (handle (cn_cfg c) now (cn_serve c) (EJob job)) = (x, ans, total) ->
    cstep cap p {| slots := l1 ++ x :: l2; channel := rest; chan_open := chan_open p;
                   idle_total := idle_total p + total - idle_count (cn_serve c); sent := sent p; told := told p ++ ans |}
| c_closed p l1 c l2 others now x ans total :
    slots p = l1 ++ Serving c :: l2 -> cn_phase c = Selecting others -> channel p = [] -> chan_open p = false ->
    enabled (cn_cfg c) now others (cn_serve c) EJobsClosed = true ->
    settle c now (handle (cn_cfg c) now (cn_serve c) EJobsClosed) = (x, ans, total) ->
    cstep cap p {| slots := l1 ++ x :: l2; channel := []; chan_open := false;
                   idle_total := idle_total p + total - idle_count (cn_serve c); sent := sent p; told := told p ++ ans |}.

(** A pool of [n] slots, each counted idle as it starts. *)
Definition cpool_init (n : nat) : cpool :=
  {| slots := replicate n Forking; channel := []; chan_open := true; idle_total := Z.of_nat n; sent := []; told := [] |}.

(** ** Where a job is *)

(** Taken and not answered yet; answered over a connection still served. *)
Definition held (x : slot) : list string :=
  match x with Serving c => order (cn_serve c) ++ match pending_write (cn_serve c) with Some w => [w_id w] | None => [] end | _ => [] end.
Definition heard (x : slot) : list (string * CpuOutcome) := match x with Serving c => answers (cn_serve c) | _ => [] end.

(** A slot's share of the idle count. *)
Definition share (x : slot) : Z := match x with Forking => 1 | Serving c => if idle (cn_serve c) then 1 else 0 | Gone => 0 end.
Definition shares (l : list slot) : Z := foldr (fun x n => share x + n) 0 l.

Lemma shares_app l1 l2 : shares (l1 ++ l2) = shares l1 + shares l2.
Proof. unfold shares. induction l1; cbn; lia. Qed.

Definition slot_ok (x : slot) : Prop := match x with Serving c => serve_inv (cn_cfg c) (cn_serve c) | _ => True end.
Definition taken_by (x : slot) : list string := match x with Serving c => accepted (cn_serve c) | _ => [] end.

Record cpool_inv (p : cpool) : Prop := {
  ci_nodup : NoDup (sent p);
  ci_jobs : sent p ≡ₚ (cj_id <$> channel p) ++ (told p).*1 ++ concat (taken_by <$> slots p);
  ci_slots : Forall slot_ok (slots p);
  ci_idle : idle_total p = shares (slots p);
}.

Lemma taken_split x : slot_ok x -> taken_by x ≡ₚ (heard x).*1 ++ held x.
Proof. destruct x as [|c|]; cbn; [done| |done]. intros HI. apply (si_jobs _ _ HI). Qed.

(** ** A turn of a slot *)

Lemma perm_counts (l l' : list string) : (forall x, count_occ string_dec l x = count_occ string_dec l' x) -> l ≡ₚ l'.
Proof. apply (Permutation_count_occ string_dec). Qed.
Lemma counts_perm (l l' : list string) : l ≡ₚ l' -> forall x, count_occ string_dec l x = count_occ string_dec l' x.
Proof. apply (Permutation_count_occ string_dec). Qed.

Section turns.
Context (cap : nat).

Lemma settle_spec c now others e x ans total :
  serve_inv (cn_cfg c) (cn_serve c) -> enabled (cn_cfg c) now others (cn_serve c) e = true -> NoDup (accepted (cn_serve c)) ->
  settle c now (handle (cn_cfg c) now (cn_serve c) e) = (x, ans, total) ->
  slot_ok x /\ total = share x /\
  ans.*1 ++ taken_by x ≡ₚ accepted (cn_serve c) ++ match e with EJob j => [cj_id j] | _ => [] end.
Proof.
  intros HI He HN E. pose proof (handle_inv _ now others _ e HI He HN) as HA.
  rewrite <- (handle_accepted (cn_cfg c) now (cn_serve c) e). destruct (handle (cn_cfg c) now (cn_serve c) e) as [s [g|]]; cbn [settle fst] in *.
  - pose proof (drained_spec s g now (cn_pid c) HA) as HF. destruct (serve_finish (cn_pid c) g now s) as [[kills f] ex].
    destruct HF as (HP & _ & HC & _). destruct ex; injection E as <- <- <-; cbn; rewrite app_nil_r; split_and!; (done || lia).
  - injection E as <- <- <-. cbn. split_and!; [exact HA|by apply (si_idle _ _ HA)|done].
Qed.

Lemma share_count x : slot_ok x -> forall c, x = Serving c -> idle_count (cn_serve c) = share x.
Proof. intros HI c ->. by apply (si_idle _ _ HI). Qed.

(** A slot changes for another that holds what it held, and the answers given. *)
Lemma change_slot p l1 y l2 x ans chan extra : cpool_inv p -> slots p = l1 ++ y :: l2 -> slot_ok x ->
  ans.*1 ++ taken_by x ≡ₚ taken_by y ++ extra -> cj_id <$> channel p = extra ++ (cj_id <$> chan) ->
  cpool_inv {| slots := l1 ++ x :: l2; channel := chan; chan_open := chan_open p; idle_total := idle_total p + share x - share y;
               sent := sent p; told := told p ++ ans |}.
Proof.
  intros [HN HJ HS HT] Hl Hx HP HC. rewrite Hl in HJ, HS, HT. apply Forall_app in HS as [HS1 [Hy HS2]%Forall_cons].
  split; cbn [slots channel idle_total sent told]; [done| |apply Forall_app; split; [done|by constructor]|].
  - rewrite HC in HJ. rewrite !fmap_app, !fmap_cons, !concat_app in *. cbn [concat] in *.
    apply perm_counts. intros id. pose proof (counts_perm _ _ HJ id) as H1. pose proof (counts_perm _ _ HP id) as H2.
    rewrite !count_occ_app in *. lia.
  - rewrite shares_app in *. cbn in *. lia.
Qed.

(** The same, nothing answered and nothing taken. *)
Lemma change_quiet p l1 y l2 x total : cpool_inv p -> slots p = l1 ++ y :: l2 -> slot_ok x -> taken_by x ≡ₚ taken_by y ->
  total = idle_total p + share x - share y -> cpool_inv (with_slots p (l1 ++ x :: l2) total).
Proof.
  intros HI Hl Hx HP ->. pose proof (change_slot p l1 y l2 x [] (channel p) [] HI Hl Hx) as HC. rewrite !app_nil_r in HC. by apply HC.
Qed.

Lemma slot_inv p l1 c l2 : cpool_inv p -> slots p = l1 ++ Serving c :: l2 ->
  serve_inv (cn_cfg c) (cn_serve c) /\ NoDup (accepted (cn_serve c)) /\ idle_count (cn_serve c) = share (Serving c).
Proof.
  intros [HN HJ HS _] Hl. rewrite Hl in HJ, HS. apply Forall_app in HS as [_ [Hc _]%Forall_cons]. split_and!; [done| |by apply (si_idle _ _ Hc)].
  rewrite HJ in HN. rewrite fmap_app, fmap_cons, concat_app in HN. cbn [concat taken_by] in HN.
  apply NoDup_app in HN as (_ & _ & HN). apply NoDup_app in HN as (_ & _ & HN). apply NoDup_app in HN as (_ & _ & HN).
  by apply NoDup_app in HN as (HN & _).
Qed.

(** A turn of a slot over the channel it leaves. *)
Lemma turn_inv p l1 c l2 others now e x ans total chan : cpool_inv p -> slots p = l1 ++ Serving c :: l2 ->
  enabled (cn_cfg c) now others (cn_serve c) e = true ->
  settle c now (handle (cn_cfg c) now (cn_serve c) e) = (x, ans, total) ->
  cj_id <$> channel p = match e with EJob j => [cj_id j] | _ => [] end ++ (cj_id <$> chan) ->
  cpool_inv {| slots := l1 ++ x :: l2; channel := chan; chan_open := chan_open p;
               idle_total := idle_total p + total - idle_count (cn_serve c); sent := sent p; told := told p ++ ans |}.
Proof.
  intros HI Hl He E HC. destruct (slot_inv p l1 c l2 HI Hl) as (HS & HN & Hid).
  destruct (settle_spec c now others e x ans total HS He HN E) as (Hx & -> & HP). rewrite Hid. by eapply change_slot.
Qed.

Lemma cpool_step_inv p p' : cpool_inv p -> cstep cap p p' -> cpool_inv p'.
Proof.
  intros HI Hs. destruct Hs as [p job Ho Hc Hn|p|p l1 l2 cfg pid Hl|p l1 l2 Hl|p l1 c l2 now Hl Hp|p l1 c l2 Hl Hp
    |p l1 c l2 others now e x ans total Hl Hp Hown He E|p l1 c l2 others now job rest x ans total Hl Hp Hch He E
    |p l1 c l2 others now x ans total Hl Hp Hch Hop He E].
  - destruct HI as [HN HJ HS HT]. split; cbn; [|rewrite fmap_app|done|done].
    + apply NoDup_app. split_and!; [done| |repeat constructor; set_solver]. intros id Hid ->%list_elem_of_singleton. done.
    + cbn. apply perm_counts. intros id. pose proof (counts_perm _ _ HJ id) as H1. rewrite !count_occ_app in *. lia.
  - by destruct HI as [HN HJ HS HT]; split.
  - eapply change_quiet; [done|exact Hl|apply serve_inv_init|done|cbn; lia].
  - eapply change_quiet; [done|exact Hl|done|done|cbn; lia].
  - destruct (slot_inv p l1 c l2 HI Hl) as (HS & _ & Hid). pose proof (loop_top_inv (cn_cfg c) now _ HS) as HS'.
    eapply change_quiet; [done|exact Hl|exact HS'|done|]. rewrite Hid. f_equal. f_equal. by apply (si_idle _ _ HS').
  - destruct (slot_inv p l1 c l2 HI Hl) as (HS & _). eapply change_quiet; [done|exact Hl|exact HS|done|]. cbn. lia.
  - eapply turn_inv; [done|exact Hl|exact He|exact E|]. by destruct e.
  - eapply turn_inv; [done|exact Hl|exact He|exact E|]. by rewrite Hch.
  - pose proof (turn_inv p l1 c l2 others now EJobsClosed x ans total [] HI Hl He E) as HT. rewrite Hch, Hop in HT. by apply HT.
Qed.

Lemma cpool_inv_init n : cpool_inv (cpool_init n).
Proof.
  split; cbn.
  - constructor.
  - by induction n.
  - by induction n; constructor.
  - induction n as [|n IH]; [done|]. cbn. lia.
Qed.

Lemma cpool_inv_rtc n p : rtc (cstep cap) (cpool_init n) p -> cpool_inv p.
Proof.
  intros H. assert (HG : forall q, rtc (cstep cap) q p -> cpool_inv q -> cpool_inv p); [|by eapply HG, cpool_inv_init].
  clear H. induction 1; [done|]. intros HI. apply IHrtc. by eapply cpool_step_inv.
Qed.
End turns.

(** C19. The pool answers every job once. However its slots fork, connect, stage,
    lose their children and leave, each job submitted is on the channel, held by
    one slot, or answered, in one of these places only and at most once; when no
    slot serves and the channel is empty every job has its answer. The shared
    idle count is exactly the number of slots that are forking or below their
    concurrency, so a slot that loads zero stages behind work of its own only
    when every slot had some. *)
Theorem pool_answers_every_job n cap p : rtc (cstep cap) (cpool_init n) p ->
  let answered := told p ++ concat (heard <$> slots p) in
  sent p ≡ₚ (cj_id <$> channel p) ++ answered.*1 ++ concat (held <$> slots p) /\
  NoDup answered.*1 /\
  ((forall c, Serving c ∉ slots p) -> channel p = [] -> answered.*1 ≡ₚ sent p) /\
  idle_total p = shares (slots p) /\ (idle_total p = 0 <-> Forall (fun x => share x = 0) (slots p)).
Proof.
  intros Hr answered. destruct (cpool_inv_rtc cap n p Hr) as [HN HJ HS HT].
  assert (HP : concat (taken_by <$> slots p) ≡ₚ (concat (heard <$> slots p)).*1 ++ concat (held <$> slots p)).
  { clear -HS. induction (slots p) as [|x l IH]; [done|]. apply Forall_cons in HS as [Hx HS]. cbn. rewrite fmap_app.
    rewrite (taken_split x Hx), (IH HS), <- !app_assoc. apply Permutation_app_head. rewrite !app_assoc.
    apply Permutation_app_tail, Permutation_app_comm. }
  assert (HA : sent p ≡ₚ (cj_id <$> channel p) ++ answered.*1 ++ concat (held <$> slots p)).
  { rewrite HJ, HP. unfold answered. by rewrite fmap_app, <- !app_assoc. }
  split_and!; [done| | |done|].
  - rewrite HA in HN. apply NoDup_app in HN as (_ & _ & HN). by apply NoDup_app in HN as (HN & _).
  - intros Hno Hch. rewrite HA, Hch. cbn. assert (concat (held <$> slots p) = []) as ->; [|by rewrite app_nil_r].
    clear -Hno. induction (slots p) as [|x l IH]; [done|]. cbn. rewrite IH.
    + destruct x as [|c|]; [done| |done]. exfalso. apply (Hno c). left.
    + intros c Hc. apply (Hno c). by right.
  - rewrite HT. clear. assert (Hn : forall x, 0 <= share x) by (intros [|c|]; cbn; [lia|destruct (idle _); lia|lia]).
    assert (Hns : forall l, 0 <= shares l) by (unfold shares; induction l as [|x l IH]; cbn; [lia|]; pose proof (Hn x); lia).
    induction (slots p) as [|x l IH]; [by split|]. change (shares (x :: l)) with (share x + shares l).
    pose proof (Hn x). pose proof (Hns l). rewrite Forall_cons, <- IH. lia.
Qed.

(** ** Runs *)

Inductive action :=
| ASend (job : CpuJob)
| AConnect (i : nat) (cfg : ServeCfg) (pid : Z)
| AUpdate (i : nat) (now : Z)
| ALoad (i : nat)
| AEvent (i : nat) (now : Z) (e : serve_event)
| ATake (i : nat) (now : Z).

(** The slot's turn, when the branch is open. *)
Definition turn_at (p : cpool) (i : nat) (c : conn) (now : Z) (e : serve_event) (chan : list CpuJob) : option cpool :=
  match cn_phase c with
  | Selecting others =>
      if enabled (cn_cfg c) now others (cn_serve c) e then
        let '(x, ans, total) := settle c now (handle (cn_cfg c) now (cn_serve c) e) in
        Some {| slots := take i (slots p) ++ x :: drop (S i) (slots p); channel := chan; chan_open := chan_open p;
                idle_total := idle_total p + total - idle_count (cn_serve c); sent := sent p; told := told p ++ ans |}
      else None
  | _ => None
  end.

Definition act (cap : nat) (p : cpool) (a : action) : option cpool :=
  let put i x total := with_slots p (take i (slots p) ++ x :: drop (S i) (slots p)) total in
  match a with
  | ASend job =>
      if chan_open p && (length (channel p) <? cap)%nat && bool_decide (cj_id job ∉ sent p) then
        Some {| slots := slots p; channel := channel p ++ [job]; chan_open := true; idle_total := idle_total p;
                sent := sent p ++ [cj_id job]; told := told p |}
      else None
  | AConnect i cfg pid =>
      match slots p !! i with
      | Some Forking => Some (put i (Serving {| cn_cfg := cfg; cn_pid := pid; cn_serve := serve_init; cn_phase := AtTop |}) (idle_total p))
      | _ => None
      end
  | AUpdate i now =>
      match slots p !! i with
      | Some (Serving c) =>
          match cn_phase c with
          | AtTop => let s := loop_top (cn_cfg c) now (cn_serve c) in
                     Some (put i (Serving (at_phase c s Updated)) (idle_total p + idle_count s - idle_count (cn_serve c)))
          | _ => None
          end
      | _ => None
      end
  | ALoad i =>
      match slots p !! i with
      | Some (Serving c) =>
          match cn_phase c with
          | Updated => Some (put i (Serving (at_phase c (cn_serve c) (Selecting (idle_total p - idle_count (cn_serve c))))) (idle_total p))
          | _ => None
          end
      | _ => None
      end
  | AEvent i now e =>
      match slots p !! i with
      | Some (Serving c) => if own_event e then turn_at p i c now e (channel p) else None
      | _ => None
      end
  | ATake i now =>
      match slots p !! i, channel p with
      | Some (Serving c), job :: rest => turn_at p i c now (EJob job) rest
      | _, _ => None
      end
  end.

Lemma act_sound cap p a p' : act cap p a = Some p' -> cstep cap p p'.
Proof.
  assert (HS : forall i x, slots p !! i = Some x -> slots p = take i (slots p) ++ x :: drop (S i) (slots p)).
  { intros i x Hx. symmetry. by apply take_drop_middle. }
  destruct a as [job|i cfg pid|i now|i|i now e|i now]; cbn [act].
  - destruct (chan_open p) eqn:Ho; [|done]. destruct (Nat.ltb_spec (length (channel p)) cap); [|done]. case_bool_decide; [|done].
    intros [= <-]. by apply c_send.
  - destruct (slots p !! i) as [[| |]|] eqn:E; try done. intros [= <-]. by apply c_connect, HS.
  - destruct (slots p !! i) as [[|c|]|] eqn:E; try done. destruct (cn_phase c) eqn:Ep; try done. intros [= <-]. by apply c_update; [apply HS|].
  - destruct (slots p !! i) as [[|c|]|] eqn:E; try done. destruct (cn_phase c) eqn:Ep; try done. intros [= <-]. by apply c_load; [apply HS|].
  - destruct (slots p !! i) as [[|c|]|] eqn:E; try done. destruct (own_event e) eqn:Eo; [|done]. unfold turn_at.
    destruct (cn_phase c) eqn:Ep; try done. destruct (enabled _ _ _ _ _) eqn:Ee; [|done].
    destruct (settle _ _ _) as [[x ans] total] eqn:Es. intros [= <-]. eapply c_event; [by apply HS|done|done|done|done].
  - destruct (slots p !! i) as [[|c|]|] eqn:E; try done. destruct (channel p) as [|job rest] eqn:Ec; [done|]. unfold turn_at.
    destruct (cn_phase c) eqn:Ep; try done. destruct (enabled _ _ _ _ _) eqn:Ee; [|done].
    destruct (settle _ _ _) as [[x ans] total] eqn:Es. intros [= <-]. eapply c_take; [by apply HS|done|exact Ec|done|done].
Qed.

Fixpoint acts (cap : nat) (p : cpool) (l : list action) : option cpool :=
  match l with [] => Some p | a :: l => act cap p a ≫= fun p => acts cap p l end.

Lemma acts_sound cap l : forall p p', acts cap p l = Some p' -> rtc (cstep cap) p p'.
Proof.
  induction l as [|a l IH]; intros p p'; cbn; [by intros [= <-]|]. destruct (act cap p a) as [p1|] eqn:E; [|done]. cbn.
  intros HL. eapply rtc_l; [by eapply act_sound|by apply IH].
Qed.

(** Two slots of one request and one staged each: both get busy, the first
    loads a zero count and waits for work, then the second finishes. *)
Definition round (i : nat) (now : Z) : list action := [AUpdate i now; ALoad i].
Definition two_slots : list action :=
  [AConnect 0 toy_cfg 7; AConnect 1 toy_cfg 8; ASend (toy_job "a"); ASend (toy_job "b")] ++
  round 0 0 ++ [ATake 0 0] ++ round 0 0 ++ [AEvent 0 1 (EWrote 2)] ++
  round 1 1 ++ [ATake 1 1] ++ round 1 1 ++ [AEvent 1 2 (EWrote 2)] ++ round 1 2 ++ round 0 2 ++
  [AEvent 1 3 (ELine (Some "b"%string) "done")] ++ round 1 3.
Definition late_job : list action := [ASend (toy_job "c"); ATake 0 4].

Lemma pool_answers_every_job_witness : exists p,
  acts 8 (cpool_init 2) (two_slots ++ late_job) = Some p /\ told p ++ concat (heard <$> slots p) = [("b"%string, Resp "done")] /\
  idle_total p = shares (slots p).
Proof.
  destruct (acts 8 (cpool_init 2) (two_slots ++ late_job)) as [p|] eqn:E; [|vm_compute in E; discriminate].
  exists p. pose proof (pool_answers_every_job 2 8 p (acts_sound _ _ _ _ E)) as (_ & _ & _ & HT & _).
  split_and!; [reflexivity| |exact HT]. vm_compute in E. injection E as <-. reflexivity.
Defined.

(** The count is loaded before the wait, and nothing wakes a slot when it rises:
    a job sent while the second slot is idle is staged by the first behind its
    running request. *)
Example staged_behind_work_past_an_idle_slot :
  (fun p => (share <$> slots p, (fun x => length (held x)) <$> slots p, channel p)) <$> acts 8 (cpool_init 2) (two_slots ++ late_job) =
  Some ([0; 1], [2%nat; 0%nat], []).
Proof. vm_compute. reflexivity. Qed.
