(* ===== verification/Exec.v ===== *)
(** The three execution lanes ([worker/src/exec.rs]): how one task is handed to
    the sync pool, the event loops or the cpu pool, and what every ending of it
    becomes. A lane is a function of what its awaits resolve to; its shared
    effects (counters, timeouts reported, jobs handed over) are returned in
    order. *)
From S2P Require Import Prelude Float64 Envelope Stats Ctx Redis Broker Pyrt Cpu.
Open Scope Z_scope.

Inductive lane := LSync | LAsync | LCpu.
#[export] Instance lane_eq_dec : EqDecision lane.
Proof. solve_decision. Defined.

Inductive counter := CFetched | COk | CFailed | CRetried | CDlq | CDuplicate | CExpired | CCpuLost.
#[export] Instance counter_eq_dec : EqDecision counter.
Proof. solve_decision. Defined.

(** [SyncJob] without its two channels. *)
Record SyncJob := {
  sj_name : string; sj_args : string; sj_kwargs : string; sj_soft_timeout_ms : option Z; sj_meta : option TaskMeta;
}.

(** One call of [PyRuntime::queue_submit]. *)
Record AsyncSubmit := {
  as_name : string; as_args : string; as_kwargs : string; as_hard_s : f64; as_soft_s : option f64; as_meta : option TaskMeta;
}.

(** Everything a dispatched entry does to the rest of the worker, in order. *)
Inductive op :=
| OIncr (c : counter)
| OTotal (d : Z)
| OIo (d : Z)
| OOverflow (d : Z)
| ODrained
| OTrack (queue sid : string)
| OUntrack (queue sid : string)
| OSlotTake
| OSlotDrop
| OSyncJob (j : SyncJob)
| OHardTimeout
| OAsyncJob (j : AsyncSubmit)
| OCancel
| OCpuJob (j : CpuJob)
| OLatency (l : lane) (ms : Z)
| OClaim (key task_id : string) (idemp_ttl_s timeout_ms : Z)
| OSubmit (queue : string) (req : AckReq).

(** A bounded await: the value, the sender dropped, or the time ran out. *)
Inductive await (A : Type) := Done (a : A) | Dropped | Elapsed.
Arguments Done {A} a.
Arguments Dropped {A}.
Arguments Elapsed {A}.

Definition fail (ty msg : string) : Outcome := Failure (error_new ty msg) true.

Definition task_meta (env : Envelope) : TaskMeta :=
  {| tm_id := id env; tm_retries := retries env; tm_max_retries := max_retries env; tm_queue := queue env |}.

(** [DecrGuard]: the decrement happens on every way out. *)
Definition guarded (r : Outcome * list op) : Outcome * list op := (r.1, [OIo 1] ++ r.2 ++ [OIo (-1)]).

(** ** Sync lane *)

Record sync_answers := { sa_full : bool; sa_started : await unit; sa_resp : await Outcome; sa_elapsed_ms : Z }.

Definition run_sync_task (env : Envelope) (a : sync_answers) : Outcome * list op :=
  guarded
    (let job := {| sj_name := task env; sj_args := args_raw env; sj_kwargs := kwargs_raw env;
                   sj_soft_timeout_ms := soft_timeout_ms env; sj_meta := Some (task_meta env) |} in
     if sa_full a then (fail "WorkerLost" "sync pool queue full (io-threads wedged)", [])
     else
       match sa_started a with
       | Dropped => (fail "WorkerLost" "sync executor thread vanished", [OSyncJob job])
       | Elapsed =>
           (fail "WorkerLost" ("sync pool queue wait exceeded " +:+ dec (timeout_ms env) +:+ "ms with no free io thread"),
            [OSyncJob job])
       | Done _ =>
           let '(outcome, ops) := match sa_resp a with
             | Done outcome => (outcome, [])
             | Dropped => (fail "WorkerLost" "sync executor thread vanished", [])
             | Elapsed =>
                 (fail "TimeLimitExceeded" ("hard timeout after " +:+ dec (timeout_ms env) +:+ "ms (thread abandoned)"),
                  [OHardTimeout])
             end in
           (outcome, [OSyncJob job] ++ ops ++ [OLatency LSync (sa_elapsed_ms a)])
       end).

(** ** Async lane *)

Record async_answers := { aa_resp : await Outcome; aa_elapsed_ms : Z }.

Definition async_backstop_ms (env : Envelope) : Z := sat_add (timeout_ms env) BACKSTOP_GRACE_MS.

Definition run_async_task (env : Envelope) (a : async_answers) : Outcome * list op :=
  guarded
    (let '(soft_s, hard_s) := async_timeouts_s env in
     let job := {| as_name := task env; as_args := args_raw env; as_kwargs := kwargs_raw env;
                   as_hard_s := hard_s; as_soft_s := soft_s; as_meta := Some (task_meta env) |} in
     let '(outcome, ops) := match aa_resp a with
       | Done outcome => (outcome, [])
       | Dropped => (fail "WorkerLost" "async completion channel dropped", [])
       | Elapsed =>
           (fail "TimeLimitExceeded"
              ("no completion within " +:+ dec (timeout_ms env) +:+ "ms + grace (event loop unresponsive)"),
            [OCancel])
       end in
     (outcome, [OAsyncJob job] ++ ops ++ [OLatency LAsync (aa_elapsed_ms a)])).

(** ** Cpu lane *)

(** [{:x}]. *)
Fixpoint hex_bytes (fuel : nat) (n : Z) : bytes :=
  match fuel with
  | O => []
  | S f => if n <? 16 then [hex_digit n] else hex_bytes f (n / 16) ++ [hex_digit (n mod 16)]
  end.

Definition wire_id (env : Envelope) (seq : Z) : string := id env +:+ "." +:+ str_of (hex_bytes 16 seq).

Definition newline : ascii := "010"%char.

(** [req.replace('\n', " ")]. *)
Definition one_line (req : string) : string :=
  str_of (map (fun c => if Ascii.eqb c newline then " "%char else c) (bytes_of req)).

Definition cpu_request `{Serde} (wire : string) (env : Envelope) : string :=
  text_of_members
    [("id", str_text wire); ("task", str_text (task env)); ("args", args_raw env); ("kwargs", kwargs_raw env);
     ("soft_timeout_ms", opt_text dec (soft_timeout_ms env))]%string.

(** Admission: a free permit, or a wait; then the channel: room, a wait, or
    closed. [ca_last_*] is the overflow count each decrement found. *)
Inductive admission_wait := Permit | Waited (last : Z) (got : bool).
Inductive send_wait := Sent | SentAfter (last : Z) (ok : bool) | SendClosed.

Record cpu_answers := {
  ca_seq : Z; ca_admission : admission_wait; ca_send : send_wait; ca_resp : await CpuOutcome; ca_elapsed_ms : Z;
}.

(** [overflow] up, the wait, [overflow] down, and a wake at the zero edge. *)
Definition overflow_wait (last : Z) : list op := [OOverflow 1; OOverflow (-1)] ++ (if last =? 1 then [ODrained] else []).

Section cpu.
Context `{Serde} (de_pyresp : string -> result string PyResp).

Definition run_cpu_task (env : Envelope) (a : cpu_answers) : Outcome * list op :=
  let wire := wire_id env (ca_seq a) in
  let job := {| cj_id := wire; cj_req_line := one_line (cpu_request wire env); cj_timeout_ms := timeout_ms env |} in
  let closed := fail "WorkerLost" "cpu pool closed" in
  let '(admitted, ops1) := match ca_admission a with
    | Permit => (true, [])
    | Waited last got => (got, overflow_wait last)
    end in
  if negb admitted then (closed, ops1) else
  let '(sent, ops2) := match ca_send a with
    | Sent => (true, [])
    | SentAfter last ok => (ok, overflow_wait last)
    | SendClosed => (false, [])
    end in
  if negb sent then (closed, ops1 ++ ops2) else
  let '(outcome, ops3) := match ca_resp a with
    | Done (Resp line) => (parse_pyresp de_pyresp line true, [])
    | Done Timeout_ =>
        (fail "TimeLimitExceeded" ("cpu child SIGKILLed after hard timeout " +:+ dec (timeout_ms env) +:+ "ms"), [])
    | Done Lost => (fail "WorkerLost" "cpu child died during task", [OIncr CCpuLost])
    | _ => (fail "WorkerLost" "cpu child dropped the task", [])
    end in
  (outcome, ops1 ++ ops2 ++ [OCpuJob job] ++ ops3 ++ [OLatency LCpu (ca_elapsed_ms a)]).

Record exec_answers := { x_sync : sync_answers; x_async : async_answers; x_cpu : cpu_answers }.

Definition execute (l : lane) (env : Envelope) (x : exec_answers) : Outcome * list op :=
  match l with
  | LSync => run_sync_task env (x_sync x)
  | LAsync => run_async_task env (x_async x)
  | LCpu => run_cpu_task env (x_cpu x)
  end.
End cpu.

(** ** What the ops add up to *)

Definition total_of (o : op) : Z := match o with OTotal d => d | _ => 0 end.
Definition io_of (o : op) : Z := match o with OIo d => d | _ => 0 end.
Definition overflow_of (o : op) : Z := match o with OOverflow d => d | _ => 0 end.
Definition slot_of (o : op) : Z := match o with OSlotTake => 1 | OSlotDrop => -1 | _ => 0 end.
Definition sum_of (f : op -> Z) (l : list op) : Z := foldr (fun o n => f o + n) 0 l.

Lemma sum_app f l1 l2 : sum_of f (l1 ++ l2) = sum_of f l1 + sum_of f l2.
Proof. unfold sum_of. induction l1; cbn; lia. Qed.

Definition submits (l : list op) : list (string * AckReq) :=
  omap (fun o => match o with OSubmit q r => Some (q, r) | _ => None end) l.

Lemma submits_app l1 l2 : submits (l1 ++ l2) = submits l1 ++ submits l2.
Proof. apply omap_app. Qed.

(** Ops by which the task's body is handed to an executor. *)
Definition run_op (o : op) : bool := match o with OSyncJob _ | OAsyncJob _ | OCpuJob _ => true | _ => false end.
Definition runs (l : list op) : list op := List.filter run_op l.

Definition claims (l : list op) : list (string * string) :=
  omap (fun o => match o with OClaim k i _ _ => Some (k, i) | _ => None end) l.

Lemma runs_app l1 l2 : runs (l1 ++ l2) = runs l1 ++ runs l2.
Proof. apply List.filter_app. Qed.

Lemma claims_app l1 l2 : claims (l1 ++ l2) = claims l1 ++ claims l2.
Proof. apply omap_app. Qed.

(** What a log leaves taken: io slots, and the three counts the fetch loops and
    the drain read. *)
Definition net (l : list op) : list Z := [sum_of slot_of l; sum_of io_of l; sum_of overflow_of l; sum_of total_of l].

Lemma net_app l1 l2 : net (l1 ++ l2) = zip_with Z.add (net l1) (net l2).
Proof. unfold net. by rewrite !sum_app. Qed.

(** The executor a job op hands the task to. *)
Definition lane_of_op (o : op) : option lane :=
  match o with OSyncJob _ => Some LSync | OAsyncJob _ => Some LAsync | OCpuJob _ => Some LCpu | _ => None end.

Section lanes.
Context `{Serde} (de_pyresp : string -> result string PyResp).

(** A lane neither completes the entry nor claims, gives back what it took, and
    hands the task to its own executor at most once. *)
Lemma execute_spec l env x :
  let ops := (execute de_pyresp l env x).2 in
  submits ops = [] /\ claims ops = [] /\ net ops = [0; 0; 0; 0] /\
  (length (runs ops) <= 1)%nat /\ forall o, o ∈ runs ops -> lane_of_op o = Some l.
Proof.
  assert (HN : forall l, (length ([] : list op) <= 1)%nat /\ forall o, o ∈ [] -> lane_of_op o = Some l).
  { intros l'. split; [cbn; lia|]. by intros o ?%not_elem_of_nil. }
  assert (H1 : forall l o, lane_of_op o = Some l -> (length [o] <= 1)%nat /\ forall o', o' ∈ [o] -> lane_of_op o' = Some l).
  { intros l' o Ho. split; [cbn; lia|]. by intros o' ->%list_elem_of_singleton. }
  destruct l; cbn [execute].
  - unfold run_sync_task. destruct (sa_full _); [do 3 (split; [done|]); apply HN|].
    destruct (sa_started _); [|do 3 (split; [done|]); by apply H1..].
    destruct (sa_resp _); do 3 (split; [done|]); by apply H1.
  - unfold run_async_task. destruct (async_timeouts_s env).
    destruct (aa_resp _); do 3 (split; [done|]); by apply H1.
  - unfold run_cpu_task, overflow_wait.
    destruct (ca_admission _) as [|last []]; destruct (ca_send _) as [|last' []|]; try destruct (last =? 1);
      try destruct (last' =? 1); cbn; try (do 3 (split; [done|]); by apply HN);
      destruct (ca_resp _) as [[]| |]; do 3 (split; [done|]); by apply H1.
Qed.
End lanes.

(** The sync lane reports a wedged thread only for one: a hard timeout is
    reported (and so a replacement thread spawned) exactly when a pool thread
    started the task and did not answer within [timeout_ms]; a task that only
    waited in the queue is failed retryably without it, and its latency is not
    recorded. *)
Theorem sync_hard_timeout_only_after_start env a :
  let '(o, ops) := run_sync_task env a in
  (OHardTimeout ∈ ops <-> sa_full a = false /\ sa_started a = Done tt /\ sa_resp a = Elapsed) /\
  ((exists ms, OLatency LSync ms ∈ ops) <-> sa_full a = false /\ sa_started a = Done tt) /\
  (sa_full a = true \/ sa_started a <> Done tt -> exists e, o = Failure e true /\ type_ e = "WorkerLost"%string).
Proof.
  unfold run_sync_task. destruct (sa_full a); cbn.
  - split_and!; [split; [intros H; exfalso; set_solver|by intros []]|
      split; [intros [ms H]; exfalso; set_solver|by intros []]|eauto].
  - destruct (sa_started a) as [[]| |]; cbn.
    + destruct (sa_resp a); cbn; (split_and!; [split; [intros H; try done; exfalso; set_solver|
        intros (_ & _ & ?); try done; set_solver]|split; [done|intros _; exists (sa_elapsed_ms a); set_solver]|
        intros [?|?]; done]).
    + split_and!; [split; [intros H; exfalso; set_solver|by intros (_ & ? & _)]|
        split; [intros [ms H]; exfalso; set_solver|by intros (_ & ?)]|eauto].
    + split_and!; [split; [intros H; exfalso; set_solver|by intros (_ & ? & _)]|
        split; [intros [ms H]; exfalso; set_solver|by intros (_ & ?)]|eauto].
Qed.

(** A cpu request is one line whatever white space the caller's JSON text
    contained, and differs from the serialised request only in that. *)
Theorem cpu_request_is_one_line `{Serde} env seq :
  let req := cpu_request (wire_id env seq) env in
  newline ∉ bytes_of (one_line req) /\ length (bytes_of (one_line req)) = length (bytes_of req) /\
  forall i c, bytes_of req !! i = Some c -> c <> newline -> bytes_of (one_line req) !! i = Some c.
Proof.
  intros req. unfold one_line. rewrite bytes_of_str_of. split_and!.
  - intros (c & E & _)%list_elem_of_fmap. destruct (Ascii.eqb_spec c newline); [discriminate|]. by subst c.
  - by rewrite length_map.
  - intros i c Hi Hc. change (map ?f ?l) with (f <$> l). rewrite list_lookup_fmap, Hi. cbn.
    by destruct (Ascii.eqb_spec c newline).
Qed.
