(* ===== verification/Dispatch.v ===== *)
(** Per-entry dispatch ([worker/src/dispatch.rs]): the gates an entry passes
    before its body runs, the lane it runs in, and the one completion each
    ending submits. *)
From S2P Require Import Prelude Float64 Backoff Envelope Stats Ctx Redis Broker Tree Pyrt Exec.
From Stdlib Require Import QArith.
Open Scope Z_scope.

(** What dispatch reads of [Ctx]. *)
Record config := {
  registry : gmap string TaskSpec;
  max_envelope_bytes : nat;
  result_ttl : Z;
  idemp_ttl : Z;
  queue_ttls : gmap string Z;
}.

(** The clock readings, completion outcomes and claim outcomes still to come,
    and what was done so far. *)
Record io := {
  clock : nat -> Z;
  flushes : nat -> result SubmitErr unit;
  claims_ : nat -> result rerr IdempClaim;
  ops : list op;
}.

(** A dispatch step; [None] is a panic, which unwinds. *)
Definition D (A : Type) : Type := io -> option A * io.
#[export] Instance D_ret : MRet D := fun _ a s => (Some a, s).
#[export] Instance D_bind : MBind D := fun _ _ f m s => match m s with (Some a, s') => f a s' | (None, s') => (None, s') end.

Definition emits (l : list op) : D unit := fun s =>
  (Some tt, {| clock := clock s; flushes := flushes s; claims_ := claims_ s; ops := ops s ++ l |}).
Definition now_ms : D Z := fun s =>
  (Some (clock s 0%nat), {| clock := fun k => clock s (S k); flushes := flushes s; claims_ := claims_ s; ops := ops s |}).
Definition submit (q : string) (r : AckReq) : D (result SubmitErr unit) := fun s =>
  (Some (flushes s 0%nat),
   {| clock := clock s; flushes := fun k => flushes s (S k); claims_ := claims_ s; ops := ops s ++ [OSubmit q r] |}).
Definition claim (key task_id : string) (ttl tmo : Z) : D (result rerr IdempClaim) := fun s =>
  (Some (claims_ s 0%nat),
   {| clock := clock s; flushes := flushes s; claims_ := fun k => claims_ s (S k);
      ops := ops s ++ [OClaim key task_id ttl tmo] |}).
Definition panic {A} : D A := fun s => (None, s).

(** An owned io slot going out of scope at the end of [m], panic included. *)
Definition dropping_slot {A} (m : D A) : D A := fun s => let '(r, s') := m s in (r, (emits [OSlotDrop] s').2).

(** A counted completion: the counters move only when the write landed. *)
Definition count_ok (r : result SubmitErr unit) (on_ok on_err : list counter) : D unit :=
  emits (OIncr <$> match r with Ok _ => on_ok | Err _ => on_err end).

Definition MAX_RETRY_DELAY_MS : Z := 30 * 86400000.

Section dispatch.
Context `{Serde} (cfg : config).
(** Library code: [PyResp]'s and [IdOnly]'s derived readers, [rand]. *)
Context (de_pyresp : string -> result string PyResp) (id_only : string -> option string) (uniform : f64 -> f64 -> f64).

(** ** Dead letters *)

Definition recover_id (raw_e : string) : option string :=
  match id_only raw_e with Some i => if valid_task_id i then Some i else None | None => None end.

Definition dlq_error (reason : string) : ErrorJson :=
  let ty := if String.eqb reason "malformed" then "Malformed"
    else if String.eqb reason "unregistered" then "UnregisteredTask"
    else if String.eqb reason "redelivery_limit" then "RedeliveryLimitExceeded"
    else "DeadLettered" in
  error_new ty ("task was dead lettered before it ran (reason " +:+ reason +:+ ")").

Definition dlq_terminal (q sid raw_e reason : string) (err : option ErrorJson) : D unit :=
  let recovered_id := recover_id raw_e in
  let result_error := match err with Some e => e | None => dlq_error reason end in
  store ← match recovered_id with
    | Some i => now ← now_ms; mret (Some (i, result_failure result_error now, result_ttl cfg))
    | None => mret None
    end;
  r ← submit q (finish_dlq q sid raw_e reason err store 0);
  count_ok r [CDlq] [].

(** ** Gates *)

(** The guards between the parse and the registry; [None] dead letters the
    entry as malformed. *)
Definition gate (raw : string) : D (option Envelope) :=
  match envelope_of_text raw with
  | Ok e =>
      if PROTOCOL_VERSION <? v e then mret None else
      match args_kwargs_shape_ok e with
      | None => panic
      | Some false => mret None
      | Some true =>
          if timeout_ms e =? 0 then mret None
          else if negb (String.eqb (id e) "") && negb (String.eqb (task e) "") && valid_task_id (id e) then mret (Some e)
          else mret None
      end
  | Err _ => mret None
  end.

(** ** Completions *)

Definition retry_delay_ms (env : Envelope) (countdown_ms : option Z) : Z :=
  Z.min (match countdown_ms with
         | Some c => c
         | None => compute_backoff_ms uniform (retries env) (backoff_base_ms env) (backoff_factor env) (backoff_max_ms env) (jitter env)
         end) MAX_RETRY_DELAY_MS.

(** [env.retries += 1], nothing else changed. *)
Definition bump (e : Envelope) : Envelope :=
  {| v := v e; id := id e; task := task e; args := args e; kwargs := kwargs e; queue := queue e; kind := kind e;
     retries := retries e + 1; max_retries := max_retries e; backoff_base_ms := backoff_base_ms e;
     backoff_factor := backoff_factor e; backoff_max_ms := backoff_max_ms e; jitter := jitter e;
     timeout_ms := timeout_ms e; soft_timeout_ms := soft_timeout_ms e; idempotency_key := idempotency_key e;
     store_result := store_result e; enqueued_at := enqueued_at e; not_before := not_before e;
     expires_at := expires_at e; extra := extra e |}.

Definition schedule_retry (q sid : string) (env : Envelope) (countdown_ms : option Z) : D unit :=
  let env := bump env in
  let d_ms := retry_delay_ms env countdown_ms in
  now ← now_ms;
  let fire_at := sat_add now d_ms in
  r ← submit q (finish_retry q sid (envelope_text env) fire_at 0);
  count_ok r [CRetried] [].

Definition stored {A} (env : Envelope) (a : A) : option A := if store_result env then Some a else None.

Definition final_failure (q sid : string) (env : Envelope) (err : ErrorJson) (now : Z) (reason : string) : D unit :=
  r ← submit q (finish_dlq q sid (envelope_text env) reason (Some err)
                  (stored env (id env, result_failure err now, result_ttl cfg)) 0);
  count_ok r [CFailed; CDlq] [].

(** [(s.max(0.0) * 1000.0).round() as u64]. *)
Definition countdown_to_ms (s : f64) : Z := as_u64 (fround (fmul (fmax s (Fin 0)) (Fin 1000))).

Definition finish (q sid : string) (env : Envelope) (outcome : Outcome) : D unit :=
  now ← now_ms;
  match outcome with
  | Success v =>
      r ← submit q (finish_success sid (id env) (stored env (result_success v now)) (result_ttl cfg) 0);
      count_ok r [COk] [CFailed]
  | ForceRetry countdown err =>
      if retries env <? max_retries env then schedule_retry q sid env (countdown_to_ms <$> countdown)
      else final_failure q sid env err now "max_retries"
  | Failure err retryable =>
      if retryable && (retries env <? max_retries env) then schedule_retry q sid env None
      else final_failure q sid env err now (if retryable then "max_retries" else "not_retryable")
  end.

(** ** Expiry and claim *)

(** Whether the entry is past its deadline, and then its dead letter. *)
Definition expire (q sid raw : string) (env : Envelope) : D bool :=
  match expiry_deadline_ms env (queue_ttl_ms (queue_ttls cfg) q) with
  | None => mret false
  | Some deadline =>
      now ← now_ms;
      if deadline <? now then
        r ← submit q (finish_dlq q sid raw "expired" None
                        (stored env (id env, result_expired deadline now, result_ttl cfg)) 0);
        _ ← count_ok r [CExpired; CDlq] [];
        mret true
      else mret false
  end.

(** Whether another task holds the key, and then the duplicate's completion; an
    unanswered claim fails open. *)
Definition suppress (q sid : string) (env : Envelope) : D bool :=
  match idempotency_key env with
  | None => mret false
  | Some key =>
      c ← claim key (id env) (idemp_ttl cfg) (timeout_ms env);
      match c with
      | Ok (Duplicate claimant) =>
          now ← now_ms;
          r ← submit q (finish_duplicate sid (id env) (stored env (result_duplicate now claimant)) (result_ttl cfg) 0);
          _ ← count_ok r [COk; CDuplicate] [];
          mret true
      | _ => mret false
      end
  end.

(** The registry's kind wins over the envelope's. *)
Definition lane_of (spec : TaskSpec) : lane :=
  if String.eqb (ts_kind spec) "cpu" then LCpu else if ts_is_async spec then LAsync else LSync.

(** The slot goes to the io lanes and ends with them; a cpu task gives it back first. *)
Definition run_task (q sid : string) (env : Envelope) (l : lane) (x : exec_answers) : D unit :=
  outcome ← match l with
    | LCpu => _ ← emits [OSlotDrop]; let '(outcome, ops) := execute de_pyresp l env x in _ ← emits ops; mret outcome
    | _ => dropping_slot (let '(outcome, ops) := execute de_pyresp l env x in _ ← emits ops; mret outcome)
    end;
  finish q sid env outcome.

(** [process] up to the choice of lane; [None] when the entry ended before. *)
Definition screen (q sid : string) (raw : option string) : D (option (Envelope * lane)) :=
  match raw with
  | None => _ ← dlq_terminal q sid "" "malformed" None; mret None
  | Some raw =>
      if (max_envelope_bytes cfg <? length (bytes_of raw))%nat
      then _ ← dlq_terminal q sid (str_of (safe_truncate (bytes_of raw) 4096)) "malformed" None; mret None
      else
        g ← gate raw;
        match g with
        | None => _ ← dlq_terminal q sid raw "malformed" None; mret None
        | Some env =>
            match registry cfg !! task env with
            | None => _ ← dlq_terminal q sid raw "unregistered" None; mret None
            | Some spec =>
                expired ← expire q sid raw env;
                if expired : bool then mret None else
                dup ← suppress q sid env;
                mret (if dup : bool then None else Some (env, lane_of spec))
            end
        end
  end.

Definition process (q sid : string) (raw : option string) (x : exec_answers) : D unit := fun s =>
  match screen q sid raw s with
  | (Some (Some (env, l)), s') => run_task q sid env l x s'
  | (Some None, s') => emits [OSlotDrop] s'
  | (None, s') => (None, (emits [OSlotDrop] s').2)
  end.

(** [spawn_dispatch]: the guards around [process] release on a panic too. The
    slot is taken at once when [free], else waited for inside the task. *)
Definition spawn_dispatch (free : bool) (q sid : string) (raw : option string) (x : exec_answers) (s : io) : io :=
  let s1 := (emits ([OIncr CFetched; OTotal 1] ++
                    (if free then [OSlotTake; OTrack q sid] else [OTrack q sid; OSlotTake])) s).2 in
  let s2 := (process q sid raw x s1).2 in
  (emits [OUntrack q sid; OTotal (-1)] s2).2.
End dispatch.

(** ** Ops of one dispatch *)

(** Every reading still to come satisfies [I], every claim answer [J]. *)
Definition reads (I : Z -> Prop) (J : result rerr IdempClaim -> Prop) (s : io) : Prop :=
  (forall k, I (clock s k)) /\ forall k, J (claims_ s k).

(** Nothing taken, handed over, claimed or completed: only counters. *)
Definition quiet (l : list op) : Prop := runs l = [] /\ claims l = [] /\ submits l = [] /\ net l = [0; 0; 0; 0].

(** The log of a step that claimed [cs] and submitted one completion, of [q] and
    [sid], whose request satisfies [P]. *)
Definition ended (q sid : string) (P : AckReq -> Prop) (cs : list (string * string)) (l : list op) : Prop :=
  (runs l = [] /\ claims l = cs /\ net l = [0; 0; 0; 0]) /\ exists r, submits l = [(q, r)] /\ Broker.sid r = sid /\ P r.
Abbreviation completes q sid P l := (ended q sid P [] l).

Lemma quiet_counters cs : quiet (OIncr <$> cs).
Proof. induction cs as [|c cs (A & B & C & E)]; [done|]. split_and!; [exact A|exact B|exact C|exact E]. Qed.

Lemma ended_mono q sid (P Q : AckReq -> Prop) cs l : (forall r, P r -> Q r) -> ended q sid P cs l -> ended q sid Q cs l.
Proof. intros HPQ (? & r & ? & ? & ?). split; [done|]. exists r. auto. Qed.

Section logs.
Context (I : Z -> Prop) (J : result rerr IdempClaim -> Prop).

(** [m] appends to the log, and what it appends satisfies [P] of its result. *)
Definition appends {A} (m : D A) (P : option A -> list op -> Prop) : Prop :=
  forall s, reads I J s -> reads I J (m s).2 /\ exists new, ops (m s).2 = ops s ++ new /\ P (m s).1 new.

Lemma appends_mono {A} (m : D A) P Q : appends m P -> (forall r l, P r l -> Q r l) -> appends m Q.
Proof. intros H HPQ s Hs. destruct (H s Hs) as (? & new & E & HP). eauto. Qed.

Lemma appends_ret {A} (a : A) (P : option A -> list op -> Prop) : P (Some a) [] -> appends (mret a) P.
Proof. intros H s Hs. split; [done|]. exists []. cbn. by rewrite app_nil_r. Qed.

Lemma appends_bind {A B} (m : D A) (f : A -> D B) P R :
  appends m P ->
  (forall l, P None l -> R None l) ->
  (forall a l, P (Some a) l -> appends (f a) (fun r l' => R r (l ++ l'))) -> appends (m ≫= f) R.
Proof.
  intros Hm HN Hf s Hs. destruct (Hm s Hs) as (Hr & l & E & HP). unfold mbind, D_bind.
  destruct (m s) as [[a|] s1]; cbn in *; [|eauto].
  destruct (Hf a l HP s1 Hr) as (? & l' & E' & HQ). split; [done|]. exists (l ++ l'). by rewrite E', E, app_assoc.
Qed.

Lemma appends_emits l (P : option unit -> list op -> Prop) : P (Some tt) l -> appends (emits l) P.
Proof. intros H s Hs. split; [exact Hs|]. by exists l. Qed.

Lemma now_then {A} (f : Z -> D A) P : (forall n, I n -> appends (f n) P) -> appends (now_ms ≫= f) P.
Proof.
  intros Hf s Hs. apply (Hf (clock s 0%nat) (proj1 Hs 0%nat) (now_ms s).2).
  split; intros k; [apply (proj1 Hs)|apply (proj2 Hs)].
Qed.

Lemma claim_then {A} k i t m (f : _ -> D A) P :
  (forall c, J c -> appends (f c) (fun r l => P r (OClaim k i t m :: l))) -> appends (claim k i t m ≫= f) P.
Proof.
  intros Hf s Hs.
  edestruct (Hf (claims_ s 0%nat) (proj2 Hs 0%nat) (claim k i t m s).2) as (? & l & E & HP); [|split; [eassumption|]; eexists; split; [|exact HP]; etransitivity; [exact E|]; cbn; by rewrite <- app_assoc].
  split; intros k'; [apply (proj1 Hs)|apply (proj2 Hs)].
Qed.

(** A submitted completion, then whatever only counts. *)
Lemma submit_completes {A} q (r : AckReq) (k : result SubmitErr unit -> D A) (P : AckReq -> Prop) (V : option A -> Prop) R :
  P r -> (forall o, appends (k o) (fun res l => quiet l /\ V res)) ->
  (forall res l, completes q (Broker.sid r) P l /\ V res -> R res l) ->
  appends (o ← submit q r; k o) R.
Proof.
  intros HP Hk HR s Hs.
  edestruct (Hk (flushes s 0%nat) (submit q r s).2) as (? & l & E & (Q1 & Q2 & Q3 & Q4) & HN); [|split; [eassumption|]].
  { split; intros k'; [apply (proj1 Hs)|apply (proj2 Hs)]. }
  exists (OSubmit q r :: l). split; [etransitivity; [exact E|]; cbn; by rewrite <- app_assoc|]. apply HR. split; [|done].
  split; [by split_and!|]. exists r. change (submits (OSubmit q r :: l)) with ((q, r) :: submits l). by rewrite Q3.
Qed.

Lemma count_ok_quiet r a b : appends (count_ok r a b) (fun res l => quiet l /\ res <> None).
Proof. apply appends_emits. split; [apply quiet_counters|done]. Qed.

Lemma count_ok_then {A} r a b (x : A) : appends (_ ← count_ok r a b; mret x) (fun res l => quiet l /\ res = Some x).
Proof.
  eapply appends_bind; [apply count_ok_quiet|by intros l [_ ?]|]. intros u l [Hq _]. apply appends_ret. by rewrite app_nil_r.
Qed.
End logs.

Section specs.
Context `{Serde} (cfg : config) (de_pyresp : string -> result string PyResp) (id_only : string -> option string)
  (uniform : f64 -> f64 -> f64) (I : Z -> Prop) (J : result rerr IdempClaim -> Prop).

(** The request of a terminal dead letter. *)
Definition dlq_request (q sid raw reason : string) (err : option ErrorJson) (r : AckReq) : Prop :=
  exists store, r = finish_dlq q sid raw reason err store 0 /\ fst <$> (fst <$> store) = recover_id id_only raw.

Lemma dlq_terminal_spec {A} q sid raw reason err (x : A) :
  appends I J (_ ← dlq_terminal cfg id_only q sid raw reason err; mret x) (fun res l =>
    completes q sid (dlq_request q sid raw reason err) l /\ res = Some x).
Proof.
  assert (HS : forall store, fst <$> (fst <$> store) = recover_id id_only raw ->
    appends I J (r ← submit q (finish_dlq q sid raw reason err store 0); count_ok r [CDlq] [])
      (fun res l => completes q sid (dlq_request q sid raw reason err) l /\ res = Some tt)).
  { intros store Hs. eapply submit_completes with (P := dlq_request q sid raw reason err); [by exists store|intros o; apply count_ok_quiet|].
    intros [[]|] l [HC HN]; [|done]. done. }
  unfold dlq_terminal. eapply appends_bind with (P := fun res l => completes q sid (dlq_request q sid raw reason err) l /\ res = Some tt).
  - eapply (appends_bind _ _ _ _ (fun res l => l = [] /\ exists store, res = Some store /\ fst <$> (fst <$> store) = recover_id id_only raw)).
    + destruct (recover_id id_only raw) as [i|]; [|apply appends_ret; by eauto].
      apply now_then. intros n _. apply appends_ret. by eauto.
    + by intros l (_ & ? & ? & _).
    + intros a l (-> & ? & [= <-] & Hs). by apply HS.
  - by intros l [_ ?].
  - intros u l [HC _]. apply appends_ret. by rewrite app_nil_r.
Qed.

(** What [finish] submits for each outcome, at clock readings [I]. *)
Definition finish_request (q sid : string) (env : Envelope) (outcome : Outcome) (r : AckReq) : Prop :=
  let retried cd := exists now, I now /\ r = finish_retry q sid (envelope_text (bump env))
    (sat_add now (retry_delay_ms uniform (bump env) cd)) 0 in
  let dead err reason := exists now, I now /\ r = finish_dlq q sid (envelope_text env) reason (Some err)
    (stored env (id env, result_failure err now, result_ttl cfg)) 0 in
  match outcome with
  | Success v => exists now, I now /\ r = finish_success sid (id env) (stored env (result_success v now)) (result_ttl cfg) 0
  | ForceRetry cd err =>
      if retries env <? max_retries env then retried (countdown_to_ms <$> cd) else dead err "max_retries"%string
  | Failure err retryable =>
      if retryable && (retries env <? max_retries env) then retried None
      else dead err (if retryable then "max_retries" else "not_retryable")%string
  end.

Lemma finish_spec q sid env outcome :
  appends I J (finish cfg uniform q sid env outcome) (fun res l =>
    completes q sid (finish_request q sid env outcome) l /\ res <> None).
Proof.
  unfold finish. apply now_then. intros now Hnow.
  assert (HR : forall cd (P : AckReq -> Prop),
    (forall n, I n -> P (finish_retry q sid (envelope_text (bump env)) (sat_add n (retry_delay_ms uniform (bump env) cd)) 0)) ->
    appends I J (schedule_retry uniform q sid env cd) (fun res l => completes q sid P l /\ res <> None)).
  { intros cd P HP. unfold schedule_retry. apply now_then. intros n Hn.
    eapply submit_completes; [by apply HP|intros o; apply count_ok_quiet|done]. }
  assert (HF : forall err reason (P : AckReq -> Prop),
    P (finish_dlq q sid (envelope_text env) reason (Some err) (stored env (id env, result_failure err now, result_ttl cfg)) 0) ->
    appends I J (final_failure cfg q sid env err now reason) (fun res l => completes q sid P l /\ res <> None)).
  { intros err reason P HP. unfold final_failure.
    eapply submit_completes; [exact HP|intros o; apply count_ok_quiet|done]. }
  destruct outcome as [v|cd err|err retryable].
  - eapply submit_completes with (P := finish_request q sid env (Success v));
      [by exists now|intros o; apply count_ok_quiet|done].
  - unfold finish_request. destruct (retries env <? max_retries env); [apply HR|apply HF]; eauto.
  - unfold finish_request. destruct (retryable && (retries env <? max_retries env)); [apply HR|apply HF]; eauto.
Qed.

(** ** Gates *)

(** Everything an envelope must satisfy to reach the registry. *)
Definition gate_ok (raw : string) (env : Envelope) : Prop :=
  envelope_of_text raw = Ok env /\ v env <= PROTOCOL_VERSION /\ args_kwargs_shape_ok env = Some true /\
  timeout_ms env <> 0 /\ id env <> ""%string /\ task env <> ""%string /\ valid_task_id (id env) = true.

Lemma gate_spec raw : appends I J (gate raw) (fun res l => l = [] /\
  match res with
  | Some (Some env) => gate_ok raw env
  | Some None => forall env, ~ gate_ok raw env
  | None => exists env, envelope_of_text raw = Ok env /\ args_kwargs_shape_ok env = None
  end).
Proof.
  unfold gate. destruct (envelope_of_text raw) as [e|er] eqn:Ee.
  2: { apply appends_ret. split; [done|]. intros env [HE _]. congruence. }
  assert (Hinv : forall env, gate_ok raw env -> gate_ok raw e).
  { intros env Hg. assert (HE : Ok env = Ok e :> result de_err Envelope) by (rewrite <- Ee; symmetry; apply Hg). by injection HE as ->. }
  assert (HN : ~ gate_ok raw e -> appends I J (mret None) (fun (res : option (option Envelope)) l => l = [] /\ match res with
    | Some (Some env) => gate_ok raw env | Some None => forall env, ~ gate_ok raw env
    | None => exists env, Ok e = Ok env :> result de_err Envelope /\ args_kwargs_shape_ok env = None end)).
  { intros Hno. apply appends_ret. split; [done|]. intros env Hg. apply Hno. by eapply Hinv. }
  destruct (Z.ltb_spec PROTOCOL_VERSION (v e)).
  { apply HN. intros (_ & Hv & _). by apply (Zlt_not_le _ _ H0). }
  destruct (args_kwargs_shape_ok e) as [[]|] eqn:Es.
  - destruct (Z.eqb_spec (timeout_ms e) 0); [apply HN; by intros (_ & _ & _ & ? & _)|].
    destruct (String.eqb_spec (id e) ""); [apply HN; by intros (_ & _ & _ & _ & ? & _)|].
    destruct (String.eqb_spec (task e) ""); [apply HN; by intros (_ & _ & _ & _ & _ & ? & _)|].
    destruct (valid_task_id (id e)) eqn:Ev; [|apply HN; intros (_ & _ & _ & _ & _ & _ & ?); congruence].
    apply appends_ret. split; [done|]. by split_and!.
  - apply HN. intros (_ & _ & ? & _). congruence.
  - intros s Hs. split; [done|]. exists []. cbn. rewrite app_nil_r. eauto.
Qed.

(** ** Expiry, claim, screening *)

Definition deadline (q : string) (env : Envelope) : option Z := expiry_deadline_ms env (queue_ttl_ms (queue_ttls cfg) q).

Definition is_duplicate (c : result rerr IdempClaim) : bool := match c with Ok (Duplicate _) => true | _ => false end.

(** The claim an envelope makes when it reaches that step. *)
Definition own_claims (env : Envelope) : list (string * string) :=
  match idempotency_key env with Some k => [(k, id env)] | None => [] end.

(** Seen in time by the clock, and not a duplicate by the claim. *)
Definition in_time (q : string) (env : Envelope) : Prop := forall d, deadline q env = Some d -> exists now, I now /\ now <= d.
Definition unclaimed (env : Envelope) : Prop := idempotency_key env <> None -> exists c, J c /\ is_duplicate c = false.

(** The log of a step that only claimed [cs]. *)
Definition only_claims (cs : list (string * string)) (l : list op) : Prop :=
  runs l = [] /\ claims l = cs /\ submits l = [] /\ net l = [0; 0; 0; 0].

Definition expired_request (q sid raw : string) (env : Envelope) (r : AckReq) : Prop :=
  exists d now, deadline q env = Some d /\ I now /\ d < now /\
    r = finish_dlq q sid raw "expired" None (stored env (id env, result_expired d now, result_ttl cfg)) 0.

Lemma expire_spec q sid raw env : appends I J (expire cfg q sid raw env) (fun res l =>
  (res = Some false /\ l = [] /\ in_time q env) \/
  (res = Some true /\ ended q sid (expired_request q sid raw env) [] l)).
Proof.
  unfold expire. fold (deadline q env). destruct (deadline q env) as [d|] eqn:Ed.
  2: { apply appends_ret. left. split_and!; [done..|]. intros d. congruence. }
  apply now_then. intros now Hn. destruct (Z.ltb_spec d now) as [Hlt|Hle].
  - apply submit_completes with (P := expired_request q sid raw env) (V := eq (Some true)); [by exists d, now| |].
    + intros o. eapply appends_mono; [apply count_ok_then|]. by intros r l [? ->].
    + intros res l [HC <-]. by right.
  - apply appends_ret. left. split_and!; [done..|]. intros d'. rewrite Ed. intros [= <-]. by exists now.
Qed.

Definition duplicate_request (sid : string) (env : Envelope) (r : AckReq) : Prop :=
  exists claimant now, J (Ok (Duplicate claimant)) /\ I now /\
    r = finish_duplicate sid (id env) (stored env (result_duplicate now claimant)) (result_ttl cfg) 0.

Lemma suppress_spec q sid env : appends I J (suppress cfg q sid env) (fun res l =>
  (res = Some false /\ only_claims (own_claims env) l /\ unclaimed env) \/
  (res = Some true /\ idempotency_key env <> None /\ ended q sid (duplicate_request sid env) (own_claims env) l)).
Proof.
  unfold suppress, own_claims, unclaimed. destruct (idempotency_key env) as [key|]; [|apply appends_ret; left; by split_and!].
  apply claim_then. intros c Hc.
  assert (HF : is_duplicate c = false -> appends I J (mret false) (fun (res : option bool) l =>
    (res = Some false /\ only_claims [(key, id env)] (OClaim key (id env) (idemp_ttl cfg) (timeout_ms env) :: l) /\
       (Some key <> None -> exists c, J c /\ is_duplicate c = false)) \/
    (res = Some true /\ Some key <> None /\ ended q sid (duplicate_request sid env) [(key, id env)]
       (OClaim key (id env) (idemp_ttl cfg) (timeout_ms env) :: l)))).
  { intros Hd. apply appends_ret. left. split_and!; [done..|]. by exists c. }
  destruct c as [[| |claimant]|]; [by apply HF..| |by apply HF].
  apply now_then. intros now Hn.
  apply submit_completes with (P := duplicate_request sid env) (V := eq (Some true)); [by exists claimant, now| |].
  - intros o. eapply appends_mono; [apply count_ok_then|]. by intros r l [? ->].
  - intros res l [[(E1 & E2 & E3) HC] <-]. right. split; [done|]. split; [done|]. split; [|exact HC].
    change (claims (_ :: l)) with ((key, id env) :: claims l). rewrite E2. by split_and!.
Qed.

(** ** Lanes *)

Lemma run_task_spec q sid env l x : appends I J (run_task cfg de_pyresp uniform q sid env l x) (fun res new =>
  res <> None /\ net new = [-1; 0; 0; 0] /\ claims new = [] /\
  (length (runs new) <= 1)%nat /\ (forall o, o ∈ runs new -> lane_of_op o = Some l) /\
  exists r, submits new = [(q, r)] /\ Broker.sid r = sid /\ finish_request q sid env (execute de_pyresp l env x).1 r).
Proof.
  unfold run_task. pose proof (execute_spec de_pyresp l env x) as HE. destruct (execute de_pyresp l env x) as [outcome ops1].
  cbn [snd fst] in *. destruct HE as (E1 & E2 & E3 & E4 & E5).
  apply appends_bind with (P := fun res new => res = Some outcome /\ net new = [-1; 0; 0; 0] /\ claims new = [] /\ submits new = [] /\
    runs new = runs ops1).
  - intros s Hs. destruct l; cbn; (split; [exact Hs|]).
    1, 2: exists (ops1 ++ [OSlotDrop]); rewrite net_app, claims_app, submits_app, runs_app, E1, E2, E3, app_assoc; split_and!; [done..|apply app_nil_r].
    exists ([OSlotDrop] ++ ops1). rewrite net_app, claims_app, submits_app, runs_app, E1, E2, E3.
    split_and!; [by rewrite app_assoc|done..].
  - by intros new [? _].
  - intros o new ([= ->] & N1 & N2 & N3 & N4). eapply appends_mono; [apply finish_spec|].
    intros res l' (((F1 & F2 & F3) & F4) & HN).
    rewrite net_app, claims_app, submits_app, runs_app, N1, N2, N3, N4, F1, F2, F3, (app_nil_r (runs ops1)). by split_and!.
Qed.

(** ** The whole entry *)

(** What an entry satisfied when its body was handed over. *)
Definition screened (q : string) (raw : option string) (env : Envelope) (spec : TaskSpec) : Prop :=
  exists text, raw = Some text /\ (length (bytes_of text) <= max_envelope_bytes cfg)%nat /\ gate_ok text env /\
    registry cfg !! task env = Some spec /\ in_time q env /\ unclaimed env.

(** What of an entry that cannot run is kept in the dead letters, and why. *)
Definition dead_letter_of (raw : option string) (text reason : string) : Prop :=
  match raw with
  | None => text = ""%string /\ reason = "malformed"%string
  | Some t =>
      if (max_envelope_bytes cfg <? length (bytes_of t))%nat
      then text = str_of (safe_truncate (bytes_of t) 4096) /\ reason = "malformed"%string
      else text = t /\
        ((reason = "malformed"%string /\ forall env, ~ gate_ok t env) \/
         (reason = "unregistered"%string /\ exists env, gate_ok t env /\ registry cfg !! task env = None))
  end.

(** Why an entry ended without running. *)
Definition refused (q sid : string) (raw : option string) (r : AckReq) : Prop :=
  (exists text reason, dead_letter_of raw text reason /\ dlq_request q sid text reason None r) \/
  (exists text env, raw = Some text /\ gate_ok text env /\ expired_request q sid text env r) \/
  (exists text env, raw = Some text /\ gate_ok text env /\ idempotency_key env <> None /\ in_time q env /\
     duplicate_request sid env r).

(** The shape check met text it cannot scan. *)
Definition unscannable (raw : option string) : Prop :=
  exists text env, raw = Some text /\ envelope_of_text text = Ok env /\ args_kwargs_shape_ok env = None.

Lemma screen_spec q sid raw : appends I J (screen cfg id_only q sid raw) (fun res l =>
  match res with
  | None => unscannable raw /\ l = []
  | Some None => exists cs, ended q sid (refused q sid raw) cs l
  | Some (Some (env, ln)) => exists spec, screened q raw env spec /\ ln = lane_of spec /\ only_claims (own_claims env) l
  end).
Proof.
  set (R := fun (res : option (option (Envelope * lane))) l => _).
  assert (HD : forall text reason, dead_letter_of raw text reason ->
    appends I J (_ ← dlq_terminal cfg id_only q sid text reason None; mret None) R).
  { intros text reason Hd. eapply appends_mono; [apply dlq_terminal_spec|]. intros res l [HC ->]. exists [].
    eapply ended_mono; [|exact HC]. intros r Hr. left. by exists text, reason. }
  unfold screen. destruct raw as [text|]; [|by apply HD].
  pose proof (fun reason => HD text reason) as HT. unfold dead_letter_of in HD, HT.
  destruct (max_envelope_bytes cfg <? length (bytes_of text))%nat eqn:El; [by apply HD|].
  eapply appends_bind; [apply gate_spec| |].
  { intros l [-> (env & ? & ?)]. split; [|done]. by exists text, env. }
  intros [env|] l [-> Hg]; [|by apply HT; split; [|left]].
  destruct (registry cfg !! task env) as [spec|] eqn:Er; [|apply HT; split; [done|right; by eauto]].
  apply Nat.ltb_ge in El.
  eapply appends_bind; [apply expire_spec|by intros l [[? _]|[? _]]|].
  intros b l [([= ->] & -> & Ht)|([= ->] & HE)]; cbn [app].
  2: { apply appends_ret. exists []. rewrite app_nil_r. eapply ended_mono; [|exact HE]. intros r Hr. right. left. by exists text, env. }
  eapply appends_bind; [apply suppress_spec|by intros l [[? _]|[? _]]|].
  intros b l [([= ->] & Hl & Hu)|([= ->] & Hk & HE)]; apply appends_ret; rewrite app_nil_r.
  - exists spec. split_and!; [|done..]. exists text. by split_and!.
  - exists (own_claims env). eapply ended_mono; [|exact HE]. intros r Hr. right. right. by exists text, env.
Qed.

(** One entry, from delivery to completion: ended by the screen, run in the lane
    of its registered kind, or lost to a panic of the shape check. *)
Lemma process_spec q sid raw x : appends I J (process cfg de_pyresp id_only uniform q sid raw x) (fun res l =>
  net l = [-1; 0; 0; 0] /\
  ((unscannable raw /\ submits l = [] /\ runs l = [] /\ claims l = []) \/
   (runs l = [] /\ exists r, submits l = [(q, r)] /\ Broker.sid r = sid /\ refused q sid raw r) \/
   (exists env spec r, screened q raw env spec /\ claims l = own_claims env /\
      (length (runs l) <= 1)%nat /\ (forall o, o ∈ runs l -> lane_of_op o = Some (lane_of spec)) /\
      submits l = [(q, r)] /\ Broker.sid r = sid /\
      finish_request q sid env (execute de_pyresp (lane_of spec) env x).1 r))).
Proof.
  intros s Hs. unfold process. destruct (screen_spec q sid raw s Hs) as (Hr & l & E & HP).
  destruct (screen cfg id_only q sid raw s) as [[[[env ln]|]|] s1]; cbn [fst snd] in *.
  - destruct HP as (spec & Hsc & -> & H1 & H2 & H3 & H4).
    destruct (run_task_spec q sid env (lane_of spec) x s1 Hr) as (Hr2 & l2 & E2 & HN & N & C & L & K & r & S & HS & HF).
    split; [exact Hr2|]. exists (l ++ l2). rewrite E2, E, app_assoc. split; [done|].
    rewrite net_app, claims_app, submits_app, runs_app, H1, H2, H3, H4, N, C, S, app_nil_r. split; [done|].
    right. right. by exists env, spec, r.
  - destruct HP as (cs & (H1 & H2 & H4) & r & S & HS & HR). split; [exact Hr|]. exists (l ++ [OSlotDrop]).
    split; [cbn; by rewrite E, app_assoc|]. rewrite net_app, submits_app, runs_app, H1, H4, S, app_nil_r.
    split; [done|]. right. left. split; [done|]. by exists r.
  - destruct HP as [Hu ->]. split; [exact Hr|]. exists [OSlotDrop]. rewrite app_nil_r in E. cbn. rewrite E.
    split; [done|]. split; [done|]. by left.
Qed.
End specs.

(** ** Retries *)

(** Whether the outcome asks for another attempt. *)
Definition wants_retry (o : Outcome) : bool :=
  match o with Success _ => false | ForceRetry _ _ => true | Failure _ retryable => retryable end.

(** [r] re-enqueues [text] at [score] and writes nothing else. *)
Definition reenqueues (q : string) (r : AckReq) (score : Z) (text : string) : Prop := extra_cmds r = [zadd q score text].

Lemma retry_delay_range uniform env cd : (forall c, cd = Some c -> 0 <= c) ->
  0 <= retry_delay_ms uniform env cd <= MAX_RETRY_DELAY_MS.
Proof.
  intros H. unfold retry_delay_ms, compute_backoff_ms.
  assert (0 <= match cd with Some c => c | None => as_u64 (fround
    (if jitter env && fgt (base_backoff_ms (retries env) (backoff_base_ms env) (backoff_factor env) (backoff_max_ms env)) (Fin 0)
     then uniform (fmul (Fin (1 # 2)) (base_backoff_ms (retries env) (backoff_base_ms env) (backoff_factor env) (backoff_max_ms env)))
            (base_backoff_ms (retries env) (backoff_base_ms env) (backoff_factor env) (backoff_max_ms env))
     else base_backoff_ms (retries env) (backoff_base_ms env) (backoff_factor env) (backoff_max_ms env))) end).
  { destruct cd as [c|]; [by apply H|apply as_u64_range]. }
  split; [apply Z.min_glb; [done|]|apply Z.le_min_r]. by vm_compute.
Qed.

Lemma countdown_range s c : countdown_to_ms <$> s = Some c -> 0 <= c.
Proof. destruct s as [x|]; [|done]. intros [= <-]. apply as_u64_range. Qed.

Lemma bump_wf `{Serde} e : envelope_wf e -> retries e < max_retries e -> envelope_wf (bump e).
Proof. intros [] Hr. split; try done. unfold is_u32 in *. cbn. lia. Qed.

(** What was submitted, told by outcome: retried within the window, or not. *)
Lemma finish_request_cases `{Serde} cfg uniform (I : Z -> Prop) q sid env outcome r :
  finish_request cfg uniform I q sid env outcome r ->
  if wants_retry outcome && (retries env <? max_retries env) then
    exists now delay, I now /\ 0 <= delay <= MAX_RETRY_DELAY_MS /\
      reenqueues q r (Z.min u64_max (now + delay)) (envelope_text (bump env))
  else match outcome with
    | Success v => exists now, I now /\
        extra_cmds r = if store_result env then [set_result (id env) (result_success v now) (result_ttl cfg)] else []
    | ForceRetry _ err | Failure err _ => exists now, I now /\
        take 1 (extra_cmds r) = [xadd_dlq q (envelope_text env)
          (if wants_retry outcome then "max_retries" else "not_retryable") (text_of (error_value err))] /\
        drop 2 (extra_cmds r) = if store_result env then [set_result (id env) (result_failure err now) (result_ttl cfg)] else []
    end.
Proof.
  assert (HR : forall cd, (forall c, cd = Some c -> 0 <= c) ->
    (exists now, I now /\ r = finish_retry q sid (envelope_text (bump env)) (sat_add now (retry_delay_ms uniform (bump env) cd)) 0) ->
    exists now delay, I now /\ 0 <= delay <= MAX_RETRY_DELAY_MS /\
      reenqueues q r (Z.min u64_max (now + delay)) (envelope_text (bump env))).
  { intros cd Hcd (now & Hn & ->). exists now, (retry_delay_ms uniform (bump env) cd).
    split; [done|]. split; [by apply retry_delay_range|done]. }
  assert (HD : forall err reason, (exists now, I now /\ r = finish_dlq q sid (envelope_text env) reason (Some err)
      (stored env (id env, result_failure err now, result_ttl cfg)) 0) ->
    exists now, I now /\ take 1 (extra_cmds r) = [xadd_dlq q (envelope_text env) reason (text_of (error_value err))] /\
        drop 2 (extra_cmds r) = if store_result env then [set_result (id env) (result_failure err now) (result_ttl cfg)] else []).
  { intros err reason (now & Hn & ->). exists now. unfold stored. by destruct (store_result env). }
  destruct outcome as [v|cd err|err [|]]; unfold finish_request, wants_retry; rewrite ?andb_true_l, ?andb_false_l.
  - intros (now & Hn & ->). exists now. split; [done|]. unfold stored. by destruct (store_result env).
  - destruct (retries env <? max_retries env); [|apply HD]. apply HR. apply countdown_range.
  - destruct (retries env <? max_retries env); [|apply HD]. by apply HR.
  - apply HD.
Qed.

(** ** Theorems *)

Section theorems.
Context (S0 : Serde) (cfg : config) (de_pyresp : string -> result string PyResp) (id_only : string -> option string)
  (uniform : f64 -> f64 -> f64).

(** The clock and the claims of the run. *)
Definition reading (s : io) (n : Z) : Prop := exists k, n = clock s k.
Definition answer (s : io) (c : result rerr IdempClaim) : Prop := exists k, c = claims_ s k.

Lemma reads_own s : reads (reading s) (answer s) s.
Proof. split; intros k; by exists k. Qed.

Definition arrival (free : bool) (q sid : string) : list op :=
  [OIncr CFetched; OTotal 1] ++ (if free then [OSlotTake; OTrack q sid] else [OTrack q sid; OSlotTake]).

(** C2. Whatever an entry holds and however it ends, panic included, dispatching
    it submits exactly one completion, of its own queue and stream id, and gives
    back all it took: the io slot (waited for or not), the io, overflow and total
    counts, and its in-flight mark. Only a panic of the shape check, on text no
    JSON parser captures, leaves it pending for redelivery. *)
Theorem dispatch_settles_entry free q sid raw x s : exists l,
  ops (spawn_dispatch cfg de_pyresp id_only uniform free q sid raw x s) =
    ops s ++ arrival free q sid ++ l ++ [OUntrack q sid; OTotal (-1)] /\
  net (arrival free q sid ++ l ++ [OUntrack q sid; OTotal (-1)]) = [0; 0; 0; 0] /\
  (submits l = [] -> exists text env, raw = Some text /\ envelope_of_text text = Ok env /\
     ~ ((forall t, args env = Some t -> json_text t) /\ (forall t, kwargs env = Some t -> json_text t))) /\
  (submits l <> [] -> exists r, submits l = [(q, r)] /\ Broker.sid r = sid).
Proof.
  destruct (process_spec cfg de_pyresp id_only uniform (reading s) (answer s) q sid raw x (emits (arrival free q sid) s).2)
    as (_ & l & E & HN & HP); [split; intros k; by exists k|].
  exists l. change (ops (spawn_dispatch _ _ _ _ _ _ _ _ _ _)) with
    (ops (process cfg de_pyresp id_only uniform q sid raw x (emits (arrival free q sid) s).2).2 ++ [OUntrack q sid; OTotal (-1)]).
  rewrite E. cbn [emits snd ops]. split; [by rewrite <- !app_assoc|]. split; [rewrite !net_app, HN; by destruct free|].
  destruct HP as [((text & env & -> & Et & Es) & HS & _)|[(_ & r & HS & Hid & _)|(env & spec & r & _ & _ & _ & _ & HS & Hid & _)]];
    rewrite HS; (split; [try done|intros H; try done; by exists r]).
  intros _. exists text, env. split_and!; [done..|]. intros [Ha Hk]. by apply (shape_total env Ha Hk).
Qed.

(** C3. A body is handed to an executor, at most once, only for an entry whose
    envelope parsed, is of a known version, carries well-shaped arguments and a
    valid id, names a registered task, was seen by the clock no later than its
    deadline and, when it carries an idempotency key, claimed it without finding
    another holder; and the executor is the one of its registered kind. *)
Theorem runs_only_past_every_gate q sid raw x s : exists l,
  ops (process cfg de_pyresp id_only uniform q sid raw x s).2 = ops s ++ l /\ (length (runs l) <= 1)%nat /\
  forall o, o ∈ runs l -> exists text env spec,
    raw = Some text /\ (length (bytes_of text) <= max_envelope_bytes cfg)%nat /\ gate_ok text env /\
    registry cfg !! task env = Some spec /\ lane_of_op o = Some (lane_of spec) /\
    (forall d, expiry_deadline_ms env (queue_ttl_ms (queue_ttls cfg) q) = Some d -> exists k, clock s k <= d) /\
    (forall key, idempotency_key env = Some key ->
       claims l = [(key, id env)] /\ exists k, is_duplicate (claims_ s k) = false).
Proof.
  destruct (process_spec cfg de_pyresp id_only uniform (reading s) (answer s) q sid raw x s (reads_own s)) as (_ & l & E & _ & HP).
  exists l. split; [done|].
  destruct HP as [(_ & _ & -> & _)|[(-> & _)|(env & spec & r & (text & Hr & Hl & Hg & Hs & Ht & Hu) & HC & HL & HO & _)]].
  1, 2: split; [cbn; lia|by intros o ?%not_elem_of_nil].
  split; [done|]. intros o Ho. exists text, env, spec. split_and!; [done..|by apply HO| |].
  - intros d Hd. destruct (Ht d Hd) as (n & (k & ->) & ?). by exists k.
  - intros key Hkey. unfold own_claims in HC. rewrite Hkey in HC. split; [done|].
    destruct Hu as (c & (k & ->) & ?); [congruence|]. by exists k.
Qed.

(** C13. A task whose outcome asks for another attempt is re-enqueued exactly
    while its budget lasts: the request is one [ZADD] of text that reads back as
    the same envelope with only [retries] one higher, due between now and the 30
    day clamp. Out of budget it is dead lettered as [max_retries], and one that
    must not be retried as [not_retryable], with its error and, when results are
    kept, a failure result; a success writes its value. *)
Theorem finish_by_outcome (L : SerdeLaws S0) q sid env outcome s : envelope_wf env ->
  exists l r, ops (finish cfg uniform q sid env outcome s).2 = ops s ++ l /\ submits l = [(q, r)] /\ Broker.sid r = sid /\
  if wants_retry outcome && (retries env <? max_retries env) then
    exists k delay text, 0 <= delay <= MAX_RETRY_DELAY_MS /\
      reenqueues q r (Z.min u64_max (clock s k + delay)) text /\ envelope_of_text text = Ok (bump env)
  else match outcome with
    | Success v => exists k,
        extra_cmds r = if store_result env then [set_result (id env) (result_success v (clock s k)) (result_ttl cfg)] else []
    | ForceRetry _ err | Failure err _ => exists k,
        take 1 (extra_cmds r) = [xadd_dlq q (envelope_text env)
          (if wants_retry outcome then "max_retries" else "not_retryable") (text_of (error_value err))] /\
        drop 2 (extra_cmds r) =
          if store_result env then [set_result (id env) (result_failure err (clock s k)) (result_ttl cfg)] else []
    end.
Proof.
  intros Hwf. destruct (finish_spec cfg uniform (reading s) (answer s) q sid env outcome s (reads_own s))
    as (_ & l & E & (_ & r & HS & Hid & HR) & _).
  exists l, r. split_and!; [done..|]. apply finish_request_cases in HR.
  destruct (wants_retry outcome && (retries env <? max_retries env)) eqn:Ew.
  - destruct HR as (now & delay & (k & ->) & Hd & HR). exists k, delay, (envelope_text (bump env)). split_and!; [lia..|done|].
    apply text_roundtrip, bump_wf; [done|]. apply andb_true_iff in Ew as [_ ?%Z.ltb_lt]. done.
  - destruct outcome; destruct HR as (now & (k & ->) & HR); by exists k.
Qed.

(** [env'] is what a delayed retry of [env] delivers. *)
Definition retried (env env' : Envelope) : Prop := exists q sid outcome s l r score text,
  ops (finish cfg uniform q sid env outcome s).2 = ops s ++ l /\ submits l = [(q, r)] /\
  reenqueues q r score text /\ envelope_of_text text = Ok env'.

Lemma retried_bump (L : SerdeLaws S0) env env' : envelope_wf env -> retried env env' ->
  env' = bump env /\ retries env < max_retries env /\ envelope_wf env'.
Proof.
  intros Hwf (q & sid & outcome & s & l & r & score & text & E & HS & HR & HT).
  destruct (finish_spec cfg uniform (reading s) (answer s) q sid env outcome s (reads_own s))
    as (_ & l' & E' & (_ & r' & HS' & _ & HF) & _).
  rewrite E in E'. apply app_inv_head in E' as <-. rewrite HS in HS'. injection HS' as <-.
  apply finish_request_cases in HF. unfold reenqueues in *.
  destruct (wants_retry outcome && (retries env <? max_retries env)) eqn:Ew.
  - apply andb_true_iff in Ew as [_ Hlt%Z.ltb_lt]. destruct HF as (now & delay & _ & _ & HF). rewrite HF in HR.
    injection HR as _ <-. rewrite text_roundtrip in HT by (by apply bump_wf). injection HT as <-.
    split_and!; [done..|by apply bump_wf].
  - exfalso. destruct outcome as [v|cd err|err b].
    + destruct HF as (now & _ & HF). rewrite HF in HR. destruct (store_result env); [|done]. discriminate.
    + destruct HF as (now & _ & HF & _). rewrite HR in HF. cbn in HF. discriminate.
    + destruct HF as (now & _ & HF & _). rewrite HR in HF. cbn in HF. discriminate.
Qed.

(** C14. Retries end: along any chain of re-enqueues of one task, through the
    delayed queue's text and whatever each attempt's outcome, [retries] counts
    the attempts and never passes [max_retries], and nothing but [retries]
    differs from the envelope first delivered. *)
Theorem retry_budget (L : SerdeLaws S0) n env env' : envelope_wf env -> nsteps retried n env env' ->
  env' = Nat.iter n bump env /\ retries env' = retries env + Z.of_nat n /\
  (n = 0%nat \/ retries env' <= max_retries env) /\ id env' = id env /\ max_retries env' = max_retries env.
Proof.
  intros Hwf H. revert Hwf. induction H as [e|n e1 e2 e3 H1 _ IH]; intros Hwf.
  - cbn. split_and!; [done|lia|by left|done|done].
  - destruct (retried_bump L _ _ Hwf H1) as (-> & Hlt & Hwf2). destruct (IH Hwf2) as (-> & R & B & I & M).
    rewrite Nat.iter_succ_r. cbn [bump retries max_retries id] in R, B, I, M.
    split_and!; [done|rewrite R; lia| |done|done]. right. destruct B as [->|B]; [cbn; lia|exact B].
Qed.
End theorems.

(** ** A run of [sample] *)

Definition toy_io : io :=
  {| clock := fun _ => 1000; flushes := fun _ => Ok tt; claims_ := fun _ => Ok Fresh; ops := [] |}.
Definition toy_cfg : config :=
  {| registry := ∅; max_envelope_bytes := 100; result_ttl := 60; idemp_ttl := 60; queue_ttls := ∅ |}.
Definition top (_ hi : f64) : f64 := hi.

Lemma finish_by_outcome_witness : exists l r,
  ops (@finish Toy.serde toy_cfg top "q" "5-0" sample (fail "E" "m") toy_io).2 = l /\ submits l = [("q"%string, r)] /\
  exists k delay text, 0 <= delay <= MAX_RETRY_DELAY_MS /\
      reenqueues "q" r (Z.min u64_max (clock toy_io k + delay)) text /\ @envelope_of_text Toy.serde text = Ok (bump sample).
Proof.
  destruct (finish_by_outcome Toy.serde toy_cfg top Toy.serde_laws "q" "5-0" sample (fail "E" "m") toy_io sample_wf)
    as (l & r & E & HS & _ & H).
  exists l, r. split; [exact E|]. split; [exact HS|]. exact H.
Defined.

Lemma retry_budget_witness : nsteps (@retried Toy.serde toy_cfg top) 1 sample (bump sample) /\ retries (bump sample) = 3.
Proof.
  assert (H : nsteps (@retried Toy.serde toy_cfg top) 1 sample (bump sample)).
  { apply nsteps_once. exists "q"%string, "5-0"%string, (fail "E" "m"), toy_io.
    do 4 eexists. split; [reflexivity|]. split; [reflexivity|]. split; [reflexivity|].
    apply (@text_roundtrip Toy.serde Toy.serde_laws). apply bump_wf; [exact sample_wf|reflexivity]. }
  split; [exact H|].
  apply (retry_budget Toy.serde toy_cfg top Toy.serde_laws 1 sample (bump sample) sample_wf H).
Defined.
