(* ===== verification/Delivery.v ===== *)
(** Delivery, end to end: what dispatch ([worker/src/dispatch.rs]) decides for an
    entry, what the flusher ([worker/src/broker.rs]) writes and acknowledges, and
    what the mover does with a delayed retry, composed over one Redis. The worker
    is a step relation, its promise an abstract custody of each entry, and the
    worker refines it: an entry is let go only once its outcome is recorded. *)
From S2P Require Import Prelude Float64 Backoff Envelope Stats Ctx Redis Broker Tree Pyrt Exec Dispatch.
Open Scope Z_scope.

(** ** The worker of one queue *)

(** Redis and the worker's trips to it, and the completions its dispatchers have
    submitted and the flusher has not taken yet. *)
Record sys {R : Redis} := { net_world : world; buffer : list AckReq }.

Section worker.
Context {R : Redis} `{Serde} (cfg : config) (de_pyresp : string -> result string PyResp) (id_only : string -> option string)
  (uniform : f64 -> f64 -> f64) (q : string).

Inductive wevent := Dispatched (sid : string) (raw : option string) | Flushed (n : nat) | Moved | Crashed.

(** Any delivery may be dispatched, a redelivery of a dispatched one included;
    the flusher takes what it takes from the front; a crash loses the buffer. *)
Inductive wstep : sys -> wevent -> sys -> Prop :=
| w_dispatch s free sid raw x io l :
    ops (spawn_dispatch cfg de_pyresp id_only uniform free q sid raw x io) = ops io ++ l ->
    wstep s (Dispatched sid raw) {| net_world := net_world s; buffer := buffer s ++ (submits l).*2 |}
| w_flush s n ans w' :
    flush_batch q (take n (buffer s)) (net_world s) = (ans, w') ->
    wstep s (Flushed n) {| net_world := w'; buffer := drop n (buffer s) |}
| w_move s now limit r w' :
    run_mover q now limit (net_world s) = (r, w') ->
    wstep s Moved {| net_world := w'; buffer := buffer s |}
| w_crash s : wstep s Crashed {| net_world := net_world s; buffer := [] |}.

(** ** The promise *)

(** What a completion records of the entry's text: a dead letter that keeps it,
    a retry with one attempt more, or the result of the task when it keeps one. *)
Inductive outcome_of (raw : option string) : list cmd -> Prop :=
| oc_dead text reason err (keep : option (string * string * Z)) :
    match raw with
    | None => text = ""%string
    | Some t => text = t \/ text = str_of (safe_truncate (bytes_of t) 4096) \/
                exists env, envelope_of_text t = Ok env /\ text = envelope_text env
    end ->
    outcome_of raw ([xadd_dlq q text reason err; ["EXPIRE"; dlq_key q; dec DLQ_TTL_S]%string] ++
      match keep with Some (i, rj, ttl) => [set_result i rj ttl] | None => [] end)
| oc_retry t env score :
    raw = Some t -> envelope_of_text t = Ok env -> retries env < max_retries env ->
    outcome_of raw [zadd q score (envelope_text (bump env))]
| oc_result t env rj :
    raw = Some t -> envelope_of_text t = Ok env ->
    outcome_of raw (if store_result env then [set_result (id env) rj (result_ttl cfg)] else []).

(** Custody of entries: the completions decided for them, those recorded in
    Redis, and the ids let go. *)
Record custody := { decided : list (string * option string * AckReq); recorded : list AckReq; released : list string }.

Definition custody0 : custody := {| decided := []; recorded := []; released := [] |}.

Inductive cstep : custody -> custody -> Prop :=
| c_decide a sid raw r :
    Broker.sid r = sid -> outcome_of raw (extra_cmds r) ->
    cstep a {| decided := (sid, raw, r) :: decided a; recorded := recorded a; released := released a |}
| c_record a d :
    d ∈ decided a -> cstep a {| decided := decided a; recorded := d.2 :: recorded a; released := released a |}
| c_release a r :
    r ∈ recorded a -> cstep a {| decided := decided a; recorded := recorded a; released := Broker.sid r :: released a |}.

(** Nothing is let go before it is recorded, or recorded without a decision. *)
Definition custody_inv (a : custody) : Prop :=
  (forall r, r ∈ recorded a -> exists sid raw, (sid, raw, r) ∈ decided a) /\
  (forall sid raw r, (sid, raw, r) ∈ decided a -> Broker.sid r = sid /\ outcome_of raw (extra_cmds r)) /\
  (forall i, i ∈ released a -> exists r, r ∈ recorded a /\ Broker.sid r = i).

Lemma custody_inv0 : custody_inv custody0.
Proof. split_and!; cbn; set_solver. Qed.

Lemma cstep_inv b c : custody_inv b -> cstep b c -> custody_inv c.
Proof.
  intros (H1 & H2 & H3) Hs. destruct Hs as [b sid raw r E Ho|b [[sid raw] r] Hd|b r Hr];
    (split_and!; cbn [decided recorded released snd] in *).
  - intros r' Hr. destruct (H1 r' Hr) as (? & ? & ?). do 2 eexists. by right.
  - intros sid' raw' r' [[= -> -> ->]|Hin]%elem_of_cons; eauto.
  - eauto.
  - intros r' [->|Hr]%elem_of_cons; eauto.
  - eauto.
  - intros i Hi. destruct (H3 i Hi) as (r' & ? & ?). exists r'. split; [by right|done].
  - eauto.
  - eauto.
  - intros i [->|Hi]%elem_of_cons; eauto.
Qed.

Lemma custody_inv_rtc a b : rtc cstep a b -> custody_inv a -> custody_inv b.
Proof. induction 1; eauto using cstep_inv. Qed.

(** Many steps of one kind at once. *)
Lemma decide_all a sid raw rs : (forall r, r ∈ rs -> Broker.sid r = sid /\ outcome_of raw (extra_cmds r)) ->
  rtc cstep a {| decided := ((fun r => (sid, raw, r)) <$> rs) ++ decided a; recorded := recorded a; released := released a |}.
Proof.
  induction rs as [|r rs IH]; intros H'; [by destruct a|]. eapply rtc_r; [apply IH; intros; apply H'; by right|].
  destruct (H' r ltac:(by left)) as [E Ho]. by apply (c_decide {| decided := _; recorded := _; released := _ |}).
Qed.

Lemma record_all a rs : (forall r, r ∈ rs -> exists sid raw, (sid, raw, r) ∈ decided a) ->
  rtc cstep a {| decided := decided a; recorded := rs ++ recorded a; released := released a |}.
Proof.
  induction rs as [|r rs IH]; intros H'; [by destruct a|]. eapply rtc_r; [apply IH; intros; apply H'; by right|].
  destruct (H' r ltac:(by left)) as (sid & raw & Hd). by apply (c_record {| decided := decided a; recorded := _; released := _ |} (sid, raw, r)).
Qed.

Lemma release_all a rs : (forall r, r ∈ rs -> r ∈ recorded a) ->
  rtc cstep a {| decided := decided a; recorded := recorded a; released := (Broker.sid <$> rs) ++ released a |}.
Proof.
  induction rs as [|r rs IH]; intros H'; [by destruct a|]. eapply rtc_r; [apply IH; intros; apply H'; by right|].
  apply (c_release {| decided := decided a; recorded := recorded a; released := _ |}). apply H'. by left.
Qed.

(** ** Dispatch decides *)

Lemma finish_outcome q' sid raw t env outcome r : raw = Some t -> envelope_of_text t = Ok env -> q' = q ->
  finish_request cfg uniform (fun _ => True) q' sid env outcome r -> outcome_of raw (extra_cmds r).
Proof.
  intros Hr Ht ->. unfold finish_request, stored.
  assert (HD : forall err reason now, outcome_of raw (extra_cmds (finish_dlq q sid (envelope_text env) reason (Some err)
    (if store_result env then Some (id env, result_failure err now, result_ttl cfg) else None) 0))).
  { intros. subst raw. apply oc_dead. eauto. }
  assert (HR : forall score, (retries env <? max_retries env) = true ->
    outcome_of raw (extra_cmds (finish_retry q sid (envelope_text (bump env)) score 0))).
  { intros score Hlt%Z.ltb_lt. by eapply oc_retry. }
  destruct outcome as [v|cd err|err retryable].
  - intros (now & _ & ->). pose proof (oc_result raw t env (result_success v now) Hr Ht) as HO. cbn. by destruct (store_result env).
  - destruct (retries env <? max_retries env); intros (now & _ & ->); [by apply HR|apply HD].
  - destruct (retryable && _) eqn:E; intros (now & _ & ->); [|apply HD]. apply andb_true_iff in E as [_ E]. by apply HR.
Qed.

Lemma refused_outcome sid raw r : refused cfg id_only (fun _ => True) (fun _ => True) q sid raw r -> outcome_of raw (extra_cmds r).
Proof.
  intros [(text & reason & Hd & store & -> & _)|[(t & env & -> & _ & d & now & _ & _ & _ & ->)|(t & env & -> & Hg & _ & _ & cl & now & _ & _ & ->)]].
  - apply oc_dead. unfold dead_letter_of in Hd. destruct raw as [t|]; [|apply Hd].
    destruct (_ <? _)%nat; [right; left; apply Hd|left; apply Hd].
  - apply oc_dead. by left.
  - pose proof (oc_result (Some t) t env (result_duplicate now cl) eq_refl (proj1 Hg)) as HO. unfold stored.
    cbn. by destruct (store_result env).
Qed.

(** Every completion a dispatch submits is its own entry's, and an outcome of it. *)
Lemma dispatch_submits free sid raw x io l :
  ops (spawn_dispatch cfg de_pyresp id_only uniform free q sid raw x io) = ops io ++ l ->
  forall p, p ∈ submits l -> p.1 = q /\ Broker.sid p.2 = sid /\ outcome_of raw (extra_cmds p.2).
Proof.
  destruct (process_spec cfg de_pyresp id_only uniform (fun _ => True) (fun _ => True) q sid raw x
    (emits (arrival free q sid) io).2) as (_ & new & E & _ & HP); [done|].
  change (ops (spawn_dispatch _ _ _ _ _ _ _ _ _ _)) with
    (ops (process cfg de_pyresp id_only uniform q sid raw x (emits (arrival free q sid) io).2).2 ++ [OUntrack q sid; OTotal (-1)]).
  rewrite E. cbn [emits snd ops]. rewrite <- !app_assoc. intros Hl%app_inv_head. subst l.
  assert (ES : submits (arrival free q sid ++ new ++ [OUntrack q sid; OTotal (-1)]) = submits new).
  { rewrite !submits_app, app_nil_r. by destruct free. }
  rewrite ES. intros p.
  destruct HP as [(_ & -> & _)|[(_ & r' & -> & Hs & Ho)|(env & spec & r' & (t & -> & _ & Hg & _) & _ & _ & _ & -> & Hs & Ho)]]; intros Hr.
  - by apply not_elem_of_nil in Hr.
  - apply list_elem_of_singleton in Hr as ->. split_and!; [done..|]. by eapply refused_outcome.
  - apply list_elem_of_singleton in Hr as ->. split_and!; [done..|]. by eapply finish_outcome; [..|exact Ho]; [|apply Hg|].
Qed.

Lemma dispatch_decides free sid raw x io l :
  ops (spawn_dispatch cfg de_pyresp id_only uniform free q sid raw x io) = ops io ++ l ->
  forall r, r ∈ (submits l).*2 -> Broker.sid r = sid /\ outcome_of raw (extra_cmds r).
Proof. intros E r (p & -> & Hp)%list_elem_of_fmap. by apply (dispatch_submits _ _ _ _ _ _ E). Qed.
End worker.

(** ** What Redis keeps *)

Section kept.
Context {R : Redis} {V : SetViews R} {N : ErrNoop R} {SL : SetLaws R V} {KL : KeyLaws R V} (q : string).

(** A delayed retry is never lost: it waits in the delayed set, or was appended
    to the stream. *)
Definition alive (e : string) (s : rstate) : Prop := e ∈ zset s (delayed_key q) \/ e ∈ entries s (q_key q).

(** The commands completions and acknowledgements are made of. *)
Inductive sent : cmd -> Prop :=
| sent_set i rj ttl : sent (set_result i rj ttl)
| sent_zadd score e : sent (zadd q score e)
| sent_dlq e reason err : sent (xadd_dlq q e reason err)
| sent_expire : sent ["EXPIRE"; dlq_key q; dec DLQ_TTL_S]%string
| sent_ack ids : sent (["XACK"; q_key q; "cauli"]%string ++ ids)
| sent_del ids : sent (["XDEL"; q_key q]%string ++ ids).

Lemma zadd_alive score e s r s' : exec (zadd q score e) s = (r, s') -> accepted r -> alive e s'.
Proof. intros E A. left. erewrite zadd_law by done. set_solver. Qed.

Lemma elsewhere op k args s r s' e : exec (op :: k :: args) s = (r, s') -> op ∈ one_key_ops ->
  k <> delayed_key q -> k <> q_key q -> alive e s -> alive e s'.
Proof.
  intros E Hop Hd Hq. unfold alive. destruct (one_key_law _ _ _ _ _ _ Hop E (delayed_key q)) as [-> _]; [done|].
  by destruct (one_key_law _ _ _ _ _ _ Hop E (q_key q)) as [_ ->].
Qed.

Lemma ack_alive op args s r s' e : exec (op :: q_key q :: args) s = (r, s') -> op ∈ ["XACK"; "XDEL"]%string ->
  alive e s -> alive e s'.
Proof.
  intros E Hop. unfold alive. rewrite (ack_law _ _ _ _ _ _ Hop E).
  destruct (one_key_law op (q_key q) args s r s' ltac:(set_solver) E (delayed_key q)) as [-> _]; done.
Qed.

Lemma sent_keeps c s r s' e : sent c -> exec c s = (r, s') -> alive e s -> alive e s'.
Proof.
  intros Hc E. destruct (extract_error r) as [er|] eqn:Er.
  { assert (Hs : is_script c = false) by by destruct Hc. destruct r; try done. injection Er as ->. by rewrite (err_noop _ _ _ _ Hs E). }
  destruct Hc; cbn [Datatypes.app] in E.
  - eapply (elsewhere "SET"); [exact E|set_solver|done..].
  - intros HA. unfold alive in *. rewrite (zadd_law _ _ _ _ _ _ E Er).
    destruct (one_key_law "ZADD" _ _ _ _ _ ltac:(set_solver) E (q_key q)) as [_ ->]; [done|]. set_solver.
  - eapply (elsewhere "XADD"); [exact E|set_solver|done..].
  - eapply (elsewhere "EXPIRE"); [exact E|set_solver|done..].
  - eapply (ack_alive "XACK"); [exact E|set_solver].
  - eapply (ack_alive "XDEL"); [exact E|set_solver].
Qed.

(** Other clients are workers and producers: a delayed entry leaves the set
    only for the stream. *)
Definition offers (t : trip) : Prop := forall e s, alive e s -> alive e (env_before t s).
Definition others_keep (w : world) : Prop := Forall offers (trips w).

(** Every delayed retry Redis accepted is alive, and those [known] before. *)
Definition kept (known : string -> Prop) (w : world) : Prop :=
  others_keep w /\ (forall e, known e -> alive e (server w)) /\
  forall score e rep, (zadd q score e, rep) ∈ trace w -> accepted rep -> alive e (server w).

(** Commands that leave every delayed retry alive. *)
Definition keeps (P : cmd -> Prop) : Prop := forall c s r s' e, P c -> exec c s = (r, s') -> alive e s -> alive e s'.

Lemma exec_all_alive P (HP : keeps P) cs : forall s rs s', Forall P cs -> exec_all cs s = (rs, s') ->
  (forall e, alive e s -> alive e s') /\
  (forall score e rep, (zadd q score e, rep) ∈ zip cs rs -> accepted rep -> alive e s').
Proof.
  induction cs as [|c cs IH]; intros s rs s' HF E; cbn in E.
  - injection E as <- <-. split; [done|]. intros ??? ?%not_elem_of_nil. done.
  - destruct (exec c s) as [r s1] eqn:E1. destruct (exec_all cs s1) as [rs1 s2] eqn:E2. injection E as <- <-.
    apply Forall_cons in HF as [Hc HF]. destruct (IH _ _ _ HF E2) as [H1 H2]. split.
    + intros e He. eapply H1, HP; eauto.
    + cbn. intros score e rep [[= <- <-]|Hin]%elem_of_cons HA; [eapply H1, zadd_alive; eauto|eauto].
Qed.

Lemma first_trip (w : world) : others_keep w ->
  let t := match trips w with t :: _ => t | [] => {| env_before s := s; torn := None |} end in
  (forall e s, alive e s -> alive e (env_before t s)) /\
  Forall (fun t => forall e s, alive e s -> alive e (env_before t s)) (tail (trips w)).
Proof. unfold others_keep. destruct (trips w) as [|t ts]; [by split|]. intros HF. by apply Forall_cons in HF. Qed.

Lemma round_trip_kept known P (HP : keeps P) cs (w : world) : Forall P cs -> kept known w -> kept known (round_trip cs w).2.
Proof.
  intros HF (HO & HN & HK). destruct (first_trip w HO) as [H1 H2]. unfold round_trip.
  set (t := match trips w with t :: _ => t | [] => _ end) in *.
  set (run := match torn t with None => cs | Some k => take k cs end).
  assert (Hrun : Forall P run) by (unfold run; destruct (torn t); [by apply Forall_take|done]).
  destruct (exec_all run _) as [rs s] eqn:E. destruct (exec_all_alive P HP _ _ _ _ Hrun E) as [H3 H4].
  split_and!; [exact H2|cbn; eauto|]. cbn. intros score e rep [Hin|Hin]%elem_of_app HA; [|by eapply H4]. eapply H3, H1, HK; eauto.
Qed.

Lemma traffic_kept known P (HP : keeps P) w w' : traffic P w w' -> kept known w -> kept known w'.
Proof. induction 1; eauto using round_trip_kept. Qed.

Lemma acks_sent ids : Forall sent (ack_pipeline q ids).
Proof. repeat constructor. Qed.

Lemma flush_traffic P batch (w : world) ans w' : Forall (fun r => Forall P (extra_cmds r)) batch ->
  (forall ids, Forall P (ack_pipeline q ids)) -> flush_batch q batch w = (ans, w') -> traffic P w w'.
Proof.
  intros HF HA. assert (Hc : Forall P (concat (extra_cmds <$> batch))).
  { induction HF; [constructor|]. by apply Forall_app. }
  unfold flush_batch. set (reqs := if bool_decide (owners batch = []) then _ else _).
  assert (HW : traffic P w reqs.2).
  { subst reqs; case_bool_decide; [constructor|]; destruct (round_trip _ w) as [[]] eqn:E; by eapply traffic_trip. }
  destruct reqs as [reqs w1]. case_bool_decide; [by intros [= _ <-]|].
  destruct (query_pipe _ w1) as [o w2] eqn:E. intros [= _ <-]. eapply traffic_trans; [exact HW|]. eapply traffic_pipe; [|exact E]. apply HA.
Qed.

Lemma flush_kept known batch (w : world) ans w' : Forall (fun r => Forall sent (extra_cmds r)) batch -> kept known w ->
  flush_batch q batch w = (ans, w') -> kept known w'.
Proof.
  intros HF HK E. eapply traffic_kept; [|eapply flush_traffic; [exact HF|apply acks_sent|exact E]|exact HK].
  intros c s r s' e. apply sent_keeps.
Qed.

(** The mover of another queue touches neither key. *)
Lemma call_elsewhere op k args s r s' e : call (op :: k :: args) s = (r, s') -> op ∈ one_key_ops ->
  k <> delayed_key q -> k <> q_key q -> alive e s -> alive e s'.
Proof. unfold call. destruct (exec _ s) as [x s1] eqn:E. intros [= _ <-]. by eapply elsewhere. Qed.

Lemma move_all_elsewhere k1 k2 due e : k1 <> delayed_key q -> k1 <> q_key q -> k2 <> delayed_key q -> k2 <> q_key q ->
  forall s r s', move_all k1 k2 due s = (r, s') -> alive e s -> alive e s'.
Proof.
  intros H1 H2 H3 H4. induction due as [|x due IH]; intros s r s'; cbn; [by intros [= _ <-]|]. unfold mbind, L_bind.
  destruct (call ["XADD"; _; _; _; _]%string s) as [[y|er] s1] eqn:C1; intros E HA;
    (eapply call_elsewhere in C1 as HA1; [|set_solver|done..|exact HA]); [|by injection E as _ <-].
  destruct (call ["ZREM"; _; _]%string s1) as [[z|er] s2] eqn:C2;
    (eapply call_elsewhere in C2 as HA2; [|set_solver|done..|exact HA1]); [by eapply IH|by injection E as _ <-].
Qed.

Lemma mover_alive q' now lim s r s' e : MOVER_LUA (delayed_key q') (q_key q') now lim s = (r, s') -> alive e s -> alive e s'.
Proof.
  intros E HA. destruct (decide (q' = q)) as [->|Hq].
  - destruct (mover_spec _ _ _ _ _ _ _ E) as (due & moved & _ & _ & (_ & HE & HZ & _) & _). unfold alive in *. rewrite HE.
    destruct HA as [Hd|He]; [|right; apply elem_of_app; by left].
    destruct (HZ e Hd); [by left|right; apply elem_of_app; by right].
  - assert (HD : delayed_key q' <> delayed_key q) by (unfold delayed_key; intros [= E0]; by apply Hq).
    assert (HQ : q_key q' <> q_key q) by (unfold q_key; intros [= E0]; by apply Hq).
    unfold MOVER_LUA, mbind, L_bind in E. destruct (call _ s) as [[x|er] s1] eqn:C1.
    2: { apply call_err in C1 as ->; [|done]. by injection E as _ <-. }
    apply call_ok in C1 as [C1 A1]. destruct (zrange_law _ _ _ _ _ _ C1 A1) as (-> & _).
    destruct (move_all _ _ _ s) as [[u|er] s2] eqn:M; injection E as _ <-; by eapply (move_all_elsewhere _ _ _ e); [..|exact M|exact HA].
Qed.

Lemma mover_kept known q' now limit (w : world) r w' : kept known w -> run_mover q' now limit w = (r, w') ->
  kept known w' /\ trace w' = trace w.
Proof.
  intros (HO & HN & HK). destruct (first_trip w HO) as [H1 H2]. unfold run_mover, invoke.
  set (t := match trips w with t :: _ => t | [] => _ end) in *.
  destruct (MOVER_LUA _ _ _ _ (env_before t (server w))) as [o s1] eqn:E.
  assert (HA : forall e, alive e (server w) -> alive e s1) by (intros e He; by eapply mover_alive, H1).
  destruct (torn t) as [[|k]|]; intros [= _ <-]; (split; [split_and!; [exact H2|cbn; eauto..]|done]).
Qed.
End kept.

(** ** The worker refines custody *)

Section refinement.
Context {R : Redis} {V : SetViews R} {N : ErrNoop R} {SL : SetLaws R V} {KL : KeyLaws R V}.
Context `{Serde} (cfg : config) (de_pyresp : string -> result string PyResp) (id_only : string -> option string)
  (uniform : f64 -> f64 -> f64) (q : string).

(** An acknowledgement or deletion of [i] was sent. *)
Definition let_go (w : world) (i : string) : Prop :=
  exists c rep ids, (c, rep) ∈ trace w /\ c ∈ ack_pipeline q ids /\ i ∈ ids.

Record sim (evs : list wevent) (s : sys) (a : custody) : Prop := {
  sim_inv : custody_inv cfg q a;
  sim_dispatched : forall sid raw r, (sid, raw, r) ∈ decided a -> Dispatched sid raw ∈ evs;
  sim_buffer : forall r, r ∈ buffer s -> exists sid raw, (sid, raw, r) ∈ decided a;
  sim_recorded : forall r, r ∈ recorded a -> landed (trace (net_world s)) r;
  sim_released : forall i, i ∈ released a <-> let_go (net_world s) i;
  sim_kept : kept q (fun _ => False) (net_world s);
}.

(** What a completion writes, and what it never does. *)
Definition is_ack (c : cmd) : bool := match c with op :: _ => bool_decide (op ∈ ["XACK"; "XDEL"]%string) | [] => false end.

Lemma outcome_sent raw cs : outcome_of cfg q raw cs -> Forall (fun c => sent q c /\ is_ack c = false) cs.
Proof.
  destruct 1 as [text reason err [[[i rj] ttl]|] _|t env score _ _ _|t env rj _ _]; [..|destruct (store_result env)];
    repeat constructor.
Qed.

Lemma ack_pipeline_inj ids ids' c : c ∈ ack_pipeline q ids -> c ∈ ack_pipeline q ids' -> ids = ids'.
Proof.
  intros [->|[->|[]%not_elem_of_nil]%elem_of_cons]%elem_of_cons [E|[E|[]%not_elem_of_nil]%elem_of_cons]%elem_of_cons;
    cbn in E; congruence.
Qed.

Lemma ack_pipeline_is_ack ids c : c ∈ ack_pipeline q ids -> is_ack c = true.
Proof. by intros [->|[->|[]%not_elem_of_nil]%elem_of_cons]%elem_of_cons. Qed.

Lemma let_go_same w w' : trace w' = trace w -> forall i, let_go w' i <-> let_go w i.
Proof. intros E i. unfold let_go. by rewrite E. Qed.

(** A flush lets go exactly the written ids, once it sent the acknowledgement. *)
Lemma let_go_flush (w w' : world) t1 t2 ids : trace w' = trace w ++ t1 ++ t2 ->
  (forall c, c ∈ t1.*1 -> is_ack c = false) -> t2.*1 `prefix_of` ack_pipeline q ids ->
  forall i, let_go w' i <-> let_go w i \/ (t2 <> [] /\ i ∈ ids).
Proof.
  intros E H1 H2 i. unfold let_go. rewrite E. split.
  - intros (c & rep & ids' & Hin & Hc & Hi). apply elem_of_app in Hin as [Hin|Hin]; [left; eauto 6|].
    apply elem_of_app in Hin as [Hin|Hin]; [assert (Hc1 : c ∈ t1.*1) by (by apply (list_elem_of_fmap_2' _ _ (c, rep))); apply H1 in Hc1; by rewrite (ack_pipeline_is_ack ids' c) in Hc1|].
    right. split; [by intros ->; apply not_elem_of_nil in Hin|]. assert (Hc2 : c ∈ t2.*1) by (by apply (list_elem_of_fmap_2' _ _ (c, rep))).
   
    rewrite (ack_pipeline_inj ids ids' c); [done|by eapply elem_of_prefix|done].
  - intros [(c & rep & ids' & Hin & Hc & Hi)|[Hne Hi]].
    + exists c, rep, ids'. split_and!; [apply elem_of_app; by left|done..].
    + destruct t2 as [|[c rep] t2]; [done|]. exists c, rep, ids. split_and!; [|by eapply elem_of_prefix, H2; left|done].
      apply elem_of_app. right. apply elem_of_app. right. left.
Qed.

Lemma sim_flush evs s a n ans w' : sim evs s a -> flush_batch q (take n (buffer s)) (net_world s) = (ans, w') ->
  exists a', rtc (cstep cfg q) a a' /\ sim evs {| net_world := w'; buffer := drop n (buffer s) |} a'.
Proof.
  intros [HI HE HB HR HL HK] E.
  assert (HO : forall r, r ∈ take n (buffer s) -> Forall (fun c => sent q c /\ is_ack c = false) (extra_cmds r)).
  { intros r Hr. destruct (HB r) as (sid & raw & Hd); [by eapply subseteq_take|]. by eapply outcome_sent, HI. }
  destruct (flush_spec _ _ _ _ _ E) as (wr & rf & t1 & t2 & o & [Hs Ht Hp1 Hp2 Hn Hland _ _]).
  assert (HW : forall r, r ∈ wr -> r ∈ take n (buffer s)) by (intros r Hr; rewrite <- Hs; apply elem_of_app; by left).
  assert (Hw1 : forall c, c ∈ t1.*1 -> is_ack c = false).
  { intros c Hc. eapply elem_of_prefix in Hc; [|exact Hp1]. apply list_elem_of_In, in_concat in Hc as (l & Hl & Hc).
    apply list_elem_of_In, list_elem_of_fmap in Hl as (r & -> & Hr). apply list_elem_of_In in Hc.
    specialize (HO r Hr). rewrite Forall_forall in HO. by apply HO. }
  pose proof (let_go_flush _ _ _ _ _ Ht Hw1 Hp2) as HG.
  set (a1 := {| decided := decided a; recorded := wr ++ recorded a; released := released a |}).
  set (let_out := if bool_decide (t2 = []) then [] else wr).
  exists {| decided := decided a; recorded := wr ++ recorded a; released := (Broker.sid <$> let_out) ++ released a |}.
  assert (HC : rtc (cstep cfg q) a {| decided := decided a; recorded := wr ++ recorded a; released := (Broker.sid <$> let_out) ++ released a |}).
  { etransitivity; [apply (record_all cfg q a wr); intros r Hr; by eapply HB, subseteq_take, HW|].
    apply (release_all cfg q a1 let_out). unfold let_out. case_bool_decide; [set_solver|]. intros r Hr. apply elem_of_app. by left. }
  split; [exact HC|]. split; cbn [decided recorded released buffer net_world].
  - by eapply custody_inv_rtc.
  - exact HE.
  - intros r Hr. apply HB. by eapply subseteq_drop.
  - intros r [Hr|Hr]%elem_of_app; rewrite Ht.
    + apply landed_app. destruct (Hland r Hr) as (x & b & c & -> & Hb & Hc). exists x, b, (c ++ t2). by rewrite <- !app_assoc.
    + destruct (HR r Hr) as (x & b & c & -> & Hb & Hc). exists x, b, (c ++ t1 ++ t2). by rewrite <- !app_assoc.
  - intros i. rewrite HG, elem_of_app, HL. unfold let_out. case_bool_decide as Et; [subst; set_solver|]. tauto.
  - eapply flush_kept; [|exact HK|exact E]. apply Forall_forall. intros r Hr. specialize (HO r Hr).
    eapply Forall_impl; [exact HO|]. by intros c [? _].
Qed.
Abbreviation wstep := (wstep cfg de_pyresp id_only uniform q).

Lemma sim_later evs e s a : sim evs s a -> sim (evs ++ [e]) s a.
Proof. intros []. split; [done| |done..]. intros. apply elem_of_app. left. eauto. Qed.

Lemma sim_step evs s e s' a : sim evs s a -> wstep s e s' ->
  exists a', rtc (cstep cfg q) a a' /\ sim (evs ++ [e]) s' a'.
Proof.
  intros HS Hs. destruct Hs as [s free sid raw x io l E|s n ans w' E|s now limit r w' E|s].
  - destruct HS as [HI HE HB HR HL HK]. set (rs := (submits l).*2).
    assert (HC := decide_all cfg q a sid raw rs (dispatch_decides cfg de_pyresp id_only uniform q free sid raw x io l E)).
    eexists. split; [exact HC|]. split; cbn [decided recorded released buffer net_world]; [by eapply custody_inv_rtc| | |done..].
    + intros sid' raw' r' [(r & [= -> -> ->] & _)%list_elem_of_fmap|Hd]%elem_of_app; apply elem_of_app; [right; left|left; eauto].
    + intros r [Hr|Hr]%elem_of_app.
      * destruct (HB r Hr) as (sid' & raw' & ?). exists sid', raw'. apply elem_of_app. by right.
      * exists sid, raw. apply elem_of_app. left. by apply (list_elem_of_fmap_2 (fun r => (sid, raw, r))).
  - destruct (sim_flush evs s a n ans w' HS E) as (a' & HC & HS'). exists a'. split; [done|by apply sim_later].
  - exists a. split; [done|]. apply sim_later. destruct HS as [HI HE HB HR HL HK], (mover_kept _ _ _ _ _ _ _ _ HK E) as [HK' Ht].
    split; cbn [net_world buffer]; [done..|by rewrite Ht| |done]. intros i. by rewrite HL, let_go_same.
  - exists a. split; [done|]. apply sim_later. destruct HS. split; cbn [net_world buffer]; [done|done|set_solver|done..].
Qed.

Definition fresh (w : world) : Prop := trace w = [] /\ others_keep q w.

Lemma sim_start w : fresh w -> sim [] {| net_world := w; buffer := [] |} custody0.
Proof.
  intros [Ht Ho]. split; cbn; [apply custody_inv0|set_solver|set_solver|set_solver| |].
  - intros i. split; [set_solver|]. intros (c & rep & ids & Hin & _). cbn in Hin. rewrite Ht in Hin. set_solver.
  - split_and!; [done|done|]. intros score e rep. rewrite Ht. set_solver.
Qed.

Lemma sim_run s es s' : steps wstep s es s' -> forall evs a, sim evs s a ->
  exists a', rtc (cstep cfg q) a a' /\ sim (evs ++ es) s' a'.
Proof.
  induction 1 as [s|s1 e s2 es s3 H1 _ IH]; intros evs a HS; [exists a; by rewrite app_nil_r|].
  destruct (sim_step _ _ _ _ _ HS H1) as (a1 & C1 & S1). destruct (IH _ _ S1) as (a2 & C2 & S2).
  exists a2. split; [by etransitivity|]. by rewrite <- app_assoc in S2.
Qed.
End refinement.

Section theorems.
Context (R : Redis) (V : SetViews R) (N : ErrNoop R) (SL : SetLaws R V) (KL : KeyLaws R V).
Context (S0 : Serde) (cfg : config) (de_pyresp : string -> result string PyResp) (id_only : string -> option string)
  (uniform : f64 -> f64 -> f64) (q : string).

(** C9. The worker refines custody: whatever it is delivered and redelivered,
    however its batches are cut, its trips torn, its commands refused and its
    buffer lost to a crash, every run is matched by a run of the abstract
    custody in which an outcome is decided, then recorded, then its entry let
    go; what is recorded is in Redis, accepted, and the ids let go are exactly
    those an XACK or XDEL named. *)
Theorem worker_refines_custody (w : world) es s : fresh q w ->
  steps (wstep cfg de_pyresp id_only uniform q) {| net_world := w; buffer := [] |} es s ->
  exists a, rtc (cstep cfg q) custody0 a /\
    (forall sid raw r, (sid, raw, r) ∈ decided a -> Dispatched sid raw ∈ es) /\
    (forall r, r ∈ recorded a -> landed (trace (net_world s)) r) /\
    (forall i, i ∈ released a <-> let_go q (net_world s) i).
Proof.
  intros Hf Hs. destruct (sim_run _ _ _ _ _ _ _ _ Hs [] custody0 (sim_start _ _ _ Hf)) as (a & Hc & []). by exists a.
Qed.

(** No task is lost: in every reachable state, each entry let go was
    dispatched, and an outcome of its own text was accepted by Redis: a dead
    letter that keeps it, the result of the task it carried, or a retry with one
    attempt more; and that retry still waits in the delayed set or was appended
    to the stream. *)
Theorem no_task_lost (w : world) es s i : fresh q w ->
  steps (wstep cfg de_pyresp id_only uniform q) {| net_world := w; buffer := [] |} es s -> let_go q (net_world s) i ->
  exists raw r, Dispatched i raw ∈ es /\ Broker.sid r = i /\ outcome_of cfg q raw (extra_cmds r) /\
    landed (trace (net_world s)) r /\
    forall score text, extra_cmds r = [zadd q score text] -> alive q text (server (net_world s)).
Proof.
  intros Hf Hs Hi. destruct (sim_run _ _ _ _ _ _ _ _ Hs [] custody0 (sim_start _ _ _ Hf)) as (a & Hc & [(I1 & I2 & I3) HE _ HR HL (_ & _ & HK)]).
  apply HL in Hi. destruct (I3 i Hi) as (r & Hr & Hid). destruct (I1 r Hr) as (sid & raw & Hd). destruct (I2 _ _ _ Hd) as [Hsid Ho].
  exists raw, r. assert (sid = i) as -> by congruence. split_and!; [by eapply HE|done..|by apply HR|].
  intros score text Ex. destruct (HR r Hr) as (x & b & c & Ht & Hb & Hacc). rewrite Ex in Hb.
  destruct b as [|[c0 rep] [|]]; try done. cbn in Hb, Hacc. injection Hb as ->. apply Forall_cons in Hacc as [Ha _].
  apply (HK score text rep); [|exact Ha]. rewrite Ht. apply elem_of_app. right. apply elem_of_app. left. left.
Qed.
End theorems.

(** ** A run: an entry without text is dead lettered and let go *)

Definition no_answers : exec_answers :=
  {| x_sync := {| sa_full := true; sa_started := Dropped; sa_resp := Dropped; sa_elapsed_ms := 0 |};
     x_async := {| aa_resp := Dropped; aa_elapsed_ms := 0 |};
     x_cpu := {| ca_seq := 0; ca_admission := Permit; ca_send := SendClosed; ca_resp := Dropped; ca_elapsed_ms := 0 |} |}.

Abbreviation toy_step := (@wstep ToyRedis.toy Toy.serde toy_cfg (fun _ => Err ""%string) (fun _ => None) top "q").

Definition toy_log : list op :=
  ops (@spawn_dispatch Toy.serde toy_cfg (fun _ => Err ""%string) (fun _ => None) top true "q" "5-0" None no_answers toy_io).

Definition toy_buffer : list AckReq := (submits toy_log).*2.
Definition toy_end : world := (flush_batch "q" toy_buffer toy_world).2.

Lemma toy_run : steps toy_step {| net_world := toy_world; buffer := [] |} [Dispatched "5-0" None; Flushed 1]
  {| net_world := toy_end; buffer := [] |}.
Proof.
  apply steps_cons with {| net_world := toy_world; buffer := toy_buffer |}.
  - apply (w_dispatch toy_cfg _ _ _ _ {| net_world := toy_world; buffer := [] |} true "5-0" None no_answers toy_io toy_log). reflexivity.
  - apply steps_cons with {| net_world := toy_end; buffer := [] |}; [|apply steps_refl].
    apply (w_flush toy_cfg _ _ _ _ {| net_world := toy_world; buffer := toy_buffer |} 1 (flush_batch "q" toy_buffer toy_world).1 toy_end).
    apply surjective_pairing.
Qed.

Lemma toy_fresh : @fresh ToyRedis.toy ToyRedis.toy_sets "q" toy_world.
Proof. split; [reflexivity|constructor]. Qed.

Lemma worker_refines_custody_witness : exists a,
  rtc (@cstep Toy.serde toy_cfg "q") custody0 a /\ forall i, i ∈ released a <-> let_go "q" toy_end i.
Proof.
  destruct (worker_refines_custody _ _ ToyRedis.toy_noop ToyRedis.toy_set_laws ToyRedis.toy_key_laws Toy.serde toy_cfg
    _ _ _ "q" toy_world _ _ toy_fresh toy_run) as (a & H1 & _ & _ & H4). by exists a.
Defined.

Lemma no_task_lost_witness : exists raw r, Broker.sid r = "5-0"%string /\
  @outcome_of Toy.serde toy_cfg "q" raw (extra_cmds r) /\ landed (trace toy_end) r.
Proof.
  destruct (no_task_lost _ _ ToyRedis.toy_noop ToyRedis.toy_set_laws ToyRedis.toy_key_laws Toy.serde toy_cfg
    _ _ _ "q" toy_world _ _ "5-0" toy_fresh toy_run) as (raw & r & _ & H1 & H2 & H3 & _); [|by exists raw, r].
  exists ["XACK"; "cauli:q:q"; "cauli"; "5-0"]%string, (RInt 1), ["5-0"]%string.
  split_and!; [|left|left]. apply (list_elem_of_lookup_2 _ 2). vm_compute. reflexivity.
Defined.
