(* ===== verification/Loops.v ===== *)
(** The long-running loops ([worker/src/loops.rs]): the fetch loop and its
    admission gate, the delayed mover's and the trim's ticks, recovery of
    pending entries, consumer reaping, the wedged loop watchdog and the age
    probe. A loop is its turn: what one round reads, and what it does then. *)
From S2P Require Import Prelude Float64 Envelope Stats Ctx Redis Broker Exec Dispatch.
Open Scope Z_scope.

(** ** Fetch *)

Definition FETCH_BLOCK_MS : Z := 1000.

Definition fetch_block_ms (redis_timeout_s : Z) : Z :=
  let half_deadline := sat_mul redis_timeout_s 1000 / 2 in
  Z.max (Z.min FETCH_BLOCK_MS half_deadline) 50.

(** What a closed gate waits on, each with [GATE_POLL] as the ceiling. *)
Inductive gate_wait_on := WaitDrained | WaitPoll | WaitPermits (want : Z).

Definition await_capacity (want : Z) : gate_wait_on := WaitPermits (Z.min (Z.max want 1) u32_max).

Definition gate_wait (cpu_started : bool) (want free : Z) : gate_wait_on :=
  if Z.max want 1 <=? free then (if cpu_started then WaitDrained else WaitPoll) else await_capacity want.

(** What a loop sees at the top of a turn. *)
Record gate_view := { gv_shutting_down : bool; gv_permits : Z; gv_backlog : Z; gv_cpu_started : bool }.

Record fetch_args := { fa_queues : list string; fa_io_concurrency : Z; fa_batch : Z; fa_redis_timeout : Z }.

Definition streams (a : fetch_args) : Z := Z.max (Z.of_nat (length (fa_queues a))) 1.
Definition min_permits (a : fetch_args) : Z := Z.min (streams a) (Z.max (fa_io_concurrency a) 1).

Inductive turn := Stop | Wait (on : gate_wait_on) | Read (per_stream block_ms : Z).

Definition fetch_turn (a : fetch_args) (g : gate_view) : turn :=
  if gv_shutting_down g then Stop
  else
    let permits := gv_permits g in
    if (permits <? min_permits a) || (0 <? gv_backlog g)
    then Wait (gate_wait (gv_cpu_started g) (min_permits a) permits)
    else Read (Z.max (Z.min (fa_batch a) permits / streams a) 1) (fetch_block_ms (fa_redis_timeout a)).

(** One entry handed to [spawn_dispatch]. *)
Record spawn := { sp_queue : string; sp_id : string; sp_raw : option string }.

(** [StreamReadReply]: streams by key, entries by id; a field that is not a
    string reads as [None]. *)
Abbreviation stream_reply := (list (string * list (string * gmap string (option string)))).

Definition strip_str (p s : string) : option string := str_of <$> strip_prefix (bytes_of p) (bytes_of s).

Definition fetch_spawns (reply : stream_reply) : list spawn :=
  concat (map (fun sk =>
    let queue := default sk.1 (strip_str "cauli:q:" sk.1) in
    map (fun e => {| sp_queue := queue; sp_id := e.1; sp_raw := mjoin (e.2 !! "e"%string) |}) sk.2) reply).

(** A pending entry: id, consumer, idle, deliveries. *)
Abbreviation pending_row := (string * string * Z * Z)%type.

Section loops.
Context {R : Redis}.
(** [redis-rs]: the arguments of a group read, and the replies only loops read. *)
Context (xread_args : string * string -> Z -> Z -> list string -> cmd)
  (decode_streams : reply -> option (option stream_reply))
  (decode_consumers : reply -> option (list (string * Z * Z))).

(** Groups lost with the dataset are created again; other errors back off. *)
Definition recreate_groups (queues : list string) (w : world) : world := (ensure_groups queues w).2.

(** One read of an open gate: what it spawns. *)
Definition fetch_read (a : fetch_args) (consumer : string) (per_stream block_ms : Z) (w : world) : list spawn * world :=
  match query (xread_args ("cauli", consumer)%string per_stream block_ms (q_key <$> fa_queues a)) w with
  | (Ok r, w) =>
      match decode_streams r with
      | Some (Some reply) => (fetch_spawns reply, w)
      | _ => ([], w)
      end
  | (Err e, w) => if is_nogroup e then ([], recreate_groups (fa_queues a) w) else ([], w)
  end.

(** ** Mover and trim ticks *)

Definition MOVER_ROUNDS_PER_TICK : nat := 32.

(** Rounds on one queue until a short page, an error or the cap; the readings
    of the clock, one per round. *)
Fixpoint mover_rounds (n : nat) (queue : string) (limit : Z) (nows : list Z) (w : world) : world :=
  match n with
  | O => w
  | S n =>
      match run_mover queue (hd 0 nows) limit w with
      | (Ok k, w) => if k <? limit then w else mover_rounds n queue limit (tl nows) w
      | (Err _, w) => w
      end
  end.

Definition mover_queue (queue : string) (mover_limit : Z) : list Z -> world -> world :=
  mover_rounds MOVER_ROUNDS_PER_TICK queue (Z.max mover_limit 1).

(** One queue of a trim tick: an unchanged boundary is not trimmed again. *)
Definition trim_queue (queue : string) (trimmed_to : gmap string string) (w : world) : gmap string string * world :=
  match acked_below queue w with
  | (Ok (Some boundary), w) =>
      if bool_decide (trimmed_to !! queue = Some boundary) then (trimmed_to, w)
      else match trim_acked queue boundary w with
           | (Ok _, w) => (<[queue := boundary]> trimmed_to, w)
           | (Err _, w) => (trimmed_to, w)
           end
  | (_, w) => (trimmed_to, w)
  end.

Fixpoint trim_tick (queues : list string) (st : gmap string string * world) : gmap string string * world :=
  match queues with [] => st | q :: queues => trim_tick queues (trim_queue q st.1 st.2) end.

(** ** Recovery *)

Definition RECOVERY_SCAN_BATCH : Z := 128.
Definition visibility_timeout_ms (visibility_timeout_s : Z) : Z := sat_mul visibility_timeout_s 1000.
Definition reclaim_margin_ms (redis_timeout_s : Z) : Z := Z.max (sat_mul redis_timeout_s 1000) BACKSTOP_GRACE_MS.

(** [admission_open], over what each poll of the gate sees: the page size, or
    [None] once shutdown began. [None] of the whole: still waiting. *)
Fixpoint admission_open (views : list gate_view) : option (option Z) :=
  match views with
  | [] => None
  | g :: views =>
      if gv_shutting_down g then Some None
      else if (0 <? gv_permits g) && (gv_backlog g =? 0) then Some (Some (Z.min (gv_permits g) RECOVERY_SCAN_BATCH))
      else admission_open views
  end.

Record recovery_args := { ra_consumer : string; ra_vt_ms : Z; ra_redis_timeout : Z }.

Record candidate := { ca_id : string; ca_idle : Z; ca_deliveries : Z; ca_env : option Envelope }.

Definition required_idle_ms `{Serde} (a : recovery_args) (parsed : option Envelope) : Z :=
  match parsed with
  | Some env => Z.max (ra_vt_ms a) (sat_add (sat_add (timeout_ms env) BACKSTOP_GRACE_MS) (reclaim_margin_ms (ra_redis_timeout a)))
  | None => ra_vt_ms a
  end.

(** The entry to claim, if any, for a row and its peeked content. *)
Definition eligible_of `{Serde} (a : recovery_args) (held : Inflight) (queue : string)
    (p : pending_row * option (option string)) : option candidate :=
  let '((entry_id, _, idle, delivery_count), peek) := p in
  match peek with
  | None => None
  | Some raw_opt =>
      let parsed := raw_opt ≫= fun r => ok (envelope_of_text r) in
      if idle <? required_idle_ms a parsed then None
      else if holds_entry held queue entry_id then None
      else Some {| ca_id := entry_id; ca_idle := idle; ca_deliveries := delivery_count; ca_env := parsed |}
  end.

(** What a page does with a claimed entry. *)
Inductive recovery_act := ADeadLetter (queue id raw reason : string) | ASpawn (s : spawn).

Definition act_id (x : recovery_act) : string := match x with ADeadLetter _ id _ _ => id | ASpawn s => sp_id s end.
Definition act_queue (x : recovery_act) : string := match x with ADeadLetter q _ _ _ => q | ASpawn s => sp_queue s end.
Definition act_raw (x : recovery_act) : option string := match x with ADeadLetter _ _ t _ => Some t | ASpawn s => sp_raw s end.

Definition act_of (queue : string) (p : candidate * option (option string)) : option recovery_act :=
  match p.2 with
  | None => None
  | Some raw =>
      Some (if redelivery_limit (ca_env p.1) <? ca_deliveries p.1
            then ADeadLetter queue (ca_id p.1) (default "" raw) "redelivery_limit"
            else ASpawn {| sp_queue := queue; sp_id := ca_id p.1; sp_raw := raw |})
  end.

(** One page: the next cursor, and the acts, in order. *)
Definition recover_page `{Serde} (a : recovery_args) (held : Inflight) (queue start : string) (page : Z) (w : world)
    : (option string * list recovery_act) * world :=
  match xpending_idle queue (ra_vt_ms a) start page w with
  | (Err _, w) => ((None, []), w)
  | (Ok pend, w) =>
      let next_cursor := match List.rev pend with
        | (last_id, _, _, _) :: _ => if Z.of_nat (length pend) =? page then Some ("(" +:+ last_id) else None
        | [] => None
        end in
      match peek_entries queue ((fun p : pending_row => p.1.1.1) <$> pend) w with
      | (Err _, w) => ((None, []), w)
      | (Ok peeked, w) =>
          let eligible := omap (eligible_of a held queue) (zip pend peeked) in
          if bool_decide (length eligible = 0%nat) then ((next_cursor, []), w)
          else match xclaim_entries queue (ra_consumer a) (ra_vt_ms a) (ca_id <$> eligible) w with
               | (Err _, w) => ((None, []), w)
               | (Ok claimed, w) => ((next_cursor, omap (act_of queue) (zip eligible claimed)), w)
               end
      end
  end.

(** ** One recovery tick *)

(** What each wait for admission sees: the polls of the gate, and what is held
    when it opens. *)
Record admission := { ad_views : list gate_view; ad_held : Inflight }.

(** A pass went round whole (a drain: no cursor is left), shutdown began while it
    waited, or it still waits. *)
Inductive drain_end := Drained | Shutdown | Waiting.

(** One pass of the round robin, with the admissions it left. *)
Fixpoint drain_pass `{Serde} (a : recovery_args) (cursors : list (string * option string)) (ads : list admission)
    (acts : list recovery_act) (w : world) : list (string * option string) * list admission * list recovery_act * world * drain_end :=
  match cursors with
  | [] => ([], ads, acts, w, Drained)
  | (q, None) :: cursors =>
      let '(cs, ads, acts, w, e) := drain_pass a cursors ads acts w in ((q, None) :: cs, ads, acts, w, e)
  | (q, Some start) :: cursors =>
      match ads with
      | ad :: ads =>
          match admission_open (ad_views ad) with
          | Some (Some page) =>
              let '((next, acts'), w) := recover_page a (ad_held ad) q start page w in
              let '(cs, ads, acts, w, e) := drain_pass a cursors ads (acts ++ acts') w in
              ((q, next) :: cs, ads, acts, w, e)
          | Some None => ((q, None) :: cursors, ads, acts, w, Shutdown)
          | None => ((q, None) :: cursors, [], acts, w, Waiting)
          end
      | [] => ((q, None) :: cursors, [], acts, w, Waiting)
      end
  end.

(** Passes while a cursor is left; every pass uses an admission, so their number is fuel enough. *)
Fixpoint drain_queues `{Serde} (fuel : nat) (a : recovery_args) (cursors : list (string * option string)) (ads : list admission)
    (acts : list recovery_act) (w : world) : drain_end * list admission * list recovery_act * world :=
  match fuel with
  | O => (Waiting, ads, acts, w)
  | S fuel =>
      if existsb (fun c : string * option string => bool_decide (is_Some c.2)) cursors then
        match drain_pass a cursors ads acts w with
        | (cs, ads, acts, w, Drained) => drain_queues fuel a cs ads acts w
        | (_, ads, acts, w, e) => (e, ads, acts, w)
        end
      else (Drained, ads, acts, w)
  end.

(** ** Reaping *)

Definition CONSUMER_REAP_EVERY_TICKS : Z := 20.
Definition CONSUMER_REAP_MIN_IDLE_MS : Z := 10 * 60 * 1000.

Definition consumer_reap_idle_ms (vt_ms : Z) : Z := Z.max (sat_mul vt_ms 4) CONSUMER_REAP_MIN_IDLE_MS.

Definition consumer_is_reapable (name : string) (pending idle_ms : Z) (self_name : string) (min_idle_ms : Z) : bool :=
  (pending =? 0) && negb (String.eqb name self_name) && (min_idle_ms <=? idle_ms).

Fixpoint delete_consumers (key : string) (names : list string) (w : world) : world :=
  match names with
  | [] => w
  | n :: names => delete_consumers key names (query ["XGROUP"; "DELCONSUMER"; key; "cauli"; n]%string w).2
  end.

(** The consumers one queue's reap deletes: name, pending, idle. *)
Definition reapable (self_name : string) (min_idle_ms : Z) (cs : list (string * Z * Z)) : list string :=
  omap (fun '(name, pending, idle) =>
    if consumer_is_reapable name pending idle self_name min_idle_ms then Some name else None) cs.

Fixpoint reap_stale_consumers (queues : list string) (self_name : string) (vt_ms : Z) (w : world) : world :=
  match queues with
  | [] => w
  | q :: queues =>
      let w := match query ["XINFO"; "CONSUMERS"; q_key q; "cauli"]%string w with
        | (Ok r, w) =>
            match decode_consumers r with
            | Some cs => delete_consumers (q_key q) (reapable self_name (consumer_reap_idle_ms vt_ms) cs) w
            | None => w
            end
        | (Err _, w) => w
        end in
      reap_stale_consumers queues self_name vt_ms w
  end.

(** One tick of the recovery loop, and how its drain ended; [ticks] is the loop's
    counter. *)
Definition recovery_tick `{Serde} (a : recovery_args) (queues : list string) (shutting_down : bool) (ticks : Z)
    (ads : list admission) (w : world) : drain_end * list admission * list recovery_act * Z * world :=
  if shutting_down then (Drained, ads, [], ticks, w)
  else
    let w := if ticks mod CONSUMER_REAP_EVERY_TICKS =? 0 then reap_stale_consumers queues (ra_consumer a) (ra_vt_ms a) w else w in
    let '(e, ads, acts, w) := drain_queues (S (length ads)) a ((fun q => (q, Some "-"%string)) <$> queues) ads [] w in
    (e, ads, acts, wrap64 (ticks + 1), w).

(** ** Ages *)

(** [id.split('-').next()], parsed. *)
Definition stream_id_age_ms (id : string) (now_ms : Z) : Z :=
  match parse_u64 (break (Ascii.eqb "-"%char) (bytes_of id)).1 with
  | Some ms => sat_sub now_ms ms
  | None => 0
  end.

(** An error of a probe leaves the age as it is. *)
Definition age_of (now oldest : Z) (r : result rerr (option string)) : Z :=
  match r with Ok (Some id) => Z.max oldest (stream_id_age_ms id now) | _ => oldest end.

Fixpoint oldest_unacked (now oldest : Z) (queues : list string) (w : world) : Z * world :=
  match queues with
  | [] => (oldest, w)
  | q :: queues =>
      let '(r1, w) := oldest_pending_id q w in
      let oldest := age_of now oldest r1 in
      let '(r2, w) := oldest_undelivered_id q w in
      oldest_unacked now (age_of now oldest r2) queues w
  end.

Definition oldest_unacked_ms (now : Z) (queues : list string) (w : world) : Z * world := oldest_unacked now 0 queues w.

(** One line of [stats_loop]: the counters' line ([Stats.stats_line]), then the
    gauges it reads. *)
Definition stats_loop_line (stats : string) (oldest cpu_rss_mb sync_live sync_abandoned async_rejected cpu_backlog loop_lag_ms : Z) : string :=
  stats +:+ " oldest_ms=" +:+ dec oldest +:+ " cpu_rss_mb=" +:+ dec cpu_rss_mb +:+ " sync_live=" +:+ dec sync_live +:+
  " sync_abandoned=" +:+ dec sync_abandoned +:+ " async_rejected=" +:+ dec async_rejected +:+ " cpu_backlog=" +:+ dec cpu_backlog +:+
  " loop_lag_ms=" +:+ dec loop_lag_ms.
End loops.

(** ** Wedged event loops *)

Definition HEARTBEAT_INTERVAL_MS : Z := 5000.
Definition WEDGE_WINDOW_MS : Z := 3 * HEARTBEAT_INTERVAL_MS.
Definition WEDGE_EXIT_CODE : Z := 87.

Record LoopBeat := { lag_ms : Z; outstanding : Z; completed : Z }.
Record LoopWatch := { w_completed : Z; progress_at : Z }.

(** The watchdog's locals, [LOOP_LAG_MS] and the exit code it left with.
    Instants are milliseconds. *)
Record wedge := { watches : list LoopWatch; rejected : Z; rejected_at : option Z; loop_lag : Z; exited : option (nat * Z) }.

Definition ms_since (earlier now : Z) : Z := sat_sub now earlier.

Definition wedge_confirmed (lag_ms outstanding since_progress_ms : Z) (since_rejection_ms : option Z) : bool :=
  let stamp_stale := WEDGE_WINDOW_MS <=? lag_ms in
  let nothing_finishing := (0 <? outstanding) && (WEDGE_WINDOW_MS <=? since_progress_ms) in
  let rejecting := match since_rejection_ms with Some ms => ms <=? WEDGE_WINDOW_MS | None => false end in
  stamp_stale && (nothing_finishing || rejecting).

(** What the probe of one tick returns; [None] for an error or a panic. *)
Record wedge_view := { wv_shutting_down : bool; wv_now : Z; wv_beats : option (list LoopBeat); wv_rejected : Z }.

(** [resize_with] to one watch per beat. *)
Definition resize_watches (n : nat) (now : Z) (l : list LoopWatch) : list LoopWatch :=
  resize n {| w_completed := 0; progress_at := now |} l.

Definition note_progress (now : Z) (watch : LoopWatch) (beat : LoopBeat) : LoopWatch :=
  if completed beat =? w_completed watch then watch else {| w_completed := completed beat; progress_at := now |}.

(** The loop over the beats: watches noted up to the first confirmed one. *)
Fixpoint check_beats (idx : nat) (now : Z) (since_rejection : option Z) (ws : list LoopWatch) (bs : list LoopBeat)
    : list LoopWatch * option nat :=
  match ws, bs with
  | watch :: ws, beat :: bs =>
      let watch := note_progress now watch beat in
      if wedge_confirmed (lag_ms beat) (outstanding beat) (ms_since (progress_at watch) now) since_rejection
      then (watch :: ws, Some idx)
      else let '(ws, x) := check_beats (S idx) now since_rejection ws bs in (watch :: ws, x)
  | _, _ => (ws, None)
  end.

Definition wedge_tick (s : wedge) (v : wedge_view) : wedge :=
  if wv_shutting_down v then s
  else match wv_beats v with
    | None => s
    | Some beats =>
        let now := wv_now v in
        let '(rej, rej_at) := if rejected s <? wv_rejected v then (wv_rejected v, Some now) else (rejected s, rejected_at s) in
        let '(ws, x) := check_beats 0 now ((fun t => ms_since t now) <$> rej_at) (resize_watches (length beats) now (watches s)) beats in
        {| watches := ws; rejected := rej; rejected_at := rej_at;
           loop_lag := foldr Z.max 0 (lag_ms <$> beats);
           exited := (fun i => (i, WEDGE_EXIT_CODE)) <$> x |}
    end.

Definition wedge_start (async_rejected : Z) : wedge :=
  {| watches := []; rejected := async_rejected; rejected_at := None; loop_lag := 0; exited := None |}.

(** The watchdog over a run: an exit ends it. *)
Fixpoint wedge_run (s : wedge) (vs : list wedge_view) : wedge :=
  match vs with
  | [] => s
  | v :: vs => match exited s with Some _ => s | None => wedge_run (wedge_tick s v) vs end
  end.

Example convoy_is_not_a_wedge : wedge_confirmed 60000 10 5000 None = false. Proof. reflexivity. Qed.

(** ** The fetch gate *)

(** C28. How much the fetch loop reads, and when. Never while shutting down or
    with cpu work overflowing. With at most as many queues as io slots, a full
    page from every stream fits the free slots. With more queues than slots it
    does not: the loop still reads one entry of each stream, which can be more
    than there are slots to start them. Either way it reads no more than the free
    slots or one of each stream, whichever is more. Closed, it waits on the half that is shut,
    never on a condition already true; with every slot free and no backlog it
    always reads. The block window stays within [50, 1000] and, from a 1 s Redis
    timeout up, at most half of it. *)
Theorem fetch_starts_what_it_reads a g :
  0 <= gv_permits g -> 0 <= gv_backlog g -> Z.of_nat (length (fa_queues a)) <= u32_max ->
  match fetch_turn a g with
  | Stop => gv_shutting_down g = true
  | Wait on =>
      gv_shutting_down g = false /\
      match on with
      | WaitPermits want => gv_permits g < want /\ want = min_permits a
      | WaitDrained => 0 < gv_backlog g /\ gv_cpu_started g = true
      | WaitPoll => 0 < gv_backlog g /\ gv_cpu_started g = false
      end
  | Read c b =>
      gv_shutting_down g = false /\ gv_backlog g = 0 /\ 1 <= c /\
      (streams a <= Z.max (fa_io_concurrency a) 1 -> c * streams a <= gv_permits g) /\
      (Z.max (fa_io_concurrency a) 1 < streams a -> gv_permits g < streams a -> c = 1) /\
      c * streams a <= Z.max (gv_permits g) (streams a) /\
      50 <= b <= 1000 /\ (1 <= fa_redis_timeout a -> 2 * b <= sat_mul (fa_redis_timeout a) 1000)
  end /\
  (gv_shutting_down g = false -> gv_backlog g = 0 -> Z.max (fa_io_concurrency a) 1 <= gv_permits g ->
   exists c b, fetch_turn a g = Read c b).
Proof.
  intros Hp Hb Hq. unfold fetch_turn. destruct (gv_shutting_down g); [done|].
  assert (Hs : 1 <= streams a <= u32_max) by (unfold streams; mlia).
  assert (Hm : 1 <= min_permits a <= u32_max /\ min_permits a <= streams a) by (unfold min_permits; mlia).
  destruct (Z.ltb_spec (gv_permits g) (min_permits a)) as [Hlt|Hge]; cbn [orb].
  { split; [|intros; unfold min_permits in *; mlia]. unfold gate_wait, await_capacity.
    rewrite (Z.max_l (min_permits a) 1) by lia. rewrite (proj2 (Z.leb_gt _ _) Hlt). rewrite Z.min_l by lia. done. }
  destruct (Z.ltb_spec 0 (gv_backlog g)) as [Hpos|Hz].
  { split; [|intros; lia]. unfold gate_wait. rewrite (Z.max_l (min_permits a) 1) by lia.
    rewrite (proj2 (Z.leb_le _ _) Hge). by destruct (gv_cpu_started g). }
  split; [|by eauto]. set (n := Z.min (fa_batch a) (gv_permits g) / streams a).
  assert (Hn : n * streams a <= gv_permits g \/ n < 0).
  { destruct (Z.le_gt_cases 0 (Z.min (fa_batch a) (gv_permits g))).
    - left. pose proof (Z.mul_div_le (Z.min (fa_batch a) (gv_permits g)) (streams a) ltac:(lia)). subst n. lia.
    - right. apply Z.div_lt_upper_bound; lia. }
  assert (Hn1 : gv_permits g < streams a -> n <= 0).
  { intros Hlt. enough (n < 1) by lia. apply Z.div_lt_upper_bound; lia. }
  split_and!; [done|lia|lia| | | | | |].
  - intros Hle. assert (streams a <= gv_permits g) by (unfold min_permits in *; lia).
    destruct Hn as [Hn|Hn]; [|rewrite Z.max_r by lia; lia].
    destruct (Z.max_spec n 1) as [[_ ->]|[_ ->]]; lia.
  - intros _ Hlt. specialize (Hn1 Hlt). lia.
  - destruct Hn as [Hn|Hn]; destruct (Z.max_spec n 1) as [[_ ->]|[_ ->]]; lia.
  - unfold fetch_block_ms. lia.
  - unfold fetch_block_ms, FETCH_BLOCK_MS. lia.
  - intros Ht. unfold fetch_block_ms, FETCH_BLOCK_MS.
    pose proof (Z.mul_div_le (sat_mul (fa_redis_timeout a) 1000) 2 ltac:(lia)).
    assert (1000 <= sat_mul (fa_redis_timeout a) 1000) by mlia. assert (500 <= sat_mul (fa_redis_timeout a) 1000 / 2).
    { apply Z.div_le_lower_bound; lia. } lia.
Qed.

Lemma fetch_starts_what_it_reads_witness :
  let a := {| fa_queues := ["a"; "b"; "c"]%string; fa_io_concurrency := 10; fa_batch := 64; fa_redis_timeout := 1 |} in
  let g := {| gv_shutting_down := false; gv_permits := 10; gv_backlog := 0; gv_cpu_started := true |} in
  fetch_turn a g = Read 3 500 /\ 3 * streams a <= 10.
Proof.
  intros a g. split; [reflexivity|].
  destruct (fetch_starts_what_it_reads a g) as [(_ & _ & _ & H & _) _]; [cbn; lia|cbn; lia|cbn; mlia|].
  apply H. vm_compute. discriminate.
Defined.

(** ** Recovery *)

Section recovery.
Context {R : Redis} {S0 : Serde} (a : recovery_args) (held : Inflight) (q : string).

Definition xclaim (id : string) : cmd := ["XCLAIM"; q_key q; "cauli"; ra_consumer a; dec (ra_vt_ms a); id]%string.

(** Idle past every threshold of its content, and not held here. *)
Definition reclaimable (rows : list (pending_row * option (option string))) (id : string) (deliveries : Z) (parsed : option Envelope) : Prop :=
  exists c idle raw, ((id, c, idle, deliveries), Some raw) ∈ rows /\ parsed = (raw ≫= fun r => ok (envelope_of_text r)) /\
    ra_vt_ms a <= idle /\ (forall env, parsed = Some env ->
      sat_add (sat_add (timeout_ms env) BACKSTOP_GRACE_MS) (reclaim_margin_ms (ra_redis_timeout a)) <= idle) /\
    holds_entry held q id = false.

Lemma eligible_of_ok rows p cand : p ∈ rows -> eligible_of a held q p = Some cand ->
  reclaimable rows (ca_id cand) (ca_deliveries cand) (ca_env cand) /\ ca_id cand = p.1.1.1.1.
Proof.
  destruct p as [[[[id c] idle] dc] [raw|]]; [|done]. intros Hin. unfold eligible_of.
  destruct (Z.ltb_spec idle (required_idle_ms a (raw ≫= fun r => ok (envelope_of_text r)))) as [|Hle]; [done|].
  destruct (holds_entry held q id) eqn:Eh; [done|]. intros [= <-]. cbn. split; [|done].
  exists c, idle, raw. unfold required_idle_ms in Hle. split_and!; [done..| | |done].
  - destruct (raw ≫= _); lia.
  - intros env E. rewrite E in Hle. lia.
Qed.

Lemma omap_sublist {A B} (f : A -> option B) (g : B -> string) (h : A -> string) (l : list A) :
  (forall x y, f x = Some y -> g y = h x) -> g <$> omap f l `sublist_of` h <$> l.
Proof.
  intros H. induction l as [|x l IH]; [constructor|]. cbn. destruct (f x) as [y|] eqn:E; cbn.
  - rewrite (H _ _ E). by constructor.
  - by constructor.
Qed.

Lemma query_trace c (w : world) r w' : query c w = (r, w') -> exists t, trace w' = trace w ++ t /\ forall x, x ∈ t.*1 -> x = c.
Proof.
  unfold query. destruct (round_trip [c] w) as [o w1] eqn:E. destruct (round_trip_trace _ _ _ _ E) as (rs & k & Ht & Hl & _).
  intros H. exists (zip (take k [c]) rs). assert (w' = w1) as -> by (destruct o as [[|? []]|]; congruence).
  split; [done|]. rewrite fst_zip by lia. intros x Hx.
  destruct k as [|[|k]]; cbn in Hx; [by apply not_elem_of_nil in Hx|by apply list_elem_of_singleton in Hx..].
Qed.

Definition is_xclaim (c : cmd) : Prop := head c = Some "XCLAIM"%string.
End recovery.

Section recovery_calls.
Context {R : Redis} {S0 : Serde}.

(** A call that adds [t] to the trace, commands [cs] or a prefix of them. *)
Definition issues (cs : list cmd) (w w' : world) (all : bool) : Prop :=
  exists t, trace w' = trace w ++ t /\ t.*1 `prefix_of` cs /\ (all = true -> t.*1 = cs).

Lemma query_pipe_issues cs (w : world) r w' : query_pipe cs w = (r, w') -> issues cs w w' (is_ok r).
Proof. intros H. destruct (query_pipe_trace _ _ _ _ H) as (t & H1 & H2 & H3). exists t. naive_solver. Qed.

Lemma xpending_idle_issues queue vt start page (w : world) r w' : xpending_idle queue vt start page w = (r, w') ->
  exists t, trace w' = trace w ++ t /\ forall c, c ∈ t.*1 -> ~ is_xclaim c.
Proof.
  unfold xpending_idle, mbind, M_bind.
  destruct (query _ w) as [o w1] eqn:E. apply query_trace in E as (t & Ht & Hc). intros H. exists t.
  split; [|by intros c ->%Hc]. destruct o; by injection H as _ <-.
Qed.

Lemma peek_entries_issues queue ids (w : world) r w' : peek_entries queue ids w = (r, w') ->
  exists t, trace w' = trace w ++ t /\ forall c, c ∈ t.*1 -> ~ is_xclaim c.
Proof.
  destruct ids as [|i ids]; [intros [= _ <-]; exists []; rewrite app_nil_r; split; [done|by intros c ?%not_elem_of_nil]|].
  unfold peek_entries. set (cs := (fun id => ["XRANGE"; q_key queue; id; id]%string) <$> i :: ids).
  unfold mbind, M_bind. destruct (query_pipe cs w) as [o w1] eqn:E.
  apply query_pipe_issues in E as (t & Ht & Hp & _). intros H. exists t.
  split; [destruct o; [unfold decode_replies in H; destruct (ok_or _ _)|]; by injection H as _ <-|].
  intros c Hc. apply (elem_of_prefix _ _ c) in Hp; [|done]. subst cs. apply list_elem_of_fmap in Hp as (id & -> & _). done.
Qed.

Lemma xclaim_entries_issues queue consumer vt ids (w : world) r w' : xclaim_entries queue consumer vt ids w = (r, w') ->
  issues ((fun id => ["XCLAIM"; q_key queue; "cauli"; consumer; dec vt; id]%string) <$> ids) w w' (is_ok r).
Proof.
  unfold xclaim_entries, mbind, M_bind. destruct (query_pipe _ w) as [o w1] eqn:E. apply query_pipe_issues in E as (t & Ht & Hp & Ha).
  intros H. exists t. destruct o as [rs|e]; [unfold decode_replies in H; destruct (ok_or _ _)|]; injection H as <- <-; by split_and!.
Qed.

Lemma xclaim_entries_length queue consumer vt ids (w : world) l w' :
  xclaim_entries queue consumer vt ids w = (Ok l, w') -> (length l <= length ids)%nat.
Proof.
  unfold xclaim_entries, mbind, M_bind. destruct (query_pipe _ w) as [[rs|] w1]; [|done].
  unfold decode_replies. destruct (ok_or _ _); [|done]. intros [= <- _]. rewrite length_zip_with. lia.
Qed.
End recovery_calls.

Section recovered.
Context {R : Redis} {S0 : Serde} (a : recovery_args) (held : Inflight) (q : string).

Lemma act_of_ok (cand : candidate) raw x : act_of q (cand, raw) = Some x ->
  act_id x = ca_id cand /\ exists r,
  x = if redelivery_limit (ca_env cand) <? ca_deliveries cand then ADeadLetter q (ca_id cand) (default "" r) "redelivery_limit"
      else ASpawn {| sp_queue := q; sp_id := ca_id cand; sp_raw := r |}.
Proof. destruct raw as [r|]; [|done]. intros [= <-]. split; [by destruct (_ <? _)|by exists r]. Qed.

(** What one page did: its trace [t], the rows it read and peeked. *)
Record recovered (start : string) (page : Z) (w w' : world) (next : option string) (acts : list recovery_act)
    (t : list (cmd * reply)) (pend : list pending_row) (peeked : list (option (option string))) : Prop := {
  rc_trace : trace w' = trace w ++ t;
  rc_claims : forall c, c ∈ t.*1 -> is_xclaim c -> exists id dc parsed,
    c = xclaim a q id /\ reclaimable a held q (zip pend peeked) id dc parsed;
  rc_acts : forall x, x ∈ acts -> exists id dc parsed raw,
    reclaimable a held q (zip pend peeked) id dc parsed /\ xclaim a q id ∈ t.*1 /\
    x = if redelivery_limit parsed <? dc then ADeadLetter q id (default "" raw) "redelivery_limit"
        else ASpawn {| sp_queue := q; sp_id := id; sp_raw := raw |};
  rc_once : act_id <$> acts `sublist_of` (fun p : pending_row => p.1.1.1) <$> pend;
  rc_rows : acts <> [] \/ is_Some next -> exists w1, xpending_idle q (ra_vt_ms a) start page w = (Ok pend, w1);
  rc_next : forall cur, next = Some cur -> Z.of_nat (length pend) = page /\
    exists p, last pend = Some p /\ cur = ("(" +:+ p.1.1.1)%string;
}.

Lemma recovered_nothing start page w w' next t pend :
  trace w' = trace w ++ t -> (forall c, c ∈ t.*1 -> ~ is_xclaim c) ->
  (is_Some next -> exists w1, xpending_idle q (ra_vt_ms a) start page w = (Ok pend, w1)) ->
  (forall cur, next = Some cur -> Z.of_nat (length pend) = page /\ exists p, last pend = Some p /\ cur = ("(" +:+ p.1.1.1)%string) ->
  exists t peeked, recovered start page w w' next [] t pend peeked.
Proof.
  intros Ht Hc Hs Hcur. exists t, []. split; [done| | | | |done].
  - intros c Hin Hx. by destruct (Hc c Hin).
  - by intros x ?%not_elem_of_nil.
  - apply sublist_nil_l.
  - intros [?|?]; [done|by apply Hs].
Qed.

Lemma recovered_aborted start page w w' t : trace w' = trace w ++ t -> (forall c, c ∈ t.*1 -> ~ is_xclaim c) ->
  exists t pend peeked, recovered start page w w' None [] t pend peeked.
Proof.
  intros Ht Hc. destruct (recovered_nothing start page w w' None t [] Ht Hc) as (t' & pk & H); [by intros []|done|by eauto].
Qed.

Lemma zip_acts (eligible : list candidate) claimed : forall x, x ∈ omap (act_of q) (zip eligible claimed) ->
  exists cand raw, cand ∈ eligible /\ act_of q (cand, raw) = Some x.
Proof.
  intros x ([cand raw] & Hin & Hx)%list_elem_of_omap. exists cand, raw. split; [|done].
  by apply elem_of_zip_l in Hin.
Qed.

Lemma acts_sublist (eligible : list candidate) claimed :
  act_id <$> omap (act_of q) (zip eligible claimed) `sublist_of` ca_id <$> eligible.
Proof.
  revert claimed. induction eligible as [|c l IH]; intros [|r rs]; try apply sublist_nil_l.
  cbn [zip_with omap list_omap fmap list_fmap]. destruct (act_of q (c, r)) as [x|] eqn:E; cbn [fmap list_fmap].
  - apply act_of_ok in E as [-> _]. constructor. apply IH.
  - constructor. apply IH.
Qed.

Lemma eligible_sublist (pend : list pending_row) peeked :
  ca_id <$> omap (eligible_of a held q) (zip pend peeked) `sublist_of` (fun p : pending_row => p.1.1.1) <$> pend.
Proof.
  revert peeked. induction pend as [|p l IH]; intros [|r rs]; try apply sublist_nil_l.
  cbn [zip_with omap list_omap fmap list_fmap]. destruct (eligible_of a held q (p, r)) as [x|] eqn:E; cbn [fmap list_fmap].
  - apply (eligible_of_ok a held q [(p, r)]) in E as [_ ->]; [|by apply list_elem_of_here]. constructor. apply IH.
  - constructor. apply IH.
Qed.
End recovered.

(** C11. Recovery never steals work that may still be running. Every entry a page
    claims, and so every one it redispatches or dead letters, was pending and idle
    at least the visibility timeout and, where its envelope parses, its own hard
    timeout plus grace and dispatch margin, and is not in flight in this process.
    An act names an entry of the page, each at most once and in order, was
    preceded by its claim, and is a dead letter exactly past the redelivery
    limit. A next cursor starts past a page that came full. *)
Theorem recovery_spares_live_work {R : Redis} {S0 : Serde} a held q start page w :
  let '((next, acts), w') := recover_page a held q start page w in
  exists t pend peeked, recovered a held q start page w w' next acts t pend peeked.
Proof.
  unfold recover_page. destruct (xpending_idle _ _ _ _ w) as [[pend|e] w1] eqn:E1.
  2: { destruct (xpending_idle_issues _ _ _ _ _ _ _ E1) as (t & Ht & Hc). by eapply recovered_aborted. }
  destruct (xpending_idle_issues _ _ _ _ _ _ _ E1) as (t1 & Ht1 & Hc1).
  set (next := match List.rev pend with [] => None | _ => _ end).
  assert (Hnext : forall cur, next = Some cur -> Z.of_nat (length pend) = page /\ exists p, last pend = Some p /\ cur = ("(" +:+ p.1.1.1)%string).
  { intros cur. subst next. pose proof (rev_involutive pend) as Hl. destruct (List.rev pend) as [|[[[id c] i] d] l]; [done|].
    destruct (Z.eqb_spec (Z.of_nat (length pend)) page); [|done]. intros [= <-]. split; [done|].
    exists (id, c, i, d). rewrite <- Hl. cbn [List.rev]. by rewrite last_snoc. }
  destruct (peek_entries _ _ w1) as [[peeked|e] w2] eqn:E2;
    destruct (peek_entries_issues _ _ _ _ _ E2) as (t2 & Ht2 & Hc2).
  2: { eapply (recovered_aborted _ _ _ _ _ _ _ (t1 ++ t2)); [by rewrite Ht2, Ht1, app_assoc|].
       intros c. rewrite fmap_app. intros [?|?]%elem_of_app; auto. }
  assert (Ht12 : trace w2 = trace w ++ (t1 ++ t2)) by (by rewrite Ht2, Ht1, app_assoc).
  assert (Hc12 : forall c, c ∈ (t1 ++ t2).*1 -> ~ is_xclaim c).
  { intros c. rewrite fmap_app. intros [?|?]%elem_of_app; auto. }
  case_bool_decide as He.
  { destruct (recovered_nothing a held q start page w w2 next (t1 ++ t2) pend Ht12 Hc12) as (t & pk & H); [by eauto|done|by eauto]. }
  destruct (xclaim_entries _ _ _ _ w2) as [o w3] eqn:E3. pose proof (xclaim_entries_issues _ _ _ _ _ _ _ E3) as (t3 & Ht3 & Hp3 & Ha3).
  set (rows := zip pend peeked) in *.
  assert (HT : trace w3 = trace w ++ (t1 ++ t2 ++ t3)) by (by rewrite Ht3, Ht12, <- !app_assoc).
  assert (HC : forall c, c ∈ (t1 ++ t2 ++ t3).*1 -> is_xclaim c -> exists id dc parsed, c = xclaim a q id /\ reclaimable a held q rows id dc parsed).
  { intros c. rewrite app_assoc, fmap_app. intros [H|H]%elem_of_app Hx; [by destruct (Hc12 c H)|].
    apply (elem_of_prefix _ _ c) in Hp3; [|done]. rewrite <- list_fmap_compose in Hp3.
    apply list_elem_of_fmap in Hp3 as (cand & -> & (row & Hrow & Hcand)%list_elem_of_omap).
    apply (eligible_of_ok a held q rows) in Hcand as [HR _]; [|done]. by do 3 eexists. }
  destruct o as [claimed|e]; exists (t1 ++ t2 ++ t3), pend, peeked.
  - split; [done|done| | |by eauto|done].
    + intros x (cand & raw & Hcand & Hx)%zip_acts. apply list_elem_of_omap in Hcand as (row & Hrow & Hcand).
      pose proof (eligible_of_ok a held q rows _ _ Hrow Hcand) as [HR _]. apply act_of_ok in Hx as (_ & r & ->).
      exists (ca_id cand), (ca_deliveries cand), (ca_env cand), r. split_and!; [done| |done].
      rewrite !fmap_app. apply elem_of_app. right. apply elem_of_app. right. rewrite (Ha3 eq_refl), <- list_fmap_compose.
      apply (list_elem_of_fmap_2' _ _ cand); [|done]. apply list_elem_of_omap. by exists row.
    + etransitivity; [apply acts_sublist|apply eligible_sublist].
  - split; [done|done|by intros x ?%not_elem_of_nil|apply sublist_nil_l|by intros [?|[]]|done].
Qed.

(** ** The watchdog *)

(** What a tick saw of the loops: nothing during a drain. *)
Definition seen (v : wedge_view) : option (list LoopBeat) := if wv_shutting_down v then None else wv_beats v.

Lemma check_beats_spec now sr : forall ws bs k, length ws = length bs ->
  match check_beats k now sr ws bs with
  | (ws', None) => ws' = zip_with (note_progress now) ws bs
  | (_, Some j) => exists i w b, j = (k + i)%nat /\ ws !! i = Some w /\ bs !! i = Some b /\
      wedge_confirmed (lag_ms b) (outstanding b) (ms_since (progress_at (note_progress now w b)) now) sr = true
  end.
Proof.
  induction ws as [|w ws IH]; intros [|b bs] k Hl; try done. cbn [check_beats zip_with]. cbn in Hl.
  destruct (wedge_confirmed _ _ _ _) eqn:Ec; [exists 0%nat, w, b; split_and!; [lia|done..]|].
  specialize (IH bs (S k) ltac:(lia)). destruct (check_beats (S k) now sr ws bs) as [ws' [j|]].
  - destruct IH as (i & w' & b' & -> & Hw & Hb & Hc). exists (S i), w', b'. split_and!; [lia|done..].
  - by rewrite IH.
Qed.

Section watchdog.
Context (init : Z).

(** A watch knows when its loop last finished something, and the rejection count
    when it last rose. *)
Record watch_inv (vs : list wedge_view) (s : wedge) : Prop := {
  wi_watch : forall i w, watches s !! i = Some w ->
    (exists u bs, u ∈ vs /\ seen u = Some bs /\ wv_now u = progress_at w) /\
    forall u bs b, u ∈ vs -> seen u = Some bs -> bs !! i = Some b -> progress_at w < wv_now u -> completed b = w_completed w;
  wi_rejected : init <= rejected s /\ forall u bs, u ∈ vs -> seen u = Some bs -> wv_rejected u <= rejected s;
  wi_rejected_at : forall t, rejected_at s = Some t -> exists pre u post bs, vs = pre ++ u :: post /\ seen u = Some bs /\
    wv_now u = t /\ init < wv_rejected u /\ forall u' bs', u' ∈ pre -> seen u' = Some bs' -> wv_rejected u' < wv_rejected u;
}.

Lemma watch_inv_skip vs s v : seen v = None -> watch_inv vs s -> watch_inv (vs ++ [v]) s.
Proof.
  intros Hv [H1 [H2 H3] H4].
  assert (HS : forall u (bs : list LoopBeat), u ∈ vs ++ [v] -> seen u = Some bs -> u ∈ vs).
  { intros u bs [?|Hu]%elem_of_app Hb; [done|]. apply list_elem_of_singleton in Hu as ->. congruence. }
  split.
  - intros i w Hw. destruct (H1 i w Hw) as [(u & bs & Hu & Hb & Ht) HA]. split.
    + exists u, bs. split_and!; [apply elem_of_app; by left|done..].
    + intros u' bs' b Hu' Hb'. by eapply HA, Hb'; eapply HS.
  - split; [done|]. intros u bs Hu Hb. by eapply H3, Hb; eapply HS.
  - intros t Ht. destruct (H4 t Ht) as (pre & u & post & bs & -> & Hb & Hn & Hi & Hp).
    exists pre, u, (post ++ [v]), bs. split_and!; [by rewrite <- app_assoc|done..].
Qed.

(** The rejection half of a tick. *)
Definition note_rejection (s : wedge) (v : wedge_view) : Z * option Z :=
  if rejected s <? wv_rejected v then (wv_rejected v, Some (wv_now v)) else (rejected s, rejected_at s).

Lemma wedge_tick_seen s v bs : seen v = Some bs ->
  let r := note_rejection s v in
  let c := check_beats 0 (wv_now v) ((fun t => ms_since t (wv_now v)) <$> r.2) (resize_watches (length bs) (wv_now v) (watches s)) bs in
  wedge_tick s v = {| watches := c.1; rejected := r.1; rejected_at := r.2; loop_lag := foldr Z.max 0 (lag_ms <$> bs);
                      exited := (fun i => (i, WEDGE_EXIT_CODE)) <$> c.2 |}.
Proof.
  unfold seen, wedge_tick, note_rejection. destruct (wv_shutting_down v); [done|]. intros ->.
  destruct (rejected s <? wv_rejected v); cbn [fst snd]; by destruct (check_beats _ _ _ _ _).
Qed.

(** Each watch right after noting the beats of [v]. *)
Lemma noted_watch vs s v bs i w b :
  watch_inv vs s -> (forall u, u ∈ vs -> wv_now u <= wv_now v) -> seen v = Some bs ->
  resize_watches (length bs) (wv_now v) (watches s) !! i = Some w -> bs !! i = Some b ->
  let w' := note_progress (wv_now v) w b in
  (exists u bs', u ∈ vs ++ [v] /\ seen u = Some bs' /\ wv_now u = progress_at w') /\
  forall u bs' b', u ∈ vs ++ [v] -> seen u = Some bs' -> bs' !! i = Some b' -> progress_at w' < wv_now u -> completed b' = w_completed w'.
Proof.
  intros HI Hmono Hv Hw Hb w'.
  assert (Hnow : (exists u bs', u ∈ vs ++ [v] /\ seen u = Some bs' /\ wv_now u = wv_now v) /\
    forall u : wedge_view, u ∈ vs ++ [v] -> wv_now u <= wv_now v).
  { split; [exists v, bs; split_and!; [apply elem_of_app; right; by apply list_elem_of_singleton|done..]|].
    intros u [Hu|Hu]%elem_of_app; [by apply Hmono|]. apply list_elem_of_singleton in Hu as ->. lia. }
  destruct Hnow as [Hnow Hle]. subst w'. unfold note_progress.
  destruct (Z.eqb_spec (completed b) (w_completed w)) as [Eb|Nb]; cbn [progress_at w_completed].
  2: { split; [done|]. intros u bs' b' Hu _ _ Hlt. specialize (Hle u Hu). lia. }
  unfold resize_watches in Hw.
  assert (Hcase : watches s !! i = Some w \/ w = {| w_completed := 0; progress_at := wv_now v |}).
  { destruct (Nat.lt_ge_cases i (length bs)) as [Hi|Hi].
    - destruct (Nat.lt_ge_cases i (length (watches s))) as [Hs|Hs].
      + left. by rewrite lookup_resize in Hw by done.
      + right. rewrite lookup_resize_new in Hw by done. congruence.
    - rewrite lookup_resize_old in Hw by done. done. }
  destruct Hcase as [Hold| ->].
  2: { split; [done|]. cbn [progress_at]. intros u bs' b' Hu _ _ Hlt. specialize (Hle u Hu). lia. }
  destruct (wi_watch _ _ HI i w Hold) as [(u0 & bs0 & Hu0 & Hb0 & Ht0) HA]. split.
  - exists u0, bs0. split_and!; [apply elem_of_app; by left|done..].
  - intros u bs' b' [Hu|Hu]%elem_of_app Hs Hl Hlt; [by eapply HA|].
    apply list_elem_of_singleton in Hu as ->. rewrite Hv in Hs. injection Hs as <-. congruence.
Qed.

Lemma note_rejection_inv vs s v bs : watch_inv vs s -> seen v = Some bs ->
  let r := note_rejection s v in
  (init <= r.1 /\ forall u bs', u ∈ vs ++ [v] -> seen u = Some bs' -> wv_rejected u <= r.1) /\
  forall t, r.2 = Some t -> exists pre u post bs', vs ++ [v] = pre ++ u :: post /\ seen u = Some bs' /\
    wv_now u = t /\ init < wv_rejected u /\ forall u' bs'', u' ∈ pre -> seen u' = Some bs'' -> wv_rejected u' < wv_rejected u.
Proof.
  intros [_ [H2 H3] H4] Hv. unfold note_rejection. destruct (Z.ltb_spec (rejected s) (wv_rejected v)) as [Hlt|Hge]; cbn [fst snd].
  - split; [split; [lia|]|].
    + intros u bs' [Hu|Hu]%elem_of_app Hs; [specialize (H3 u bs' Hu Hs); lia|]. apply list_elem_of_singleton in Hu as ->. lia.
    + intros t [= <-]. exists vs, v, [], bs. split_and!; [done..|lia|].
      intros u' bs'' Hu Hs. specialize (H3 u' bs'' Hu Hs). lia.
  - split; [split; [lia|]|].
    + intros u bs' [Hu|Hu]%elem_of_app Hs; [by eapply H3|]. by apply list_elem_of_singleton in Hu as ->.
    + intros t Ht. destruct (H4 t Ht) as (pre & u & post & bs' & -> & Hr). exists pre, u, (post ++ [v]), bs'.
      split; [by rewrite <- app_assoc|exact Hr].
Qed.

Lemma watch_inv_tick vs s v : watch_inv vs s -> (forall u, u ∈ vs -> wv_now u <= wv_now v) ->
  exited (wedge_tick s v) = None -> seen v <> None -> watch_inv (vs ++ [v]) (wedge_tick s v).
Proof.
  intros HI Hmono Hx Hseen. destruct (seen v) as [bs|] eqn:Hv; [|done].
  rewrite (wedge_tick_seen s v bs Hv) in *. cbv zeta in *.
  set (r := note_rejection s v) in *. cbn [exited] in Hx.
  destruct (note_rejection_inv vs s v bs HI Hv) as [HR1 HR2].
  split; cbn [watches rejected rejected_at]; [|exact HR1|exact HR2].
  set (ws := resize_watches (length bs) (wv_now v) (watches s)) in *.
  assert (Hlen : length ws = length bs) by apply length_resize.
  pose proof (check_beats_spec (wv_now v) ((fun t => ms_since t (wv_now v)) <$> r.2) ws bs 0 Hlen) as HC.
  destruct (check_beats _ _ _ _ _) as [ws' [j|]]; [done|]. subst ws'. cbn [fst].
  intros i w Hw. apply lookup_zip_with_Some in Hw as (w0 & b & -> & Hw0 & Hb).
  by apply (noted_watch vs s v bs i w0 b).
Qed.

Definition in_order (vs : list wedge_view) : Prop := StronglySorted (fun u v => wv_now u <= wv_now v) vs.

Lemma in_order_snoc vs v : in_order (vs ++ [v]) -> in_order vs /\ forall u, u ∈ vs -> wv_now u <= wv_now v.
Proof.
  unfold in_order. induction vs as [|x vs IH]; intros H; [split; [constructor|by intros u ?%not_elem_of_nil]|].
  cbn in H. apply StronglySorted_inv in H as [H Hx]. destruct (IH H) as [HS HU]. rewrite Forall_app in Hx. destruct Hx as [Hx Hv].
  split; [by constructor|]. intros u [->|Hu]%elem_of_cons; [exact (Forall_inv Hv)|by apply HU].
Qed.

Lemma wedge_run_snoc vs v : forall s, exited (wedge_run s (vs ++ [v])) = None \/ exited (wedge_run s vs) = None ->
  exited (wedge_run s vs) = None /\ wedge_run s (vs ++ [v]) = wedge_tick (wedge_run s vs) v.
Proof.
  induction vs as [|x vs IH]; intros s H; cbn [wedge_run app] in *.
  - destruct (exited s) eqn:E; [|done]. destruct H as [H|H]; congruence.
  - destruct (exited s) eqn:E; [destruct H as [H|H]; congruence|]. by apply IH.
Qed.

Lemma watch_inv_run vs : in_order vs -> exited (wedge_run (wedge_start init) vs) = None ->
  watch_inv vs (wedge_run (wedge_start init) vs).
Proof.
  induction vs as [|v vs IH] using rev_ind; intros HO Hx.
  - split; cbn; [done|split; [lia|by intros u bs ?%not_elem_of_nil]|done].
  - apply in_order_snoc in HO as [HO HU]. destruct (wedge_run_snoc vs v _ (or_introl Hx)) as [Hx' E]. rewrite E in *.
    specialize (IH HO Hx'). destruct (seen v) as [bs|] eqn:Hv; [apply watch_inv_tick; [exact IH|exact HU|exact Hx|congruence]|].
    assert (wedge_tick (wedge_run (wedge_start init) vs) v = wedge_run (wedge_start init) vs) as ->.
    { unfold seen in Hv. unfold wedge_tick. destruct (wv_shutting_down v); [done|]. by rewrite Hv. }
    by apply watch_inv_skip.
Qed.
End watchdog.

(** C27. The watchdog restarts the worker only on evidence, never on a late
    heartbeat alone and never during a drain: when it exits for a loop, that
    loop's stamp is a whole window old and either the loop holds unfinished work,
    has been watched for the whole window and every tick of it reported the same
    completion count, or the rejection count rose, past everything seen before,
    at a tick of the last window. *)
Theorem wedge_exit_is_evidenced init vs v i code :
  in_order (vs ++ [v]) -> exited (wedge_run (wedge_start init) vs) = None ->
  exited (wedge_run (wedge_start init) (vs ++ [v])) = Some (i, code) ->
  code = WEDGE_EXIT_CODE /\ exists bs b, seen v = Some bs /\ bs !! i = Some b /\ WEDGE_WINDOW_MS <= lag_ms b /\
    ((0 < outstanding b /\
      (exists u bs', u ∈ vs /\ seen u = Some bs' /\ wv_now u <= wv_now v - WEDGE_WINDOW_MS) /\
      forall u bs' b', u ∈ vs -> seen u = Some bs' -> bs' !! i = Some b' ->
        wv_now v - WEDGE_WINDOW_MS < wv_now u -> completed b' = completed b) \/
     (exists pre u post bs', vs ++ [v] = pre ++ u :: post /\ seen u = Some bs' /\ wv_now v - wv_now u <= WEDGE_WINDOW_MS /\
        init < wv_rejected u /\ forall u' bs'', u' ∈ pre -> seen u' = Some bs'' -> wv_rejected u' < wv_rejected u)).
Proof.
  intros HO Hx Hex. apply in_order_snoc in HO as [HO HU]. pose proof (watch_inv_run init vs HO Hx) as HI.
  destruct (wedge_run_snoc vs v _ (or_intror Hx)) as [_ E]. rewrite E in Hex. set (s := wedge_run (wedge_start init) vs) in *.
  destruct (seen v) as [bs|] eqn:Hv.
  2: { assert (wedge_tick s v = s) as Es.
       { unfold seen in Hv. unfold wedge_tick. destruct (wv_shutting_down v); [done|]. by rewrite Hv. }
       rewrite Es in Hex. congruence. }
  rewrite (wedge_tick_seen s v bs Hv) in Hex. cbv zeta in Hex. cbn [exited] in Hex.
  destruct (note_rejection_inv init vs s v bs HI Hv) as [_ HR]. set (r := note_rejection s v) in *.
  set (ws := resize_watches (length bs) (wv_now v) (watches s)) in *.
  assert (Hlen : length ws = length bs) by apply length_resize.
  pose proof (check_beats_spec (wv_now v) ((fun t => ms_since t (wv_now v)) <$> r.2) ws bs 0 Hlen) as HC.
  destruct (check_beats _ _ _ _ _) as [ws' [j|]]; [|done]. cbn in Hex. injection Hex as <- <-. split; [done|].
  destruct HC as (k & w & b & -> & Hw & Hb & Hconf). exists bs, b. cbn [Nat.add].
  unfold wedge_confirmed in Hconf. apply andb_true_iff in Hconf as [Hlag%Z.leb_le Hconf]. split_and!; [done..|].
  apply orb_true_iff in Hconf as [[Ho%Z.ltb_lt Hs%Z.leb_le]%andb_true_iff|Hrej].
  - left. split; [done|]. destruct (noted_watch init vs s v bs k w b HI HU Hv Hw Hb) as [(u & bs' & Hu & Hsu & Hnu) HA].
    set (w' := note_progress (wv_now v) w b) in *. unfold ms_since, sat_sub, WEDGE_WINDOW_MS, HEARTBEAT_INTERVAL_MS in *.
    assert (Hlt : progress_at w' <= wv_now v - 3 * 5000) by lia. split.
    + exists u, bs'. split_and!; [|done|lia]. apply elem_of_app in Hu as [Hu|Hu]; [done|].
      apply list_elem_of_singleton in Hu as ->. lia.
    + assert (Ew : completed b = w_completed w').
      { apply (HA v bs b); [apply elem_of_app; right; by apply list_elem_of_singleton|done..|lia]. }
      intros u' bs'' b' Hu' Hs' Hb' Hn'. rewrite Ew. apply (HA u' bs'' b'); [apply elem_of_app; by left|done..|lia].
  - right. destruct r.2 as [t|]; [|done]. apply Z.leb_le in Hrej.
    destruct (HR t eq_refl) as (pre & u & post & bs' & Hpre & Hsu & <- & Hi & Hp). exists pre, u, post, bs'.
    split_and!; [done..| |done|done]. unfold ms_since, sat_sub in Hrej. lia.
Qed.

(** Four ticks of a loop stuck with two tasks. *)
Definition stuck (now : Z) : wedge_view :=
  {| wv_shutting_down := false; wv_now := now; wv_beats := Some [{| lag_ms := now; outstanding := 2; completed := 7 |}]; wv_rejected := 0 |}.

Lemma wedge_exit_is_evidenced_witness :
  exited (wedge_run (wedge_start 0) [stuck 5000; stuck 10000; stuck 15000; stuck 20000]) = Some (0%nat, 87) /\
  exists bs b, seen (stuck 20000) = Some bs /\ bs !! 0%nat = Some b /\ 15000 <= lag_ms b.
Proof.
  split; [reflexivity|].
  destruct (wedge_exit_is_evidenced 0 [stuck 5000; stuck 10000; stuck 15000] (stuck 20000) 0 87)
    as (_ & bs & b & H1 & H2 & H3 & _); [repeat constructor; cbn; lia|reflexivity|reflexivity|].
  exists bs, b. split; [exact H1|]. split; [exact H2|]. exact H3.
Defined.
