(* ===== verification/Server.v ===== *)
(** Consumer groups as recovery and the whole process rely on them: the
    documented replies of the pending list commands, and [MiniRedis], a concrete
    server with streams, groups and delayed sets that satisfies every law of this
    library, so that no hypothesis is vacuous. *)
From S2P Require Import Prelude Float64 Envelope Stats Ctx Redis Broker Loops.
Open Scope Z_scope.

(** ** Pending lists *)

(** A pending entry: its id, consumer, idle time and deliveries. *)
Record pending := { pd_id : Z * Z; pd_consumer : string; pd_idle : Z; pd_deliveries : Z }.

Definition u64_id (x : Z * Z) : Prop := is_u64 x.1 /\ is_u64 x.2.

Definition id_text (x : Z * Z) : string := stream_id x.1 x.2.

Definition row_of (r : pending) : pending_row := (id_text (pd_id r), pd_consumer r, pd_idle r, pd_deliveries r).

Definition id_ltb (a b : Z * Z) : bool := (a.1 <? b.1) || ((a.1 =? b.1) && (a.2 <? b.2)).

(** Whether a range that starts at [start] holds [x]: everything from ["-"], what
    is above [x0] from ["(x0"]. *)
Definition past (start : string) (x : Z * Z) : bool :=
  String.eqb start "-" ||
  match strip_str "(" start with
  | Some rest => match parse_stream_id rest with Some x0 => id_ltb x0 x | None => false end
  | None => false
  end.

Class PelViews (R : Redis) := {
  pending_of : rstate -> string -> list pending;
  fields_of : rstate -> string -> Z * Z -> option (gmap string string);
}.

Definition same_entry {R : Redis} {P : PelViews R} (s s' : rstate) (k : string) (x : Z * Z) : Prop :=
  (forall r, pd_id r = x -> r ∈ pending_of s k -> r ∈ pending_of s' k) /\ fields_of s' k x = fields_of s k x.

Class PelLaws (R : Redis) (P : PelViews R) : Prop := {
  (** Kept in id order. *)
  pending_sorted s k : StronglySorted id_lt (pd_id <$> pending_of s k);
  pending_ids s k r : r ∈ pending_of s k -> u64_id (pd_id r);
  xpending_idle_law k idle start n s r s' : is_u64 idle -> is_u64 n ->
    exec ["XPENDING"; k; "cauli"; "IDLE"; dec idle; start; "+"; dec n]%string s = (r, s') -> accepted r ->
    s' = s /\ decode_pending r =
      Some (row_of <$> take (Z.to_nat n) (List.filter (fun r => (idle <=? pd_idle r) && past start (pd_id r)) (pending_of s k)));
  xrange_law k x s r s' : u64_id x ->
    exec ["XRANGE"; k; id_text x; id_text x]%string s = (r, s') -> accepted r ->
    s' = s /\ decode_entries r = Some match fields_of s k x with Some m => [(id_text x, m)] | None => [] end;
  (** A claim of a pending entry that is idle enough and still in the stream
      returns it; it disturbs no other entry and adds none. *)
  xclaim_law k consumer idle x s r s' : u64_id x -> is_u64 idle ->
    exec ["XCLAIM"; k; "cauli"; consumer; dec idle; id_text x]%string s = (r, s') -> accepted r ->
    (exists l, decode_entries r = Some l /\
      forall m row, fields_of s k x = Some m -> row ∈ pending_of s k -> pd_id row = x -> idle <= pd_idle row -> l = [(id_text x, m)]) /\
    (forall k' y, (k', y) <> (k, x) -> same_entry s s' k' y) /\
    (forall k', (pd_id <$> pending_of s' k') ⊆ (pd_id <$> pending_of s k'));
}.

(** What a recovery page asks. *)
Inductive asks : cmd -> Prop :=
| ask_pending k idle start n : is_u64 idle -> is_u64 n -> asks ["XPENDING"; k; "cauli"; "IDLE"; dec idle; start; "+"; dec n]%string
| ask_range k x : u64_id x -> asks ["XRANGE"; k; id_text x; id_text x]%string
| ask_claim k consumer idle x : u64_id x -> is_u64 idle -> asks ["XCLAIM"; k; "cauli"; consumer; dec idle; id_text x]%string.

(** A server that refuses none of it. *)
Definition answers_recovery (R : Redis) : Prop := forall c s, asks c -> accepted (exec c s).1.

(** ** Lists in id order *)

Lemma id_ltb_lt a b : id_ltb a b = true <-> id_lt a b.
Proof. unfold id_ltb, id_lt. rewrite orb_true_iff, andb_true_iff, !Z.ltb_lt, Z.eqb_eq. done. Qed.

Lemma id_lt_trans a b c : id_lt a b -> id_lt b c -> id_lt a c.
Proof. unfold id_lt. lia. Qed.

Lemma sorted_filter {A B} (R : B -> B -> Prop) (f : A -> B) (g : A -> bool) l :
  StronglySorted R (f <$> l) -> StronglySorted R (f <$> List.filter g l).
Proof.
  induction l as [|x l IH]; intros HS; [done|]. apply StronglySorted_inv in HS as [HS HF]. cbn.
  destruct (g x); [|by apply IH]. constructor; [by apply IH|]. apply Forall_forall. rewrite Forall_forall in HF.
  intros y (z & -> & [Hz _]%list_elem_of_In%List.filter_In)%list_elem_of_fmap. apply HF, list_elem_of_fmap_2. by apply list_elem_of_In.
Qed.

Lemma sorted_nodup l : StronglySorted id_lt l -> NoDup l.
Proof.
  induction 1 as [|x l _ IH HF]; constructor; [|done]. intros Hx. rewrite Forall_forall in HF.
  specialize (HF x Hx). unfold id_lt in HF. lia.
Qed.

Lemma filter_elem {A} (g : A -> bool) l x : x ∈ List.filter g l <-> x ∈ l /\ g x = true.
Proof. rewrite !list_elem_of_In. apply List.filter_In. Qed.

Lemma id_text_inj x y : u64_id x -> u64_id y -> id_text x = id_text y -> x = y.
Proof.
  intros [H1 H2] [H3 H4] E. pose proof (parse_stream_id_dec x.1 x.2 H1 H2) as Ex.
  pose proof (parse_stream_id_dec y.1 y.2 H3 H4) as Ey. unfold id_text in E. rewrite E in Ex. destruct x, y. cbn in *. congruence.
Qed.

#[export] Instance id_lt_dec a b : Decision (id_lt a b).
Proof. unfold id_lt. apply _. Defined.

#[export] Instance ascending_dec (l : list (Z * Z)) : Decision (StronglySorted id_lt l).
Proof.
  induction l as [|x l IH]; [left; constructor|].
  destruct (decide (Forall (id_lt x) l)) as [HF|HF]; [|right; intros [_ H]%StronglySorted_inv; by apply HF].
  destruct IH as [HS|HS]; [left; by constructor|right; intros [H _]%StronglySorted_inv; by apply HS].
Defined.

Lemma ascending_snoc l x : StronglySorted id_lt l -> Forall (fun y => id_lt y x) l -> StronglySorted id_lt (l ++ [x]).
Proof.
  intros HS HF. apply StronglySorted_app_2; [|done|constructor; constructor].
  intros y z Hy ->%list_elem_of_singleton. rewrite Forall_forall in HF. by apply HF.
Qed.

(** ** A concrete server *)

Module MiniRedis.

(** A stream and its group: entries, last delivered and last generated id, the
    pending list, and every text ever appended. *)
Record strm := { log : list ((Z * Z) * string); given : Z * Z; top : Z * Z; pels : list pending; said : list string }.

Definition nothing : strm := {| log := []; given := (0, 0); top := (0, 0); pels := []; said := [] |}.

Record good (t : strm) : Prop := {
  g_log : StronglySorted id_lt (log t).*1;
  g_pels : StronglySorted id_lt (pd_id <$> pels t);
  g_below : Forall (fun x => u64_id x /\ id_le x (top t)) (log t).*1;
  g_given : Forall (fun x => u64_id x /\ id_le x (given t)) (pd_id <$> pels t);
  g_last : id_le (given t) (top t) /\ u64_id (given t) /\ u64_id (top t);
}.

#[export] Instance u64_id_dec x : Decision (u64_id x).
Proof. unfold u64_id, is_u64. apply _. Defined.

#[export] Instance good_dec t : Decision (good t).
Proof.
  refine (cast_if_and5 (decide (StronglySorted id_lt (log t).*1)) (decide (StronglySorted id_lt (pd_id <$> pels t)))
    (decide (Forall (fun x => u64_id x /\ id_le x (top t)) (log t).*1))
    (decide (Forall (fun x => u64_id x /\ id_le x (given t)) (pd_id <$> pels t)))
    (decide (id_le (given t) (top t) /\ u64_id (given t) /\ u64_id (top t)))); [by split|by intros []..].
Defined.

(** Delayed sets, streams, and the consumers that joined a group, with the time
    they are idle. *)
Record st := { zs : gmap string (gset string); streams : gmap string strm; joined : gmap string (list (string * Z)) }.

Definition zget (s : st) (k : string) : gset string := default ∅ (zs s !! k).
Definition zput (s : st) (k : string) (z : gset string) : st := {| zs := <[k := z]> (zs s); streams := streams s; joined := joined s |}.

(** A stream is what its record says, when that is one Redis could hold. *)
Definition stream_at (s : st) (k : string) : strm :=
  match streams s !! k with Some t => if decide (good t) then t else nothing | None => nothing end.
Definition put (s : st) (k : string) (t : strm) : st := {| zs := zs s; streams := <[k := t]> (streams s); joined := joined s |}.

Lemma good_nothing : good nothing.
Proof. split; cbn; [constructor..|]. split_and!; [auto with redis|split; cbn; mlia|split; cbn; mlia]. Qed.

Lemma good_at s k : good (stream_at s k).
Proof. unfold stream_at. destruct (streams s !! k); [|apply good_nothing]. case_decide; [done|apply good_nothing]. Qed.

Lemma at_put s k t : good t -> stream_at (put s k t) k = t.
Proof. intros Hg. unfold stream_at, put. cbn. rewrite lookup_insert_eq. by rewrite decide_True. Qed.

Lemma at_put_ne s k k' t : k' <> k -> stream_at (put s k t) k' = stream_at s k'.
Proof. intros Hk. unfold stream_at, put. cbn. by rewrite lookup_insert_ne. Qed.

Definition with_log (t : strm) (f : (Z * Z) * string -> bool) : strm :=
  {| log := List.filter f (log t); given := given t; top := top t; pels := pels t; said := said t |}.
Definition with_pels (t : strm) (l : list pending) : strm :=
  {| log := log t; given := given t; top := top t; pels := l; said := said t |}.

Lemma good_with_log t f : good t -> good (with_log t f).
Proof.
  intros [H1 H2 H3 H4 H5]. split; cbn; [by apply sorted_filter|done| |done..].
  rewrite !Forall_fmap in *. rewrite Forall_forall in *. intros x [Hx _]%filter_elem. by apply H3.
Qed.

Lemma good_with_pels t f : good t -> good (with_pels t (List.filter f (pels t))).
Proof.
  intros [H1 H2 H3 H4 H5]. split; cbn; [done|by apply sorted_filter|done| |done..].
  rewrite !Forall_fmap in *. rewrite Forall_forall in *. intros x [Hx _]%filter_elem. by apply H4.
Qed.

Lemma good_same_ids t l : good t -> pd_id <$> l = pd_id <$> pels t -> good (with_pels t l).
Proof. intros [H1 H2 H3 H4 H5] E. split; cbn; rewrite ?E; done. Qed.

(** XADD: the next id, unless the last one is the largest there is. *)
Definition append (e : string) (t : strm) : option strm :=
  let id := ((top t).1, (top t).2 + 1) in
  if (top t).2 <? u64_max
  then Some {| log := log t ++ [(id, e)]; given := given t; top := id; pels := pels t; said := said t ++ [e] |}
  else None.

Lemma good_append e t t' : good t -> append e t = Some t' -> good t'.
Proof.
  intros [H1 H2 H3 H4 [H5 [H6 H7]]]. unfold append. destruct (Z.ltb_spec (top t).2 u64_max) as [Hlt|]; [|done]. intros [= <-].
  set (id := ((top t).1, (top t).2 + 1)).
  assert (HU : u64_id id) by (destruct H7; split; cbn; mlia).
  assert (HL : id_lt (top t) id) by (unfold id_lt; cbn; lia).
  split; cbn; [|done| |done|split_and!; [unfold id_le, id_lt, id in *; cbn in *; lia|done..]].
  - rewrite fmap_app. apply ascending_snoc; [done|]. eapply Forall_impl; [exact H3|]. intros x [_ Hx]. unfold id_lt, id_le, id in *. cbn in *. lia.
  - rewrite fmap_app. apply Forall_app. split; [|repeat constructor; [apply HU..|unfold id_le; cbn; lia]].
    eapply Forall_impl; [exact H3|]. intros x [Hu Hx]. split; [done|]. unfold id_lt, id_le, id in *. cbn in *. lia.
Qed.

(** XREADGROUP: the oldest undelivered entries go to the pending list. *)
Definition new_row (c : string) (x : Z * Z) : pending := {| pd_id := x; pd_consumer := c; pd_idle := 0; pd_deliveries := 1 |}.
Definition next_ids (n : nat) (t : strm) : list (Z * Z) := (take n (List.filter (fun p => id_ltb (given t) p.1) (log t))).*1.
Definition deliver (c : string) (n : nat) (t : strm) : strm :=
  {| log := log t; given := default (given t) (list.last (next_ids n t)); top := top t;
     pels := pels t ++ (new_row c <$> next_ids n t); said := said t |}.

Lemma next_ids_sorted n t : good t -> StronglySorted id_lt (next_ids n t).
Proof.
  intros Hg. unfold next_ids. rewrite fmap_take. eapply StronglySorted_app_1_l. rewrite take_drop. apply sorted_filter, Hg.
Qed.

Lemma next_ids_elem n t x : x ∈ next_ids n t -> id_lt (given t) x /\ x ∈ (log t).*1.
Proof.
  intros (p & -> & [Hp Hlt%id_ltb_lt]%subseteq_take%filter_elem)%list_elem_of_fmap. split; [done|]. by apply list_elem_of_fmap_2.
Qed.

(** The new last delivered id bounds what was delivered. *)
Lemma deliver_given n t x : good t -> x ∈ next_ids n t -> id_le x (default (given t) (list.last (next_ids n t))).
Proof.
  intros Hg Hx. pose proof (next_ids_sorted n t Hg) as HS. destruct (next_ids n t) as [|z l _] using rev_ind; [by apply not_elem_of_nil in Hx|].
  rewrite last_snoc. cbn. apply elem_of_app in Hx as [Hx|Hx].
  - apply id_lt_le. eapply StronglySorted_app_1_elem_of; [exact HS|done|by left].
  - apply list_elem_of_singleton in Hx as ->. apply id_le_refl.
Qed.

Lemma deliver_given_in n t : list.last (next_ids n t) = None \/ exists z, list.last (next_ids n t) = Some z /\ z ∈ next_ids n t.
Proof. destruct (list.last (next_ids n t)) as [z|] eqn:E; [right|by left]. exists z. split; [done|]. by apply last_Some_elem_of. Qed.

Lemma good_deliver c n t : good t -> good (deliver c n t).
Proof.
  intros Hg. assert (HE : pd_id <$> pels (deliver c n t) = (pd_id <$> pels t) ++ next_ids n t).
  { cbn. rewrite fmap_app, <- list_fmap_compose. by rewrite (list_fmap_id (next_ids n t) : (pd_id ∘ new_row c) <$> _ = _). }
  pose proof (deliver_given n t) as HL. pose proof Hg as [H1 H2 H3 H4 [H5 [H6 H7]]].
  rewrite Forall_forall in H3, H4.
  assert (HN : forall x, x ∈ next_ids n t -> u64_id x /\ id_le x (top t)) by (intros x [_ Hx]%next_ids_elem; by apply H3).
  assert (Hle : id_le (given t) (default (given t) (list.last (next_ids n t)))).
  { destruct (deliver_given_in n t) as [->|(z & -> & Hz)]; cbn; [auto with redis|]. by apply id_lt_le, (next_ids_elem n). }
  split; [done| |by apply Forall_forall| |]; rewrite ?HE.
  - apply StronglySorted_app_2; [|done|by apply next_ids_sorted]. intros x y Hx [Hy _]%next_ids_elem.
    destruct (H4 x Hx) as [_ Hx']. unfold id_lt, id_le in *. lia.
  - apply Forall_app. split; apply Forall_forall; intros x Hx.
    + destruct (H4 x Hx). split; [done|]. cbn. eauto with redis.
    + split; [by apply HN|]. cbn. by apply HL.
  - cbn. destruct (deliver_given_in n t) as [->|(z & -> & Hz)]; cbn; [done|]. by destruct (HN z Hz).
Qed.

(** XCLAIM: a pending entry that left the stream leaves the list too. *)
Definition has_id (id : string) (r : pending) : bool := String.eqb (id_text (pd_id r)) id.
Definition touch (c id : string) (r : pending) : pending :=
  if has_id id r then {| pd_id := pd_id r; pd_consumer := c; pd_idle := 0; pd_deliveries := pd_deliveries r + 1 |} else r.
Definition text_at (t : strm) (id : string) : option string :=
  snd <$> head (List.filter (fun p => String.eqb (id_text p.1) id) (log t)).
Definition claim (c : string) (idle : Z) (id : string) (t : strm) : option string * strm :=
  match List.find (has_id id) (pels t) with
  | None => (None, t)
  | Some r =>
      match text_at t id with
      | None => (None, with_pels t (List.filter (fun r => negb (has_id id r)) (pels t)))
      | Some e => if idle <=? pd_idle r then (Some e, with_pels t (touch c id <$> pels t)) else (None, t)
      end
  end.

Lemma touch_ids c id (l : list pending) : pd_id <$> (touch c id <$> l) = pd_id <$> l.
Proof. induction l as [|r l IH]; [done|]. cbn. rewrite IH. unfold touch. by destruct (has_id id r). Qed.

Lemma good_claim c idle id t : good t -> good (claim c idle id t).2.
Proof.
  intros Hg. unfold claim. destruct (List.find _ _) as [r|]; [|done]. destruct (text_at t id); [|by apply good_with_pels].
  destruct (_ <=? _); [|done]. apply good_same_ids; [done|apply touch_ids].
Qed.

Definition refused : rerr := {| code_ := Some "ERR"%string; text_ := "ERR" |}.
Definition num (x : string) : option Z := parse_u64 (bytes_of x).

Definition row_reply (r : pending) : reply :=
  RArr [RBulk (id_text (pd_id r)); RBulk (pd_consumer r); RInt (pd_idle r); RInt (pd_deliveries r)].
Definition entry_reply (id e : string) : reply := RArr [RBulk id; RBulk e].

Definition mem (l : list string) (x : string) : bool := existsb (String.eqb x) l.

(** Deliveries of several streams, as one array per stream. *)
Fixpoint read_group (c : string) (n : nat) (ks : list string) (s : st) : list reply * st :=
  match ks with
  | [] => ([], s)
  | k :: ks =>
      let t := stream_at s k in
      let '(rs, s') := read_group c n ks (put s k (deliver c n t)) in
      (RArr (RBulk k :: ((fun x => entry_reply (id_text x) (default "" (text_at t (id_text x)))) <$> next_ids n t)) :: rs, s')
  end.

(** A group's consumers: who joined, or holds an entry. *)
Definition own (c : string) (r : pending) : bool := String.eqb (pd_consumer r) c.
Definition joined_at (s : st) (k : string) : list (string * Z) := default [] (joined s !! k).
Definition consumers_in (s : st) (k : string) : list (string * Z * Z) :=
  (fun c => (c, Z.of_nat (length (List.filter (own c) (pels (stream_at s k)))), default 0 (assoc c (joined_at s k)))) <$>
  remove_dups ((joined_at s k).*1 ++ (pd_consumer <$> pels (stream_at s k))).

Definition exec (c : cmd) (s : st) : reply * st :=
  let bad := (RErr refused, s) in
  match c with
  | [] => bad
  | op :: args =>
      if String.eqb op "ZADD" then match args with [k; _; e] => (RInt 1, zput s k (zget s k ∪ {[e]})) | _ => bad end
      else if String.eqb op "ZREM" then match args with [k; e] => (RInt 1, zput s k (zget s k ∖ {[e]})) | _ => bad end
      else if String.eqb op "ZRANGEBYSCORE" then
        match args with k :: _ => (RArr (RBulk <$> elements (zget s k)), s) | _ => bad end
      else if String.eqb op "XADD" then
        match args with
        | [k; _; _; e] => match append e (stream_at s k) with Some t => (RBulk (id_text (top t)), put s k t) | None => bad end
        | _ => (RBulk "0-1", s) (* a capped dead letter stream, which no view reads *)
        end
      else if String.eqb op "XACK" then
        match args with
        | k :: _ :: ids => (RInt 1, put s k (with_pels (stream_at s k)
            (List.filter (fun r => negb (mem ids (id_text (pd_id r)))) (pels (stream_at s k)))))
        | _ => bad
        end
      else if String.eqb op "XDEL" then
        match args with
        | k :: ids => (RInt 1, put s k (with_log (stream_at s k) (fun p => negb (mem ids (id_text p.1)))))
        | _ => bad
        end
      else if String.eqb op "XTRIM" then
        match args with
        | [k; _; b] => match parse_stream_id b with
            | Some pb => (RInt 0, put s k (with_log (stream_at s k) (fun p => negb (id_ltb p.1 pb))))
            | None => bad
            end
        | _ => bad
        end
      else if String.eqb op "XREADGROUP" then
        match args with
        | _ :: c :: n :: ks => let '(rs, s') := read_group c (Z.to_nat (default 0 (num n))) ks s in (RArr rs, s')
        | _ => bad
        end
      else if String.eqb op "XPENDING" then
        match args with
        | [k; _; _; _; _] => (RArr (row_reply <$> take 1 (pels (stream_at s k))), s)
        | [k; _; _; idle; start; _; n] => match num idle, num n with
            | Some idle, Some n => (RArr (row_reply <$> take (Z.to_nat n)
                (List.filter (fun r => (idle <=? pd_idle r) && past start (pd_id r)) (pels (stream_at s k)))), s)
            | _, _ => bad
            end
        | _ => bad
        end
      else if String.eqb op "XRANGE" then
        match args with
        | [k; a; _] => (RArr match text_at (stream_at s k) a with Some e => [entry_reply a e] | None => [] end, s)
        | _ => bad
        end
      else if String.eqb op "XCLAIM" then
        match args with
        | [k; _; c; idle; id] => match num idle with
            | Some idle => let '(o, t) := claim c idle id (stream_at s k) in
                (RArr match o with Some e => [entry_reply id e] | None => [] end, put s k t)
            | None => bad
            end
        | _ => bad
        end
      else if String.eqb op "XINFO" then
        match args with
        | [_; k] => (RBulk (id_text (given (stream_at s k))), s)
        | [_; k; _] => (RArr ((fun c => RArr [RBulk c.1.1; RInt c.1.2; RInt c.2]) <$> consumers_in s k), s)
        | _ => bad
        end
      else if String.eqb op "XGROUP" then
        match args with
        | [_; k; _; c] =>
            (RInt (Z.of_nat (length (List.filter (own c) (pels (stream_at s k))))),
             put s k (with_pels (stream_at s k) (List.filter (fun r => negb (own c r)) (pels (stream_at s k)))))
        | _ => (ROk, s)
        end
      else if String.eqb op "SET" then (ROk, s)
      else if String.eqb op "EXPIRE" then (RInt 1, s)
      else bad
  end.

Definition decode_row (r : reply) : option pending_row :=
  match r with RArr [RBulk id; RBulk c; RInt idle; RInt d] => Some (id, c, idle, d) | _ => None end.
Definition decode_entry (r : reply) : option (string * gmap string string) :=
  match r with RArr [RBulk id; RBulk e] => Some (id, {["e"%string := e]}) | _ => None end.

#[export] Instance mini : Redis := {
  rstate := st;
  Redis.exec := exec;
  decode_groups r := match r with RBulk lid => Some [("cauli"%string, lid)] | _ => None end;
  decode_pending r := match r with RArr l => decode_all decode_row l | _ => None end;
  decode_entries r := match r with RArr l => decode_all decode_entry l | _ => None end;
}.

#[export] Instance mini_sets : SetViews mini := { zset := zget; entries s k := said (stream_at s k) }.
#[export] Instance mini_groups : GroupViews mini := {
  last_delivered s k := given (stream_at s k);
  pel s k := list_to_set (pd_id <$> pels (stream_at s k));
}.
#[export] Instance mini_streams : StreamViews mini := fun s k x => x ∈ (log (stream_at s k)).*1.
#[export] Instance mini_pels : PelViews mini := {
  pending_of s k := pels (stream_at s k);
  fields_of s k x := (fun e => {["e"%string := e]}) <$> text_at (stream_at s k) (id_text x);
}.

#[export] Instance mini_noop : ErrNoop mini.
Proof. intros c s e s' _. cbn. unfold exec. intros. repeat case_match; simplify_eq; done. Qed.

(** ** Its laws *)

Lemma zget_put s k z k' : zget (zput s k z) k' = if decide (k' = k) then z else zget s k'.
Proof. unfold zget, zput. cbn. case_decide; [subst; by rewrite lookup_insert_eq|by rewrite lookup_insert_ne]. Qed.

Lemma said_put s k t k' : good t -> said t = said (stream_at s k) -> said (stream_at (put s k t) k') = said (stream_at s k').
Proof. intros Hg E. destruct (decide (k' = k)) as [->|Hk]; [by rewrite at_put|by rewrite at_put_ne]. Qed.

Lemma append_said e t t' : append e t = Some t' -> said t' = said t ++ [e].
Proof. unfold append. destruct (_ <? _); [|done]. by intros [= <-]. Qed.

Lemma claim_said c idle id t : said (claim c idle id t).2 = said t.
Proof. unfold claim. destruct (List.find _ _); [|done]. destruct (text_at _ _); [|done]. by destruct (_ <=? _). Qed.

#[export] Instance mini_set_laws : SetLaws mini mini_sets.
Proof.
  split; cbn -[zget]; intros.
  - simplify_eq. split; [done|]. eexists. split; [done|]. split; [apply NoDup_elements|]. set_solver.
  - destruct (append e (stream_at s k)) as [t|] eqn:E; simplify_eq; [|done].
    rewrite at_put by (by eapply good_append; [apply good_at|]). split; [by apply append_said|done].
  - simplify_eq. split; [rewrite zget_put; by rewrite decide_True|done].
Qed.

(** A command changes the stream or the set of the key it names, nothing else. *)
Lemma elsewhere_same k s s' : (s' = s \/ (exists z, s' = zput s k z) \/ exists t, s' = put s k t) ->
  forall k', k' <> k -> zget s' k' = zget s k' /\ stream_at s' k' = stream_at s k'.
Proof.
  intros [->|[[z ->]|[t ->]]] k' Hk; [done|..].
  - rewrite zget_put. by rewrite decide_False.
  - by rewrite at_put_ne.
Qed.

Lemma one_key_effect op k args s : op ∈ ["SET"; "ZADD"; "XADD"; "EXPIRE"; "XACK"; "XDEL"; "XTRIM"; "ZREM"; "ZRANGEBYSCORE"]%string ->
  let s' := (exec (op :: k :: args) s).2 in s' = s \/ (exists z, s' = zput s k z) \/ exists t, s' = put s k t.
Proof.
  intros Ho. repeat (apply elem_of_cons in Ho as [->|Ho]); [..|by apply not_elem_of_nil in Ho]; cbn; repeat case_match; cbn; eauto.
Qed.

#[export] Instance mini_key_laws : KeyLaws mini mini_sets.
Proof.
  split; cbn -[exec zget].
  - intros op k args s r s' Hop E k' Hk. pose proof (one_key_effect op k args s ltac:(set_solver)) as HE. rewrite E in HE.
    destruct (elsewhere_same k s s' HE k' Hk) as [-> ->]. done.
  - intros k score e s r s' E _. cbn -[zget] in E. simplify_eq. rewrite zget_put. by rewrite decide_True.
  - intros op k args s r s' Hop E. repeat (apply elem_of_cons in Hop as [->|Hop]); [..|by apply not_elem_of_nil in Hop]; cbn in E.
    + destruct args as [|g ids]; simplify_eq; [done|]. rewrite said_put; [done|apply good_with_pels, good_at|done].
    + simplify_eq. rewrite said_put; [done|apply good_with_log, good_at|done].
Qed.

Lemma decode_rows l : decode_all decode_row (row_reply <$> l) = Some (row_of <$> l).
Proof. induction l as [|r l IH]; [done|]. cbn -[decode_row row_reply]. rewrite IH. by destruct r. Qed.

#[export] Instance mini_group_laws : GroupLaws mini mini_groups.
Proof.
  split; cbn -[stream_at].
  - intros k s r s' gs i lid E D Hf. simplify_eq. destruct (g_last _ (good_at s' k)) as (_ & [H1 H2] & _).
    apply list_find_Some in Hf as (Hl & _ & _). destruct i; cbn in Hl; simplify_eq. done.
  - intros k s r s' l E D. simplify_eq. pose proof (good_at s' k) as Hg. pose proof (g_pels _ Hg) as HS. pose proof (g_given _ Hg) as HU.
    destruct (pels (stream_at s' k)) as [|p l0]; cbn in D; rewrite ?take_0 in D; cbn in D; simplify_eq; [done|].
    split; [done|]. exists (pd_id p). change (pd_id <$> p :: l0) with (pd_id p :: (pd_id <$> l0)) in *. apply Forall_cons in HU as [[[U1 U2] _] _].
    apply StronglySorted_inv in HS as [_ HS]. rewrite Forall_forall in HS. split_and!; [done|done|done|set_solver|].
    intros x. cbn. rewrite elem_of_union, elem_of_singleton, elem_of_list_to_set. intros [->|Hx]; [auto with redis|]. by apply id_lt_le, HS.
  - intros s k x Hx. apply elem_of_list_to_set in Hx. pose proof (g_given _ (good_at s k)) as HU. rewrite Forall_forall in HU. by apply HU.
Qed.

(** Owed within one stream. *)
Definition owed_in (t : strm) (x : Z * Z) : Prop := x ∈ (log t).*1 /\ (x ∈ pd_id <$> pels t \/ id_lt (given t) x).

Lemma owed_at s k x : owed s k x <-> owed_in (stream_at s k) x.
Proof. unfold owed, owed_in, unsettled, in_stream, mini_streams. cbn -[stream_at]. by rewrite elem_of_list_to_set. Qed.

Lemma owed_put s k t k' x : good t -> (owed_in (stream_at s k) x -> owed_in t x) ->
  owed_in (stream_at s k') x -> owed_in (stream_at (put s k t) k') x.
Proof. intros Hg H. destruct (decide (k' = k)) as [->|Hk]; [by rewrite at_put|by rewrite at_put_ne]. Qed.

Lemma owed_append e t t' x : append e t = Some t' -> owed_in t x -> owed_in t' x.
Proof.
  unfold append. destruct (_ <? _); [|done]. intros [= <-] [H1 H2]. split; [|exact H2]. cbn. rewrite fmap_app. apply elem_of_app. by left.
Qed.

Lemma owed_deliver c n t x : good t -> owed_in t x -> owed_in (deliver c n t) x.
Proof.
  intros Hg [H1 H2]. split; [done|]. cbn. rewrite fmap_app, <- list_fmap_compose.
  rewrite (list_fmap_id (next_ids n t) : (pd_id ∘ new_row c) <$> _ = _), elem_of_app.
  destruct H2 as [H2|H2]; [by left; left|].
  set (F := List.filter (fun p => id_ltb (given t) p.1) (log t)).
  assert (HF : x ∈ F.*1).
  { apply list_elem_of_fmap in H1 as (p & -> & Hp). apply list_elem_of_fmap_2, filter_elem. split; [done|]. by apply id_ltb_lt. }
  pose proof (sorted_filter id_lt fst (fun p => id_ltb (given t) p.1) _ (g_log _ Hg)) as HS. fold F in HS.
  rewrite <- (take_drop n F) in HF, HS. rewrite fmap_app in HF, HS. apply elem_of_app in HF as [HF|HF]; [by left; right|right].
  change (take n F).*1 with (next_ids n t) in HS. destruct (deliver_given_in n t) as [->|(z & -> & Hz)]; cbn; [done|].
  eapply StronglySorted_app_1_elem_of; [exact HS|done|done].
Qed.

Lemma owed_with_log t f x : (forall p, p ∈ log t -> p.1 = x -> f p = true) -> owed_in t x -> owed_in (with_log t f) x.
Proof.
  intros Hf [H1 H2]. split; [|done]. cbn. apply list_elem_of_fmap in H1 as (p & -> & Hp).
  apply list_elem_of_fmap_2, filter_elem. auto.
Qed.

Lemma owed_with_pels t f x : (forall r, r ∈ pels t -> pd_id r = x -> f r = true) -> owed_in t x ->
  owed_in (with_pels t (List.filter f (pels t))) x.
Proof.
  intros Hf [H1 H2]. split; [done|]. cbn. destruct H2 as [H2|]; [left|by right]. apply list_elem_of_fmap in H2 as (r & -> & Hr).
  apply list_elem_of_fmap_2, filter_elem. auto.
Qed.

Lemma text_at_some t p : p ∈ log t -> is_Some (text_at t (id_text p.1)).
Proof.
  intros Hp. unfold text_at. assert (HF : p ∈ List.filter (fun q => String.eqb (id_text q.1) (id_text p.1)) (log t)).
  { apply filter_elem. split; [done|]. apply String.eqb_refl. }
  destruct (List.filter _ (log t)); [by apply not_elem_of_nil in HF|by eexists].
Qed.

Lemma owed_claim c idle id t x : good t -> owed_in t x -> owed_in (claim c idle id t).2 x.
Proof.
  intros Hg HO. unfold claim. destruct (List.find _ _) as [r|] eqn:Ef; [|done]. destruct (text_at t id) as [e|] eqn:Et.
  - destruct (_ <=? _); [|done]. destruct HO as [H1 H2]. split; [done|]. cbn [with_pels snd pels]. by rewrite touch_ids.
  - apply owed_with_pels; [|done]. intros r' Hr Hid. unfold has_id. destruct (String.eqb_spec (id_text (pd_id r')) id) as [<-|]; [|done].
    exfalso. destruct HO as [H1 _]. apply list_elem_of_fmap in H1 as (p & -> & Hp). rewrite Hid in Et.
    destruct (text_at_some t p Hp) as [? E]. congruence.
Qed.

Lemma owed_read_group c n ks : forall s k x, owed_in (stream_at s k) x -> owed_in (stream_at (read_group c n ks s).2 k) x.
Proof.
  induction ks as [|k0 ks IH]; intros s k x HO; cbn; [done|].
  pose proof (IH (put s k0 (deliver c n (stream_at s k0))) k x) as H. destruct (read_group _ _ _ _) as [rs s']. apply H.
  apply owed_put; [apply good_deliver, good_at| |done]. apply owed_deliver, good_at.
Qed.

Lemma read_group_same c n ks : forall s k, zget (read_group c n ks s).2 k = zget s k /\ said (stream_at (read_group c n ks s).2 k) = said (stream_at s k).
Proof.
  induction ks as [|k0 ks IH]; intros s k; cbn; [done|].
  pose proof (IH (put s k0 (deliver c n (stream_at s k0))) k) as [H1 H2]. destruct (read_group _ _ _ _) as [rs s']. cbn in H1, H2 |- *.
  rewrite H1, H2. split; [done|]. by apply said_put; [apply good_deliver, good_at|].
Qed.

Lemma mem_elem l x : mem l x = true <-> x ∈ l.
Proof.
  unfold mem. rewrite existsb_exists. split; [intros (y & Hy & ->%String.eqb_eq); by apply list_elem_of_In|].
  intros Hx. exists x. split; [by apply list_elem_of_In|apply String.eqb_refl].
Qed.

Lemma exec_look op args s : op ∈ look_ops -> (exec (op :: args) s).2 = s.
Proof.
  intros Ho. repeat (apply elem_of_cons in Ho as [->|Ho]); [..|by apply not_elem_of_nil in Ho]; cbn;
    repeat match goal with |- context [match ?x with _ => _ end] => destruct x eqn:? end; reflexivity.
Qed.

Lemma exec_claim k' c idle id s : (exec (xclaim_one k' c idle id) s).2 = s \/
  exists i, (exec (xclaim_one k' c idle id) s).2 = put s k' (claim c i id (stream_at s k')).2.
Proof.
  cbn -[claim]. destruct (num idle) as [i|]; [|by left]. right. exists i. by destruct (claim c i id (stream_at s k')).
Qed.

Lemma exec_read k p args s : owed_in (stream_at s k) p -> owed_in (stream_at (exec ("XREADGROUP"%string :: args) s).2 k) p.
Proof.
  intros HO. cbn. destruct args as [|g [|c [|n ks]]]; try exact HO.
  pose proof (owed_read_group c (Z.to_nat (default 0 (num n))) ks s k p HO) as H. by destruct (read_group _ _ _ _).
Qed.

Lemma filter_none {A} (f : A -> bool) l : length (List.filter f l) = 0%nat -> forall x, x ∈ l -> f x = false.
Proof.
  intros Hl x Hx. destruct (f x) eqn:E; [|done]. assert (Hin : x ∈ List.filter f l) by (by apply filter_elem).
  destruct (List.filter f l); [by apply not_elem_of_nil in Hin|done].
Qed.

Lemma exec_spares k p c s r s' : exec c s = (r, s') -> spares k p c r -> owed_in (stream_at s k) p -> owed_in (stream_at s' k) p.
Proof.
  intros E Hs HO. destruct Hs as [op k' args r Ho Hk|e r|c r [Hh _]|op args r Ho|k' c i0 id r|k' r|k' c r ->|ids r Hn|ids r Hn|b pb r Hb Hle].
  - pose proof (one_key_effect op k' args s Ho) as HE. rewrite E in HE.
    by destruct (elsewhere_same k' s s' HE k ltac:(done)) as [_ ->].
  - cbn in E. destruct (append e (stream_at s k)) as [t|] eqn:Ea; simplify_eq; [|done].
    apply owed_put; [by eapply good_append; [apply good_at|]| |done]. by apply (owed_append e).
  - destruct c as [|op args]; [done|]. injection Hh as ->. pose proof (exec_read k p args s HO) as H. by rewrite E in H.
  - pose proof (exec_look op args s Ho) as H. rewrite E in H. cbn [snd] in H. by subst s'.
  - destruct (exec_claim k' c i0 id s) as [H|[i H]]; rewrite E in H; cbn [snd] in H; subst s'; [done|].
    apply owed_put; [apply good_claim, good_at|apply owed_claim, good_at|done].
  - cbn in E. by simplify_eq.
  - cbn in E. injection E as Hl <-. apply owed_put; [apply good_with_pels, good_at| |done]. intros H'. apply owed_with_pels; [|done].
    intros row Hr _. apply negb_true_iff.
    apply (filter_none (own c) (pels (stream_at s k'))); [lia|done].
  - cbn in E. simplify_eq. apply owed_put; [apply good_with_pels, good_at| |done]. intros H'. apply owed_with_pels; [|done].
    intros row _ <-. apply negb_true_iff, not_true_iff_false. by rewrite mem_elem.
  - cbn in E. simplify_eq. apply owed_put; [apply good_with_log, good_at| |done]. intros H'. apply owed_with_log; [|done].
    intros row _ <-. apply negb_true_iff, not_true_iff_false. by rewrite mem_elem.
  - cbn in E. rewrite Hb in E. simplify_eq. apply owed_put; [apply good_with_log, good_at| |done]. intros H'. apply owed_with_log; [|done].
    intros row _ <-. apply negb_true_iff, not_true_iff_false. rewrite id_ltb_lt. unfold id_lt, id_le in *. lia.
Qed.

Lemma exec_quiet c s r s' : exec c s = (r, s') -> quiet_cmd c ->
  forall k, zget s' k = zget s k /\ said (stream_at s' k) = said (stream_at s k).
Proof.
  intros E Hc k. destruct Hc as [c [Hh _]|op args Ho|k' c i0 id|args|k' b].
  - destruct c as [|op args]; [done|]. injection Hh as ->. cbn in E. destruct args as [|g [|c [|n ks]]]; simplify_eq; try done.
    pose proof (read_group_same c (Z.to_nat (default 0 (num n))) ks s k) as H. destruct (read_group _ _ _ _). by simplify_eq.
  - pose proof (exec_look op args s Ho) as H. rewrite E in H. cbn [snd] in H. by subst s'.
  - destruct (exec_claim k' c i0 id s) as [H|[i H]]; rewrite E in H; cbn [snd] in H; subst s'; [done|].
    split; [done|]. apply said_put; [apply good_claim, good_at|apply claim_said].
  - cbn in E. repeat case_match; simplify_eq; try done. split; [done|]. apply said_put; [apply good_with_pels, good_at|done].
  - cbn in E. destruct (parse_stream_id b); simplify_eq; [|done]. split; [done|]. apply said_put; [apply good_with_log, good_at|done].
Qed.

#[export] Instance mini_stream_laws : StreamLaws mini mini_sets mini_groups mini_streams.
Proof.
  split.
  - intros k p c s r s' E Hs. rewrite !owed_at. by eapply exec_spares.
  - intros c s r s' E Hq k. by eapply exec_quiet.
Qed.

Lemma decode_one id e : decode_all decode_entry [entry_reply id e] = Some [(id, {["e"%string := e]})].
Proof. done. Qed.

(** The row a claim finds is the only one with that id. *)
Lemma find_row t x r : good t -> u64_id x -> r ∈ pels t -> pd_id r = x -> List.find (has_id (id_text x)) (pels t) = Some r.
Proof.
  intros Hg Hx Hr Hid. pose proof (g_pels _ Hg) as HS. apply sorted_nodup in HS. pose proof (g_given _ Hg) as HU. clear Hg.
  induction (pels t) as [|r0 l IH]; [by apply not_elem_of_nil in Hr|]. cbn [List.find].
  change (pd_id <$> r0 :: l) with (pd_id r0 :: (pd_id <$> l)) in *. apply NoDup_cons in HS as [Hn HS].
  apply Forall_cons in HU as [[U0 _] HU]. apply elem_of_cons in Hr as [->|Hr].
  - unfold has_id. by rewrite Hid, String.eqb_refl.
  - unfold has_id at 1. destruct (String.eqb_spec (id_text (pd_id r0)) (id_text x)) as [E|]; [|by apply IH].
    apply id_text_inj in E; [|done..]. exfalso. apply Hn. rewrite E, <- Hid. by apply list_elem_of_fmap_2.
Qed.

Lemma claim_reply t c idle x r e : good t -> u64_id x -> r ∈ pels t -> pd_id r = x -> idle <= pd_idle r ->
  text_at t (id_text x) = Some e -> (claim c idle (id_text x) t).1 = Some e.
Proof.
  intros Hg Hx Hr Hid Hle He. unfold claim. rewrite (find_row t x r), He by done. by rewrite (proj2 (Z.leb_le _ _) Hle).
Qed.

Lemma claim_others t c idle x y : good t -> u64_id x -> y <> x ->
  (forall r, pd_id r = y -> r ∈ pels t -> r ∈ pels (claim c idle (id_text x) t).2) /\
  text_at (claim c idle (id_text x) t).2 (id_text y) = text_at t (id_text y).
Proof.
  intros Hg Hx Hy. assert (HN : forall r, pd_id r = y -> r ∈ pels t -> has_id (id_text x) r = false).
  { intros r Hid Hr. unfold has_id. destruct (String.eqb_spec (id_text (pd_id r)) (id_text x)) as [E|]; [|done].
    exfalso. pose proof (g_given _ Hg) as HU. rewrite Forall_forall in HU. destruct (HU (pd_id r)) as [U _]; [by apply list_elem_of_fmap_2|].
    apply id_text_inj in E; [congruence|done..]. }
  unfold claim. destruct (List.find _ _) as [r0|]; [|done]. destruct (text_at t (id_text x)); [destruct (_ <=? _)|]; try done; cbn.
  - split; [|done]. intros r Hid Hr. apply list_elem_of_fmap. exists r. split; [|done]. unfold touch. by rewrite HN.
  - split; [|done]. intros r Hid Hr. apply filter_elem. split; [done|]. by rewrite HN.
Qed.

Lemma claim_ids t c idle id : (pd_id <$> pels (claim c idle id t).2) ⊆ (pd_id <$> pels t).
Proof.
  unfold claim. destruct (List.find _ _); [|done]. destruct (text_at t id); [destruct (_ <=? _)|]; cbn [with_pels snd pels]; try done.
  - by rewrite touch_ids.
  - intros x (r & -> & [Hr _]%filter_elem)%list_elem_of_fmap. by apply list_elem_of_fmap_2.
Qed.

Lemma num_dec n : is_u64 n -> num (dec n) = Some n.
Proof. intros Hn. unfold num. rewrite bytes_of_dec. by apply parse_dec. Qed.

#[export] Instance mini_pel_laws : PelLaws mini mini_pels.
Proof.
  split; cbn -[stream_at].
  - intros s k. apply g_pels, good_at.
  - intros s k r Hr. pose proof (g_given _ (good_at s k)) as HU. rewrite Forall_forall in HU. apply HU. by apply list_elem_of_fmap_2.
  - intros k idle start n s r s' Hi Hn E A. rewrite !num_dec in E by done. simplify_eq. split; [done|]. apply decode_rows.
  - intros k x s r s' Hx E A. simplify_eq. split; [done|]. by destruct (text_at (stream_at s' k) (id_text x)).
  - intros k consumer idle x s r s' Hx Hi E A. rewrite num_dec in E by done.
    destruct (claim consumer idle (id_text x) (stream_at s k)) as [o t] eqn:Ec. simplify_eq.
    pose proof (good_claim consumer idle (id_text x) _ (good_at s k)) as HG. rewrite Ec in HG. cbn in HG. split_and!.
    + exists match o with Some e => [(id_text x, {["e"%string := e]})] | None => [] end. split; [by destruct o|].
      intros m row Hm Hr Hid Hle. destruct (text_at (stream_at s k) (id_text x)) as [e|] eqn:Ee; [|done]. injection Hm as <-.
      pose proof (claim_reply _ consumer idle x row e (good_at s k) Hx Hr Hid Hle Ee) as HC. rewrite Ec in HC. cbn in HC. by subst o.
    + intros k' y Hne. unfold same_entry. cbn -[stream_at]. destruct (decide (k' = k)) as [->|Hk]; [|by rewrite at_put_ne].
      rewrite at_put by done. destruct (claim_others (stream_at s k) consumer idle x y (good_at s k) Hx ltac:(congruence)) as [H1 H2].
      rewrite Ec in H1, H2. cbn in H1, H2. split; [done|by rewrite H2].
    + intros k'. destruct (decide (k' = k)) as [->|Hk]; [|by rewrite at_put_ne]. rewrite at_put by done.
      pose proof (claim_ids (stream_at s k) consumer idle (id_text x)) as H. by rewrite Ec in H.
Qed.

Lemma mini_answers : answers_recovery mini.
Proof.
  intros c s [k idle start n Hi Hn|k x Hx|k consumer idle x Hx Hi]; unfold accepted; cbn -[claim]; rewrite ?num_dec by done; try done.
  by destruct (claim _ _ _ _).
Qed.
End MiniRedis.

(** Three entries a dead consumer left pending, as deliveries of [cauli:q:q]. *)
Definition left_over (x : Z * Z) : pending := {| pd_id := x; pd_consumer := "dead"; pd_idle := 100000; pd_deliveries := 1 |}.

Definition sample_stream : MiniRedis.strm :=
  {| MiniRedis.log := [((5, 0), "x"); ((6, 0), "y"); ((7, 0), "z")]%string; MiniRedis.given := (7, 0); MiniRedis.top := (7, 0);
     MiniRedis.pels := left_over <$> [(5, 0); (6, 0); (7, 0)]; MiniRedis.said := ["x"; "y"; "z"]%string |}.

Definition sample_server : MiniRedis.st := {| MiniRedis.zs := ∅; MiniRedis.streams := {["cauli:q:q"%string := sample_stream]}; MiniRedis.joined := ∅ |}.
Definition sample_world : @world MiniRedis.mini := @Build_world MiniRedis.mini sample_server [] [].

Lemma sample_at : MiniRedis.stream_at sample_server "cauli:q:q" = sample_stream.
Proof. vm_compute. reflexivity. Qed.

Lemma sample_elsewhere k : k <> "cauli:q:q"%string -> MiniRedis.stream_at sample_server k = MiniRedis.nothing.
Proof. intros Hk. unfold MiniRedis.stream_at. cbn [sample_server MiniRedis.streams]. by rewrite lookup_singleton_ne. Qed.
