(* ===== verification/Recovery.v ===== *)
(** Recovery reaches everything it must ([recovery_loop], [recover_page] of
    [worker/src/loops.rs]): over the documented replies of XPENDING, XRANGE and
    XCLAIM, the pages of one drain cover the whole pending list, whatever other
    clients do meanwhile, and the drain ends. *)
From S2P Require Import Prelude Float64 Envelope Stats Ctx Redis Broker Exec Dispatch Loops Server.
Open Scope Z_scope.

Lemma past_dash x : past "-" x = true.
Proof. done. Qed.

Lemma past_cursor x0 x : u64_id x0 -> past ("(" +:+ id_text x0) x = id_ltb x0 x.
Proof.
  intros [H1 H2]. unfold past. assert (strip_str "(" ("(" +:+ id_text x0) = Some (id_text x0)) as ->.
  { unfold strip_str. change (bytes_of ("(" +:+ id_text x0)) with ("("%char :: bytes_of (id_text x0)).
    cbn [bytes_of list_ascii_of_string strip_prefix]. cbn. f_equal. apply str_of_bytes_of. }
  unfold id_text. rewrite parse_stream_id_dec by done. by destruct x0.
Qed.

Lemma past_mono start x y : past start x = true -> id_lt x y -> past start y = true.
Proof.
  unfold past. destruct (String.eqb start "-"); [done|]. cbn [orb]. destruct (strip_str _ _) as [rest|]; [|done].
  destruct (parse_stream_id rest) as [x0|]; [|done]. rewrite !id_ltb_lt. apply id_lt_trans.
Qed.

Lemma filter_shorter {A} (f g : A -> bool) x l : (forall y, f y = true -> g y = true) -> x ∈ l -> g x = true -> f x = false ->
  (length (List.filter f l) < length (List.filter g l))%nat.
Proof.
  intros Hfg Hx Hg Hf. induction l as [|y l IH]; [by apply not_elem_of_nil in Hx|]. cbn.
  assert (HL : forall l, (length (List.filter f l) <= length (List.filter g l))%nat).
  { induction l0 as [|z l0 IH0]; cbn; [lia|]. specialize (Hfg z). destruct (f z), (g z); cbn; (lia || by specialize (Hfg eq_refl)). }
  specialize (HL l). apply elem_of_cons in Hx as [->|Hx].
  - rewrite Hf, Hg. cbn. lia.
  - specialize (IH Hx). specialize (Hfg y). destruct (f y), (g y); cbn; (lia || by specialize (Hfg eq_refl)).
Qed.

(** The elements an [omap] keeps, and what they become, at the same index. *)
Lemma omap_index {A B C} (f : A -> option B) (g : A -> C) (l : list A) x y : x ∈ l -> f x = Some y ->
  exists n, omap f l !! n = Some y /\ omap (fun x => (fun _ => g x) <$> f x) l !! n = Some (g x).
Proof.
  induction l as [|z l IH]; intros Hx Hy; [by apply not_elem_of_nil in Hx|]. cbn.
  apply elem_of_cons in Hx as [<-|Hx].
  - rewrite Hy. by exists 0%nat.
  - destruct (IH Hx Hy) as (n & H1 & H2). destruct (f z); cbn; [by exists (S n)|by exists n].
Qed.

(** ** Replies of a healthy server *)

(** What no claim of a pending entry undoes. *)
Definition claims_keep {R : Redis} (I : rstate -> Prop) : Prop := forall k consumer idle x s r s', u64_id x -> is_u64 idle ->
  exec ["XCLAIM"; k; "cauli"; consumer; dec idle; id_text x]%string s = (r, s') -> accepted r -> I s -> I s'.

Section replies.
Context {R : Redis} {P : PelViews R} {PL : PelLaws R P}.
Context (Hacc : answers_recovery R).

Definition fields_reply (s : rstate) (k : string) (x : Z * Z) : list (string * gmap string string) :=
  match fields_of s k x with Some m => [(id_text x, m)] | None => [] end.

Lemma xrange_all k xs : Forall u64_id xs -> forall s rs s', exec_all ((fun x => ["XRANGE"; k; id_text x; id_text x]%string) <$> xs) s = (rs, s') ->
  s' = s /\ Forall accepted rs /\ decode_all decode_entries rs = Some (fields_reply s k <$> xs).
Proof.
  induction 1 as [|x xs Hx _ IH]; intros s rs s' E; cbn in E; [by injection E as <- <-|].
  destruct (exec _ s) as [r s1] eqn:E1. destruct (exec_all _ s1) as [rs1 s2] eqn:E2. injection E as <- <-.
  pose proof (Hacc _ s (ask_range k x Hx)) as HA. rewrite E1 in HA.
  destruct (xrange_law _ _ _ _ _ Hx E1 HA) as [-> Hd]. destruct (IH _ _ _ E2) as (-> & HF & Hds).
  split_and!; [done|by constructor|]. cbn. by rewrite Hd, Hds.
Qed.

Lemma same_entry_trans s1 s2 s3 k x : same_entry s1 s2 k x -> same_entry s2 s3 k x -> same_entry s1 s3 k x.
Proof. intros [H1 H2] [H3 H4]. split; [eauto|congruence]. Qed.

(** Claims of distinct entries, one after another. *)
Lemma xclaim_all k consumer idle xs : is_u64 idle -> NoDup xs -> Forall u64_id xs -> forall s rs s',
  exec_all ((fun x => ["XCLAIM"; k; "cauli"; consumer; dec idle; id_text x]%string) <$> xs) s = (rs, s') ->
  Forall accepted rs /\ exists ls, decode_all decode_entries rs = Some ls /\
    (forall n x m row, xs !! n = Some x -> fields_of s k x = Some m -> row ∈ pending_of s k -> pd_id row = x -> idle <= pd_idle row ->
       ls !! n = Some [(id_text x, m)]) /\
    (forall k' y, ~ (k' = k /\ y ∈ xs) -> same_entry s s' k' y) /\
    forall I, claims_keep I -> I s -> I s'.
Proof.
  intros Hidle. induction 1 as [|x xs Hx ND IH]; intros HU s rs s' E; cbn in E.
  { injection E as <- <-. split; [done|]. exists []. split_and!; [done|by intros n|intros; by split|done]. }
  destruct (exec _ s) as [r s1] eqn:E1. destruct (exec_all _ s1) as [rs1 s2] eqn:E2. injection E as <- <-.
  apply Forall_cons in HU as [Ux HU].
  pose proof (Hacc _ s (ask_claim k consumer idle x Ux Hidle)) as HA. rewrite E1 in HA.
  destruct (xclaim_law _ _ _ _ _ _ _ Ux Hidle E1 HA) as ((l & Hd & Hl) & Hsame & _).
  destruct (IH HU _ _ _ E2) as (HF & ls & Hds & Hls & Hsame2 & Hkeep2). split; [by constructor|]. exists (l :: ls).
  split_and!; [cbn; by rewrite Hd, Hds| | |intros I HI Hs; eapply Hkeep2, HI; [done..|exact E1|exact HA|exact Hs]].
  - intros [|n] y m row Hy Hm Hrow Hid Hle; cbn in Hy |- *.
    + injection Hy as ->. f_equal. by apply (Hl m row).
    + assert (Hne : (k, y) <> (k, x)) by (intros [= ->]; by apply list_elem_of_lookup_2 in Hy).
      destruct (Hsame k y Hne) as [H1 H2]. apply (Hls n y m row); [done|congruence|by apply H1|done..].
  - intros k' y Hn. eapply same_entry_trans; [apply Hsame|apply Hsame2]; [intros [= -> ->]|intros [-> Hy]]; apply Hn; split; set_solver.
Qed.
End replies.

(** ** One page *)

(** The cursor after a page: past its last row, when it came full. *)
Definition next_of (page : Z) (pend : list pending_row) : option string :=
  match List.rev pend with
  | (last_id, _, _, _) :: _ => if Z.of_nat (length pend) =? page then Some ("(" +:+ last_id) else None
  | [] => None
  end.

Lemma next_of_rows page rows : 1 <= page ->
  (forall cur, next_of page (row_of <$> rows) = Some cur -> exists x0, x0 ∈ rows /\ cur = "(" +:+ id_text (pd_id x0)) /\
  (Z.of_nat (length rows) = page -> is_Some (next_of page (row_of <$> rows))).
Proof.
  intros Hp. unfold next_of. destruct rows as [|x0 rows _] using rev_ind; [cbn; split; [done|lia]|].
  rewrite length_fmap, fmap_app, List.rev_app_distr. cbn. destruct (Z.eqb_spec (Z.of_nat (length (rows ++ [x0]))) page); [|done].
  split; [|by eexists]. intros cur [= <-]. exists x0. split; [apply elem_of_app; right; by left|done].
Qed.

(** A row past the start is on the page, or above a full page. *)
Lemma page_splits n (F : list pending) r : StronglySorted id_lt (pd_id <$> F) -> r ∈ F ->
  r ∈ take n F \/ (length (take n F) = n /\ forall x0, x0 ∈ take n F -> id_lt (pd_id x0) (pd_id r)).
Proof.
  intros HS Hr. rewrite <- (take_drop n F) in Hr, HS. apply elem_of_app in Hr as [Hr|Hr]; [by left|right]. split.
  - rewrite length_take. apply Nat.min_l. destruct (Nat.le_gt_cases n (length F)) as [|Hlt]; [done|].
    rewrite drop_ge in Hr by lia. by apply not_elem_of_nil in Hr.
  - intros x0 Hx. rewrite fmap_app in HS. eapply StronglySorted_app_1_elem_of; [exact HS|by apply list_elem_of_fmap_2..].
Qed.

(** The page size recovery was admitted with. *)
Lemma admitted_page views page : admission_open views = Some (Some page) -> 1 <= page <= u64_max.
Proof.
  induction views as [|g views IH]; [done|]. cbn. destruct (gv_shutting_down g); [done|].
  destruct (Z.ltb_spec 0 (gv_permits g)); [|exact IH]. destruct (gv_backlog g =? 0); [|exact IH]. cbn. intros [= <-].
  unfold RECOVERY_SCAN_BATCH, u64_max. lia.
Qed.

(** ** One stuck entry *)

Section drain.
Context {R : Redis} {P : PelViews R} {PL : PelLaws R P} {S0 : Serde}.
Context (Hacc : answers_recovery R).
Context (a : recovery_args) (q : string) (i : Z * Z) (m : gmap string string) (I : rstate -> Prop).
Context (Hvt : is_u64 (ra_vt_ms a)).

Definition threshold : Z := required_idle_ms a (raw_e_field m ≫= fun r => ok (envelope_of_text r)).

(** Entry [i] of [q], with fields [m], is pending and idle past what its own
    envelope asks. *)
Definition stuck (s : rstate) : Prop :=
  (exists row, row ∈ pending_of s (q_key q) /\ pd_id row = i /\ threshold <= pd_idle row) /\ fields_of s (q_key q) i = Some m.

(** What bounds the entries that can be pending. *)
Context (HI : claims_keep I).

(** The connection holds, and no other client takes [i] or leaves the bound. *)
Definition calm (w : world) : Prop :=
  Forall (fun t => torn t = None /\ (forall s, stuck s -> stuck (env_before t s)) /\ forall s, I s -> I (env_before t s)) (trips w).

Record carries (w w' : world) : Prop := {
  ca_stuck : stuck (server w) -> stuck (server w');
  ca_within : I (server w) -> I (server w');
  ca_calm : calm w';
}.

Lemma carries_trans w1 w2 w3 : carries w1 w2 -> carries w2 w3 -> carries w1 w3.
Proof. intros [? ? ?] [? ? ?]. split; auto. Qed.

Lemma floor_below : ra_vt_ms a <= threshold.
Proof. unfold threshold, required_idle_ms. destruct (_ ≫= _); lia. Qed.

(** An untorn trip: all replies, from a state the others left [i] stuck in. *)
Lemma calm_trip cs w : calm w -> exists s1 rs w', round_trip cs w = (Ok rs, w') /\ exec_all cs s1 = (rs, server w') /\
  (stuck (server w) -> stuck s1) /\ (I (server w) -> I s1) /\ calm w'.
Proof.
  intros HC. unfold round_trip. set (t := match trips w with t :: _ => t | [] => _ end).
  assert (Ht : (torn t = None /\ (forall s, stuck s -> stuck (env_before t s)) /\ forall s, I s -> I (env_before t s)) /\
    calm {| server := server w; trace := []; trips := tail (trips w) |}).
  { unfold t, calm in *. destruct (trips w) as [|t0 ts]; [done|]. by apply Forall_cons in HC. }
  destruct Ht as [(Htorn & Hs & Hw) HC']. rewrite Htorn. destruct (exec_all cs (env_before t (server w))) as [rs s2] eqn:E.
  exists (env_before t (server w)), rs. eexists. split; [done|]. split_and!; [exact E|auto|auto|exact HC'].
Qed.

Lemma xpending_calm q' start page w : is_u64 page -> calm w -> exists rows w1,
  xpending_idle q' (ra_vt_ms a) start page w = (Ok (row_of <$> rows), w1) /\ carries w w1 /\
  rows = take (Z.to_nat page) (List.filter (fun r => (ra_vt_ms a <=? pd_idle r) && past start (pd_id r)) (pending_of (server w1) (q_key q'))).
Proof.
  intros Hpage HC. unfold xpending_idle, mbind, M_bind, query.
  edestruct (calm_trip [["XPENDING"; q_key q'; "cauli"; "IDLE"; dec (ra_vt_ms a); start; "+"; dec page]%string] w HC)
    as (s1 & rs & w1 & E & Ex & Hs & Hw & HC1). rewrite E. cbn in Ex.
  destruct (exec _ s1) as [r s2] eqn:E1. injection Ex as <- Es.
  pose proof (Hacc _ s1 (ask_pending (q_key q') (ra_vt_ms a) start page Hvt Hpage)) as HA.
  rewrite E1 in HA. cbn [fst] in HA. pose proof HA as HA'. unfold accepted in HA'. rewrite HA'.
  destruct (xpending_idle_law _ _ _ _ _ _ _ Hvt Hpage E1 HA) as [-> Hd]. unfold decode. rewrite Hd. cbn.
  do 2 eexists. split; [done|]. rewrite <- Es. split; [|done]. split; [by rewrite <- Es|by rewrite <- Es|done].
Qed.

Lemma entry_of_reply s k x : entry_of (id_text x) (fields_reply s k x) = raw_e_field <$> fields_of s k x.
Proof. unfold fields_reply, entry_of. destruct (fields_of s k x); cbn; [|done]. by rewrite decide_True. Qed.

Lemma query_pipe_calm cs w : calm w -> (forall s rs s', exec_all cs s = (rs, s') -> Forall accepted rs) ->
  exists s1 rs w', query_pipe cs w = (Ok rs, w') /\ exec_all cs s1 = (rs, server w') /\
    (stuck (server w) -> stuck s1) /\ (I (server w) -> I s1) /\ calm w'.
Proof.
  intros HC HA. destruct (calm_trip cs w HC) as (s1 & rs & w1 & E & Ex & H'). exists s1, rs, w1. split; [|done].
  unfold query_pipe. rewrite E. apply HA in Ex. apply first_error_ok in Ex. by rewrite Ex.
Qed.

Lemma peek_calm q' xs w : Forall u64_id xs -> calm w -> exists w1,
  peek_entries q' (id_text <$> xs) w = (Ok ((fun x => raw_e_field <$> fields_of (server w1) (q_key q') x) <$> xs), w1) /\ carries w w1.
Proof.
  intros HU HC. destruct xs as [|x xs]; [exists w; split; [done|by split]|].
  set (l := x :: xs) in *.
  assert (HE : peek_entries q' (id_text <$> l) = (rs ← query_pipe ((fun x => ["XRANGE"; q_key q'; id_text x; id_text x]%string) <$> l);
    replies ← decode_replies rs; mret (zip_with entry_of (id_text <$> l) replies))).
  { change (peek_entries q' (id_text <$> l)) with (rs ← query_pipe ((fun id => ["XRANGE"; q_key q'; id; id]%string) <$> (id_text <$> l));
      replies ← decode_replies rs; mret (zip_with entry_of (id_text <$> l) replies)). by rewrite <- list_fmap_compose. }
  rewrite HE. clear HE.
  destruct (query_pipe_calm ((fun x => ["XRANGE"; q_key q'; id_text x; id_text x]%string) <$> l) w HC) as (s1 & rs & w1 & E & Ex & Hs & Hw & HC1).
  { intros s rs s' Ex. by apply (xrange_all Hacc _ _ HU) in Ex as (_ & HF & _). }
  apply (xrange_all Hacc _ _ HU) in Ex as (Es & _ & Hd). exists w1. unfold mbind, M_bind.
  rewrite E. unfold decode_replies. rewrite Hd. cbn [ok_or]. unfold mret, M_ret.
  split; [|split; [by rewrite Es|by rewrite Es|done]]. rewrite Es. do 2 f_equal. clear. induction l as [|y l IH]; [done|].
  cbn. by rewrite entry_of_reply, IH.
Qed.

Lemma claim_calm q' xs w : calm w -> NoDup xs -> Forall u64_id xs -> exists claimed w1,
  xclaim_entries q' (ra_consumer a) (ra_vt_ms a) (id_text <$> xs) w = (Ok claimed, w1) /\ calm w1 /\
  (I (server w) -> I (server w1)) /\
  (stuck (server w) -> (q' = q -> forall n, xs !! n = Some i -> claimed !! n = Some (Some (raw_e_field m))) /\
                       (q' <> q \/ i ∉ xs -> stuck (server w1))).
Proof.
  intros HC ND HU. unfold xclaim_entries, mbind, M_bind. rewrite <- list_fmap_compose. unfold compose.
  destruct (query_pipe_calm ((fun x => ["XCLAIM"; q_key q'; "cauli"; ra_consumer a; dec (ra_vt_ms a); id_text x]%string) <$> xs) w HC)
    as (s1 & rs & w1 & E & Ex & Hs & Hw & HC1).
  { intros s rs s' Ex. by apply (xclaim_all Hacc _ _ _ _ Hvt ND HU) in Ex as [HF _]. }
  apply (xclaim_all Hacc _ _ _ _ Hvt ND HU) in Ex as (_ & ls & Hd & Hls & Hsame & Hkeep). rewrite E. unfold decode_replies. rewrite Hd.
  cbn [ok_or]. unfold mret, M_ret. do 2 eexists. split; [done|]. split; [done|]. split; [|intros HS; split].
  - intros HW. by apply Hkeep, Hw.
  - intros -> n Hn. destruct (Hs HS) as [(row & Hrow & Hid & Hle) Hm]. rewrite lookup_zip_with, list_lookup_fmap, Hn. cbn.
    rewrite (Hls n i m row Hn Hm Hrow Hid); [|pose proof floor_below; lia]. cbn. f_equal. unfold entry_of. cbn. by rewrite decide_True.
  - intros Hne. destruct (Hs HS) as [(row & Hrow & Hid & Hle) Hm]. destruct (Hsame (q_key q) i) as [H1 H2].
    { intros [Hk Hi]. destruct Hne as [Hne|Hne]; [|done]. by apply Hne, q_key_inj. }
    split; [exists row; split_and!; [by apply H1|done..]|congruence].
Qed.

Context (held : Inflight) (Hheld : holds_entry held q (id_text i) = false).

(** Handed over, in one of these acts. *)
Definition reached (acts : list recovery_act) : Prop := exists x, x ∈ acts /\ act_queue x = q /\ act_id x = id_text i.

(** The eligible rows of a page, and the ids they are claimed by. *)
Definition elig (q' : string) (s : rstate) (row : pending) : option candidate :=
  eligible_of a held q' (row_of row, raw_e_field <$> fields_of s (q_key q') (pd_id row)).

Lemma elig_zip q' s rows :
  omap (eligible_of a held q') (zip (row_of <$> rows) ((fun x => raw_e_field <$> fields_of s (q_key q') x) <$> (pd_id <$> rows))) =
  omap (elig q' s) rows.
Proof. induction rows as [|r rows IH]; [done|]. cbn -[eligible_of]. rewrite IH. done. Qed.

Lemma elig_id q' s row c : elig q' s row = Some c -> ca_id c = id_text (pd_id row).
Proof. unfold elig. intros H. eapply (eligible_of_ok a held q' [_]) in H as [_ H]; [exact H|by left]. Qed.

Definition claimed_ids (q' : string) (s : rstate) (rows : list pending) : list (Z * Z) :=
  omap (fun row => (fun _ => pd_id row) <$> elig q' s row) rows.

Lemma claimed_ids_text q' s rows : ca_id <$> omap (elig q' s) rows = id_text <$> claimed_ids q' s rows.
Proof.
  induction rows as [|r rows IH]; [done|]. unfold claimed_ids in *. cbn -[elig]. destruct (elig q' s r) as [c|] eqn:E; cbn; [|done].
  by rewrite IH, (elig_id _ _ _ _ E).
Qed.

Lemma claimed_ids_sub q' s rows : claimed_ids q' s rows `sublist_of` (pd_id <$> rows).
Proof.
  induction rows as [|r rows IH]; [done|]. unfold claimed_ids in *. cbn -[elig]. destruct (elig q' s r); cbn; by constructor.
Qed.

(** The stuck entry, when its row is on the page, is eligible. *)
Lemma elig_stuck s row : fields_of s (q_key q) i = Some m -> pd_id row = i -> threshold <= pd_idle row -> is_Some (elig q s row).
Proof.
  intros Hm Hid Hle. unfold elig, row_of, eligible_of. rewrite Hid, Hm, Hheld. cbn.
  destruct (Z.ltb_spec (pd_idle row) (required_idle_ms a (raw_e_field m ≫= fun r => ok (envelope_of_text r)))) as [Hlt|]; [|by eexists].
  unfold threshold in Hle. lia.
Qed.

(** What one page of [q'] guarantees. *)
Record page_done (q' start : string) (w w' : world) (next : option string) (acts : list recovery_act) : Prop := {
  pg_calm : calm w';
  pg_within : I (server w) -> I (server w');
  pg_reach : stuck (server w) -> reached acts \/
    (stuck (server w') /\ (q' = q -> past start i = true -> exists cur, next = Some cur /\ past cur i = true));
  pg_cursor : I (server w) -> forall cur, next = Some cur -> exists s x0, I s /\ (stuck (server w) -> stuck s) /\
    x0 ∈ (pd_id <$> pending_of s (q_key q')) /\ past start x0 = true /\ cur = "(" +:+ id_text x0;
}.

(** The rows XPENDING returned, in the state it was answered in. *)
Definition page_rows (q' start : string) (page : Z) (s : rstate) : list pending :=
  take (Z.to_nat page) (List.filter (fun r => (ra_vt_ms a <=? pd_idle r) && past start (pd_id r)) (pending_of s (q_key q'))).

Lemma page_rows_elem q' start page s row : row ∈ page_rows q' start page s ->
  row ∈ pending_of s (q_key q') /\ past start (pd_id row) = true.
Proof. intros [Hr [_ Hp]%andb_true_iff]%subseteq_take%filter_elem. done. Qed.

Lemma page_rows_nodup q' start page s : NoDup (pd_id <$> page_rows q' start page s).
Proof.
  apply sorted_nodup. unfold page_rows. rewrite fmap_take. eapply StronglySorted_app_1_l.
  rewrite take_drop. apply sorted_filter, pending_sorted.
Qed.

Lemma page_cursor q' start page s cur : 1 <= page -> next_of page (row_of <$> page_rows q' start page s) = Some cur ->
  exists x0, x0 ∈ (pd_id <$> pending_of s (q_key q')) /\ past start x0 = true /\ cur = "(" +:+ id_text x0.
Proof.
  intros Hp Hn. apply next_of_rows in Hn as (x0 & Hx & ->); [|done]. destruct (page_rows_elem _ _ _ _ _ Hx) as [Hin Hpast].
  exists (pd_id x0). split_and!; [by apply list_elem_of_fmap_2|done|done].
Qed.

(** The stuck entry is on the page, or the cursor stays below it. *)
Lemma page_reaches start page s : 1 <= page -> stuck s -> past start i = true ->
  (exists row, row ∈ page_rows q start page s /\ pd_id row = i /\ threshold <= pd_idle row) \/
  exists cur, next_of page (row_of <$> page_rows q start page s) = Some cur /\ past cur i = true.
Proof.
  intros Hp [(row & Hrow & Hid & Hle) _] Hpast. pose proof floor_below as Hf.
  assert (HF : row ∈ List.filter (fun r => (ra_vt_ms a <=? pd_idle r) && past start (pd_id r)) (pending_of s (q_key q))).
  { apply filter_elem. split; [done|]. rewrite Hid, Hpast, andb_true_r. apply Z.leb_le. lia. }
  destruct (page_splits (Z.to_nat page) _ row (sorted_filter id_lt pd_id _ _ (pending_sorted s (q_key q))) HF) as [Hin|[Hlen Hlt]].
  { left. by exists row. }
  right. fold (page_rows q start page s) in Hlen, Hlt. destruct (next_of_rows page (page_rows q start page s) Hp) as [Hn1 Hn2].
  destruct Hn2 as [cur Hcur]; [lia|]. exists cur. split; [done|]. destruct (Hn1 cur Hcur) as (x0 & Hx & ->).
  pose proof (pending_ids _ _ _ (proj1 (page_rows_elem _ _ _ _ _ Hx))) as HU.
  rewrite past_cursor by done. apply id_ltb_lt. rewrite <- Hid. by apply Hlt.
Qed.

(** The acts on claimed entries hold the one of the stuck entry's row. *)
Lemma act_reached s row xs claimed : row ∈ xs -> pd_id row = i -> is_Some (elig q s row) ->
  (forall n, claimed_ids q s xs !! n = Some i -> claimed !! n = Some (Some (raw_e_field m))) ->
  reached (omap (act_of q) (zip (omap (elig q s) xs) claimed)).
Proof.
  intros Hrow Hid [cand Hc] Hcl. destruct (omap_index (elig q s) pd_id xs row cand Hrow Hc) as (n & H1 & H2).
  rewrite Hid in H2. specialize (Hcl n H2). pose proof (elig_id _ _ _ _ Hc) as Hca. rewrite Hid in Hca.
  set (x := if redelivery_limit (ca_env cand) <? ca_deliveries cand
            then ADeadLetter q (ca_id cand) (default "" (raw_e_field m)) "redelivery_limit"
            else ASpawn {| sp_queue := q; sp_id := ca_id cand; sp_raw := raw_e_field m |}).
  exists x. split_and!; [|by unfold x; destruct (_ <? _)|by unfold x; destruct (_ <? _)].
  apply list_elem_of_omap. exists (cand, Some (raw_e_field m)). split; [|done].
  apply (list_elem_of_lookup_2 _ n). by rewrite lookup_zip_with, H1, Hcl.
Qed.

Lemma page_calm q' start page w next acts w' : 1 <= page <= u64_max -> calm w ->
  recover_page a held q' start page w = ((next, acts), w') -> page_done q' start w w' next acts.
Proof.
  intros [Hp Hp2] HC. unfold recover_page. destruct (xpending_calm q' start page w ltac:(mlia) HC) as (rows & w1 & E1 & [S1 W1 C1] & Hrows).
  rewrite E1. fold (next_of page (row_of <$> rows)). fold (page_rows q' start page (server w1)) in Hrows.
  rewrite <- list_fmap_compose. change ((fun p : pending_row => p.1.1.1) ∘ row_of) with (id_text ∘ pd_id). rewrite list_fmap_compose.
  assert (HU : Forall u64_id (pd_id <$> rows)).
  { apply Forall_fmap, Forall_forall. intros r Hr. rewrite Hrows in Hr. by eapply pending_ids, page_rows_elem. }
  destruct (peek_calm q' (pd_id <$> rows) w1 HU C1) as (w2 & E2 & [S2 W2 C2]). rewrite E2, elig_zip.
  assert (HS : forall cur, I (server w) -> next_of page (row_of <$> rows) = Some cur -> exists s x0, I s /\ (stuck (server w) -> stuck s) /\
    x0 ∈ (pd_id <$> pending_of s (q_key q')) /\ past start x0 = true /\ cur = "(" +:+ id_text x0).
  { intros cur HW Hn. rewrite Hrows in Hn. apply page_cursor in Hn as (x0 & ? & ? & ->); [|done]. exists (server w1), x0. split_and!; auto. }
  assert (HR : stuck (server w) -> q' = q -> past start i = true ->
    (exists row, row ∈ rows /\ pd_id row = i /\ is_Some (elig q (server w2) row)) \/
    exists cur, next_of page (row_of <$> rows) = Some cur /\ past cur i = true).
  { intros Hst -> Hpast. rewrite Hrows. destruct (page_reaches start page _ Hp (S1 Hst) Hpast) as [(row & ? & ? & ?)|]; [left|by right].
    exists row. split_and!; [done..|]. apply elig_stuck; [apply S2, S1, Hst|done..]. }
  case_bool_decide as He.
  { intros [= <- <- <-]. split; [done|by auto| |by eauto]. intros Hst. right. split; [by auto|]. intros Hq Hpast.
    destruct (HR Hst Hq Hpast) as [(row & Hrow & Hid & [cand Hc])|]; [|done]. subst q'.
    destruct (omap_index (elig q (server w2)) pd_id rows row cand Hrow Hc) as (n & H1 & _).
    apply lookup_lt_Some in H1. lia. }
  rewrite claimed_ids_text. set (xs := claimed_ids q' (server w2) rows).
  assert (ND : NoDup xs) by (eapply sublist_NoDup; [|apply claimed_ids_sub]; rewrite Hrows; apply page_rows_nodup).
  assert (HUx : Forall u64_id xs) by (apply Forall_forall; intros x Hx; rewrite Forall_forall in HU; eapply HU, elem_of_sublist, claimed_ids_sub; exact Hx).
  destruct (claim_calm q' xs w2 C2 ND HUx) as (claimed & w3 & E3 & C3 & W3 & S3). rewrite E3. intros [= <- <- <-].
  split; [done|by auto| |by eauto]. intros Hst. destruct (S3 (S2 (S1 Hst))) as [Hcl Hkeep].
  destruct (decide (q' = q)) as [->|Hq]; [|right; split; [apply Hkeep; by left|done]].
  destruct (decide (i ∈ xs)) as [Hi|Hi].
  - left. apply list_elem_of_omap in Hi as (row & Hrow & Hsome). destruct (elig q (server w2) row) as [cand|] eqn:Hc; [|done].
    injection Hsome as Hid. by apply (act_reached _ row); [| |by eexists|apply Hcl].
  - right. split; [apply Hkeep; by right|]. intros _ Hpast. destruct (HR Hst eq_refl Hpast) as [(row & Hrow & Hid & Hel)|]; [|done].
    destruct Hel as [cand Hc]. exfalso. apply Hi, list_elem_of_omap. exists row. split; [done|]. by rewrite Hc; cbn; rewrite Hid.
Qed.
End drain.

(** A cursor past an entry of a list leaves fewer of the list ahead. *)
Lemma cursor_shrinks (l : list (Z * Z)) start x0 : u64_id x0 -> x0 ∈ l -> past start x0 = true ->
  (length (List.filter (past ("(" +:+ id_text x0)) l) < length (List.filter (past start) l))%nat.
Proof.
  intros HU Hin Hpast. apply (filter_shorter _ _ x0); [..|done|].
  - intros y. rewrite past_cursor by done. intros Hlt%id_ltb_lt. by eapply past_mono.
  - done.
  - rewrite past_cursor by done. apply not_true_iff_false. rewrite id_ltb_lt. unfold id_lt. lia.
Qed.

(** ** One drain *)

(** The entries that can be pending. *)
Definition within {R : Redis} {P : PelViews R} (U : string -> list (Z * Z)) (s : rstate) : Prop :=
  forall q', (pd_id <$> pending_of s (q_key q')) ⊆ U q'.

Lemma within_kept {R : Redis} {P : PelViews R} {PL : PelLaws R P} U : claims_keep (within U).
Proof.
  intros k consumer idle x s r s' Hx Hi E HA HW q' y Hy. destruct (xclaim_law _ _ _ _ _ _ _ Hx Hi E HA) as (_ & _ & Hsub). by apply HW, Hsub.
Qed.

Section drains.
Context {R : Redis} {P : PelViews R} {PL : PelLaws R P} {S0 : Serde}.
Context (Hacc : answers_recovery R).
Context (a : recovery_args) (q : string) (i : Z * Z) (m : gmap string string) (U : string -> list (Z * Z)).
Context (Hvt : is_u64 (ra_vt_ms a)).
Abbreviation stuck := (stuck a q i m).
Abbreviation calm := (calm a q i m (within U)).
Abbreviation within := (within U).
Abbreviation reached := (reached q i).

(** Admissions that let a page through while [i] is not held. *)
Definition open_ (ads : list admission) : Prop :=
  Forall (fun ad => exists page, admission_open (ad_views ad) = Some (Some page) /\ holds_entry (ad_held ad) q (id_text i) = false) ads.

(** A queue's pages still to come are at most its entries past the cursor, and one. *)
Definition cost1 (c : string * option string) : nat :=
  match c.2 with Some start => S (length (List.filter (past start) (U c.1))) | None => 0 end.
Definition cost (cs : list (string * option string)) : nat := sum_list (cost1 <$> cs).
Definition live (cs : list (string * option string)) : nat := length (List.filter (fun c => bool_decide (is_Some c.2)) cs).

(** A cursor that has [i] ahead. *)
Definition ahead (cs : list (string * option string)) : Prop := exists start, (q, Some start) ∈ cs /\ past start i = true.

Lemma reached_app acts acts' : reached acts -> reached (acts ++ acts').
Proof. intros (x & Hx & H'). exists x. split; [apply elem_of_app; by left|done]. Qed.

(** What one pass over the cursors does. *)
Record pass_done (cs : list (string * option string)) (ads : list admission) (acts : list recovery_act) (w : world)
    (cs' : list (string * option string)) (ads' : list admission) (acts' : list recovery_act) (w' : world) (e : drain_end) : Prop := {
  ps_whole : e = Drained;
  ps_open : open_ ads';
  ps_calm : calm w';
  ps_within : within (server w');
  ps_used : length ads = (length ads' + live cs)%nat;
  ps_cost : (cost cs' + live cs <= cost cs)%nat;
  ps_acts : acts `prefix_of` acts';
  ps_reach : stuck (server w) -> reached acts' \/ (stuck (server w') /\ (ahead cs -> ahead cs'));
}.

Lemma drain_pass_done cs : forall ads acts w cs' ads' acts' w' e,
  open_ ads -> calm w -> within (server w) -> (live cs <= length ads)%nat ->
  drain_pass a cs ads acts w = (cs', ads', acts', w', e) -> pass_done cs ads acts w cs' ads' acts' w' e.
Proof.
  induction cs as [|[q' [start|]] cs IH]; intros ads acts w cs' ads' acts' w' e HO HC HW HL E; cbn [drain_pass] in E.
  - injection E as <- <- <- <- <-. split; try done; first [cbn; lia|auto].
  - unfold live in HL. cbn in HL. destruct ads as [|ad ads]; [cbn in HL; lia|]. cbn in HL.
    apply Forall_cons in HO as [(page & Hg & Hh) HO]. pose proof (admitted_page _ _ Hg) as Hp. rewrite Hg in E.
    destruct (recover_page a (ad_held ad) q' start page w) as [[next acts1] w1] eqn:EP.
    pose proof (page_calm Hacc a q i m within Hvt (within_kept U) (ad_held ad) Hh q' start page w next acts1 w1 Hp HC EP) as [C1 W1 R1 S1].
    assert (HS : forall cur, next = Some cur -> (length (List.filter (past cur) (U q')) < length (List.filter (past start) (U q')))%nat).
    { intros cur Hn. destruct (S1 HW cur Hn) as (s0 & x0 & HW0 & _ & Hx & Hpast & ->). pose proof Hx as (row & -> & Hrow)%list_elem_of_fmap.
      apply cursor_shrinks; [by eapply pending_ids|by apply HW0|done]. }
    destruct (drain_pass a cs ads (acts ++ acts1) w1) as [[[[cs2 ads2] acts2] w2] e2] eqn:ED. injection E as <- <- <- <- <-.
    destruct (IH _ _ _ _ _ _ _ _ HO C1 (W1 HW) ltac:(unfold live; lia) ED) as [B O C W Us Co Pr Re].
    split; [done..| | | |].
    + unfold live in *. cbn. lia.
    + unfold cost, live in *. cbn. destruct next as [cur|]; cbn; [specialize (HS cur eq_refl)|]; lia.
    + etransitivity; [|exact Pr]. by apply prefix_app_r.
    + intros Hst. destruct (R1 Hst) as [Hr|[Hst1 Hnext]].
      { left. destruct Pr as [k ->]. destruct Hr as (x & Hx & H'). exists x. split; [|done]. rewrite !elem_of_app. auto. }
      destruct (Re Hst1) as [|[Hst2 Hah]]; [by left|right]. split; [done|]. intros (st & Hin & Hst').
      apply elem_of_cons in Hin as [[= <- <-]|Hin].
      * destruct (Hnext eq_refl Hst') as (cur & -> & Hcur). exists cur. split; [left|done].
      * destruct (Hah (ex_intro _ st (conj Hin Hst'))) as (st2 & ? & ?). exists st2. split; [by right|done].
  - destruct (drain_pass a cs ads acts w) as [[[[cs2 ads2] acts2] w2] e2] eqn:ED. injection E as <- <- <- <- <-.
    destruct (IH _ _ _ _ _ _ _ _ HO HC HW HL ED) as [B O C W Us Co Pr Re]. split; [done..|].
    intros Hst. destruct (Re Hst) as [|[Hst2 Hah]]; [by left|right]. split; [done|]. intros (st & Hin & Hst').
    apply elem_of_cons in Hin as [[=]|Hin]. destruct (Hah (ex_intro _ st (conj Hin Hst'))) as (st2 & ? & ?).
    exists st2. split; [by right|done].
Qed.

Lemma live_exists cs : existsb (fun c : string * option string => bool_decide (is_Some c.2)) cs = true <-> (0 < live cs)%nat.
Proof.
  unfold live. induction cs as [|c cs IH]; [cbn; split; [done|lia]|]. cbn. case_bool_decide; cbn; [split; [lia|done]|done].
Qed.

Lemma live_cost cs : (live cs <= cost cs)%nat.
Proof.
  unfold live, cost. induction cs as [|[q' [st|]] cs IH]; cbn; [lia..|]. done.
Qed.

Lemma ahead_live cs : ahead cs -> (0 < live cs)%nat.
Proof.
  intros (st & Hin & _). apply live_exists, existsb_exists. exists (q, Some st). split; [by apply list_elem_of_In|done].
Qed.

(** With an admission for each page to come, the drain goes through, and uses no
    more than those. *)
Lemma drain_queues_done fuel : forall cs ads acts w,
  open_ ads -> calm w -> within (server w) -> (cost cs <= length ads)%nat -> (length ads < fuel)%nat ->
  reached acts \/ (stuck (server w) /\ ahead cs) ->
  exists left acts' w', drain_queues fuel a cs ads acts w = (Drained, left, acts', w') /\
    (length ads <= length left + cost cs)%nat /\ reached acts'.
Proof.
  induction fuel as [|fuel IH]; intros cs ads acts w HO HC HW Hco Hf HR; [lia|]. cbn [drain_queues].
  destruct (existsb _ cs) eqn:Ex.
  2: { exists ads, acts, w. split_and!; [done|lia|]. destruct HR as [|[_ Hah]]; [done|]. apply ahead_live, live_exists in Hah. congruence. }
  apply live_exists in Ex. destruct (drain_pass a cs ads acts w) as [[[[cs2 ads2] acts2] w2] e2] eqn:ED.
  assert (Hlc : (live cs <= length ads)%nat) by (pose proof (live_cost cs); lia).
  destruct (drain_pass_done _ _ _ _ _ _ _ _ _ HO HC HW Hlc ED) as [-> O C W Us Co Pr Re].
  destruct (IH cs2 ads2 acts2 w2) as (left & acts' & w' & -> & Hl & Hr); [done..|lia|lia| |].
  - destruct HR as [HR|[Hst Hah]].
    + left. destruct Pr as [k ->]. by apply reached_app.
    + destruct (Re Hst) as [|[? ?]]; [by left|right; auto].
  - exists left, acts', w'. split_and!; [done|lia|done].
Qed.
End drains.

(** The pages a tick may need: of each queue, one for each entry that can be
    pending, and one. *)
Definition pages (U : string -> list (Z * Z)) (queues : list string) : nat := sum_list ((fun q => S (length (U q))) <$> queues).

Lemma pages_cost U queues : cost U ((fun q => (q, Some "-"%string)) <$> queues) = pages U queues.
Proof.
  unfold cost, pages. rewrite <- list_fmap_compose. induction queues as [|q' queues IH]; [done|]. cbn. rewrite IH. do 3 f_equal.
  induction (U q') as [|x l IHl]; [done|]. cbn. by rewrite IHl.
Qed.

(** C4. A recovery tick ends and skips nothing it must take. On a connection that
    holds ([calm]: no torn trip), with the entries that can be pending among [U],
    and a gate that opens once for each page: the tick drains every queue, with at
    most one page for each entry that can be pending, and one for each queue, and
    it hands over the entry [i] that is pending and idle past what its own
    envelope asks, not held here, and left alone by the other clients. They may
    make other rows appear, vanish or age between its round trips, and the gate
    may allow pages as small as one entry. *)
Theorem recovery_reaches_every_stuck_entry {R : Redis} (P : PelViews R) (PL : PelLaws R P) {S0 : Serde} decode_consumers
    a q i m U queues ticks ads (w : world) :
  answers_recovery R -> is_u64 (ra_vt_ms a) ->
  let w1 := if ticks mod CONSUMER_REAP_EVERY_TICKS =? 0
            then reap_stale_consumers decode_consumers queues (ra_consumer a) (ra_vt_ms a) w else w in
  calm a q i m (within U) w1 -> within U (server w1) -> stuck a q i m (server w1) -> q ∈ queues ->
  open_ q i ads -> (pages U queues <= length ads)%nat ->
  exists left acts w', recovery_tick decode_consumers a queues false ticks ads w = (Drained, left, acts, wrap64 (ticks + 1), w') /\
    (length ads <= length left + pages U queues)%nat /\
    exists act, act ∈ acts /\ act_queue act = q /\ act_id act = id_text i.
Proof.
  intros Hacc Hvt w1 HC HW Hst Hq HO Hco. unfold recovery_tick. fold w1.
  destruct (drain_queues_done Hacc a q i m U Hvt (S (length ads)) ((fun q => (q, Some "-"%string)) <$> queues) ads [] w1)
    as (left & acts & w' & -> & Hl & Hr); [done..|by rewrite pages_cost|lia| |].
  - right. split; [done|]. exists "-"%string. split; [|done]. by apply (list_elem_of_fmap_2 (fun q => (q, Some "-"%string))).
  - exists left, acts, w'. split_and!; [done|by rewrite <- pages_cost|exact Hr].
Qed.

Definition sample_args : recovery_args := {| ra_consumer := "me"; ra_vt_ms := 60000; ra_redis_timeout := 5 |}.
Definition sample_ads : list admission := replicate 4 {| ad_views :=
    [{| gv_shutting_down := false; gv_permits := 0; gv_backlog := 0; gv_cpu_started := false |};
     {| gv_shutting_down := false; gv_permits := 1; gv_backlog := 0; gv_cpu_started := false |}]; ad_held := ∅ |}.

Definition sample_ids (_ : string) : list (Z * Z) := [(5, 0); (6, 0); (7, 0)].

Lemma sample_within : @within MiniRedis.mini MiniRedis.mini_pels sample_ids sample_server.
Proof.
  intros q' x. change (@pending_of MiniRedis.mini MiniRedis.mini_pels sample_server (q_key q')) with
    (MiniRedis.pels (MiniRedis.stream_at sample_server (q_key q'))).
  destruct (decide (q_key q' = "cauli:q:q"%string)) as [->|Hk]; [by rewrite sample_at|]. rewrite sample_elsewhere by done.
  by intros ?%not_elem_of_nil.
Qed.

Lemma sample_stuck :
  @stuck MiniRedis.mini MiniRedis.mini_pels Toy.serde sample_args "q" (7, 0) {["e"%string := "z"%string]} sample_server.
Proof.
  unfold stuck. change (q_key "q") with "cauli:q:q"%string. cbn [pending_of fields_of MiniRedis.mini_pels]. rewrite sample_at.
  split; [|done]. exists (left_over (7, 0)). split_and!; [by right; right; left|done|vm_compute; discriminate].
Qed.

(** The last of three entries, in pages of one. *)
Lemma recovery_reaches_every_stuck_entry_witness : exists left acts w',
  @recovery_tick MiniRedis.mini (fun _ => None) Toy.serde sample_args ["q"%string] false 1 sample_ads sample_world = (Drained, left, acts, 2, w') /\
  exists act, act ∈ acts /\ act_queue act = "q"%string /\ act_id act = "7-0"%string.
Proof.
  destruct (@recovery_reaches_every_stuck_entry _ MiniRedis.mini_pels MiniRedis.mini_pel_laws Toy.serde (fun _ => None) sample_args "q" (7, 0)
    {["e"%string := "z"%string]} sample_ids ["q"%string] 1 sample_ads sample_world) as (left & acts & w' & E & _ & H).
  - apply MiniRedis.mini_answers.
  - clear. split; cbn; mlia.
  - exact (List.Forall_nil _).
  - exact sample_within.
  - exact sample_stuck.
  - left.
  - clear. apply Forall_replicate. exists 1. split; reflexivity.
  - clear. cbn. lia.
  - exists left, acts, w'. split; [exact E|exact H].
Defined.
