(* ===== verification/Reaping.v ===== *)
(** What the reaper deletes is empty ([consumer_is_reapable],
    [reap_stale_consumers] of [worker/src/loops.rs]): over the documented replies
    of XINFO CONSUMERS and XGROUP DELCONSUMER, a consumer it deletes takes no
    pending entry along, unless the consumer came back after it was read. *)
From S2P Require Import Prelude Ctx Redis Broker Loops Server.
Open Scope Z_scope.

(** A group's consumers: name, pending entries, idle time. *)
Class ConsumerViews (R : Redis) := consumers_of : rstate -> string -> list (string * Z * Z).

(** The consumer holds no pending entry, or is not there. *)
Definition unladen {R : Redis} {CV : ConsumerViews R} (s : rstate) (k c : string) : Prop :=
  forall n idle, (c, n, idle) ∈ consumers_of s k -> n = 0.

Class ConsumerLaws (R : Redis) (CV : ConsumerViews R) (decode_consumers : reply -> option (list (string * Z * Z))) : Prop := {
  consumers_named s k : NoDup ((fun c : string * Z * Z => c.1.1) <$> consumers_of s k);
  xinfo_consumers_law k s r s' l : exec ["XINFO"; "CONSUMERS"; k; "cauli"]%string s = (r, s') -> decode_consumers r = Some l ->
    s' = s /\ l = consumers_of s k;
  (** The reply counts the pending entries that went with it; no other consumer
      is given any. *)
  delconsumer_law k c s r s' : exec ["XGROUP"; "DELCONSUMER"; k; "cauli"; c]%string s = (r, s') ->
    (unladen s k c -> accepted r -> r = RInt 0) /\ forall k' c', unladen s k' c' -> unladen s' k' c';
}.

Definition is_reap (c : cmd) : Prop := exists k n, c = ["XGROUP"; "DELCONSUMER"; k; "cauli"; n]%string.

(** A reaped consumer took no pending entry with it. *)
Definition reaps_empty (t : list (cmd * reply)) : Prop := forall c r, (c, r) ∈ t -> is_reap c -> accepted r -> r = RInt 0.

Lemma reaps_empty_app t1 t2 : reaps_empty t1 -> reaps_empty t2 -> reaps_empty (t1 ++ t2).
Proof. intros H1 H2 c r [Hin|Hin]%elem_of_app; [by apply H1|by apply H2]. Qed.

Lemma reaps_empty_none t : Forall (fun c => ~ is_reap c) t.*1 -> reaps_empty t.
Proof.
  intros HF c r Hin Hc _. rewrite Forall_forall in HF. exfalso. apply (HF c); [|done].
  by apply (list_elem_of_fmap_2' fst t (c, r)).
Qed.

(** What a turn that led from [w] to [w'] said, and the trips it used. *)
Definition said_in {R : Redis} (w w' : world) : list (cmd * reply) := drop (length (trace w)) (trace w').
Definition used_in {R : Redis} (w w' : world) : list trip := take (length (trips w) - length (trips w')) (trips w).

Section reap.
Context {R : Redis} {CV : ConsumerViews R} (decode_consumers : reply -> option (list (string * Z * Z)))
  {CL : ConsumerLaws R CV decode_consumers}.
Context (self : string) (vt_ms : Z).

(** A reply of a turn found the consumer empty and idle past the threshold. *)
Definition reported (t : list (cmd * reply)) (k c : string) : Prop := exists r l idle,
  (["XINFO"; "CONSUMERS"; k; "cauli"]%string, r) ∈ t /\ decode_consumers r = Some l /\
  (c, 0, idle) ∈ l /\ consumer_reap_idle_ms vt_ms <= idle /\ c <> self.

(** What happens before a round trip gives none of [D] an entry. *)
Definition rests (D : string -> string -> Prop) (t : trip) : Prop :=
  forall s k c, D k c -> unladen s k c -> unladen (env_before t s) k c.

(** No consumer the turn found so took an entry before the turn was over. *)
Definition unraced (w w' : world) : Prop := Forall (rests (reported (said_in w w'))) (used_in w w').

(** One command, as it leaves the world. *)
Lemma query_trip c (w : world) o w' : query c w = (o, w') -> exists s t j, (s = server w \/ exists tr, tr ∈ take j (trips w) /\ s = env_before tr (server w)) /\
  trace w' = trace w ++ t /\ trips w' = drop j (trips w) /\
  ((t = [] /\ server w' = s /\ forall r, o <> Ok r) \/
   exists r, t = [(c, r)] /\ exec c s = (r, server w') /\ forall r', o = Ok r' -> r' = r).
Proof.
  assert (HR : forall r (o : result rerr reply) s1 s2, exec c s1 = (r, s2) -> match extract_error r with Some e => Err e | None => Ok r end = o ->
    exists r0, [(c, r)] = [(c, r0)] /\ exec c s1 = (r0, s2) /\ forall r', o = Ok r' -> r' = r0).
  { intros r o0 s1 s2 E <-. exists r. split_and!; [done|done|]. destruct (extract_error r); congruence. }
  unfold query, round_trip. destruct (trips w) as [|tr ts] eqn:Et; cbn.
  - destruct (exec c (server w)) as [r s1] eqn:E. cbn. intros [= Eo <-]. exists (server w), [(c, r)], 0%nat. cbn.
    split_and!; [by left|done|done|right; by eapply HR].
  - assert (HS : exists tr0, tr0 ∈ [tr] /\ env_before tr (server w) = env_before tr0 (server w)) by (exists tr; split; [left|done]).
    destruct (torn tr) as [[|k]|]; cbn; [|rewrite take_nil; cbn|];
      [|destruct (exec c (env_before tr (server w))) as [r s1] eqn:E; cbn; intros [= Eo <-]; exists (env_before tr (server w)), [(c, r)], 1%nat; cbn..].
    + intros [= <- <-]. exists (env_before tr (server w)), [], 1%nat. cbn. rewrite take_0. split_and!; [by right|done|done|]. left. by split_and!.
    + rewrite take_0. split_and!; [by right|done|done|]. right. exists r. split_and!; [done|done|]. intros r' E'. congruence.
    + rewrite take_0. split_and!; [by right|done|done|right; by eapply HR].
Qed.

Lemma rests_state D j (w : world) s k c : Forall (rests D) (take j (trips w)) ->
  (s = server w \/ exists tr, tr ∈ take j (trips w) /\ s = env_before tr (server w)) -> D k c -> unladen (server w) k c -> unladen s k c.
Proof.
  intros HF [->|(tr & Hin & ->)] HD Hu; [done|]. rewrite Forall_forall in HF. by apply (HF tr Hin).
Qed.

(** Deleting consumers, each known to be empty. *)
Lemma delete_consumers_empty D k names : forall w, exists t j,
  trace (delete_consumers k names w) = trace w ++ t /\ trips (delete_consumers k names w) = drop j (trips w) /\
  (Forall (rests D) (take j (trips w)) -> (forall n, n ∈ names -> D k n /\ unladen (server w) k n) -> reaps_empty t).
Proof.
  induction names as [|n names IH]; intros w; cbn [delete_consumers].
  { exists [], 0%nat. rewrite app_nil_r. split_and!; [done|done|]. intros _ _ c r ?%not_elem_of_nil. done. }
  destruct (query _ w) as [o w1] eqn:E. cbn [snd]. destruct (query_trip _ _ _ _ E) as (s & t1 & j1 & Hs & T1 & P1 & HC).
  destruct (IH w1) as (t2 & j2 & T2 & P2 & H2). exists (t1 ++ t2), (j1 + j2)%nat.
  rewrite T2, T1, P2, P1, app_assoc, drop_drop. split_and!; [done|done|]. intros HF Hn. rewrite P1 in H2.
  rewrite <- take_take_drop in HF. apply Forall_app in HF as [HF1 HF2].
  assert (HU : forall c, D k c -> unladen (server w) k c -> unladen s k c /\ unladen (server w1) k c).
  { intros c Hd Hu. pose proof (rests_state D j1 w s k c HF1 Hs Hd Hu) as Hu1. split; [done|].
    destruct HC as [(_ & -> & _)|(r & _ & Ex & _)]; [done|]. by apply (delconsumer_law _ _ _ _ _ Ex). }
  apply reaps_empty_app.
  - destruct HC as [(-> & _)|(r & -> & Ex & _)]; [by intros c r ?%not_elem_of_nil|].
    intros c r' [= -> ->]%list_elem_of_singleton _ Ha. destruct (Hn n ltac:(left)) as [Hd Hu].
    destruct (HU n Hd Hu) as [Hu1 _]. by apply (delconsumer_law _ _ _ _ _ Ex).
  - apply H2; [done|]. intros c Hin. destruct (Hn c ltac:(by right)) as [Hd Hu]. split; [done|]. by apply HU.
Qed.

(** What the reaper picks from a true report is empty. *)
Lemma reapable_empty s k n : n ∈ reapable self (consumer_reap_idle_ms vt_ms) (consumers_of s k) ->
  unladen s k n /\ n <> self /\ exists idle, (n, 0, idle) ∈ consumers_of s k /\ consumer_reap_idle_ms vt_ms <= idle.
Proof.
  unfold reapable. intros ([[c p] i] & Hin & Hc)%list_elem_of_omap. destruct (consumer_is_reapable _ _ _ _ _) eqn:E; [|done].
  injection Hc as ->. unfold consumer_is_reapable in E. apply andb_true_iff in E as [[Hp%Z.eqb_eq Hs]%andb_true_iff Hi%Z.leb_le]. subst p.
  split_and!; [|intros ->; by rewrite String.eqb_refl in Hs|by exists i]. intros p' i' Hin'.
  apply list_elem_of_lookup in Hin as [a Ha], Hin' as [b Hb]. pose proof (consumers_named s k) as ND.
  assert (a = b) as ->; [|congruence]. eapply NoDup_lookup; [exact ND|by rewrite list_lookup_fmap, Ha|by rewrite list_lookup_fmap, Hb].
Qed.

Lemma reap_queues_empty D queues : forall w, exists t j,
  trace (reap_stale_consumers decode_consumers queues self vt_ms w) = trace w ++ t /\
  trips (reap_stale_consumers decode_consumers queues self vt_ms w) = drop j (trips w) /\
  (Forall (rests D) (take j (trips w)) -> (forall k c, reported t k c -> D k c) -> reaps_empty t).
Proof.
  induction queues as [|q queues IH]; intros w; cbn [reap_stale_consumers].
  { exists [], 0%nat. rewrite app_nil_r. split_and!; [done|done|]. intros _ _ c r ?%not_elem_of_nil. done. }
  destruct (query _ w) as [o w1] eqn:E. destruct (query_trip _ _ _ _ E) as (s & t1 & j1 & Hs & T1 & P1 & HC).
  set (w2 := match o with Ok r => _ | Err _ => w1 end).
  assert (H2 : exists t2 j2, trace w2 = trace w1 ++ t2 /\ trips w2 = drop j2 (trips w1) /\
    (Forall (rests D) (take j2 (trips w1)) -> (forall k c, reported t1 k c -> D k c) -> reaps_empty t2)).
  { assert (H0 : exists t2 j2, trace w1 = trace w1 ++ t2 /\ trips w1 = drop j2 (trips w1) /\
      (Forall (rests D) (take j2 (trips w1)) -> (forall k c, reported t1 k c -> D k c) -> reaps_empty t2)).
    { exists [], 0%nat. rewrite app_nil_r. split_and!; [done|done|]. intros _ _ c r ?%not_elem_of_nil. done. }
    unfold w2. destruct o as [r|e]; [|exact H0]. destruct (decode_consumers r) as [l|] eqn:Ed; [|exact H0].
    destruct HC as [(_ & _ & Hno)|(r0 & Et & Ex & Hr)]; [by destruct (Hno r)|]. rewrite <- (Hr r eq_refl) in Et, Ex.
    destruct (xinfo_consumers_law _ _ _ _ _ Ex Ed) as [Es El].
    destruct (delete_consumers_empty D (q_key q) (reapable self (consumer_reap_idle_ms vt_ms) l) w1) as (t2 & j2 & ? & ? & H2).
    exists t2, j2. split_and!; [done|done|]. intros HF HD. apply H2; [done|]. intros n Hn. rewrite El, <- Es in Hn.
    destruct (reapable_empty _ _ _ Hn) as (Hu & Hne & i & Hin & Hi). split; [|done]. apply HD. exists r, l, i. rewrite Et, El, <- Es.
    split_and!; [left|by rewrite El, <- Es in Ed|done..]. }
  destruct H2 as (t2 & j2 & T2 & P2 & H2). destruct (IH w2) as (t3 & j3 & T3 & P3 & H3). exists (t1 ++ t2 ++ t3), (j1 + j2 + j3)%nat.
  rewrite T3, T2, T1, P3, P2, P1, <- !app_assoc, !drop_drop. split_and!; [done|f_equal; lia|]. intros HF HD.
  rewrite P2, P1, drop_drop in H3. rewrite P1 in H2. rewrite <- Nat.add_assoc in HF. rewrite <- take_take_drop in HF.
  apply Forall_app in HF as [_ HF]. rewrite <- take_take_drop in HF. apply Forall_app in HF as [HF2 HF3]. rewrite drop_drop in HF3.
  assert (HR : forall ta tb tc k c, reported tb k c -> reported (ta ++ tb ++ tc) k c).
  { intros ta tb tc k c (r & l & i & Hin & H'). exists r, l, i. split; [set_solver|done]. }
  apply reaps_empty_app; [|apply reaps_empty_app].
  - destruct HC as [(-> & _)|(r & -> & _)]; [by intros c r ?%not_elem_of_nil|].
    by intros c r' [= -> ->]%list_elem_of_singleton (k & n & [=]).
  - apply H2; [done|]. intros k c Hk. apply HD, (HR [] t1 (t2 ++ t3)), Hk.
  - apply H3; [done|]. intros k c Hk. apply HD. replace (t1 ++ t2 ++ t3) with ((t1 ++ t2) ++ t3 ++ []) by (by rewrite app_nil_r, app_assoc). by apply HR.
Qed.

(** A reap no deleted consumer raced took no pending entry. *)
Lemma reap_empty queues w w' : reap_stale_consumers decode_consumers queues self vt_ms w = w' -> unraced w w' ->
  exists t, trace w' = trace w ++ t /\ reaps_empty t.
Proof.
  intros <- HU. destruct (reap_queues_empty (reported (said_in w (reap_stale_consumers decode_consumers queues self vt_ms w))) queues w) as (t & j & T & P & H').
  exists t. split; [done|]. unfold unraced in HU. apply H'.
  - unfold used_in in HU. rewrite P, length_drop in HU. destruct (decide (j <= length (trips w))%nat).
    + by replace (length (trips w) - (length (trips w) - j))%nat with j in HU by lia.
    + rewrite take_ge by lia. by rewrite take_ge in HU by lia.
  - intros k c. unfold said_in. by rewrite T, drop_app_length.
Qed.
End reap.

(** ** The concrete server reports its consumers this way *)

Module MiniReaping.
Import MiniRedis.

Definition decode_consumer (r : reply) : option (string * Z * Z) :=
  match r with RArr [RBulk c; RInt n; RInt idle] => Some (c, n, idle) | _ => None end.
Definition mini_consumers (r : reply) : option (list (string * Z * Z)) :=
  match r with RArr l => decode_all decode_consumer l | _ => None end.

#[export] Instance mini_consumer_views : ConsumerViews mini := consumers_in.

Lemma mini_unladen s k c : unladen s k c <-> forall r, r ∈ pels (stream_at s k) -> pd_consumer r <> c.
Proof.
  split.
  - intros Hu r Hr <-. specialize (Hu (Z.of_nat (length (List.filter (own (pd_consumer r)) (pels (stream_at s k)))))
      (default 0 (assoc (pd_consumer r) (joined_at s k)))).
    assert (HF : r ∈ List.filter (own (pd_consumer r)) (pels (stream_at s k))) by (apply filter_elem; split; [done|apply String.eqb_refl]).
    assert (H0 : Z.of_nat (length (List.filter (own (pd_consumer r)) (pels (stream_at s k)))) = 0).
    { apply Hu, (list_elem_of_fmap_2' _ _ (pd_consumer r)); [|reflexivity]. apply elem_of_remove_dups, elem_of_app. right. by apply list_elem_of_fmap_2. }
    by destruct (List.filter _ _); [apply not_elem_of_nil in HF|].
  - intros HN n i (c' & [= -> -> _] & _)%list_elem_of_fmap. destruct (List.filter _ _) as [|r l] eqn:EF; [done|]. exfalso.
    assert (HF : r ∈ List.filter (own c') (pels (stream_at s k))) by (rewrite EF; left). apply filter_elem in HF as [Hr E%String.eqb_eq].
    by apply (HN r Hr).
Qed.

Lemma decode_consumer_rows (l : list (string * Z * Z)) :
  decode_all decode_consumer ((fun c => RArr [RBulk c.1.1; RInt c.1.2; RInt c.2]) <$> l) = Some l.
Proof. induction l as [|[[c n] i] l IH]; [done|]. cbn -[decode_consumer]. by rewrite IH. Qed.

#[export] Instance mini_consumer_laws : ConsumerLaws mini mini_consumer_views mini_consumers.
Proof.
  split.
  - intros s k. unfold consumers_of, mini_consumer_views, consumers_in. rewrite <- list_fmap_compose.
    change ((fun c : string * Z * Z => c.1.1) ∘ _) with (fun c : string => c). rewrite list_fmap_id. apply NoDup_remove_dups.
  - intros k s r s' l E D. cbn -[consumers_in] in E. injection E as <- <-. cbn -[consumers_in] in D. split; [done|].
    rewrite decode_consumer_rows in D. by injection D as <-.
  - intros k c s r s' E. cbn -[stream_at] in E. injection E as <- <-. split.
    + intros Hu _. destruct (List.filter _ _) as [|x l] eqn:EF; [done|]. exfalso.
      assert (HF : x ∈ List.filter (own c) (pels (stream_at s k))) by (rewrite EF; left). apply filter_elem in HF as [Hx E%String.eqb_eq].
      by apply (proj1 (mini_unladen s k c) Hu x Hx).
    + intros k' c'. rewrite !mini_unladen. intros HN x Hx. apply HN. destruct (decide (k' = k)) as [->|Hk].
      * rewrite at_put in Hx by apply good_with_pels, good_at. by apply filter_elem in Hx as [Hx _].
      * by rewrite at_put_ne in Hx.
Qed.
End MiniReaping.
