(* ===== verification/System.v ===== *)
(** The worker process as a whole: the loops of [worker/src/loops.rs], the
    dispatches they spawn ([worker/src/dispatch.rs]) and the flushers of
    [worker/src/broker.rs] as one step relation over one Redis. A step is a
    loop's turn on one queue; what the other loops and other processes do
    between its round trips is part of what a trip finds. *)
From S2P Require Import Prelude Float64 Backoff Envelope Stats Ctx Redis Broker Tree Pyrt Exec Dispatch Delivery Loops Server Recovery Reaping.
Open Scope Z_scope.

(** ** The process *)

(** What the process keeps between turns: the completion buffer of each of its
    queues, the entries handed over and not finished, those whose dispatch may
    still hold its [InflightEntry], and the trim's memory. *)
Record proc {R : Redis} := {
  p_world : world;
  p_bufs : gmap string (list AckReq);
  p_tasks : list recovery_act;
  p_live : list (string * string);
  p_trimmed : gmap string string;
}.

(** A recovery page: its queue and cursor, what was held then, the next cursor,
    and what it handed over. *)
Record page_turn := {
  pt_queue : string; pt_start : string; pt_held : Inflight; pt_next : option string; pt_acts : list recovery_act;
}.

Inductive pevent {R : Redis} :=
| PFetched (acts : list recovery_act)
| PRecovered (pt : page_turn)
| PRan (act : recovery_act)
| PFlushed (queue : string) (n : nat)
| PMoved (queue : string) (nows : list Z)
| PTrimmed (queue : string)
| PReaped
| PPeers (ts : list trip)
| PDropped (queue sid : string)
| PCrashed.

(** The entries whose dispatch tracks them ([InflightEntry::track]). *)
Definition guarded (acts : list recovery_act) : list (string * string) :=
  omap (fun a => match a with ASpawn sp => Some (sp_queue sp, sp_id sp) | ADeadLetter _ _ _ _ => None end) acts.

(** The in-flight map as a page finds it: its entries are of dispatches that have
    started and not ended. Redis prints an id one way. *)
Definition held_live {R : Redis} (s : proc) (held : Inflight) : Prop :=
  forall q x, holds_entry held q (id_text x) = true -> (q, id_text x) ∈ p_live s.

(** Not finished: its task is to run, or its completion waits for its answer. *)
Definition in_hand {R : Redis} (s : proc) (q i : string) : Prop :=
  (exists act, act ∈ p_tasks s /\ act_queue act = q /\ act_id act = i) \/
  exists b r, p_bufs s !! q = Some b /\ r ∈ b /\ Broker.sid r = i.

(** What other clients and the connection will do to further round trips. *)
Definition later {R : Redis} (ts : list trip) (w : world) : world :=
  {| server := server w; trace := trace w; trips := trips w ++ ts |}.

(** [AckBufs::submit]: only the worker's own queues have a buffer. *)
Definition buffered (bufs : gmap string (list AckReq)) (l : list (string * AckReq)) : gmap string (list AckReq) :=
  foldl (fun m p => match m !! p.1 with Some b => <[p.1 := b ++ [p.2]]> m | None => m end) bufs l.

Section process.
Context {R : Redis} `{Serde} (cfg : config) (de_pyresp : string -> result string PyResp) (id_only : string -> option string)
  (uniform : f64 -> f64 -> f64).
Context (xread_args : string * string -> Z -> Z -> list string -> cmd)
  (decode_streams : reply -> option (option stream_reply)) (decode_consumers : reply -> option (list (string * Z * Z))).
Context (fa : fetch_args) (ra : recovery_args) (mover_limit : Z).

(** What becomes of an entry a loop hands over: recovery dead letters past the
    limit itself, everything else is dispatched. *)
Definition run_act (act : recovery_act) (free : bool) (x : exec_answers) (s : io) : io :=
  match act with
  | ASpawn sp => spawn_dispatch cfg de_pyresp id_only uniform free (sp_queue sp) (sp_id sp) (sp_raw sp) x s
  | ADeadLetter q i raw reason => (dlq_terminal cfg id_only q i raw reason None s).2
  end.

(** The clock, the answers of executors and Redis to a dispatch, which dispatches
    have started at a recovery page, which task runs next, and what the other
    processes do next are all open. A dispatch ends, and its guard drops, some
    time after its completion was answered. *)
Inductive pstep : proc -> pevent -> proc -> Prop :=
| p_fetch s g c b spawns w' :
    fetch_turn fa g = Read c b ->
    fetch_read xread_args decode_streams fa (ra_consumer ra) c b (p_world s) = (spawns, w') ->
    pstep s (PFetched (ASpawn <$> spawns))
      {| p_world := w'; p_bufs := p_bufs s; p_tasks := p_tasks s ++ (ASpawn <$> spawns);
         p_live := p_live s ++ guarded (ASpawn <$> spawns); p_trimmed := p_trimmed s |}
| p_recover s views held q start page next acts w' :
    q ∈ fa_queues fa -> admission_open views = Some (Some page) -> held_live s held ->
    recover_page ra held q start page (p_world s) = ((next, acts), w') ->
    pstep s (PRecovered {| pt_queue := q; pt_start := start; pt_held := held; pt_next := next; pt_acts := acts |})
      {| p_world := w'; p_bufs := p_bufs s; p_tasks := p_tasks s ++ acts;
         p_live := p_live s ++ guarded acts; p_trimmed := p_trimmed s |}
| p_run s l1 act l2 free x io l :
    p_tasks s = l1 ++ act :: l2 -> ops (run_act act free x io) = ops io ++ l ->
    pstep s (PRan act)
      {| p_world := p_world s; p_bufs := buffered (p_bufs s) (submits l); p_tasks := l1 ++ l2; p_live := p_live s; p_trimmed := p_trimmed s |}
| p_flush s q b n ans w' :
    p_bufs s !! q = Some b -> flush_batch q (take n b) (p_world s) = (ans, w') ->
    pstep s (PFlushed q n)
      {| p_world := w'; p_bufs := <[q := drop n b]> (p_bufs s); p_tasks := p_tasks s; p_live := p_live s; p_trimmed := p_trimmed s |}
| p_move s q nows w' :
    q ∈ fa_queues fa -> mover_queue q mover_limit nows (p_world s) = w' ->
    pstep s (PMoved q nows) {| p_world := w'; p_bufs := p_bufs s; p_tasks := p_tasks s; p_live := p_live s; p_trimmed := p_trimmed s |}
| p_trim s q tr w' :
    q ∈ fa_queues fa -> trim_queue q (p_trimmed s) (p_world s) = (tr, w') ->
    pstep s (PTrimmed q) {| p_world := w'; p_bufs := p_bufs s; p_tasks := p_tasks s; p_live := p_live s; p_trimmed := tr |}
| p_reap s w' :
    reap_stale_consumers decode_consumers (fa_queues fa) (ra_consumer ra) (ra_vt_ms ra) (p_world s) = w' ->
    pstep s PReaped {| p_world := w'; p_bufs := p_bufs s; p_tasks := p_tasks s; p_live := p_live s; p_trimmed := p_trimmed s |}
| p_peers s ts :
    pstep s (PPeers ts)
      {| p_world := later ts (p_world s); p_bufs := p_bufs s; p_tasks := p_tasks s; p_live := p_live s; p_trimmed := p_trimmed s |}
| p_drop s q i :
    ~ in_hand s q i ->
    pstep s (PDropped q i)
      {| p_world := p_world s; p_bufs := p_bufs s; p_tasks := p_tasks s;
         p_live := filter (fun x => x <> (q, i)) (p_live s); p_trimmed := p_trimmed s |}
| p_crash s :
    pstep s PCrashed {| p_world := p_world s; p_bufs := (fun _ => []) <$> p_bufs s; p_tasks := []; p_live := []; p_trimmed := ∅ |}.

(** A process that just started, its groups created. *)
Definition proc_start (w : world) : proc :=
  {| p_world := w; p_bufs := list_to_map ((fun q => (q, [])) <$> fa_queues fa); p_tasks := []; p_live := []; p_trimmed := ∅ |}.
End process.

(** Handed over by a read or a claim. *)
Definition handed {R : Redis} (es : list pevent) (act : recovery_act) : Prop :=
  exists acts, act ∈ acts /\ (PFetched acts ∈ es \/ exists pt, PRecovered pt ∈ es /\ pt_acts pt = acts).

Lemma handed_app {R : Redis} (es es' : list pevent) act : handed es act -> handed (es ++ es') act.
Proof. intros (acts & Ha & Hin). exists acts. split; [done|]. set_solver. Qed.

(** ** What the process says to Redis *)

Inductive says : cmd -> Prop :=
| says_sent q c : sent q c -> says c
| says_read c : group_read c -> says c
| says_look op args : op ∈ look_ops -> says (op :: args)
| says_claim k c idle id : says (xclaim_one k c idle id)
| says_create k : says ["XGROUP"; "CREATE"; k; "cauli"; "0"; "MKSTREAM"]%string
| says_reap k c : says ["XGROUP"; "DELCONSUMER"; k; "cauli"; c]%string.

(** Anything else than a completion's commands and acknowledgements. *)
Definition minor (c : cmd) : Prop := says c /\ is_ack c = false.

Definition unread (c : cmd) : Prop := head c <> Some "XREADGROUP"%string.

Definition unclaimed (c : cmd) : Prop := head c <> Some "XCLAIM"%string.
Definition plain (c : cmd) : Prop := unread c /\ unclaimed c.

(** The same without reads of new entries and reaping, and without claims either. *)
Definition errand (c : cmd) : Prop := minor c /\ unread c /\ ~ is_reap c.
Definition chore (c : cmd) : Prop := minor c /\ plain c /\ ~ is_reap c.

Lemma not_reap c : head c <> Some "XGROUP"%string -> ~ is_reap c.
Proof. intros Hc (k & n & ->). by apply Hc. Qed.

Lemma chore_look op args : op ∈ look_ops -> chore (op :: args).
Proof.
  intros Ho. assert (H : is_ack (op :: args) = false /\ op <> "XREADGROUP"%string /\ op <> "XCLAIM"%string).
  { unfold look_ops in Ho. set_unfold. by destruct_or!; subst. }
  destruct H as (Ha & Hr & Hc). split; [split; [by apply says_look|done]|]. split; [split; intros [= E]; by subst|].
  apply not_reap. intros [= ->]. by repeat (apply elem_of_cons in Ho as [?|Ho]; [done|]); apply not_elem_of_nil in Ho.
Qed.

Lemma chore_create k : chore ["XGROUP"; "CREATE"; k; "cauli"; "0"; "MKSTREAM"]%string.
Proof. split; [split; [apply says_create|done]|]. split; [done|]. by intros (k' & n & [=]). Qed.

Lemma reap_minor k n : let c := ["XGROUP"; "DELCONSUMER"; k; "cauli"; n]%string in minor c /\ plain c.
Proof. split; [split; [apply says_reap|done]|done]. Qed.

Lemma chore_errand c : chore c -> errand c.
Proof. by intros (Hc & [Hu _] & Hr). Qed.

Lemma errand_claim k c idle id : errand (xclaim_one k c idle id).
Proof. split; [split; [apply says_claim|done]|]. split; [done|by apply not_reap]. Qed.

Lemma sent_plain q c : sent q c -> plain c.
Proof. by destruct 1. Qed.

Lemma sent_not_reap q c : sent q c -> ~ is_reap c.
Proof. intros Hc. apply not_reap. by destruct Hc. Qed.

Section says.
Context {R : Redis} {V : SetViews R} {N : ErrNoop R} {SL : SetLaws R V} {KL : KeyLaws R V}
  {G : GroupViews R} {T : StreamViews R} {TL : StreamLaws R V G T}.
Context (q : string).

Lemma sent_elsewhere q' c : q' <> q -> sent q' c -> exists op k args, c = op :: k :: args /\ op ∈ one_key_ops /\
  k <> q_key q /\ k <> delayed_key q.
Proof.
  intros Hq Hc. assert (H1 : q_key q' <> q_key q) by (by intros ?%q_key_inj).
  assert (H2 : delayed_key q' <> delayed_key q) by (unfold delayed_key; by intros [= E]).
  destruct Hc; do 3 eexists; (split; [reflexivity|]); (split; [set_solver|]); split; done.
Qed.

Lemma says_keeps : keeps q says.
Proof.
  intros c s r s' e Hc E HA. assert (HQ : quiet_cmd c -> alive q e s').
  { intros Hq. unfold alive. destruct (quiet_law _ _ _ _ E Hq (delayed_key q)) as [-> _].
    by destruct (quiet_law _ _ _ _ E Hq (q_key q)) as [_ ->]. }
  destruct Hc as [q' c Hs|c Hr|op args Ho|k cn idle id|k|k n]; try (apply HQ; by constructor).
  destruct (decide (q' = q)) as [->|Hq]; [by eapply sent_keeps|].
  destruct (sent_elsewhere q' c Hq Hs) as (op & k & args & -> & Ho & H1 & H2). by eapply elsewhere.
Qed.

Lemma says_no_script c : says c -> is_script c = false.
Proof.
  destruct 1 as [q' c Hs|c [Hh _]|op args Ho|k cn idle id|k|k n]; [by destruct Hs| | |done..].
  - destruct c; [done|]. by injection Hh as ->.
  - by repeat (apply elem_of_cons in Ho as [->|Ho]; [done|]); apply not_elem_of_nil in Ho.
Qed.

(** A command leaves [p] owed, or is the acknowledgement of [p]. *)
Lemma says_spares p c r : says c -> (is_reap c -> r = RInt 0) ->
  spares (q_key q) p c r \/ exists ids, c ∈ ack_pipeline q ids /\ stream_id p.1 p.2 ∈ ids.
Proof.
  destruct 1 as [q' c Hs|c Hr|op args Ho|k cn idle id|k|k n]; intros HR; cycle 1.
  { left. by apply sp_read. } { left. by apply sp_look. } { left. apply sp_claim. } { left. apply sp_create. }
  { left. apply sp_reap, HR. by exists k, n. }
  destruct (decide (q' = q)) as [->|Hq].
  2: { destruct (sent_elsewhere q' c Hq Hs) as (op & k & args & -> & Ho & H1 & H2). left. apply sp_elsewhere; [set_solver|done]. }
  destruct Hs as [i rj ttl|score e|e reason err| |ids|ids].
  1-4: left; apply sp_elsewhere; [set_solver|done].
  all: destruct (decide (stream_id p.1 p.2 ∈ ids)); [right; exists ids; split; [|done]; set_solver|left; first [by apply sp_ack|by apply sp_del]].
Qed.
End says.

(** ** An entry in Redis *)

Section owed.
Context {R : Redis} {V : SetViews R} {N : ErrNoop R} {SL : SetLaws R V} {KL : KeyLaws R V}
  {G : GroupViews R} {GL : GroupLaws R G} {T : StreamViews R} {TL : StreamLaws R V G T}.
Context (q : string) (p : Z * Z) (P : cmd -> Prop) (Q : rstate -> Prop).

Abbreviation sid_of := (stream_id p.1 p.2).

(** What holds of an entry while nobody acknowledged it: [Q] implies that it is
    owed, and lives through every command of [P] that spares the entry. *)
Record guards : Prop := {
  gd_plain c : plain c -> P c;
  gd_spares c s r s' : P c -> exec c s = (r, s') -> spares (q_key q) p c r -> Q s -> Q s';
  gd_owed s : Q s -> owed s (q_key q) p;
}.
Context (HG : guards).

(** Another process delivers in order, and leaves the entry to this one. *)
Definition peer (t : trip) : Prop := forall s, group_step (q_key q) s (env_before t s) /\ (Q s -> Q (env_before t s)).
Definition peers (w : world) : Prop := Forall peer (trips w).

Definition held_or_gone (w : world) : Prop := Q (server w) \/ let_go q w sid_of.

(** Whatever it is answered, the command spares [p] or acknowledges it. *)
Definition fair (c : cmd) : Prop := is_script c = false /\ P c /\ forall r, (is_reap c -> r = RInt 0) -> accepted r ->
  spares (q_key q) p c r \/ exists ids, c ∈ ack_pipeline q ids /\ sid_of ∈ ids.

Lemma says_fair c : says c -> P c -> fair c.
Proof. intros Hc HP. split; [by apply says_no_script|]. split; [done|]. intros r Hr _. by apply says_spares. Qed.

Lemma held_error c s e s' : is_script c = false -> exec c s = (RErr e, s') -> Q s -> Q s'.
Proof. by intros Hc ->%(err_noop _ _ _ _ Hc). Qed.

Lemma exec_all_held cs : forall s rs s', Forall fair cs -> exec_all cs s = (rs, s') -> reaps_empty (zip cs rs) ->
  Q s -> Q s' \/ exists c r ids, (c, r) ∈ zip cs rs /\ c ∈ ack_pipeline q ids /\ sid_of ∈ ids.
Proof.
  induction cs as [|c cs IH]; intros s rs s' HF E HR HO; cbn in E; [injection E as <- <-; by left|].
  destruct (exec c s) as [r s1] eqn:E1. destruct (exec_all cs s1) as [rs1 s2] eqn:E2. injection E as <- <-.
  apply Forall_cons in HF as [Hc HF]. cbn [zip_with] in *.
  assert (H1 : Q s1 \/ exists ids, c ∈ ack_pipeline q ids /\ sid_of ∈ ids).
  { destruct (extract_error r) eqn:Er.
    - destruct r; try done. left. eapply held_error; [apply Hc|done..].
    - destruct Hc as (_ & HPc & Hc). destruct (Hc r) as [Hs|Hn]; [intros Hp; by apply (HR c r); [left|..]|done|left; by eapply gd_spares|by right]. }
  destruct H1 as [H1|(ids & ? & ?)]; [|right; exists c, r, ids; split_and!; [left|done..]].
  destruct (IH _ _ _ HF E2) as [|(c' & r' & ids & ? & ?)]; [intros c' r' ?; apply HR; by right|done|by left|].
  right. exists c', r', ids. split; [by right|done].
Qed.

Lemma let_go_grows w w' t i : trace w' = trace w ++ t -> let_go q w i -> let_go q w' i.
Proof.
  intros E (c & rep & ids & Hin & H'). exists c, rep, ids. split; [|done]. rewrite E. apply elem_of_app. by left.
Qed.

Lemma peers_first w : peers w ->
  let t := match trips w with t :: _ => t | [] => {| env_before s := s; torn := None |} end in
  peer t /\ Forall peer (tail (trips w)).
Proof.
  unfold peers. destruct (trips w) as [|t ts]; cbn; [|by intros [??]%Forall_cons].
  intros _. split; [|done]. intros s. split; [apply group_step_refl|done].
Qed.

Lemma round_trip_peers cs w : peers w -> peers (round_trip cs w).2.
Proof.
  intros HP. destruct (peers_first w HP) as [_ H2]. unfold round_trip. destruct (match trips w with t :: _ => t | [] => _ end).
  by destruct (exec_all _ _).
Qed.

Lemma round_trip_held cs w : Forall fair cs -> peers w -> held_or_gone w ->
  exists t, trace (round_trip cs w).2 = trace w ++ t /\ (reaps_empty t -> held_or_gone (round_trip cs w).2 /\ peers (round_trip cs w).2).
Proof.
  intros HF HP HO. destruct (peers_first w HP) as [H1 H2]. unfold round_trip.
  set (t := match trips w with t :: _ => t | [] => _ end) in *.
  set (run := match torn t with None => cs | Some k => take k cs end).
  assert (Hrun : Forall fair run) by (unfold run; destruct (torn t); [by apply Forall_take|done]).
  destruct (exec_all run _) as [rs s] eqn:E. cbn. eexists. split; [done|]. intros HR. split; [|exact H2].
  destruct HO as [HO|HO]; [|right; by eapply let_go_grows].
  destruct (exec_all_held _ _ _ _ Hrun E HR) as [|(c & r & ids & ? & ? & ?)]; [by apply H1|by left|].
  right. exists c, r, ids. split; [|done]. cbn. apply elem_of_app. by right.
Qed.

(** Both hold again, unless a reap takes the entry, and the trace only grew. *)
Definition stays (w w' : world) : Prop := exists t, trace w' = trace w ++ t /\
  (peers w -> held_or_gone w -> reaps_empty t -> held_or_gone w' /\ peers w').

Lemma stays_grows w w' : stays w w' -> exists t, trace w' = trace w ++ t.
Proof. intros (t & E & _). by exists t. Qed.

Lemma stays_refl w : stays w w.
Proof. exists []. by rewrite app_nil_r. Qed.

Lemma reaps_empty_parts t1 t2 : reaps_empty (t1 ++ t2) -> reaps_empty t1 /\ reaps_empty t2.
Proof. intros H. split; intros c r Hin; apply H, elem_of_app; auto. Qed.

Lemma stays_trans w1 w2 w3 : stays w1 w2 -> stays w2 w3 -> stays w1 w3.
Proof.
  intros (t1 & E1 & H1) (t2 & E2 & H2). exists (t1 ++ t2). split; [by rewrite E2, E1, app_assoc|].
  intros HP HO [HR1 HR2]%reaps_empty_parts. destruct (H1 HP HO HR1). by apply H2.
Qed.

Lemma traffic_stays w w' : traffic fair w w' -> stays w w'.
Proof.
  induction 1 as [w|cs w w' Hcs _ IH]; [apply stays_refl|]. eapply stays_trans; [|exact IH].
  destruct (round_trip_grows cs w) as [t Ht]. exists t. split; [done|]. intros HP HO HR.
  destruct (round_trip_held cs w Hcs HP HO) as (t' & Ht' & H'). rewrite Ht in Ht'. apply app_inv_head in Ht' as <-. by apply H'.
Qed.

(** Of a turn that reaps nothing. *)
Lemma stays_unreaped w w' : stays w w' -> traffic (fun c => ~ is_reap c) w w' \/ trace w' = trace w ->
  peers w -> held_or_gone w -> held_or_gone w' /\ peers w'.
Proof.
  intros (t & Ht & HS) HU HP HO. apply HS; [done|done|]. apply reaps_empty_none. destruct HU as [(t' & Ht' & HF)%traffic_trace|Hs].
  - rewrite Ht in Ht'. by apply app_inv_head in Ht' as ->.
  - rewrite <- (app_nil_r (trace w)), Ht in Hs. by apply app_inv_head in Hs as ->.
Qed.
End owed.

(** ** The mover and the trim *)

Lemma acked_below_talks {R : Redis} q' : talks chore (acked_below q').
Proof.
  apply talks_bind; [by apply talks_query, chore_look; set_solver|]. intros r. apply talks_bind; [apply talks_decode|]. intros gs.
  destruct (cauli_group gs); [|apply talks_ret]. apply talks_bind.
  - apply talks_bind; [by apply talks_query, chore_look; set_solver|]. intros r'. apply talks_bind; [apply talks_decode|].
    intros l. apply talks_ret.
  - intros [o|]; [apply talks_ret|]. destruct (String.eqb _ _); apply talks_ret.
Qed.

Section turns.
Context {R : Redis} {V : SetViews R} {N : ErrNoop R} {SL : SetLaws R V} {KL : KeyLaws R V}
  {G : GroupViews R} {GL : GroupLaws R G} {T : StreamViews R} {TL : StreamLaws R V G T}.
Context (q : string) (p : Z * Z) (P : cmd -> Prop) (Q : rstate -> Prop) (HG : guards q p P Q).
Abbreviation stays := (stays q p Q).

Lemma call_held c s r s' : call c s = (r, s') -> plain c -> (forall r, spares (q_key q) p c r) -> Q s -> Q s'.
Proof.
  unfold call. destruct (exec c s) as [x s1] eqn:E. intros [= _ <-] Hc Hs. eapply gd_spares; [exact HG|by eapply gd_plain|exact E|apply Hs].
Qed.

Lemma delayed_not_q q' : delayed_key q' <> q_key q.
Proof. done. Qed.

Lemma move_all_held q' due : forall s r s', move_all (delayed_key q') (q_key q') due s = (r, s') ->
  Q s -> Q s'.
Proof.
  induction due as [|e due IH]; intros s r s'; cbn; [by intros [= _ <-]|]. unfold mbind, L_bind.
  assert (HA : forall r, spares (q_key q) p ["XADD"; q_key q'; "*"; "e"; e]%string r).
  { intros r1. destruct (decide (q' = q)) as [->|Hq]; [apply sp_append|]. apply sp_elsewhere; [set_solver|by intros ?%q_key_inj]. }
  assert (HZ : forall r, spares (q_key q) p ["ZREM"; delayed_key q'; e]%string r).
  { intros r1. by apply sp_elsewhere; [set_solver|]. }
  destruct (call ["XADD"; _; _; _; _]%string s) as [[x|er] s1] eqn:C1; intros H HO;
    pose proof (call_held _ _ _ _ C1 ltac:(done) HA HO) as H1; [|by injection H as _ <-].
  destruct (call ["ZREM"; _; _]%string s1) as [[y|er] s2] eqn:C2;
    pose proof (call_held _ _ _ _ C2 ltac:(done) HZ H1) as H2; [by eapply IH|by injection H as _ <-].
Qed.

Lemma mover_lua_held q' now lim s r s' : MOVER_LUA (delayed_key q') (q_key q') now lim s = (r, s') ->
  Q s -> Q s'.
Proof.
  unfold MOVER_LUA, mbind, L_bind. destruct (call _ s) as [[x|er] s1] eqn:C1; intros H HO;
    (pose proof (call_held _ _ _ _ C1 ltac:(done) ltac:(intros r1; by apply sp_elsewhere; [set_solver|]) HO) as H1); [|by injection H as _ <-].
  destruct (move_all _ _ _ s1) as [[u|er] s2] eqn:E; injection H as _ <-; by eapply move_all_held.
Qed.

Lemma run_mover_stays q' now limit w r w' : run_mover q' now limit w = (r, w') -> stays w w'.
Proof.
  unfold run_mover, invoke. pose proof (peers_first q Q w) as HF.
  set (t := match trips w with t :: _ => t | [] => _ end) in *.
  destruct (MOVER_LUA _ _ _ _ (env_before t (server w))) as [o s1] eqn:E.
  assert (HS : forall s2, s2 = env_before t (server w) \/ s2 = s1 ->
    stays w {| server := s2; trace := trace w; trips := tail (trips w) |}).
  { intros s2 Hs. exists []. split; [by rewrite app_nil_r|]. intros HP HO _. destruct (HF HP) as [H1 H2].
    split; [|exact H2]. destruct HO as [HO|HO]; [left|by right]. cbn. apply (proj2 (H1 _)) in HO.
    destruct Hs as [->| ->]; [done|by eapply mover_lua_held]. }
  destruct (torn t) as [[|k]|]; intros [= _ <-]; apply HS; auto.
Qed.

Lemma mover_rounds_stays q' limit n : forall nows w, stays w (mover_rounds n q' limit nows w).
Proof.
  induction n as [|n IH]; intros nows w; cbn; [apply stays_refl|].
  destruct (run_mover q' _ limit w) as [[k|e] w1] eqn:E; apply run_mover_stays in E; [|done].
  destruct (k <? limit); [done|]. by eapply stays_trans.
Qed.

(** The boundary was read before the trim runs. *)
Lemma trim_acked_stays q' b w w0 w1 r w2 : peers q Q w0 -> acked_below q' w0 = (Ok (Some b), w1) ->
  trim_acked q' b w1 = (r, w2) -> w = w1 -> stays w w2.
Proof.
  intros HP0 HA Ht ->. unfold trim_acked, mbind, M_bind in Ht.
  destruct (query _ w1) as [o w3] eqn:E.
  assert (w2 = w3) as -> by (destruct o; cbn in Ht; by injection Ht).
  destruct (decide (q' = q)) as [->|Hq].
  2: { eapply traffic_stays; [exact HG|]. eapply traffic_query; [|exact E]. split; [done|]. split; [by eapply gd_plain|]. intros r' _ _. left.
       apply sp_elsewhere; [set_solver|by intros ?%q_key_inj]. }
  assert (HK : group_kept (q_key q) w0).
  { eapply Forall_impl; [exact HP0|]. intros t Ht' s. apply Ht'. }
  destruct (acked_below_spec _ _ _ _ HK HA) as (pb & Hpb & Hle).
  apply query_world in E as ->. destruct (round_trip_grows [["XTRIM"; q_key q; "MINID"; b]%string] w1) as [t Ht'].
  exists t. split; [done|]. intros HP [HO|HO] HR.
  - assert (HF : Forall (fair q p P) [["XTRIM"; q_key q; "MINID"; b]%string]).
    { constructor; [|done]. split; [done|]. split; [by eapply gd_plain|]. intros r' _ _. left.
      apply (sp_trim _ _ _ pb); [done|]. apply (Hle (server w1)); [apply group_step_refl|]. by eapply gd_owed. }
    destruct (round_trip_held q p P Q HG _ w1 HF HP (or_introl HO)) as (t' & E' & H'). rewrite Ht' in E'. apply app_inv_head in E' as <-. by apply H'.
  - split; [right; by eapply let_go_grows|by apply round_trip_peers].
Qed.

Lemma says_stays w w' : traffic (fun c => says c /\ P c) w w' -> stays w w'.
Proof. intros H. eapply traffic_stays, traffic_mono; [exact HG| |exact H]. intros c [Hc HP]. by apply says_fair. Qed.

Lemma chore_stays w w' : traffic chore w w' -> stays w w'.
Proof. intros H. eapply says_stays, traffic_mono; [|exact H]. intros c ([Hc _] & Hu & _). split; [done|by eapply gd_plain]. Qed.

Lemma trim_queue_stays q' st w tr w' : peers q Q w -> trim_queue q' st w = (tr, w') -> stays w w'.
Proof.
  intros HP. unfold trim_queue. pose proof (chore_stays _ _ (acked_below_talks q' w)) as H1.
  destruct (acked_below q' w) as [[[b|]|e] w1] eqn:EA; cbn [snd] in H1; [|by intros [= _ <-]..].
  case_bool_decide; [by intros [= _ <-]|].
  destruct (trim_acked q' b w1) as [[n|e] w2] eqn:ET; intros [= _ <-]; (eapply stays_trans; [exact H1|]);
    by eapply trim_acked_stays.
Qed.
End turns.

(** ** What each loop says *)

Section loops_talk.
Context {R : Redis} `{Serde}.
Context (xread_args : string * string -> Z -> Z -> list string -> cmd)
  (decode_streams : reply -> option (option stream_reply)) (decode_consumers : reply -> option (list (string * Z * Z))).

Lemma world_of {A} (P : cmd -> Prop) (m : M A) w r w' : talks P m -> m w = (r, w') -> traffic P w w'.
Proof. intros HT E. specialize (HT w). by rewrite E in HT. Qed.

Lemma ensure_groups_talks queues : talks chore (ensure_groups queues).
Proof.
  induction queues as [|q queues IH]; intros w; [constructor|]. cbn [ensure_groups].
  destruct (query _ w) as [r w1] eqn:E.
  assert (H1 : traffic chore w w1) by (eapply traffic_query; [apply chore_create|exact E]).
  destruct r as [r|e]; [eapply traffic_trans; [exact H1|apply IH]|].
  destruct (contains _ _); [eapply traffic_trans; [exact H1|apply IH]|exact H1].
Qed.

Definition reads_streams (a : fetch_args) (consumer : string) : Prop :=
  forall n b, group_read (xread_args ("cauli", consumer)%string n b (q_key <$> fa_queues a)).

Lemma errands_minor w w' : traffic errand w w' -> traffic minor w w'.
Proof. apply traffic_mono. by intros c [Hc _]. Qed.

Lemma chores_errands w w' : traffic chore w w' -> traffic errand w w'.
Proof. apply traffic_mono. exact chore_errand. Qed.

Lemma talks_mono {A} (P Q : cmd -> Prop) (m : M A) : (forall c, P c -> Q c) -> talks P m -> talks Q m.
Proof. intros HPQ HT w. by eapply traffic_mono. Qed.

Lemma fetch_talks a consumer n b w : reads_streams a consumer ->
  traffic (fun c => minor c /\ unclaimed c /\ ~ is_reap c) w (fetch_read xread_args decode_streams a consumer n b w).2.
Proof.
  intros HX. unfold fetch_read. destruct (query _ w) as [r w1] eqn:E.
  assert (H1 : traffic (fun c => minor c /\ unclaimed c /\ ~ is_reap c) w w1).
  { eapply traffic_query; [|exact E]. specialize (HX n b). pose proof (says_read _ HX) as HS.
    destruct HX as [HX _]. destruct (xread_args _ n b _) as [|op l]; [done|]. cbn in HX. injection HX as ->. split; [done|]. split; [done|by apply not_reap]. }
  destruct r as [r|e]; [destruct (decode_streams r) as [[]|]; exact H1|].
  destruct (is_nogroup e); [|exact H1]. eapply traffic_trans; [exact H1|eapply traffic_mono; [|apply ensure_groups_talks]; by intros c (? & [_ ?] & ?)].
Qed.

Lemma xpending_talks queue vt start page : talks errand (xpending_idle queue vt start page).
Proof. apply talks_bind; [apply talks_query, chore_errand, chore_look; set_solver|]. intros r. apply talks_decode. Qed.

Lemma looks_talk {A} (f : list (list (string * gmap string string)) -> A) (g : string -> cmd) ids : (forall i, errand (g i)) ->
  talks errand (rs ← query_pipe (g <$> ids); replies ← decode_replies rs; mret (f replies)).
Proof.
  intros Hg. apply talks_bind; [apply talks_pipe; by apply Forall_fmap, Forall_true|]. intros rs.
  apply talks_bind; [intros w; constructor|]. intros l. apply talks_ret.
Qed.

Lemma peek_talks queue ids : talks errand (peek_entries queue ids).
Proof. destruct ids; [apply talks_ret|]. apply looks_talk. intros i. apply chore_errand, chore_look. set_solver. Qed.

Lemma xclaim_talks queue consumer vt ids : talks errand (xclaim_entries queue consumer vt ids).
Proof. apply looks_talk. intros i. apply errand_claim. Qed.

Lemma recover_talks a held q start page w : traffic errand w (recover_page a held q start page w).2.
Proof.
  unfold recover_page. destruct (xpending_idle _ _ _ _ w) as [r1 w1] eqn:E1. eapply world_of in E1; [|apply xpending_talks].
  destruct r1 as [pend|e]; [|exact E1].
  destruct (peek_entries _ _ w1) as [r2 w2] eqn:E2. eapply world_of in E2; [|apply peek_talks].
  pose proof (traffic_trans _ _ _ _ E1 E2) as E12. destruct r2 as [peeked|e]; [|exact E12].
  case_bool_decide; [exact E12|]. destruct (xclaim_entries _ _ _ _ w2) as [r3 w3] eqn:E3.
  eapply world_of in E3; [|apply xclaim_talks]. pose proof (traffic_trans _ _ _ _ E12 E3). by destruct r3.
Qed.

Lemma delete_consumers_talks k names : forall w, traffic (fun c => minor c /\ plain c) w (delete_consumers (q_key k) names w).
Proof.
  induction names as [|n names IH]; intros w; cbn; [constructor|]. eapply traffic_trans; [|apply IH].
  apply talks_query, reap_minor.
Qed.

Lemma reap_talks self vt queues : forall w, traffic (fun c => minor c /\ plain c) w (reap_stale_consumers decode_consumers queues self vt w).
Proof.
  induction queues as [|q queues IH]; intros w; cbn; [constructor|].
  destruct (query _ w) as [r w1] eqn:E. eapply (world_of (fun c => minor c /\ plain c)) in E;
    [|apply (talks_mono chore); [by intros c (? & ? & _)|apply talks_query, chore_look; set_solver]].
  eapply traffic_trans; [|apply IH]. destruct r as [r|e]; [|exact E]. destruct (decode_consumers r); [|exact E].
  eapply traffic_trans; [exact E|apply delete_consumers_talks].
Qed.
End loops_talk.

(** ** What the process owes and what it recorded *)

Section ledger.
Context {R : Redis} {V : SetViews R} {N : ErrNoop R} {SL : SetLaws R V} {KL : KeyLaws R V}
  {G : GroupViews R} {GL : GroupLaws R G} {T : StreamViews R} {TL : StreamLaws R V G T}.
Context `{Serde} (cfg : config) (de_pyresp : string -> result string PyResp) (id_only : string -> option string)
  (uniform : f64 -> f64 -> f64).
Context (xread_args : string * string -> Z -> Z -> list string -> cmd)
  (decode_streams : reply -> option (option stream_reply)) (decode_consumers : reply -> option (list (string * Z * Z))).
Context (fa : fetch_args) (ra : recovery_args) (mover_limit : Z).
Context (HX : reads_streams xread_args fa (ra_consumer ra)).

Abbreviation pstep := (pstep cfg de_pyresp id_only uniform xread_args decode_streams decode_consumers fa ra mover_limit).
Abbreviation run_act := (run_act cfg de_pyresp id_only uniform).

(** A completion of queue [q] that an entry handed over accounts for. *)
Definition justified (es : list pevent) (q : string) (r : AckReq) : Prop :=
  exists act, handed es act /\ act_queue act = q /\ act_id act = Broker.sid r /\ outcome_of cfg q (act_raw act) (extra_cmds r).

Lemma justified_app es es' q r : justified es q r -> justified (es ++ es') q r.
Proof. intros (act & Ha & H'). exists act. split; [by apply handed_app|done]. Qed.

(** What running an entry submits is an outcome of it. *)
Lemma run_act_submits act free x io l : ops (run_act act free x io) = ops io ++ l ->
  forall p, p ∈ submits l -> p.1 = act_queue act /\ Broker.sid p.2 = act_id act /\ outcome_of cfg (act_queue act) (act_raw act) (extra_cmds p.2).
Proof.
  destruct act as [q i raw reason|sp]; cbn [System.run_act act_queue act_id act_raw].
  2: { intros E. by apply (dispatch_submits _ _ _ _ _ _ _ _ _ _ _ E). }
  destruct (dlq_terminal_spec cfg id_only (fun _ => True) (fun _ => True) q i raw reason None tt io ltac:(done))
    as (_ & new & E & HC & _).
  assert (E' : ops (dlq_terminal cfg id_only q i raw reason None io).2 = ops io ++ new).
  { rewrite <- E. unfold mbind, D_bind. by destruct (dlq_terminal _ _ _ _ _ _ _ io) as [[[]|] s1]. }
  rewrite E'. intros ->%app_inv_head p Hp. destruct HC as (_ & r & Hs & Hsid & store & -> & _). rewrite Hs in Hp.
  apply list_elem_of_singleton in Hp as ->. split_and!; [done..|]. apply oc_dead. by left.
Qed.

Lemma buffered_elem l : forall bufs q r, r ∈ default [] (buffered bufs l !! q) -> r ∈ default [] (bufs !! q) \/ (q, r) ∈ l.
Proof.
  induction l as [|[q0 r0] l IH]; intros bufs q r; cbn; [by left|]. intros [Hr|Hr]%IH; [|right; by right].
  destruct (bufs !! q0) as [b|] eqn:E; [|by left]. destruct (decide (q0 = q)) as [->|Hq].
  - rewrite lookup_insert_eq in Hr. cbn in Hr. rewrite E. cbn.
    apply elem_of_app in Hr as [Hr|Hr]; [by left|]. apply list_elem_of_singleton in Hr as ->. right. left.
  - rewrite lookup_insert_ne in Hr by done. by left.
Qed.

(** Every buffered completion is justified, and so is every id let go, by one
    whose commands landed. *)
Record ledger (es : list pevent) (s : proc) : Prop := {
  lg_tasks : forall act, act ∈ p_tasks s -> handed es act;
  lg_bufs : forall q r, r ∈ default [] (p_bufs s !! q) -> justified es q r;
  lg_gone : forall q i, let_go q (p_world s) i -> exists r, Broker.sid r = i /\ justified es q r /\ landed (trace (p_world s)) r;
}.

Lemma ledger_later es e s : ledger es s -> ledger (es ++ [e]) s.
Proof.
  intros [H1 H2 H3]. split; [eauto using handed_app|eauto using justified_app|].
  intros q i Hi. destruct (H3 q i Hi) as (r & ? & ? & ?). exists r. eauto using justified_app.
Qed.

(** Nothing was acknowledged. *)
Lemma unacked_let_go w w' : traffic (fun c => is_ack c = false) w w' ->
  exists t, trace w' = trace w ++ t /\ forall q i, let_go q w' i -> let_go q w i.
Proof.
  intros (t & E & HF)%traffic_trace. exists t. split; [done|]. intros q i (c & rep & ids & Hin & Hc & Hi).
  rewrite E in Hin. apply elem_of_app in Hin as [Hin|Hin]; [by exists c, rep, ids|].
  rewrite Forall_forall in HF. specialize (HF c (list_elem_of_fmap_2' _ _ (c, rep) _ Hin eq_refl)). cbn in HF.
  by rewrite (ack_pipeline_is_ack q ids c Hc) in HF.
Qed.

Lemma ack_pipeline_key q q' ids ids' c : c ∈ ack_pipeline q ids -> c ∈ ack_pipeline q' ids' -> q = q'.
Proof.
  intros [->|[->|[]%not_elem_of_nil]%elem_of_cons]%elem_of_cons [E|[E|[]%not_elem_of_nil]%elem_of_cons]%elem_of_cons;
    injection E; done || (intros _ E'; by apply q_key_inj).
Qed.

Lemma landed_more t t' r : landed t r -> landed (t ++ t') r.
Proof. intros (a & b & c & -> & Hb). exists a, b, (c ++ t'). by rewrite <- !app_assoc. Qed.

(** A turn that acknowledges nothing, and may hand over entries. *)
Lemma ledger_unacked es e s w' acts lv tr : ledger es s -> traffic (fun c => is_ack c = false) (p_world s) w' ->
  (forall act, act ∈ acts -> handed [e] act) ->
  ledger (es ++ [e]) {| p_world := w'; p_bufs := p_bufs s; p_tasks := p_tasks s ++ acts; p_live := lv; p_trimmed := tr |}.
Proof.
  intros HL (t & E & HG)%unacked_let_go HA. apply (ledger_later es e) in HL. destruct HL as [H1 H2 H3].
  split; cbn [p_world p_bufs p_tasks]; [|done|].
  { intros act [Ha|Ha]%elem_of_app; [by apply H1|]. destruct (HA act Ha) as (acts' & Hin & Hor).
    exists acts'. split; [done|]. destruct Hor as [?|(pt & ? & ?)]; [left|right; exists pt]; set_solver. }  intros q i Hi%HG. destruct (H3 q i Hi) as (r & ? & ? & ?).
  exists r. rewrite E. eauto using landed_more.
Qed.

(** What the trim says besides. *)
Definition trims (c : cmd) : Prop := minor c \/ exists k b, c = ["XTRIM"; k; "MINID"; b]%string.

Lemma trims_unacked w w' : traffic trims w w' -> traffic (fun c => is_ack c = false) w w'.
Proof. apply traffic_mono. by intros c [[_ Hc]|(k & b & ->)]. Qed.

Lemma trims_keeps q : keeps q trims.
Proof.
  intros c s r s' e [[Hc _]|(k & b & ->)] E HA; [by eapply says_keeps|]. unfold alive.
  destruct (quiet_law _ _ _ _ E (qc_trim k b) (delayed_key q)) as [-> _].
  by destruct (quiet_law _ _ _ _ E (qc_trim k b) (q_key q)) as [_ ->].
Qed.

Lemma minor_trims w w' : traffic minor w w' -> traffic trims w w'.
Proof. apply traffic_mono. intros c. by left. Qed.

Lemma trim_queue_traffic q st w : traffic (fun c => trims c /\ ~ is_reap c) w (trim_queue q st w).2.
Proof.
  unfold trim_queue. assert (H1 : traffic (fun c => trims c /\ ~ is_reap c) w (acked_below q w).2).
  { eapply traffic_mono; [|apply acked_below_talks]. intros c (? & _ & ?). split; [by left|done]. }
  destruct (acked_below q w) as [[[b|]|e] w1]; [|exact H1..]. case_bool_decide; [exact H1|].
  assert (H2 : traffic (fun c => trims c /\ ~ is_reap c) w1 (trim_acked q b w1).2).
  { apply talks_bind; [apply talks_query; split; [right; by do 2 eexists|by apply not_reap]|]. intros r. apply talks_decode. }
  destruct (trim_acked q b w1) as [[n|e] w2]; by eapply traffic_trans.
Qed.

(** A mover tick leaves the trace as it is. *)
Lemma mover_rounds_trace q limit n : forall nows w, trace (mover_rounds n q limit nows w) = trace w.
Proof.
  induction n as [|n IH]; intros nows w; cbn; [done|].
  destruct (run_mover q _ limit w) as [[k|e] w1] eqn:E; (assert (HT : trace w1 = trace w); [|done||rewrite <- HT; by destruct (k <? limit)]).
  all: unfold run_mover, invoke in E; destruct (match trips w with t :: _ => t | [] => _ end) as [env [[|k']|]];
    destruct (MOVER_LUA _ _ _ _ _); by injection E as _ <-.
Qed.

Lemma mover_rounds_kept q known q' limit n : forall nows w, kept q known w -> kept q known (mover_rounds n q' limit nows w).
Proof.
  induction n as [|n IH]; intros nows w HK; cbn; [done|].
  destruct (run_mover q' _ limit w) as [[k|e] w1] eqn:E; destruct (mover_kept q known q' _ _ _ _ _ HK E) as [HK1 _]; [|done].
  destruct (k <? limit); [done|]. by apply IH.
Qed.

(** A flush lets go what it wrote, of its own queue. *)
Lemma ledger_flush es s q b n ans w' : ledger es s -> p_bufs s !! q = Some b ->
  flush_batch q (take n b) (p_world s) = (ans, w') ->
  ledger (es ++ [PFlushed q n])
    {| p_world := w'; p_bufs := <[q := drop n b]> (p_bufs s); p_tasks := p_tasks s; p_live := p_live s; p_trimmed := p_trimmed s |}.
Proof.
  intros HL Hb E. apply (ledger_later es (PFlushed q n)) in HL. destruct HL as [H1 H2 H3].
  destruct (flush_spec _ _ _ _ _ E) as (wr & rf & t1 & t2 & o & [Hs Ht Hp1 Hp2 Hn Hland _ _]).
  assert (HB : forall r, r ∈ take n b -> justified (es ++ [PFlushed q n]) q r).
  { intros r Hr. apply H2. rewrite Hb. cbn. by eapply subseteq_take. }
  assert (HW : forall r, r ∈ wr -> r ∈ take n b) by (intros r Hr; rewrite <- Hs; apply elem_of_app; by left).
  assert (Hw1 : forall c, c ∈ t1.*1 -> is_ack c = false).
  { intros c Hc. eapply elem_of_prefix in Hc; [|exact Hp1]. apply list_elem_of_In, in_concat in Hc as (l & Hl & Hc).
    apply list_elem_of_In, list_elem_of_fmap in Hl as (r & -> & Hr). apply list_elem_of_In in Hc.
    destruct (HB r Hr) as (act & _ & _ & _ & Ho). apply outcome_sent in Ho. rewrite Forall_forall in Ho. by apply Ho. }
  split; cbn [p_world p_bufs p_tasks]; [done| |].
  - intros q' r. destruct (decide (q' = q)) as [->|Hq]; [|rewrite lookup_insert_ne by done; apply H2].
    rewrite lookup_insert_eq. cbn. intros Hr. apply H2. rewrite Hb. cbn. by eapply subseteq_drop.
  - intros q' i Hi. assert (HC : let_go q' (p_world s) i \/ (q' = q /\ i ∈ Broker.sid <$> wr)).
    { destruct (decide (q' = q)) as [->|Hq].
      - apply (let_go_flush q _ _ _ _ _ Ht Hw1 Hp2) in Hi as [Hi|[_ Hi]]; auto.
      - destruct Hi as (c & rep & ids & Hin & Hc & Hi). left. exists c, rep, ids. split; [|done].
        rewrite Ht in Hin. apply elem_of_app in Hin as [Hin|Hin]; [done|]. exfalso.
        apply elem_of_app in Hin as [Hin|Hin]; apply (list_elem_of_fmap_2' fst _ _ c) in Hin; try done.
        + apply Hw1 in Hin. by rewrite (ack_pipeline_is_ack q' ids c Hc) in Hin.
        + eapply elem_of_prefix in Hin; [|exact Hp2]. apply Hq. eapply ack_pipeline_key; [exact Hc|exact Hin]. }
    destruct HC as [HC|[-> HC]].
    + destruct (H3 q' i HC) as (r & ? & ? & ?). exists r. rewrite Ht. eauto using landed_more.
    + apply list_elem_of_fmap in HC as (r & -> & Hr). exists r. split_and!; [done|by apply HB, HW|].
      rewrite Ht. apply landed_app, landed_more, Hland, Hr.
Qed.

(** What the other processes do to further round trips. *)
Definition arriving (e : pevent) : list trip := match e with PPeers ts => ts | _ => [] end.
Definition is_fetch (e : pevent) : Prop := match e with PFetched _ => True | _ => False end.

(** Only a fetch reads, only recovery claims, only a reap deletes consumers. *)
Definition may_say (e : pevent) (c : cmd) : Prop :=
  match e with PFetched _ => unclaimed c | PRecovered _ => unread c | _ => plain c end.
Definition reaps_only (e : pevent) (c : cmd) : Prop := match e with PReaped => True | _ => ~ is_reap c end.

(** The other processes keep the delayed retries of [q]. *)
Definition civil (q : string) (e : pevent) : Prop := Forall (offers q) (arriving e).

Definition owed_entry (q : string) (p : Z * Z) (s : rstate) : Prop := owed s (q_key q) p.

(** They also leave the entry to this process. *)
Definition leaves (q : string) (p : Z * Z) (e : pevent) : Prop := civil q e /\ Forall (peer q (owed_entry q p)) (arriving e).

(** If it is a reap, it took no pending entry. *)
Definition took_none (e : pevent) (s s' : proc) : Prop :=
  match e with PReaped => exists t, trace (p_world s') = trace (p_world s) ++ t /\ reaps_empty t | _ => True end.

(** What holds of every turn: what was known stays, and so does what holds of an
    entry, of every turn that says nothing beyond [P]. *)
Record turn_ok (q : string) (p : Z * Z) (P : cmd -> Prop) (Q : rstate -> Prop) (es : list pevent) (e : pevent) (s s' : proc) : Prop := {
  to_ledger : ledger (es ++ [e]) s';
  to_grows : exists t, trace (p_world s') = trace (p_world s) ++ t;
  to_kept : Forall (offers q) (arriving e) -> forall known, kept q known (p_world s) -> kept q known (p_world s');
  to_stays : (forall c, may_say e c -> P c) -> Forall (peer q Q) (arriving e) -> took_none e s s' ->
    peers q Q (p_world s) -> held_or_gone q p Q (p_world s) -> held_or_gone q p Q (p_world s') /\ peers q Q (p_world s');
}.

Section turns.
Context (q : string) (p : Z * Z) (P : cmd -> Prop) (Q : rstate -> Prop) (HG : guards q p P Q).
Abbreviation turn_ok := (turn_ok q p P Q).

Lemma minor_turn es e s w' acts lv : ledger es s -> traffic (fun c => minor c /\ may_say e c /\ reaps_only e c) (p_world s) w' ->
  (forall act, act ∈ acts -> handed [e] act) ->
  turn_ok es e s {| p_world := w'; p_bufs := p_bufs s; p_tasks := p_tasks s ++ acts; p_live := lv; p_trimmed := p_trimmed s |}.
Proof.
  intros HL HT HA. assert (HM : traffic minor (p_world s) w') by (eapply traffic_mono; [|exact HT]; by intros c [Hc _]).
  split; cbn [p_world].
  - apply ledger_unacked; [done|by apply trims_unacked, minor_trims|done].
  - by eapply traffic_grows.
  - intros _ known. eapply traffic_kept; [apply trims_keeps|by apply minor_trims].
  - intros HF _ HU HP HO. assert (HS : stays q p Q (p_world s) w').
    { eapply says_stays, traffic_mono; [exact HG| |exact HT]. intros c ([Hc _] & Hm & _). split; [done|by apply HF]. }
    assert (HC : e = PReaped \/ forall c, reaps_only e c -> ~ is_reap c) by (destruct e; cbn; auto). destruct HC as [->|HN].
    + destruct HS as (t & Ht & HS). destruct HU as (t' & Ht' & HR). cbn [p_world] in Ht'. rewrite Ht in Ht'.
      apply app_inv_head in Ht' as <-. by apply HS.
    + eapply stays_unreaped; [exact HS|left|done..]. eapply traffic_mono; [|exact HT]. intros c (_ & _ & Hr). by apply HN.
Qed.

Lemma run_turn es act free x io l s l1 l2 : ledger es s -> p_tasks s = l1 ++ act :: l2 ->
  ops (run_act act free x io) = ops io ++ l ->
  turn_ok es (PRan act) s
    {| p_world := p_world s; p_bufs := buffered (p_bufs s) (submits l); p_tasks := l1 ++ l2; p_live := p_live s; p_trimmed := p_trimmed s |}.
Proof.
  intros HL Ht E. pose proof (run_act_submits _ _ _ _ _ E) as HS. split; [|exists []; by rewrite app_nil_r|done|done].
  apply (ledger_later es (PRan act)) in HL. destruct HL as [H1 H2 H3].
  assert (HA : handed (es ++ [PRan act]) act) by (apply H1; rewrite Ht; apply elem_of_app; right; by left).
  split; cbn [p_world p_bufs p_tasks]; [| |done].
  - intros a Ha. apply H1. rewrite Ht. set_solver.
  - intros q' r [Hr|Hr]%buffered_elem; [by apply H2|]. destruct (HS _ Hr) as (Hq & Hsid & Ho). cbn [fst snd] in *. subst q'.
    exists act. by split_and!.
Qed.

Lemma flush_turn es s q' b n ans w' : ledger es s -> p_bufs s !! q' = Some b ->
  flush_batch q' (take n b) (p_world s) = (ans, w') ->
  turn_ok es (PFlushed q' n) s
    {| p_world := w'; p_bufs := <[q' := drop n b]> (p_bufs s); p_tasks := p_tasks s; p_live := p_live s; p_trimmed := p_trimmed s |}.
Proof.
  intros HL Hb E. assert (HT : traffic (fun c => says c /\ plain c /\ ~ is_reap c) (p_world s) w').
  { assert (HS : forall c, sent q' c -> says c /\ plain c /\ ~ is_reap c)
      by (intros c Hc; split_and!; [by eapply says_sent|by eapply sent_plain..|by eapply sent_not_reap]).
    eapply flush_traffic; [|intros ids; eapply Forall_impl; [apply (acks_sent q')|exact HS]|exact E].
    apply Forall_forall. intros r Hr. destruct (lg_bufs _ _ HL q' r) as (act & _ & _ & _ & Ho).
    { rewrite Hb. cbn. by eapply subseteq_take. }
    apply outcome_sent in Ho. eapply Forall_impl; [exact Ho|]. intros c [Hc _]. by apply HS. }
  split; cbn [p_world].
  - by eapply ledger_flush.
  - by eapply traffic_grows.
  - intros _ known. eapply traffic_kept; [apply says_keeps|]. eapply traffic_mono; [|exact HT]. by intros c [Hc _].
  - intros _ _ _. eapply stays_unreaped; [|left; eapply traffic_mono; [|exact HT]; by intros c (_ & _ & ?)].
    eapply says_stays, traffic_mono; [exact HG| |exact HT]. intros c (Hc & Hu & _). split; [done|by eapply gd_plain].
Qed.

Lemma peers_turn es s ts : ledger es s ->
  turn_ok es (PPeers ts) s {| p_world := later ts (p_world s); p_bufs := p_bufs s; p_tasks := p_tasks s; p_live := p_live s; p_trimmed := p_trimmed s |}.
Proof.
  intros HL. split; cbn [p_world arriving].
  - destruct HL as [H1 H2 H3]. by apply ledger_later.
  - exists []. by rewrite app_nil_r.
  - intros HF known (HO & HN & HK). split_and!; [by apply Forall_app|done..].
  - intros _ HF _ HP HO. split; [done|]. by apply Forall_app.
Qed.

Lemma pstep_ok es s e s' : ledger es s -> pstep s e s' -> turn_ok es e s s'.
Proof.
  intros HL Hs. destruct Hs as [s g c b spawns w' _ E|s views held q' start page next acts w' _ _ _ E|s l1 act l2 free x io l Ht E
    |s q' b n ans w' Hb E|s q' nows w' _ E|s q' tr w' _ E|s w' E|s ts|s q' i _|s].
  - apply minor_turn; [done| |].
    + pose proof (fetch_talks xread_args decode_streams fa (ra_consumer ra) c b (p_world s) HX) as HT. by rewrite E in HT.
    + intros act Ha. exists (ASpawn <$> spawns). split; [done|]. left. by left.
  - apply minor_turn; [done| |].
    + pose proof (recover_talks ra held q' start page (p_world s)) as HT. by rewrite E in HT.
    + intros act Ha. exists acts. split; [done|]. right. eexists. split; [by left|done].
  - by eapply run_turn.
  - by eapply flush_turn.
  - subst w'. unfold mover_queue. split; cbn [p_world].
    + destruct HL as [H1 H2 H3]. apply ledger_later. split; cbn [p_world p_bufs p_tasks]; [done..|].
      intros q0 i Hi. assert (HT : trace (mover_rounds MOVER_ROUNDS_PER_TICK q' (Z.max mover_limit 1) nows (p_world s)) = trace (p_world s)) by apply mover_rounds_trace.
      rewrite HT. apply H3. by eapply let_go_same.
    + exists []. by rewrite mover_rounds_trace, app_nil_r.
    + intros _ known HK. by apply mover_rounds_kept.
    + intros _ _ _. eapply stays_unreaped; [by eapply mover_rounds_stays|right; apply mover_rounds_trace].
  - pose proof (trim_queue_traffic q' (p_trimmed s) (p_world s)) as HT. rewrite E in HT. cbn in HT. split; cbn [p_world].
    + rewrite <- (app_nil_r (p_tasks s)). apply ledger_unacked; [done| |by intros act ?%not_elem_of_nil].
      eapply trims_unacked, traffic_mono; [|exact HT]. by intros c [? _].
    + by eapply traffic_grows.
    + intros _ known. eapply traffic_kept; [apply trims_keeps|]. eapply traffic_mono; [|exact HT]. by intros c [? _].
    + intros _ _ _ HP. eapply stays_unreaped; [by eapply trim_queue_stays|left; eapply traffic_mono; [|exact HT]; by intros c [_ ?]|done].
  - rewrite <- (app_nil_r (p_tasks s)). apply minor_turn; [done| |by intros act ?%not_elem_of_nil].
    subst w'. eapply traffic_mono; [|apply reap_talks]. by intros c [? ?].
  - by apply peers_turn.
  - split; cbn [p_world]; [|exists []; by rewrite app_nil_r|done|done]. apply ledger_later. by destruct HL as [H1 H2 H3].
  - split; cbn [p_world]; [|exists []; by rewrite app_nil_r|done|done]. apply ledger_later. destruct HL as [H1 H2 H3].
    split; cbn [p_world p_bufs p_tasks]; [by intros act ?%not_elem_of_nil| |done].
    intros q' r. rewrite lookup_fmap. destruct (p_bufs s !! q'); cbn; by intros ?%not_elem_of_nil.
Qed.
End turns.

(** No consumer a reap found empty and idle came back before it was deleted. *)
Definition reap_unraced {CV : ConsumerViews R} (e : pevent) (s s' : proc) : Prop :=
  match e with PReaped => unraced decode_consumers (ra_consumer ra) (ra_vt_ms ra) (p_world s) (p_world s') | _ => True end.

Lemma unraced_took_none {CV : ConsumerViews R} {CL : ConsumerLaws R CV decode_consumers} s e s' :
  pstep s e s' -> reap_unraced e s s' -> took_none e s s'.
Proof. intros [| | | | | |s0 w' E| | |] HU; try done. exact (reap_empty _ _ _ _ _ _ E HU). Qed.
End ledger.

Section theorems.
Context (R : Redis) (V : SetViews R) (N : ErrNoop R) (SL : SetLaws R V) (KL : KeyLaws R V)
  (G : GroupViews R) (GL : GroupLaws R G) (T : StreamViews R) (TL : StreamLaws R V G T).
Context (S0 : Serde) (cfg : config) (de_pyresp : string -> result string PyResp) (id_only : string -> option string)
  (uniform : f64 -> f64 -> f64).
Context (xread_args : string * string -> Z -> Z -> list string -> cmd)
  (decode_streams : reply -> option (option stream_reply)) (decode_consumers : reply -> option (list (string * Z * Z))).
Context (fa : fetch_args) (ra : recovery_args) (mover_limit : Z).

Abbreviation pstep := (pstep cfg de_pyresp id_only uniform xread_args decode_streams decode_consumers fa ra mover_limit).

(** An entry is owed whatever is said to Redis. *)
Lemma owed_guards q p : guards q p (fun _ => True) (owed_entry q p).
Proof. split; [done| |done]. intros c s r s' _. apply spares_law. Qed.

Lemma step_ok q p es s e s' : reads_streams xread_args fa (ra_consumer ra) -> ledger cfg es s -> pstep s e s' ->
  turn_ok cfg q p (fun _ => True) (owed_entry q p) es e s s'.
Proof. intros HX. apply (pstep_ok _ _ _ _ _ _ _ _ _ _ HX q p _ _ (owed_guards q p)). Qed.

Lemma psteps_kept q known es s es' s' : reads_streams xread_args fa (ra_consumer ra) -> ledger cfg es s ->
  steps pstep s es' s' -> Forall (civil q) es' -> kept q known (p_world s) -> ledger cfg (es ++ es') s' /\ kept q known (p_world s').
Proof.
  intros HX HL Hs. revert es HL. induction Hs as [s|s1 e s2 es' s3 H1 H2 IH]; intros es HL HC HK; [by rewrite app_nil_r|].
  apply Forall_cons in HC as [Hc HC].
  destruct (step_ok q (0, 0) es s1 e s2 HX HL H1) as [L2 _ K2 _].
  destruct (IH _ L2 HC (K2 Hc _ HK)). by rewrite <- app_assoc in *.
Qed.

Lemma ledger_start w : trace w = [] -> ledger cfg [] (proc_start fa w).
Proof.
  intros Ht. split; cbn.
  - by intros act ?%not_elem_of_nil.
  - intros q r. destruct (list_to_map _ !! q) as [b|] eqn:E; cbn; [|by intros ?%not_elem_of_nil].
    apply elem_of_list_to_map_2, list_elem_of_fmap in E as (q' & [= -> ->] & _). by intros ?%not_elem_of_nil.
  - intros q i (c & rep & ids & Hin & _). rewrite Ht in Hin. by apply not_elem_of_nil in Hin.
Qed.

Context (CV : ConsumerViews R) (CL : ConsumerLaws R CV decode_consumers).

(** The turns of a run in which no reaped consumer comes back. *)
Definition pstep_unraced (s : proc) (e : pevent) (s' : proc) : Prop := pstep s e s' /\ reap_unraced decode_consumers ra e s s'.

Lemma psteps_ok q known p es s es' s' : reads_streams xread_args fa (ra_consumer ra) -> ledger cfg es s ->
  kept q known (p_world s) -> peers q (owed_entry q p) (p_world s) -> held_or_gone q p (owed_entry q p) (p_world s) ->
  steps pstep_unraced s es' s' -> Forall (leaves q p) es' ->
  ledger cfg (es ++ es') s' /\ kept q known (p_world s') /\ held_or_gone q p (owed_entry q p) (p_world s').
Proof.
  intros HX HL HK HP HO Hs HC. revert es HL HK HP HO HC.
  induction Hs as [s|s1 e s2 es' s3 [H1 HU] H2 IH]; intros es HL HK HP HO HC; [by rewrite app_nil_r|].
  apply Forall_cons in HC as [[Hc He] HC]. destruct (step_ok q p es s1 e s2 HX HL H1) as [L2 _ K2 S2].
  destruct (S2 ltac:(done) He (unraced_took_none _ _ _ _ _ _ _ _ _ _ _ _ _ H1 HU) HP HO) as [O2 P2]. destruct (IH _ L2 (K2 Hc _ HK) P2 O2 HC) as (? & ? & ?). by rewrite <- app_assoc in *.
Qed.

(** C1. No task is lost by a worker process, whole: fetch, recovery, dispatch,
    flush, mover, trim and reap in any order, torn trips, refused commands and
    crashes included. An entry that is in a stream, pending or not delivered, at
    some moment is so at every later one, until the process acknowledged it; and
    then it had been handed over by a read or a claim, and an outcome of what was
    handed over had been accepted by Redis: a dead letter that keeps the text, the
    result of its task, or a retry with one attempt more, which still waits in the
    delayed set or was appended to the stream. Trims and recovery never remove
    it, nor does the reaper, which deletes what it read to be empty: it is assumed
    only that a consumer read empty and idle past the threshold takes no entry
    before that turn ends ([reap_unraced]). The other processes, which may act
    before any round trip, leave the entry to this one. *)
Theorem process_loses_no_task q p w es1 s1 es2 s2 :
  fresh q w -> reads_streams xread_args fa (ra_consumer ra) ->
  steps pstep (proc_start fa w) es1 s1 -> steps pstep_unraced s1 es2 s2 -> Forall (civil q) es1 -> Forall (leaves q p) es2 ->
  peers q (owed_entry q p) (p_world s1) -> owed (server (p_world s1)) (q_key q) p ->
  owed (server (p_world s2)) (q_key q) p \/
  exists act r, handed (es1 ++ es2) act /\ act_queue act = q /\ act_id act = stream_id p.1 p.2 /\
    Broker.sid r = stream_id p.1 p.2 /\ outcome_of cfg q (act_raw act) (extra_cmds r) /\ landed (trace (p_world s2)) r /\
    forall score text, extra_cmds r = [zadd q score text] -> alive q text (server (p_world s2)).
Proof.
  intros [Ht Ho] HX Hs1 Hs2 HC1 HC2 HP HO. pose proof (ledger_start w Ht) as HL0.
  destruct (psteps_kept q (fun _ => False) _ _ _ _ HX HL0 Hs1 HC1) as [HL1 HK1].
  { split_and!; [exact Ho|done|]. intros score e rep. cbn. rewrite Ht. by intros ?%not_elem_of_nil. }
  destruct (psteps_ok q _ p _ _ _ _ HX HL1 HK1 HP (or_introl HO) Hs2 HC2) as (HL2 & (_ & _ & HK2) & [HO2|HG]); [by left|right].
  destruct (lg_gone _ _ _ HL2 q _ HG) as (r & Hr & (act & Ha & Hq & Hi & Hout) & Hl).
  exists act, r. split_and!; [done|done|congruence|done|done|done|]. intros score text Ex.
  destruct Hl as (x & b & c & Htr & Hb & Hacc). rewrite Ex in Hb. destruct b as [|[c0 rep] [|]]; try done. cbn in Hb, Hacc.
  injection Hb as ->. apply Forall_cons in Hacc as [Hacc _]. apply (HK2 score text rep); [|exact Hacc].
  rewrite Htr. apply elem_of_app. right. apply elem_of_app. left. left.
Qed.
End theorems.

(** ** A run: an entry is fetched, dead lettered and acknowledged, an old consumer reaped *)

Definition mini_xread (gc : string * string) (n b : Z) (ks : list string) : cmd := (["XREADGROUP"; "GROUP"; gc.2; "1"] ++ ks)%list%string.

Definition mini_entry (r : reply) : option (string * gmap string (option string)) :=
  match MiniRedis.decode_entry r with Some p => Some (p.1, Some <$> p.2) | None => None end.
Definition mini_stream (r : reply) : option (string * list (string * gmap string (option string))) :=
  match r with RArr (RBulk k :: l) => Some (k, omap mini_entry l) | _ => None end.
Definition mini_decode (r : reply) : option (option stream_reply) := match r with RArr l => Some (Some (omap mini_stream l)) | _ => None end.

Definition fresh_stream : MiniRedis.strm :=
  {| MiniRedis.log := [((1, 0), "x"%string)]; MiniRedis.given := (0, 0); MiniRedis.top := (1, 0); MiniRedis.pels := []; MiniRedis.said := ["x"%string] |}.
Definition fresh_world : @world MiniRedis.mini :=
  @Build_world MiniRedis.mini {| MiniRedis.zs := ∅; MiniRedis.streams := {["cauli:q:q"%string := fresh_stream]};
    MiniRedis.joined := {["cauli:q:q"%string := [("old"%string, 1000000)]]} |} [] [].

Definition mini_fa : fetch_args := {| fa_queues := ["q"%string]; fa_io_concurrency := 10; fa_batch := 64; fa_redis_timeout := 5 |}.
Definition open_gate : gate_view := {| gv_shutting_down := false; gv_permits := 10; gv_backlog := 0; gv_cpu_started := false |}.

Definition mini_fetch := fetch_read mini_xread mini_decode mini_fa "me" 10 1000 fresh_world.
Definition mini_act : recovery_act := ASpawn {| sp_queue := "q"; sp_id := "1-0"; sp_raw := Some "x"%string |}.
Definition mini_run : io := @run_act Toy.serde toy_cfg (fun _ => Err ""%string) (fun _ => None) Dispatch.top mini_act true no_answers toy_io.
Definition mini_bufs : gmap string (list AckReq) := buffered {["q"%string := []]} (submits (ops mini_run)).
Definition mini_flush := flush_batch "q" (default [] (mini_bufs !! "q"%string)) mini_fetch.2.

Lemma mini_fetch_spawns : mini_fetch.1 = [{| sp_queue := "q"; sp_id := "1-0"; sp_raw := Some "x"%string |}].
Proof. vm_compute. reflexivity. Qed.

Definition mini_reqs : list AckReq := default [] (mini_bufs !! "q"%string).
Lemma mini_buf : mini_bufs !! "q"%string = Some mini_reqs.
Proof. vm_compute. reflexivity. Qed.

Definition mini_s0 : @proc MiniRedis.mini := proc_start mini_fa fresh_world.
Definition mini_s1 : @proc MiniRedis.mini :=
  {| p_world := mini_fetch.2; p_bufs := {["q"%string := []]}; p_tasks := [mini_act]; p_live := [("q", "1-0")%string]; p_trimmed := ∅ |}.
Definition mini_s2 : @proc MiniRedis.mini :=
  {| p_world := mini_fetch.2; p_bufs := mini_bufs; p_tasks := []; p_live := [("q", "1-0")%string]; p_trimmed := ∅ |}.
Definition mini_s3 : @proc MiniRedis.mini :=
  {| p_world := (flush_batch "q" (take 1 mini_reqs) mini_fetch.2).2; p_bufs := <["q"%string := drop 1 mini_reqs]> mini_bufs;
     p_tasks := []; p_live := [("q", "1-0")%string]; p_trimmed := ∅ |}.

Abbreviation mini_step := (@pstep MiniRedis.mini Toy.serde toy_cfg (fun _ => Err ""%string) (fun _ => None) Dispatch.top
  mini_xread mini_decode MiniReaping.mini_consumers mini_fa Recovery.sample_args 128).

Lemma mini_step1 : mini_step mini_s0 (PFetched [mini_act]) mini_s1.
Proof.
  assert (E : mini_s1 = {| p_world := mini_fetch.2; p_bufs := p_bufs mini_s0; p_tasks := [] ++ (ASpawn <$> mini_fetch.1);
    p_live := [] ++ guarded (ASpawn <$> mini_fetch.1); p_trimmed := ∅ |})
    by (rewrite mini_fetch_spawns; reflexivity).
  rewrite E. change [mini_act] with (ASpawn <$> [{| sp_queue := "q"; sp_id := "1-0"; sp_raw := Some "x"%string |}]).
  rewrite <- mini_fetch_spawns.
  apply (p_fetch _ _ _ _ _ _ _ _ _ _ mini_s0 open_gate 10 1000 mini_fetch.1 mini_fetch.2); [reflexivity|apply surjective_pairing].
Qed.

Lemma mini_step2 : mini_step mini_s1 (PRan mini_act) mini_s2.
Proof. apply (p_run _ _ _ _ _ _ _ _ _ _ mini_s1 [] mini_act [] true no_answers toy_io (ops mini_run)); reflexivity. Qed.

Lemma mini_step3 : mini_step mini_s2 (PFlushed "q" 1) mini_s3.
Proof.
  apply (p_flush _ _ _ _ _ _ _ _ _ _ mini_s2 "q" mini_reqs 1 (flush_batch "q" (take 1 mini_reqs) mini_fetch.2).1); [apply mini_buf|apply surjective_pairing].
Qed.

Definition mini_s4 : @proc MiniRedis.mini :=
  {| p_world := @reap_stale_consumers MiniRedis.mini MiniReaping.mini_consumers (fa_queues mini_fa) "me" 60000 (p_world mini_s3);
     p_bufs := p_bufs mini_s3; p_tasks := []; p_live := [("q", "1-0")%string]; p_trimmed := ∅ |}.

Lemma mini_step4 : mini_step mini_s3 PReaped mini_s4.
Proof. apply (p_reap _ _ _ _ _ _ _ _ _ _ mini_s3). reflexivity. Qed.

Lemma mini_reaped : (["XGROUP"; "DELCONSUMER"; "cauli:q:q"; "cauli"; "old"]%string, RInt 0) ∈ trace (p_world mini_s4).
Proof. apply list_elem_of_In. vm_compute. by repeat first [left; reflexivity|right]. Qed.

Abbreviation mini_unraced := (@pstep_unraced MiniRedis.mini Toy.serde toy_cfg (fun _ => Err ""%string) (fun _ => None) Dispatch.top
  mini_xread mini_decode MiniReaping.mini_consumers mini_fa Recovery.sample_args 128 MiniReaping.mini_consumer_views).

Lemma mini_steps : steps mini_unraced mini_s0 [PFetched [mini_act]; PRan mini_act; PFlushed "q" 1; PReaped] mini_s4.
Proof.
  eapply steps_cons; [split; [exact mini_step1|exact I]|]. eapply steps_cons; [split; [exact mini_step2|exact I]|].
  eapply steps_cons; [split; [exact mini_step3|exact I]|]. eapply steps_cons; [split; [exact mini_step4|]|apply steps_refl].
  exact (List.Forall_nil _).
Qed.

Lemma mini_settled : let t := MiniRedis.stream_at (server (p_world mini_s4)) "cauli:q:q" in
  (MiniRedis.pels t, MiniRedis.given t) = ([], (1, 0)).
Proof. vm_compute. reflexivity. Qed.

Lemma mini_not_owed : ~ MiniRedis.owed_in (MiniRedis.stream_at (server (p_world mini_s4)) "cauli:q:q") (1, 0).
Proof.
  unfold MiniRedis.owed_in. pose proof mini_settled as HS. cbv zeta in HS.
  set (t := MiniRedis.stream_at _ _) in *. clearbody t. injection HS as -> ->. intros [_ [HO|HO]]; [by apply not_elem_of_nil in HO|].
  unfold id_lt in HO. cbn in HO. lia.
Qed.

Lemma mini_fresh_at : MiniRedis.stream_at (server fresh_world) "cauli:q:q" = fresh_stream.
Proof. vm_compute. reflexivity. Qed.

Lemma mini_owed : MiniRedis.owed_in (MiniRedis.stream_at (server fresh_world) "cauli:q:q") (1, 0).
Proof. rewrite mini_fresh_at. split; [left|right; unfold id_lt; cbn; lia]. Qed.

Lemma process_loses_no_task_witness : exists act r, act_id act = "1-0"%string /\ Broker.sid r = "1-0"%string /\
  @outcome_of Toy.serde toy_cfg "q" (act_raw act) (extra_cmds r) /\ landed (trace (p_world mini_s4)) r.
Proof.
  destruct (process_loses_no_task _ _ MiniRedis.mini_noop MiniRedis.mini_set_laws MiniRedis.mini_key_laws _ MiniRedis.mini_group_laws
    MiniRedis.mini_streams MiniRedis.mini_stream_laws Toy.serde toy_cfg (fun _ => Err ""%string) (fun _ => None) Dispatch.top
    mini_xread mini_decode MiniReaping.mini_consumers mini_fa sample_args 128 _ MiniReaping.mini_consumer_laws "q" (1, 0) fresh_world [] mini_s0
    [PFetched [mini_act]; PRan mini_act; PFlushed "q" 1; PReaped] mini_s4) as [HO|H].
  - split; [reflexivity|exact (List.Forall_nil _)].
  - intros n b. split; [reflexivity|]. cbn. set_solver.
  - apply steps_refl.
  - apply mini_steps.
  - constructor.
  - repeat constructor.
  - exact (List.Forall_nil _).
  - apply MiniRedis.owed_at. exact mini_owed.
  - exfalso. exact (mini_not_owed (proj1 (MiniRedis.owed_at _ _ _) HO)).
  - destruct H as (act & r & _ & _ & H1 & H2 & H3 & H4 & _). exists act, r. split_and!; [exact H1|exact H2|exact H3|exact H4].
Defined.
