(* ===== verification/Liveness.v ===== *)
(** What eventually happens: over infinite runs of the worker process
    ([System]), from the last fault on, an entry handed over is run, its
    completion written and the entry let go, and a delayed retry reaches its
    stream ([mover_loop] of [worker/src/loops.rs]). *)
From S2P Require Import Prelude Float64 Backoff Envelope Stats Ctx Redis Broker Tree Pyrt Exec Dispatch Delivery Loops Server Recovery Reaping System.
Open Scope Z_scope.

(** Text the shape check can scan, when it parses. *)
Definition scannable `{Serde} (raw : option string) : Prop := forall text env, raw = Some text -> envelope_of_text text = Ok env ->
  (forall t, args env = Some t -> json_text t) /\ (forall t, kwargs env = Some t -> json_text t).

Section settled.
Context {R : Redis}.
Context `{Serde} (cfg : config) (de_pyresp : string -> result string PyResp) (id_only : string -> option string)
  (uniform : f64 -> f64 -> f64).
Context (xread_args : string * string -> Z -> Z -> list string -> cmd)
  (decode_streams : reply -> option (option stream_reply)) (decode_consumers : reply -> option (list (string * Z * Z))).
Context (fa : fetch_args) (ra : recovery_args) (mover_limit : Z).

Abbreviation pstep := (pstep cfg de_pyresp id_only uniform xread_args decode_streams decode_consumers fa ra mover_limit).
Abbreviation run_act := (run_act cfg de_pyresp id_only uniform).

(** A flush whose every waiter is told [Ok]. *)
Definition flush_ok (s : proc) (e : pevent) : Prop :=
  match e with
  | PFlushed q n => match p_bufs s !! q with
      | Some b => Forall (fun a => a.2 = Ok tt) (flush_batch q (take n b) (p_world s)).1
      | None => True
      end
  | _ => True
  end.

(** Running an entry submits one completion, an outcome of it. *)
Lemma run_act_one act free x io l : scannable (act_raw act) -> ops (run_act act free x io) = ops io ++ l ->
  exists r, submits l = [(act_queue act, r)] /\ Broker.sid r = act_id act /\ outcome_of cfg (act_queue act) (act_raw act) (extra_cmds r).
Proof.
  intros Hsc E. pose proof (run_act_submits cfg de_pyresp id_only uniform act free x io l E) as HS.
  assert (HL : exists r, submits l = [(act_queue act, r)]).
  { destruct act as [q i raw reason|sp]; cbn [System.run_act act_queue act_raw] in *.
    - destruct (dlq_terminal_spec cfg id_only (fun _ => True) (fun _ => True) q i raw reason None tt io ltac:(done))
        as (_ & new & E' & (_ & r & Hs & _) & _). exists r. rewrite <- Hs. f_equal. apply (app_inv_head (ops io)). rewrite <- E, <- E'.
      unfold mbind, D_bind. by destruct (dlq_terminal _ _ _ _ _ _ _ io) as [[[]|] s1].
    - destruct (process_spec cfg de_pyresp id_only uniform (fun _ => True) (fun _ => True) (sp_queue sp) (sp_id sp) (sp_raw sp) x
        (emits (arrival free (sp_queue sp) (sp_id sp)) io).2) as (_ & new & E' & _ & HP); [done|].
      change (ops (spawn_dispatch _ _ _ _ _ _ _ _ _ _)) with (ops (process cfg de_pyresp id_only uniform (sp_queue sp) (sp_id sp) (sp_raw sp) x
        (emits (arrival free (sp_queue sp) (sp_id sp)) io).2).2 ++ [OUntrack (sp_queue sp) (sp_id sp); OTotal (-1)]) in E.
      rewrite E' in E. cbn [emits snd ops] in E. rewrite <- !app_assoc in E. apply app_inv_head in E as <-.
      assert (ES : forall m, submits (arrival free (sp_queue sp) (sp_id sp) ++ m ++ [OUntrack (sp_queue sp) (sp_id sp); OTotal (-1)]) = submits m).
      { intros m. rewrite !submits_app, app_nil_r. by destruct free. }
      rewrite ES. destruct HP as [((text & env & Er & Et & Es) & _)|[(_ & r & -> & _)|(env & spec & r & _ & _ & _ & _ & -> & _)]]; [|by eexists..].
      exfalso. destruct (Hsc text env Er Et) as [Ha Hk]. by apply (shape_total env Ha Hk). }
  destruct HL as [r Hr]. exists r. split; [done|]. specialize (HS (act_queue act, r)). rewrite Hr in HS. by destruct HS as (_ & ? & ?); [left|].
Qed.

(** A buffer of the process stays one. *)
Lemma buffered_some l : forall bufs q, is_Some (bufs !! q) -> is_Some (buffered bufs l !! q).
Proof.
  induction l as [|[q0 r0] l IH]; intros bufs q Hq; cbn; [done|]. apply IH. destruct (bufs !! q0) as [b|] eqn:E; [|done].
  destruct (decide (q0 = q)) as [->|Hn]; [rewrite lookup_insert_eq; by eexists|by rewrite lookup_insert_ne].
Qed.

Lemma buffered_grows l : forall (bufs : gmap string (list AckReq)) q b, bufs !! q = Some b -> exists b', buffered bufs l !! q = Some (b ++ b').
Proof.
  induction l as [|[q0 r0] l IH]; intros bufs q b Hq; cbn; [exists []; by rewrite app_nil_r|].
  destruct (bufs !! q0) as [b0|] eqn:E; [|by apply IH]. destruct (decide (q0 = q)) as [->|Hn].
  - rewrite Hq in E. injection E as <-. destruct (IH (<[q := b ++ [r0]]> bufs) q (b ++ [r0])) as [b' Hb']; [by rewrite lookup_insert_eq|].
    exists (r0 :: b'). by rewrite <- app_assoc in Hb'.
  - apply IH. by rewrite lookup_insert_ne.
Qed.

(** A completion, by its place in the buffer. *)
Definition queued (q : string) (r : AckReq) (i : nat) (s : proc) : Prop := exists b, p_bufs s !! q = Some b /\ b !! i = Some r.

(** Written, and its entry acknowledged. *)
Definition finished (q : string) (r : AckReq) (s : proc) : Prop := landed (trace (p_world s)) r /\ let_go q (p_world s) (Broker.sid r).

Lemma flush_finishes q b n (w : world) ans w' r : flush_batch q (take n b) w = (ans, w') -> Forall (fun a => a.2 = Ok tt) ans ->
  r ∈ take n b -> landed (trace w') r /\ let_go q w' (Broker.sid r).
Proof.
  intros E HA Hr. destruct (flush_spec _ _ _ _ _ E) as (wr & rf & t1 & t2 & o & [Hs Ht _ _ _ Hland Hok (es & He & Hf & Ha)]).
  rewrite Ha, Forall_app in HA. destruct HA as [HA1 HA2].
  assert (rf = []) as ->.
  { destruct rf as [|r0 rf]; [done|]. destruct es as [|e es]; [done|]. apply Forall_cons in HA1 as [Hx _], Hf as [Hy _].
    rewrite Hx in Hy. done. }
  rewrite app_nil_r in Hs. rewrite <- Hs in Hr.
  assert (o = Ok tt) as ->.
  { rewrite Forall_fmap, Forall_forall in HA2. by apply (HA2 r). }
  destruct (Hok eq_refl) as [Ht2 _]. split; [rewrite Ht; by apply landed_app, landed_more, Hland|].
  destruct t2 as [|[c rep] t2]; [done|]. exists c, rep, (Broker.sid <$> wr). rewrite Ht. split_and!.
  - apply elem_of_app. right. apply elem_of_app. right. left.
  - rewrite <- Ht2. left.
  - by apply list_elem_of_fmap_2.
Qed.

(** One step moves a queued completion only forward, or finishes it. *)
Lemma queued_step q r i s e s' : queued q r i s -> pstep s e s' -> e <> PCrashed -> flush_ok s e ->
  finished q r s' \/ exists j, (j <= i)%nat /\ queued q r j s' /\ (forall k, e = PFlushed q (S k) -> (j < i)%nat).
Proof.
  intros (b & Hb & Hi) Hs Hne Hok.
  assert (HK : p_bufs s' !! q = Some b -> (forall k, e <> PFlushed q (S k)) ->
    exists j, (j <= i)%nat /\ queued q r j s' /\ (forall k, e = PFlushed q (S k) -> (j < i)%nat)).
  { intros Hb' Hn. exists i. split_and!; [done|by exists b|]. intros k He. by destruct (Hn k). }
  destruct Hs as [s g c b0 spawns w' _ E|s views held q' start page next acts w' _ _ _ E|s l1 act l2 free x io l Ht E
    |s q' b0 n ans w' Hb0 E|s q' nows w' _ E|s q' tr w' _ E|s w' E|s ts|s q0 i0 _|s]; cbn [p_bufs] in *; try (right; by apply HK).
  - right. destruct (buffered_grows (submits l) (p_bufs s) q b Hb) as [b' Hb']. exists i. split_and!; [done| |done].
    exists (b ++ b'). split; [done|]. by apply lookup_app_l_Some.
  - destruct (decide (q' = q)) as [->|Hq]; [|right; apply HK; [by rewrite lookup_insert_ne|congruence]].
    rewrite Hb in Hb0. injection Hb0 as <-. cbn in Hok. rewrite Hb, E in Hok. cbn in Hok. destruct (Nat.lt_ge_cases i n) as [Hlt|Hge].
    + left. eapply flush_finishes; [exact E|done|]. apply (list_elem_of_lookup_2 _ i). by rewrite lookup_take_lt.
    + right. exists (i - n)%nat. split_and!; [lia| |intros k [= ->]; lia].
      exists (drop n b). cbn. rewrite lookup_insert_eq. split; [done|]. rewrite lookup_drop. by replace (n + (i - n))%nat with i by lia.
Qed.

Section runs.
Context (st : nat -> proc) (ev : nat -> pevent) (N : nat) (Hrun : forever pstep st ev).
Context (Hcalm : forall n, (N <= n)%nat -> ev n <> PCrashed /\ flush_ok (st n) (ev n)).
Context (Hflush : forall n q b, (N <= n)%nat -> p_bufs (st n) !! q = Some b -> b <> [] -> exists m k, (n <= m)%nat /\ ev m = PFlushed q (S k)).

Lemma queued_until q r i n d : (N <= n)%nat -> queued q r i (st n) ->
  (exists m, (n <= m <= n + d)%nat /\ finished q r (st m)) \/ exists j, (j <= i)%nat /\ queued q r j (st (n + d)).
Proof.
  intros HN HQ. induction d as [|d IH]; [right; exists i; by rewrite Nat.add_0_r|].
  destruct IH as [(m & Hm & HF)|(j & Hj & HQ')]; [left; exists m; split; [lia|done]|]. rewrite Nat.add_succ_r.
  destruct (Hcalm (n + d)%nat) as [Hc Hf]; [lia|].
  destruct (queued_step q r j _ _ _ HQ' (Hrun (n + d)%nat) Hc Hf) as [HF|(j' & Hj' & HQ2 & _)].
  - left. exists (S (n + d))%nat. split; [lia|done].
  - right. exists j'. split; [lia|done].
Qed.

(** A queued completion is finished: every flush of its queue brings it nearer. *)
Lemma queued_finished q r i n : (N <= n)%nat -> queued q r i (st n) -> exists m, (n <= m)%nat /\ finished q r (st m).
Proof.
  revert n. induction i as [i IH] using lt_wf_ind. intros n HN HQ. pose proof HQ as (b & Hb & Hi).
  destruct (Hflush n q b HN Hb) as (m & k & Hm & Hev); [by intros ->|].
  destruct (queued_until q r i n (m - n) HN HQ) as [(m' & ? & ?)|(j & Hj & HQ')]; [by exists m'; split; [lia|]|].
  replace (n + (m - n))%nat with m in HQ' by lia. destruct (Hcalm m) as [Hc Hf]; [lia|].
  destruct (queued_step q r j _ _ _ HQ' (Hrun m) Hc Hf) as [HF|(j' & Hj' & HQ2 & Hlt)]; [exists (S m); split; [lia|done]|].
  specialize (Hlt k Hev). destruct (IH j' ltac:(lia) (S m) ltac:(lia) HQ2) as (m' & ? & ?). exists m'. split; [lia|done].
Qed.

Lemma buf_stays q n d : is_Some (p_bufs (st n) !! q) -> is_Some (p_bufs (st (n + d)) !! q).
Proof.
  intros Hq. induction d as [|d IH]; [by rewrite Nat.add_0_r|]. rewrite Nat.add_succ_r.
  destruct (Hrun (n + d)%nat) as [s g c b0 spawns w' _ E|s views held q' start page next acts w' _ _ _ E|s l1 act l2 free x io l Ht E
    |s q' b0 k ans w' Hb0 E|s q' nows w' _ E|s q' tr w' _ E|s w' E|s ts|s q0 i0 _|s]; cbn [p_bufs]; try exact IH.
  - by apply buffered_some.
  - destruct (decide (q' = q)) as [->|Hn]; [rewrite lookup_insert_eq; by eexists|by rewrite lookup_insert_ne].
  - rewrite lookup_fmap. destruct IH as [b ->]. by eexists.
Qed.

(** What is run is finished. *)
Lemma ran_finished m act : (N <= m)%nat -> ev m = PRan act -> is_Some (p_bufs (st m) !! act_queue act) -> scannable (act_raw act) ->
  exists m' r, (m <= m')%nat /\ Broker.sid r = act_id act /\ outcome_of cfg (act_queue act) (act_raw act) (extra_cmds r) /\
    landed (trace (p_world (st m'))) r /\ let_go (act_queue act) (p_world (st m')) (act_id act).
Proof.
  intros HN Hev [b Hb] Hsc. pose proof (Hrun m) as Hs. rewrite Hev in Hs.
  assert (HQ : exists r, Broker.sid r = act_id act /\ outcome_of cfg (act_queue act) (act_raw act) (extra_cmds r) /\
    queued (act_queue act) r (length b) (st (S m))).
  { inversion Hs as [| |s l1 act' l2 free x io l Ht E| | | | | | |]; subst.
    destruct (run_act_one _ _ _ _ _ Hsc E) as (r & HS & Hsid & Ho). exists r. split_and!; [done..|].
    exists (b ++ [r]). rewrite HS. cbn. rewrite Hb, lookup_insert_eq. split; [done|]. by rewrite list_lookup_middle. }
  destruct HQ as (r & Hsid & Ho & HQ).
  destruct (queued_finished _ r _ (S m) ltac:(lia) HQ) as (m' & Hm' & Hl & Hg).
  rewrite Hsid in Hg. exists m', r. split_and!; [lia|done..].
Qed.
End runs.
End settled.

Section theorems.
Context (R : Redis) (S0 : Serde) (cfg : config) (de_pyresp : string -> result string PyResp) (id_only : string -> option string)
  (uniform : f64 -> f64 -> f64).
Context (xread_args : string * string -> Z -> Z -> list string -> cmd)
  (decode_streams : reply -> option (option stream_reply)) (decode_consumers : reply -> option (list (string * Z * Z))).
Context (fa : fetch_args) (ra : recovery_args) (mover_limit : Z).
Abbreviation pstep := (pstep cfg de_pyresp id_only uniform xread_args decode_streams decode_consumers fa ra mover_limit).

(** C5. Every entry handed over is settled. In any run of the process, from
    some point on without a crash and with its flushes answered [Ok], if tasks
    are run and waiting buffers flushed again and again, each entry a read or a
    claim handed over is in the end acknowledged, after the outcome of what it
    held was accepted: however many others arrive before it, however small the
    batches, in whatever order the loops take turns. Only text no JSON parser
    captures is left pending. *)
Theorem handed_entry_is_settled (st : nat -> proc) (ev : nat -> pevent) N :
  forever pstep st ev ->
  (forall n, (N <= n)%nat -> ev n <> PCrashed /\ flush_ok (st n) (ev n)) ->
  (forall n act, (N <= n)%nat -> act ∈ p_tasks (st n) -> exists m, (n <= m)%nat /\ ev m = PRan act) ->
  (forall n q b, (N <= n)%nat -> p_bufs (st n) !! q = Some b -> b <> [] -> exists m k, (n <= m)%nat /\ ev m = PFlushed q (S k)) ->
  forall n act, (N <= n)%nat -> act ∈ p_tasks (st n) -> is_Some (p_bufs (st n) !! act_queue act) -> scannable (act_raw act) ->
  exists m r, (n <= m)%nat /\ Broker.sid r = act_id act /\ outcome_of cfg (act_queue act) (act_raw act) (extra_cmds r) /\
    landed (trace (p_world (st m))) r /\ let_go (act_queue act) (p_world (st m)) (act_id act).
Proof.
  intros Hrun Hcalm Htask Hflush n act HN Ha Hbuf Hsc. destruct (Htask n act HN Ha) as (m & Hm & Hev).
  pose proof (buf_stays _ _ _ _ _ _ _ _ _ _ st ev Hrun (act_queue act) n (m - n) Hbuf) as HB.
  replace (n + (m - n))%nat with m in HB by lia.
  destruct (ran_finished _ _ _ _ _ _ _ _ _ _ st ev N Hrun Hcalm Hflush m act ltac:(lia) Hev HB Hsc) as (m' & r & Hm' & H').
  exists m', r. split; [lia|done].
Qed.
End theorems.

(** ** From the hands of the process to the acknowledgement *)

Section hands.
Context {R : Redis} {V : SetViews R} {N : ErrNoop R} {SL : SetLaws R V} {KL : KeyLaws R V}
  {G : GroupViews R} {GL : GroupLaws R G} {T : StreamViews R} {TL : StreamLaws R V G T}.
Context `{Serde} (cfg : config) (de_pyresp : string -> result string PyResp) (id_only : string -> option string)
  (uniform : f64 -> f64 -> f64).
Context (xread_args : string * string -> Z -> Z -> list string -> cmd)
  (decode_streams : reply -> option (option stream_reply)) (decode_consumers : reply -> option (list (string * Z * Z))).
Context (fa : fetch_args) (ra : recovery_args) (mover_limit : Z) (HX : reads_streams xread_args fa (ra_consumer ra)).
Abbreviation pstep := (pstep cfg de_pyresp id_only uniform xread_args decode_streams decode_consumers fa ra mover_limit).

Context (st : nat -> proc) (ev : nat -> pevent) (w : world).
Context (Hrun : forever pstep st ev) (Hstart : st 0%nat = proc_start fa w) (Htrace : trace w = []).

Lemma ledger_at n : ledger cfg (ev <$> seq 0 n) (st n).
Proof.
  induction n as [|n IH]; [rewrite Hstart; by apply ledger_start|]. rewrite seq_S, fmap_app.
  by destruct (step_ok _ _ _ _ _ _ _ _ _ _ _ _ _ _ _ _ _ _ _ _ ""%string (0, 0) _ _ _ _ HX IH (Hrun n)) as [HL _ _ _].
Qed.

(** A queue of the process has a buffer from the start. *)
Lemma buffer_at q n : q ∈ fa_queues fa -> is_Some (p_bufs (st n) !! q).
Proof.
  intros Hq. rewrite <- (Nat.add_0_l n). apply (buf_stays _ _ _ _ _ _ _ _ _ _ st ev Hrun). rewrite Hstart. cbn.
  apply (elem_of_dom (D := gset string)). rewrite dom_list_to_map_L, elem_of_list_to_set. rewrite <- list_fmap_compose.
  change ((fst ∘ _) <$> _) with ((fun x : string => x) <$> fa_queues fa). by rewrite list_fmap_id.
Qed.

(** The entry is among the tasks, its completion waits for the flush, or it is
    acknowledged. *)
Definition picked (q i : string) (s : proc) : Prop := exists act, act ∈ p_tasks s /\ act_queue act = q /\ act_id act = i.
Definition answered_for (q i : string) (s : proc) : Prop := exists r k, queued q r k s /\ Broker.sid r = i.
Definition got (q i : string) (s : proc) : Prop := let_go q (p_world s) i \/ picked q i s \/ answered_for q i s.

(** Handed over, an outcome of what was handed over accepted, and acknowledged. *)
Definition settled (q i : string) : Prop := exists n act r, handed (ev <$> seq 0 n) act /\ act_queue act = q /\ act_id act = i /\
  Broker.sid r = i /\ outcome_of cfg q (act_raw act) (extra_cmds r) /\ landed (trace (p_world (st n))) r /\ let_go q (p_world (st n)) i.

Lemma let_go_settled q i n : let_go q (p_world (st n)) i -> settled q i.
Proof.
  intros Hg. destruct (lg_gone _ _ _ (ledger_at n) q _ Hg) as (r & Hr & (act & Ha & Haq & Hai & Ho) & Hl).
  exists n, act, r. split_and!; [done|done|congruence|done|done|done|done].
Qed.

Context (N0 : nat) (Hcalm : forall n, (N0 <= n)%nat -> ev n <> PCrashed /\ flush_ok (st n) (ev n)).
Context (Htask : forall n act, (N0 <= n)%nat -> act ∈ p_tasks (st n) -> exists m, (n <= m)%nat /\ ev m = PRan act).
Context (Hflush : forall n q b, (N0 <= n)%nat -> p_bufs (st n) !! q = Some b -> b <> [] -> exists m k, (n <= m)%nat /\ ev m = PFlushed q (S k)).

(** What a process has in hand it settles. *)
Lemma got_settled q i n : q ∈ fa_queues fa -> (N0 <= n)%nat ->
  (forall n act, act ∈ p_tasks (st n) -> act_queue act = q -> act_id act = i -> scannable (act_raw act)) ->
  got q i (st n) -> settled q i.
Proof.
  intros Hq HN Hsc [Hg|[(act & Ha & Haq & Hai)|(r & k & HQ & Hr)]]; [by eapply let_go_settled| |].
  - destruct (Htask n act HN Ha) as (m & Hm & Hev).
    destruct (ran_finished _ _ _ _ _ _ _ _ _ _ st ev N0 Hrun Hcalm Hflush m act ltac:(lia) Hev) as (m' & r & _ & _ & _ & _ & Hg).
    + rewrite Haq. by apply buffer_at.
    + by eapply Hsc.
    + rewrite Haq, Hai in Hg. by eapply let_go_settled.
  - destruct (queued_finished _ _ _ _ _ _ _ _ _ _ st ev N0 Hrun Hcalm Hflush q r k n HN HQ) as (m & _ & _ & Hg).
    rewrite Hr in Hg. by eapply let_go_settled.
Qed.
End hands.

(** ** Delayed retries *)

(** The score of a delayed member, and what a page of due members holds. *)
Class ScoreViews (R : Redis) := score_of : rstate -> string -> string -> Z.
Class ScoreLaws (R : Redis) (V : SetViews R) (C : ScoreViews R) : Prop :=
  zrange_due k now lim s l s' : is_u64 now -> is_u64 lim ->
    exec ["ZRANGEBYSCORE"; k; "-inf"; dec now; "LIMIT"; "0"; dec lim]%string s = (RArr (RBulk <$> l), s') ->
    Z.of_nat (length l) < lim -> forall e, e ∈ zset s k -> score_of s k e <= now -> e ∈ l.

Section sweeps.
Context {R : Redis} {V : SetViews R} {N : ErrNoop R} {SL : SetLaws R V} {KL : KeyLaws R V} {C : ScoreViews R} {CL : ScoreLaws R V C}.

(** The round of a mover tick that came short, if one did: its clock reading
    and the server it ran on. *)
Fixpoint short_round (n : nat) (q : string) (limit : Z) (nows : list Z) (w : world) : option (Z * rstate) :=
  match n with
  | O => None
  | S n =>
      match run_mover q (hd 0 nows) limit w with
      | (Ok k, w') => if k <? limit then Some (hd 0 nows, before_trip w) else short_round n q limit (tl nows) w'
      | (Err _, _) => None
      end
  end.

(** A tick that emptied the set of what was due, at or after [text]'s time. *)
Definition sweeps (q text : string) (mover_limit : Z) (nows : list Z) (w : world) : Prop :=
  exists now s, short_round MOVER_ROUNDS_PER_TICK q (Z.max mover_limit 1) nows w = Some (now, s) /\
    is_u64 now /\ score_of s (delayed_key q) text <= now.

Lemma mover_ok k1 k2 now lim s n s' : MOVER_LUA k1 k2 now lim s = (Ok n, s') -> exists l,
  exec ["ZRANGEBYSCORE"; k1; "-inf"; now; "LIMIT"; "0"; lim]%string s = (RArr (RBulk <$> l), s) /\
  n = Z.of_nat (length l) /\ entries s' k2 = entries s k2 ++ l.
Proof.
  unfold MOVER_LUA, mbind, L_bind. destruct (call _ s) as [[x|er] s1] eqn:C1; [|done].
  apply call_ok in C1 as [C1 A1]. destruct (zrange_law _ _ _ _ _ _ C1 A1) as (-> & l & -> & _). rewrite bulks_map.
  destruct (move_all k1 k2 l s) as [[u|er] s2] eqn:M; [|done]. intros [= <- <-]. exists l. split_and!; [done..|].
  destruct (move_all_spec _ _ _ _ _ _ M) as (moved & _ & HE & _ & _ & Hd). destruct (Hd eq_refl) as [-> _]. done.
Qed.

(** The short round appends a waiting due member. *)
Lemma short_round_appends text q limit n : is_u64 limit -> forall nows w now s, kept q (eq text) w ->
  short_round n q limit nows w = Some (now, s) -> is_u64 now -> score_of s (delayed_key q) text <= now ->
  text ∈ entries (server (mover_rounds n q limit nows w)) (q_key q).
Proof.
  intros HL. induction n as [|n IH]; intros nows w now s HK; [done|]. cbn [short_round mover_rounds].
  destruct (run_mover q (hd 0 nows) limit w) as [[k|e] w1] eqn:E; [|done].
  pose proof (mover_kept q _ q _ _ _ _ _ HK E) as [HK1 _]. pose proof (proj1 (proj2 HK) text eq_refl) as HA.
  assert (HA0 : alive q text (before_trip w)).
  { destruct (first_trip q w (proj1 HK)) as [H1 _]. unfold before_trip. destruct (trips w); [done|by apply H1]. }
  assert (HM : exists s1, MOVER_LUA (delayed_key q) (q_key q) (dec (hd 0 nows)) (dec limit) (before_trip w) = (Ok k, s1) /\ server w1 = s1).
  { unfold run_mover, invoke, before_trip in *. destruct (trips w) as [|t ts]; cbn in E;
      destruct (MOVER_LUA _ _ _ _ _) as [o s1] eqn:EM; [injection E as -> <-; by exists s1|].
    destruct (torn t) as [[|j]|]; [done..|]. injection E as -> <-. by exists s1. }
  destruct HM as (s1 & EM & Hs1).
  destruct (Z.ltb_spec k limit) as [Hlt|]; [|by apply IH]. intros [= <- <-] HU Hsc.
  destruct (mover_ok _ _ _ _ _ _ _ EM) as (l & Ez & -> & HE). rewrite Hs1, HE. apply elem_of_app.
  destruct HA0 as [Hz|He]; [right|by left]. by eapply (zrange_due _ _ limit).
Qed.
End sweeps.

Section delayed.
Context (R : Redis) (V : SetViews R) (N : ErrNoop R) (SL : SetLaws R V) (KL : KeyLaws R V)
  (G : GroupViews R) (GL : GroupLaws R G) (T : StreamViews R) (TL : StreamLaws R V G T) (C : ScoreViews R) (CL : ScoreLaws R V C).
Context (S0 : Serde) (cfg : config) (de_pyresp : string -> result string PyResp) (id_only : string -> option string)
  (uniform : f64 -> f64 -> f64).
Context (xread_args : string * string -> Z -> Z -> list string -> cmd)
  (decode_streams : reply -> option (option stream_reply)) (decode_consumers : reply -> option (list (string * Z * Z))).
Context (fa : fetch_args) (ra : recovery_args) (mover_limit : Z).
Abbreviation pstep := (pstep cfg de_pyresp id_only uniform xread_args decode_streams decode_consumers fa ra mover_limit).

Section runs.
Context (st : nat -> proc) (ev : nat -> pevent) (w : world) (q : string).
Context (HX : reads_streams xread_args fa (ra_consumer ra)) (Hf : fresh q w) (H0 : st 0%nat = proc_start fa w) (Hrun : forever pstep st ev).
Context (Hciv : forall n, civil q (ev n)).

Lemma forever_ledger n : ledger cfg (ev <$> seq 0 n) (st n) /\ kept q (fun _ => False) (p_world (st n)).
Proof.
  pose proof (run_steps _ _ _ n Hrun) as Hs. rewrite H0 in Hs. destruct Hf as [Ht Ho].
  apply (psteps_kept R V N SL KL G GL T TL S0 cfg de_pyresp id_only uniform xread_args decode_streams decode_consumers fa ra mover_limit
    q _ [] (proc_start fa w)); [exact HX|by apply ledger_start|exact Hs|by apply Forall_fmap, Forall_true|].
  split_and!; [exact Ho|done|]. intros sc e r. cbn. rewrite Ht. by intros ?%not_elem_of_nil.
Qed.

(** What is alive at some moment stays so. *)
Lemma forever_kept text n d : alive q text (server (p_world (st n))) -> kept q (eq text) (p_world (st (n + d))).
Proof.
  intros HA. induction d as [|d IH].
  - rewrite Nat.add_0_r. destruct (forever_ledger n) as (_ & Ho & _ & HK). split_and!; [done|by intros e <-|done].
  - rewrite Nat.add_succ_r. destruct (step_ok R V N SL KL G GL T TL S0 cfg de_pyresp id_only uniform xread_args decode_streams decode_consumers fa ra mover_limit
      q (0, 0) _ _ _ _ HX (proj1 (forever_ledger (n + d))) (Hrun (n + d)%nat)) as [_ _ HK _].
    apply HK; [apply Hciv|done].
Qed.
End runs.

(** C8. A due retry reaches its stream. In any run of the process from its
    start, whatever crashes, tears and refusals it meets, a retry that is in the
    delayed set at some moment is appended to its stream once some mover tick
    comes to a short page at or after its time; nothing the process or its peers
    do in between loses it. *)
Theorem due_retry_reaches_stream (st : nat -> proc) (ev : nat -> pevent) w q n text :
  reads_streams xread_args fa (ra_consumer ra) -> is_u64 (Z.max mover_limit 1) ->
  fresh q w -> st 0%nat = proc_start fa w -> forever pstep st ev -> (forall k, civil q (ev k)) ->
  text ∈ zset (server (p_world (st n))) (delayed_key q) ->
  (forall n0, exists m nows, (n0 <= m)%nat /\ ev m = PMoved q nows /\ sweeps q text mover_limit nows (p_world (st m))) ->
  exists m, (n <= m)%nat /\ text ∈ entries (server (p_world (st m))) (q_key q).
Proof.
  intros HX HL Hf H0 Hrun Hciv Hin Hfair. destruct (Hfair n) as (m & nows & Hm & Hev & now & s & Hshort & HU & Hsc).
  pose proof (forever_kept st ev w q HX Hf H0 Hrun Hciv text n (m - n) (or_introl Hin)) as HK.
  replace (n + (m - n))%nat with m in HK by lia.
  exists (S m). split; [lia|]. pose proof (Hrun m) as Hs. rewrite Hev in Hs. inversion Hs as [| | | |s0 q' nows' w' Hq E| | | | |]; subst.
  cbn [p_world]. unfold mover_queue. eapply short_round_appends; [exact HL|exact HK|exact Hshort|exact HU|exact Hsc].
Qed.
End delayed.

(** ** Two runs *)

(** The run of [System.mini_steps], then flushes with nothing to write. *)
Definition mini_run_at (n : nat) : @proc MiniRedis.mini :=
  match n with 0 => mini_s0 | 1 => mini_s1 | 2 => mini_s2 | _ => mini_s3 end%nat.
Definition mini_event_at (n : nat) : @pevent MiniRedis.mini :=
  match n with 0 => PFetched [mini_act] | 1 => PRan mini_act | 2 => PFlushed "q" 1 | _ => PFlushed "q" 0 end%nat.

Lemma mini_one : mini_bufs = {["q"%string := mini_reqs]}.
Proof. vm_compute. reflexivity. Qed.

Lemma mini_single : drop 1 mini_reqs = [].
Proof. vm_compute. reflexivity. Qed.

Lemma mini_answered : forallb (fun a => match a.2 with Ok tt => true | Err _ => false end) (flush_batch "q" (take 1 mini_reqs) mini_fetch.2).1 = true.
Proof. vm_compute. reflexivity. Qed.

Lemma mini_last : p_bufs mini_s3 = {["q"%string := []]}.
Proof. cbn [p_bufs mini_s3]. rewrite mini_single, mini_one. apply insert_singleton_eq. Qed.

(** A flush of nothing changes nothing. *)
Lemma mini_idle : mini_step mini_s3 (PFlushed "q" 0) mini_s3.
Proof.
  assert (E : mini_s3 = {| p_world := p_world mini_s3; p_bufs := <["q"%string := drop 0 []]> (p_bufs mini_s3); p_tasks := [];
    p_live := p_live mini_s3; p_trimmed := ∅ |}).
  { rewrite mini_last. cbn [drop]. rewrite insert_singleton_eq, <- mini_last. reflexivity. }
  rewrite E at 2. apply (p_flush _ _ _ _ _ _ _ _ _ _ mini_s3 "q" [] 0 (flush_batch "q" (take 0 []) (p_world mini_s3)).1).
  - rewrite mini_last. apply lookup_singleton_eq.
  - reflexivity.
Qed.

Lemma mini_forever : forever mini_step mini_run_at mini_event_at.
Proof. intros [|[|[|n]]]; [exact mini_step1|exact mini_step2|exact mini_step3|exact mini_idle]. Qed.

Lemma mini_calm n : mini_event_at n <> PCrashed /\ flush_ok (mini_run_at n) (mini_event_at n).
Proof.
  destruct n as [|[|[|n]]]; (split; [discriminate|]); [exact I|exact I| |].
  - cbn [mini_event_at flush_ok mini_run_at p_bufs mini_s2 p_world]. rewrite mini_buf. apply Forall_forall. intros a Ha.
    pose proof mini_answered as HA. rewrite forallb_forall in HA. apply list_elem_of_In, HA in Ha. by destruct (a.2) as [[]|].
  - cbn [mini_event_at flush_ok mini_run_at]. rewrite mini_last. cbn. exact (List.Forall_nil _).
Qed.

Lemma mini_tasks_run n act : act ∈ p_tasks (mini_run_at n) -> exists m, (n <= m)%nat /\ mini_event_at m = PRan act.
Proof.
  destruct n as [|[|[|n]]]; cbn [mini_run_at p_tasks mini_s0 mini_s1 mini_s2 mini_s3 proc_start]; try (by intros ?%not_elem_of_nil).
  intros ->%list_elem_of_singleton. by exists 1%nat.
Qed.

Lemma mini_bufs_flushed n q b : p_bufs (mini_run_at n) !! q = Some b -> b <> [] ->
  exists m k, (n <= m)%nat /\ mini_event_at m = PFlushed q (S k).
Proof.
  assert (HE : forall m : gmap string (list AckReq), m = {["q"%string := []]} -> m !! q = Some b -> b <> [] ->
    exists m k, (n <= m)%nat /\ mini_event_at m = PFlushed q (S k)).
  { intros m -> [_ <-]%lookup_singleton_Some Hn. done. }
  destruct n as [|[|[|n]]]; [apply HE; reflexivity|apply HE; reflexivity| |apply HE, mini_last].
  cbn [mini_run_at p_bufs mini_s2]. rewrite mini_one. intros [<- _]%lookup_singleton_Some _. by exists 2%nat, 0%nat.
Qed.

Lemma handed_entry_is_settled_witness : exists m r, Broker.sid r = "1-0"%string /\
  @outcome_of Toy.serde toy_cfg "q" (act_raw mini_act) (extra_cmds r) /\
  landed (trace (p_world (mini_run_at m))) r /\ let_go "q" (p_world (mini_run_at m)) "1-0".
Proof.
  destruct (handed_entry_is_settled MiniRedis.mini Toy.serde toy_cfg (fun _ => Err ""%string) (fun _ => None) Dispatch.top
    mini_xread mini_decode MiniReaping.mini_consumers mini_fa sample_args 128 mini_run_at mini_event_at 0) with (n := 1%nat) (act := mini_act)
    as (m & r & _ & H1 & H2 & H3 & H4).
  - exact mini_forever.
  - intros n _. apply mini_calm.
  - intros n act _. apply mini_tasks_run.
  - intros n q b _. apply mini_bufs_flushed.
  - lia.
  - left.
  - by eexists.
  - intros text env [= <-]. intros E. exfalso. revert E. vm_compute. discriminate.
  - exists m, r. split_and!; [exact H1|exact H2|exact H3|exact H4].
Defined.

(** A retry that waits, and a mover that runs again and again. *)
#[export] Instance mini_scores : ScoreViews MiniRedis.mini := fun _ _ _ => 0.

#[export] Instance mini_score_laws : ScoreLaws MiniRedis.mini MiniRedis.mini_sets mini_scores.
Proof.
  intros k now lim s l s' _ _ E _ e He _. cbn in E. injection E as E _. apply elem_of_elements in He.
  assert (HI : Inj (=) (=) RBulk) by (by intros ?? [= ->]). apply (list_fmap_eq_inj RBulk) in E; [|exact HI]. by rewrite <- E.
Qed.

Definition waiting : MiniRedis.st :=
  {| MiniRedis.zs := {["cauli:delayed:q"%string := {["x"%string]}]}; MiniRedis.streams := {["cauli:q:q"%string := fresh_stream]}; MiniRedis.joined := ∅ |}.
Definition waiting_world : @world MiniRedis.mini := @Build_world MiniRedis.mini waiting [] [].

Definition moved_world : @world MiniRedis.mini := mover_queue "q" 128 [] waiting_world.
Definition moved_at (n : nat) : @proc MiniRedis.mini :=
  {| p_world := match n with O => waiting_world | _ => moved_world end; p_bufs := {["q"%string := []]}; p_tasks := []; p_live := []; p_trimmed := ∅ |}.

(** What a mover tick leaves on a plain server. *)
Definition mover_server (s : MiniRedis.st) : MiniRedis.st :=
  server (mover_queue "q" 128 [] (@Build_world MiniRedis.mini s [] [])).

Lemma mover_rounds_trips q limit n : forall nows (w : @world MiniRedis.mini), trips w = [] -> trips (mover_rounds n q limit nows w) = [].
Proof.
  induction n as [|n IH]; intros nows w Hw; cbn; [done|]. unfold run_mover, invoke. rewrite Hw. cbn.
  destruct (MOVER_LUA _ _ _ _ _) as [[k|e] s]; [|done]. destruct (k <? limit); [done|by apply IH].
Qed.

Lemma mover_server_world s : mover_queue "q" 128 [] (@Build_world MiniRedis.mini s [] []) = @Build_world MiniRedis.mini (mover_server s) [] [].
Proof.
  unfold mover_server, mover_queue. pose proof (mover_rounds_trace "q" (Z.max 128 1) MOVER_ROUNDS_PER_TICK [] (@Build_world MiniRedis.mini s [] [])) as Ht.
  pose proof (mover_rounds_trips "q" (Z.max 128 1) MOVER_ROUNDS_PER_TICK [] (@Build_world MiniRedis.mini s [] []) eq_refl) as Hp.
  destruct (mover_rounds _ _ _ _ _). cbn in *. by subst.
Qed.

Lemma moved_again : mover_server (mover_server waiting) = mover_server waiting.
Proof. vm_compute. reflexivity. Qed.

Lemma moved_idle : mover_queue "q" 128 [] moved_world = moved_world.
Proof. unfold moved_world, waiting_world. rewrite !mover_server_world. by rewrite moved_again. Qed.

Lemma moved_forever : forever mini_step moved_at (fun _ => PMoved "q" []).
Proof.
  intros n. apply (p_move _ _ _ _ _ _ _ _ _ _ (moved_at n) "q" []); [left|]. destruct n as [|n]; [reflexivity|exact moved_idle].
Qed.

Lemma moved_short : exists s, short_round MOVER_ROUNDS_PER_TICK "q" 128 [] moved_world = Some (0, s).
Proof.
  unfold moved_world, waiting_world. rewrite mover_server_world. unfold MOVER_ROUNDS_PER_TICK. cbn [short_round]. unfold run_mover, invoke. cbn [trips hd].
  set (s := mover_server waiting). assert (HE : (@MOVER_LUA MiniRedis.mini (delayed_key "q") (q_key "q") (dec 0) (dec 128) s).1 = Ok 0) by (vm_compute; reflexivity).
  cbn [env_before server]. destruct (MOVER_LUA _ _ _ _ _) as [o s']. cbn in HE. subst o. cbn. by eexists.
Qed.

Lemma due_retry_reaches_stream_witness : exists m, "x"%string ∈ @entries MiniRedis.mini MiniRedis.mini_sets (server (p_world (moved_at m))) (q_key "q").
Proof.
  destruct (due_retry_reaches_stream MiniRedis.mini MiniRedis.mini_sets MiniRedis.mini_noop MiniRedis.mini_set_laws MiniRedis.mini_key_laws _ MiniRedis.mini_group_laws
    MiniRedis.mini_streams MiniRedis.mini_stream_laws mini_scores mini_score_laws Toy.serde toy_cfg (fun _ => Err ""%string) (fun _ => None) Dispatch.top
    mini_xread mini_decode MiniReaping.mini_consumers mini_fa sample_args 128 moved_at (fun _ => PMoved "q" []) waiting_world "q" 0%nat "x"%string) as (m & _ & Hm).
  - intros n b. split; [reflexivity|]. cbn. set_solver.
  - unfold is_u64, u64_max. cbn. lia.
  - split; [reflexivity|exact (List.Forall_nil _)].
  - reflexivity.
  - exact moved_forever.
  - intros k. constructor.
  - apply (bool_decide_unpack (("x"%string : string) ∈ MiniRedis.zget waiting "cauli:delayed:q")). vm_compute. exact I.
  - intros n0. destruct moved_short as [s Hs]. exists (S n0), []. split_and!; [lia|reflexivity|].
    exists 0, s. split_and!; [exact Hs|unfold is_u64, u64_max; lia|discriminate].
  - exists m. exact Hm.
Defined.
