(* ===== verification/Progress.v ===== *)
(** From the stream to the acknowledgement: what a process ([System]) that
    keeps reading does with an entry nobody has taken yet. The classes state
    how a group read hands out entries; [MiniRedis] satisfies them. *)
From S2P Require Import Prelude Float64 Backoff Envelope Stats Ctx Redis Broker Tree Pyrt Exec Dispatch Delivery Loops Server Recovery Reaping System Liveness.
Open Scope Z_scope.

(** In the stream, past what the group was given. *)
Definition undelivered {R : Redis} {G : GroupViews R} {T : StreamViews R} (s : rstate) (k : string) (x : Z * Z) : Prop :=
  in_stream s k x /\ id_lt (last_delivered s k) x.

(** A read's reply holds the entry. *)
Definition returned (reply : stream_reply) (k : string) (x : Z * Z) : Prop := exists es m, (k, es) ∈ reply /\ (id_text x, m) ∈ es.

Class ReadLaws (R : Redis) (G : GroupViews R) (T : StreamViews R) (xread_args : string * string -> Z -> Z -> list string -> cmd)
    (decode_streams : reply -> option (option stream_reply)) : Prop := {
  stream_finite s k : exists l : list (Z * Z), forall x, in_stream s k x -> x ∈ l;
  (** Only reads deliver, and new ids come after those in the stream. *)
  order_law k p c s r s' : exec c s = (r, s') -> unread c -> spares k p c r -> in_stream s k p ->
    last_delivered s' k = last_delivered s k /\ forall x, id_lt x p -> in_stream s' k x -> in_stream s k x;
  (** A read of up to [n] entries per stream returns what it delivers, the
      oldest first, and at least one of each stream that has any. *)
  read_law consumer n b ks s r s' : 1 <= n ->
    exec (xread_args ("cauli", consumer)%string n b ks) s = (r, s') -> accepted r ->
    exists reply, decode_streams r = Some reply /\ forall k,
      id_le (last_delivered s k) (last_delivered s' k) /\
      (forall x, in_stream s' k x <-> in_stream s k x) /\
      (forall x, undelivered s k x -> id_lt (last_delivered s' k) x \/ returned (default [] reply) k x) /\
      (k ∈ ks -> forall x, undelivered s k x -> exists y, undelivered s k y /\ id_le y x /\ id_le y (last_delivered s' k));
}.

(** ** A read hands over *)

Lemma strip_q_key q : strip_str "cauli:q:" (q_key q) = Some q.
Proof.
  unfold strip_str, q_key. change (bytes_of ("cauli:q:" +:+ q)) with (bytes_of "cauli:q:" ++ bytes_of q).
  cbn [bytes_of list_ascii_of_string strip_prefix Datatypes.app]. cbn. f_equal. apply str_of_bytes_of.
Qed.

Lemma returned_spawns reply q x : returned reply (q_key q) x ->
  exists sp, sp ∈ fetch_spawns reply /\ sp_queue sp = q /\ sp_id sp = id_text x.
Proof.
  intros (es & m & Hk & He). eexists. split.
  - apply list_elem_of_In, List.in_concat. eexists. split.
    + apply List.in_map, list_elem_of_In, Hk.
    + apply List.in_map, list_elem_of_In. exact He.
  - cbn [sp_queue sp_id fst snd]. by rewrite strip_q_key.
Qed.

Section query.
Context {R : Redis}.

(** What an answered query ran on. *)
Lemma query_answered c (w w' : world) r : query c w = (Ok r, w') -> exists s, exec c s = (r, server w') /\ accepted r /\
  (s = server w \/ exists t, t ∈ trips w /\ s = env_before t (server w)).
Proof.
  unfold query, round_trip. set (t := match trips w with t :: _ => t | [] => _ end).
  assert (Ht : env_before t (server w) = server w \/ exists t', t' ∈ trips w /\ env_before t (server w) = env_before t' (server w)).
  { unfold t. destruct (trips w) as [|t0 ts]; [by left|right]. exists t0. split; [left|done]. }
  destruct (torn t) as [[|n]|]; cbn; [done|destruct (exec c _); cbn; by rewrite take_nil|].
  destruct (exec c (env_before t (server w))) as [x s1] eqn:E. cbn. destruct (extract_error x) eqn:Ex; [done|]. intros [= <- <-].
  exists (env_before t (server w)). by split_and!.
Qed.

(** ** Trips are used up from the front *)

Lemma traffic_trips P (w w' : world) : traffic P w w' -> exists k, trips w' = drop k (trips w).
Proof.
  induction 1 as [w|cs w w' _ _ [k IH]]; [by exists 0%nat|]. exists (1 + k)%nat. rewrite IH. rewrite <- drop_drop. f_equal.
  unfold round_trip. destruct (match trips w with t :: _ => t | [] => _ end). destruct (exec_all _ _). by destruct (trips w).
Qed.

Lemma mover_trips q limit n : forall nows (w : world), exists k, trips (mover_rounds n q limit nows w) = drop k (trips w).
Proof.
  induction n as [|n IH]; intros nows w; cbn; [by exists 0%nat|].
  destruct (run_mover q _ limit w) as [[k|e] w1] eqn:E; (assert (HT : trips w1 = drop 1 (trips w));
    [unfold run_mover, invoke in E; destruct (match trips w with t :: _ => t | [] => _ end) as [env [[|j]|]];
     destruct (MOVER_LUA _ _ _ _ _); injection E as _ <-; by destruct (trips w)|]); [|by exists 1%nat].
  destruct (k <? limit); [by exists 1%nat|]. destruct (IH (tl nows) w1) as [j ->]. exists (1 + j)%nat. by rewrite HT, drop_drop.
Qed.
End query.

Section process.
Context {R : Redis} {V : SetViews R} {N : ErrNoop R} {SL : SetLaws R V} {KL : KeyLaws R V}
  {G : GroupViews R} {GL : GroupLaws R G} {T : StreamViews R} {TL : StreamLaws R V G T}.
Context `{Serde} (cfg : config) (de_pyresp : string -> result string PyResp) (id_only : string -> option string)
  (uniform : f64 -> f64 -> f64).
Context (xread_args : string * string -> Z -> Z -> list string -> cmd)
  (decode_streams : reply -> option (option stream_reply)) (decode_consumers : reply -> option (list (string * Z * Z))).
Context (fa : fetch_args) (ra : recovery_args) (mover_limit : Z).
Context {RL : ReadLaws R G T xread_args decode_streams} (HX : reads_streams xread_args fa (ra_consumer ra)).
Abbreviation pstep := (pstep cfg de_pyresp id_only uniform xread_args decode_streams decode_consumers fa ra mover_limit).

(** A step uses up trips from the front, and new ones come at the end. *)
Lemma pstep_trips s e s' : pstep s e s' -> exists k, trips (p_world s') = drop k (trips (p_world s)) ++ arriving e.
Proof.
  assert (HS : forall P (w w' : world), traffic P w w' -> exists k, trips w' = drop k (trips w) ++ []).
  { intros P w w' [k ->]%traffic_trips. exists k. by rewrite app_nil_r. }
  intros Hs. destruct Hs as [s g c b spawns w' _ E|s views held q' start page next acts w' _ _ _ E|s l1 act l2 free x io l Ht E
    |s q' b n ans w' Hb E|s q' nows w' _ E|s q' tr w' _ E|s w' E|s ts|s q0 i0 _|s]; cbn [p_world arriving].
  - pose proof (fetch_talks xread_args decode_streams fa (ra_consumer ra) c b (p_world s) HX) as HT. rewrite E in HT. by eapply HS.
  - pose proof (recover_talks ra held q' start page (p_world s)) as HT. rewrite E in HT. by eapply HS.
  - exists 0%nat. by rewrite app_nil_r.
  - eapply (HS (fun _ => True)), (flush_traffic q'); [apply Forall_true; intros; by apply Forall_true|intros; by apply Forall_true|exact E].
  - subst w'. destruct (mover_trips q' (Z.max mover_limit 1) MOVER_ROUNDS_PER_TICK nows (p_world s)) as [k Hk]. exists k.
    unfold mover_queue. by rewrite Hk, app_nil_r.
  - pose proof (trim_queue_traffic q' (p_trimmed s) (p_world s)) as HT. rewrite E in HT. by eapply HS.
  - subst w'. eapply HS, reap_talks.
  - by exists 0%nat.
  - exists 0%nat. by rewrite app_nil_r.
  - exists 0%nat. by rewrite app_nil_r.
Qed.

(** A read made now is answered. *)
Definition answered (s : proc) : Prop := forall n b, 1 <= n -> exists r w',
  query (xread_args ("cauli", ra_consumer ra)%string n b (q_key <$> fa_queues fa)) (p_world s) = (Ok r, w').

Section entry.
Context (q : string) (p : Z * Z) (Hq : q ∈ fa_queues fa).

(** Another process leaves the entry and what is ahead of it to this one. *)
Definition patient (t : trip) : Prop := forall s, group_step (q_key q) s (env_before t s) /\
  (undelivered s (q_key q) p -> undelivered (env_before t s) (q_key q) p /\
    forall x, id_lt x p -> undelivered (env_before t s) (q_key q) x -> undelivered s (q_key q) x).

(** It waits behind some of [l] at most. *)
Definition waits (l : list (Z * Z)) (s : rstate) : Prop :=
  undelivered s (q_key q) p /\ forall x, undelivered s (q_key q) x -> id_lt x p -> x ∈ l.

Lemma waits_patient l t s : patient t -> waits l s -> waits l (env_before t s).
Proof. intros HP [H1 H2]. destruct (HP s) as [_ H3]. destruct (H3 H1) as [H4 H5]. split; [done|]. intros x Hx Hlt. apply H2; [by apply H5|done]. Qed.

Lemma waits_guards l : guards q p unread (waits l).
Proof.
  split; [by intros c [Hc _]| |].
  - intros c s r s' Hc E Hs [[H1 H2] H3]. destruct (order_law _ _ _ _ _ _ E Hc Hs H1) as [EL HI].
    destruct (spares_law _ _ _ _ _ _ E Hs) as [H4 _]; [by split; [|right]|].
    split; [split; [done|by rewrite EL]|]. intros x [Hx Hlx] Hlt. apply H3; [|done]. split; [by apply HI|by rewrite <- EL].
  - intros s [[H1 H2] _]. split; [done|by right].
Qed.

(** An answered read returns it, or delivers something ahead of it. *)
Lemma read_hands l n b w r w1 spawns w' : 1 <= n -> Forall patient (trips w) -> waits l (server w) ->
  query (xread_args ("cauli", ra_consumer ra)%string n b (q_key <$> fa_queues fa)) w = (Ok r, w1) ->
  fetch_read xread_args decode_streams fa (ra_consumer ra) n b w = (spawns, w') ->
  (exists sp, sp ∈ spawns /\ sp_queue sp = q /\ sp_id sp = id_text p) \/
  exists l', waits l' (server w') /\ (length l' < length l)%nat.
Proof.
  intros Hn HP HW EQ. unfold fetch_read. rewrite EQ. destruct (query_answered _ _ _ _ EQ) as (s0 & E & HA & Hs).
  assert (HW0 : waits l s0).
  { destruct Hs as [->|(t & Ht & ->)]; [done|]. rewrite Forall_forall in HP. apply waits_patient; [by apply HP|done]. }
  destruct (read_law _ _ _ _ _ _ _ Hn E HA) as (reply & -> & Hk). destruct (Hk (q_key q)) as (_ & HI & HR & HD).
  intros ES. assert (spawns = fetch_spawns (default [] reply) /\ w' = w1) as [-> ->] by (destruct reply; by injection ES as <- <-).
  destruct HW0 as [H1 H2]. destruct (HR p H1) as [Hlt|Hret]; [right|left; by apply returned_spawns].
  destruct (HD ltac:(by apply list_elem_of_fmap_2) p H1) as (y & Hy & Hyp & Hyd).
  assert (Hlt' : id_lt y p) by (unfold id_lt, id_le in *; lia).
  exists (filter (fun x => x <> y) l). split; [|apply (length_filter_lt _ _ y); [by apply H2|auto]]. split.
  - split; [by apply HI, H1|done].
  - intros x [Hx Hlx] Hxp. apply list_elem_of_filter. split; [intros ->; unfold id_lt, id_le in *; lia|].
    apply H2; [|done]. split; [by apply HI|]. destruct (Hk (q_key q)) as (HM & _). unfold id_lt, id_le in *. lia.
Qed.

(** One step: it goes nearer, or is handed over. *)
Lemma wait_step l es s e s' : ledger cfg es s -> pstep s e s' -> (is_fetch e -> answered s) ->
  Forall patient (trips (p_world s)) -> Forall patient (arriving e) -> took_none e s s' ->
  waits l (server (p_world s)) ->
  let_go q (p_world s') (id_text p) \/ picked q (id_text p) s' \/
  exists l', waits l' (server (p_world s')) /\ (length l' <= length l)%nat /\ (is_fetch e -> (length l' < length l)%nat).
Proof.
  intros HL Hs HA HP HPe HR HW. assert (HF : is_fetch e \/ ~ is_fetch e) by (destruct e; cbn; auto). destruct HF as [HF|HF].
  - right. specialize (HA HF). destruct Hs as [s g n b spawns w' Hg E| | | | | | | | |]; try done. cbn [p_world p_tasks] in *.
    assert (Hn : 1 <= n).
    { unfold fetch_turn in Hg. destruct (gv_shutting_down g); [done|]. destruct (_ || _); [done|]. injection Hg as <- _. lia. }
    destruct (HA n b Hn) as (r & w1 & EQ).
    destruct (read_hands l n b _ _ _ _ _ Hn HP HW EQ E) as [(sp & Hsp & Hsq & Hsi)|(l' & HW' & Hl)]; [left|right].
    + exists (ASpawn sp). split_and!; [|done..]. cbn. apply elem_of_app. right. by apply list_elem_of_fmap_2.
    + exists l'. split_and!; [done|lia|done].
  - assert (HG : forall ts, Forall patient ts -> Forall (peer q (waits l)) ts).
    { intros ts Hts. eapply Forall_impl; [exact Hts|]. intros t Ht s0. split; [apply Ht|by apply waits_patient]. }
    destruct (pstep_ok _ _ _ _ _ _ _ _ _ _ HX q p _ _ (waits_guards l) _ _ _ _ HL Hs) as [_ _ _ HS].
    destruct (HS ltac:(destruct e; cbn in *; first [done|by intros c []]) (HG _ HPe) HR (HG _ HP) (or_introl HW)) as [[HW'|Hgo] _]; [right; right|by left].
    exists l. by split_and!.
Qed.

Section runs.
Context (st : nat -> proc) (ev : nat -> pevent) (w : world) (N0 : nat).
Context (Hrun : forever pstep st ev) (Hstart : st 0%nat = proc_start fa w) (Htrace : trace w = []).
Context (Hread : forall n, (N0 <= n)%nat -> is_fetch (ev n) -> answered (st n)).
Context (Htrips : Forall patient (trips (p_world (st N0)))) (Hcome : forall n, (N0 <= n)%nat -> Forall patient (arriving (ev n))).
Context (Hreap : forall n, (N0 <= n)%nat -> took_none (ev n) (st n) (st (S n))).
Context (Hfetch : forall n, (N0 <= n)%nat -> undelivered (server (p_world (st n))) (q_key q) p ->
  exists m, (n <= m)%nat /\ is_fetch (ev m)).

Lemma patient_at n : (N0 <= n)%nat -> Forall patient (trips (p_world (st n))).
Proof.
  intros (d & ->)%Nat.le_sum. induction d as [|d IH]; [by rewrite Nat.add_0_r|]. rewrite Nat.add_succ_r.
  destruct (pstep_trips _ _ _ (Hrun (N0 + d)%nat)) as [k ->]. apply Forall_app. split; [by apply Forall_drop|]. apply Hcome. lia.
Qed.

Abbreviation got n := (got q (id_text p) (st n)).

Lemma wait_at n l : (N0 <= n)%nat -> waits l (server (p_world (st n))) -> got (S n) \/
  exists l', waits l' (server (p_world (st (S n)))) /\ (length l' <= length l)%nat /\ (is_fetch (ev n) -> (length l' < length l)%nat).
Proof.
  intros HN HW. destruct (wait_step l _ _ _ _ (ledger_at _ _ _ _ _ _ _ _ _ _ HX _ _ _ Hrun Hstart Htrace n) (Hrun n) (Hread n HN) (patient_at n HN) (Hcome n HN) (Hreap n HN) HW)
    as [Hg|[Hp|Hl]]; [left; by left|left; right; by left|by right].
Qed.

Lemma wait_until n l d : (N0 <= n)%nat -> waits l (server (p_world (st n))) -> (exists m, (n <= m)%nat /\ got m) \/
  exists l', waits l' (server (p_world (st (n + d)))) /\ (length l' <= length l)%nat.
Proof.
  intros HN HW. induction d as [|d IH]; [right; exists l; by rewrite Nat.add_0_r|].
  destruct IH as [Hg|(l1 & HW1 & Hl1)]; [by left|]. rewrite Nat.add_succ_r.
  destruct (wait_at (n + d) l1 ltac:(lia) HW1) as [Hg|(l2 & HW2 & Hl2 & _)]; [left; exists (S (n + d)); split; [lia|done]|].
  right. exists l2. split; [done|lia].
Qed.

(** Every read takes one of those ahead, so its turn comes. *)
Lemma wait_ends n l : (N0 <= n)%nat -> waits l (server (p_world (st n))) -> exists m, (n <= m)%nat /\ got m.
Proof.
  remember (length l) as k eqn:Ek. revert n l Ek. induction k as [k IH] using lt_wf_ind. intros n l -> HN HW.
  destruct (Hfetch n HN (proj1 HW)) as (m & Hm & HF). destruct (wait_until n l (m - n) HN HW) as [Hg|(l1 & HW1 & Hl1)]; [done|].
  replace (n + (m - n))%nat with m in HW1 by lia.
  destruct (wait_at m l1 ltac:(lia) HW1) as [Hg|(l2 & HW2 & _ & Hl2)]; [exists (S m); split; [lia|done]|].
  destruct (IH (length l2) ltac:(specialize (Hl2 HF); lia) (S m) l2 eq_refl ltac:(lia) HW2) as (m' & ? & ?). exists m'. split; [lia|done].
Qed.

Lemma undelivered_got n : (N0 <= n)%nat -> undelivered (server (p_world (st n))) (q_key q) p -> exists m, (n <= m)%nat /\ got m.
Proof.
  intros HN HU. destruct (stream_finite (server (p_world (st n))) (q_key q)) as [l Hl]. apply (wait_ends n l HN).
  split; [done|]. intros x [Hx _] _. by apply Hl.
Qed.

End runs.
End entry.
End process.

Section theorems.
Context (R : Redis) (V : SetViews R) (N : ErrNoop R) (SL : SetLaws R V) (KL : KeyLaws R V)
  (G : GroupViews R) (GL : GroupLaws R G) (T : StreamViews R) (TL : StreamLaws R V G T).
Context (S0 : Serde) (cfg : config) (de_pyresp : string -> result string PyResp) (id_only : string -> option string)
  (uniform : f64 -> f64 -> f64).
Context (xread_args : string * string -> Z -> Z -> list string -> cmd)
  (decode_streams : reply -> option (option stream_reply)) (decode_consumers : reply -> option (list (string * Z * Z))).
Context (fa : fetch_args) (ra : recovery_args) (mover_limit : Z) (RL : ReadLaws R G T xread_args decode_streams)
  (CV : ConsumerViews R) (CL : ConsumerLaws R CV decode_consumers).
Abbreviation pstep := (pstep cfg de_pyresp id_only uniform xread_args decode_streams decode_consumers fa ra mover_limit).

(** A moment without a fault: no crash, its flush and its read answered, and
    other processes that leave the entry and those ahead of it alone. *)
Definition faultless (q : string) (p : Z * Z) (s : proc) (e : pevent) : Prop :=
  e <> PCrashed /\ flush_ok s e /\ (is_fetch e -> answered xread_args fa ra s) /\ Forall (patient q p) (arriving e).

(** C6. Every entry in a stream is settled. In any run of the process from its
    start, faultless from some moment on, an entry of one of its queues nobody
    took by that moment is in the end handed over by a read or a claim and
    acknowledged, after an outcome of what was handed over was accepted; however
    many entries wait ahead of it or arrive behind it, however small the reads
    and the batches. Needed of the schedule is only that a read comes while the
    entry waits, that tasks are run and that waiting buffers are flushed. *)
Theorem waiting_entry_is_settled (st : nat -> proc) (ev : nat -> pevent) w N0 q p :
  reads_streams xread_args fa (ra_consumer ra) -> q ∈ fa_queues fa ->
  trace w = [] -> st 0%nat = proc_start fa w -> forever pstep st ev ->
  (forall n, (N0 <= n)%nat -> reap_unraced decode_consumers ra (ev n) (st n) (st (S n))) ->
  (forall n, (N0 <= n)%nat -> faultless q p (st n) (ev n)) -> Forall (patient q p) (trips (p_world (st N0))) ->
  (forall n, (N0 <= n)%nat -> undelivered (server (p_world (st n))) (q_key q) p -> exists m, (n <= m)%nat /\ is_fetch (ev m)) ->
  (forall n act, (N0 <= n)%nat -> act ∈ p_tasks (st n) -> exists m, (n <= m)%nat /\ ev m = PRan act) ->
  (forall n q b, (N0 <= n)%nat -> p_bufs (st n) !! q = Some b -> b <> [] -> exists m k, (n <= m)%nat /\ ev m = PFlushed q (S k)) ->
  (forall n act, act ∈ p_tasks (st n) -> act_queue act = q -> act_id act = id_text p -> scannable (act_raw act)) ->
  undelivered (server (p_world (st N0))) (q_key q) p ->
  settled cfg st ev q (id_text p).
Proof.
  intros HX Hq Ht H0 Hrun Hreap HC HP Hfetch Htask Hflush Hsc HU.
  destruct (undelivered_got cfg de_pyresp id_only uniform xread_args decode_streams decode_consumers fa ra mover_limit HX q p Hq st ev w N0 Hrun H0 Ht)
    with (n := N0) as (n & Hn & Hg); [intros n Hn; apply (HC n Hn)|done|intros n Hn; apply (HC n Hn)|
    intros n Hn; exact (unraced_took_none _ _ _ _ _ _ _ _ _ _ _ _ _ (Hrun n) (Hreap n Hn))|done..|].
  eapply (got_settled cfg de_pyresp id_only uniform xread_args decode_streams decode_consumers fa ra mover_limit HX st ev w Hrun H0 Ht N0);
    [|done|done|done|exact Hn|by apply Hsc|exact Hg].
  intros k Hk. destruct (HC k Hk) as (? & ? & _). done.
Qed.
End theorems.

(** ** The concrete server hands out entries this way *)

Module MiniReads.
Import MiniRedis.

(** Nothing delivered, and nothing new below [p]. *)
Definition in_order (p : Z * Z) (t t' : strm) : Prop :=
  given t' = given t /\ forall x, id_lt x p -> x ∈ (log t').*1 -> x ∈ (log t).*1.

Lemma in_order_put p s k t k' : good t -> in_order p (stream_at s k) t -> in_order p (stream_at s k') (stream_at (put s k t) k').
Proof. intros Hg H. destruct (decide (k' = k)) as [->|Hk]; [by rewrite at_put|by rewrite at_put_ne]. Qed.

Lemma in_order_with_log p t f : in_order p t (with_log t f).
Proof. split; [done|]. intros x _ (y & -> & [Hy _]%filter_elem)%list_elem_of_fmap. by apply list_elem_of_fmap_2. Qed.

Lemma in_order_append p e t t' : good t -> p ∈ (log t).*1 -> append e t = Some t' -> in_order p t t'.
Proof.
  intros Hg Hp. unfold append. destruct (_ <? _); [|done]. intros [= <-]. split; [done|]. cbn. intros x Hx.
  rewrite fmap_app. intros [?| ->%list_elem_of_singleton]%elem_of_app; [done|exfalso].
  pose proof (g_below _ Hg) as HB. rewrite Forall_forall in HB. destruct (HB p Hp) as [_ Hle]. unfold id_lt, id_le in *. cbn in *. lia.
Qed.

Lemma in_order_claim p c idle id t : in_order p t (claim c idle id t).2.
Proof. unfold claim. repeat case_match; by split. Qed.

Lemma exec_in_order k p c s r s' : exec c s = (r, s') -> unread c -> spares k p c r -> p ∈ (log (stream_at s k)).*1 ->
  in_order p (stream_at s k) (stream_at s' k).
Proof.
  intros E Hu Hs Hp. destruct Hs as [op k' args r Ho Hk|e r|c r [Hh _]|op args r Ho|k' c i0 id r|k' r|k' c r ->|ids r Hn|ids r Hn|b pb r Hb Hle].
  - pose proof (one_key_effect op k' args s Ho) as HE. rewrite E in HE.
    by destruct (elsewhere_same k' s s' HE k ltac:(done)) as [_ ->].
  - cbn in E. destruct (append e (stream_at s k)) as [t|] eqn:Ea; simplify_eq; [|done].
    apply in_order_put; [by eapply good_append; [apply good_at|]|]. by eapply in_order_append; [apply good_at|..].
  - done.
  - pose proof (exec_look op args s Ho) as H. rewrite E in H. cbn [snd] in H. by subst s'.
  - destruct (exec_claim k' c i0 id s) as [H|[i H]]; rewrite E in H; cbn [snd] in H; subst s'; [done|].
    apply in_order_put; [apply good_claim, good_at|apply in_order_claim].
  - cbn in E. by simplify_eq.
  - cbn in E. injection E as _ <-. by apply in_order_put; [apply good_with_pels, good_at|].
  - cbn in E. simplify_eq. by apply in_order_put; [apply good_with_pels, good_at|].
  - cbn in E. simplify_eq. apply in_order_put; [apply good_with_log, good_at|apply in_order_with_log].
  - cbn in E. rewrite Hb in E. simplify_eq. apply in_order_put; [apply good_with_log, good_at|apply in_order_with_log].
Qed.

(** Past what was delivered. *)
Definition fresh_in (t : strm) (x : Z * Z) : Prop := x ∈ (log t).*1 /\ id_lt (given t) x.

Lemma given_grows c n t : good t -> id_le (given t) (given (deliver c n t)).
Proof.
  intros Hg. cbn. destruct (deliver_given_in n t) as [->|(z & -> & Hz)]; cbn; [auto with redis|]. by apply id_lt_le, (next_ids_elem n).
Qed.

Lemma deliver_all c n t x : good t -> fresh_in t x -> id_lt (given (deliver c n t)) x \/ x ∈ next_ids n t.
Proof.
  intros Hg [H1 H2]. destruct (owed_deliver c n t x Hg) as [_ [HP|HP]]; [by split; [|right]| |by left].
  revert HP. cbn. rewrite fmap_app, <- list_fmap_compose.
  rewrite (list_fmap_id (next_ids n t) : (pd_id ∘ new_row c) <$> _ = _). intros [HP|HP]%elem_of_app; [exfalso|by right].
  pose proof (g_given _ Hg) as HG. rewrite Forall_forall in HG. destruct (HG x HP) as [_ Hle]. unfold id_lt, id_le in *. lia.
Qed.

Lemma deliver_oldest c n t x : good t -> (1 <= n)%nat -> fresh_in t x ->
  exists y, fresh_in t y /\ id_le y x /\ id_le y (given (deliver c n t)).
Proof.
  intros Hg Hn HF. destruct (deliver_all c n t x Hg HF) as [Hlt|Hin].
  - pose proof (next_ids_elem n t) as HE. pose proof (deliver_given n t) as HG.
    destruct (next_ids n t) as [|y l] eqn:EN.
    + exfalso. unfold next_ids in EN. destruct HF as [(z & -> & Hz)%list_elem_of_fmap H2].
      assert (Hz' : z ∈ List.filter (fun p => id_ltb (given t) p.1) (log t)) by (apply filter_elem; split; [done|by apply id_ltb_lt]).
      destruct (List.filter _ (log t)) as [|z0 F]; [by apply not_elem_of_nil in Hz'|]. by destruct n; [lia|].
    + specialize (HG y Hg ltac:(left)). destruct (HE y ltac:(left)) as [H1 H2]. exists y. split; [by split|].
      cbn [deliver given] in Hlt |- *. rewrite EN in Hlt |- *. split; [|done]. unfold id_lt, id_le in *. lia.
  - exists x. split_and!; [done|auto with redis|]. cbn. by apply deliver_given.
Qed.

(** What a read of several streams does to one of them. *)
Record reads_on (c : string) (n : nat) (ks : list string) (k : string) (rs : list reply) (t t' : strm) : Prop := {
  ro_given : id_le (given t) (given t');
  ro_log : log t' = log t;
  ro_all x : fresh_in t x -> id_lt (given t') x \/ exists es e, RArr (RBulk k :: es) ∈ rs /\ entry_reply (id_text x) e ∈ es;
  ro_some x : k ∈ ks -> fresh_in t x -> exists y, fresh_in t y /\ id_le y x /\ id_le y (given t');
}.

Lemma read_group_on c n ks : (1 <= n)%nat -> forall s rs s' k, read_group c n ks s = (rs, s') ->
  reads_on c n ks k rs (stream_at s k) (stream_at s' k).
Proof.
  intros Hn. induction ks as [|k0 ks IH]; intros s rs s' k E; cbn in E.
  - injection E as <- <-. split; [auto with redis|done|intros x [_ ?]; by left|by intros x ?%not_elem_of_nil].
  - destruct (read_group c n ks _) as [rs1 s1] eqn:E1. injection E as <- <-. apply (IH _ _ _ k) in E1.
    destruct (decide (k = k0)) as [->|Hk].
    + set (t := stream_at s k0) in *. pose proof (good_at s k0) as Hg. fold t in Hg. rewrite at_put in E1 by by apply good_deliver.
      destruct E1 as [G1 L1 A1 S1]. pose proof (given_grows c n t Hg) as HG. split; [eauto with redis|done| |].
      * intros x Hx. destruct (deliver_all c n t x Hg Hx) as [Hlt|Hin].
        -- destruct (A1 x) as [?|(es & e & ? & ?)]; [split; [apply Hx|done]|by left|].
           right. exists es, e. split; [by right|done].
        -- right. do 2 eexists. split; [left|]. apply list_elem_of_fmap. exists x. by split.
      * intros x _ Hx. destruct (deliver_oldest c n t x Hg Hn Hx) as (y & Hy & Hyx & Hyg). exists y. split_and!; [done|done|eauto with redis].
    + rewrite at_put_ne in E1 by done. destruct E1 as [G1 L1 A1 S1]. split; [done|done| |].
      * intros x Hx. destruct (A1 x Hx) as [?|(es & e & ? & ?)]; [by left|right]. exists es, e. split; [by right|done].
      * intros x Hks. apply S1. by apply elem_of_cons in Hks as [->|?].
Qed.

#[export] Instance mini_read_laws : ReadLaws mini mini_groups mini_streams mini_xread mini_decode.
Proof.
  split.
  - intros s k. by exists (log (stream_at s k)).*1.
  - intros k p c s r s' E Hu Hs Hp. by eapply exec_in_order.
  - intros consumer n b ks s r s' _ E _.
    change (Redis.exec _ s) with (let '(rs, s1) := read_group consumer 1 ks s in (RArr rs, s1)) in E.
    destruct (read_group consumer 1 ks s) as [rs s1] eqn:Er. injection E as <- <-.
    exists (Some (omap mini_stream rs)). split; [done|]. intros k.
    destruct (read_group_on consumer 1 ks ltac:(lia) s rs s1 k Er) as [HG HL HA HS]. split_and!.
    + exact HG.
    + intros x. unfold in_stream, mini_streams. by rewrite HL.
    + intros x Hx. destruct (HA x Hx) as [?|(es & e & H1 & H2)]; [by left|right].
      exists (omap mini_entry es), {["e"%string := Some e]}. cbn [default]. split; apply list_elem_of_omap.
      * by exists (RArr (RBulk k :: es)).
      * exists (entry_reply (id_text x) e). split; [done|]. cbn. by rewrite map_fmap_singleton.
    + intros Hk x. by apply HS.
Qed.
End MiniReads.

(** ** The run of [Liveness.mini_forever], from its start *)

Definition is_ok {E A} (r : result E A) : bool := match r with Ok _ => true | Err _ => false end.

Lemma mini_answered_read : is_ok (@query MiniRedis.mini (mini_xread ("cauli", "me")%string 1 1 ["cauli:q:q"%string]) fresh_world).1 = true.
Proof. vm_compute. reflexivity. Qed.

Lemma mini_reads_answered n : is_fetch (mini_event_at n) -> answered mini_xread mini_fa sample_args (mini_run_at n).
Proof.
  destruct n as [|[|[|n]]]; try done. intros _ c b _. pose proof mini_answered_read as HA.
  change (is_ok (@query MiniRedis.mini (mini_xread ("cauli", ra_consumer sample_args)%string c b (q_key <$> fa_queues mini_fa)) (p_world (mini_run_at 0))).1 = true) in HA.
  destruct (query _ _) as [[r|e] w']; [by eexists _, _|done].
Qed.

Lemma mini_given_after n : MiniRedis.given (MiniRedis.stream_at (server (p_world (mini_run_at (S n)))) "cauli:q:q") = (1, 0).
Proof. destruct n as [|[|n]]; vm_compute; reflexivity. Qed.

Lemma mini_read_comes n : @undelivered MiniRedis.mini MiniRedis.mini_groups MiniRedis.mini_streams (server (p_world (mini_run_at n))) (q_key "q") (1, 0) -> exists m, (n <= m)%nat /\ is_fetch (mini_event_at m).
Proof.
  destruct n as [|n]; [intros _; by exists 0%nat|]. intros [_ HU]. exfalso. pose proof (mini_given_after n) as HG.
  change (id_lt (MiniRedis.given (MiniRedis.stream_at (server (p_world (mini_run_at (S n)))) "cauli:q:q")) (1, 0)) in HU.
  rewrite HG in HU. unfold id_lt in HU. cbn in HU. lia.
Qed.

Lemma mini_task_only n act : act ∈ p_tasks (mini_run_at n) -> act = mini_act.
Proof.
  destruct n as [|[|[|n]]]; cbn [mini_run_at p_tasks mini_s0 mini_s1 mini_s2 mini_s3 proc_start]; try (by intros ?%not_elem_of_nil).
  by intros ->%list_elem_of_singleton.
Qed.

Lemma waiting_entry_is_settled_witness : exists m act r, act_id act = "1-0"%string /\ Broker.sid r = "1-0"%string /\
  @outcome_of Toy.serde toy_cfg "q" (act_raw act) (extra_cmds r) /\
  landed (trace (p_world (mini_run_at m))) r /\ let_go "q" (p_world (mini_run_at m)) "1-0".
Proof.
  destruct (waiting_entry_is_settled MiniRedis.mini MiniRedis.mini_sets MiniRedis.mini_noop MiniRedis.mini_set_laws MiniRedis.mini_key_laws
    MiniRedis.mini_groups MiniRedis.mini_group_laws MiniRedis.mini_streams MiniRedis.mini_stream_laws Toy.serde toy_cfg
    (fun _ => Err ""%string) (fun _ => None) Dispatch.top mini_xread mini_decode MiniReaping.mini_consumers mini_fa sample_args 128 MiniReads.mini_read_laws
    _ MiniReaping.mini_consumer_laws
    mini_run_at mini_event_at fresh_world 0 "q" (1, 0)) as (m & act & r & _ & _ & H1 & H2 & H3 & H4 & H5).
  - intros n b. split; [reflexivity|]. cbn. set_solver.
  - left.
  - reflexivity.
  - reflexivity.
  - exact mini_forever.
  - intros [|[|[|n]]] _; exact I.
  - intros n _. destruct (mini_calm n) as [HC HF]. split_and!; [exact HC|exact HF|apply mini_reads_answered|].
    destruct n as [|[|[|n]]]; exact (List.Forall_nil _).
  - exact (List.Forall_nil _).
  - intros n _. apply mini_read_comes.
  - intros n act _. apply mini_tasks_run.
  - intros n q b _. apply mini_bufs_flushed.
  - intros n act ->%mini_task_only _ _ text env [= <-] E. exfalso. revert E. vm_compute. discriminate.
  - split; [|change (id_lt (MiniRedis.given (MiniRedis.stream_at (server fresh_world) "cauli:q:q")) (1, 0)); rewrite mini_fresh_at; unfold id_lt; cbn; lia].
    change (@in_stream MiniRedis.mini MiniRedis.mini_streams (server (p_world (mini_run_at 0))) (q_key "q") (1, 0)) with
      ((1, 0) ∈ (MiniRedis.log (MiniRedis.stream_at (server fresh_world) "cauli:q:q")).*1). rewrite mini_fresh_at. left.
  - exists m, act, r. split_and!; [exact H1|exact H2|exact H3|exact H4|exact H5].
Defined.
