(* ===== verification/Redelivery.v ===== *)
(** From a dead worker to the acknowledgement: what a process ([System]) whose
    recovery keeps scanning ([recovery_loop] of [worker/src/loops.rs]) does with
    an entry that is pending and idle past its threshold, whoever had it: a
    worker that died, a read whose reply was lost, this process before a crash. *)
From S2P Require Import Prelude Float64 Backoff Envelope Stats Ctx Redis Broker Tree Pyrt Exec Dispatch Delivery Loops Server Recovery Reaping System Liveness Progress.
Open Scope Z_scope.

(** The ids pending in a stream. *)
Definition pending_ids_of {R : Redis} {P : PelViews R} (s : rstate) (k : string) : list (Z * Z) := pd_id <$> pending_of s k.

(** What is pending was delivered, and a claim delivers nothing. Claims aside, a
    command that spares a pending entry leaves its row and its fields as they
    are, and makes nothing below it pending. *)
Class OrphanLaws (R : Redis) (G : GroupViews R) (T : StreamViews R) (P : PelViews R) : Prop := {
  pending_given s k p : p ∈ pending_ids_of s k -> id_le p (last_delivered s k);
  claim_given k c idle id s r s' : exec (xclaim_one k c idle id) s = (r, s') -> forall k', last_delivered s' k' = last_delivered s k';
  orphan_owed s k p m : p ∈ pending_ids_of s k -> fields_of s k p = Some m -> owed s k p;
  orphan_law k p c s r s' : exec c s = (r, s') -> unclaimed c -> spares k p c r -> owed s k p -> p ∈ pending_ids_of s k ->
    same_entry s s' k p /\ forall x, id_lt x p -> x ∈ pending_ids_of s' k -> x ∈ pending_ids_of s k;
}.

Section process.
Context {R : Redis} {V : SetViews R} {N : ErrNoop R} {SL : SetLaws R V} {KL : KeyLaws R V}
  {G : GroupViews R} {GL : GroupLaws R G} {T : StreamViews R} {TL : StreamLaws R V G T}
  {P : PelViews R} {PL : PelLaws R P} {OL : OrphanLaws R G T P}.
Context `{Serde} (cfg : config) (de_pyresp : string -> result string PyResp) (id_only : string -> option string)
  (uniform : f64 -> f64 -> f64).
Context (xread_args : string * string -> Z -> Z -> list string -> cmd)
  (decode_streams : reply -> option (option stream_reply)) (decode_consumers : reply -> option (list (string * Z * Z))).
Context (fa : fetch_args) (ra : recovery_args) (mover_limit : Z).
Context (HX : reads_streams xread_args fa (ra_consumer ra)) (Hacc : answers_recovery R) (Hvt : is_u64 (ra_vt_ms ra)).
Abbreviation pstep := (pstep cfg de_pyresp id_only uniform xread_args decode_streams decode_consumers fa ra mover_limit).

Section entry.
Context (q : string) (i : Z * Z) (m : gmap string string).
Abbreviation stuck := (stuck ra q i m).

(** Nothing up to the entry is pending that was not before. *)
Definition settling (s s' : rstate) : Prop := forall x, id_le x i -> x ∈ pending_ids_of s' (q_key q) -> x ∈ pending_ids_of s (q_key q).

(** The connection holds, and other processes leave the entry to this one. They
    may read: once the entry was delivered, nothing up to it is delivered again. *)
Definition steady (t : trip) : Prop := torn t = None /\ forall s, group_step (q_key q) s (env_before t s) /\
  (stuck s -> stuck (env_before t s)) /\ (id_le i (last_delivered s (q_key q)) -> settling s (env_before t s)).

(** Orphaned, with at most [B] pending below it. *)
Definition beneath (B : list (Z * Z)) (s : rstate) : Prop := forall x, id_lt x i -> x ∈ pending_ids_of s (q_key q) -> x ∈ B.
Definition orphaned (B : list (Z * Z)) (s : rstate) : Prop := stuck s /\ beneath B s.

Lemma stuck_pending s : stuck s -> i ∈ pending_ids_of s (q_key q).
Proof. intros [(row & Hr & <- & _) _]. by apply list_elem_of_fmap_2. Qed.

Lemma orphaned_steady B t s : steady t -> orphaned B s -> orphaned B (env_before t s).
Proof.
  intros [_ HS] [H1 H2]. destruct (HS s) as (_ & H3 & H4). split; [by apply H3|]. intros x Hx Hin. apply H2; [done|].
  apply H4; [by apply pending_given, stuck_pending|by apply id_lt_le|done].
Qed.

Lemma orphan_guards B : guards q i unclaimed (orphaned B).
Proof.
  assert (HO : forall s, stuck s -> owed s (q_key q) i) by (intros s Hs; eapply orphan_owed; [by apply stuck_pending|apply Hs]).
  split; [by intros c [_ Hc]| |by intros s [Hs _]; apply HO]. intros c s r s' Hc E Hsp [Hs HB].
  destruct (orphan_law _ _ _ _ _ _ E Hc Hsp (HO s Hs) (stuck_pending s Hs)) as [[HR HF] HN]. destruct Hs as [(row & Hr & Hid & Hle) Hm]. split.
  - split; [exists row; split_and!; [by apply HR|done..]|by rewrite HF].
  - intros x Hx Hin. by apply HB, HN.
Qed.

(** The bound as recovery's pages keep it. *)
Definition bounded (B : list (Z * Z)) (s : rstate) : Prop :=
  id_le i (last_delivered s (q_key q)) /\ (i ∈ pending_ids_of s (q_key q) -> beneath B s).

Lemma bounded_stuck B s : bounded B s -> stuck s -> beneath B s.
Proof. intros [_ HB] Hs. by apply HB, stuck_pending. Qed.

Lemma bounded_kept B : claims_keep (bounded B).
Proof.
  intros k consumer idle y s r s' Hy Hi E HA [HL HB]. destruct (xclaim_law _ _ _ _ _ _ _ Hy Hi E HA) as (_ & _ & Hsub).
  split; [by erewrite claim_given|]. intros Hin x Hx Hxin. apply HB; [by apply Hsub|done|by apply Hsub].
Qed.

Lemma steady_calm B w : Forall steady (trips w) -> calm ra q i m (bounded B) w.
Proof.
  intros HF. eapply Forall_impl; [exact HF|]. intros t [Ht HS]. split_and!; [done|intros s; apply HS|].
  intros s [HL HB]. destruct (HS s) as ((HM & _) & _ & H3). specialize (H3 HL). split; [eauto with redis|].
  intros Hi x Hx Hin. apply HB; [apply H3; [apply id_le_refl|done]|done|apply H3; [by apply id_lt_le|done]].
Qed.

(** A page ahead of the entry hands it over, or leaves a cursor closer below it. *)
Definition closer (B : list (Z * Z)) (start : string) (next : option string) : Prop := exists cur, next = Some cur /\
  past cur i = true /\ (length (List.filter (past cur) B) < length (List.filter (past start) B))%nat.

Lemma page_step B held q' start page w next acts w' : 1 <= page <= u64_max -> Forall steady (trips w) -> orphaned B (server w) ->
  holds_entry held q (id_text i) = false -> recover_page ra held q' start page w = ((next, acts), w') ->
  reached q i acts \/ (orphaned B (server w') /\ (q' = q -> past start i = true -> closer B start next)).
Proof.
  intros Hp HF [Hs HB] Hh E.
  destruct (page_calm Hacc ra q i m (bounded B) Hvt (bounded_kept B) held Hh q' start page w next acts w' Hp (steady_calm B w HF) E) as [_ HW HR HC].
  assert (HB0 : bounded B (server w)) by (split; [by apply pending_given, stuck_pending|done]). destruct (HR Hs) as [|[Hs' Hn]]; [by left|right]. split.
  - split; [done|]. by apply bounded_stuck; [apply HW|].
  - intros -> Hpast. destruct (Hn eq_refl Hpast) as (cur & Ecur & Hcur). exists cur. split_and!; [done|done|].
    destruct (HC HB0 cur Ecur) as (s & x0 & HBs & Hst & Hx & Hpx & ->). pose proof Hx as (row & -> & Hrow)%list_elem_of_fmap.
    pose proof (pending_ids _ _ _ Hrow) as HU. apply cursor_shrinks; [done| |done].
    rewrite past_cursor in Hcur by done. apply id_ltb_lt in Hcur. by apply (bounded_stuck B s); [|apply Hst|..].
Qed.

(** One step: the entry comes into the hands of the process, or stays orphaned,
    and a page of its queue that had it ahead brings the scan closer. *)
Definition scanned (B : list (Z * Z)) (e : pevent) : Prop :=
  match e with
  | PRecovered pt => pt_queue pt = q -> past (pt_start pt) i = true -> closer B (pt_start pt) (pt_next pt)
  | _ => True
  end.

(** No guard of a dispatch that ended is left on it. *)
Definition tracked (s : proc) : Prop := (q, id_text i) ∈ p_live s -> got q (id_text i) s.

(** Guards come with what is handed over. *)
Lemma live_step s e s' : pstep s e s' -> (q, id_text i) ∉ p_live s -> (q, id_text i) ∉ p_live s' \/ got q (id_text i) s'.
Proof.
  assert (HA : forall acts l, (q, id_text i) ∉ l -> (q, id_text i) ∉ l ++ guarded acts \/
    exists act, act ∈ acts /\ act_queue act = q /\ act_id act = id_text i).
  { intros acts l Hl. destruct (decide ((q, id_text i) ∈ guarded acts)) as [([|sp] & Ha & E)%list_elem_of_omap|Hn]; [done| |].
    - injection E as E1 E2. right. by exists (ASpawn sp).
    - left. by intros [?|?]%elem_of_app. }
  intros Hs Hn. destruct Hs; cbn [p_live]; try (by left); try (by left; apply not_elem_of_nil).
  - destruct (HA (ASpawn <$> spawns) _ Hn) as [?|(act & Ha & H')]; [by left|right; right; left]. exists act. split; [|done].
    cbn [p_tasks]. apply elem_of_app. by right.
  - destruct (HA acts _ Hn) as [?|(act & Ha & H')]; [by left|right; right; left]. exists act. split; [|done].
    cbn [p_tasks]. apply elem_of_app. by right.
  - left. by intros [_ ?]%list_elem_of_filter.
Qed.

Lemma orphan_step B es s e s' : ledger cfg es s -> pstep s e s' -> tracked s ->
  Forall steady (trips (p_world s)) -> Forall steady (arriving e) -> took_none e s s' -> orphaned B (server (p_world s)) ->
  got q (id_text i) s \/ got q (id_text i) s' \/ (orphaned B (server (p_world s')) /\ scanned B e).
Proof.
  intros HL Hs Htr HF HFe HR HO.
  assert (HP : forall ts, Forall steady ts -> Forall (peer q (orphaned B)) ts).
  { intros ts Hts. eapply Forall_impl; [exact Hts|]. intros t Ht s0. split; [apply Ht|by apply orphaned_steady]. }
  assert (HQ : (forall c, may_say e c -> unclaimed c) -> got q (id_text i) s' \/ orphaned B (server (p_world s'))).
  { intros HM. destruct (pstep_ok _ _ _ _ _ _ _ _ _ _ HX q i _ _ (orphan_guards B) _ _ _ _ HL Hs) as [_ _ _ HS].
    by destruct (HS HM (HP _ HFe) HR (HP _ HF) (or_introl HO)) as [[HO'|Hgo] _]; [right|left; left]. }
  destruct Hs as [s g c b spawns w' _ E|s views held q' start page next acts w' Hq' Hv Hh E|s l1 act l2 free x io l Ht E
    |s q' b n ans w' Hb E|s q' nows w' _ E|s q' tr w' _ E|s w' E|s ts|s q0 i0 _|s]; cbn [scanned] in *;
    try (specialize (HQ ltac:(first [done|by intros ? []])); destruct HQ as [HQ|HQ]; [by right; left|by right; right]).
  destruct (holds_entry held q (id_text i)) eqn:Eh; [left; by apply Htr, Hh|right].
  destruct (page_step B held q' start page _ next acts w' (admitted_page _ _ Hv) HF HO Eh E) as [(a & Ha & Haq & Hai)|HO']; [left|by right].
  right. left. exists a. split_and!; [|done..]. cbn. apply elem_of_app. by right.
Qed.

Section runs.
Context (st : nat -> proc) (ev : nat -> pevent) (w : world) (N0 : nat).
Context (Hrun : forever pstep st ev) (Hstart : st 0%nat = proc_start fa w) (Htrace : trace w = []).
Context (Hlive : tracked (st N0)).
Context (Htrips : Forall steady (trips (p_world (st N0)))) (Hcome : forall n, (N0 <= n)%nat -> Forall steady (arriving (ev n))).
Context (Hreap : forall n, (N0 <= n)%nat -> took_none (ev n) (st n) (st (S n))).
Abbreviation got n := (got q (id_text i) (st n)).

Lemma steady_at n : (N0 <= n)%nat -> Forall steady (trips (p_world (st n))).
Proof.
  intros (d & ->)%Nat.le_sum. induction d as [|d IH]; [by rewrite Nat.add_0_r|]. rewrite Nat.add_succ_r.
  destruct (pstep_trips _ _ _ _ _ _ _ _ _ _ HX _ _ _ (Hrun (N0 + d)%nat)) as [k ->]. apply Forall_app. split; [by apply Forall_drop|].
  apply Hcome. lia.
Qed.

(** It came into the hands of the process. *)
Definition taken : Prop := exists n, (N0 <= n)%nat /\ got n.

Lemma tracked_at n : (N0 <= n)%nat -> taken \/ tracked (st n).
Proof.
  intros (d & ->)%Nat.le_sum. assert (H0 : taken \/ (q, id_text i) ∉ p_live (st (N0 + d))); [|destruct H0 as [H0|H0]; [by left|right; by intros ?]].
  induction d as [|d IH].
  - rewrite Nat.add_0_r. destruct (decide ((q, id_text i) ∈ p_live (st N0))) as [Hin|]; [|by right]. left. exists N0. split; [done|by apply Hlive].
  - destruct IH as [|Hn]; [by left|]. rewrite Nat.add_succ_r.
    destruct (live_step _ _ _ (Hrun (N0 + d)%nat) Hn) as [?|Hg]; [by right|left]. exists (S (N0 + d)). split; [lia|done].
Qed.

Lemma orphan_at B n : (N0 <= n)%nat -> orphaned B (server (p_world (st n))) -> taken \/
  (orphaned B (server (p_world (st (S n)))) /\ scanned B (ev n)).
Proof.
  intros HN HO. destruct (tracked_at n HN) as [|Htr]; [by left|].
  destruct (orphan_step B _ _ _ _ (ledger_at _ _ _ _ _ _ _ _ _ _ HX _ _ _ Hrun Hstart Htrace n) (Hrun n) Htr
    (steady_at n HN) (Hcome n HN) (Hreap n HN) HO) as [Hg|[Hg|HS]]; [left; by exists n|left; exists (S n); split; [lia|done]|by right].
Qed.

Lemma orphan_until B n d : (N0 <= n)%nat -> orphaned B (server (p_world (st n))) -> taken \/ orphaned B (server (p_world (st (n + d)))).
Proof.
  intros HN HO. induction d as [|d IH]; [right; by rewrite Nat.add_0_r|].
  destruct IH as [Hg|HO1]; [by left|]. rewrite Nat.add_succ_r. destruct (orphan_at B (n + d) ltac:(lia) HO1) as [Hg|[HO2 _]]; [by left|by right].
Qed.

Context (Hnext : forall n pt cur, (N0 <= n)%nat -> ev n = PRecovered pt -> pt_queue pt = q -> pt_next pt = Some cur ->
  exists m pt', (n < m)%nat /\ ev m = PRecovered pt' /\ pt_queue pt' = q /\ pt_start pt' = cur).

(** A scan that has the entry ahead comes to it. *)
Lemma scan_ends B n pt : (N0 <= n)%nat -> orphaned B (server (p_world (st n))) -> ev n = PRecovered pt -> pt_queue pt = q ->
  past (pt_start pt) i = true -> taken.
Proof.
  remember (length (List.filter (past (pt_start pt)) B)) as k eqn:Ek. revert n pt Ek.
  induction k as [k IH] using lt_wf_ind. intros n pt -> HN HO Hev Hq Hpast.
  destruct (orphan_at B n HN HO) as [Hg|[HO1 Hsc]]; [done|].
  rewrite Hev in Hsc. destruct (Hsc Hq Hpast) as (cur & Ecur & Hcur & Hlt).
  destruct (Hnext n pt cur HN Hev Hq Ecur) as (m' & pt' & Hm & Hev' & Hq' & <-).
  destruct (orphan_until B (S n) (m' - S n) ltac:(lia) HO1) as [|HO2]; [done|].
  replace (S n + (m' - S n))%nat with m' in HO2 by lia. exact (IH _ Hlt m' pt' eq_refl ltac:(lia) HO2 Hev' Hq' Hcur).
Qed.

Context (Hscan : forall n, (N0 <= n)%nat -> stuck (server (p_world (st n))) ->
  exists m pt, (n <= m)%nat /\ ev m = PRecovered pt /\ pt_queue pt = q /\ pt_start pt = "-"%string).

Lemma orphan_got n : (N0 <= n)%nat -> stuck (server (p_world (st n))) -> taken.
Proof.
  intros HN Hs. set (B := pending_ids_of (server (p_world (st n))) (q_key q)). destruct (Hscan n HN Hs) as (n1 & pt & Hn1 & Hev & Hq & Hst).
  assert (HO : orphaned B (server (p_world (st n)))) by (split; [done|]; by intros x _ Hx).
  destruct (orphan_until B n (n1 - n) HN HO) as [Hg|HO1]; [done|]. replace (n + (n1 - n))%nat with n1 in HO1 by lia.
  apply (scan_ends B n1 pt ltac:(lia) HO1 Hev Hq). by rewrite Hst.
Qed.
End runs.
End entry.
End process.

Section theorems.
Context (R : Redis) (V : SetViews R) (N : ErrNoop R) (SL : SetLaws R V) (KL : KeyLaws R V)
  (G : GroupViews R) (GL : GroupLaws R G) (T : StreamViews R) (TL : StreamLaws R V G T)
  (P : PelViews R) (PL : PelLaws R P) (OL : OrphanLaws R G T P).
Context (S0 : Serde) (cfg : config) (de_pyresp : string -> result string PyResp) (id_only : string -> option string)
  (uniform : f64 -> f64 -> f64).
Context (xread_args : string * string -> Z -> Z -> list string -> cmd)
  (decode_streams : reply -> option (option stream_reply)) (decode_consumers : reply -> option (list (string * Z * Z))).
Context (fa : fetch_args) (ra : recovery_args) (mover_limit : Z) (CV : ConsumerViews R) (CL : ConsumerLaws R CV decode_consumers).
Abbreviation pstep := (pstep cfg de_pyresp id_only uniform xread_args decode_streams decode_consumers fa ra mover_limit).

(** A moment without a fault: no crash, its flush answered, its connection up,
    and other processes that leave the entry. *)
Definition undisturbed (q : string) (i : Z * Z) (m : gmap string string) (s : proc) (e : pevent) : Prop :=
  e <> PCrashed /\ flush_ok s e /\ Forall (steady ra q i m) (arriving e).

(** Recovery at work: a scan of the queue starts while the entry is stuck, and
    one that was left a cursor goes on from it, as [drain_queues] does. *)
Definition keeps_scanning (q : string) (i : Z * Z) (m : gmap string string) (st : nat -> proc) (ev : nat -> pevent) (N0 : nat) : Prop :=
  (forall n, (N0 <= n)%nat -> stuck ra q i m (server (p_world (st n))) ->
     exists k pt, (n <= k)%nat /\ ev k = PRecovered pt /\ pt_queue pt = q /\ pt_start pt = "-"%string) /\
  (forall n pt cur, (N0 <= n)%nat -> ev n = PRecovered pt -> pt_queue pt = q -> pt_next pt = Some cur ->
     exists k pt', (n < k)%nat /\ ev k = PRecovered pt' /\ pt_queue pt' = q /\ pt_start pt' = cur).

(** C7. An entry left behind is settled. In any run of the process from its
    start, undisturbed from some moment on, an entry of one of its queues that is
    pending then and idle past what its envelope asks, whoever had it (a worker
    that died, this process before a crash, a read whose reply was lost), is in
    the end claimed and acknowledged, after an outcome of what was handed over
    was accepted; however many pending entries are ahead of it and however small
    the pages. Undisturbed is: no crash, flushes answered, no torn trip, other
    processes that leave the entry alone and read in order, no reaped consumer
    that comes back. At that moment the process holds no guard on the entry from a
    dispatch that ended ([tracked]); that none comes later is proved. Needed of
    the schedule is only that recovery keeps scanning, that tasks are run and that
    waiting buffers are flushed. *)
Theorem stuck_entry_is_settled (st : nat -> proc) (ev : nat -> pevent) w N0 q i m :
  reads_streams xread_args fa (ra_consumer ra) -> answers_recovery R -> is_u64 (ra_vt_ms ra) -> q ∈ fa_queues fa ->
  trace w = [] -> st 0%nat = proc_start fa w -> forever pstep st ev ->
  (forall n, (N0 <= n)%nat -> reap_unraced decode_consumers ra (ev n) (st n) (st (S n))) ->
  (forall n, (N0 <= n)%nat -> undisturbed q i m (st n) (ev n)) -> tracked q i (st N0) -> Forall (steady ra q i m) (trips (p_world (st N0))) ->
  keeps_scanning q i m st ev N0 ->
  (forall n act, (N0 <= n)%nat -> act ∈ p_tasks (st n) -> exists m, (n <= m)%nat /\ ev m = PRan act) ->
  (forall n q b, (N0 <= n)%nat -> p_bufs (st n) !! q = Some b -> b <> [] -> exists m k, (n <= m)%nat /\ ev m = PFlushed q (S k)) ->
  (forall n act, act ∈ p_tasks (st n) -> act_queue act = q -> act_id act = id_text i -> scannable (act_raw act)) ->
  stuck ra q i m (server (p_world (st N0))) ->
  settled cfg st ev q (id_text i).
Proof.
  intros HX Hacc Hvt Hq Ht H0 Hrun Hreap HC Hlive HP [Hscan Hnext] Htask Hflush Hsc HS.
  destruct (orphan_got cfg de_pyresp id_only uniform xread_args decode_streams decode_consumers fa ra mover_limit HX Hacc Hvt q i m st ev w N0 Hrun H0 Ht)
    with (n := N0) as (n & Hn & Hg); [done|done|intros n Hn; apply (HC n Hn)|
    intros n Hn; exact (unraced_took_none _ _ _ _ _ _ _ _ _ _ _ _ _ (Hrun n) (Hreap n Hn))|done..|].
  eapply (got_settled cfg de_pyresp id_only uniform xread_args decode_streams decode_consumers fa ra mover_limit HX st ev w Hrun H0 Ht N0);
    [|done|done|done|exact Hn|by apply Hsc|exact Hg].
  intros k Hk. destruct (HC k Hk) as (? & ? & _). done.
Qed.
End theorems.

(** ** The concrete server leaves a pending entry alone *)

Module MiniOrphans.
Import MiniRedis.

Lemma claim_keeps_given c idle id t : given (claim c idle id t).2 = given t.
Proof. unfold claim. by repeat case_match. Qed.

(** [p] stays in the stream and pending, and nothing below it becomes pending. *)
Record left_alone (p : Z * Z) (t t' : strm) : Prop := {
  la_log : p ∈ (log t').*1;
  la_rows r : pd_id r = p -> r ∈ pels t -> r ∈ pels t';
  la_text : text_at t' (id_text p) = text_at t (id_text p);
  la_below x : id_lt x p -> x ∈ pd_id <$> pels t' -> x ∈ pd_id <$> pels t;
}.

Lemma left_alone_refl p t : p ∈ (log t).*1 -> left_alone p t t.
Proof. by split. Qed.

Lemma left_alone_trans p t1 t2 t3 : left_alone p t1 t2 -> left_alone p t2 t3 -> left_alone p t1 t3.
Proof. intros [H1 H2 H3 H4] [K1 K2 K3 K4]. split; [done|eauto|congruence|eauto]. Qed.

Lemma left_alone_put p s k t k' : good t -> p ∈ (log (stream_at s k')).*1 -> (k' = k -> left_alone p (stream_at s k) t) ->
  left_alone p (stream_at s k') (stream_at (put s k t) k').
Proof.
  intros Hg Hp H. destruct (decide (k' = k)) as [->|Hk]; [rewrite at_put by done; by apply H|rewrite at_put_ne by done; by apply left_alone_refl].
Qed.

Lemma filter_filter_keeps {A} (f g : A -> bool) l : (forall x, x ∈ l -> g x = true -> f x = true) ->
  List.filter g (List.filter f l) = List.filter g l.
Proof.
  induction l as [|x l IH]; intros H; [done|]. cbn. specialize (IH ltac:(intros y Hy; apply H; by right)).
  specialize (H x ltac:(left)). destruct (f x) eqn:Ef; cbn; [by destruct (g x); rewrite IH|]. destruct (g x); [by specialize (H eq_refl)|done].
Qed.

Lemma left_alone_with_log p t f : good t -> p ∈ (log t).*1 -> (forall y, y.1 = p -> f y = true) -> left_alone p t (with_log t f).
Proof.
  intros Hg Hp Hf. pose proof (g_below _ Hg) as HB. rewrite Forall_forall in HB. split; [|done| |done].
  - apply list_elem_of_fmap in Hp as (y & -> & Hy). apply list_elem_of_fmap_2, filter_elem. auto.
  - unfold text_at. cbn [with_log log]. rewrite filter_filter_keeps; [done|]. intros y Hy E%String.eqb_eq. apply Hf.
    apply id_text_inj in E; [done|by apply HB, list_elem_of_fmap_2|by apply HB].
Qed.

Lemma left_alone_with_pels p t f : p ∈ (log t).*1 -> (forall r, r ∈ pels t -> pd_id r = p -> f r = true) ->
  left_alone p t (with_pels t (List.filter f (pels t))).
Proof.
  intros Hp Hf. split; [done| |done|].
  - intros r Hid Hr. apply filter_elem. auto.
  - intros x _ (r & -> & [Hr _]%filter_elem)%list_elem_of_fmap. by apply list_elem_of_fmap_2.
Qed.

Lemma left_alone_append p e t t' : p ∈ (log t).*1 -> append e t = Some t' -> left_alone p t t'.
Proof.
  unfold append. intros Hp. destruct (_ <? _); [|done]. intros [= <-]. split; [|done| |done].
  - cbn. rewrite fmap_app. apply elem_of_app. by left.
  - apply list_elem_of_fmap in Hp as (y & -> & Hy). unfold text_at. cbn [log]. rewrite List.filter_app.
    assert (HF : y ∈ List.filter (fun q => String.eqb (id_text q.1) (id_text y.1)) (log t)).
    { apply filter_elem. split; [done|]. apply String.eqb_refl. }
    destruct (List.filter _ (log t)); [by apply not_elem_of_nil in HF|done].
Qed.

Lemma left_alone_deliver p c n t : good t -> p ∈ (log t).*1 -> p ∈ pd_id <$> pels t -> left_alone p t (deliver c n t).
Proof.
  intros Hg Hp Hin. pose proof (g_given _ Hg) as HG. rewrite Forall_forall in HG. destruct (HG p Hin) as [_ Hle]. split; [done| |done|].
  - intros r _ Hr. cbn. apply elem_of_app. by left.
  - intros x Hx. cbn. rewrite fmap_app, <- list_fmap_compose. rewrite (list_fmap_id (next_ids n t) : (pd_id ∘ new_row c) <$> _ = _).
    intros [?|[Hlt _]%next_ids_elem]%elem_of_app; [done|]. unfold id_lt, id_le in *. lia.
Qed.

Lemma left_alone_pending p t t' : left_alone p t t' -> p ∈ pd_id <$> pels t -> p ∈ pd_id <$> pels t'.
Proof. intros HL (r & -> & Hr)%list_elem_of_fmap. apply list_elem_of_fmap_2. by eapply la_rows. Qed.

Lemma left_alone_read p c n k ks : forall s, p ∈ (log (stream_at s k)).*1 -> p ∈ pd_id <$> pels (stream_at s k) ->
  left_alone p (stream_at s k) (stream_at (read_group c n ks s).2 k).
Proof.
  induction ks as [|k0 ks IH]; intros s H1 H2; cbn; [by apply left_alone_refl|].
  pose proof (left_alone_put p s k0 (deliver c n (stream_at s k0)) k (good_deliver _ _ _ (good_at s k0)) H1) as HL.
  specialize (HL ltac:(intros ->; by apply left_alone_deliver; [apply good_at|..])).
  specialize (IH _ (la_log _ _ _ HL) (left_alone_pending _ _ _ HL H2)). destruct (read_group _ _ _ _) as [rs s'].
  by eapply left_alone_trans.
Qed.

Lemma exec_left_alone k p c s r s' : exec c s = (r, s') -> unclaimed c -> spares k p c r ->
  p ∈ (log (stream_at s k)).*1 -> p ∈ pd_id <$> pels (stream_at s k) -> left_alone p (stream_at s k) (stream_at s' k).
Proof.
  intros E Hu Hs Hp Hin. pose proof (left_alone_refl p _ Hp) as H0.
  destruct Hs as [op k' args r Ho Hk|e r|c r [Hh _]|op args r Ho|k' c i0 id r|k' r|k' c r ->|ids r Hn|ids r Hn|b pb r Hb Hle].
  - pose proof (one_key_effect op k' args s Ho) as HE. rewrite E in HE.
    by destruct (elsewhere_same k' s s' HE k ltac:(done)) as [_ ->].
  - cbn in E. destruct (append e (stream_at s k)) as [t|] eqn:Ea; simplify_eq; [|done].
    apply left_alone_put; [by eapply good_append; [apply good_at|]|done|]. intros _. by apply (left_alone_append p e).
  - destruct c as [|op args]; [done|]. injection Hh as ->. cbn in E. destruct args as [|g [|c [|n ks]]]; simplify_eq; try done.
    pose proof (left_alone_read p c (Z.to_nat (default 0 (num n))) k ks s Hp Hin) as HL. destruct (read_group _ _ _ _). by simplify_eq.
  - pose proof (exec_look op args s Ho) as H. rewrite E in H. cbn [snd] in H. by subst s'.
  - done.
  - cbn in E. by simplify_eq.
  - cbn in E. injection E as Hl <-. apply left_alone_put; [apply good_with_pels, good_at|done|]. intros ->.
    apply left_alone_with_pels; [done|]. intros row Hr _. apply negb_true_iff.
    apply (filter_none (own c) (pels (stream_at s k'))); [lia|done].
  - cbn in E. simplify_eq. apply left_alone_put; [apply good_with_pels, good_at|done|]. intros _. apply left_alone_with_pels; [done|].
    intros row _ <-. apply negb_true_iff, not_true_iff_false. by rewrite mem_elem.
  - cbn in E. simplify_eq. apply left_alone_put; [apply good_with_log, good_at|done|]. intros _. apply left_alone_with_log; [apply good_at|done|].
    intros row <-. apply negb_true_iff, not_true_iff_false. by rewrite mem_elem.
  - cbn in E. rewrite Hb in E. simplify_eq. apply left_alone_put; [apply good_with_log, good_at|done|]. intros _.
    apply left_alone_with_log; [apply good_at|done|].
    intros row <-. apply negb_true_iff, not_true_iff_false. rewrite id_ltb_lt. unfold id_lt, id_le in *. lia.
Qed.

#[export] Instance mini_orphan_laws : OrphanLaws mini mini_groups mini_streams mini_pels.
Proof.
  split.
  - intros s k p Hp. pose proof (g_given _ (good_at s k)) as HG. rewrite Forall_forall in HG. by apply HG.
  - intros k c idle id s r s' E k'. change (given (stream_at s' k') = given (stream_at s k')).
    change (exec (xclaim_one k c idle id) s = (r, s')) in E.
    destruct (exec_claim k c idle id s) as [H|[i H]]; rewrite E in H; cbn [snd] in H; subst s'; [done|].
    destruct (decide (k' = k)) as [->|Hk]; [rewrite at_put by apply good_claim, good_at; apply claim_keeps_given|by rewrite at_put_ne].
  - intros s k p m Hp Hm. apply owed_at. split; [|by left].
    cbn [fields_of mini_pels] in Hm.
    pose proof (g_given _ (good_at s k)) as HU. rewrite Forall_forall in HU. destruct (HU p Hp) as [Up _].
    pose proof (g_below _ (good_at s k)) as HB. rewrite Forall_forall in HB.
    unfold text_at in Hm. destruct (List.filter _ _) as [|y l] eqn:EF; [done|].
    assert (Hy : y ∈ List.filter (fun q => String.eqb (id_text q.1) (id_text p)) (log (stream_at s k))) by (rewrite EF; left).
    apply filter_elem in Hy as [Hy E%String.eqb_eq]. apply id_text_inj in E as <-; [by apply list_elem_of_fmap_2|by apply HB, list_elem_of_fmap_2|done].
  - intros k p c s r s' E Hu Hs HO Hp. apply owed_at in HO as [Hl _].
    destruct (exec_left_alone k p c s r s' E Hu Hs Hl Hp) as [_ H2 H3 H4]. split; [split; [exact H2|]|exact H4].
    cbn [fields_of mini_pels]. by rewrite H3.
Qed.
End MiniOrphans.

(** ** A run: what a dead worker had is claimed, dead lettered and acknowledged *)

Definition orphan_stream : MiniRedis.strm :=
  {| MiniRedis.log := [((1, 0), "x"%string)]; MiniRedis.given := (1, 0); MiniRedis.top := (1, 0);
     MiniRedis.pels := [left_over (1, 0)]; MiniRedis.said := ["x"%string] |}.
Definition orphan_world : @world MiniRedis.mini :=
  @Build_world MiniRedis.mini {| MiniRedis.zs := ∅; MiniRedis.streams := {["cauli:q:q"%string := orphan_stream]}; MiniRedis.joined := ∅ |} [] [].

Definition orphan_page := @recover_page MiniRedis.mini Toy.serde sample_args ∅ "q" "-" 10 orphan_world.
Definition orphan_turn : @pevent MiniRedis.mini :=
  PRecovered {| pt_queue := "q"; pt_start := "-"; pt_held := ∅; pt_next := None; pt_acts := [mini_act] |}.

Definition orphan_s0 : @proc MiniRedis.mini := proc_start mini_fa orphan_world.
Definition orphan_s1 : @proc MiniRedis.mini :=
  {| p_world := orphan_page.2; p_bufs := {["q"%string := []]}; p_tasks := [mini_act]; p_live := [("q", "1-0")%string]; p_trimmed := ∅ |}.
Definition orphan_s2 : @proc MiniRedis.mini := {| p_world := orphan_page.2; p_bufs := mini_bufs; p_tasks := []; p_live := [("q", "1-0")%string]; p_trimmed := ∅ |}.
Definition orphan_s3 : @proc MiniRedis.mini :=
  {| p_world := (flush_batch "q" (take 1 mini_reqs) orphan_page.2).2; p_bufs := {["q"%string := []]}; p_tasks := []; p_live := [("q", "1-0")%string]; p_trimmed := ∅ |}.

Definition orphan_run_at (n : nat) : @proc MiniRedis.mini :=
  match n with 0 => orphan_s0 | 1 => orphan_s1 | 2 => orphan_s2 | _ => orphan_s3 end%nat.
Definition orphan_event_at (n : nat) : @pevent MiniRedis.mini :=
  match n with 0 => orphan_turn | 1 => PRan mini_act | 2 => PFlushed "q" 1 | _ => PFlushed "q" 0 end%nat.

Lemma orphan_page_is : orphan_page.1 = (None, [mini_act]).
Proof. vm_compute. reflexivity. Qed.

Lemma orphan_forever : forever mini_step orphan_run_at orphan_event_at.
Proof.
  assert (HB : orphan_s3 = {| p_world := (flush_batch "q" (take 1 mini_reqs) orphan_page.2).2; p_bufs := <["q"%string := drop 1 mini_reqs]> mini_bufs;
    p_tasks := []; p_live := [("q", "1-0")%string]; p_trimmed := ∅ |}) by (rewrite mini_single, mini_one, insert_singleton_eq; reflexivity).
  intros [|[|[|n]]]; cbn [orphan_run_at orphan_event_at].
  - assert (E : orphan_s1 = {| p_world := orphan_page.2; p_bufs := p_bufs orphan_s0; p_tasks := [] ++ [mini_act];
      p_live := [] ++ guarded [mini_act]; p_trimmed := ∅ |}) by reflexivity.
    rewrite E. apply (p_recover _ _ _ _ _ _ _ _ _ _ orphan_s0 [open_gate] ∅ "q" "-" 10 None [mini_act] orphan_page.2); [left|reflexivity|by intros ?|].
    rewrite <- orphan_page_is. apply surjective_pairing.
  - apply (p_run _ _ _ _ _ _ _ _ _ _ orphan_s1 [] mini_act [] true no_answers toy_io (ops mini_run)); reflexivity.
  - rewrite HB. apply (p_flush _ _ _ _ _ _ _ _ _ _ orphan_s2 "q" mini_reqs 1 (flush_batch "q" (take 1 mini_reqs) orphan_page.2).1);
      [apply mini_buf|apply surjective_pairing].
  - assert (E : orphan_s3 = {| p_world := p_world orphan_s3; p_bufs := <["q"%string := drop 0 []]> (p_bufs orphan_s3); p_tasks := [];
      p_live := p_live orphan_s3; p_trimmed := ∅ |})
      by (cbn [p_bufs orphan_s3 drop]; rewrite insert_singleton_eq; reflexivity).
    rewrite E at 2. apply (p_flush _ _ _ _ _ _ _ _ _ _ orphan_s3 "q" [] 0 (flush_batch "q" (take 0 []) (p_world orphan_s3)).1); [|reflexivity].
    apply lookup_singleton_eq.
Qed.

Lemma orphan_answered : forallb (fun a => match a.2 with Ok tt => true | Err _ => false end) (flush_batch "q" (take 1 mini_reqs) orphan_page.2).1 = true.
Proof. vm_compute. reflexivity. Qed.

Lemma orphan_undisturbed n : @undisturbed MiniRedis.mini MiniRedis.mini_groups MiniRedis.mini_pels Toy.serde sample_args "q" (1, 0)
  {["e"%string := "x"%string]} (orphan_run_at n) (orphan_event_at n).
Proof.
  destruct n as [|[|[|n]]]; (split; [discriminate|]); (split; [|exact (List.Forall_nil _)]); try exact I.
  - cbn [orphan_event_at flush_ok orphan_run_at p_bufs orphan_s2 p_world]. rewrite mini_buf. apply Forall_forall. intros a Ha.
    pose proof orphan_answered as HA. rewrite forallb_forall in HA. apply list_elem_of_In, HA in Ha. by destruct (a.2) as [[]|].
  - exact (List.Forall_nil _).
Qed.

Lemma orphan_at_start : MiniRedis.stream_at (server orphan_world) "cauli:q:q" = orphan_stream.
Proof. vm_compute. reflexivity. Qed.

Abbreviation orphan_stuck := (@stuck MiniRedis.mini MiniRedis.mini_pels Toy.serde sample_args "q" (1, 0) {["e"%string := "x"%string]}).

Lemma orphan_stuck_start : orphan_stuck (server orphan_world).
Proof.
  unfold stuck. change (q_key "q") with "cauli:q:q"%string. cbn [pending_of fields_of MiniRedis.mini_pels]. rewrite orphan_at_start.
  split; [|done]. exists (left_over (1, 0)). split_and!; [left|done|vm_compute; discriminate].
Qed.

Lemma orphan_threshold : @threshold Toy.serde sample_args {["e"%string := "x"%string]} = 60000.
Proof. vm_compute. reflexivity. Qed.

(** Claimed, it is no longer idle. *)
Lemma orphan_claimed n : ~ orphan_stuck (server (p_world (orphan_run_at (S n)))).
Proof.
  assert (HI : forallb (fun r => pd_idle r <? 60000) (MiniRedis.pels (MiniRedis.stream_at (server (p_world (orphan_run_at (S n)))) "cauli:q:q")) = true)
    by (destruct n as [|[|n]]; vm_compute; reflexivity).
  intros [(row & Hr & _ & Hle) _]. rewrite orphan_threshold in Hle. rewrite forallb_forall in HI.
  change (row ∈ MiniRedis.pels (MiniRedis.stream_at (server (p_world (orphan_run_at (S n)))) "cauli:q:q")) in Hr.
  apply list_elem_of_In, HI in Hr. lia.
Qed.

Lemma stuck_entry_is_settled_witness : exists m act r, act_id act = "1-0"%string /\ Broker.sid r = "1-0"%string /\
  @outcome_of Toy.serde toy_cfg "q" (act_raw act) (extra_cmds r) /\
  landed (trace (p_world (orphan_run_at m))) r /\ let_go "q" (p_world (orphan_run_at m)) "1-0".
Proof.
  destruct (stuck_entry_is_settled MiniRedis.mini MiniRedis.mini_sets MiniRedis.mini_noop MiniRedis.mini_set_laws MiniRedis.mini_key_laws
    MiniRedis.mini_groups MiniRedis.mini_group_laws MiniRedis.mini_streams MiniRedis.mini_stream_laws MiniRedis.mini_pels MiniRedis.mini_pel_laws
    MiniOrphans.mini_orphan_laws Toy.serde toy_cfg (fun _ => Err ""%string) (fun _ => None) Dispatch.top mini_xread mini_decode MiniReaping.mini_consumers
    mini_fa sample_args 128 _ MiniReaping.mini_consumer_laws orphan_run_at orphan_event_at orphan_world 0 "q" (1, 0) {["e"%string := "x"%string]})
    as (m & act & r & _ & _ & H1 & H2 & H3 & H4 & H5).
  - intros n b. split; [reflexivity|]. cbn. set_solver.
  - exact MiniRedis.mini_answers.
  - clear. split; cbn; mlia.
  - left.
  - reflexivity.
  - reflexivity.
  - exact orphan_forever.
  - intros [|[|[|n]]] _; exact I.
  - intros n _. apply orphan_undisturbed.
  - by intros ?%not_elem_of_nil.
  - exact (List.Forall_nil _).
  - split.
    + intros [|n] _ Hs; [eexists 0%nat, _; split_and!; [lia|reflexivity..]|exfalso; exact (orphan_claimed n Hs)].
    + intros [|[|[|n]]] pt cur _ [= <-]. discriminate.
  - intros [|[|[|n]]] act _; try (by intros ?%not_elem_of_nil). intros ->%list_elem_of_singleton. by exists 1%nat.
  - intros n q b _. assert (HE : forall m : gmap string (list AckReq), m = {["q"%string := []]} -> m !! q = Some b -> b <> [] ->
      exists m k, (n <= m)%nat /\ orphan_event_at m = PFlushed q (S k)) by (intros m -> [_ <-]%lookup_singleton_Some Hn; done).
    destruct n as [|[|[|n]]]; [apply HE; reflexivity..| |apply HE; reflexivity].
    cbn [orphan_run_at p_bufs orphan_s2]. rewrite mini_one. intros [<- _]%lookup_singleton_Some _. by exists 2%nat, 0%nat.
  - intros [|[|[|n]]] act; try (by intros ?%not_elem_of_nil). intros ->%list_elem_of_singleton _ _ text env [= <-] E.
    exfalso. revert E. vm_compute. discriminate.
  - exact orphan_stuck_start.
  - exists m, act, r. split_and!; [exact H1|exact H2|exact H3|exact H4|exact H5].
Defined.
