(* ===== verification/Timing.v ===== *)
(** How long the io lanes of [worker/src/exec.rs] take, against the idle time
    from which [recover_page] of [worker/src/loops.rs] takes an entry over. Times
    are milliseconds since the entry's delivery, where Redis starts its idle
    clock. *)
From S2P Require Import Prelude Float64 Backoff Envelope Stats Ctx Redis Broker Tree Pyrt Exec Loops.
Open Scope Z_scope.

(** ** Timed awaits *)

(** When a channel resolves, and to what: [None] inside is a sender dropped,
    outside a channel that never resolves. *)
Definition resolves (A : Type) : Type := option (Z * option A).

(** [tokio::time::timeout]: started at a moment, over a duration, what the await
    gives and when. *)
Class Timer := timeout : forall {A : Type}, Z -> Z -> resolves A -> await A * Z.

(** Its documented behaviour, on a runtime that polls at most [lag] late: a value
    that is there by the deadline is given, nothing is given up before it. *)
Class TimerLaws (T : Timer) (lag : Z) : Prop := {
  timeout_value {A} t0 d (r : resolves A) a t : timeout t0 d r = (Done a, t) -> exists s, r = Some (s, Some a) /\ s <= t <= Z.max t0 s + lag;
  timeout_dropped {A} t0 d (r : resolves A) t : timeout t0 d r = (Dropped, t) -> exists s, r = Some (s, None) /\ s <= t;
  timeout_elapsed {A} t0 d (r : resolves A) t : timeout t0 d r = (Elapsed, t) -> t0 + d <= t /\ forall s o, r = Some (s, o) -> t0 + d < s;
  timeout_when {A} t0 d (r : resolves A) : 0 <= d -> t0 <= (timeout t0 d r).2 <= t0 + d + lag;
}.

(** A runtime that is never late. *)
Module Prompt.
#[export] Instance timer : Timer := fun A t0 d r =>
  match r with
  | Some (s, o) => if s <=? t0 + d then (match o with Some a => Done a | None => Dropped end, Z.max t0 s) else (Elapsed, t0 + d)
  | None => (Elapsed, t0 + d)
  end.

#[export] Instance timer_laws : TimerLaws timer 0.
Proof.
  split; unfold timeout, timer.
  - intros A t0 d [[s [b|]]|] a t; try (by intros [=]); destruct (Z.leb_spec s (t0 + d)); intros [=]. subst. exists s. split; [done|lia].
  - intros A t0 d [[s [b|]]|] t; try (by intros [=]); destruct (Z.leb_spec s (t0 + d)); intros [=]. subst. exists s. split; [done|lia].
  - intros A t0 d [[s [b|]]|] t; try destruct (Z.leb_spec s (t0 + d)); intros [=]; (split; [lia|by intros s' o' [= <- <-] || done]).
  - intros A t0 d [[s [b|]]|] Hd; try destruct (Z.leb_spec s (t0 + d)); cbn; lia.
Qed.
End Prompt.

(** ** The lanes, on the clock *)

(** [spawn_dispatch], on the clock: it arrives, takes its io slot at once or waits
    in [acquire_owned] for as long as it takes ([slot]: when one is there for it,
    if ever), and [process] begins its lane [work] later, past the parse, the
    checks and the idempotency round trip. *)
Definition lane_start (arrival : Z) (slot : option Z) (work : Z) : option Z :=
  (fun s => Z.max arrival s + work) <$> slot.

Section lanes.
Context `{Timer}.

(** The awaits of [run_async_task] begun at [t0], and when the last one ends. *)
Definition async_run (env : Envelope) (t0 : Z) (resp : resolves Outcome) : async_answers * Z :=
  let '(r, t1) := timeout t0 (async_backstop_ms env) resp in
  ({| aa_resp := r; aa_elapsed_ms := t1 - t0 |}, t1).

(** The awaits of [run_sync_task] begun at [t0]: the queue wait, then the run;
    when the first and the last one end. *)
Definition sync_run (env : Envelope) (t0 : Z) (full : bool) (started : resolves unit) (resp : resolves Outcome) : sync_answers * Z * Z :=
  if full then ({| sa_full := true; sa_started := Elapsed; sa_resp := Elapsed; sa_elapsed_ms := 0 |}, t0, t0)
  else
    let '(s, t1) := timeout t0 (timeout_ms env) started in
    match s with
    | Done _ =>
        let '(r, t2) := timeout t1 (timeout_ms env) resp in
        ({| sa_full := false; sa_started := s; sa_resp := r; sa_elapsed_ms := t2 - t1 |}, t1, t2)
    | _ => ({| sa_full := false; sa_started := s; sa_resp := Elapsed; sa_elapsed_ms := 0 |}, t1, t1)
    end.
End lanes.

(** No worker takes the entry over while its idle time is at most [t]. *)
Definition spared_until `{Serde} (a : recovery_args) (raw : string) (t : Z) : Prop :=
  forall held q id c idle dc, idle <= t -> idle < u64_max -> eligible_of a held q ((id, c, idle, dc), Some (Some raw)) = None.

Section bounds.
Context `{Serde} {T : Timer} (lag : Z) {TL : TimerLaws T lag} (a : recovery_args) (raw : string) (env : Envelope).
Context (Hraw : envelope_of_text raw = Ok env).

Lemma timeout_u64 : 0 <= timeout_ms env <= MAX_TIMEOUT_MS.
Proof. by eapply ir_timeout, parsed_range. Qed.

Lemma backstop_exact : async_backstop_ms env = timeout_ms env + BACKSTOP_GRACE_MS.
Proof. pose proof timeout_u64. unfold async_backstop_ms, BACKSTOP_GRACE_MS, MAX_TIMEOUT_MS in *. mlia. Qed.

(** Before the task's own backstop and the margin, the entry is spared. *)
Lemma spared t : t < timeout_ms env + BACKSTOP_GRACE_MS + reclaim_margin_ms (ra_redis_timeout a) -> spared_until a raw t.
Proof.
  intros Ht held q id c idle dc Hi Hu. unfold eligible_of. cbn [mbind option_bind]. rewrite Hraw. cbn.
  pose proof timeout_u64. unfold required_idle_ms. destruct (Z.ltb_spec idle (Z.max (ra_vt_ms a)
    (sat_add (sat_add (timeout_ms env) BACKSTOP_GRACE_MS) (reclaim_margin_ms (ra_redis_timeout a))))) as [|Hge]; [done|].
  unfold BACKSTOP_GRACE_MS, MAX_TIMEOUT_MS in *. mlia.
Qed.

(** From the required idle time on, it is claimed by whoever does not hold it. *)
Lemma overdue_eligible held q id c idle dc : holds_entry held q id = false -> required_idle_ms a (Some env) <= idle ->
  is_Some (eligible_of a held q ((id, c, idle, dc), Some (Some raw))).
Proof.
  intros Hh Hi. unfold eligible_of. cbn [mbind option_bind]. rewrite Hraw. cbn [ok].
  destruct (Z.ltb_spec idle (required_idle_ms a (Some env))); [lia|]. rewrite Hh. by eexists.
Qed.
End bounds.

Section theorems.
Context (S0 : Serde) (T : Timer) (lag : Z) (TL : TimerLaws T lag).

(** C12. When a live execution is safe from recovery, and when it is not. If its
    lane begins within the margin of the delivery, an async task, and a sync task
    that found a thread within the grace and the margin, is over before recovery
    finds its entry idle enough to claim, at any worker and whatever its answers;
    so is a sync task that found none. Nothing bounds the wait for an io slot that
    comes before: an async task that waited longer runs on past the required idle
    time, and from there on any worker that does not hold it claims it while it
    runs. The runtime is at most [lag] late. *)
Theorem execution_ends_before_reclaim (a : recovery_args) raw env arrival slot work t0 :
  envelope_of_text raw = Ok env -> 0 <= lag -> lane_start arrival slot work = Some t0 ->
  (t0 + lag < reclaim_margin_ms (ra_redis_timeout a) ->
    (forall resp, let t := (async_run env t0 resp).2 in t <= t0 + timeout_ms env + BACKSTOP_GRACE_MS + lag /\ spared_until a raw t) /\
    (forall full started resp, let '(ans, t1, t2) := sync_run env t0 full started resp in
      t1 <= t0 + timeout_ms env + lag /\ t2 <= t1 + timeout_ms env + lag /\
      (sa_started ans <> Done tt \/ t1 + lag < BACKSTOP_GRACE_MS + reclaim_margin_ms (ra_redis_timeout a) -> spared_until a raw t2))) /\
  (forall held q id c idle dc, holds_entry held q id = false ->
    required_idle_ms a (Some env) <= idle <= t0 + timeout_ms env + BACKSTOP_GRACE_MS ->
    idle <= (async_run env t0 None).2 /\ is_Some (eligible_of a held q ((id, c, idle, dc), Some (Some raw)))).
Proof.
  intros Hraw Hl _. pose proof (timeout_u64 raw env Hraw) as Hu. split; [intros H0; split|].
  - intros resp. cbv zeta. unfold async_run. pose proof (timeout_when t0 (async_backstop_ms env) resp) as HW.
    rewrite (backstop_exact raw env Hraw) in *. unfold BACKSTOP_GRACE_MS in *. specialize (HW ltac:(lia)).
    destruct (timeout t0 _ resp) as [r t1]. cbn in *. split; [lia|]. apply (spared a raw env Hraw). unfold BACKSTOP_GRACE_MS. lia.
  - intros full started resp. unfold sync_run. destruct full.
    { split_and!; [lia|lia|]. intros _. apply (spared a raw env Hraw). unfold BACKSTOP_GRACE_MS. lia. }
    pose proof (timeout_when t0 (timeout_ms env) started ltac:(lia)) as HW. destruct (timeout t0 (timeout_ms env) started) as [s t1]. cbn in HW.
    assert (HN : t1 <= t0 + timeout_ms env + lag /\ t1 <= t1 + timeout_ms env + lag /\ spared_until a raw t1).
    { split_and!; [lia|lia|]. apply (spared a raw env Hraw). unfold BACKSTOP_GRACE_MS. lia. }
    destruct s as [[]| |]; cbn; try by (destruct HN as (? & ? & ?); split_and!).
    pose proof (timeout_when t1 (timeout_ms env) resp ltac:(lia)) as HW2. destruct (timeout t1 (timeout_ms env) resp) as [r t2]. cbn in *.
    split_and!; [lia|lia|]. intros [?|?]; [done|]. apply (spared a raw env Hraw). lia.
  - intros held q id c idle dc Hh Hi. split; [|apply (overdue_eligible a raw env Hraw); [done|lia]].
    unfold async_run. destruct (timeout t0 (async_backstop_ms env) None) as [[o| |] t] eqn:E.
    + by apply timeout_value in E as (? & ? & _).
    + by apply timeout_dropped in E as (? & ? & _).
    + apply timeout_elapsed in E as [Ht _]. rewrite (backstop_exact raw env Hraw) in Ht. cbn. lia.
Qed.

(** C24. The wait for a pool thread is not counted in what recovery waits for: a
    sync task that a thread took up [wait] after the delivery, within its budget,
    and that runs on until its hard timeout, is found reclaimable while it runs,
    by any worker that does not hold it itself, from the required idle time on.
    With a wait and a timeout that add up to more than that, a second copy
    starts. *)
Theorem waiting_sync_task_is_reclaimed_running (a : recovery_args) raw env t0 wait held q id c idle dc :
  envelope_of_text raw = Ok env -> 0 <= wait <= timeout_ms env ->
  holds_entry held q id = false ->
  required_idle_ms a (Some env) <= idle <= t0 + wait + timeout_ms env -> t0 + wait + lag <= idle ->
  let '(ans, t1, t2) := sync_run env t0 false (Some (t0 + wait, Some tt)) None in
  sa_started ans = Done tt /\ sa_resp ans = Elapsed /\ t0 + wait <= t1 <= idle /\ idle <= t2 /\
  is_Some (eligible_of a held q ((id, c, idle, dc), Some (Some raw))).
Proof.
  intros Hraw Hw Hh Hi Hs. unfold sync_run.
  destruct (timeout t0 (timeout_ms env) (Some (t0 + wait, Some tt))) as [[[]| |] t1] eqn:E1.
  - apply (timeout_value (lag := lag)) in E1 as (s & [= <-] & Hs1 & Hs2). destruct (timeout t1 (timeout_ms env) None) as [[o| |] t2] eqn:E2.
    + by apply timeout_value in E2 as (? & ? & _).
    + by apply timeout_dropped in E2 as (? & ? & _).
    + apply timeout_elapsed in E2 as [Ht2 _]. cbn. split_and!; [done|done|lia|lia|lia|].
      exact (overdue_eligible a raw env Hraw held q id c idle dc Hh ltac:(lia)).
  - by apply timeout_dropped in E1 as (? & [= _] & _).
  - apply timeout_elapsed in E1 as [_ HE]. specialize (HE _ _ eq_refl). lia.
Qed.
End theorems.

(** ** Defaults: five minutes, [--redis-timeout 5], [--visibility-timeout 60] *)

Definition default_recovery : recovery_args := {| ra_consumer := "me"; ra_vt_ms := 60000; ra_redis_timeout := 5 |}.
Definition sample_raw : string := @envelope_text Toy.serde sample.

Lemma sample_parses : @envelope_of_text Toy.serde sample_raw = Ok sample.
Proof. apply (@text_roundtrip Toy.serde Toy.serde_laws), sample_wf. Qed.

Lemma execution_ends_before_reclaim_witness :
  (let t := (@async_run Prompt.timer sample 1000 None).2 in t <= 303000 /\ @spared_until Toy.serde default_recovery sample_raw t) /\
  @spared_until Toy.serde default_recovery sample_raw (@sync_run Prompt.timer sample 1000 false (Some (4000, Some tt)) None).2 /\
  307000 <= (@async_run Prompt.timer sample 20000 None).2 /\
  is_Some (@eligible_of Toy.serde default_recovery ∅ "q" (("1-0"%string, "me"%string, 307000, 1), Some (Some sample_raw))).
Proof.
  destruct (execution_ends_before_reclaim Toy.serde Prompt.timer 0 Prompt.timer_laws default_recovery sample_raw sample 0 (Some 0) 1000 1000)
    as [H0 _]; [exact sample_parses|lia|reflexivity|].
  destruct H0 as [H1 H2]; [unfold reclaim_margin_ms, BACKSTOP_GRACE_MS; cbn; mlia|].
  destruct (execution_ends_before_reclaim Toy.serde Prompt.timer 0 Prompt.timer_laws default_recovery sample_raw sample 0 (Some 19000) 1000 20000)
    as [_ H3]; [exact sample_parses|lia|reflexivity|].
  specialize (H3 ∅ "q"%string "1-0"%string "me"%string 307000 1 eq_refl ltac:(vm_compute; split; discriminate)).
  destruct (H1 None) as [HA HB]. pose proof (H2 false (Some (4000, Some tt)) None) as HC. clear H1 H2.
  split; [split; [exact HA|exact HB]|]. split; [|exact H3].
  assert (E : @sync_run Prompt.timer sample 1000 false (Some (4000, Some tt)) None =
    ({| sa_full := false; sa_started := Done tt; sa_resp := Elapsed; sa_elapsed_ms := 300000 |}, 4000, 304000)) by reflexivity.
  rewrite E in *. destruct HC as (_ & _ & HC). apply HC. right. vm_compute. reflexivity.
Defined.

(** With 200 s of wait, another worker claims the task at 307 s of idle time; it
    runs until 500 s. *)
Lemma waiting_sync_task_is_reclaimed_running_witness :
  is_Some (@eligible_of Toy.serde default_recovery ∅ "q" (("1-0"%string, "other"%string, 307000, 1), Some (Some sample_raw))) /\
  let '(_, t1, t2) := @sync_run Prompt.timer sample 0 false (Some (200000, Some tt)) None in t1 <= 307000 <= t2.
Proof.
  assert (Hh : holds_entry ∅ "q" "1-0" = false) by reflexivity.
  assert (Hi : @required_idle_ms Toy.serde default_recovery (Some sample) <= 307000 <= 0 + 200000 + timeout_ms sample)
    by (vm_compute; split; discriminate).
  pose proof (waiting_sync_task_is_reclaimed_running Toy.serde Prompt.timer 0 Prompt.timer_laws default_recovery sample_raw sample
    0 200000 ∅ "q" "1-0" "other" 307000 1 sample_parses ltac:(cbn; lia) Hh Hi ltac:(lia)) as H.
  change (0 + 200000) with 200000 in H.
  destruct (@sync_run Prompt.timer sample 0 false (Some (200000, Some tt)) None) as [[ans t1] t2]. destruct H as (_ & _ & [_ H0] & H1 & H2).
  split_and!; [exact H2|exact H0|exact H1].
Defined.
