(* ===== verification/Plan.v ===== *)
(** The command line and the supervisor ([worker/src/cli.rs],
    [worker/src/supervisor.rs]): the execution plan derived from [-c], what each
    worker process is told of it, and the spawn, restart and drain of the
    processes. *)
From S2P Require Import Prelude Stats.
Open Scope Z_scope.

(** ** Options *)

Record Args := {
  app : option string;
  queues : list string;
  redis_url : option string;
  concurrency : option Z;
  procs : option Z;
  print_plan : bool;
  visibility_timeout : Z;
  drain_timeout : Z;
  stats_interval : Z;
  log_level : string;
  io_loops : Z;
  io_threads : option Z;
  io_concurrency : option Z;
  cpu_workers : option Z;
  cpu_child_threads : Z;
  cpu_prefetch : Z;
  cpu_max_tasks_per_child : Z;
  eager_cpu : bool;
  no_fork_server : bool;
  batch : Z;
  max_envelope_bytes : Z;
  python : option string;
  redis_timeout : Z;
  mover_interval : Z;
  mover_limit : Z;
  ack_batch : Z;
  ack_flush_ms : Z;
}.

Record Resolved := { r_procs : Z; r_io_threads : Z; r_io_concurrency : Z; r_cpu_workers : Z }.

Definition SLOTS_PER_PROC : Z := 64.

Definition resolve (args : Args) (cores : Z) : Resolved :=
  let cores := Z.max cores 1 in
  let procs := Z.max (default (match concurrency args with
    | Some c => Z.min cores (div_ceil (Z.max c 1) SLOTS_PER_PROC)
    | None => 1
    end) (procs args)) 1 in
  let '(io_threads, io_concurrency) := match concurrency args with
    | Some c =>
        let c := Z.max c 1 in
        let gate := Z.max (default (c / procs) (io_concurrency args)) 1 in
        let threads := Z.max (default (Z.min (Z.min c 512 / procs) gate) (io_threads args)) 1 in
        (threads, gate)
    | None => (Z.max (default 64 (io_threads args)) 1, Z.max (default 256 (io_concurrency args)) 1)
    end in
  let cpu_workers := Z.max (default
    (let per_proc := cores / procs in
     match concurrency args with Some c => Z.min per_proc (Z.max c 1 / procs) | None => per_proc end)
    (cpu_workers args)) 1 in
  {| r_procs := procs; r_io_threads := io_threads; r_io_concurrency := io_concurrency; r_cpu_workers := cpu_workers |}.

(** [None] is the [expect]'s panic. *)
Definition app_spec (args : Args) : option string := app args.

Definition queue_char (c : ascii) : bool :=
  is_digit c || ((65 <=? code c) && (code c <=? 90)) || ((97 <=? code c) && (code c <=? 122)) ||
  Ascii.eqb c "_" || Ascii.eqb c "." || Ascii.eqb c "-".

Definition valid_queue_name (q : string) : bool := negb (String.eqb q "") && forallb queue_char (bytes_of q).

(** ** Limits and totals ([lib.rs]) *)

Definition MAX_IO_THREADS : Z := 4096.
Definition MAX_IO_CONCURRENCY : Z := 65536.

Inductive limit_error := TooManyThreads (n : Z) | TooMuchConcurrency (n : Z).

Definition io_limits_error (r : Resolved) : option limit_error :=
  if MAX_IO_THREADS <? r_io_threads r then Some (TooManyThreads (r_io_threads r))
  else if MAX_IO_CONCURRENCY <? r_io_concurrency r then Some (TooMuchConcurrency (r_io_concurrency r))
  else None.

Definition plan_total (per_process procs : Z) : Z := sat_mul per_process procs.

(** [print_plan]'s totals line: io tasks, sync threads, tokio threads, cpu children. *)
Definition plan_totals (r : Resolved) (cores : Z) : Z * Z * Z * Z :=
  (plan_total (r_io_concurrency r) (r_procs r), plan_total (r_io_threads r) (r_procs r),
   plan_total (Z.max (cores / r_procs r) 1) (r_procs r), plan_total (r_cpu_workers r) (r_procs r)).

(** [print_plan], line by line. *)
Definition plan_lines (args : Args) (r : Resolved) (cores : Z) : list string :=
  let '(io, threads, tokio, children) := plan_totals r cores in
  ["cauli-worker execution plan";
   "  cores detected     " +:+ dec cores;
   "  -c (total)         " +:+ match concurrency args with Some c => dec c | None => "unset (standalone defaults)" end;
   "  worker processes   " +:+ dec (r_procs r);
   "  per process:";
   "    io tasks in flight  " +:+ dec (r_io_concurrency r) +:+ "  (async + sync together)";
   "    sync io threads     " +:+ dec (r_io_threads r);
   "    asyncio loops       " +:+ dec (io_loops args);
   "    tokio runtime threads " +:+ dec (Z.max (cores / r_procs r) 1) +:+ "  (redis io and dispatch; never run Python)";
   "    ack flush           " +:+ dec (Z.max (ack_batch args) 1) +:+ " completions or " +:+ dec (ack_flush_ms args) +:+
     " ms, whichever first (per queue)";
   "    cpu children        " +:+ dec (r_cpu_workers r) +:+ "  (" +:+
     (if eager_cpu args then "started at boot: --eager-cpu" else "started on first cpu task") +:+
     "; only if the app registers kind=" +:+ quoted "cpu" +:+ " tasks)";
   "  totals: " +:+ dec io +:+ " io tasks in flight, " +:+ dec threads +:+ " sync threads, " +:+ dec tokio +:+ " tokio threads, up to " +:+
     dec children +:+ " cpu children";
   "  override any value with its flag; see --help and docs/configuration.md"]%string.

(** ** What a worker process is told *)

Fixpoint join (sep : string) (l : list string) : string :=
  match l with [] => "" | [x] => x | x :: l => x +:+ sep +:+ join sep l end.

Definition child_argv (args : Args) (r : Resolved) : option (list string) :=
  spec ← app_spec args;
  Some (["--app"; spec; "--procs"; "1"; "--io-threads"; dec (r_io_threads r); "--io-concurrency"; dec (r_io_concurrency r);
         "--cpu-workers"; dec (r_cpu_workers r); "--io-loops"; dec (io_loops args);
         "--cpu-child-threads"; dec (cpu_child_threads args); "--cpu-prefetch"; dec (cpu_prefetch args);
         "--cpu-max-tasks-per-child"; dec (cpu_max_tasks_per_child args); "--batch"; dec (batch args);
         "--visibility-timeout"; dec (visibility_timeout args); "--max-envelope-bytes"; dec (max_envelope_bytes args);
         "--drain-timeout"; dec (drain_timeout args); "--stats-interval"; dec (stats_interval args);
         "--log-level"; log_level args; "--redis-timeout"; dec (redis_timeout args);
         "--mover-interval"; dec (mover_interval args); "--mover-limit"; dec (mover_limit args);
         "--ack-batch"; dec (ack_batch args); "--ack-flush-ms"; dec (ack_flush_ms args)]%string ++
        match python args with Some p => ["--python"; p]%string | None => [] end ++
        match queues args with [] => [] | qs => ["--queues"; join "," qs]%string end ++
        (if no_fork_server args then ["--no-fork-server"]%string else []) ++
        (if eager_cpu args then ["--eager-cpu"]%string else [])).

(** The environment of a child: the URL travels there only. *)
Definition child_env (args : Args) : list (string * string) :=
  match redis_url args with Some url => [("CAULI_REDIS_URL", url)]%string | None => [] end.

(** ** The supervisor's loop *)

Definition RESTART_DELAY_MS : Z := 1000.

(** [child] is the pid; instants are milliseconds. *)
Record Slot := { child : option Z; spawned : Z; respawn_at : Z }.

(** [fan_out]: who is sent SIGTERM. *)
Definition fan_out (slots : list Slot) : list Z := omap child slots.

(** What [try_wait] and [spawn_child] answer for one slot. *)
Inductive wait_result := StillRunning | WaitFailed | Exited (success : bool).
Record slot_view := { sv_wait : wait_result; sv_spawn : option Z }.

(** One slot of a tick: the slot, whether an exit counts as a failure, and the
    pid it spawned. *)
Definition tick_slot (shutting_down : bool) (now : Z) (s : Slot) (v : slot_view) : Slot * bool * option Z :=
  match child s with
  | Some _ =>
      match sv_wait v with
      | Exited success =>
          if shutting_down then ({| child := None; spawned := spawned s; respawn_at := respawn_at s |}, negb success, None)
          else ({| child := None; spawned := spawned s; respawn_at := Z.max now (spawned s + RESTART_DELAY_MS) |}, false, None)
      | _ => (s, false, None)
      end
  | None =>
      if negb shutting_down && (respawn_at s <=? now) then
        match sv_spawn v with
        | Some pid => ({| child := Some pid; spawned := now; respawn_at := respawn_at s |}, false, Some pid)
        | None => ({| child := None; spawned := spawned s; respawn_at := now + RESTART_DELAY_MS |}, false, None)
        end
      else (s, false, None)
  end.

Record supervisor := { slots : list Slot; shutting_down : bool; exit_code : Z; signalled : list Z; done : bool }.

Inductive sup_event := Signal | Tick (now : Z) (views : nat -> slot_view).

Definition sup_step (s : supervisor) (e : sup_event) : supervisor :=
  match e with
  | Signal =>
      {| slots := slots s; shutting_down := true; exit_code := exit_code s; signalled := signalled s ++ fan_out (slots s);
         done := false |}
  | Tick now views =>
      let rs := imap (fun i slot => tick_slot (shutting_down s) now slot (views i)) (slots s) in
      let slots' := (fun r => r.1.1) <$> rs in
      {| slots := slots'; shutting_down := shutting_down s;
         exit_code := if existsb (fun r => r.1.2) rs then 1 else exit_code s;
         signalled := signalled s;
         done := shutting_down s && forallb (fun s => bool_decide (child s = None)) slots' |}
  end.

Definition sup_start (now : Z) (pids : list Z) : supervisor :=
  {| slots := (fun p => {| child := Some p; spawned := now; respawn_at := now |}) <$> pids;
     shutting_down := false; exit_code := 0; signalled := []; done := false |}.

(** The initial spawns: all of them, or the ones already started signalled and
    waited for, and exit 1. *)
Fixpoint start_all (now : Z) (spawns : list (option Z)) (started : list Z) : supervisor + list Z :=
  match spawns with
  | [] => inl (sup_start now started)
  | Some pid :: spawns => start_all now spawns (started ++ [pid])
  | None :: _ => inr started
  end.

(** [supervise] until its loop breaks. *)
Fixpoint supervise (s : supervisor) (es : list sup_event) : supervisor :=
  match es with
  | [] => s
  | e :: es => if done s then s else supervise (sup_step s e) es
  end.

(** ** The derived plan *)

(** C33. With [-c c] and the process count left to the worker, the derived totals
    stay within what operators size their pools by: never more processes than
    cores or slots, at most [c] io tasks in flight and fewer than one per process
    left unused, no more threads than the gate can feed nor than the knee allows
    (one per process at least), and cpu children within the cores and [c]. *)
Theorem plan_within_budget args cores c :
  concurrency args = Some c -> 1 <= c -> procs args = None -> 1 <= cores ->
  let r := resolve args cores in
  1 <= r_procs r <= Z.min cores c /\ 1 <= r_io_threads r /\ 1 <= r_io_concurrency r /\ 1 <= r_cpu_workers r /\
  (io_concurrency args = None ->
     r_io_concurrency r * r_procs r <= c /\ c - r_procs r < r_io_concurrency r * r_procs r) /\
  (io_threads args = None ->
     r_io_threads r <= r_io_concurrency r /\ r_io_threads r * r_procs r <= Z.max (Z.min c 512) (r_procs r)) /\
  (cpu_workers args = None -> r_cpu_workers r * r_procs r <= Z.min cores c).
Proof.
  intros Ec Hc Ep Hcores. unfold resolve. rewrite Ec, Ep. cbn [default from_option].
  rewrite (Z.max_l cores 1), (Z.max_l c 1) by lia. change (default ?x None) with x.
  set (p := Z.max (Z.min cores (div_ceil c SLOTS_PER_PROC)) 1).
  assert (Hp : 1 <= p <= Z.min cores c).
  { assert (1 <= div_ceil c SLOTS_PER_PROC <= c); [|unfold p; lia].
    unfold div_ceil, SLOTS_PER_PROC. split; [apply Z.div_le_lower_bound|apply Z.div_le_upper_bound]; lia. }
  assert (Hq : forall x, 0 <= x -> x / p * p <= x /\ x - p < x / p * p).
  { intros x Hx. pose proof (Z.div_mod x p ltac:(lia)). pose proof (Z.mod_pos_bound x p ltac:(lia)). lia. }
  assert (H1 : forall x, p <= x -> 1 <= x / p) by (intros x Hx; apply Z.div_le_lower_bound; lia).
  cbv zeta. cbn [r_procs r_io_threads r_io_concurrency r_cpu_workers].
  split; [exact Hp|]. split; [lia|]. split; [lia|]. split; [lia|]. split_and!; intros ->; cbn [default from_option].
  - rewrite Z.max_l by (apply H1; lia). apply Hq. lia.
  - destruct (Hq (Z.min c 512) ltac:(lia)). split; [lia|].
    assert (Z.min c 512 / p <= 0 \/ 1 <= Z.min c 512 / p) as [Hz|Hz] by lia; [rewrite Z.max_r by lia; lia|].
    rewrite Z.max_l by lia. nia.
  - rewrite Z.max_l by (pose proof (H1 cores); pose proof (H1 c); lia).
    destruct (Hq cores ltac:(lia)), (Hq c ltac:(lia)). nia.
Qed.

Definition defaults : Args :=
  {| app := Some "m:app"%string; queues := []; redis_url := None; concurrency := None; procs := None; print_plan := false;
     visibility_timeout := 60; drain_timeout := 30; stats_interval := 10; log_level := "info"; io_loops := 1;
     io_threads := None; io_concurrency := None; cpu_workers := None; cpu_child_threads := 1; cpu_prefetch := 4;
     cpu_max_tasks_per_child := 10000; eager_cpu := false; no_fork_server := false; batch := 64;
     max_envelope_bytes := 1048576; python := None; redis_timeout := 5; mover_interval := 50; mover_limit := 128;
     ack_batch := 64; ack_flush_ms := 2 |}.

Definition with_c (c : Z) (n : option Z) : Args :=
  {| app := Some "m:app"%string; queues := []; redis_url := None; concurrency := Some c; procs := n; print_plan := false;
     visibility_timeout := 60; drain_timeout := 30; stats_interval := 10; log_level := "info"; io_loops := 1;
     io_threads := None; io_concurrency := None; cpu_workers := None; cpu_child_threads := 1; cpu_prefetch := 4;
     cpu_max_tasks_per_child := 10000; eager_cpu := false; no_fork_server := false; batch := 64;
     max_envelope_bytes := 1048576; python := None; redis_timeout := 5; mover_interval := 50; mover_limit := 128;
     ack_batch := 64; ack_flush_ms := 2 |}.

Lemma plan_within_budget_witness :
  resolve (with_c 500 None) 4 = {| r_procs := 4; r_io_threads := 125; r_io_concurrency := 125; r_cpu_workers := 1 |} /\
  r_io_concurrency (resolve (with_c 500 None) 4) * 4 <= 500.
Proof.
  split; [reflexivity|]. destruct (plan_within_budget (with_c 500 None) 4 500) as (_ & _ & _ & _ & H & _); [reflexivity|lia|reflexivity|lia|].
  apply H. reflexivity.
Defined.

(** With [--procs] given, the totals do exceed [-c]. *)
Example procs_flag_exceeds_c : plan_totals (resolve (with_c 4 (Some 8)) 8) 8 = (8, 8, 8, 8).
Proof. reflexivity. Qed.

(** ** The plan a child derives *)

(** The long options [Args] declares: the ones that take a value, the switches. *)
Definition valued : list string :=
  ["--app"; "--queues"; "--redis-url"; "--concurrency"; "--procs"; "--visibility-timeout"; "--drain-timeout"; "--stats-interval";
   "--log-level"; "--io-loops"; "--io-threads"; "--io-concurrency"; "--cpu-workers"; "--cpu-child-threads"; "--cpu-prefetch";
   "--cpu-max-tasks-per-child"; "--batch"; "--max-envelope-bytes"; "--python"; "--redis-timeout"; "--mover-interval"; "--mover-limit";
   "--ack-batch"; "--ack-flush-ms"]%string.
Definition switches : list string := ["--print-plan"; "--eager-cpu"; "--no-fork-server"]%string.

(** The arguments that spell options, each with its value. *)
Definition spell (o : string * option string) : list string := o.1 :: match o.2 with Some v => [v] | None => [] end.

(** A value clap reads as one: without [allow_hyphen_values], which [Args] never
    sets, an argument that begins with a hyphen is an option. *)
Definition leading_hyphen (v : string) : bool := match v with String c _ => Ascii.eqb c "-" | EmptyString => false end.

Inductive option_given : string * option string -> Prop :=
| given_value f v : f ∈ valued -> leading_hyphen v = false -> option_given (f, Some v)
| given_switch f : f ∈ switches -> option_given (f, None).

(** [clap]: the options an argument list gives, or a usage error. Of the lists it
    accepts: declared options, each at most once, the required one among them. *)
Class Clap := try_get_matches : list string -> option (list (string * option string)).
Class ClapLaws (C : Clap) : Prop :=
  long_options occs : NoDup occs.*1 -> Forall option_given occs -> "--app"%string ∈ occs.*1 \/ "--print-plan"%string ∈ occs.*1 ->
    exists m, try_get_matches (concat (spell <$> occs)) = Some m /\ forall f, assoc f m = assoc f occs.

Definition given (f : string) (m : list (string * option string)) : option string := mjoin (assoc f m).
Definition switched (f : string) (m : list (string * option string)) : bool := bool_decide (is_Some (assoc f m)).

(** A number, when it is given; [None] of the whole: clap refuses the text. *)
Definition num (f : string) (m : list (string * option string)) : option (option Z) :=
  match given f m with
  | None => Some None
  | Some v => match parse_u64 (bytes_of v) with Some n => Some (Some n) | None => None end
  end.
Definition num_or (d : Z) (f : string) (m : list (string * option string)) : option Z := default d <$> num f m.

(** The fields, as their declarations read them. *)
Definition from_matches (m : list (string * option string)) : option Args :=
  concurrency ← num "--concurrency" m; procs ← num "--procs" m;
  visibility_timeout ← num_or 60 "--visibility-timeout" m; drain_timeout ← num_or 30 "--drain-timeout" m;
  stats_interval ← num_or 10 "--stats-interval" m; io_loops ← num_or 1 "--io-loops" m;
  io_threads ← num "--io-threads" m; io_concurrency ← num "--io-concurrency" m; cpu_workers ← num "--cpu-workers" m;
  cpu_child_threads ← num_or 1 "--cpu-child-threads" m; cpu_prefetch ← num_or 4 "--cpu-prefetch" m;
  cpu_max_tasks_per_child ← num_or 10000 "--cpu-max-tasks-per-child" m; batch ← num_or 64 "--batch" m;
  max_envelope_bytes ← num_or 1048576 "--max-envelope-bytes" m; redis_timeout ← num_or 5 "--redis-timeout" m;
  mover_interval ← num_or 50 "--mover-interval" m; mover_limit ← num_or 128 "--mover-limit" m;
  ack_batch ← num_or 64 "--ack-batch" m; ack_flush_ms ← num_or 2 "--ack-flush-ms" m;
  Some {| app := given "--app" m; queues := default [] ((fun s => str_of <$> split_on "," (bytes_of s)) <$> given "--queues" m);
     redis_url := given "--redis-url" m; concurrency := concurrency; procs := procs; print_plan := switched "--print-plan" m;
     visibility_timeout := visibility_timeout; drain_timeout := drain_timeout; stats_interval := stats_interval;
     log_level := default "info"%string (given "--log-level" m); io_loops := io_loops; io_threads := io_threads;
     io_concurrency := io_concurrency; cpu_workers := cpu_workers; cpu_child_threads := cpu_child_threads; cpu_prefetch := cpu_prefetch;
     cpu_max_tasks_per_child := cpu_max_tasks_per_child; eager_cpu := switched "--eager-cpu" m; no_fork_server := switched "--no-fork-server" m;
     batch := batch; max_envelope_bytes := max_envelope_bytes; python := given "--python" m; redis_timeout := redis_timeout;
     mover_interval := mover_interval; mover_limit := mover_limit; ack_batch := ack_batch; ack_flush_ms := ack_flush_ms |}.

(** [Args::try_parse_from]. *)
Definition try_parse `{Clap} (argv : list string) : option Args := try_get_matches argv ≫= from_matches.

(** The settings of the Rust types' ranges. *)
Definition settings (a : Args) : list Z :=
  [io_loops a; cpu_child_threads a; cpu_prefetch a; cpu_max_tasks_per_child a; batch a; visibility_timeout a;
   max_envelope_bytes a; drain_timeout a; stats_interval a; redis_timeout a; mover_interval a; mover_limit a; ack_batch a; ack_flush_ms a].
Definition plan_ok (r : Resolved) : Prop :=
  Forall (fun n => 1 <= n <= u64_max) [r_procs r; r_io_threads r; r_io_concurrency r; r_cpu_workers r].

(** The settings that are text, as a child is told them. *)
Definition texts (a : Args) : list string :=
  default "" (app a) :: log_level a :: default "" (python a) :: match queues a with [] => [] | qs => [join "," qs] end.

Lemma split_join (c : ascii) l : l <> [] -> Forall (fun s => c ∉ bytes_of s) l ->
  str_of <$> split_on c (bytes_of (join (String c "") l)) = l.
Proof.
  intros Hne HF. induction HF as [|x l Hx HF IH]; [done|].
  assert (HS : forall s tl, c ∉ s -> split_on c (s ++ c :: tl) = s :: split_on c tl).
  { clear. intros s tl. induction s as [|a s IH]; intros Hs; cbn [Datatypes.app split_on].
    - by destruct (Ascii.eqb_spec c c).
    - destruct (Ascii.eqb_spec a c) as [->|]; [exfalso; apply Hs; left|]. rewrite IH; [done|]. intros ?. apply Hs. by right. }
  destruct l as [|y l].
  - cbn [join]. assert (HN : forall s, c ∉ s -> split_on c s = [s]).
    { clear. induction s as [|a s IH]; intros Hs; [done|]. cbn [split_on].
      destruct (Ascii.eqb_spec a c) as [->|]; [exfalso; apply Hs; left|]. rewrite IH; [done|]. intros ?. apply Hs. by right. }
    rewrite HN by done. cbn. by rewrite str_of_bytes_of.
  - cbn [join]. rewrite !bytes_of_app. change (bytes_of (String c "")) with [c]. cbn [Datatypes.app]. rewrite HS by done.
    cbn [fmap list_fmap]. rewrite str_of_bytes_of. f_equal. by apply IH.
Qed.

(** What the options of a child's argument list are. *)
Definition child_options (args : Args) (r : Resolved) (spec : string) : list (string * option string) :=
  [("--app", Some spec); ("--procs", Some "1"); ("--io-threads", Some (dec (r_io_threads r)));
   ("--io-concurrency", Some (dec (r_io_concurrency r))); ("--cpu-workers", Some (dec (r_cpu_workers r)));
   ("--io-loops", Some (dec (io_loops args))); ("--cpu-child-threads", Some (dec (cpu_child_threads args)));
   ("--cpu-prefetch", Some (dec (cpu_prefetch args))); ("--cpu-max-tasks-per-child", Some (dec (cpu_max_tasks_per_child args)));
   ("--batch", Some (dec (batch args))); ("--visibility-timeout", Some (dec (visibility_timeout args)));
   ("--max-envelope-bytes", Some (dec (max_envelope_bytes args))); ("--drain-timeout", Some (dec (drain_timeout args)));
   ("--stats-interval", Some (dec (stats_interval args))); ("--log-level", Some (log_level args));
   ("--redis-timeout", Some (dec (redis_timeout args))); ("--mover-interval", Some (dec (mover_interval args)));
   ("--mover-limit", Some (dec (mover_limit args))); ("--ack-batch", Some (dec (ack_batch args)));
   ("--ack-flush-ms", Some (dec (ack_flush_ms args)))]%string ++
  match python args with Some p => [("--python", Some p)]%string | None => [] end ++
  match queues args with [] => [] | qs => [("--queues", Some (join "," qs))]%string end ++
  (if no_fork_server args then [("--no-fork-server", None)]%string else []) ++
  (if eager_cpu args then [("--eager-cpu", None)]%string else []).

Lemma child_argv_options args r argv : child_argv args r = Some argv ->
  exists spec, app args = Some spec /\ argv = concat (spell <$> child_options args r spec).
Proof.
  unfold child_argv, app_spec. destruct (app args) as [spec|]; [|done]. intros [= <-]. exists spec. split; [done|].
  unfold child_options. by destruct (python args), (queues args) as [|q qs], (no_fork_server args), (eager_cpu args).
Qed.

Lemma dec_no_hyphen n : is_u64 n -> leading_hyphen (dec n) = false.
Proof.
  intros Hn. destruct (dec_bytes_cons n ltac:(apply Hn)) as (c & l & E & Hc). unfold dec. rewrite E. cbn.
  destruct (Ascii.eqb_spec c "-") as [->|]; [discriminate Hc|done].
Qed.

(** Every option of the list is declared, given once, with a value clap takes. *)
Lemma child_options_given args r spec : app args = Some spec -> plan_ok r -> Forall is_u64 (settings args) ->
  Forall (fun v => leading_hyphen v = false) (texts args) ->
  NoDup (child_options args r spec).*1 /\ Forall option_given (child_options args r spec).
Proof.
  intros Ea Hr Hs Ht. unfold plan_ok in Hr. rewrite !Forall_cons in Hr. destruct Hr as (_ & R1 & R2 & R3 & _).
  unfold settings in Hs. rewrite !Forall_cons in Hs. destruct Hs as (S1 & S2 & S3 & S4 & S5 & S6 & S7 & S8 & S9 & S10 & S11 & S12 & S13 & S14 & _).
  unfold texts in Ht. rewrite Ea, !Forall_cons in Ht. destruct Ht as (T1 & T2 & T3 & T4).
  assert (HU : forall n, 1 <= n <= u64_max -> is_u64 n) by (intros; mlia).
  assert (HV : forall f v, existsb (String.eqb f) valued = true -> leading_hyphen v = false -> option_given (f, Some v)).
  { intros f v (x & Hx & ->%String.eqb_eq)%existsb_exists. apply given_value. by apply list_elem_of_In. }
  split.
  - unfold child_options. destruct (python args), (queues args), (no_fork_server args), (eager_cpu args); cbn [fmap list_fmap fst Datatypes.app];
      (apply (bool_decide_unpack (NoDup _)); vm_compute; exact I).
  - unfold child_options. rewrite !Forall_app. split_and!.
    + repeat (apply Forall_cons; split; [apply HV; [reflexivity|first [exact T1|exact T2|reflexivity|apply dec_no_hyphen; by auto]]|]). constructor.
    + destruct (python args); [|done]. constructor; [|done]. by apply HV.
    + destruct (queues args) as [|q qs]; [done|]. constructor; [|done]. apply HV; [done|]. by apply Forall_cons in T4 as [? _].
    + destruct (no_fork_server args); [|done]. constructor; [|done]. apply given_switch. set_solver.
    + destruct (eager_cpu args); [|done]. constructor; [|done]. apply given_switch. set_solver.
Qed.

Lemma num_given f m n : given f m = Some (dec n) -> is_u64 n -> num f m = Some (Some n).
Proof. intros H Hn. unfold num. rewrite H. by rewrite bytes_of_dec, parse_dec. Qed.

Lemma num_or_given d f m n : given f m = Some (dec n) -> is_u64 n -> num_or d f m = Some n.
Proof. intros H Hn. unfold num_or. by rewrite (num_given f m n). Qed.

(** What a child reads of its options. *)
Lemma child_options_read args r spec m : plan_ok r -> Forall is_u64 (settings args) ->
  (forall f, assoc f m = assoc f (child_options args r spec)) ->
  exists a, from_matches m = Some a /\ app a = Some spec /\ concurrency a = None /\ redis_url a = None /\ procs a = Some 1 /\
    io_threads a = Some (r_io_threads r) /\ io_concurrency a = Some (r_io_concurrency r) /\ cpu_workers a = Some (r_cpu_workers r) /\
    settings a = settings args /\ log_level a = log_level args /\ python a = python args /\ print_plan a = false /\
    no_fork_server a = no_fork_server args /\ eager_cpu a = eager_cpu args /\
    queues a = match queues args with [] => [] | qs => str_of <$> split_on "," (bytes_of (join "," qs)) end.
Proof.
  intros Hr Hs HO. unfold plan_ok in Hr. rewrite !Forall_cons in Hr. destruct Hr as (_ & R1 & R2 & R3 & _).
  unfold settings in Hs. rewrite !Forall_cons in Hs. destruct Hs as (S1 & S2 & S3 & S4 & S5 & S6 & S7 & S8 & S9 & S10 & S11 & S12 & S13 & S14 & _).
  assert (HG : forall f v, assoc f (child_options args r spec) = Some (Some v) -> given f m = Some v) by (intros f v E; unfold given; by rewrite HO, E).
  assert (HU : forall n, 1 <= n <= u64_max -> is_u64 n) by (intros; mlia).
  assert (HT : given "--redis-url" m = None /\ num "--concurrency" m = Some None /\ given "--python" m = python args /\
    given "--queues" m = match queues args with [] => None | qs => Some (join "," qs) end /\ switched "--print-plan" m = false /\
    switched "--no-fork-server" m = no_fork_server args /\ switched "--eager-cpu" m = eager_cpu args).
  { unfold num, given, switched. rewrite !HO. unfold child_options.
    destruct (python args), (queues args), (no_fork_server args), (eager_cpu args); split_and!; reflexivity. }
  destruct HT as (T1 & T2 & T3 & T4 & T5 & T6 & T7). unfold from_matches. rewrite T2. cbn [mbind option_bind].
  rewrite (num_given "--procs" m 1), (num_given "--io-threads" m (r_io_threads r)), (num_given "--io-concurrency" m (r_io_concurrency r)),
    (num_given "--cpu-workers" m (r_cpu_workers r)) by (first [by apply HG|by auto|mlia]).
  do 14 (erewrite num_or_given; [|by apply HG|assumption]). cbn [mbind option_bind]. eexists. split; [reflexivity|].
  cbn. rewrite T1, T3, T4, T5, T6, T7, (HG "--app"%string spec), (HG "--log-level"%string (log_level args)) by done. split_and!; try done. by destruct (queues args).
Qed.

(** C30. Every process of a fleet runs the parent's plan. clap accepts the
    argument list the supervisor builds, when no text in it begins with a hyphen,
    and what a child reads of it are the parent's settings, with one process and
    the resolved per process numbers explicit, so it derives exactly them
    whatever its core count; and neither the total concurrency nor the Redis URL,
    with its credentials, is in the list. *)
Theorem child_runs_the_parents_plan (C : Clap) (CL : ClapLaws C) args r cores argv :
  child_argv args r = Some argv -> plan_ok r -> Forall is_u64 (settings args) ->
  Forall (fun v => leading_hyphen v = false) (texts args) -> Forall (fun q => "," ∉ bytes_of q)%char (queues args) ->
  exists a, try_parse argv = Some a /\
  resolve a cores = {| r_procs := 1; r_io_threads := r_io_threads r; r_io_concurrency := r_io_concurrency r; r_cpu_workers := r_cpu_workers r |} /\
  concurrency a = None /\ redis_url a = None /\ app a = app args /\ settings a = settings args /\ queues a = queues args /\
  log_level a = log_level args /\ python a = python args /\ no_fork_server a = no_fork_server args /\ eager_cpu a = eager_cpu args.
Proof.
  intros (spec & Ea & ->)%child_argv_options Hr Hs Ht Hq. destruct (child_options_given args r spec Ea Hr Hs Ht) as [ND HF].
  destruct (long_options _ ND HF ltac:(left; left)) as (m & Em & HO).
  destruct (child_options_read args r spec m Hr Hs HO) as (a & Er & A1 & A2 & A3 & A4 & A5 & A6 & A7 & A8 & A9 & A10 & _ & A11 & A12 & A13).
  exists a. unfold try_parse. rewrite Em. cbn [mbind option_bind]. split; [done|]. split.
  - unfold resolve. rewrite A2, A4, A5, A6, A7. unfold plan_ok in Hr. rewrite !Forall_cons in Hr. destruct Hr as (_ & R1 & R2 & R3 & _).
    unfold default, id. cbn [from_option]. f_equal; lia.
  - rewrite A13. split_and!; [done|done|congruence|done| |done..]. destruct (queues args) as [|q qs]; [done|]. by apply split_join.
Qed.

(** A parser with the law: an option's next argument is its value unless it
    begins with a hyphen, and every argument must belong to an option. *)
Fixpoint toy_matches (argv : list string) : option (list (string * option string)) :=
  match argv with
  | [] => Some []
  | f :: rest =>
      if existsb (String.eqb f) switches then cons (f, None) <$> toy_matches rest
      else match rest with
           | v :: rest => if existsb (String.eqb f) valued && negb (leading_hyphen v) then cons (f, Some v) <$> toy_matches rest else None
           | [] => None
           end
  end.
#[local] Instance toy_clap : Clap := toy_matches.

Lemma valued_not_switch f : f ∈ valued -> existsb (String.eqb f) switches = false /\ existsb (String.eqb f) valued = true.
Proof.
  intros Hf. assert (HB : forallb (fun f => negb (existsb (String.eqb f) switches)) valued = true) by reflexivity.
  rewrite forallb_forall in HB. apply list_elem_of_In in Hf. split; [by apply negb_true_iff, HB|].
  apply existsb_exists. exists f. split; [done|apply String.eqb_refl].
Qed.

#[local] Instance toy_clap_laws : ClapLaws toy_clap.
Proof.
  intros occs _ HF _. exists occs. split; [|done]. induction HF as [|o occs Ho _ IH]; [done|].
  change (try_get_matches ?l) with (toy_matches l) in *. cbn [fmap list_fmap concat]. destruct Ho as [f v Hf Hv|f Hf]; cbn [spell fst snd Datatypes.app toy_matches].
  - destruct (valued_not_switch f Hf) as [-> ->]. rewrite Hv. cbn [negb andb]. change (concat (spell <$> occs)) with (concat (fmap spell occs)) in *. by rewrite IH.
  - assert (existsb (String.eqb f) switches = true) as ->; [|by rewrite IH].
    apply existsb_exists. exists f. split; [by apply list_elem_of_In|apply String.eqb_refl].
Qed.

Lemma child_runs_the_parents_plan_witness : exists argv a,
  child_argv (with_c 500 None) (resolve (with_c 500 None) 4) = Some argv /\ try_parse argv = Some a /\
  r_io_threads (resolve a 64) = 125 /\ concurrency a = None.
Proof.
  eexists. destruct (child_runs_the_parents_plan toy_clap toy_clap_laws (with_c 500 None) (resolve (with_c 500 None) 4) 64 _ eq_refl) as (a & Hp & H & HC & _);
    [repeat constructor; vm_compute; discriminate|repeat constructor; vm_compute; discriminate|repeat constructor|constructor|].
  exists a. split; [reflexivity|]. split; [exact Hp|]. split; [|exact HC]. exact (f_equal r_io_threads H).
Defined.

(** A queue name may begin with a hyphen ([valid_queue_name]), and
    [--queues=-q] gives the parent one; its child is told [--queues -q]. *)
Definition with_queue (q : string) : Args :=
  {| app := Some "m:app"%string; queues := [q]; redis_url := None; concurrency := Some 128; procs := None; print_plan := false;
     visibility_timeout := 60; drain_timeout := 30; stats_interval := 10; log_level := "info"; io_loops := 1;
     io_threads := None; io_concurrency := None; cpu_workers := None; cpu_child_threads := 1; cpu_prefetch := 4;
     cpu_max_tasks_per_child := 10000; eager_cpu := false; no_fork_server := false; batch := 64;
     max_envelope_bytes := 1048576; python := None; redis_timeout := 5; mover_interval := 50; mover_limit := 128;
     ack_batch := 64; ack_flush_ms := 2 |}.
Example hyphen_queue_stops_the_children : valid_queue_name "-q" = true /\
  (child_argv (with_queue "-q") (resolve (with_queue "-q") 4) ≫= try_parse) = None.
Proof. split; vm_compute; reflexivity. Qed.

(** ** The supervisor *)

(** Between two spawns of a slot at least [RESTART_DELAY_MS]; while draining,
    every child left has been signalled. *)
Record sup_inv (s : supervisor) : Prop := {
  si_paced : forall x, x ∈ slots s -> child x = None -> shutting_down s = true \/ spawned x + RESTART_DELAY_MS <= respawn_at x;
  si_signalled : shutting_down s = true -> forall x p, x ∈ slots s -> child x = Some p -> p ∈ signalled s;
  si_exit : exit_code s = 0 \/ exit_code s = 1;
}.

Lemma tick_slot_spec sd now x v : (child x = None -> sd = true \/ spawned x + RESTART_DELAY_MS <= respawn_at x) ->
  let '(x', _, sp) := tick_slot sd now x v in
  (child x' = None -> sd = true \/ spawned x' + RESTART_DELAY_MS <= respawn_at x') /\
  (sd = true -> child x' = child x \/ child x' = None) /\
  (forall pid, sp = Some pid -> sd = false /\ child x = None /\ spawned x + RESTART_DELAY_MS <= now).
Proof.
  intros H. unfold tick_slot. destruct (child x) as [p|] eqn:Ec.
  - destruct (sv_wait v) as [| |ok]; [split_and!; auto; congruence..|].
    destruct sd; cbn [child spawned respawn_at]; split_and!; auto; try done. intros _. right. lia.
  - specialize (H eq_refl). destruct sd; cbn [negb andb]; [split_and!; auto; done|].
    destruct (Z.leb_spec (respawn_at x) now) as [Hle|]; [|split_and!; auto; done]. destruct H as [|H]; [done|].
    destruct (sv_spawn v) as [pid|]; cbn [child spawned respawn_at]; (split_and!; [try done|done|]).
    + intros pid' _. split_and!; [done..|lia].
    + intros _. right. unfold RESTART_DELAY_MS in *. lia.
    + done.
Qed.

Lemma sup_step_inv s e : sup_inv s -> sup_inv (sup_step s e).
Proof.
  intros [H1 H2 H3]. destruct e as [|now views]; split; cbn [sup_step slots shutting_down exit_code signalled].
  - intros. by left.
  - intros _ x p Hx Hp. apply elem_of_app. right. apply list_elem_of_omap. by exists x.
  - done.
  - intros x' Hx'. apply list_elem_of_fmap in Hx' as (r & -> & Hr). apply elem_of_lookup_imap in Hr as (i & x & -> & Hx).
    apply list_elem_of_lookup_2 in Hx. pose proof (tick_slot_spec (shutting_down s) now x (views i) (H1 x Hx)) as HT.
    destruct (tick_slot _ _ _ _) as [[x' f] sp]. apply HT.
  - intros Hsd x' p Hx' Hp. apply list_elem_of_fmap in Hx' as (r & -> & Hr). apply elem_of_lookup_imap in Hr as (i & x & -> & Hx).
    apply list_elem_of_lookup_2 in Hx. pose proof (tick_slot_spec (shutting_down s) now x (views i) (H1 x Hx)) as HT.
    destruct (tick_slot _ _ _ _) as [[x' f] sp]. destruct HT as (_ & HT & _). cbn [fst] in Hp.
    destruct (HT Hsd) as [E|E]; [|congruence]. apply (H2 Hsd x p Hx). congruence.
  - destruct (existsb _ _); auto.
Qed.

Lemma supervise_inv es : forall s, sup_inv s -> sup_inv (supervise s es).
Proof. induction es as [|e es IH]; intros s H; [done|]. cbn [supervise]. destruct (done s); [done|]. by apply IH, sup_step_inv. Qed.

Lemma start_all_inv now spawns : forall started s, start_all now spawns started = inl s -> sup_inv s.
Proof.
  induction spawns as [|[pid|] spawns IH]; intros started s; cbn [start_all]; [|by apply IH|done].
  intros [= <-]. split; cbn; [|done|by left]. intros x (p & -> & _)%list_elem_of_fmap. done.
Qed.

(** C34. The supervisor through any run of signals, ticks, deaths and failed
    spawns: a process is respawned only when none is draining, into an empty
    slot, and at least a second after that slot's last spawn, so a child that
    dies at startup retries at 1/s; once a signal came every child still running
    has been sent SIGTERM and no new one starts, and the loop ends only with all
    of them gone. *)
Theorem supervisor_paces_and_drains now0 spawns s0 es now views :
  start_all now0 spawns [] = inl s0 ->
  let s := supervise s0 es in
  (forall i x, slots s !! i = Some x -> forall pid, (tick_slot (shutting_down s) now x (views i)).2 = Some pid ->
     shutting_down s = false /\ child x = None /\ spawned x + RESTART_DELAY_MS <= now) /\
  (shutting_down s = true -> forall x p, x ∈ slots s -> child x = Some p -> p ∈ signalled s) /\
  (forall e, done (sup_step s e) = true -> shutting_down s = true /\ forall x, x ∈ slots (sup_step s e) -> child x = None).
Proof.
  intros H0 s. assert (HI : sup_inv s) by (apply supervise_inv; by eapply start_all_inv). split_and!.
  - intros i x Hx pid Hp. apply list_elem_of_lookup_2 in Hx.
    pose proof (tick_slot_spec (shutting_down s) now x (views i) (si_paced _ HI x Hx)) as HT.
    destruct (tick_slot _ _ _ _) as [[x' f] sp]. by apply (proj2 (proj2 HT) pid).
  - apply HI.
  - intros [|now' views']; cbn [sup_step done slots]; [done|]. intros [Hsd Hall]%andb_true_iff. split; [done|].
    intros x Hx. rewrite forallb_forall in Hall. apply list_elem_of_In in Hx. specialize (Hall x Hx). by apply bool_decide_eq_true in Hall.
Qed.

Lemma supervisor_paces_and_drains_witness : exists s0,
  start_all 0 [Some 10; Some 11] [] = inl s0 /\
  let s := supervise s0 [Tick 200 (fun _ => {| sv_wait := Exited false; sv_spawn := None |})] in
  forall i x, slots s !! i = Some x ->
    (tick_slot (shutting_down s) 1000 x {| sv_wait := StillRunning; sv_spawn := Some 12 |}).2 = Some 12 -> spawned x + 1000 <= 1000.
Proof.
  eexists. split; [reflexivity|]. intros s i x Hx Hp.
  by apply (supervisor_paces_and_drains 0 [Some 10; Some 11] _ [Tick 200 (fun _ => {| sv_wait := Exited false; sv_spawn := None |})]
    1000 (fun _ => {| sv_wait := StillRunning; sv_spawn := Some 12 |}) eq_refl) with (i := i) (x := x) (pid := 12).
Defined.
