(* ===== verification/Worker.v ===== *)
(** One worker process ([worker/src/lib.rs], [run_worker]; [worker/src/ctx.rs],
    [Ctx]; [PyRuntime::init] is in [AsyncLane]): what the parts of the
    other files are built from, in what order, and what stops the process before
    it reads a queue. *)
From S2P Require Import Prelude Float64 Envelope Stats Ctx Pyrt AsyncLane SyncPool Cpu Redis Broker Exec Dispatch Plan Startup.
Open Scope Z_scope.

(** ** The lazily started cpu pool *)

(** [Ctx::cpu_pool]: the cell's pool, started by the first caller; [fork_server]
    is the parent's pid when it came up. *)
Definition cpu_pool (cell : option CpuPool) (cfg : option StartCfg) (fork_server : option Z) : CpuPool * option CpuPool :=
  match cell with
  | Some p => (p, cell)
  | None => let p := match cfg with Some c => Cpu.start c fork_server | None => disabled end in (p, Some p)
  end.

Definition cpu_overflow (cell : option CpuPool) : Z := match cell with Some p => overflow p | None => 0 end.

(** ** The shared context *)

Record Ctx := {
  args : Args;
  registry : gmap string TaskSpec;
  io_sem : Z;
  inflight_entries : Inflight;
  acks : gmap string Z;
  sync_threads : SyncPool;
  sync_queue : pool;
  cpu_cfg : option StartCfg;
  result_ttl : Z;
  idemp_ttl : Z;
  queue_ttl_ms : gmap string Z;
  queues : list string;
  consumer : string;
}.

(** What dispatch reads of it. *)
Definition dispatch_config (c : Ctx) : Dispatch.config :=
  {| Dispatch.registry := registry c; Dispatch.max_envelope_bytes := Z.to_nat (Plan.max_envelope_bytes (args c));
     Dispatch.result_ttl := result_ttl c; Dispatch.idemp_ttl := idemp_ttl c; Dispatch.queue_ttls := queue_ttl_ms c |}.

(** [AckBufs::start]: each queue's channel, by its capacity. *)
Definition ack_bufs (queues : list string) (batch : Z) : gmap string Z :=
  list_to_map ((fun q => (q, channel_capacity batch)) <$> queues).

(** The host: its name, the process, the embedded interpreter. *)
Record host := { hostname : string; pid : Z; embedded : option string }.

Definition start_cfg (a : Args) (r : Resolved) (spec : string) (h : host) : StartCfg :=
  {| Cpu.workers := r_cpu_workers r; Cpu.child_threads := Plan.cpu_child_threads a; Cpu.prefetch := Plan.cpu_prefetch a;
     Cpu.recycle := Plan.cpu_max_tasks_per_child a; Cpu.python := resolve_python (Plan.python a) (embedded h);
     Cpu.app_spec := spec; Cpu.no_fork_server := Plan.no_fork_server a |}.

Definition wire (a : Args) (r : Resolved) (app : AppConfig) (qs : list string) (h : host) : Ctx :=
  let spec := default ""%string (Plan.app_spec a) in
  let threads := sync_pool_threads (cfg_tasks app) (r_io_threads r) in
  {| args := a; registry := cfg_tasks app; io_sem := r_io_concurrency r;
     inflight_entries := list_to_map ((fun q => (q, ∅)) <$> qs);
     acks := ack_bufs qs (Plan.ack_batch a);
     sync_threads := sync_pool_start threads;
     sync_queue := pool_init (Z.to_nat threads) (Z.to_nat (r_io_concurrency r));
     cpu_cfg := if needs_cpu (cfg_tasks app) then Some (start_cfg a r spec h) else None;
     result_ttl := cfg_result_ttl app; idemp_ttl := cfg_idemp_ttl app; queue_ttl_ms := queue_ttl_of (cfg_queue_ttl app);
     queues := qs; consumer := hostname h +:+ ":" +:+ dec (pid h) |}.

(** ** Starting *)

(** What stops a start. *)
Inductive refusal := BadUrl | CannotConnect | NoFetchConnection | ClusterRefused | GroupsFailed (e : rerr) | StartupFailed | BadQueue (q : string).

(** What the connections came to. *)
Record dialing := { url_ok : string -> bool; write_ok : bool; fetch_ok : bool }.

Section run.
Context {R : Redis}.

(** [probe_cluster_info]: a failed probe never blocks a start. *)
Definition probe_cluster_info : world -> option string * world := fun w =>
  match query ["INFO"; "cluster"]%string w with
  | (Ok (RBulk info), w') => (Some info, w')
  | (_, w') => (None, w')
  end.

(** [run_worker] up to its loops; each refusal exits with 1. The clock's first
    sample ([Startup.clock_init]) follows the groups and stops nothing. *)
Definition run_worker (a : Args) (r : Resolved) (app : AppConfig) (url : string) (qs : list string) (h : host) (d : dialing)
    (override : option bytes) (w : world) : (refusal + Ctx) * world :=
  if negb (url_ok d url) then (inl BadUrl, w)
  else if negb (write_ok d) then (inl CannotConnect, w)
  else if negb (fetch_ok d) then (inl NoFetchConnection, w)
  else
    let '(info, w) := probe_cluster_info w in
    match (fun i => cluster_decision (bytes_of i) override) <$> info with
    | Some Refuse => (inl ClusterRefused, w)
    | _ =>
        match ensure_groups qs w with
        | (Err e, w) => (inl (GroupsFailed e), w)
        | (Ok _, w) => (inr (wire a r app qs h), w)
        end
    end.

(** [real_main]'s single process: the runtime, the queues, the worker; [env] is
    [CAULI_REDIS_URL]. *)
Definition start_worker (a : Args) (r : Resolved) (built : bool) (x : interp) (env : option string) (h : host)
    (d : dialing) (override : option bytes) (w : world) : (refusal + Ctx) * world :=
  match (init built (default ""%string (Plan.app_spec a)) (Plan.io_loops a) (r_io_concurrency r) x).1.1 with
  | None => (inl StartupFailed, w)
  | Some app =>
      match effective_queues a (default_queue app) with
      | Err q => (inl (BadQueue q), w)
      | Ok qs => run_worker a r app (effective_redis_url a env (Pyrt.redis_url app)) qs h d override w
      end
  end.
End run.

(** The pool's cell before the first entry: filled only by [--eager-cpu]. *)
Definition eager_pool (c : Ctx) (fork_server : option Z) : option CpuPool :=
  if Plan.eager_cpu (args c) && bool_decide (is_Some (cpu_cfg c)) then (cpu_pool None (cpu_cfg c) fork_server).2 else None.

(** Once the fetch loop returned, at [stopped_at]: the exit code and the pids
    killed; [None] while the drain still waits. *)
Definition worker_exit (c : Ctx) (stopped_at : Z) (polls : list (Z * Z)) (left : Z) (cell : option CpuPool) : option (Z * list Z) :=
  code ← drain_code (stopped_at + Plan.drain_timeout (args c) * 1000) polls left;
  Some (code, match cell with Some p => kill_children p | None => [] end).

(** ** What a start guarantees *)

Section start.
Context {R : Redis}.

Definition xgroup_create (q : string) : cmd := ["XGROUP"; "CREATE"; q_key q; "cauli"; "0"; "MKSTREAM"]%string.
Definition busy (r : reply) : Prop := exists e, r = RErr e /\ contains (bytes_of "BUSYGROUP") (bytes_of (text_ e)) = true.

(** One command adds at most itself to the trace; an answer, or a server error,
    is the reply it got. *)
Lemma query_sends (c : cmd) (w w' : world) r : query c w = (r, w') ->
  exists t, trace w' = trace w ++ t /\ (forall p, p ∈ t -> p.1 = c) /\
    match r with Ok x => t = [(c, x)] /\ accepted x | Err e => e = conn_error \/ t = [(c, RErr e)] end.
Proof.
  unfold query. destruct (round_trip [c] w) as [res w1] eqn:E.
  destruct (round_trip_trace _ _ _ _ E) as (rs & k & Ht & Hl & Hr).
  assert (Hc : forall p, p ∈ zip (take k [c]) rs -> p.1 = c).
  { intros [x y] Hp. apply elem_of_zip_l in Hp. destruct k as [|[|k]]; cbn in Hp; set_solver. }
  destruct res as [l|e].
  - destruct Hr as [-> Hk]. rewrite Hk in *. destruct rs as [|x [|]]; cbn in Hl; try done. intros [= <- <-].
    exists [(c, x)]. split; [done|]. split; [exact Hc|]. unfold accepted. destruct x; cbn; try done. by right.
  - intros [= <- <-]. exists (zip (take k [c]) rs). split; [done|]. split; [exact Hc|]. left.
    revert E. unfold round_trip. destruct (match trips w with t :: _ => t | [] => _ end) as [env tn]. cbn.
    destruct (exec_all _ _). destruct tn; by intros [= <- _].
Qed.

Lemma ensure_groups_spec qs : forall (w w' : world), ensure_groups qs w = (Ok tt, w') ->
  trace w `prefix_of` trace w' /\
  forall q, q ∈ qs -> exists rep, (xgroup_create q, rep) ∈ trace w' /\ (accepted rep \/ busy rep).
Proof.
  induction qs as [|q qs IH]; intros w w' E; cbn [ensure_groups] in E.
  { injection E as <-. split; [done|]. by intros q ?%not_elem_of_nil. }
  change (["XGROUP"; "CREATE"; q_key q; "cauli"; "0"; "MKSTREAM"]%string) with (xgroup_create q) in E.
  destruct (query (xgroup_create q) w) as [r w1] eqn:Q. destruct (query_sends _ _ _ _ Q) as (t & Ht & _ & Hr).
  assert (HG : ensure_groups qs w1 = (Ok tt, w') -> (exists rep, t = [(xgroup_create q, rep)] /\ (accepted rep \/ busy rep)) ->
    trace w `prefix_of` trace w' /\ forall q', q' ∈ q :: qs -> exists rep, (xgroup_create q', rep) ∈ trace w' /\ (accepted rep \/ busy rep)).
  { intros E1 (rep & -> & Hrep). destruct (IH _ _ E1) as [HP HQ]. split; [etransitivity; [|exact HP]; exists [(xgroup_create q, rep)]; done|].
    intros q' [->|Hq]%elem_of_cons; [|by apply HQ]. exists rep. split; [|done]. eapply elem_of_prefix; [|exact HP].
    rewrite Ht. apply elem_of_app. right. left. }
  destruct r as [x|e]; [apply HG; [done|]; exists x; tauto|].
  destruct (contains _ _) eqn:C; [|done]. apply HG; [done|]. destruct Hr as [->|Hr]; [by vm_compute in C|].
  exists (RErr e). split; [done|]. right. by exists e.
Qed.

Lemma probe_trace (w w' : world) info : probe_cluster_info w = (info, w') ->
  exists t, trace w' = trace w ++ t /\ forall p, p ∈ t -> p.1 = ["INFO"; "cluster"]%string.
Proof.
  unfold probe_cluster_info. destruct (query _ w) as [r w1] eqn:Q. destruct (query_sends _ _ _ _ Q) as (t & Ht & Hp & _).
  intros E. assert (w' = w1) as -> by (destruct r as [[]|]; by injection E as _ <-). by exists t.
Qed.
End start.

(** C35. A worker reads its queues only once it may: when it starts, the server
    was not refused as a cluster and the group of each of its queues was created
    or already there; and a start stopped any earlier has sent Redis nothing but
    the probe. *)
Theorem start_gates {R : Redis} a r built x env h d override (w : world) :
  let '(res, w') := start_worker a r built x env h d override w in
  match res with
  | inr c =>
      (forall i, (probe_cluster_info w).1 = Some i -> cluster_decision (bytes_of i) override <> Refuse) /\
      forall q, q ∈ queues c -> exists rep, (xgroup_create q, rep) ∈ trace w' /\ (accepted rep \/ busy rep)
  | inl (GroupsFailed _) => True
  | inl _ => forall p, p ∈ trace w' -> p ∈ trace w \/ p.1 = ["INFO"; "cluster"]%string
  end.
Proof.
  unfold start_worker. destruct (init built _ _ _ x).1.1 as [app|]; [|by left].
  destruct (effective_queues a (default_queue app)) as [qs|]; [|by left].
  unfold run_worker. destruct (url_ok d _); [|by left]. destruct (write_ok d); [|by left]. destruct (fetch_ok d); [|by left].
  cbn [negb]. destruct (probe_cluster_info w) as [info w1] eqn:P. destruct (probe_trace _ _ _ P) as (t & Ht & Hp).
  set (dec := (fun i => cluster_decision (bytes_of i) override) <$> info).
  assert (HW : dec <> Some Refuse -> let '(res, w') := match ensure_groups qs w1 with
      | (Err e, w) => (inl (GroupsFailed e), w) | (Ok _, w) => (inr (wire a r app qs h), w) end in
    match res with
    | inr c => (forall i, info = Some i -> cluster_decision (bytes_of i) override <> Refuse) /\
        forall q, q ∈ queues c -> exists rep, (xgroup_create q, rep) ∈ trace w' /\ (accepted rep \/ busy rep)
    | inl (GroupsFailed _) => True
    | inl _ => forall p, p ∈ trace w' -> p ∈ trace w \/ p.1 = ["INFO"; "cluster"]%string
    end).
  { intros Hd. destruct (ensure_groups qs w1) as [[[]|e] w2] eqn:G; [|done].
    split; [intros i ->; contradict Hd; unfold dec; cbn; by f_equal|]. by apply (ensure_groups_spec qs w1). }
  destruct dec as [[| |]|] eqn:Ed; [by apply HW..| |by apply HW].
  intros p Hin. rewrite Ht in Hin. apply elem_of_app in Hin as [?|?]; [by left|right; by apply Hp].
Qed.

(** ** What a started worker is wired to *)

Lemma spawn_iter n max : Z.of_nat n <= max ->
  Nat.iter n spawn_worker {| live_threads := 0; max_threads := max; next_idx := 0; abandoned := 0 |} =
  {| live_threads := Z.of_nat n; max_threads := max; next_idx := Z.of_nat n; abandoned := 0 |}.
Proof.
  induction n as [|n IH]; intros H; [done|]. cbn [Nat.iter nat_rect]. change (nat_rect _ _ _ n) with
    (Nat.iter n spawn_worker {| live_threads := 0; max_threads := max; next_idx := 0; abandoned := 0 |}).
  rewrite IH by lia. unfold spawn_worker. cbn [live_threads max_threads next_idx abandoned].
  destruct (Z.leb_spec max (Z.of_nat n)); [lia|]. f_equal; lia.
Qed.

Lemma sync_pool_live threads : 1 <= threads -> live_threads (sync_pool_start threads) = threads.
Proof.
  intros H. unfold sync_pool_start. rewrite Z.max_l by done. rewrite spawn_iter; cbn; [lia|unfold SYNC_POOL_THREAD_CEILING_MULTIPLE; lia].
Qed.

Lemma in_registry (m : gmap string TaskSpec) (f : TaskSpec -> bool) t spec : m !! t = Some spec -> f spec = true ->
  existsb (fun p : string * TaskSpec => f p.2) (map_to_list m) = true.
Proof.
  intros Hm Hf. apply existsb_exists. exists (t, spec). split; [|done]. by apply list_elem_of_In, elem_of_map_to_list.
Qed.

Lemma valid_queues a dq qs : effective_queues a dq = Ok qs -> qs <> [] /\ forall q, q ∈ qs -> valid_queue_name q = true.
Proof.
  unfold effective_queues. destruct (List.find _ _) eqn:E; [done|]. intros [= <-]. split; [by destruct (Plan.queues a)|].
  intros q Hq. pose proof (List.find_none _ _ E q (proj1 (list_elem_of_In _ _) Hq)) as H. by apply negb_false_iff in H.
Qed.

Lemma per_queue {A} (qs : list string) (x : A) q : q ∈ qs -> (list_to_map ((fun q => (q, x)) <$> qs) : gmap string A) !! q = Some x.
Proof.
  induction qs as [|q' qs IH]; intros Hq; [by apply not_elem_of_nil in Hq|]. cbn. destruct (decide (q = q')) as [->|Hne].
  - by rewrite lookup_insert_eq.
  - rewrite lookup_insert_ne by done. apply IH. by apply elem_of_cons in Hq as [|].
Qed.

Lemma real_main_run a cores r : real_main a cores = RunWorker r ->
  flags_error a = None /\ 1 <= r_io_threads r <= MAX_IO_THREADS /\ 1 <= r_io_concurrency r <= MAX_IO_CONCURRENCY /\ 1 <= r_cpu_workers r.
Proof.
  unfold real_main. destruct (flags_error a); [done|]. destruct (io_limits_error (resolve a cores)) eqn:L; [done|].
  destruct (Plan.print_plan a); [done|]. destruct (1 <? _); [done|]. intros [= <-].
  assert (1 <= r_io_threads (resolve a cores) /\ 1 <= r_io_concurrency (resolve a cores) /\ 1 <= r_cpu_workers (resolve a cores)).
  { unfold resolve. destruct (Plan.concurrency a); cbn [r_io_threads r_io_concurrency r_cpu_workers]; lia. }
  unfold io_limits_error in L. destruct (Z.ltb_spec MAX_IO_THREADS (r_io_threads (resolve a cores))); [done|].
  destruct (Z.ltb_spec MAX_IO_CONCURRENCY (r_io_concurrency (resolve a cores))); [done|]. split; [done|]. lia.
Qed.

(** What a worker needs of its context to run whatever it fetches. *)
Record wired (a : Args) (r : Resolved) (c : Ctx) : Prop := {
  wd_queues : queues c <> [] /\ forall q, q ∈ queues c -> valid_queue_name q = true /\
    inflight_entries c !! q = Some ∅ /\ exists cap, acks c !! q = Some cap /\ 256 <= cap;
  wd_io : 1 <= io_sem c <= MAX_IO_CONCURRENCY /\ (1 <= Dispatch.max_envelope_bytes (dispatch_config c))%nat;
  wd_sync : forall t spec, Dispatch.registry (dispatch_config c) !! t = Some spec -> lane_of spec = LSync ->
    live_threads (sync_threads c) = r_io_threads r /\ 1 <= r_io_threads r;
  wd_cpu : forall t spec, Dispatch.registry (dispatch_config c) !! t = Some spec -> lane_of spec = LCpu ->
    forall fork_server, let p := (cpu_pool None (cpu_cfg c) fork_server).1 in
      tx_open p = true /\ 1 <= tx_cap p /\ 1 <= admission p;
  wd_no_cpu : (forall t spec, Dispatch.registry (dispatch_config c) !! t = Some spec -> lane_of spec <> LCpu) ->
    cpu_cfg c = None;
}.

Lemma lane_of_cpu spec : lane_of spec = LCpu <-> String.eqb (ts_kind spec) "cpu" = true.
Proof. unfold lane_of. destruct (String.eqb _ _), (ts_is_async spec); split; done. Qed.

Lemma lane_of_sync spec : lane_of spec = LSync -> negb (String.eqb (ts_kind spec) "cpu") && negb (ts_is_async spec) = true.
Proof. unfold lane_of. by destruct (String.eqb _ _), (ts_is_async spec). Qed.

Lemma wire_wired a cores r app qs h : real_main a cores = RunWorker r -> 0 <= Plan.max_envelope_bytes a ->
  effective_queues a (default_queue app) = Ok qs -> wired a r (wire a r app qs h).
Proof.
  intros Hm Hb Hq. destruct (real_main_run _ _ _ Hm) as (Hf & Ht & Hc & Hw). destruct (valid_queues _ _ _ Hq) as [Hne Hv].
  split; cbn [wire queues inflight_entries acks io_sem dispatch_config sync_threads cpu_cfg registry args Dispatch.registry Dispatch.max_envelope_bytes].
  - split; [done|]. intros q Hin. split_and!; [by apply Hv|by apply per_queue|]. eexists. split; [by apply per_queue|]. apply Z.le_max_r.
  - split; [done|]. unfold flags_error in Hf. destruct (Plan.batch a =? 0); [done|]. destruct (Plan.visibility_timeout a =? 0); [done|].
    destruct (Z.eqb_spec (Plan.max_envelope_bytes a) 0); [done|]. lia.
  - intros t spec Hs Hl. unfold sync_pool_threads.
    rewrite (in_registry _ (fun s => negb (String.eqb (ts_kind s) "cpu") && negb (ts_is_async s)) t spec Hs (lane_of_sync _ Hl)).
    split; [apply sync_pool_live, Ht|apply Ht].
  - intros t spec Hs Hl fork. apply lane_of_cpu in Hl. unfold needs_cpu.
    rewrite (in_registry _ (fun s => String.eqb (ts_kind s) "cpu") t spec Hs Hl). unfold cpu_pool, Cpu.start. cbn [fst].
    destruct (Cpu.no_fork_server _), fork; cbn; (split_and!; [done|unfold job_cap; lia|unfold admission_permits; lia]).
  - intros Hno. destruct (needs_cpu (cfg_tasks app)) eqn:E; [|done]. unfold needs_cpu in E.
    apply existsb_exists in E as ([t spec] & Hin & Hk). apply list_elem_of_In, elem_of_map_to_list in Hin.
    exfalso. apply (Hno t spec Hin). by apply lane_of_cpu.
Qed.

(** C36. Every lane a registered task can take has its executor: whatever the
    command line, the plan and the app, a worker that starts consumes at least
    one queue, each validly named, with its own completion buffer and in-flight
    set; admits between one task and the limit; has its planned sync threads
    when a sync task is registered, an open cpu pool with room to admit when a
    cpu task is, and no cpu pool at all otherwise. *)
Theorem every_lane_is_served {R : Redis} a cores r built x env h d override (w w' : world) c :
  real_main a cores = RunWorker r -> 0 <= Plan.max_envelope_bytes a ->
  start_worker a r built x env h d override w = (inr c, w') -> wired a r c.
Proof.
  intros Hm Hb. unfold start_worker. destruct (init built _ _ _ x).1.1 as [app|]; [|done].
  destruct (effective_queues a (default_queue app)) as [qs|] eqn:Hq; [|done].
  unfold run_worker. destruct (url_ok d _); [|done]. destruct (write_ok d); [|done]. destruct (fetch_ok d); [|done].
  cbn [negb]. destruct (probe_cluster_info w) as [info w1].
  assert (HW : match ensure_groups qs w1 with (Err e, w) => (inl (GroupsFailed e), w) | (Ok _, w) => (inr (wire a r app qs h), w) end =
    (inr c, w') -> wired a r c).
  { destruct (ensure_groups qs w1) as [[[]|e] w2]; [|done]. intros [= <- _]. by eapply wire_wired. }
  destruct ((fun i => cluster_decision (bytes_of i) override) <$> info) as [[| |]|]; [exact HW|exact HW|done|exact HW].
Qed.

Lemma cpu_pool_once cell cfg f f' : cpu_pool (cpu_pool cell cfg f).2 cfg f' = cpu_pool cell cfg f.
Proof. by destruct cell. Qed.

(** ** A start with the default flags *)

Definition toy_app : AppConfig :=
  {| Pyrt.redis_url := "redis://h"; default_queue := "default"; cfg_result_ttl := 60; cfg_idemp_ttl := 60; cfg_queue_ttl := ∅;
     cfg_tasks := {["t" := {| ts_kind := "cpu"; ts_is_async := false; ts_timeout_ms := 1000 |}]} |}.
Definition toy_interp : interp := {| ip_works := fun _ => true; ip_config := toy_app |}.
Definition toy_host : host := {| hostname := "h"; pid := 42; embedded := None |}.
Definition toy_dialing : dialing := {| url_ok := fun _ => true; write_ok := true; fetch_ok := true |}.

Lemma every_lane_is_served_witness :
  wired defaults (resolve defaults 4) (wire defaults (resolve defaults 4) toy_app ["default"]%string toy_host).
Proof.
  eapply (every_lane_is_served defaults 4 (resolve defaults 4) false toy_interp None toy_host toy_dialing None toy_world).
  - vm_compute. reflexivity.
  - vm_compute. discriminate.
  - unfold start_worker. cbn [init walk init_calls ip_works toy_interp ip_config fst]. change (effective_queues defaults (default_queue toy_app)) with (Ok ["default"%string] : result string (list string)).
    reflexivity.
Defined.

(** The drain ends at its deadline or as soon as nothing is in flight, and its
    exit code tells whether tasks were left for recovery. *)
Theorem drain_ends c stopped_at polls left cell :
  (exists now n, (now, n) ∈ polls /\ (n <= 0 \/ stopped_at + Plan.drain_timeout (args c) * 1000 <= now)) ->
  (fst <$> worker_exit c stopped_at polls left cell) = Some (if 0 <? left then DRAIN_TIMEOUT_EXIT_CODE else 0).
Proof.
  intros (now & n & Hin & Hend). unfold worker_exit. set (dl := stopped_at + _) in *.
  enough (drain_code dl polls left = Some (if 0 <? left then DRAIN_TIMEOUT_EXIT_CODE else 0)) as -> by done.
  induction polls as [|[t m] polls IH]; [by apply not_elem_of_nil in Hin|]. cbn [drain_code].
  destruct ((0 <? m) && (t <? dl)) eqn:E; [|done]. apply IH. apply elem_of_cons in Hin as [[= -> ->]|Hin]; [|done].
  apply andb_true_iff in E as [?%Z.ltb_lt ?%Z.ltb_lt]. lia.
Qed.
