(* ===== verification/Logsink.v ===== *)
(** The log sink ([worker/src/logsink.rs]): lines built in the threads that
    log, a bounded channel to one writer thread, which a stalled reader of
    stdout fills but never blocks, and the bounded flush of the exit path. *)
From S2P Require Import Prelude.
Open Scope Z_scope.

Definition CAPACITY : nat := 8192.

(** What became of a line its [LineBuf] hands over: counted in [queued] and
    about to be sent, or refused by a full channel and about to be counted as
    dropped. *)
Inductive handover := Counted (line : bytes) | Refused (line : bytes).

(** The channel, the counters, and what reached stdout; [sending] holds one
    entry per thread inside [LineBuf]'s drop, [writing] the line the writer
    thread has taken. *)
Record LogSink := {
  channel : list bytes; sending : list handover; writing : option bytes;
  queued : Z; written : Z; dropped : Z; reported : Z; out : list bytes;
}.

(** [LogSink::start]. *)
Definition start : LogSink :=
  {| channel := []; sending := []; writing := None; queued := 0; written := 0; dropped := 0; reported := 0; out := [] |}.

(** ** One event's line *)

(** [make_writer], then the pieces of the event, in order. *)
Definition make_writer : bytes := [].
Definition write (buf data : bytes) : bytes * Z := (buf ++ data, Z.of_nat (length data)).
Definition line_of (pieces : list bytes) : bytes := fold_left (fun buf data => (write buf data).1) pieces make_writer.

(** [LineBuf]'s drop up to its send: whole lines only, empty ones not at all. *)
Definition drop_line (s : LogSink) (line : bytes) : LogSink :=
  match line with
  | [] => s
  | _ =>
      {| channel := channel s; sending := sending s ++ [Counted line]; writing := writing s; queued := queued s + 1;
         written := written s; dropped := dropped s; reported := reported s; out := out s |}
  end.

(** Its [try_send]; a refused line is no longer queued. *)
Definition try_send (s : LogSink) (i : nat) (line : bytes) : LogSink :=
  if (length (channel s) <? CAPACITY)%nat
  then {| channel := channel s ++ [line]; sending := delete i (sending s); writing := writing s; queued := queued s;
          written := written s; dropped := dropped s; reported := reported s; out := out s |}
  else {| channel := channel s; sending := <[i := Refused line]> (sending s); writing := writing s; queued := queued s - 1;
          written := written s; dropped := dropped s; reported := reported s; out := out s |}.

(** And its end. *)
Definition count_dropped (s : LogSink) (i : nat) : LogSink :=
  {| channel := channel s; sending := delete i (sending s); writing := writing s; queued := queued s;
     written := written s; dropped := dropped s + 1; reported := reported s; out := out s |}.

Definition send_step (s : LogSink) (i : nat) : LogSink :=
  match sending s !! i with
  | Some (Counted line) => try_send s i line
  | Some (Refused _) => count_dropped s i
  | None => s
  end.

(** ** The writer thread *)

Definition drop_notice (n : Z) : bytes :=
  bytes_of ("cauli: log sink dropped " +:+ dec n +:+ " line(s); the log reader could not keep up
").

Definition take_line (s : LogSink) : LogSink :=
  match writing s, channel s with
  | None, line :: rest =>
      {| channel := rest; sending := sending s; writing := Some line; queued := queued s; written := written s;
         dropped := dropped s; reported := reported s; out := out s |}
  | _, _ => s
  end.

(** [write_all]: the whole text, or an error after some of it. *)
Inductive write_all := Whole | Broken (after : nat).
Definition reaches (r : write_all) (text : bytes) : bytes := match r with Whole => text | Broken n => take n text end.

(** The line, the drops not reported yet, then the count: no write's error is
    looked at. *)
Definition write_line (s : LogSink) (line_write notice_write : write_all) : LogSink :=
  match writing s with
  | Some line =>
      {| channel := channel s; sending := sending s; writing := None; queued := queued s; written := written s + 1;
         dropped := dropped s; reported := Z.max (reported s) (dropped s);
         out := out s ++ [reaches line_write line] ++
           (if reported s <? dropped s then [reaches notice_write (drop_notice (dropped s - reported s))] else []) |}
  | None => s
  end.

Inductive sink_event := Log (pieces : list bytes) | Send (i : nat) | Take | WriteOut (line_write notice_write : write_all).

Definition sink_step (s : LogSink) (e : sink_event) : LogSink :=
  match e with
  | Log pieces => drop_line s (line_of pieces)
  | Send i => send_step s i
  | Take => take_line s
  | WriteOut line_write notice_write => write_line s line_write notice_write
  end.

Definition sink_run (es : list sink_event) (s : LogSink) : LogSink := fold_left sink_step es s.

(** [flush], over what its polls see: the instant and [written]. [None]: still
    waiting; otherwise whether what was queued before it is written. *)
Fixpoint flush (target deadline : Z) (polls : list (Z * Z)) : option bool :=
  match polls with
  | [] => None
  | (now, written) :: polls =>
      if (written <? target) && (now <? deadline) then flush target deadline polls else Some (target <=? written)
  end.

(** ** Nothing accepted is lost, and in order *)

Definition is_counted (h : handover) : bool := match h with Counted _ => true | Refused _ => false end.
Definition counted (s : LogSink) : nat := length (List.filter is_counted (sending s)).

(** Accepted and not on stdout yet, oldest first. *)
Definition pending (s : LogSink) : list bytes := option_list (writing s) ++ channel s.

Record sound (s : LogSink) : Prop := {
  so_queued : queued s = written s + Z.of_nat (length (pending s)) + Z.of_nat (counted s);
  so_bound : (length (channel s) <= CAPACITY)%nat;
  so_reported : 0 <= reported s <= dropped s;
}.

Lemma filter_delete {A} (f : A -> bool) l i x : l !! i = Some x ->
  length (List.filter f l) = (length (List.filter f (delete i l)) + if f x then 1 else 0)%nat.
Proof.
  intros Hi. rewrite <- (take_drop_middle l i x Hi) at 1. rewrite delete_take_drop, !List.filter_app, !length_app. cbn.
  destruct (f x); cbn; lia.
Qed.

Lemma filter_insert {A} (f : A -> bool) l i x y : l !! i = Some x -> f x = true -> f y = false ->
  length (List.filter f l) = S (length (List.filter f (<[i := y]> l))).
Proof.
  intros Hi Hx Hy. rewrite <- (take_drop_middle l i x Hi) at 1. rewrite insert_take_drop by by eapply lookup_lt_Some.
  rewrite !List.filter_app, !length_app. cbn. rewrite Hx, Hy. cbn. lia.
Qed.

Lemma sound_start : sound start.
Proof. split; cbn -[CAPACITY]; lia. Qed.

Lemma sound_step s e : sound s -> sound (sink_step s e).
Proof.
  intros [HQ HB HR]. unfold pending, counted in HQ. rewrite length_app in HQ. destruct e as [ps|i| |r1 r2]; cbn [sink_step].
  - unfold drop_line. destruct (line_of ps) as [|c l]; [split; unfold pending, counted; rewrite ?length_app; lia|].
    split; unfold pending, counted; cbn -[CAPACITY]; rewrite ?List.filter_app, ?length_app; cbn -[CAPACITY]; lia.
  - unfold send_step. destruct (sending s !! i) as [[l|l]|] eqn:E; [| |split; unfold pending, counted; rewrite ?length_app; lia].
    + unfold try_send. destruct (Nat.ltb_spec (length (channel s)) CAPACITY); split; unfold pending, counted;
        cbn [channel sending writing queued written dropped reported]; rewrite ?length_app; cbn [length]; try lia.
      * rewrite (filter_delete is_counted _ _ _ E) in HQ. cbn [is_counted] in HQ. lia.
      * rewrite (filter_insert is_counted _ i (Counted l) (Refused l) E) in HQ by done. lia.
    + split; unfold pending, counted; cbn [channel sending writing queued written dropped reported count_dropped]; rewrite ?length_app; try lia.
      rewrite (filter_delete is_counted _ _ _ E) in HQ. cbn [is_counted] in HQ. lia.
  - unfold take_line. destruct (writing s) eqn:E, (channel s) eqn:E2; split; unfold pending, counted;
      cbn [channel sending writing queued written dropped reported] in *; rewrite ?E, ?E2, ?length_app in *; cbn [option_list option_rect length] in *; lia.
  - unfold write_line. destruct (writing s) eqn:E; split; unfold pending, counted;
      cbn [channel sending writing queued written dropped reported] in *; rewrite ?E, ?length_app in *; cbn [option_list option_rect length] in *; lia.
Qed.

Lemma sound_run es s : sound s -> sound (sink_run es s).
Proof. revert s. induction es as [|e es IH]; intros s Hs; [done|]. by apply IH, sound_step. Qed.

(** No write of a line failed. *)
Definition intact (e : sink_event) : Prop := match e with WriteOut (Broken _) _ => False | _ => True end.

(** What a run wrote: of what waited and came since, the first ones, in order,
    between notices, each of them whole unless its write broke. *)
Record wrote (ok : Prop) (s s' : LogSink) (came text : list bytes) : Prop := {
  wr_out : out s' = out s ++ text;
  wr_count : written s <= written s';
  wr_fits : (Z.to_nat (written s' - written s) <= length (pending s ++ came))%nat;
  wr_lines : exists tried, Forall2 prefix tried (take (Z.to_nat (written s' - written s)) (pending s ++ came)) /\ tried `sublist_of` text /\
    (ok -> tried = take (Z.to_nat (written s' - written s)) (pending s ++ came));
  wr_left : pending s' = drop (Z.to_nat (written s' - written s)) (pending s ++ came);
}.

Lemma wrote_same ok s s' came : out s' = out s -> written s' = written s -> pending s' = pending s ++ came -> wrote ok s s' came [].
Proof.
  intros Ho Hw Hp. split; rewrite ?Ho, ?Hw, ?app_nil_r, ?Z.sub_diag; cbn [Z.to_nat]; [done|lia|lia| |by rewrite drop_0].
  exists []. split_and!; [constructor|done|done].
Qed.

Lemma wrote_step s e : exists came text, wrote (intact e) s (sink_step s e) came text.
Proof.
  destruct e as [ps|i| |r1 r2]; cbn [sink_step].
  - exists [], []. unfold drop_line. destruct (line_of ps); by apply wrote_same; rewrite ?app_nil_r.
  - unfold send_step. destruct (sending s !! i) as [[l|l]|]; [|exists [], []; by apply wrote_same; rewrite ?app_nil_r..].
    unfold try_send. destruct (_ <? _)%nat; [exists [l], []|exists [], []]; apply wrote_same; rewrite ?app_nil_r; try done.
    unfold pending. cbn. by rewrite app_assoc.
  - exists [], []. apply wrote_same; unfold take_line, pending; destruct (writing s) eqn:E, (channel s) eqn:E2; cbn; rewrite ?E, ?E2; cbn; by rewrite ?app_nil_r.
  - unfold write_line. destruct (writing s) as [l|] eqn:E; [|exists [], []; by apply wrote_same; rewrite ?app_nil_r].
    eexists [], _. split; cbn; [reflexivity|lia| | |]; unfold pending; cbn; rewrite E, app_nil_r; replace (Z.to_nat (written s + 1 - written s)) with 1%nat by lia; cbn.
    + lia.
    + exists [reaches r1 l]. split_and!; [|apply sublist_skip, sublist_nil_l|by destruct r1].
      constructor; [|constructor]. destruct r1; [done|]. cbn. exists (drop after l). by rewrite take_drop.
    + by rewrite drop_0.
Qed.

Lemma wrote_trans (ok1 ok2 ok : Prop) s1 s2 s3 c1 t1 c2 t2 : (ok -> ok1 /\ ok2) ->
  wrote ok1 s1 s2 c1 t1 -> wrote ok2 s2 s3 c2 t2 -> wrote ok s1 s3 (c1 ++ c2) (t1 ++ t2).
Proof.
  intros Hok [O1 W1 F1 (x1 & A1 & B1 & L1) P1] [O2 W2 F2 (x2 & A2 & B2 & L2) P2]. rewrite P1 in *.
  assert (EK : Z.to_nat (written s3 - written s1) = (Z.to_nat (written s2 - written s1) + Z.to_nat (written s3 - written s2))%nat) by lia.
  split; [by rewrite O2, O1, app_assoc|lia|..]; rewrite ?EK; revert F1 F2 A1 A2 L1 L2 P2;
    generalize (Z.to_nat (written s2 - written s1)), (Z.to_nat (written s3 - written s2)); intros k j F1 F2 A1 A2 L1 L2 P2.
  - rewrite !length_app, length_drop, !length_app in *. lia.
  - rewrite app_assoc, <- (take_drop k ((pending s1 ++ c1) ++ c2)), take_app_add'; [|rewrite length_take, !length_app in *; lia].
    rewrite take_app_le, drop_app_le by done. exists (x1 ++ x2). split_and!; [by apply Forall2_app|by apply sublist_app|].
    intros [H1 H2]%Hok. by rewrite L1, L2.
  - rewrite P2, <- drop_app_le, drop_drop, app_assoc by done. done.
Qed.

Lemma wrote_run es : forall s, exists came text, wrote (Forall intact es) s (sink_run es s) came text.
Proof.
  induction es as [|e es IH]; intros s; [exists [], []; by apply wrote_same; rewrite ?app_nil_r|].
  destruct (wrote_step s e) as (c1 & t1 & H1), (IH (sink_step s e)) as (c2 & t2 & H2). exists (c1 ++ c2), (t1 ++ t2).
  eapply wrote_trans; [|exact H1|exact H2]. by intros ?%Forall_cons.
Qed.

(** ** The flush *)

(** The polls of a flush: the instant of each, and what the other threads did
    before it. *)
Fixpoint observe (s : LogSink) (polls : list (Z * list sink_event)) : list (Z * Z) :=
  match polls with
  | [] => []
  | (now, es) :: polls => (now, written (sink_run es s)) :: observe (sink_run es s) polls
  end.

Lemma flush_observed target deadline polls : forall s b, flush target deadline (observe s polls) = Some b ->
  exists es, es `prefix_of` concat polls.*2 /\
    if b then target <= written (sink_run es s) else exists now, now ∈ polls.*1 /\ deadline <= now.
Proof.
  induction polls as [|[now es] polls IH]; intros s b; cbn; [done|].
  destruct (Z.ltb_spec (written (sink_run es s)) target) as [Hlt|Hge]; cbn [andb].
  - destruct (Z.ltb_spec now deadline) as [Hn|Hn].
    + intros (es' & [k Hk] & Hb)%IH. exists (es ++ es'). split; [exists k; by rewrite Hk, app_assoc|].
      destruct b; [unfold sink_run in *; by rewrite fold_left_app|]. destruct Hb as (n & Hin & Hd). exists n. split; [by right|done].
    + intros [= <-]. exists []. split; [by eexists|]. rewrite (proj2 (Z.leb_gt _ _)) by lia. exists now. split; [left|done].
  - intros [= <-]. exists es. split; [by apply prefix_app_r|]. by rewrite (proj2 (Z.leb_le _ _)).
Qed.

Lemma flush_ends target deadline polls : forall s now, now ∈ polls.*1 -> deadline <= now ->
  is_Some (flush target deadline (observe s polls)).
Proof.
  induction polls as [|[t es] polls IH]; intros s now; cbn; [by intros ?%not_elem_of_nil|]. intros Hin Hd.
  destruct (_ && _) eqn:E; [|by eexists]. apply andb_true_iff in E as [_ E%Z.ltb_lt].
  apply elem_of_cons in Hin as [->|Hin]; [lia|]. by eapply IH.
Qed.

(** C32. What the exit path's flush promises. Whatever threads log meanwhile, it
    returns at its deadline at the latest, a stuck writer or not; and when it
    returns before, every line the channel had accepted before it was given to
    stdout, in order, and is there in full if stdout took what it was given. *)
Theorem flush_writes_accepted_lines es polls deadline : let s := sink_run es start in
  let answer := flush (queued s) deadline (observe s polls) in
  (forall now, now ∈ polls.*1 -> deadline <= now -> is_Some answer) /\
  (answer = Some false -> exists now, now ∈ polls.*1 /\ deadline <= now) /\
  (answer = Some true -> exists es' text tried, es' `prefix_of` concat polls.*2 /\
     out (sink_run es' s) = out s ++ text /\ tried `sublist_of` text /\ Forall2 prefix tried (pending s) /\
     (Forall intact es' -> tried = pending s)).
Proof.
  intros s answer. split; [intros now; by apply flush_ends|].
  split; intros HF; destruct (flush_observed _ _ _ _ _ HF) as (es' & Hp & Hb); [done|].
  destruct (wrote_run es' s) as (came & text & [HO HW HFi (tried & HA & HS & HT) _]).
  pose proof (so_queued s (sound_run es start sound_start)) as HQ. rewrite take_app_ge in HA, HT by lia.
  apply Forall2_app_inv_r in HA as (t1 & t2 & H1 & H2 & ->). exists es', text, t1. split_and!; [done|done| |done|].
  - etransitivity; [|exact HS]. by apply sublist_inserts_r.
  - intros Hi. apply (app_inj_1 _ _ t2 (take (Z.to_nat (written (sink_run es' s) - written s) - length (pending s)) came)); [|by apply HT].
    by eapply Forall2_length.
Qed.

(** Two lines wait; the writer is at the second when the flush begins. *)
Definition two_lines : list sink_event := [Log [["a"%char]]; Send 0; Log [["b"%char]; ["c"%char]]; Send 0; Take].

Lemma flush_writes_accepted_lines_witness : let s := sink_run two_lines start in
  is_Some (flush (queued s) 1000 (observe s [(0, []); (1, [WriteOut Whole Whole; Take; WriteOut Whole Whole])])) /\
  exists es' text tried, out (sink_run es' s) = out s ++ text /\ tried `sublist_of` text /\ Forall2 prefix tried [["a"]; ["b"; "c"]]%char.
Proof.
  intros s. destruct (flush_writes_accepted_lines two_lines [(0, []); (1, [WriteOut Whole Whole; Take; WriteOut Whole Whole])] 1000) as (_ & _ & H).
  split; [vm_compute; by eexists|]. destruct H as (es' & text & tried & _ & H1 & H2 & H3 & _); [vm_compute; reflexivity|].
  exists es', text, tried. split; [exact H1|]. split; [exact H2|exact H3].
Defined.

(** A closed stdout: the flush returns at once and the line is nowhere. *)
Example closed_stdout_counts_as_written : let s := sink_run [Log [["a"%char]]; Send 0; Take] start in
  let others := [WriteOut (Broken 0) Whole] in
  flush (queued s) 1000 (observe s [(0, others)]) = Some true /\ out (sink_run others s) = [[]].
Proof. vm_compute. done. Qed.

(** A line counted before the flush can be overtaken: another thread counts and
    sends its own after the flush read its target, and the flush stops at that. *)
Example counted_line_overtaken :
  let s := sink_run [Log [["a"%char]]] start in
  let others := [Log [["b"%char]]; Send 1; Take; WriteOut Whole Whole] in
  flush (queued s) 1000 (observe s [(0, others)]) = Some true /\ out (sink_run others s) = [["b"%char]].
Proof. vm_compute. done. Qed.
