(* ===== verification/Main.v ===== *)
(** The process from [main] to [_exit] ([run], [exit_now] and [real_main] of
    [worker/src/lib.rs], [run] of [worker/src/supervisor.rs], [main.rs],
    [wheel_main.rs]): which of a plan print, a supervisor or a worker an argument
    list makes it, and what its exit code says. *)
From S2P Require Import Prelude Float64 Envelope Stats Ctx Pyrt AsyncLane SyncPool Cpu Redis Broker Exec Dispatch Loops Plan Startup Worker Logsink.
Open Scope Z_scope.

(** [Args::try_parse]: the arguments, or why not; help and version are asked for. *)
Inductive parsed := Parsed (a : Args) | Usage (asked : bool).

(** What the host, the children and the signals answer to a process. *)
Record outside := {
  o_cores : Z;
  o_exe_found : bool; o_spawns : list (option Z); o_now : Z; o_events : list sup_event;
  o_built : bool; o_interp : interp; o_env_url : option string; o_host : host; o_dialing : dialing; o_override : option bytes;
  o_stopped_at : Z; o_polls : list (Z * Z); o_left : Z; o_cell : option CpuPool;
}.

(** [supervisor::run]; [None] while its loop runs. *)
Definition supervisor_run (x : outside) : option Z :=
  if negb (o_exe_found x) then Some 1
  else match start_all (o_now x) (o_spawns x) [] with
       | inr _ => Some 1
       | inl s => let s' := supervise s (o_events x) in if done s' then Some (exit_code s') else None
       end.

Section main.
Context {R : Redis}.

(** One worker: refused with 1, or drained once its fetch loop stopped. *)
Definition worker_run (a : Args) (r : Resolved) (x : outside) (w : world) : option Z :=
  match (start_worker a r (o_built x) (o_interp x) (o_env_url x) (o_host x) (o_dialing x) (o_override x) w).1 with
  | inl _ => Some 1
  | inr c => fst <$> worker_exit c (o_stopped_at x) (o_polls x) (o_left x) (o_cell x)
  end.

(** [real_main], the log sink it starts aside ([Logsink]). *)
Definition main_code (p : parsed) (x : outside) (w : world) : option Z :=
  match p with
  | Usage asked => Some (if asked then 0 else 1)
  | Parsed a =>
      match real_main a (o_cores x) with
      | ExitWith code => Some code
      | Supervise _ => supervisor_run x
      | RunWorker r => worker_run a r x w
      end
  end.

(** What ends a process first: its main thread, returning or unwinding, a second
    signal, or the watchdog. *)
Inductive ending := MainReturned | MainPanicked | SecondSignal | Wedged.

Definition PANIC_EXIT_CODE : Z := 101.
Definition FORCED_EXIT_CODE : Z := 130.

(** [run]: the code [exit_now] is given. *)
Definition run (e : ending) (p : parsed) (x : outside) (w : world) : option Z :=
  match e with
  | MainReturned => main_code p x w
  | MainPanicked => Some PANIC_EXIT_CODE
  | SecondSignal => Some FORCED_EXIT_CODE
  | Wedged => Some WEDGE_EXIT_CODE
  end.
End main.

Definition EXIT_LOG_FLUSH_BUDGET_MS : Z := 1000.

(** [exit_now]: the log flushed within its budget, then [_exit]; no line of the
    sink before [LogSink::start]. [None] while the flush waits. *)
Definition exit_now (code now : Z) (sink : option LogSink) (polls : list (Z * list sink_event)) : option Z :=
  match sink with
  | None => Some code
  | Some s => (fun _ => code) <$> flush (queued s) (now + EXIT_LOG_FLUSH_BUDGET_MS) (observe s polls)
  end.

(** ** What an exit code says *)

Lemma drain_code_says dl polls left c : drain_code dl polls left = Some c -> c = if 0 <? left then DRAIN_TIMEOUT_EXIT_CODE else 0.
Proof.
  induction polls as [|[t m] polls IH]; cbn; [done|]. destruct (_ && _); [done|]. congruence.
Qed.

Lemma tick_slot_failed sd now s v : (tick_slot sd now s v).1.2 = true <-> sd = true /\ is_Some (child s) /\ sv_wait v = Exited false.
Proof.
  unfold tick_slot. destruct (child s); [|split; [by destruct (_ && _), (sv_spawn v)|by intros (_ & [? ?] & _)]].
  destruct (sv_wait v) as [| |[]], sd; cbn; (split; [done|]); intros (? & ? & ?); done.
Qed.

(** A child found to have failed while the supervisor drains, at an event, and
    at one of the events until its loop ends. *)
Definition fails_in_drain (s : supervisor) (e : sup_event) : Prop := exists now views i sl, e = Tick now views /\
  shutting_down s = true /\ slots s !! i = Some sl /\ is_Some (child sl) /\ sv_wait (views i) = Exited false.
Definition child_failed (s : supervisor) (es : list sup_event) : Prop := exists es1 e es2, es = es1 ++ e :: es2 /\
  done (supervise s es1) = false /\ fails_in_drain (supervise s es1) e.

Lemma sup_step_code s e : (fails_in_drain s e /\ exit_code (sup_step s e) = 1) \/
  (~ fails_in_drain s e /\ exit_code (sup_step s e) = exit_code s).
Proof.
  destruct e as [|now views]; [right; split; [by intros (? & ? & ? & ? & ? & _)|done]|]. cbn [sup_step exit_code].
  destruct (existsb _ _) eqn:E; [left|right]; (split; [|done]).
  - apply existsb_exists in E as (r & Hr & Hf). apply list_elem_of_In, list_elem_of_lookup in Hr as [i Hi].
    rewrite list_lookup_imap in Hi. destruct (slots s !! i) as [sl|] eqn:Es; [|done]. injection Hi as <-.
    apply tick_slot_failed in Hf as (? & ? & ?). by exists now, views, i, sl.
  - intros (now' & views' & i & sl & [= <- <-] & Hsd & Hi & Hc & Hw). apply not_true_iff_false in E. apply E, existsb_exists.
    eexists. split; [apply list_elem_of_In, (list_elem_of_lookup_2 _ i); by rewrite list_lookup_imap, Hi|]. by apply tick_slot_failed.
Qed.

Lemma child_failed_cons s e es : done s = false -> child_failed s (e :: es) <-> fails_in_drain s e \/ child_failed (sup_step s e) es.
Proof.
  intros Hd. split.
  - intros ([|e1 es1] & e' & es2 & E & H1 & H2); injection E as -> ->; [by left|right]. exists es1, e', es2.
    cbn [supervise] in H1, H2. rewrite Hd in H1, H2. done.
  - intros [H|(es1 & e' & es2 & -> & H1 & H2)]; [by exists [], e, es|]. exists (e :: es1), e', es2. cbn [supervise]. rewrite Hd. done.
Qed.

(** The code of a supervisor: 1 as soon as a child failed in its drain. *)
Lemma supervise_code es : forall s, (child_failed s es /\ exit_code (supervise s es) = 1) \/
  (~ child_failed s es /\ exit_code (supervise s es) = exit_code s).
Proof.
  induction es as [|e es IH]; intros s; [right; split; [by intros ([] & ? & ? & ? & _)|done]|]. cbn [supervise]. destruct (done s) eqn:Hd.
  - right. split; [|done]. intros ([|e1 es1] & e' & es2 & _ & H & _); cbn [supervise] in H; rewrite ?Hd in H; congruence.
  - rewrite child_failed_cons by done. destruct (IH (sup_step s e)) as [[? ->]|[? ->]]; [left; auto|].
    destruct (sup_step_code s e) as [[? ->]|[? ->]]; [left; auto|right]. split; [tauto|done].
Qed.

(** A supervisor ends once it drained, with 1 when it saw a child fail. *)
Lemma supervisor_code x c : supervisor_run x = Some c ->
  (c = 1 /\ (o_exe_found x = false \/ None ∈ o_spawns x)) \/
  exists s, start_all (o_now x) (o_spawns x) [] = inl s /\ done (supervise s (o_events x)) = true /\
    ((c = 1 /\ child_failed s (o_events x)) \/ (c = 0 /\ ~ child_failed s (o_events x))).
Proof.
  unfold supervisor_run. destruct (o_exe_found x); cbn; [|intros [= <-]; auto].
  destruct (start_all (o_now x) (o_spawns x) []) as [s|started] eqn:E.
  - destruct (done _) eqn:Hd; [|done]. intros [= <-]. right. exists s. split_and!; [done..|].
    assert (H0 : exit_code s = 0); [|destruct (supervise_code (o_events x) s) as [[? ->]|[? ->]]; rewrite ?H0; auto].
    revert E. generalize (@nil Z). induction (o_spawns x) as [|[p|] l IH]; intros st; cbn; [by intros [= <-]|apply IH|done].
  - intros [= <-]. left. split; [done|]. right. revert E. generalize (@nil Z).
    induction (o_spawns x) as [|[p|] l IH]; intros st; cbn; [done|right; by eapply IH|left].
Qed.

Section codes.
Context {R : Redis}.

Lemma worker_code a r x (w : world) c : worker_run a r x w = Some c ->
  (c = 1 /\ exists why, (start_worker a r (o_built x) (o_interp x) (o_env_url x) (o_host x) (o_dialing x) (o_override x) w).1 = inl why) \/
  (exists ctx, (start_worker a r (o_built x) (o_interp x) (o_env_url x) (o_host x) (o_dialing x) (o_override x) w).1 = inr ctx /\
    c = if 0 <? o_left x then DRAIN_TIMEOUT_EXIT_CODE else 0).
Proof.
  unfold worker_run. destruct (start_worker _ _ _ _ _ _ _ _ _).1 as [why|ctx]; [intros [= <-]; left; by eauto|].
  unfold worker_exit, mbind, option_bind. destruct (drain_code _ _ _) eqn:E; [|done]. intros [= <-]. right. exists ctx.
  split; [done|]. by eapply drain_code_says.
Qed.

(** What each code stands for. *)
Inductive ended_because (p : parsed) (x : outside) (w : world) : ending -> Z -> Prop :=
| because_panic : ended_because p x w MainPanicked 101
| because_forced : ended_because p x w SecondSignal 130
| because_wedged : ended_because p x w Wedged 87
| because_asked : p = Usage true -> ended_because p x w MainReturned 0
| because_usage : p = Usage false -> ended_because p x w MainReturned 1
| because_flags a : p = Parsed a -> is_Some (flags_error a) \/ is_Some (io_limits_error (resolve a (o_cores x))) ->
    ended_because p x w MainReturned 1
| because_plan a : p = Parsed a -> flags_error a = None -> print_plan a = true -> ended_because p x w MainReturned 0
| because_unstarted a r : p = Parsed a -> real_main a (o_cores x) = Supervise r ->
    o_exe_found x = false \/ None ∈ o_spawns x -> ended_because p x w MainReturned 1
| because_child_failed a r s : p = Parsed a -> real_main a (o_cores x) = Supervise r ->
    start_all (o_now x) (o_spawns x) [] = inl s -> child_failed s (o_events x) -> ended_because p x w MainReturned 1
| because_supervised a r s : p = Parsed a -> real_main a (o_cores x) = Supervise r ->
    start_all (o_now x) (o_spawns x) [] = inl s -> done (supervise s (o_events x)) = true -> ~ child_failed s (o_events x) ->
    ended_because p x w MainReturned 0
| because_refused a r why : p = Parsed a -> real_main a (o_cores x) = RunWorker r ->
    (start_worker a r (o_built x) (o_interp x) (o_env_url x) (o_host x) (o_dialing x) (o_override x) w).1 = inl why ->
    ended_because p x w MainReturned 1
| because_drained a r ctx : p = Parsed a -> real_main a (o_cores x) = RunWorker r ->
    (start_worker a r (o_built x) (o_interp x) (o_env_url x) (o_host x) (o_dialing x) (o_override x) w).1 = inr ctx ->
    o_left x <= 0 -> ended_because p x w MainReturned 0
| because_left a r ctx : p = Parsed a -> real_main a (o_cores x) = RunWorker r ->
    (start_worker a r (o_built x) (o_interp x) (o_env_url x) (o_host x) (o_dialing x) (o_override x) w).1 = inr ctx ->
    0 < o_left x -> ended_because p x w MainReturned 88.

(** C31. An exit code says why the process ended: 101, 130 and 87 a panic, a
    second signal and a wedged event loop; 88 a worker that left tasks running
    past its drain; 0 what was asked for and done, be it the help, the plan, a
    supervisor none of whose children failed in its drain or a worker that
    drained; 1 everything else, a usage error, flags
    or limits refused, a start refused before anything was read, a supervisor that
    could not start a child or saw one fail while it drained. *)
Theorem exit_code_says_why e p x (w : world) c : run e p x w = Some c -> ended_because p x w e c.
Proof.
  destruct e; cbn [run]; try (intros [= <-]; constructor). unfold main_code. destruct p as [a|[]]; [|intros [= <-]; by constructor..].
  destruct (real_main a (o_cores x)) as [code|r|r] eqn:E.
  - intros [= <-]. unfold real_main in E. destruct (flags_error a) eqn:Ef; [injection E as <-; eapply because_flags; [done|rewrite Ef; by left; eexists]|].
    destruct (io_limits_error _) eqn:El; [injection E as <-; eapply because_flags; [done|rewrite El; by right; eexists]|].
    destruct (print_plan a) eqn:Ep; [injection E as <-; by eapply because_plan|]. by destruct (_ <? _).
  - intros [[-> H]|(s & Hs & Hd & [[-> H]|[-> H]])]%supervisor_code;
      [by eapply because_unstarted|by eapply because_child_failed|by eapply because_supervised].
  - intros [[-> [why H]]|(ctx & H & ->)]%worker_code; [by eapply because_refused|].
    destruct (Z.ltb_spec 0 (o_left x)); [by eapply because_left|by eapply because_drained].
Qed.
End codes.

(** A worker with the default flags that stops with three tasks running: its
    drain of 30 s runs out. *)
Definition toy_outside : outside := {|
  o_cores := 4; o_exe_found := true; o_spawns := []; o_now := 0; o_events := [];
  o_built := false; o_interp := toy_interp; o_env_url := None; o_host := toy_host; o_dialing := toy_dialing; o_override := None;
  o_stopped_at := 5000; o_polls := [(5000, 3); (35000, 3)]; o_left := 3; o_cell := None |}.

Lemma exit_code_says_why_witness : ended_because (Parsed defaults) toy_outside toy_world MainReturned 88.
Proof.
  apply exit_code_says_why. unfold run, main_code.
  assert (E : real_main defaults (o_cores toy_outside) = RunWorker (resolve defaults 4)) by (vm_compute; reflexivity). rewrite E.
  unfold worker_run.
  assert (ES : (start_worker defaults (resolve defaults 4) (o_built toy_outside) (o_interp toy_outside) (o_env_url toy_outside)
    (o_host toy_outside) (o_dialing toy_outside) (o_override toy_outside) toy_world).1 =
    inr (wire defaults (resolve defaults 4) toy_app ["default"]%string toy_host)).
  { unfold start_worker. cbn [init walk init_calls ip_works o_interp o_built toy_outside toy_interp ip_config fst].
    change (effective_queues defaults (default_queue toy_app)) with (Ok ["default"%string] : result string (list string)). reflexivity. }
  rewrite ES. vm_compute. reflexivity.
Defined.

(** The exit path: the log of a process whose writer is stuck costs it a second. *)
Example stuck_log_does_not_stop_the_exit :
  let s := sink_run [Log [["a"%char]]; Send 0; Take] start in
  exit_now 0 5000 (Some s) [(5000, []); (5999, [])] = None /\ exit_now 0 5000 (Some s) [(5000, []); (5999, []); (6000, [])] = Some 0.
Proof. vm_compute. done. Qed.
